(* ===== verification/_CoqProject ===== *)
-Q . S2P
Prelude.v
Health.v
Errors.v
Retry.v
Router.v
Fallback.v
Json.v
Stream.v
StreamSpec.v
ReverseStream.v
Sse.v
Messages.v
Period.v
Budget.v
Journal.v
RateLimit.v
Utf8.v
Spans.v
Keyword.v
KeywordSpec.v
ResponseStream.v
ResponseStreamSpec.v
KeywordGate.v
Length.v
Vault.v
Guardrail.v
EngineLease.v
Responses.v
ResponsesSpec.v
Pool.v
Spool.v
Integrity.v
Billing.v
Netip.v
Ssrf.v
SsrfAllowlist.v
Calibration.v
BodyBudget.v
Dispatch.v
Login.v
Idempotency.v
Video.v
Template.v
Captcha.v
Prober.v
