(* ===== verification/Prelude.v ===== *)
(** * CrossLink: a verified model of the LLM gateway

    CrossLink is a gateway between LLM clients and LLM providers.  A request
    comes in as an OpenAI or an Anthropic call, is admitted against rate limits,
    budgets and guardrails, is resolved to an ordered list of provider routes, is
    sent to one route after the other until one answers, and its answer, streamed
    or not, is translated to the protocol of the client and inspected by the
    guardrails on its way out.  Its cost is settled against the budgets, through a
    journal that survives the process, and its usage row is stored through
    write-ahead logs.  This library models the parts that decide
    about that path and proves what they promise.  Definitions carry the names of
    the Go functions they translate.

    ** Files, in dependency order

    - [Prelude] (this file): 64-bit integers with wrap-around, rounding to the
      nearest multiple, Go strings, stable sorting, the shared tactics and lemmas.
    - [Health]: the circuit breaker [provider/health.go].  [HealthTracker] is the
      state; each method is a function on it and [run_ops] interleaves them.
    - [Errors]: upstream errors [provider/errors.go] and the rule table
      [service/error_classifier.go].
    - [Retry]: same-provider retries [provider/retry.go] and their Redis budget
      [provider/retry_budget.go].
    - [Router]: routing strategies, health filter and resolver with its caches
      ([internal/router]).  Scores are IEEE doubles.  [RoutingStrategy] and
      [LawfulStrategies] are the contract of a strategy; the resolver's theorems
      use only the contract and both strategies of the source satisfy it.
    - [Fallback]: cross-provider failover [service/fallback_engine.go], over
      [Health], [Errors] and [Router].
    - [Json]: JSON trees, struct decoding and the chunk types of [internal/domain].
    - [Stream]: OpenAI chunks to Anthropic events [translator/stream.go],
      [translator/stream_events.go], and the relay loop of [service/gateway.go].
    - [StreamSpec]: a client that reads Anthropic events, all that a chunk stream
      says ([said]), the streams that are kept whole ([kept_whole]), and the
      refinement between the two.
    - [ReverseStream]: Anthropic events to OpenAI chunks
      [translator/reverse_stream.go].
    - [Sse]: the SSE read loops of [provider/openai_compatible.go] and
      [provider/anthropic.go].
    - [Messages]: requests and responses in both directions
      ([translator/request.go], [response.go], [reverse_request.go],
      [reverse_response.go]).  [LawfulJson] is the contract of [encoding/json];
      [Json.decode_text] and [Json.encode_text] are a codec that satisfies it.
    - [Period]: the budget periods, with the civil and the ISO calendar.
    - [Budget]: the reservation scripts of [service/budget_service.go] on the
      Redis store they share, and the admission of a request across its scopes.
    - [Journal]: the settlement journal [service/settle_journal.go]: its files,
      torn and interrupted writes, replay rounds under the calibration lock, on
      top of the settle script of [Budget].  [LineCodec] is [encoding/json] on
      journal lines.
    - [RateLimit]: the scripts and the request and token limits of
      [middleware/ratelimit.go], with the settlement of a reservation.
    - [Utf8]: byte strings, runes and [utf8.ValidString].
    - [Spans]: masked spans, their composition and application ([composeSpans],
      [applySpans] of [guardrail/service.go]).
    - [Keyword], [KeywordSpec]: the keyword engine, complete and streamed
      ([guardrail/keyword.go], [keyword_stream.go]), and the agreement of the two.
    - [ResponseStream], [ResponseStreamSpec]: the incremental response stream
      ([guardrail/incremental.go], [incremental_masking.go]) over any sessions
      ([StreamSession]), and its release invariant.
    - [KeywordGate]: the keyword session inside the response stream, end to end.
    - [Length]: the length engine, complete and streamed ([guardrail/length.go],
      [length_stream.go]).
    - [Vault]: reversible masking ([guardrail/pii_vault.go]) and the restoration
      of a streamed answer.
    - [Guardrail]: the rules, their engines and [Check] of
      [guardrail/service.go].
    - [EngineLease]: the leases of stream engines
      ([guardrail/stream_engine_cache.go]).
    - [Responses], [ResponsesSpec]: the Responses API ([translator/responses.go],
      [responses_stream.go], [domain/responses.go]), a client of its event
      protocol and the refinement between the two.
    - [Pool]: the worker pool [worker/pool.go] as a transition system.
    - [Spool]: the usage write-ahead log [handler/usage_spool.go]: a file with its
      stable part, group commit, compaction, replay and crashes as interleaved
      steps.  [RowCodec] is [encoding/json] on usage rows.
    - [Integrity]: the billing integrity block
      ([billingintegrity/integrity.go], [middleware/billing_integrity.go]); its
      calls run operation by operation on the atomics, without a lock.
    - [Billing]: the path of a usage row through both logs, the pool and the
      database [handler/worker.go], over [Spool] and [Integrity].
    - [Netip], [Ssrf], [SsrfAllowlist]: addresses and prefixes of [net/netip] and
      [net], the outbound address policy ([guardrail/ssrf.go], [conntrack.go],
      [redirect.go], [admin/ssrf.go]) with its dialers and live connections, and
      the stored allowlist of any number of instances
      ([service/ssrf_allowlist_service.go]).
    - [Calibration]: the calibration of the budgets against the usage ledger
      [service/budget_calibration.go], next to the traffic of [Budget].
    - [BodyBudget]: the shared budget of request bodies [middleware/body.go], with
      readers that wait for each other.
    - [Dispatch]: the counters of running dispatches and the health score
      ([service/guardrail_dispatch.go], [active_requests.go], [health_score.go]).
    - [Login]: the login, authentication and ingest limits
      ([middleware/login_limiter.go], [auth_limiter.go], [guardapp/ratelimit.go]).
    - [Idempotency]: idempotency keys ([service/idempotency.go] with the steps of
      [handler/openai.go] around it) and event deduplication ([guardapp/idem.go]).
    - [Video]: video tasks [service/video_task_service.go] over Redis.
    - [Template]: prompt templates [service/template_render.go] and their
      expansion into a request [middleware/context_assembler.go], over
      [BodyBudget].
    - [Captcha]: challenges, the judgement of a drag and the trust cookie
      ([internal/captcha]).
    - [Prober]: the circuit prober [service/circuit_prober.go], over [Health].

    ** What the theorems show

    - Streams.  The events a client receives are well formed and carry everything
      the upstream chunks said, for the streams that [kept_whole] accepts (the
      examples next to it show what is lost in others); a client that hangs up received a prefix; a truncated or
      broken upstream never looks like a completed answer, in the translator and
      in the SSE readers; what survives when an Anthropic upstream serves an
      Anthropic client.  A Responses client reads the text and calls of the
      chunks, the same the unstreamed answer has, when there are some.
    - Messages.  Round trips of requests and responses through both
      translations, with the fields that do not survive.
    - Budgets.  [budget = settled + reserved + shadow] is an invariant of every
      interleaving; a request is charged its cost exactly once however often it
      is reserved and settled, up to the nine decimals with which a hold is
      remembered; admission across scopes is all or nothing under
      interference and lost commands; the start of a period is the first instant
      of its key's bucket.
    - Crash recovery.  No journaled settlement inside its guard window is lost in a
      replay round, whatever fails during it short of torn appends; a round that
      succeeds within its deadline settles the intents of a killed process; a
      round terminates.
    - Billing rows.  A row whose submission returned is in the database, on stable
      storage in a log, or counted as lost, on every interleaving and across
      crashes, and a confirmed row reaches the database, as long as no write to a
      log is torn; a loss closes the gate until five more successes are counted,
      unless a success was already past its count; when calls do not overlap the
      gate opens only after demonstrated recovery and the block survives
      restarts; the pool runs every task it accepted exactly once and drains on
      shutdown.
    - Rate limits.  A request adds exactly its tokens to its key's, team's and
      organisation's counter, or nothing when it is refused, when its commands are
      answered within the window; requests per minute
      are bounded in every window; every counter expires.  Login attempts,
      failures and degraded ingestion are limited exactly.
    - Calibration.  In incremental rounds every ledger row is counted once, by its
      request or by a round, and the budget identity survives rounds next to
      traffic; a round without traffic completes.
    - Bodies.  The reserved bytes are what the requests hold and never exceed the
      limit; with aligned ceilings readers do not block each other and every body
      that fits is served.
    - Outbound addresses.  No connection reaches an address the policy forbids,
      whatever names resolve to; the policy admits exactly public and allowlisted
      addresses; an instance holds the policy of the version it names.
    - Requests and tasks.  One request per idempotency key executes at a time, with
      answered claims and within the life of the marker; a
      video task is billed at most once, and when no command fails exactly once
      by the time a client sees it completed, to the tenant that submitted it.
    - Prompts and logins.  Untrusted variables have no influence on a system
      prompt; an expanded request has the prompt first and its other fields as
      decoded (numbers as float64); a challenge passes once; a trust cookie waives the captcha for
      exactly its user, its network and its time.
    - Guardrails.  A keyword stream masks exactly what the check of the complete
      text masks, and never releases a part of it; released text is final,
      verdicts are obeyed and the pieces sent join to the masked text; restoring
      undoes reversible masks, in deltas of any size; nothing passes unexamined;
      engines are current, stay open while leased and are closed in the end.
    - Availability.  One probe at a time passes a half-open circuit; persistent
      circuits survive late successes; blocking is bounded; failover tries a
      prefix of the routes, ends in exactly one outcome and leaves no probe lease
      behind; cancelled calls are not held against a provider; retries and
      backoff are bounded; the prober closes circuits only on evidence and closes
      all of them once the upstream serves; an overloaded provider is demoted.
    - Routing.  The resolver returns exactly the routable rows, never a route
      whose circuit is open, from the cache or not; selection is a permutation
      with the documented order; weights are probabilities.
    - Behaviours that differ from the documentation are theorems too: the failed
      half-open probe, the demoted persistent circuit, the double quarantine, the
      weekly start around New Year, the guardrail engine that survives a change of
      its rule's type, the limits that a default of 0 switches off, the refund that
      arrives in the next window, the journal that closes itself, the torn line
      that hides the next, the overdue round that reports success, the kept line
      that is charged twice, tool calls lost before a text, the goroutine that
      releases a slot it never took, the row behind a torn write, the connection
      that escapes revocation, the calibration rounds that lose or repeat a row,
      the readers of unaligned ceilings, the captcha that resets the login limit,
      the claims that overlap, the video that is never billed, the system field
      that replaces a prompt, the prefix length that panics, the text after a tool
      call and the long arguments that a stream loses, the residue of a refund, the
      output that is null, the dropped task that counts as spilled, the integer
      that is rounded, the release that comes after a loss, the block that a late
      removal forgets, the cookie that is born expired, the long key without
      protection.

    The doc comment of each theorem names its side conditions; where the code
    breaks the claim without one of them, the comment names the example that shows it.

    ** Conventions and bounds

    Clock readings, random draws, upstream answers, Redis failures and the
    operations of other goroutines are arguments, so theorems quantify over all
    of them.  Methods that hold a mutex and Redis scripts are atomic functions;
    interleavings are lists of such steps.  Errors are values of sum or option
    types.  Recursion is structural on the routes, chunks, lines or attempts that
    the Go loops consume; the retry loops recurse on the attempts left, which the
    source bounds as well ([NumRetries] + 1, [MaxRetries] + 1, five settlement
    attempts).  Loops over a text that is consumed in steps of varying width take
    its length as fuel ([runes_upto], [occurrences], [replace_upto], [batches]),
    which suffices because every step consumes at least one byte or line; the wait
    for the calibration lock takes fuel and is proved to end within two attempts
    more than fit into the wait; the paged reads of a calibration round take one page
    more than the ledger has rows, which is proved to suffice; [find_tokens] takes one
    step more than the length of the prompt.  Files that matter for recovery are byte strings;
    a crash keeps any prefix of a file that contains its stable part, and a rename
    after an fsync is atomic and durable.  Integers that can overflow go
    through [wrap64].  Budget amounts are multiples of 1e-17 and their additions are
    exact; a hold is printed with nine decimals as the code does ([fmt9]).  The atomics
    of the integrity block, the overflow channel of the pool (a rendezvous when it is
    unbuffered) and the commands of Redis clients are steps of their own.

    ** Not modelled

    HTTP servers and clients, handlers, SQL repositories and dialects, the admin
    API, configuration with its import and export, logging, tracing and metrics
    (input and output around the modelled decisions); the goroutine pipelines that
    frame SSE events around the response stream ([guardrail/stream_wrapper.go],
    [incremental_sse.go]); provider adapters and registries (HTTP clients); the
    license and the secret stores (wrappers of cryptographic libraries); the MCP
    gateway and the rest of the guard application (transport around external
    servers and around the modelled service); the response cache (similarity of
    embeddings by an external model); pricing (floating-point arithmetic on SQL
    rows); latency and context statistics; image rendering of captchas; the
    process-local fallback of video tasks, which never bills.  The regular
    expressions of guardrail rules, Unicode case mapping, MACs, base64 and
    [encoding/json] are parameters with their documented laws, and the Enterprise
    strategies and engines are not in the repository. *)

From Stdlib Require Export Ascii.
From stdpp Require Export base gmap strings list fin_maps.
From Stdlib Require Export ZArith Lia Sorted.

#[global] Open Scope Z_scope.
#[global] Open Scope list_scope.

(** ** Automation *)

(** Linear arithmetic with division and remainder by constants. *)
Ltac div_lia := Z.div_mod_to_equations; lia.

(** ** Machine integers *)

(** Go's [int], [int64] and [time.Duration] are 64-bit two's complement: every
    operation that can leave the range is followed by [wrap64]. *)
Definition wrap64 (z : Z) : Z := (z + 2 ^ 63) mod 2 ^ 64 - 2 ^ 63.

Definition in_int64 (z : Z) : Prop := - 2 ^ 63 <= z < 2 ^ 63.

Lemma wrap64_id z : in_int64 z -> wrap64 z = z.
Proof. unfold in_int64, wrap64. intros H. rewrite Z.mod_small; lia. Qed.

Lemma wrap64_range z : in_int64 (wrap64 z).
Proof.
  unfold in_int64, wrap64.
  pose proof (Z.mod_pos_bound (z + 2 ^ 63) (2 ^ 64) ltac:(lia)). lia.
Qed.

(** The quotient rounded to the nearest integer, ties to even, as IEEE 754 and
    [strconv] round. *)
Definition round_half_even (a b : Z) : Z :=
  let q := a / b in
  let r := 2 * (a mod b) in
  if r <? b then q else if b <? r then q + 1 else if Z.even q then q else q + 1.

Lemma round_half_even_exact q b : 0 < b -> round_half_even (q * b) b = q.
Proof.
  intros Hb. unfold round_half_even. rewrite Z.mod_mul, Z.div_mul by lia. by destruct (Z.ltb_spec (2 * 0) b); [|lia].
Qed.

Lemma round_half_even_near a b : 0 < b -> 2 * Z.abs (round_half_even a b * b - a) <= b.
Proof.
  intros Hb. unfold round_half_even. pose proof (Z.div_mod a b ltac:(lia)). pose proof (Z.mod_pos_bound a b Hb).
  destruct (Z.ltb_spec (2 * (a mod b)) b); [nia|]. destruct (Z.ltb_spec b (2 * (a mod b))); [nia|]. destruct (Z.even _); nia.
Qed.

(** ** Durations, in nanoseconds as in package [time] *)
Definition Millisecond : Z := 1000000.
Definition Second : Z := 1000 * Millisecond.
Definition Minute : Z := 60 * Second.

(** ** Strings *)
Fixpoint string_has (c : Ascii.ascii) (s : string) : bool :=
  match s with
  | EmptyString => false
  | String d s' => Ascii.eqb c d || string_has c s'
  end.

Lemma string_length_app s1 s2 :
  String.length (s1 +:+ s2) = (String.length s1 + String.length s2)%nat.
Proof. induction s1; simpl; [done|]. by rewrite IHs1. Qed.

Lemma string_app_neq_self s1 s2 : s2 <> "" -> s1 +:+ s2 <> s1.
Proof.
  intros Hne E. apply (f_equal String.length) in E.
  rewrite string_length_app in E. destruct s2; [done|]. simpl in E. lia.
Qed.

Lemma string_app_empty_r s : s +:+ "" = s.
Proof. induction s as [|c s IH]; [done|]. exact (f_equal (String c) IH). Qed.

Lemma string_app_assoc s1 s2 s3 : s1 +:+ (s2 +:+ s3) = (s1 +:+ s2) +:+ s3.
Proof. induction s1 as [|c s1 IH]; [done|]. exact (f_equal (String c) IH). Qed.

Lemma string_app_inj_l s s1 s2 : s +:+ s1 = s +:+ s2 -> s1 = s2.
Proof. induction s; simpl; [done|]. intros [= H]. auto. Qed.

(** ASCII case folding ([strings.ToLower], [strings.EqualFold] on ASCII text). *)
Definition ascii_lower (c : Ascii.ascii) : Ascii.ascii :=
  let n := Ascii.nat_of_ascii c in
  if (65 <=? n)%nat && (n <=? 90)%nat then Ascii.ascii_of_nat (n + 32) else c.

Fixpoint ToLower (s : string) : string :=
  match s with EmptyString => EmptyString | String c s => String (ascii_lower c) (ToLower s) end.

Definition EqualFold (a b : string) : bool := String.eqb (ToLower a) (ToLower b).

Fixpoint HasPrefix (s p : string) : bool :=
  match p, s with
  | EmptyString, _ => true
  | String c p, String d s => Ascii.eqb c d && HasPrefix s p
  | String _ _, EmptyString => false
  end.

(** [strings.Contains] *)
Fixpoint Contains (s sub : string) : bool :=
  HasPrefix s sub || match s with EmptyString => false | String _ s => Contains s sub end.

(** [strings.Split] at a one-byte separator *)
Fixpoint split_on (sep : Ascii.ascii) (s : string) : list string :=
  match s with
  | EmptyString => [EmptyString]
  | String c s =>
      if Ascii.eqb c sep then EmptyString :: split_on sep s
      else match split_on sep s with [] => [String c EmptyString] | w :: ws => String c w :: ws end
  end.

Lemma split_on_app sep a b : split_on sep (a +:+ String sep b) = split_on sep a ++ split_on sep b.
Proof.
  induction a as [|c a IH]; cbn -[String.app].
  - change (split_on sep (String sep b) = EmptyString :: split_on sep b). cbn. by rewrite Ascii.eqb_refl.
  - change (split_on sep (String c (a +:+ String sep b))
      = (if Ascii.eqb c sep then EmptyString :: split_on sep a
         else match split_on sep a with [] => [String c EmptyString] | w :: ws => String c w :: ws end) ++ split_on sep b).
    cbn. rewrite IH. destruct (Ascii.eqb c sep); [done|]. by destruct (split_on sep a) eqn:E; [destruct a; cbn in E; repeat case_match|].
Qed.

Lemma split_on_none sep s : string_has sep s = false -> split_on sep s = [s].
Proof.
  induction s as [|c s IH]; cbn; [done|]. rewrite orb_false_iff. intros [Hc Hs].
  rewrite Ascii.eqb_sym, Hc, IH by done. done.
Qed.

Definition is_space (c : Ascii.ascii) : bool := bool_decide (Ascii.nat_of_ascii c ∈ [9; 10; 11; 12; 13; 32]%nat).

Fixpoint trim_space_left (s : list Ascii.ascii) : list Ascii.ascii :=
  match s with [] => [] | c :: s' => if is_space c then trim_space_left s' else s end.

(** [strings.TrimSpace] on the ASCII spaces *)
Definition TrimSpace (s : string) : string :=
  String.string_of_list_ascii (rev (trim_space_left (rev (trim_space_left (String.list_ascii_of_string s))))).

(** ** Counting *)

(** Updating one element of a list changes a count by that element. *)
Lemma filter_update_count {A} (f : A -> bool) (l : list A) i x y :
  l !! i = Some x ->
  (length (List.filter f (<[i := y]> l)) + (if f x then 1 else 0) = length (List.filter f l) + (if f y then 1 else 0))%nat.
Proof.
  revert i. induction l as [|z l IH]; intros [|i]; try done.
  - intros [= ->]. cbn. destruct (f x), (f y); cbn; lia.
  - intros H. specialize (IH i H). change (<[S i := y]> (z :: l)) with (z :: <[i := y]> l). cbn [List.filter].
    destruct (f z); cbn [length]; lia.
Qed.

(** ** Stable insertion sort

    [sort.SliceStable] sorts blocks by this insertion sort (a new element moves
    left past every element it is less than) and merges them stably, so for a
    strict weak order the two agree on every input. *)
Section StableSort.
Context {A : Type} (less : A -> A -> bool).

(** The sorted prefix is kept reversed: its head is its last element. *)
Fixpoint insert_rev (x : A) (rp : list A) : list A :=
  match rp with
  | [] => [x]
  | y :: rp' => if less x y then y :: insert_rev x rp' else x :: rp
  end.

Definition stable_sort (l : list A) : list A := rev (fold_left (fun rp x => insert_rev x rp) l []).

Lemma insert_rev_perm x rp : insert_rev x rp ≡ₚ x :: rp.
Proof.
  induction rp as [|y rp IH]; simpl; [done|]. case_match; [|done].
  rewrite IH. apply Permutation_swap.
Qed.

Lemma stable_sort_perm l : stable_sort l ≡ₚ l.
Proof.
  unfold stable_sort. rewrite <- Permutation_rev.
  assert (H : forall acc, fold_left (fun rp x => insert_rev x rp) l acc ≡ₚ l ++ acc).
  { induction l as [|x l IH]; intros acc; simpl; [done|].
    rewrite IH, insert_rev_perm. by rewrite <- Permutation_middle. }
  by rewrite H, app_nil_r.
Qed.

(** [x] may come before [y]: [y] is not less than [x]. *)
Definition ordered (x y : A) : Prop := less y x = false.

Context (P : A -> Prop).
Context (less_asym : forall x y, P x -> P y -> less x y = true -> less y x = false).
Context (ordered_trans : forall x y z, P x -> P y -> P z -> ordered x y -> ordered y z -> ordered x z).

Lemma insert_rev_sorted x rp :
  P x -> Forall P rp -> StronglySorted (flip ordered) rp -> StronglySorted (flip ordered) (insert_rev x rp).
Proof.
  intros Px HP Hs. induction Hs as [|y rp Hs IH Hy]; simpl.
  { repeat constructor. }
  inversion HP as [|?? Py HP']; subst. case_match eqn:E.
  - constructor; [by apply IH|]. rewrite insert_rev_perm. constructor; [|done].
    unfold flip, ordered. by apply less_asym.
  - constructor; [by constructor|]. constructor; [done|].
    rewrite Forall_forall in Hy, HP' |- *. intros z Hz. unfold flip in *.
    eapply ordered_trans; [| |done| |done]; eauto.
Qed.

Lemma StronglySorted_snoc (R : A -> A -> Prop) l x :
  StronglySorted R l -> Forall (fun y => R y x) l -> StronglySorted R (l ++ [x]).
Proof.
  induction 1 as [|y l Hs IH Hy]; intros Hx; simpl; [repeat constructor|].
  inversion Hx; subst. constructor; [by apply IH|].
  apply Forall_app. split; [done|]. by repeat constructor.
Qed.

Lemma rev_sorted rp : StronglySorted (flip ordered) rp -> StronglySorted ordered (rev rp).
Proof.
  induction 1 as [|y rp Hs IH Hy]; simpl; [constructor|].
  apply StronglySorted_snoc; [done|]. by rewrite <- Permutation_rev.
Qed.

Lemma stable_sort_sorted l : Forall P l -> StronglySorted ordered (stable_sort l).
Proof.
  intros HP. apply rev_sorted.
  assert (H : forall acc, Forall P acc -> StronglySorted (flip ordered) acc ->
    StronglySorted (flip ordered) (fold_left (fun rp x => insert_rev x rp) l acc)).
  { induction HP as [|x l Px HP IH]; intros acc Ha Hs; simpl; [done|].
    apply IH; [|by apply insert_rev_sorted]. rewrite insert_rev_perm. by constructor. }
  apply H; constructor.
Qed.
End StableSort.

(** The first element of a sorted list that passes a test is minimal among those that do. *)
Lemma find_sorted_minimal {A} (R : A -> A -> Prop) (f : A -> bool) l x y :
  StronglySorted R l -> List.find f l = Some x -> y ∈ l -> f y = true -> y = x \/ R x y.
Proof.
  intros Hs. induction Hs as [|z l Hs IH Hz]; simpl; [done|].
  destruct (f z) eqn:E.
  - intros [= <-] [->|Hy]%elem_of_cons _; [by left|]. right.
    rewrite Forall_forall in Hz. auto.
  - intros Hf [->|Hy]%elem_of_cons Hfy; [congruence|]. auto.
Qed.
