(* ===== verification/Health.v ===== *)
(** * Circuit breaker: [internal/provider/health.go]

    The process-local health tracker: one circuit per account key (provider
    name) and one per model key (name|model).  Every method of the source holds
    the tracker's mutex for its whole body, so each is one atomic function on
    the tracker; [health_op] and [run_ops] interleave them.  A reading of
    [time.Now()] is an argument; a method that reads the clock several times
    takes the sequence of its readings. *)

From S2P Require Import Prelude.

(** ** Data *)

Inductive circuitKind := kindTransient | kindPersistent.

Inductive CircuitStateT := CircuitClosed | CircuitHalfOpen | CircuitOpen.

#[export] Instance circuitKind_eq_dec : EqDecision circuitKind.
Proof. solve_decision. Defined.

#[export] Instance CircuitStateT_eq_dec : EqDecision CircuitStateT.
Proof. solve_decision. Defined.

(** [iota] values of the constants: higher is more severe. *)
Definition circuit_rank (s : CircuitStateT) : Z :=
  match s with CircuitClosed => 0 | CircuitHalfOpen => 1 | CircuitOpen => 2 end.

Definition CircuitStateT_String (s : CircuitStateT) : string :=
  match s with
  | CircuitOpen => "open"
  | CircuitHalfOpen => "half_open"
  | CircuitClosed => "closed"
  end.

(** [openUntil = None] is Go's zero [time.Time]. *)
Record circuitState := mkCircuit {
  kind : circuitKind;
  consecutiveFails : Z;
  openUntil : option Z;
  probeInFlight : bool;
  openCount : Z;
  lastErrType : string;
  lastErrMsg : string
}.

Record HealthTracker := mkTracker {
  states : gmap string circuitState;
  transientThreshold : Z;
  persistentCooldown : Z;
  transientCooldown : Z;
  maxEscalation : Z;
  retryAfterMin : Z;
  retryAfterMax : Z
}.

Record ProviderHealthSnapshot := mkSnapshot {
  snapProvider : string;
  snapModel : string;
  snapState : string;
  snapUntil : option Z;
  snapOpenCount : Z;
  snapLastErrorType : string;
  snapLastErrorMessage : string
}.

Definition with_states (h : HealthTracker) (m : gmap string circuitState) : HealthTracker :=
  {| states := m; transientThreshold := transientThreshold h;
     persistentCooldown := persistentCooldown h; transientCooldown := transientCooldown h;
     maxEscalation := maxEscalation h; retryAfterMin := retryAfterMin h;
     retryAfterMax := retryAfterMax h |}.

Definition set_probe (b : bool) (s : circuitState) : circuitState :=
  {| kind := kind s; consecutiveFails := consecutiveFails s; openUntil := openUntil s;
     probeInFlight := b; openCount := openCount s; lastErrType := lastErrType s;
     lastErrMsg := lastErrMsg s |}.

(** [&circuitState{kind: k}] *)
Definition new_circuit (k : circuitKind) : circuitState :=
  {| kind := k; consecutiveFails := 0; openUntil := None; probeInFlight := false;
     openCount := 0; lastErrType := ""; lastErrMsg := "" |}.

Definition NewHealthTrackerWithConfig (failThreshold openDuration : Z) : HealthTracker :=
  let failThreshold := if failThreshold <=? 0 then 3 else failThreshold in
  let openDuration := if openDuration <=? 0 then 60 * Second else openDuration in
  {| states := ∅; transientThreshold := failThreshold; persistentCooldown := 30 * Minute;
     transientCooldown := openDuration; maxEscalation := 5 * Minute;
     retryAfterMin := 5 * Second; retryAfterMax := 5 * Minute |}.

Definition NewHealthTracker : HealthTracker := NewHealthTrackerWithConfig 3 (60 * Second).

(** ** Time comparisons with a possibly zero deadline *)

(** [now.Before(t)]: the zero time is before every clock reading. *)
Definition before (now : Z) (t : option Z) : bool :=
  match t with Some t => now <? t | None => false end.

(** [!t.IsZero() && now.After(t)] *)
Definition expired (now : Z) (t : option Z) : bool :=
  match t with Some t => t <? now | None => false end.

(** ** Keys *)

Definition key (name model scope : string) : string :=
  if String.eqb scope "model" && negb (String.eqb model "") then name +:+ "|" +:+ model else name.

(** [keys := []string{name}; if model != "" { keys = append(keys, name+"|"+model) }] *)
Definition keys (name model : string) : list string :=
  if String.eqb model "" then [name] else [name; name +:+ "|" +:+ model].

Definition bar : Ascii.ascii := Ascii.Ascii false false true true true true true false.

(** [strings.LastIndex(k, "|")]: split at the last bar, if any. *)
Fixpoint split_last_bar (k : string) : option (string * string) :=
  match k with
  | EmptyString => None
  | String c k' =>
      match split_last_bar k' with
      | Some (n, m) => Some (String c n, m)
      | None => if Ascii.eqb c bar then Some ("", k') else None
      end
  end.

(** ** Reads *)

Definition blockedOrProbed (now : Z) (h : HealthTracker) (k : string) : bool :=
  match states h !! k with
  | None => false
  | Some s =>
      match openUntil s with
      | None => false
      | Some t => if now <? t then true else probeInFlight s
      end
  end.

(** Pass 1 of [IsHealthyModel]: the [i]-th key is tested against the [i]-th
    reading of the clock. *)
Fixpoint anyBlocked (clk : nat -> Z) (i : nat) (h : HealthTracker) (ks : list string) : bool :=
  match ks with
  | [] => false
  | k :: ks => if blockedOrProbed (clk i) h k then true else anyBlocked clk (S i) h ks
  end.

(** Pass 2 of [IsHealthyModel]: become the probe for every expired key. *)
Fixpoint claimProbes (clk : nat -> Z) (i : nat) (m : gmap string circuitState)
    (ks : list string) : gmap string circuitState :=
  match ks with
  | [] => m
  | k :: ks =>
      let m' := match m !! k with
                | Some s => if expired (clk i) (openUntil s) then <[k := set_probe true s]> m else m
                | None => m
                end in
      claimProbes clk (S i) m' ks
  end.

Definition IsHealthyModel (clk : nat -> Z) (h : HealthTracker) (name model : string)
    : bool * HealthTracker :=
  let ks := keys name model in
  if anyBlocked clk 0 h ks then (false, h)
  else (true, with_states h (claimProbes clk (length ks) (states h) ks)).

Definition IsHealthy (clk : nat -> Z) (h : HealthTracker) (name : string) : bool * HealthTracker :=
  IsHealthyModel clk h name "".

(** The state of one circuit at [now], as [CircuitState] and [Snapshot] compute it. *)
Definition circuit_state_of (now : Z) (s : circuitState) : CircuitStateT :=
  match openUntil s with
  | None => CircuitClosed
  | Some t => if now <? t then CircuitOpen else CircuitHalfOpen
  end.

Definition worse (a b : CircuitStateT) : CircuitStateT :=
  if circuit_rank a <? circuit_rank b then b else a.

Definition key_state (now : Z) (h : HealthTracker) (k : string) : CircuitStateT :=
  match states h !! k with Some s => circuit_state_of now s | None => CircuitClosed end.

Definition CircuitState (now : Z) (h : HealthTracker) (name model : string) : CircuitStateT :=
  fold_left (fun worst k => worse worst (key_state now h k)) (keys name model) CircuitClosed.

Definition snapshot_entry (now : Z) (k : string) (s : circuitState) : ProviderHealthSnapshot :=
  let '(name, model) := match split_last_bar k with Some nm => nm | None => (k, "") end in
  {| snapProvider := name; snapModel := model;
     snapState := CircuitStateT_String (circuit_state_of now s); snapUntil := openUntil s;
     snapOpenCount := openCount s; snapLastErrorType := lastErrType s;
     snapLastErrorMessage := lastErrMsg s |}.

(** Go iterates a map in an unspecified order; [map_to_list] fixes one. *)
Definition Snapshot (now : Z) (h : HealthTracker) : list ProviderHealthSnapshot :=
  (fun '(k, s) => snapshot_entry now k s) <$> map_to_list (states h).

(** ** Writes *)

Definition escalatedCooldown (h : HealthTracker) (n : Z) : Z :=
  let shift := n - 1 in
  let shift := if shift <? 0 then 0 else shift in
  let shift := if 16 <? shift then 16 else shift in
  let d := wrap64 (Z.shiftl (transientCooldown h) shift) in
  if (d <=? 0) || (maxEscalation h <? d) then maxEscalation h else d.

Definition clampRetryAfter (h : HealthTracker) (d : Z) : Z :=
  if d <=? 0 then transientCooldown h
  else if d <? retryAfterMin h then retryAfterMin h
  else if retryAfterMax h <? d then retryAfterMax h
  else d.

Definition transient_fail (h : HealthTracker) (now retryAfter : Z) (s : circuitState) : circuitState :=
  if expired now (openUntil s) then
    {| kind := kind s; consecutiveFails := 1; openUntil := None; probeInFlight := false;
       openCount := openCount s; lastErrType := lastErrType s; lastErrMsg := lastErrMsg s |}
  else
    let fails := consecutiveFails s + 1 in
    if transientThreshold h <=? fails then
      let oc := openCount s + 1 in
      let open := if 0 <? retryAfter then clampRetryAfter h retryAfter
                  else escalatedCooldown h oc in
      {| kind := kindTransient; consecutiveFails := fails; openUntil := Some (now + open);
         probeInFlight := false; openCount := oc; lastErrType := lastErrType s;
         lastErrMsg := lastErrMsg s |}
    else
      {| kind := kind s; consecutiveFails := fails; openUntil := openUntil s;
         probeInFlight := false; openCount := openCount s; lastErrType := lastErrType s;
         lastErrMsg := lastErrMsg s |}.

Definition recordTransientOnKey (now : Z) (h : HealthTracker) (k : string) (retryAfter : Z)
    : HealthTracker :=
  let s := default (new_circuit kindTransient) (states h !! k) in
  with_states h (<[k := transient_fail h now retryAfter s]> (states h)).

Definition RecordTransientFailure (now : Z) (h : HealthTracker) (name model : string)
    (retryAfter : Z) : HealthTracker :=
  recordTransientOnKey now h name retryAfter.

Definition RecordFailure (now : Z) (h : HealthTracker) (name : string) : HealthTracker :=
  RecordTransientFailure now h name "" 0.

Definition RecordRateLimitFailure (now : Z) (h : HealthTracker) (name model : string)
    (retryAfter : Z) : HealthTracker :=
  if String.eqb model "" then recordTransientOnKey now h name retryAfter
  else recordTransientOnKey now h (name +:+ "|" +:+ model) retryAfter.

Definition persistent_fail (now cooldown : Z) (s : circuitState) : circuitState :=
  {| kind := kindPersistent; consecutiveFails := 0; openUntil := Some (now + cooldown);
     probeInFlight := false; openCount := openCount s; lastErrType := lastErrType s;
     lastErrMsg := lastErrMsg s |}.

Definition RecordPersistentFailure (now : Z) (h : HealthTracker) (name model scope : string)
    (cooldown : Z) : HealthTracker :=
  let cooldown := if cooldown <=? 0 then persistentCooldown h else cooldown in
  let k := key name model scope in
  let s := default (new_circuit kindTransient) (states h !! k) in
  with_states h (<[k := persistent_fail now cooldown s]> (states h)).

Definition is_persistent (k : circuitKind) : bool :=
  match k with kindPersistent => true | kindTransient => false end.

Definition RecordSuccessModel (now : Z) (h : HealthTracker) (name model : string) : HealthTracker :=
  let m := if String.eqb model "" then states h else delete (name +:+ "|" +:+ model) (states h) in
  match m !! name with
  | None => with_states h m
  | Some s =>
      if is_persistent (kind s) && before now (openUntil s) then with_states h m
      else with_states h (delete name m)
  end.

Definition RecordSuccess (now : Z) (h : HealthTracker) (name : string) : HealthTracker :=
  RecordSuccessModel now h name "".

Definition ClearProbe (h : HealthTracker) (name model : string) : HealthTracker :=
  with_states h (foldr (fun k m => alter (set_probe false) k m) (states h) (keys name model)).

Definition ResolveCircuit (h : HealthTracker) (name model : string) : HealthTracker :=
  with_states h (foldr (fun k m => delete k m) (states h) (keys name model)).

Definition set_cause (errType msg : string) (s : circuitState) : circuitState :=
  {| kind := kind s; consecutiveFails := consecutiveFails s; openUntil := openUntil s;
     probeInFlight := probeInFlight s; openCount := openCount s; lastErrType := errType;
     lastErrMsg := msg |}.

(** [if len(msg) > 200 { msg = msg[:200] }] *)
Definition truncate200 (msg : string) : string :=
  if (200 <? String.length msg)%nat then String.substring 0 200 msg else msg.

Definition RecordCause (h : HealthTracker) (name model errType msg : string) : HealthTracker :=
  let msg := truncate200 msg in
  with_states h (foldr (fun k m => alter (set_cause errType msg) k m) (states h) (keys name model)).

(** What [OpenCircuitDescription] prints, before formatting. *)
Record circuit_desc := mkDesc {
  descName : string;
  descReopensIn : Z;
  descCause : option (string * string);
  descOpenNo : option Z
}.

(** [time.Duration.Round(time.Second)] *)
Definition round_second (d : Z) : Z :=
  let r := Z.rem d Second in
  if d <? 0 then
    let r := - r in if r + r <? Second then d + r else d - Second + r
  else if r + r <? Second then d - r else d + Second - r.

Definition later_open (now : Z) (best : option circuitState) (s : option circuitState)
    : option circuitState :=
  match s with
  | None => best
  | Some s =>
      match openUntil s with
      | None => best
      | Some t =>
          if now <? t then
            match best with
            | None => Some s
            | Some b => if expired t (openUntil b) then Some s else best
            end
          else best
      end
  end.

(** [now'] is the second clock reading ([time.Until]); [None] is the empty string. *)
Definition OpenCircuitDescription (now now' : Z) (h : HealthTracker) (name model : string)
    : option circuit_desc :=
  match fold_left (fun b k => later_open now b (states h !! k)) (keys name model) None with
  | None => None
  | Some b =>
      let caused := negb (String.eqb (lastErrType b) "") || negb (String.eqb (lastErrMsg b) "") in
      Some {| descName := name;
              descReopensIn := round_second (default 0 (openUntil b) - now');
              descCause := if caused then Some (lastErrType b, lastErrMsg b) else None;
              descOpenNo := if caused && (1 <? openCount b) then Some (openCount b) else None |}
  end.

Definition SetMaxEscalation (h : HealthTracker) (d : Z) : HealthTracker :=
  {| states := states h; transientThreshold := transientThreshold h;
     persistentCooldown := persistentCooldown h; transientCooldown := transientCooldown h;
     maxEscalation := d; retryAfterMin := retryAfterMin h; retryAfterMax := retryAfterMax h |}.

Definition SetPersistentCooldown (h : HealthTracker) (d : Z) : HealthTracker :=
  {| states := states h; transientThreshold := transientThreshold h;
     persistentCooldown := d; transientCooldown := transientCooldown h;
     maxEscalation := maxEscalation h; retryAfterMin := retryAfterMin h;
     retryAfterMax := retryAfterMax h |}.

Definition SetRetryAfterBounds (h : HealthTracker) (mn mx : Z) : HealthTracker :=
  {| states := states h; transientThreshold := transientThreshold h;
     persistentCooldown := persistentCooldown h; transientCooldown := transientCooldown h;
     maxEscalation := maxEscalation h; retryAfterMin := mn; retryAfterMax := mx |}.

Definition UpdateConfig (h : HealthTracker) (failThreshold openDuration : Z) : HealthTracker :=
  {| states := states h;
     transientThreshold := if 0 <? failThreshold then failThreshold else transientThreshold h;
     persistentCooldown := persistentCooldown h;
     transientCooldown := if 0 <? openDuration then openDuration else transientCooldown h;
     maxEscalation := maxEscalation h; retryAfterMin := retryAfterMin h;
     retryAfterMax := retryAfterMax h |}.

(** ** Interleavings *)

(** One atomic call on the tracker, by any goroutine. *)
Inductive health_op :=
  | OpIsHealthy (clk : nat -> Z) (name model : string)
  | OpSuccess (now : Z) (name model : string)
  | OpTransient (now : Z) (name model : string) (retryAfter : Z)
  | OpRateLimit (now : Z) (name model : string) (retryAfter : Z)
  | OpPersistent (now : Z) (name model scope : string) (cooldown : Z)
  | OpClearProbe (name model : string)
  | OpResolve (name model : string)
  | OpCause (name model errType msg : string)
  | OpUpdateConfig (failThreshold openDuration : Z)
  | OpSetMaxEscalation (d : Z)
  | OpSetPersistentCooldown (d : Z)
  | OpSetRetryAfterBounds (mn mx : Z).

Definition apply_op (o : health_op) (h : HealthTracker) : HealthTracker :=
  match o with
  | OpIsHealthy clk n m => snd (IsHealthyModel clk h n m)
  | OpSuccess now n m => RecordSuccessModel now h n m
  | OpTransient now n m ra => RecordTransientFailure now h n m ra
  | OpRateLimit now n m ra => RecordRateLimitFailure now h n m ra
  | OpPersistent now n m sc c => RecordPersistentFailure now h n m sc c
  | OpClearProbe n m => ClearProbe h n m
  | OpResolve n m => ResolveCircuit h n m
  | OpCause n m et msg => RecordCause h n m et msg
  | OpUpdateConfig ft od => UpdateConfig h ft od
  | OpSetMaxEscalation d => SetMaxEscalation h d
  | OpSetPersistentCooldown d => SetPersistentCooldown h d
  | OpSetRetryAfterBounds mn mx => SetRetryAfterBounds h mn mx
  end.

Definition run_ops (os : list health_op) (h : HealthTracker) : HealthTracker :=
  fold_left (fun h o => apply_op o h) os h.

(** The keys a call may write outside of the probe flag claimed by [IsHealthyModel]. *)
Definition writes (o : health_op) : list string :=
  match o with
  | OpIsHealthy _ _ _ | OpCause _ _ _ _ | OpUpdateConfig _ _
  | OpSetMaxEscalation _ | OpSetPersistentCooldown _ | OpSetRetryAfterBounds _ _ => []
  | OpTransient _ n _ _ => [n]
  | OpRateLimit _ n m _ => if String.eqb m "" then [n] else [n +:+ "|" +:+ m]
  | OpPersistent _ n m sc _ => [key n m sc]
  | OpSuccess _ n m | OpClearProbe n m | OpResolve n m => keys n m
  end.

(** ** Lemmas *)

Lemma bar_key_neq name m : name +:+ "|" +:+ m <> name.
Proof. by apply string_app_neq_self. Qed.

Lemma keys_NoDup name model : NoDup (keys name model).
Proof.
  unfold keys. destruct (String.eqb model ""); [apply NoDup_singleton|].
  apply NoDup_cons; split; [|apply NoDup_singleton].
  rewrite list_elem_of_singleton. intros E. by destruct (bar_key_neq name model).
Qed.

Lemma name_in_keys name model : name ∈ keys name model.
Proof. unfold keys. destruct (String.eqb model ""); set_solver. Qed.

(** The circuit a claimed key holds differs from the old one in the flag only. *)
Definition probe_mono (s s' : circuitState) : Prop := s' = s \/ s' = set_probe true s.

Lemma claimProbes_None clk i m ks k :
  m !! k = None -> claimProbes clk i m ks !! k = None.
Proof.
  revert i m. induction ks as [|k' ks IH]; intros i m Hk; simpl; [done|].
  apply IH. repeat case_match; try done.
  rewrite lookup_insert_ne; [done|]. congruence.
Qed.

Lemma claimProbes_mono clk i m ks k s :
  m !! k = Some s -> exists s', claimProbes clk i m ks !! k = Some s' /\ probe_mono s s'.
Proof.
  revert i m s. induction ks as [|k' ks IH]; intros i m s Hk; simpl.
  { exists s. by split; [|left]. }
  destruct (decide (k' = k)) as [->|Hne].
  - rewrite Hk. case_match; [|by apply IH].
    destruct (IH (S i) (<[k:=set_probe true s]> m) (set_probe true s)) as (s' & E & Hm).
    { by rewrite lookup_insert_eq. }
    exists s'. split; [done|]. right. destruct Hm as [->| ->]; done.
  - apply IH. repeat case_match; try done. by rewrite lookup_insert_ne.
Qed.

Lemma claimProbes_other clk i m ks k : k ∉ ks -> claimProbes clk i m ks !! k = m !! k.
Proof.
  revert i m. induction ks as [|k' ks IH]; intros i m Hk; simpl; [done|].
  rewrite IH by set_solver. repeat case_match; try done. rewrite lookup_insert_ne; set_solver.
Qed.

(** An expired key in the list is claimed. *)
Lemma claimProbes_claims clk i m ks k s t :
  m !! k = Some s -> openUntil s = Some t -> (forall j, t < clk j) -> k ∈ ks ->
  claimProbes clk i m ks !! k = Some (set_probe true s).
Proof.
  intros Hk Ht Hclk Hin. revert i m Hk. induction ks as [|k' ks IH]; intros i m Hk.
  { set_solver. }
  destruct (decide (k' = k)) as [->|Hne]; simpl.
  - rewrite Hk. unfold expired. rewrite Ht. destruct (Z.ltb_spec t (clk i)) as [_|]; [|specialize (Hclk i); lia].
    destruct (claimProbes_mono clk (S i) (<[k:=set_probe true s]> m) ks k (set_probe true s))
      as (s' & E & Hm); [by rewrite lookup_insert_eq|].
    rewrite E. by destruct Hm as [->| ->].
  - apply IH; [set_solver|]. repeat case_match; try done. by rewrite lookup_insert_ne.
Qed.

(** A blocked key makes the gate answer no. *)
Lemma anyBlocked_intro clk i h ks k :
  k ∈ ks -> (forall j, blockedOrProbed (clk j) h k = true) -> anyBlocked clk i h ks = true.
Proof.
  intros Hin Hb. revert i. induction ks as [|k' ks IH]; intros i; [set_solver|]. simpl.
  destruct (decide (k' = k)) as [->|Hne]; [by rewrite Hb|].
  case_match; [done|]. apply IH. set_solver.
Qed.

Lemma foldr_alter_lookup (f : circuitState -> circuitState) (m : gmap string circuitState) ks k :
  k ∉ ks -> foldr (fun k m => alter f k m) m ks !! k = m !! k.
Proof.
  induction ks as [|k' ks IH]; intros Hk; simpl; [done|].
  rewrite lookup_alter_ne by set_solver. apply IH. set_solver.
Qed.

Lemma foldr_alter_lookup_in (f : circuitState -> circuitState) (m : gmap string circuitState) ks k :
  NoDup ks -> k ∈ ks -> foldr (fun k m => alter f k m) m ks !! k = f <$> m !! k.
Proof.
  induction 1 as [|k' ks Hni Hnd IH]; intros Hk; simpl; [set_solver|].
  destruct (decide (k' = k)) as [->|Hne].
  - rewrite lookup_alter_eq. by rewrite foldr_alter_lookup.
  - rewrite lookup_alter_ne by done. apply IH. set_solver.
Qed.

Lemma foldr_delete_lookup (m : gmap string circuitState) ks k :
  k ∉ ks -> foldr (fun k m => delete k m) m ks !! k = m !! k.
Proof.
  induction ks as [|k' ks IH]; intros Hk; simpl; [done|].
  rewrite lookup_delete_ne by set_solver. apply IH. set_solver.
Qed.

Lemma foldr_alter_cases (f : circuitState -> circuitState) (m : gmap string circuitState) ks k :
  NoDup ks -> foldr (fun k m => alter f k m) m ks !! k = m !! k \/
  foldr (fun k m => alter f k m) m ks !! k = f <$> m !! k.
Proof.
  intros Hnd. destruct (decide (k ∈ ks)).
  - right. by apply foldr_alter_lookup_in.
  - left. by apply foldr_alter_lookup.
Qed.

(** What a circuit keeps under calls that do not write its key: everything but
    the recorded cause, and a claimed probe stays claimed. *)
Record same_gate (s s' : circuitState) : Prop := {
  sg_kind : kind s' = kind s;
  sg_fails : consecutiveFails s' = consecutiveFails s;
  sg_until : openUntil s' = openUntil s;
  sg_count : openCount s' = openCount s;
  sg_probe : probeInFlight s = true -> probeInFlight s' = true
}.

#[export] Instance same_gate_preorder : PreOrder same_gate.
Proof.
  split.
  - intros s. by split.
  - intros s1 s2 s3 [] []. split; [congruence..|auto].
Qed.

Lemma probe_mono_same_gate s s' : probe_mono s s' -> same_gate s s'.
Proof. intros [->| ->]; by split. Qed.

Lemma set_cause_same_gate et msg s : same_gate s (set_cause et msg s).
Proof. by split. Qed.

Create HintDb crosslink.
#[export] Hint Resolve probe_mono_same_gate set_cause_same_gate name_in_keys keys_NoDup : crosslink.

Lemma IsHealthyModel_frame clk h n m k s :
  states h !! k = Some s ->
  exists s', states (snd (IsHealthyModel clk h n m)) !! k = Some s' /\ probe_mono s s'.
Proof.
  intros Hk. unfold IsHealthyModel. case_match; simpl.
  - exists s. by split; [|left].
  - by apply claimProbes_mono.
Qed.

Lemma recordTransient_other now h k k' ra :
  k <> k' -> states (recordTransientOnKey now h k ra) !! k' = states h !! k'.
Proof. intros Hne. simpl. by rewrite lookup_insert_ne. Qed.

Lemma RecordSuccess_other now h n m k :
  k ∉ keys n m -> states (RecordSuccessModel now h n m) !! k = states h !! k.
Proof.
  unfold keys, RecordSuccessModel. intros Hk.
  repeat case_match; simpl; rewrite ?lookup_delete_ne by set_solver; done.
Qed.

Lemma apply_op_frame o h k s :
  k ∉ writes o -> states h !! k = Some s ->
  exists s', states (apply_op o h) !! k = Some s' /\ same_gate s s'.
Proof.
  intros Hw Hk.
  assert (Hid : forall m : gmap string circuitState, m !! k = states h !! k -> exists s', m !! k = Some s' /\ same_gate s s').
  { intros m E. exists s. rewrite E. by split. }
  destruct o; simpl in Hw |- *; try (by apply Hid).
  - destruct (IsHealthyModel_frame clk h name model k s Hk) as (s' & E & Hm). eauto with crosslink.
  - apply Hid. by apply RecordSuccess_other.
  - apply Hid. rewrite lookup_insert_ne; set_solver.
  - apply Hid. unfold RecordRateLimitFailure.
    case_match; apply recordTransient_other; set_solver.
  - apply Hid. rewrite lookup_insert_ne; set_solver.
  - apply Hid. by apply foldr_alter_lookup.
  - apply Hid. by apply foldr_delete_lookup.
  - destruct (foldr_alter_cases (set_cause errType (truncate200 msg)) (states h)
                (keys name model) k (keys_NoDup _ _)) as [E|E].
    + by apply Hid.
    + rewrite E, Hk. simpl. eauto with crosslink.
Qed.

Lemma run_ops_frame os h k s :
  Forall (fun o => k ∉ writes o) os -> states h !! k = Some s ->
  exists s', states (run_ops os h) !! k = Some s' /\ same_gate s s'.
Proof.
  intros Hos. revert h s. induction Hos as [|o os Ho Hos IH]; intros h s Hk; simpl.
  - by exists s.
  - destruct (apply_op_frame o h k s Ho Hk) as (s1 & E1 & G1).
    destruct (IH _ _ E1) as (s2 & E2 & G2). exists s2. split; [done|]. by transitivity s1.
Qed.

Lemma blocked_of_probe now h k s t :
  states h !! k = Some s -> openUntil s = Some t -> probeInFlight s = true ->
  blockedOrProbed now h k = true.
Proof. intros Hk Ht Hp. unfold blockedOrProbed. rewrite Hk, Ht, Hp. by case_match. Qed.

Lemma blocked_of_open now h k s t :
  states h !! k = Some s -> openUntil s = Some t -> now < t ->
  blockedOrProbed now h k = true.
Proof.
  intros Hk Ht Hp. unfold blockedOrProbed. rewrite Hk, Ht.
  by destruct (Z.ltb_spec now t); [|lia].
Qed.

Lemma IsHealthyModel_blocked clk h n m k :
  k ∈ keys n m -> (forall j, blockedOrProbed (clk j) h k = true) ->
  IsHealthyModel clk h n m = (false, h).
Proof. intros Hk Hb. unfold IsHealthyModel. by rewrite (anyBlocked_intro clk 0 h _ k). Qed.

(** ** Properties *)

(** C13: Half-open single flight: once a call has been let through an expired
    circuit [k] as its probe, then whatever calls follow, in any interleaving,
    as long as none of them writes [k] (no outcome recorded, no lease release,
    no reset), every later health check that involves [k] answers no. *)
Theorem half_open_single_flight h clk name model k s t os clk' name' model' :
  k ∈ keys name model -> states h !! k = Some s -> openUntil s = Some t ->
  (forall i, t < clk i) ->
  fst (IsHealthyModel clk h name model) = true ->
  Forall (fun o => k ∉ writes o) os ->
  k ∈ keys name' model' ->
  fst (IsHealthyModel clk' (run_ops os (snd (IsHealthyModel clk h name model))) name' model') = false.
Proof.
  intros Hin Hk Ht Hclk Hyes Hos Hin'.
  assert (E : states (snd (IsHealthyModel clk h name model)) !! k = Some (set_probe true s)).
  { unfold IsHealthyModel in *. case_match; [done|]. simpl. by eapply claimProbes_claims. }
  destruct (run_ops_frame os _ k _ Hos E) as (s' & E' & [_ _ Hu _ Hp]).
  rewrite (IsHealthyModel_blocked _ _ _ _ k Hin'); [done|].
  intros j. eapply blocked_of_probe; [done| |by apply Hp]. by rewrite Hu.
Qed.

(** The witness: an account circuit that expired at 10 is claimed at 11; a
    concurrent caller on a model of the same account is then refused. *)
Definition half_open_tracker : HealthTracker :=
  with_states NewHealthTracker
    {[ "acme" := {| kind := kindTransient; consecutiveFails := 3; openUntil := Some 10;
                    probeInFlight := false; openCount := 1; lastErrType := "";
                    lastErrMsg := "" |} ]}.

Lemma half_open_single_flight_witness :
  fst (IsHealthyModel (fun _ => 12)
        (run_ops [OpCause "acme" "m" "server" "boom"; OpRateLimit 12 "acme" "other" 0]
          (snd (IsHealthyModel (fun _ => 11) half_open_tracker "acme" ""))) "acme" "m") = false.
Proof.
  eapply (half_open_single_flight half_open_tracker (fun _ => 11) "acme" "" "acme"
            _ 10 _ (fun _ => 12) "acme" "m").
  - apply name_in_keys.
  - reflexivity.
  - reflexivity.
  - intros. lia.
  - reflexivity.
  - repeat constructor; apply (bool_decide_unpack _); vm_compute; exact I.
  - apply name_in_keys.
Defined.

Definition probe_held (h : HealthTracker) (k : string) : bool :=
  match states h !! k with Some s => probeInFlight s | None => false end.

Lemma blockedOrProbed_state now h k :
  blockedOrProbed now h k =
  match key_state now h k with
  | CircuitOpen => true | CircuitClosed => false | CircuitHalfOpen => probe_held h k
  end.
Proof.
  unfold blockedOrProbed, key_state, probe_held, circuit_state_of. by repeat case_match.
Qed.

(** the pure read agrees with the gate.  With the clock at one instant, the
    gate refuses an open circuit, admits a closed one and admits a half-open one
    exactly when no half-open key of the pair is being probed; a refused caller
    changes nothing. *)
Theorem gate_agrees_with_CircuitState h now name model :
  fst (IsHealthyModel (fun _ => now) h name model) =
    match CircuitState now h name model with
    | CircuitOpen => false
    | CircuitClosed => true
    | CircuitHalfOpen =>
        forallb (fun k => negb (bool_decide (key_state now h k = CircuitHalfOpen) && probe_held h k))
          (keys name model)
    end /\
  (fst (IsHealthyModel (fun _ => now) h name model) = false ->
   snd (IsHealthyModel (fun _ => now) h name model) = h).
Proof.
  split.
  - unfold IsHealthyModel, CircuitState, keys. destruct (String.eqb model "");
      cbn [anyBlocked fold_left forallb]; rewrite !blockedOrProbed_state;
      destruct (key_state now h name) eqn:E1;
      try (destruct (key_state now h (name +:+ "|" +:+ model)) eqn:E2);
      cbn -[probe_held bool_decide]; rewrite ?E1, ?E2;
      repeat (rewrite bool_decide_true by done || rewrite bool_decide_false by done);
      by repeat destruct (probe_held _ _).
  - unfold IsHealthyModel. by case_match.
Qed.

(** An account circuit opened by a persistent failure keeps blocking until its
    deadline: successes racing with it, lease releases, causes, configuration
    changes and every call on other keys leave it in place. *)
Definition spares (k : string) (t : Z) (o : health_op) : Prop :=
  match o with
  | OpSuccess now n m => k = n /\ now < t \/ k ∉ writes o
  | OpClearProbe _ _ => True
  | _ => k ∉ writes o
  end.

Definition persists (k : string) (t : Z) (h : HealthTracker) : Prop :=
  exists s, states h !! k = Some s /\ kind s = kindPersistent /\ openUntil s = Some t.

Lemma persists_frame k t h h' s s' :
  states h !! k = Some s -> states h' !! k = Some s' -> same_gate s s' ->
  persists k t h -> persists k t h'.
Proof.
  intros E E' [Hkd _ Hu _ _] (s0 & E0 & Hk & Ht). exists s'. rewrite E in E0. simplify_eq.
  split_and!; [done|congruence..].
Qed.

Lemma spares_persists k t o h : spares k t o -> persists k t h -> persists k t (apply_op o h).
Proof.
  intros Hsp Hps. pose proof Hps as (s & E & Hk & Ht).
  destruct (decide (k ∈ writes o)) as [Hw|Hw].
  - destruct o; simpl in Hsp; try done.
    + destruct Hsp as [[-> Hlt]|?]; [|done].
      exists s. split; [|done]. simpl. unfold RecordSuccessModel.
      assert (E' : (if String.eqb model "" then states h
                    else delete (name +:+ "|" +:+ model) (states h)) !! name = Some s).
      { case_match; [done|]. rewrite lookup_delete_ne; [done|]. apply bar_key_neq. }
      rewrite E', Hk. simpl. unfold before. rewrite Ht.
      by destruct (Z.ltb_spec now t); [|lia].
    + exists (set_probe false s). split; [|done]. simpl.
      rewrite foldr_alter_lookup_in, E; eauto with crosslink.
  - destruct (apply_op_frame o h k s Hw E) as (s' & E' & G). exact (persists_frame k t _ _ s s' E E' G Hps).
Qed.

Lemma persists_run k t os h :
  Forall (spares k t) os -> persists k t h -> persists k t (run_ops os h).
Proof.
  intros Hos. revert h. induction Hos as [|o os Ho _ IH]; intros h Hps; simpl; [done|].
  apply IH. by apply spares_persists.
Qed.

(** A persistent account circuit keeps refusing the whole account until its
    deadline [t]: no sequence of calls that spares it lets a call through, and a
    success recorded before [t] is one of those calls (the C1 race). *)
Theorem persistent_circuit_survives h now name scope cooldown os clk model :
  0 < cooldown ->
  Forall (spares name (now + cooldown)) os ->
  (forall i, clk i < now + cooldown) ->
  fst (IsHealthyModel clk (run_ops os (RecordPersistentFailure now h name "" scope cooldown))
         name model) = false.
Proof.
  intros Hc Hos Hclk.
  assert (Hp : persists name (now + cooldown)
                 (RecordPersistentFailure now h name "" scope cooldown)).
  { unfold RecordPersistentFailure, persists, key. rewrite andb_false_r. simpl.
    destruct (Z.leb_spec cooldown 0); [lia|]. rewrite lookup_insert_eq. eauto. }
  destruct (persists_run _ _ _ _ Hos Hp) as (s & E & _ & Ht).
  rewrite (IsHealthyModel_blocked _ _ _ _ name); [done|apply name_in_keys|].
  intros j. by eapply blocked_of_open.
Qed.

Lemma persistent_circuit_survives_witness :
  fst (IsHealthyModel (fun _ => 50)
        (run_ops [OpSuccess 40 "acme" "m"; OpClearProbe "acme" "m"; OpRateLimit 45 "acme" "m" 0]
          (RecordPersistentFailure 0 NewHealthTracker "acme" "" "account" 100)) "acme" "m") = false.
Proof.
  eapply (persistent_circuit_survives NewHealthTracker 0 "acme" "account" 100 _ (fun _ => 50) "m").
  - lia.
  - repeat constructor; simpl; try lia.
    apply (bool_decide_unpack _); vm_compute; exact I.
  - intros. lia.
Defined.

(** Demotion: a transient failure that reaches the threshold on a live
    persistent circuit replaces it by a transient one, so the account is
    admitted again at most [maxEscalation] later although its persistent
    deadline [t] lies beyond. *)
Theorem transient_failure_demotes_persistent h name model s t now u :
  states h !! name = Some s -> kind s = kindPersistent -> openUntil s = Some t ->
  now < t -> transientThreshold h <= consecutiveFails s + 1 ->
  now + maxEscalation h <= u < t ->
  CircuitState u h name "" = CircuitOpen /\
  CircuitState u (RecordTransientFailure now h name model 0) name "" = CircuitHalfOpen.
Proof.
  intros E Hk Ht Hnow Hth Hu. unfold CircuitState, keys. simpl.
  unfold key_state, circuit_state_of. simpl. rewrite E, Ht, lookup_insert_eq. simpl.
  split.
  - by destruct (Z.ltb_spec u t); [|lia].
  - unfold transient_fail, expired. rewrite Ht.
    destruct (Z.ltb_spec t now); [lia|].
    destruct (Z.leb_spec (transientThreshold h) (consecutiveFails s + 1)); [|lia]. simpl.
    destruct (Z.ltb_spec u (now + escalatedCooldown h (openCount s + 1))) as [Hlt|]; [|done].
    exfalso. revert Hlt. unfold escalatedCooldown. case_match eqn:Eb; [lia|].
    apply orb_false_iff in Eb as [_ Eb]. apply Z.ltb_ge in Eb. lia.
Qed.

(** With the default configuration: quota exhausted at 0 (30 min), then three
    in-flight calls fail with a server error; at 6 min the account is half-open. *)
Definition demotion_tracker : HealthTracker :=
  run_ops [OpPersistent 0 "acme" "m" "account" 0; OpTransient 1 "acme" "m" 0;
           OpTransient 2 "acme" "m" 0] NewHealthTracker.

Lemma transient_failure_demotes_persistent_witness :
  CircuitState (6 * Minute) demotion_tracker "acme" "" = CircuitOpen /\
  CircuitState (6 * Minute) (RecordTransientFailure 3 demotion_tracker "acme" "m" 0) "acme" ""
    = CircuitHalfOpen.
Proof.
  eapply (transient_failure_demotes_persistent demotion_tracker "acme" "m" _ (30 * Minute) 3);
    try reflexivity; unfold demotion_tracker, Minute, Second, Millisecond; vm_compute;
    intuition congruence.
Defined.

Lemma escalatedCooldown_le_max h n : escalatedCooldown h n <= maxEscalation h.
Proof.
  unfold escalatedCooldown. case_match eqn:Eb; [lia|].
  apply orb_false_iff in Eb as [_ Eb]. apply Z.ltb_ge in Eb. lia.
Qed.

(** The cooldown of the [n]-th consecutive opening is the base doubled [n - 1]
    times (at most 16) and capped; with a base below 2^47 ns (39 h) the shift
    cannot overflow the 64-bit duration, so the guard is exact. *)
Theorem escalatedCooldown_exact h n :
  0 < transientCooldown h < 2 ^ 47 -> 1 <= n ->
  escalatedCooldown h n =
    Z.min (transientCooldown h * 2 ^ Z.min (n - 1) 16) (maxEscalation h).
Proof.
  intros Hb Hn. unfold escalatedCooldown.
  destruct (Z.ltb_spec (n - 1) 0) as [|_]; [lia|].
  set (e := Z.min (n - 1) 16).
  assert (He : (if 16 <? n - 1 then 16 else n - 1) = e).
  { unfold e. destruct (Z.ltb_spec 16 (n - 1)); lia. }
  rewrite He, Z.shiftl_mul_pow2 by (unfold e; lia).
  assert (Hp : 0 < 2 ^ e <= 2 ^ 16).
  { split; [apply Z.pow_pos_nonneg; unfold e; lia|]. apply Z.pow_le_mono_r; unfold e; lia. }
  rewrite wrap64_id by (unfold in_int64; nia).
  destruct (Z.leb_spec (transientCooldown h * 2 ^ e) 0); [nia|]. simpl.
  destruct (Z.ltb_spec (maxEscalation h) (transientCooldown h * 2 ^ e)); lia.
Qed.

Lemma escalatedCooldown_exact_witness :
  escalatedCooldown NewHealthTracker 3 = Z.min (60 * Second * 2 ^ Z.min 2 16) (5 * Minute).
Proof. apply (escalatedCooldown_exact NewHealthTracker 3); vm_compute; intuition congruence. Defined.

(** The n-th failure time applied to one key, without a Retry-After hint. *)
Definition failures (k : string) (ts : list Z) (h : HealthTracker) : HealthTracker :=
  fold_left (fun h now => recordTransientOnKey now h k 0) ts h.

Lemma transient_fail_watch h now ra s :
  openUntil s = None -> consecutiveFails s + 1 < transientThreshold h ->
  transient_fail h now ra s =
    {| kind := kind s; consecutiveFails := consecutiveFails s + 1; openUntil := None;
       probeInFlight := false; openCount := openCount s; lastErrType := lastErrType s;
       lastErrMsg := lastErrMsg s |}.
Proof.
  intros Hu Hlt. unfold transient_fail, expired. rewrite Hu.
  by destruct (Z.leb_spec (transientThreshold h) (consecutiveFails s + 1)); [lia|].
Qed.

Lemma transient_fail_open h now s :
  expired now (openUntil s) = false -> transientThreshold h <= consecutiveFails s + 1 ->
  openUntil (transient_fail h now 0 s) = Some (now + escalatedCooldown h (openCount s + 1)) /\
  openCount (transient_fail h now 0 s) = openCount s + 1.
Proof.
  intros Hu Hle. unfold transient_fail. rewrite Hu.
  by destruct (Z.leb_spec (transientThreshold h) (consecutiveFails s + 1)); [|lia].
Qed.

Lemma failures_below_threshold k ts h s :
  states h !! k = Some s -> openUntil s = None ->
  consecutiveFails s + Z.of_nat (length ts) < transientThreshold h ->
  exists s', states (failures k ts h) !! k = Some s' /\ openUntil s' = None /\
    consecutiveFails s' = consecutiveFails s + Z.of_nat (length ts) /\ openCount s' = openCount s.
Proof.
  revert h s. induction ts as [|now ts IH]; intros h s E Hu Hlt.
  { exists s. split_and!; try done. simpl. lia. }
  cbn [length] in *. simpl.
  destruct (IH (recordTransientOnKey now h k 0) (transient_fail h now 0 s)) as (s' & E' & Hu' & Hf & Ho).
  - unfold recordTransientOnKey. rewrite E. simpl. by rewrite lookup_insert_eq.
  - by rewrite transient_fail_watch by (done || lia).
  - rewrite transient_fail_watch by (done || lia). simpl. lia.
  - rewrite transient_fail_watch in Hf, Ho by (done || lia). exists s'. split_and!; try done.
    rewrite Hf. simpl. lia.
Qed.

Lemma failures_config k ts h :
  transientThreshold (failures k ts h) = transientThreshold h /\
  transientCooldown (failures k ts h) = transientCooldown h /\
  maxEscalation (failures k ts h) = maxEscalation h.
Proof.
  revert h. induction ts as [|now ts IH]; intros h; [done|].
  exact (IH (recordTransientOnKey now h k 0)).
Qed.

Lemma recordTransient_fresh now h k :
  states h !! k = None ->
  states (recordTransientOnKey now h k 0) !! k
    = Some (transient_fail h now 0 (new_circuit kindTransient)).
Proof. intros E. unfold recordTransientOnKey. rewrite E. apply lookup_insert_eq. Qed.

Lemma escalatedCooldown_config h h' n :
  transientCooldown h' = transientCooldown h -> maxEscalation h' = maxEscalation h ->
  escalatedCooldown h' n = escalatedCooldown h n.
Proof. unfold escalatedCooldown. by intros -> ->. Qed.

(** Fewer transient failures than the threshold leave a fresh key closed, and
    the one that reaches it opens the circuit for the first cooldown. *)
Theorem threshold_opens h k ts now u :
  states h !! k = None -> Z.of_nat (length ts) + 1 = transientThreshold h ->
  key_state u (failures k ts h) k = CircuitClosed /\
  (exists s, states (recordTransientOnKey now (failures k ts h) k 0) !! k = Some s /\
     openUntil s = Some (now + escalatedCooldown h 1)).
Proof.
  intros E Hlen. destruct ts as [|now0 ts].
  - cbn [length] in Hlen. split; [unfold key_state; simpl; by rewrite E|].
    cbn [failures fold_left]. unfold failures. cbn [fold_left]. rewrite recordTransient_fresh by done. eexists; split; [done|].
    apply transient_fail_open; simpl; [done|lia].
  - cbn [length] in Hlen.
    destruct (failures_below_threshold k ts (recordTransientOnKey now0 h k 0)
                (transient_fail h now0 0 (new_circuit kindTransient))) as (s & Es & Hu & Hf & Ho).
    { by apply recordTransient_fresh. }
    { rewrite transient_fail_watch by (done || (simpl; lia)). simpl; try done; lia. }
    { rewrite transient_fail_watch by (done || (simpl; lia)). simpl; try done; lia. }
    rewrite transient_fail_watch in Hf, Ho by (done || (simpl; lia)). simpl in Hf, Ho.
    change (failures k (now0 :: ts) h) with (failures k ts (recordTransientOnKey now0 h k 0)).
    destruct (failures_config k ts (recordTransientOnKey now0 h k 0)) as (Hth & Hcd & Hmx).
    split; [unfold key_state, circuit_state_of; by rewrite Es, Hu|].
    unfold recordTransientOnKey at 1. rewrite Es. simpl. rewrite lookup_insert_eq.
    eexists; split; [done|].
    destruct (transient_fail_open (failures k ts (recordTransientOnKey now0 h k 0)) now s) as [-> _].
    + by rewrite Hu.
    + rewrite Hth. simpl. lia.
    + rewrite Ho. simpl. by rewrite (escalatedCooldown_config h).
Qed.

Lemma threshold_opens_witness :
  key_state 9 (failures "acme" [1; 2] NewHealthTracker) "acme" = CircuitClosed /\
  (exists s, states (recordTransientOnKey 3 (failures "acme" [1; 2] NewHealthTracker) "acme" 0)
               !! "acme" = Some s /\
     openUntil s = Some (3 + escalatedCooldown NewHealthTracker 1)).
Proof. apply (threshold_opens NewHealthTracker "acme" [1; 2] 3 9); reflexivity. Defined.

(** A failed half-open probe closes the circuit: the key is watched with one
    failure counted and traffic flows again at once. *)
Theorem half_open_failure_closes h k s t now ra u :
  states h !! k = Some s -> openUntil s = Some t -> t < now ->
  exists s', states (recordTransientOnKey now h k ra) !! k = Some s' /\
    circuit_state_of u s' = CircuitClosed /\ consecutiveFails s' = 1 /\ probeInFlight s' = false.
Proof.
  intros E Ht Hlt. unfold recordTransientOnKey. rewrite E. simpl. rewrite lookup_insert_eq.
  eexists; split; [done|]. unfold transient_fail, expired. rewrite Ht.
  by destruct (Z.ltb_spec t now); [|lia].
Qed.

Lemma half_open_failure_closes_witness :
  exists s', states (recordTransientOnKey 11 half_open_tracker "acme" 0) !! "acme" = Some s' /\
    circuit_state_of 12 s' = CircuitClosed /\ consecutiveFails s' = 1 /\ probeInFlight s' = false.
Proof. by eapply (half_open_failure_closes half_open_tracker "acme" _ 10 11 0 12). Defined.

Lemma anyBlocked_ext clk i h h' ks :
  (forall k, k ∈ ks -> states h' !! k = states h !! k) ->
  anyBlocked clk i h' ks = anyBlocked clk i h ks.
Proof.
  revert i. induction ks as [|k ks IH]; intros i Hks; [done|]. cbn [anyBlocked].
  assert (Hb : blockedOrProbed (clk i) h' k = blockedOrProbed (clk i) h k).
  { unfold blockedOrProbed. rewrite Hks; [done|set_solver]. }
  rewrite Hb, IH; [done|]. intros k' Hk'. apply Hks. set_solver.
Qed.

Lemma model_key_inj name m m' : name +:+ "|" +:+ m = name +:+ "|" +:+ m' -> m = m'.
Proof. intros E. apply string_app_inj_l in E. by injection E. Qed.

(** Rate-limit isolation: a 429 on one model never changes what the gate answers
    for the account or for a sibling model of the same account. *)
Theorem rate_limit_isolated now h name model ra clk model' :
  model <> "" -> model' <> model ->
  fst (IsHealthyModel clk (RecordRateLimitFailure now h name model ra) name model')
    = fst (IsHealthyModel clk h name model').
Proof.
  intros Hm Hne. unfold RecordRateLimitFailure.
  destruct (String.eqb_spec model "") as [|_]; [done|]. unfold IsHealthyModel.
  rewrite (anyBlocked_ext _ _ h); [by case_match|].
  intros k Hk. apply recordTransient_other. intros <-.
  unfold keys in Hk. case_match; [|apply elem_of_cons in Hk as [Hk|Hk]].
  - apply list_elem_of_singleton in Hk. by destruct (bar_key_neq name model).
  - by destruct (bar_key_neq name model).
  - apply list_elem_of_singleton, model_key_inj in Hk. congruence.
Qed.

Lemma rate_limit_isolated_witness :
  fst (IsHealthyModel (fun _ => 5)
        (RecordRateLimitFailure 3 (failures "acme|m" [1; 2] NewHealthTracker) "acme" "m" 0)
        "acme" "sibling")
    = fst (IsHealthyModel (fun _ => 5) (failures "acme|m" [1; 2] NewHealthTracker) "acme" "sibling").
Proof.
  apply (rate_limit_isolated 3 (failures "acme|m" [1; 2] NewHealthTracker) "acme" "m" 0
           (fun _ => 5) "sibling"); done.
Defined.

(** *** Blocking is bounded *)

(** Every configured cooldown is at most [B]. *)
Definition config_le (B : Z) (h : HealthTracker) : Prop :=
  persistentCooldown h <= B /\ maxEscalation h <= B /\ retryAfterMin h <= B /\ retryAfterMax h <= B.

Definition blocks_until (D : Z) (h : HealthTracker) : Prop :=
  forall k s t, states h !! k = Some s -> openUntil s = Some t -> t <= D.

(** A call made at time [T] or before, with its durations within [B]. *)
Definition op_within (B T : Z) (o : health_op) : Prop :=
  match o with
  | OpTransient now _ _ _ | OpRateLimit now _ _ _ => now <= T
  | OpPersistent now _ _ _ c => now <= T /\ c <= B
  | OpSetMaxEscalation d | OpSetPersistentCooldown d => d <= B
  | OpSetRetryAfterBounds mn mx => mn <= B /\ mx <= B
  | _ => True
  end.

Lemma transient_fail_until B h now ra s t :
  config_le B h -> openUntil (transient_fail h now ra s) = Some t ->
  openUntil s = Some t \/ t <= now + B.
Proof.
  intros (Hp & Hm & Hmn & Hmx). unfold transient_fail. repeat case_match; simpl; auto; intros [= <-].
  - right. unfold clampRetryAfter. apply Z.ltb_lt in H1. repeat case_match; lia.
  - right. pose proof (escalatedCooldown_le_max h (openCount s + 1)). lia.
Qed.

Lemma recordTransient_bounded B T now h k ra :
  now <= T -> config_le B h -> blocks_until (T + B) h ->
  blocks_until (T + B) (recordTransientOnKey now h k ra).
Proof.
  intros Hnow Hc Hb k' s t. simpl. rewrite lookup_insert. case_decide; [|apply Hb].
  intros [= <-] Ht. subst. apply (transient_fail_until B) in Ht; [|done].
  destruct Ht as [Ht|]; [|lia].
  destruct (states h !! k') as [s|] eqn:E; [by eapply Hb|done].
Qed.

Lemma map_sub_bounded D (h : HealthTracker) m :
  (forall k s, m !! k = Some s -> exists s0, states h !! k = Some s0 /\ openUntil s0 = openUntil s) ->
  blocks_until D h -> blocks_until D (with_states h m).
Proof. intros Hm Hb k s t E Ht. destruct (Hm k s E) as (s0 & E0 & E1). apply (Hb k s0 t); congruence. Qed.

Lemma foldr_alter_until f (m : gmap string circuitState) ks k s :
  (forall s, openUntil (f s) = openUntil s) -> NoDup ks ->
  foldr (fun k m => alter f k m) m ks !! k = Some s ->
  exists s0, m !! k = Some s0 /\ openUntil s0 = openUntil s.
Proof.
  intros Hf Hnd E. destruct (foldr_alter_cases f m ks k Hnd) as [E'|E']; rewrite E' in E.
  - eauto.
  - apply fmap_Some in E as (s0 & E0 & ->). eauto.
Qed.

Lemma foldr_delete_sub (m : gmap string circuitState) ks k s :
  foldr (fun k m => delete k m) m ks !! k = Some s -> m !! k = Some s.
Proof.
  induction ks as [|k' ks IH]; simpl; [done|]. intros [_ E]%lookup_delete_Some. auto.
Qed.

Lemma apply_op_bounded B T o h :
  op_within B T o -> config_le B h -> blocks_until (T + B) h ->
  config_le B (apply_op o h) /\ blocks_until (T + B) (apply_op o h).
Proof.
  intros Ho Hc Hb.
  assert (Hsub : forall m,
    (forall k s, m !! k = Some s -> exists s0, states h !! k = Some s0 /\ openUntil s0 = openUntil s) ->
    config_le B (with_states h m) /\ blocks_until (T + B) (with_states h m)).
  { intros m Hm. split; [done|]. by apply map_sub_bounded. }
  destruct o; simpl in Ho; simpl.
  - unfold IsHealthyModel. case_match; simpl; [done|]. apply Hsub. intros k s E.
    destruct (states h !! k) as [s0|] eqn:E0; [|by rewrite claimProbes_None in E].
    destruct (claimProbes_mono clk (length (keys name model)) (states h) (keys name model) k s0 E0)
      as (s' & E' & Hm). exists s0. split; [done|]. rewrite E in E'. simplify_eq.
    by destruct Hm as [->| ->].
  - unfold RecordSuccessModel. repeat case_match; apply Hsub; intros k s;
      rewrite ?lookup_delete_Some; intros; destruct_and?; eauto.
  - split; [done|]. by apply recordTransient_bounded.
  - unfold RecordRateLimitFailure. case_match; (split; [done|]); by apply recordTransient_bounded.
  - split; [done|]. intros k s t. simpl. rewrite lookup_insert. case_decide; [|apply Hb].
    intros [= <-]. simpl. intros [= <-]. unfold config_le in Hc. case_match; lia.
  - apply Hsub. intros k s. by apply foldr_alter_until, keys_NoDup.
  - apply Hsub. intros k s E%foldr_delete_sub. eauto.
  - apply Hsub. intros k s. by apply foldr_alter_until, keys_NoDup.
  - done.
  - split; [|done]. unfold config_le in *. simpl. lia.
  - split; [|done]. unfold config_le in *. simpl. lia.
  - split; [|done]. unfold config_le in *. simpl. lia.
Qed.

Lemma run_ops_bounded B T os h :
  Forall (op_within B T) os -> config_le B h -> blocks_until (T + B) h ->
  blocks_until (T + B) (run_ops os h).
Proof.
  intros Hos. revert h. induction Hos as [|o os Ho _ IH]; intros h Hc Hb; [done|].
  simpl. destruct (apply_op_bounded B T o h Ho Hc Hb). by apply IH.
Qed.

(** No circuit stays open for ever: if every call was made by time [T] and every
    duration is at most [B], then from [T + B] on no pair is open, whatever the
    calls were. *)
Theorem blocking_is_bounded B T os h u name model :
  Forall (op_within B T) os -> config_le B h -> states h = ∅ -> T + B <= u ->
  CircuitState u (run_ops os h) name model <> CircuitOpen.
Proof.
  intros Hos Hc He Hu.
  assert (Hb : blocks_until (T + B) (run_ops os h)).
  { apply run_ops_bounded; try done. intros k s t. rewrite He. by rewrite lookup_empty. }
  assert (Hk : forall k, key_state u (run_ops os h) k <> CircuitOpen).
  { intros k. unfold key_state, circuit_state_of. case_match eqn:E; [|done].
    case_match eqn:Et; [|done]. specialize (Hb k _ _ E Et).
    by destruct (Z.ltb_spec u z); [lia|]. }
  unfold CircuitState, keys. case_match; simpl.
  - pose proof (Hk name). by destruct (key_state u (run_ops os h) name).
  - pose proof (Hk name). pose proof (Hk (name +:+ "|" +:+ model)).
    destruct (key_state u (run_ops os h) name);
      by destruct (key_state u (run_ops os h) (name +:+ "|" +:+ model)).
Qed.

Lemma blocking_is_bounded_witness :
  CircuitState (31 * Minute) (run_ops [OpPersistent 7 "acme" "m" "account" 0] NewHealthTracker)
    "acme" "m" <> CircuitOpen.
Proof.
  apply (blocking_is_bounded (30 * Minute) Minute).
  - repeat constructor; unfold Minute, Second, Millisecond; lia.
  - vm_compute. intuition congruence.
  - reflexivity.
  - vm_compute. congruence.
Defined.

(** The engine's unconditional release: after [ClearProbe] an expired pair is
    admitted again, so a lease cannot get stuck. *)
Theorem ClearProbe_reopens_the_gate h clk name model :
  (forall k s t i, k ∈ keys name model -> states h !! k = Some s -> openUntil s = Some t -> t <= clk i) ->
  fst (IsHealthyModel clk (ClearProbe h name model) name model) = true.
Proof.
  intros Hexp. unfold IsHealthyModel.
  assert (Hno : forall ks i, (forall k, k ∈ ks -> k ∈ keys name model) ->
            anyBlocked clk i (ClearProbe h name model) ks = false).
  { induction ks as [|k ks IH]; intros i Hks; [done|]. cbn [anyBlocked].
    rewrite IH by set_solver. unfold blockedOrProbed. simpl.
    rewrite foldr_alter_lookup_in by (set_solver || apply keys_NoDup).
    destruct (states h !! k) as [s|] eqn:E; [|done]. simpl.
    destruct (openUntil s) as [t|] eqn:Et; [|done].
    assert (t <= clk i) by (eapply Hexp; [|done..]; set_solver).
    by destruct (Z.ltb_spec (clk i) t); [lia|]. }
  by rewrite Hno.
Qed.

Lemma ClearProbe_reopens_the_gate_witness :
  fst (IsHealthyModel (fun _ => 11) (ClearProbe
        (snd (IsHealthyModel (fun _ => 11) half_open_tracker "acme" "m")) "acme" "m") "acme" "m") = true.
Proof.
  apply (ClearProbe_reopens_the_gate (snd (IsHealthyModel (fun _ => 11) half_open_tracker "acme" "m"))
           (fun _ => 11) "acme" "m").
  intros k s t i Hk. apply elem_of_cons in Hk as [->|Hk].
  - vm_compute. intros [= <-] [= <-]. discriminate.
  - apply list_elem_of_singleton in Hk as ->. vm_compute. discriminate.
Defined.

Lemma split_last_bar_none m : string_has bar m = false -> split_last_bar m = None.
Proof.
  induction m as [|c m IH]; [done|]. cbn [string_has split_last_bar].
  intros [Hc Hm]%orb_false_iff. rewrite IH by done.
  rewrite Ascii.eqb_sym in Hc. by rewrite Hc.
Qed.

Lemma split_last_bar_key name model :
  string_has bar model = false ->
  split_last_bar (name +:+ "|" +:+ model) = Some (name, model).
Proof.
  intros Hm. induction name as [|c name IH].
  - simpl. by rewrite split_last_bar_none.
  - change (String c name +:+ "|" +:+ model) with (String c (name +:+ "|" +:+ model)).
    cbn [split_last_bar]. by rewrite IH.
Qed.

(** The health snapshot reports a model-scoped circuit under the provider and
    the model it was recorded for, when the model name has no bar. *)
Theorem snapshot_key_roundtrip now name model s :
  string_has bar model = false -> model <> "" ->
  let e := snapshot_entry now (key name model "model") s in
  snapProvider e = name /\ snapModel e = model.
Proof.
  intros Hbar Hm. unfold key. destruct (String.eqb_spec model "") as [|_]; [done|].
  cbn -[split_last_bar String.append snapshot_entry]. unfold snapshot_entry.
  rewrite split_last_bar_key by done. done.
Qed.

Lemma snapshot_key_roundtrip_witness :
  let e := snapshot_entry 5 (key "acme|eu" "gpt" "model") (new_circuit kindTransient) in
  snapProvider e = "acme|eu" /\ snapModel e = "gpt".
Proof. by apply (snapshot_key_roundtrip 5 "acme|eu" "gpt" (new_circuit kindTransient)). Defined.
