(* ===== verification/Errors.v ===== *)
(** * Upstream errors: [internal/provider/errors.go] and [internal/service/error_classifier.go]

    Error values with their unwrap chains, the parsing of an upstream error
    response, the classification that retry and failover consult, and the
    rule table that separates persistent failures from transient ones. *)

From stdpp Require Import pretty.
From S2P Require Import Prelude.

(** ** Error values *)

(** [type ErrorType string] *)
Definition ErrorType : Type := string.
Definition ErrorRateLimit : ErrorType := "rate_limit".
Definition ErrorAuth : ErrorType := "auth".
Definition ErrorNotFound : ErrorType := "not_found".
Definition ErrorBadRequest : ErrorType := "bad_request".
Definition ErrorServer : ErrorType := "server".
Definition ErrorNetwork : ErrorType := "network".
Definition ErrorTimeout : ErrorType := "timeout".
Definition ErrorQuota : ErrorType := "quota".

Record ProviderError := mkPE {
  StatusCode : Z;
  Message : string;
  peErrorType : ErrorType;
  Code : string;
  Type_ : string;
  Param : string;
  RetryAfter : Z
}.

(** The errors the gateway distinguishes.  [NetErr] and [NetWrap] implement
    [net.Error] (the second with an [Unwrap], such as a url error); [Wrap] is
    [fmt.Errorf] with a wrapping verb, whose text is given in full. *)
Inductive GoError :=
  | ProviderErr (pe : ProviderError)
  | Canceled
  | DeadlineExceeded
  | NetErr (timeout : bool) (msg : string)
  | NetWrap (timeout : bool) (msg : string) (inner : GoError)
  | UnexpectedEOF
  | Wrap (msg : string) (inner : GoError)
  | OtherErr (msg : string).

(** [err.Error()] *)
Definition error_text (e : GoError) : string :=
  match e with
  | ProviderErr pe => Message pe
  | Canceled => "context canceled"
  | DeadlineExceeded => "context deadline exceeded"
  | NetErr _ m | NetWrap _ m _ | Wrap m _ | OtherErr m => m
  | UnexpectedEOF => "unexpected EOF"
  end.

(** [errors.As(err, &pe)] *)
Fixpoint as_provider (e : GoError) : option ProviderError :=
  match e with
  | ProviderErr pe => Some pe
  | NetWrap _ _ e' | Wrap _ e' => as_provider e'
  | _ => None
  end.

(** [errors.Is(err, context.Canceled) || errors.Is(err, context.DeadlineExceeded)] *)
Fixpoint is_ctx (e : GoError) : bool :=
  match e with
  | Canceled | DeadlineExceeded => true
  | NetWrap _ _ e' | Wrap _ e' => is_ctx e'
  | _ => false
  end.

(** [errors.As(err, &netErr)] followed by [netErr.Timeout()] *)
Fixpoint as_net (e : GoError) : option bool :=
  match e with
  | NetErr t _ | NetWrap t _ _ => Some t
  | DeadlineExceeded => Some true
  | Wrap _ e' => as_net e'
  | _ => None
  end.

(** [errors.Is(err, io.ErrUnexpectedEOF)] *)
Fixpoint is_eof (e : GoError) : bool :=
  match e with
  | UnexpectedEOF => true
  | NetWrap _ _ e' | Wrap _ e' => is_eof e'
  | _ => false
  end.

(** ** Classification *)

Definition ClassifyError (err : option GoError) : ErrorType :=
  match err with
  | None => ""
  | Some e =>
      match as_provider e with
      | Some pe => peErrorType pe
      | None =>
          if is_ctx e then ""
          else match as_net e with
               | Some timeout => if timeout then ErrorTimeout else ErrorNetwork
               | None => if is_eof e then ErrorNetwork else ""
               end
      end
  end.

Definition IsRetryableError (err : option GoError) : bool :=
  let t := ClassifyError err in
  if String.eqb t ErrorAuth || String.eqb t ErrorNotFound || String.eqb t ErrorBadRequest then false
  else if String.eqb t "" then false
  else true.

(** ** Parsing an upstream error response *)

(** [strconv.Atoi]: an optional sign and decimal digits, within 64 bits. *)
Definition digit_val (c : Ascii.ascii) : option Z :=
  let n := Z.of_nat (Ascii.nat_of_ascii c) in
  if (48 <=? n) && (n <=? 57) then Some (n - 48) else None.

Fixpoint parse_digits (acc : Z) (s : string) : option Z :=
  match s with
  | EmptyString => Some acc
  | String c s => d ← digit_val c; parse_digits (10 * acc + d) s
  end.

Definition Atoi (s : string) : option Z :=
  let '(neg, ds) := match s with
                    | String "+"%char ds => (false, ds)
                    | String "-"%char ds => (true, ds)
                    | _ => (false, s)
                    end in
  if String.eqb ds "" then None
  else v ← parse_digits 0 ds;
       let v := if neg then - v else v in
       if (- 2 ^ 63 <=? v) && (v <? 2 ^ 63) then Some v else None.

(** The JSON error object of the body, zero-valued when the body does not parse. *)
Record ErrorBody := mkErrorBody {
  ebMessage : string; ebType : string; ebCode : string; ebParam : string
}.

Definition status_label (status : Z) : string * ErrorType :=
  if (status =? 401) || (status =? 403) then ("provider auth failed", ErrorAuth)
  else if status =? 429 then ("provider rate limited", ErrorRateLimit)
  else if status =? 400 then ("provider bad request", ErrorBadRequest)
  else if status =? 404 then ("provider not found", ErrorNotFound)
  else ("provider error (" +:+ pretty status +:+ ")", ErrorServer).

(** The Retry-After header in whole seconds, capped at 300. *)
Definition parseRetryAfter (ra : string) : Z :=
  if String.eqb ra "" then 0
  else match Atoi ra with
       | Some secs => if 0 <? secs then (if 300 <? secs then 300 else secs) * Second else 0
       | None => 0
       end.

Section Parse.
(** [json.Unmarshal] of the body into the error envelope. *)
Context (unmarshal : string -> ErrorBody).

Definition parseProviderError (status : Z) (rawBody retryAfterHeader : string) : ProviderError :=
  let body := String.substring 0 1048576 rawBody in
  let errResp := unmarshal body in
  let msg := if String.eqb (ebMessage errResp) "" then body else ebMessage errResp in
  let '(label, et) := status_label status in
  {| StatusCode := status; Message := label +:+ ": " +:+ msg; peErrorType := et;
     Code := ebCode errResp; Type_ := ebType errResp; Param := ebParam errResp;
     RetryAfter := parseRetryAfter retryAfterHeader |}.
End Parse.

(** ** The rule table *)

Record ClassifiedError := mkClassified {
  ceErrorType : ErrorType;
  cePersistent : bool;
  ceScope : string;
  ceRuleID : Z
}.

Record ruleView := mkRule {
  ruleID : Z;
  MatchField : string;
  Pattern : string;
  ProviderType : option string;
  Scope : string;
  Classification : string;
  Priority : Z
}.

Definition transient_class (t : ErrorType) : ClassifiedError :=
  {| ceErrorType := t; cePersistent := false; ceScope := ""; ceRuleID := 0 |}.

Definition matches (r : ruleView) (adapterType : string) (pe : ProviderError) : bool :=
  if match ProviderType r with Some t => negb (String.eqb t adapterType) | None => false end
  then false
  else if String.eqb (MatchField r) "code" then
    negb (String.eqb (Code pe) "") && EqualFold (Code pe) (Pattern r)
  else if String.eqb (MatchField r) "type" then
    negb (String.eqb (Type_ pe) "") && EqualFold (Type_ pe) (Pattern r)
  else if String.eqb (MatchField r) "status" then
    String.eqb (pretty (StatusCode pe)) (Pattern r)
  else if String.eqb (MatchField r) "message" then
    negb (String.eqb (Pattern r) "") && Contains (ToLower (Message pe)) (ToLower (Pattern r))
  else false.

(** The comparator of [load]. *)
Definition rule_less (a b : ruleView) : bool :=
  if negb (Priority a =? Priority b) then Priority a <? Priority b
  else
    let ai := match ProviderType a with Some _ => true | None => false end in
    let bj := match ProviderType b with Some _ => true | None => false end in
    if negb (Bool.eqb ai bj) then ai
    else if negb (String.eqb (Scope a) (Scope b)) then String.eqb (Scope a) "account"
    else ruleID a <? ruleID b.

(** The classifier: the last rule table swapped in, [None] before the first load. *)
Record ErrorClassifier := mkClassifier { rules : option (list ruleView) }.

(** [load]: [None] is a failed query, which keeps the last table. *)
Definition load (c : ErrorClassifier) (loaded : option (list ruleView)) : ErrorClassifier :=
  match loaded with
  | None => c
  | Some rs => {| rules := Some (stable_sort rule_less rs) |}
  end.

Definition NewErrorClassifier (loaded : option (list ruleView)) : ErrorClassifier :=
  load {| rules := None |} loaded.

(** [RunRefreshLoop]: one [load] per tick until the context ends. *)
Definition RunRefreshLoop (c : ErrorClassifier) (ticks : list (option (list ruleView)))
    : ErrorClassifier := fold_left load ticks c.

Definition quota_match (adapterType : string) (pe : ProviderError) (r : ruleView) : bool :=
  String.eqb (Classification r) "quota" && matches r adapterType pe.

(** The type assertion [err.( *ProviderError)] sees the outermost error only. *)
Definition Classify (c : ErrorClassifier) (adapterType : string) (err : GoError) : ClassifiedError :=
  match err with
  | ProviderErr pe =>
      match rules c with
      | Some rs =>
          match List.find (quota_match adapterType pe) rs with
          | Some r => {| ceErrorType := ErrorQuota; cePersistent := true; ceScope := Scope r;
                         ceRuleID := ruleID r |}
          | None => transient_class (peErrorType pe)
          end
      | None => transient_class (peErrorType pe)
      end
  | _ => transient_class (ClassifyError (Some err))
  end.

(** ** Properties *)

(** The scopes the admin API accepts. *)
Definition valid_scope (r : ruleView) : Prop := Scope r = "account" \/ Scope r = "model".

(** The tie-break order as an integer key, compared lexicographically. *)
Definition rule_key (r : ruleView) : Z * Z * Z * Z :=
  (Priority r, if ProviderType r then 0 else 1, if String.eqb (Scope r) "account" then 0 else 1, ruleID r).

Definition key_lt (a b : Z * Z * Z * Z) : Prop :=
  let '(p, g, s, i) := a in let '(p', g', s', i') := b in
  p < p' \/ p = p' /\ (g < g' \/ g = g' /\ (s < s' \/ s = s' /\ i < i')).

Lemma rule_less_key a b :
  valid_scope a -> valid_scope b -> rule_less a b = true <-> key_lt (rule_key a) (rule_key b).
Proof.
  intros Ha Hb. unfold rule_less, rule_key, key_lt.
  destruct Ha as [-> | ->], Hb as [-> | ->], (ProviderType a), (ProviderType b); simpl;
    destruct (Z.eqb_spec (Priority a) (Priority b)); simpl; lia.
Qed.

Lemma rule_less_asym a b :
  valid_scope a -> valid_scope b -> rule_less a b = true -> rule_less b a = false.
Proof.
  intros Ha Hb Hab. apply not_true_is_false. intros Hba.
  apply rule_less_key in Hab, Hba; try done. revert Hab Hba. unfold rule_key, key_lt. lia.
Qed.

Lemma rule_ordered_trans a b c :
  valid_scope a -> valid_scope b -> valid_scope c ->
  ordered rule_less a b -> ordered rule_less b c -> ordered rule_less a c.
Proof.
  unfold ordered. intros Ha Hb Hc Hab Hbc.
  apply not_true_is_false. intros Hca. apply not_true_iff_false in Hab, Hbc.
  rewrite rule_less_key in Hab, Hbc, Hca by done. revert Hab Hbc Hca. unfold rule_key, key_lt. lia.
Qed.

(** The rule table decides persistence: a provider error is persistent exactly
    when some enabled quota rule matches it, and the scope and rule reported are
    those of a matching rule that no other matching rule precedes in the
    documented tie-break order, whatever order the query returned. *)
Theorem Classify_by_first_rule c rs adapterType pe :
  Forall valid_scope rs ->
  let ce := Classify (load c (Some rs)) adapterType (ProviderErr pe) in
  cePersistent ce = existsb (quota_match adapterType pe) rs /\
  (cePersistent ce = true ->
   exists r, r ∈ rs /\ quota_match adapterType pe r = true /\
     ceScope ce = Scope r /\ ceRuleID ce = ruleID r /\ ceErrorType ce = ErrorQuota /\
     forall r', r' ∈ rs -> quota_match adapterType pe r' = true -> r' = r \/ rule_less r' r = false) /\
  (cePersistent ce = false -> ceErrorType ce = peErrorType pe).
Proof.
  intros Hv. simpl.
  pose proof (stable_sort_sorted rule_less valid_scope rule_less_asym rule_ordered_trans rs Hv) as Hs.
  pose proof (stable_sort_perm rule_less rs) as Hp.
  destruct (List.find _ _) as [r|] eqn:E; simpl.
  - pose proof (find_some _ _ E) as [Hin Hq]. apply list_elem_of_In in Hin.
    assert (Hr : r ∈ rs) by (by rewrite <- Hp).
    split; [|split; [intros _|done]].
    + symmetry. apply existsb_exists. exists r. split; [by apply list_elem_of_In|done].
    + exists r. split_and!; try done. intros r' Hr' Hq'.
      apply (find_sorted_minimal _ _ _ _ r' Hs E); [by rewrite Hp|done].
  - split; [|split; [done|done]]. symmetry. apply not_true_is_false. intros Hex.
    apply existsb_exists in Hex as (r & Hin & Hq). apply list_elem_of_In in Hin. rewrite <- Hp in Hin.
    apply list_elem_of_In in Hin. by rewrite (find_none _ _ E r Hin) in Hq.
Qed.

Definition sample_rules : list ruleView :=
  [ mkRule 7 "status" "402" None "account" "quota" 10;
    mkRule 3 "code" "insufficient_quota" (Some "openai") "model" "quota" 10 ].

Definition sample_pe : ProviderError :=
  mkPE 402 "no credit" ErrorServer "INSUFFICIENT_QUOTA" "" "" 0.

Lemma Classify_by_first_rule_witness :
  exists r, r ∈ sample_rules /\ ruleID r = 3 /\
    cePersistent (Classify (load (NewErrorClassifier None) (Some sample_rules)) "openai" (ProviderErr sample_pe)) = true /\
    ceRuleID (Classify (load (NewErrorClassifier None) (Some sample_rules)) "openai" (ProviderErr sample_pe)) = ruleID r.
Proof.
  destruct (Classify_by_first_rule (NewErrorClassifier None) sample_rules "openai" sample_pe)
    as (Hp & Hr & _); [repeat constructor; (left + right); reflexivity|].
  destruct (Hr Hp) as (r & Hin & _ & _ & Hid & _).
  exists r. split; [exact Hin|]. split; [rewrite <- Hid; reflexivity|]. split; [exact Hp|exact Hid].
Defined.

(** Classification never degrades with the database: after any number of failed
    refreshes the table in use is the last one that loaded. *)
Theorem failed_refresh_keeps_rules c pre rs fails :
  Forall (fun l => l = None) fails ->
  RunRefreshLoop c (pre ++ Some rs :: fails) = load c (Some rs).
Proof.
  intros Hf. unfold RunRefreshLoop. rewrite fold_left_app. simpl.
  generalize (stable_sort rule_less rs). induction Hf as [|l fails -> _ IH]; intros l'; simpl; auto.
Qed.

Lemma failed_refresh_keeps_rules_witness :
  RunRefreshLoop (NewErrorClassifier None) [None; Some sample_rules; None; None]
    = load (NewErrorClassifier None) (Some sample_rules).
Proof.
  apply (failed_refresh_keeps_rules (NewErrorClassifier None) [None] sample_rules [None; None]).
  by repeat constructor.
Defined.

Lemma parseRetryAfter_bounds ra : 0 <= parseRetryAfter ra <= 300 * Second.
Proof.
  unfold parseRetryAfter, Second, Millisecond. repeat case_match; lia.
Qed.

(** What the gateway does with an upstream HTTP error: the hint it obeys is at
    most five minutes, and the attempt is retried for every status except the
    four that blame the request or the credentials. *)
Theorem parsed_error_retry unmarshal status body ra :
  let pe := parseProviderError unmarshal status body ra in
  0 <= RetryAfter pe <= 300 * Second /\
  (IsRetryableError (Some (ProviderErr pe)) = true <->
   status <> 400 /\ status <> 401 /\ status <> 403 /\ status <> 404).
Proof.
  unfold parseProviderError, status_label.
  destruct (Z.eqb_spec status 401); simpl; [split; [apply parseRetryAfter_bounds|cbn; split; [done|lia]]|].
  destruct (Z.eqb_spec status 403); simpl; [split; [apply parseRetryAfter_bounds|cbn; split; [done|lia]]|].
  destruct (Z.eqb_spec status 429); simpl; [split; [apply parseRetryAfter_bounds|cbn; split; [lia|done]]|].
  destruct (Z.eqb_spec status 400); simpl; [split; [apply parseRetryAfter_bounds|cbn; split; [done|lia]]|].
  destruct (Z.eqb_spec status 404); simpl; (split; [apply parseRetryAfter_bounds|cbn; split; [done||lia|done||lia]]).
Qed.
