(* ===== verification/Retry.v ===== *)
(** * Same-provider retries: [internal/provider/retry.go] and [retry_budget.go]

    The retry configuration and its clamping, the backoff of one attempt, the
    retry loop, and the per-second retry budget kept in Redis. *)

From S2P Require Import Prelude Errors.

(** ** Configuration *)

Record RetryConfig := mkRetryConfig {
  NumRetries : Z;
  BackoffType : string;
  InitialMs : Z;
  MaxBackoffMs : Z
}.

Definition zero_retry : RetryConfig := mkRetryConfig 0 "" 0 0.

Definition clamp (lo hi z : Z) : Z := let z := if z <? lo then lo else z in if hi <? z then hi else z.

Section Parse.
(** [json.Unmarshal] of the model's extra_config; [None] is a decoding error. *)
Context (unmarshal : string -> option RetryConfig).

Definition ParseRetryConfig (extraConfig : string) : RetryConfig :=
  if String.eqb extraConfig "" then zero_retry
  else match unmarshal extraConfig with
       | None => zero_retry
       | Some cfg =>
           {| NumRetries := clamp 0 20 (NumRetries cfg); BackoffType := BackoffType cfg;
              InitialMs := clamp 0 60000 (InitialMs cfg);
              MaxBackoffMs := clamp 0 300000 (MaxBackoffMs cfg) |}
       end.
End Parse.

(** ** Backoff *)

(** [jitter] is the draw of [rand.IntN(500)]; every product and shift is on
    64-bit durations. *)
Definition backoffDuration (attempt : Z) (err : option GoError) (cfg : RetryConfig) (jitter : Z) : Z :=
  let initial := wrap64 (InitialMs cfg * Millisecond) in
  let initial := if initial =? 0 then Second else initial in
  let maxBackoff := wrap64 (MaxBackoffMs cfg * Millisecond) in
  let maxBackoff := if maxBackoff =? 0 then 60 * Second else maxBackoff in
  let base :=
    if String.eqb (BackoffType cfg) "fixed" then initial
    else if String.eqb (BackoffType cfg) "linear" then wrap64 (initial * (attempt + 1))
    else wrap64 (Z.shiftl initial (Z.min attempt 6)) in
  let base := if String.eqb (ClassifyError err) ErrorRateLimit then wrap64 (base * 2) else base in
  let hint := match err with
              | Some e => match as_provider e with Some pe => RetryAfter pe | None => 0 end
              | None => 0
              end in
  if 0 <? hint then (if maxBackoff <? hint then maxBackoff else hint)
  else
    let d := wrap64 (base + wrap64 (jitter * Millisecond)) in
    if maxBackoff <? d then maxBackoff else d.

(** ** The retry loop *)

Record RetryResult := mkRetryResult {
  Err : option GoError;
  Attempts : Z;
  RetriesUsed : Z
}.

(** What the loop observes of the world, by attempt (from 0): the context's
    error at the top of the iteration, the outcome of the call, the answer of
    the retry budget (when there is one), the jitter, and the context's error if
    it ends during the wait. *)
Record RetryEnv := mkRetryEnv {
  ctxErr : Z -> option GoError;
  call : Z -> option GoError;
  budget : option (Z -> bool);
  jitterOf : Z -> Z;
  ctxDone : Z -> option GoError
}.

(** One iteration per unit of [left = NumRetries - attempt].  The second
    component lists the waits that ran to their end. *)
Fixpoint retry_loop (cfg : RetryConfig) (env : RetryEnv) (left : nat) (attempt : Z)
    : RetryResult * list Z :=
  match ctxErr env attempt with
  | Some e => (mkRetryResult (Some e) attempt attempt, [])
  | None =>
      match call env attempt with
      | None => (mkRetryResult None (attempt + 1) attempt, [])
      | Some lastErr =>
          if negb (IsRetryableError (Some lastErr)) then
            (mkRetryResult (Some lastErr) (attempt + 1) attempt, [])
          else
            match left with
            | O => (mkRetryResult (Some lastErr) (NumRetries cfg + 1) (NumRetries cfg), [])
            | S left' =>
                if match budget env with Some allow => negb (allow attempt) | None => false end then
                  (mkRetryResult (Some lastErr) (attempt + 1) attempt, [])
                else
                  match ctxDone env attempt with
                  | Some e => (mkRetryResult (Some e) (attempt + 1) attempt, [])
                  | None =>
                      let b := backoffDuration attempt (Some lastErr) cfg (jitterOf env attempt) in
                      let '(r, ws) := retry_loop cfg env left' (attempt + 1) in
                      (r, b :: ws)
                  end
            end
      end
  end.

Definition WithRetry (cfg : RetryConfig) (env : RetryEnv) : RetryResult * list Z :=
  if NumRetries cfg <=? 0 then
    match call env 0 with
    | Some e => (mkRetryResult (Some e) 1 0, [])
    | None => (mkRetryResult None 1 0, [])
    end
  else retry_loop cfg env (Z.to_nat (NumRetries cfg)) 0.

(** ** The retry budget *)

(** Redis keeps one counter per wall-clock second; the script increments it and
    sets its expiry with the first increment. *)
Record RetryBudget := mkRetryBudget { rate : Z }.

Definition NewRetryBudget (ratePerSecond : Z) : RetryBudget :=
  {| rate := if ratePerSecond <=? 0 then 100 else ratePerSecond |}.

Definition UpdateRate (b : RetryBudget) (r : Z) : RetryBudget :=
  if r <=? 0 then b else {| rate := r |}.

Definition budgetScript (key : string) (db : gmap string Z) : Z * gmap string Z :=
  let count := default 0 (db !! key) + 1 in (count, <[key := count]> db).

(** [redisUp = false] is a failed script: the budget fails open. *)
Definition Allow (b : RetryBudget) (redisUp : bool) (second : string) (db : gmap string Z)
    : bool * gmap string Z :=
  if redisUp then
    let '(count, db') := budgetScript ("retry_budget:" +:+ second) db in
    (count <=? rate b, db')
  else (true, db).

(** ** Properties *)

(** A configuration as [ParseRetryConfig] returns it. *)
Definition retry_config_ok (cfg : RetryConfig) : Prop :=
  0 <= NumRetries cfg <= 20 /\ 0 <= InitialMs cfg <= 60000 /\ 0 <= MaxBackoffMs cfg <= 300000.

Lemma clamp_range lo hi z : lo <= hi -> lo <= clamp lo hi z <= hi.
Proof. unfold clamp. repeat case_match; lia. Qed.

Lemma ParseRetryConfig_ok unmarshal extra : retry_config_ok (ParseRetryConfig unmarshal extra).
Proof.
  unfold ParseRetryConfig, retry_config_ok. repeat case_match; simpl; try lia.
  pose proof (clamp_range 0 20 (NumRetries r)). pose proof (clamp_range 0 60000 (InitialMs r)).
  pose proof (clamp_range 0 300000 (MaxBackoffMs r)). lia.
Qed.

(** The wait between two attempts is positive and never above the configured
    ceiling (60 s when unset), for every backoff type, error and jitter: no
    step of the 64-bit arithmetic overflows on a parsed configuration. *)
Theorem backoff_bounded unmarshal extra attempt err jitter :
  let cfg := ParseRetryConfig unmarshal extra in
  0 <= attempt <= NumRetries cfg -> 0 <= jitter < 500 ->
  0 < backoffDuration attempt err cfg jitter
    <= (if MaxBackoffMs cfg =? 0 then 60 * Second else MaxBackoffMs cfg * Millisecond).
Proof.
  intros cfg Ha Hj. pose proof (ParseRetryConfig_ok unmarshal extra) as (Hn & Hi & Hm). fold cfg in Hn, Hi, Hm.
  unfold backoffDuration, Second, Millisecond.
  rewrite !(wrap64_id (InitialMs cfg * 1000000)) by (unfold in_int64; lia).
  rewrite !(wrap64_id (MaxBackoffMs cfg * 1000000)) by (unfold in_int64; lia).
  rewrite !(wrap64_id (jitter * 1000000)) by (unfold in_int64; lia).
  set (initial := if InitialMs cfg * 1000000 =? 0 then _ else _).
  assert (Hinit : 1000000 <= initial <= 60000000000) by (unfold initial; case_match; lia).
  clearbody initial.
  assert (Hsh : initial <= Z.shiftl initial (Z.min attempt 6) <= initial * 64).
  { rewrite Z.shiftl_mul_pow2 by lia.
    assert (2 ^ 0 <= 2 ^ Z.min attempt 6 <= 2 ^ 6) by (split; apply Z.pow_le_mono_r; lia). nia. }
  rewrite (wrap64_id (Z.shiftl _ _)) by (unfold in_int64; lia).
  rewrite (wrap64_id (initial * (attempt + 1))) by (unfold in_int64; nia).
  set (base := if String.eqb (BackoffType cfg) "fixed" then _ else _).
  assert (Hbase : initial <= base <= initial * 64) by (unfold base; repeat case_match; nia).
  clearbody base. rewrite (wrap64_id (base * 2)) by (unfold in_int64; lia).
  set (b2 := if String.eqb (ClassifyError err) _ then _ else _).
  assert (Hb2 : initial <= b2 <= initial * 128) by (unfold b2; case_match; lia).
  clearbody b2. rewrite (wrap64_id (b2 + _)) by (unfold in_int64; lia).
  set (hint := match err with Some _ => _ | None => _ end). clearbody hint.
  repeat case_match; lia.
Qed.

Definition sample_retry (_ : string) : option RetryConfig := Some (mkRetryConfig 99 "linear" 70000 0).

Lemma backoff_bounded_witness :
  0 < backoffDuration 20 (Some UnexpectedEOF) (ParseRetryConfig sample_retry "{}") 499 <= 60 * Second.
Proof. apply (backoff_bounded sample_retry "{}" 20 (Some UnexpectedEOF) 499); vm_compute; intuition congruence. Defined.

(** The outcome of a retry loop entered at [attempt]. *)
Record retry_outcome (cfg : RetryConfig) (env : RetryEnv) (attempt : Z) (r : RetryResult) (ws : list Z)
    : Prop := {
  ro_waits : Z.of_nat (length ws) = RetriesUsed r - attempt;
  ro_used : attempt <= RetriesUsed r <= Z.max 0 (NumRetries cfg);
  ro_attempts : RetriesUsed r <= Attempts r <= RetriesUsed r + 1;
  ro_success : Err r = None -> call env (RetriesUsed r) = None /\ Attempts r = RetriesUsed r + 1;
  ro_failed : forall i, attempt <= i < RetriesUsed r ->
    exists e, call env i = Some e /\ IsRetryableError (Some e) = true
}.

Lemma retry_loop_outcome cfg env left attempt :
  attempt + Z.of_nat left = NumRetries cfg ->
  let '(r, ws) := retry_loop cfg env left attempt in retry_outcome cfg env attempt r ws.
Proof.
  assert (Hstop : forall a e n, n = a \/ n = a + 1 -> a <= Z.max 0 (NumRetries cfg) ->
    retry_outcome cfg env a (mkRetryResult (Some e) n a) []).
  { intros a e n Hn Ha. split; simpl; lia || done. }
  revert attempt. induction left as [|left IH]; intros attempt Hl; cbn [retry_loop];
    (destruct (ctxErr env attempt); [apply Hstop; lia|]);
    (destruct (call env attempt) as [e|] eqn:Ecall;
      [|split; simpl; lia || done]);
    (destruct (IsRetryableError (Some e)) eqn:Er; simpl; [|apply Hstop; lia]).
  - replace (NumRetries cfg) with attempt by lia. apply Hstop; lia.
  - destruct (match budget env with Some _ => _ | None => _ end); [apply Hstop; lia|].
    destruct (ctxDone env attempt); [apply Hstop; lia|].
    specialize (IH (attempt + 1) ltac:(lia)).
    destruct (retry_loop cfg env left (attempt + 1)) as [r ws]. destruct IH as [Hw Hu Ha Hs Hf].
    split; simpl; try lia; try done.
    intros i Hi. destruct (decide (i = attempt)) as [->|]; [by exists e|]. apply Hf. lia.
Qed.

(** The retry loop, for every configuration: it makes at most [1 + NumRetries]
    calls, waits once between consecutive calls and never after the last,
    reports success only for a call that succeeded, and goes past a call only
    when it failed with a retryable error. *)
Theorem WithRetry_outcome cfg env :
  let '(r, ws) := WithRetry cfg env in retry_outcome cfg env 0 r ws.
Proof.
  unfold WithRetry. destruct (Z.leb_spec (NumRetries cfg) 0).
  - destruct (call env 0) as [e|] eqn:E; split; simpl; lia || done.
  - apply retry_loop_outcome. lia.
Qed.

(** [n] retries that ask the budget within one wall-clock second. *)
Fixpoint allow_run (n : nat) (b : RetryBudget) (second : string) (db : gmap string Z) : list bool :=
  match n with
  | O => []
  | S n => let '(ok, db') := Allow b true second db in ok :: allow_run n b second db'
  end.

Definition count_true (l : list bool) : Z := Z.of_nat (length (List.filter id l)).

Lemma allow_run_count n b second db c :
  default 0 (db !! ("retry_budget:" +:+ second)) = c -> 0 <= c ->
  count_true (allow_run n b second db) = Z.max 0 (Z.min (Z.of_nat n) (rate b - c)).
Proof.
  revert db c. induction n as [|n IH]; intros db c Hc Hpos.
  { unfold count_true. simpl. lia. }
  cbn [allow_run]. unfold Allow, budgetScript. rewrite Hc.
  specialize (IH (<["retry_budget:" +:+ second := c + 1]> db) (c + 1)).
  rewrite lookup_insert_eq in IH. specialize (IH eq_refl ltac:(lia)).
  unfold count_true in *. simpl.
  destruct (Z.leb_spec (c + 1) (rate b)); cbn [List.filter id length]; lia.
Qed.

(** However many retries race in one second, exactly [rate] of them pass while
    Redis answers. *)
Theorem retry_budget_caps n b second db :
  0 < rate b -> db !! ("retry_budget:" +:+ second) = None ->
  count_true (allow_run n b second db) = Z.min (Z.of_nat n) (rate b).
Proof.
  intros Hr E. rewrite (allow_run_count n b second db 0); [lia| |lia]. by rewrite E.
Qed.

Lemma retry_budget_caps_witness :
  count_true (allow_run 5 (NewRetryBudget 3) "2026-01-01-00-00-00" ∅) = Z.min (Z.of_nat 5) 3.
Proof. by apply (retry_budget_caps 5 (NewRetryBudget 3) "2026-01-01-00-00-00" ∅). Defined.
