(* ===== verification/Router.v ===== *)
(** * Route resolution: [internal/router]

    Candidates and routes, the two routing strategies of the Community build,
    the health filter, and the resolver with its route cache, its health-score
    cache and its bounded negative cache.  Health scores are IEEE binary64
    values computed with the reference operations of [SpecFloat]. *)

From Stdlib Require Import SpecFloat.
From stdpp Require Import pretty.
From S2P Require Import Prelude Health Errors Retry.

(** ** Binary64 *)
Definition float64 : Type := spec_float.
Definition fmul (a b : float64) : float64 := SFmul 53 1024 a b.
Definition fadd (a b : float64) : float64 := SFadd 53 1024 a b.
Definition flt (a b : float64) : bool := SFltb a b.
Definition fle (a b : float64) : bool := SFleb a b.
Definition feq (a b : float64) : bool := SFeqb a b.
Definition float_of_Z (z : Z) : float64 := binary_normalize 53 1024 z 0 false.
Definition fzero : float64 := S754_zero false.

(** ** Data *)

Record FallbackConfig := mkFallbackConfig {
  MaxRetries : Z;
  RetryOn : list string;
  RetryDelayMs : Z
}.

Definition zero_fallback : FallbackConfig := mkFallbackConfig 0 [] 0.

(** [model.Provider]: the columns the router and the failover engine read. *)
Record ProviderRowT := mkProviderRow {
  rowName : string;
  AdapterType : string;
  APIKey : string;
  rowStatus : Z
}.

(** A provider instance is known by its [Name()]. *)
Record RouteResult := mkRoute {
  rrProvider : string;
  ProviderModel : string;
  InputPrice : float64;
  OutputPrice : float64;
  Currency : string;
  ProviderRow : option ProviderRowT;
  rrRetryConfig : RetryConfig;
  FallbackModels : list string;
  rrFallbackConfig : FallbackConfig;
  ExtraConfig : string;
  Weight : Z;
  rrPriority : Z;
  MaxContext : option Z
}.

Record RouteCandidate := mkCandidate {
  cProvider : string;
  cProviderModel : string;
  cProviderRow : option ProviderRowT;
  cInputPrice : float64;
  cOutputPrice : float64;
  cCurrency : string;
  cWeight : Z;
  cPriority : Z;
  ModelID : Z;
  ModelName : string;
  AvgLatencyMs : float64;
  CanaryPercent : Z;
  ActiveRequests : Z;
  cRetryConfig : RetryConfig;
  cFallbackModels : list string;
  FallbackCfg : FallbackConfig;
  cExtraConfig : string;
  cMaxContext : option Z
}.

Definition candidateToRouteResult (c : RouteCandidate) : RouteResult :=
  {| rrProvider := cProvider c; ProviderModel := cProviderModel c; InputPrice := cInputPrice c;
     OutputPrice := cOutputPrice c; Currency := cCurrency c; ProviderRow := cProviderRow c;
     rrRetryConfig := cRetryConfig c; FallbackModels := cFallbackModels c;
     rrFallbackConfig := FallbackCfg c; ExtraConfig := cExtraConfig c; Weight := cWeight c;
     rrPriority := cPriority c; MaxContext := cMaxContext c |}.

Definition candidatesToRouteResults (cs : list RouteCandidate) : list RouteResult :=
  candidateToRouteResult <$> cs.

(** ** Strategy gating *)

Definition StrategyWeightedRandom := "weighted_random".
Definition StrategyRoundRobin := "round_robin".
Definition StrategyLeastLatency := "least_latency".
Definition StrategyLeastCost := "least_cost".
Definition StrategyCanary := "canary".
Definition StrategyLeastBusy := "least_busy".

(** The two answers of [license.Gate]: [true] is a nil error. *)
Record GateChecker := mkGate { RequirePro : bool; RequireEnterprise : bool }.

Definition IsValidStrategy (name : string) (gate : option GateChecker) : bool :=
  match gate with
  | None =>
      bool_decide (name ∈ [StrategyWeightedRandom; StrategyRoundRobin; StrategyLeastLatency;
                           StrategyLeastCost; StrategyCanary; StrategyLeastBusy])
  | Some g =>
      if bool_decide (name ∈ [StrategyWeightedRandom; StrategyRoundRobin]) then true
      else if bool_decide (name ∈ [StrategyLeastLatency; StrategyLeastBusy]) then RequirePro g
      else if bool_decide (name ∈ [StrategyLeastCost; StrategyCanary]) then RequireEnterprise g
      else false
  end.

(** [tierOrder[t]]: an unknown tier reads as 0. *)
Definition tierOrder (t : string) : Z :=
  if String.eqb t "pro" then 1 else if String.eqb t "enterprise" then 2 else 0.

Definition tierSufficient (current required : string) : bool := tierOrder required <=? tierOrder current.

(** ** Selection *)

Definition splitPrimariesFallbacks (cs : list RouteCandidate)
    : list RouteCandidate * list RouteCandidate :=
  (List.filter (fun c => 0 <? cWeight c) cs, List.filter (fun c => negb (0 <? cWeight c)) cs).

(** [type HealthScoreFn func(providerName, model string) float64]; [None] is nil. *)
Definition HealthScoreFn : Type := string -> string -> float64.

Definition score_of (fn : HealthScoreFn) (c : RouteCandidate) : float64 :=
  fn (cProvider c) (cProviderModel c).

Definition filterByHealth (healthFn : option HealthScoreFn) (primaries fallbacks : list RouteCandidate)
    : list RouteCandidate * list RouteCandidate :=
  match healthFn, primaries with
  | None, _ | _, [] => (primaries, fallbacks)
  | Some fn, _ =>
      let ok c := flt fzero (score_of fn c) in
      let healthy := List.filter ok primaries in
      let demoted := List.filter (fun c => negb (ok c)) primaries in
      match healthy with
      | [] => (primaries, fallbacks)
      | _ => (healthy, fallbacks ++ demoted)
      end
  end.

(** The first index whose running total exceeds the draw. *)
Fixpoint pick_running {A W : Type} (add : W -> W -> W) (lt : W -> W -> bool) (rng running : W)
    (l : list (A * W)) : option A :=
  match l with
  | [] => None
  | (a, w) :: l =>
      let running := add running w in
      if lt rng running then Some a else pick_running add lt rng running l
  end.

Definition total_weight (cs : list RouteCandidate) : Z :=
  fold_left (fun t c => t + cWeight c) cs 0.

(** [rng] is the draw of [rand.IntN(totalWeight)]. *)
Definition weightedPickCandidates (rng : Z) (cs : list RouteCandidate) : option RouteCandidate :=
  match cs with
  | [] => None
  | c0 :: _ =>
      if total_weight cs =? 0 then Some c0
      else match pick_running Z.add Z.ltb rng 0 ((fun c => (c, cWeight c)) <$> cs) with
           | Some c => Some c
           | None => Some c0
           end
  end.

Definition effectiveWeight (c : RouteCandidate) (healthFn : option HealthScoreFn) : float64 :=
  match healthFn with
  | None => float_of_Z (cWeight c)
  | Some fn => fmul (float_of_Z (cWeight c)) (score_of fn c)
  end.

(** [u] is the draw of [rand.Float64()]. *)
Definition weightedPickByEffective (u : float64) (cs : list RouteCandidate)
    (healthFn : option HealthScoreFn) : option RouteCandidate :=
  match cs with
  | [] => None
  | c0 :: _ =>
      let total := fold_left (fun t c => fadd t (effectiveWeight c healthFn)) cs fzero in
      if fle total fzero then Some c0
      else match pick_running fadd flt (fmul u total) fzero
                   ((fun c => (c, effectiveWeight c healthFn)) <$> cs) with
           | Some c => Some c
           | None => Some c0
           end
  end.

Definition other_than (picked c : RouteCandidate) : bool := negb (ModelID c =? ModelID picked).

Definition effective_less (healthFn : option HealthScoreFn) (a b : RouteCandidate) : bool :=
  let ewi := effectiveWeight a healthFn in
  let ewj := effectiveWeight b healthFn in
  if negb (feq ewi ewj) then flt ewj ewi else cPriority a <? cPriority b.

(** [WeightedRandomStrategy.Select] *)
Definition WeightedRandom_Select (healthFn : option HealthScoreFn) (u : float64)
    (cs : list RouteCandidate) : option RouteCandidate * list RouteResult :=
  let '(p0, f0) := splitPrimariesFallbacks cs in
  let '(primaries, fallbacks) := filterByHealth healthFn p0 f0 in
  match weightedPickByEffective u primaries healthFn with
  | None => (None, candidatesToRouteResults fallbacks)
  | Some picked =>
      let remaining := stable_sort (effective_less healthFn)
                         (List.filter (other_than picked) primaries) in
      (Some picked, candidateToRouteResult picked :: candidatesToRouteResults remaining
                    ++ candidatesToRouteResults fallbacks)
  end.

(** [RoundRobinStrategy.Select]: [counter = Some idx] is the value [INCR]
    returned, [None] a nil client or a Redis error (weighted pick by [rng]). *)
Definition RoundRobin_Select (healthFn : option HealthScoreFn) (counter : option Z) (rng : Z)
    (cs : list RouteCandidate) : option RouteCandidate * list RouteResult :=
  let '(p0, f0) := splitPrimariesFallbacks cs in
  let '(primaries, fallbacks) := filterByHealth healthFn p0 f0 in
  match primaries with
  | [] => (None, candidatesToRouteResults fallbacks)
  | p :: _ =>
      match counter with
      | None =>
          let picked := default p (weightedPickCandidates rng primaries) in
          (Some picked,
           candidateToRouteResult picked
             :: candidatesToRouteResults (List.filter (other_than picked) primaries)
             ++ candidatesToRouteResults fallbacks)
      | Some idx =>
          let pickedIdx := Z.to_nat (Z.rem idx (Z.of_nat (length primaries))) in
          let picked := default p (primaries !! pickedIdx) in
          (Some picked,
           candidateToRouteResult picked
             :: candidatesToRouteResults (take pickedIdx primaries ++ drop (S pickedIdx) primaries)
             ++ candidatesToRouteResults fallbacks)
      end
  end.

(** ** Interface of a strategy

    What the resolver relies on: given candidates with distinct mapping ids, a
    strategy returns every candidate's route exactly once. *)
Definition strategy : Type := list RouteCandidate -> option RouteCandidate * list RouteResult.

Class RoutingStrategy (sel : strategy) : Prop :=
  select_perm : forall cs, NoDup (ModelID <$> cs) ->
    snd (sel cs) ≡ₚ candidatesToRouteResults cs.

(** ** The resolver *)

(** [extraConfig], the fields the router reads. *)
Record extraConfig := mkExtra {
  ecCanaryPercent : Z;
  ecNumRetries : Z;
  ecBackoffType : string;
  ecInitialMs : Z;
  ecMaxBackoffMs : Z;
  ecFallbackModels : list string;
  ecFallback : FallbackConfig;
  ecConcurrency : Z;
  ecRPM : Z
}.

Definition zero_extra : extraConfig := mkExtra 0 0 "" 0 0 [] zero_fallback 0 0.

(** [model.ProviderModel] joined with its provider row. *)
Record ProviderModelRow := mkProviderModel {
  pmID : Z;
  pmModelName : string;
  pmProviderModel : string;
  pmWeight : Z;
  pmPriority : Z;
  pmStatus : Z;
  pmMaxContext : option Z;
  pmInputPrice : float64;
  pmOutputPrice : float64;
  pmCurrency : string;
  RoutingStrategyName : string;
  pmExtraConfig : string;
  pmProvider : ProviderRowT
}.

(** What the resolver consults and does not own: the adapter registry, the
    license, the metrics services, the JSON decoder, the secret store and the
    registered strategies. *)
Record ResolveEnv := mkResolveEnv {
  registered : string -> bool;
  adapterMinTier : string -> option string;
  currentTier : string;
  latencyOf : string -> float64;
  activeOf : string -> Z;
  unmarshalExtra : string -> extraConfig;
  secretResolve : option (string -> option string);
  strategies : string -> option strategy
}.

Inductive ResolveErr :=
  | ErrNoProviderFound (model : string)
  | ErrNoActiveProvider (model : string) (open : list circuit_desc)
  | ErrResolveDegraded (model : string)
  | ErrCtx (e : GoError).

Inductive resolved :=
  | Routes (rs : list RouteResult)
  | RErr (e : ResolveErr)
  | RPanic.

(** The outcome of the mapping query: rows, or a failure together with the
    caller's own context error. *)
Inductive lookup_outcome :=
  | Found (rows : list ProviderModelRow)
  | LookupFailed (callerErr : option GoError).

Record cacheEntry := mkCacheEntry { results : list RouteResult; expire : Z }.

Record Resolver := mkResolver {
  rHealth : option HealthTracker;
  cache : gmap string cacheEntry;
  ttl : Z;
  healthFn : option HealthScoreFn;
  healthScoreCache : gmap string (float64 * Z);
  degraded : gmap string Z
}.

Definition resolveDegradedTTL : Z := 3 * Second.
Definition degradedCacheCap : nat := Z.to_nat 8192.
Definition healthScoreCacheTTL : Z := 2 * Second.

Definition NewResolver (h : option HealthTracker) : Resolver :=
  {| rHealth := h; cache := ∅; ttl := 30 * Second; healthFn := None; healthScoreCache := ∅;
     degraded := ∅ |}.

Definition with_cache (r : Resolver) (m : gmap string cacheEntry) : Resolver :=
  {| rHealth := rHealth r; cache := m; ttl := ttl r; healthFn := healthFn r;
     healthScoreCache := healthScoreCache r; degraded := degraded r |}.

Definition with_degraded (r : Resolver) (m : gmap string Z) : Resolver :=
  {| rHealth := rHealth r; cache := cache r; ttl := ttl r; healthFn := healthFn r;
     healthScoreCache := healthScoreCache r; degraded := m |}.

Definition with_scores (r : Resolver) (m : gmap string (float64 * Z)) : Resolver :=
  {| rHealth := rHealth r; cache := cache r; ttl := ttl r; healthFn := healthFn r;
     healthScoreCache := m; degraded := degraded r |}.

Definition parseExtraConfig (env : ResolveEnv) (raw : string) : extraConfig :=
  if String.eqb raw "" then zero_extra
  else
    let cfg := unmarshalExtra env raw in
    if (ecCanaryPercent cfg <? 0) || (100 <? ecCanaryPercent cfg) then
      {| ecCanaryPercent := 0; ecNumRetries := ecNumRetries cfg; ecBackoffType := ecBackoffType cfg;
         ecInitialMs := ecInitialMs cfg; ecMaxBackoffMs := ecMaxBackoffMs cfg;
         ecFallbackModels := ecFallbackModels cfg; ecFallback := ecFallback cfg;
         ecConcurrency := ecConcurrency cfg; ecRPM := ecRPM cfg |}
    else cfg.

Definition ParseGuardrailConfig (env : ResolveEnv) (raw : string) : Z * Z :=
  let cfg := parseExtraConfig env raw in (ecConcurrency cfg, ecRPM cfg).

Definition healthAllows (now : Z) (h : option HealthTracker) (name model : string) : bool :=
  match h with
  | None => true
  | Some h => negb (bool_decide (CircuitState now h name model = CircuitOpen))
  end.

(** The filter loop of [resolveUncached]. *)
Definition row_routable (env : ResolveEnv) (now : Z) (h : option HealthTracker) (m : ProviderModelRow)
    : bool :=
  (pmStatus m =? 1) && (rowStatus (pmProvider m) =? 1) && registered env (rowName (pmProvider m))
  && healthAllows now h (rowName (pmProvider m)) (pmProviderModel m)
  && match adapterMinTier env (AdapterType (pmProvider m)) with
     | Some t => if String.eqb t "" then true else tierSufficient (currentTier env) t
     | None => true
     end.

(** The causes reported when no candidate is left. *)
Definition open_circuits (env : ResolveEnv) (now : Z) (h : option HealthTracker)
    (rows : list ProviderModelRow) : list circuit_desc :=
  match h with
  | None => []
  | Some h =>
      omap (fun m =>
        if (pmStatus m =? 1) && (rowStatus (pmProvider m) =? 1) && registered env (rowName (pmProvider m))
           && negb (healthAllows now (Some h) (rowName (pmProvider m)) (pmProviderModel m))
        then OpenCircuitDescription now now h (rowName (pmProvider m)) (pmProviderModel m)
        else None) rows
  end.

Definition with_apikey (row : ProviderRowT) (k : string) : ProviderRowT :=
  {| rowName := rowName row; AdapterType := AdapterType row; APIKey := k; rowStatus := rowStatus row |}.

(** Secret resolution of one candidate's row: a failure keeps the reference. *)
Definition resolve_secret (env : ResolveEnv) (row : ProviderRowT) : ProviderRowT :=
  match secretResolve env with
  | None => row
  | Some f =>
      if String.eqb (APIKey row) "" then row
      else match f (APIKey row) with Some k => with_apikey row k | None => row end
  end.

Definition build_candidate (env : ResolveEnv) (m : ProviderModelRow) : RouteCandidate :=
  let ec := parseExtraConfig env (pmExtraConfig m) in
  {| cProvider := rowName (pmProvider m); cProviderModel := pmProviderModel m;
     cProviderRow := Some (resolve_secret env (pmProvider m));
     cInputPrice := pmInputPrice m; cOutputPrice := pmOutputPrice m; cCurrency := pmCurrency m;
     cWeight := pmWeight m; cPriority := pmPriority m; ModelID := pmID m; ModelName := pmModelName m;
     AvgLatencyMs := latencyOf env (rowName (pmProvider m)); CanaryPercent := ecCanaryPercent ec;
     ActiveRequests := activeOf env (rowName (pmProvider m));
     cRetryConfig := {| NumRetries := ecNumRetries ec; BackoffType := ecBackoffType ec;
                        InitialMs := ecInitialMs ec; MaxBackoffMs := ecMaxBackoffMs ec |};
     cFallbackModels := ecFallbackModels ec; FallbackCfg := ecFallback ec;
     cExtraConfig := pmExtraConfig m; cMaxContext := pmMaxContext m |}.

(** Strategy of the first candidate, weighted random when unset or unknown. *)
Definition strategy_for (env : ResolveEnv) (cs : list ProviderModelRow) : option strategy :=
  let name := match cs with m :: _ => RoutingStrategyName m | [] => "" end in
  let name := if String.eqb name "" then StrategyWeightedRandom else name in
  match strategies env name with
  | Some s => Some s
  | None => strategies env StrategyWeightedRandom
  end.

Definition resolveUncached (env : ResolveEnv) (now : Z) (h : option HealthTracker)
    (modelName : string) (q : lookup_outcome) : resolved :=
  match q with
  | LookupFailed (Some e) => RErr (ErrCtx e)
  | LookupFailed None => RErr (ErrResolveDegraded modelName)
  | Found [] => RErr (ErrNoProviderFound modelName)
  | Found rows =>
      match List.filter (row_routable env now h) rows with
      | [] => RErr (ErrNoActiveProvider modelName (open_circuits env now h rows))
      | cands =>
          match strategy_for env cands with
          | None => RPanic
          | Some sel => Routes (snd (sel (build_candidate env <$> cands)))
          end
      end
  end.

(** *** Health-score cache and reordering of cached routes *)

Definition cachedHealthScore (now : Z) (fn : HealthScoreFn) (r : Resolver) (name model : string)
    : float64 * Resolver :=
  let key := name +:+ "|" +:+ model in
  let fresh := match healthScoreCache r !! key with
               | Some (score, exp) => if now <? exp then Some score else None
               | None => None
               end in
  match fresh with
  | Some score => (score, r)
  | None =>
      let score := fn name model in
      (score, with_scores r (<[key := (score, now + healthScoreCacheTTL)]> (healthScoreCache r)))
  end.

Fixpoint score_routes (now : Z) (fn : HealthScoreFn) (r : Resolver) (routes : list RouteResult)
    : list (RouteResult * float64) * Resolver :=
  match routes with
  | [] => ([], r)
  | rr :: routes =>
      let '(score, r) := cachedHealthScore now fn r (rrProvider rr) (ProviderModel rr) in
      let '(items, r) := score_routes now fn r routes in
      ((rr, fmul (float_of_Z (Weight rr)) score) :: items, r)
  end.

Definition item_less (a b : RouteResult * float64) : bool :=
  if negb (feq (snd a) (snd b)) then flt (snd b) (snd a)
  else rrPriority (fst a) <? rrPriority (fst b).

Definition reorderByHealth (now : Z) (fn : HealthScoreFn) (r : Resolver) (routes : list RouteResult)
    : list RouteResult * Resolver :=
  let '(items, r) := score_routes now fn r routes in
  (fst <$> stable_sort item_less items, r).

(** *** Route cache *)

Definition unroutableFromCache (now : Z) (h : option HealthTracker) (modelName : string)
    (rs : list RouteResult) : ResolveErr :=
  ErrNoActiveProvider modelName
    (match h with
     | None => []
     | Some h => omap (fun rr => OpenCircuitDescription now now h (rrProvider rr) (ProviderModel rr)) rs
     end).

(** [None] is [hit = false]. *)
Definition serveFromCache (now : Z) (r : Resolver) (cacheKey modelName : string)
    : option resolved * Resolver :=
  match cache r !! cacheKey with
  | None => (None, r)
  | Some entry =>
      if negb (now <? expire entry) then (None, with_cache r (delete cacheKey (cache r)))
      else
        match rHealth r with
        | Some h =>
            match List.filter (fun rr => healthAllows now (Some h) (rrProvider rr) (ProviderModel rr))
                    (results entry) with
            | [] => (Some (RErr (unroutableFromCache now (Some h) modelName (results entry))), r)
            | healthy =>
                match healthFn r with
                | Some fn => let '(out, r) := reorderByHealth now fn r healthy in (Some (Routes out), r)
                | None => (Some (Routes healthy), r)
                end
            end
        | None =>
            match healthFn r with
            | Some fn => let '(out, r) := reorderByHealth now fn r (results entry) in (Some (Routes out), r)
            | None => (Some (Routes (results entry)), r)
            end
        end
  end.

Definition Invalidate (r : Resolver) : Resolver := with_cache r ∅.

(** *** Negative cache *)

(** The eviction loop, along the iteration order [order] of the map. *)
Fixpoint evict (order : list string) (m : gmap string Z) : gmap string Z :=
  match order with
  | [] => m
  | k :: order => if (size m <? degradedCacheCap)%nat then m else evict order (delete k m)
  end.

(** [order] lists the keys in the order Go happens to visit them. *)
Definition markDegraded (now : Z) (order : list string) (r : Resolver) (cacheKey : string) : Resolver :=
  let m := degraded r in
  let m := if (degradedCacheCap <=? size m)%nat then
             evict order (filter (fun '(_, until) => ~ until < now) m)
           else m in
  with_degraded r (<[cacheKey := now + resolveDegradedTTL]> m).

Definition clearDegraded (r : Resolver) (cacheKey : string) : Resolver :=
  with_degraded r (delete cacheKey (degraded r)).

Definition degradedError (now : Z) (r : Resolver) (cacheKey modelName : string)
    : option ResolveErr * Resolver :=
  match degraded r !! cacheKey with
  | None => (None, r)
  | Some until =>
      if until <? now then (None, with_degraded r (delete cacheKey (degraded r)))
      else (Some (ErrResolveDegraded modelName), r)
  end.

(** *** Resolve *)

Definition cache_key (modelName : string) (orgID : Z) : string := modelName +:+ ":" +:+ pretty orgID.

(** What one call meets: the clock at its first checks, at the checks of the
    probe it owns and after the query, the iteration order of the negative
    cache, the query's outcome and the state of its own context at the end. *)
Record ResolveCall := mkResolveCall {
  t_check : Z;
  t_probe : Z;
  t_done : Z;
  map_order : list string;
  query : lookup_outcome;
  ctx_end : option GoError
}.

(** The body run by the owner of the single-flight probe. *)
Definition resolve_probe (env : ResolveEnv) (c : ResolveCall) (r : Resolver) (cacheKey modelName : string)
    : resolved * Resolver :=
  let '(derr, r) := degradedError (t_probe c) r cacheKey modelName in
  match derr with
  | Some e => (RErr e, r)
  | None =>
      let '(hit, r) := serveFromCache (t_probe c) r cacheKey modelName in
      match hit with
      | Some out => (out, r)
      | None =>
          match resolveUncached env (t_probe c) (rHealth r) modelName (query c) with
          | Routes ordered =>
              let r := clearDegraded r cacheKey in
              (Routes ordered,
               with_cache r (<[cacheKey := mkCacheEntry ordered (t_done c + ttl r)]> (cache r)))
          | RErr (ErrResolveDegraded m) =>
              (RErr (ErrResolveDegraded m), markDegraded (t_done c) (map_order c) r cacheKey)
          | out => (out, r)
          end
      end
  end.

Definition is_ctx_err (e : ResolveErr) : bool :=
  match e with ErrCtx g => is_ctx g | _ => false end.

(** The owner's branch of [probeResolve]: an error met with the caller's context already
    over is reported as a cancellation.  The calls of the model run one after the other, so no probe is in
    flight when one starts; a waiter (which returns the owner's outcome, the error of its own context, or
    becomes the next owner once after a cancelled one) is not modelled. *)
Definition probeResolve (c : ResolveCall) (out : resolved) : resolved :=
  match ctx_end c, out with
  | Some _, RErr e => if is_ctx_err e then RErr e else RErr (ErrCtx (Wrap "context canceled" Canceled))
  | _, _ => out
  end.

(** [alias] is the injected alias resolver: [Some out] when the name is an alias. *)
Definition Resolve (env : ResolveEnv) (alias : option (string -> Z -> option resolved)) (c : ResolveCall)
    (r : Resolver) (modelName : string) (orgID : Z) : resolved * Resolver :=
  match match alias with Some f => f modelName orgID | None => None end with
  | Some out => (out, r)
  | None =>
      let cacheKey := cache_key modelName orgID in
      let '(derr, r) := degradedError (t_check c) r cacheKey modelName in
      match derr with
      | Some e => (RErr e, r)
      | None =>
          let '(hit, r) := serveFromCache (t_check c) r cacheKey modelName in
          match hit with
          | Some out => (out, r)
          | None =>
              let '(out, r) := resolve_probe env c r cacheKey modelName in
              (probeResolve c out, r)
          end
      end
  end.

(** [candidates[0]] panics on an empty list. *)
Definition ResolveSingle (env : ResolveEnv) (alias : option (string -> Z -> option resolved))
    (c : ResolveCall) (r : Resolver) (modelName : string) (orgID : Z)
    : (RouteResult + option ResolveErr) * Resolver :=
  let '(out, r) := Resolve env alias c r modelName orgID in
  (match out with
   | Routes (rr :: _) => inl rr
   | RErr e => inr (Some e)
   | Routes [] | RPanic => inr None
   end, r).

(** ** Lemmas *)

Lemma List_filter_split_perm {A} (f : A -> bool) l :
  List.filter f l ++ List.filter (fun x => negb (f x)) l ≡ₚ l.
Proof.
  induction l as [|x l IH]; simpl; [done|]. destruct (f x); simpl.
  - by rewrite IH.
  - by rewrite <- Permutation_middle, IH.
Qed.

Lemma filterByHealth_perm fn p f :
  fst (filterByHealth fn p f) ++ snd (filterByHealth fn p f) ≡ₚ p ++ f.
Proof.
  unfold filterByHealth. destruct fn as [fn|]; [|done]. destruct p as [|c p]; [done|].
  set (ok c := flt fzero (score_of fn c)).
  destruct (List.filter ok (c :: p)) as [|h hs] eqn:E; [done|].
  cbn [fst snd]. rewrite <- E, (Permutation_app_comm f), app_assoc.
  apply Permutation_app_tail. apply (List_filter_split_perm ok (c :: p)).
Qed.

Lemma filterByHealth_primaries fn p f :
  fst (filterByHealth fn p f) = [] -> p = [].
Proof.
  unfold filterByHealth. destruct fn as [fn|]; [|done]. destruct p as [|c p]; [done|].
  by destruct (List.filter _ (c :: p)).
Qed.

Lemma pick_running_in {A W} add lt rng running (l : list (A * W)) a :
  pick_running add lt rng running l = Some a -> a ∈ l.*1.
Proof.
  revert running. induction l as [|[x w] l IH]; intros running; simpl; [done|].
  case_match; [intros [= ->]; set_solver|]. intros E%IH. set_solver.
Qed.

Lemma fst_pair_map {A B} (f : A -> B) l : ((fun a => (a, f a)) <$> l).*1 = l.
Proof. induction l as [|a l IH]; [done|]. exact (f_equal (cons a) IH). Qed.

Lemma weightedPickByEffective_in u cs fn c :
  weightedPickByEffective u cs fn = Some c -> c ∈ cs.
Proof.
  unfold weightedPickByEffective. destruct cs as [|c0 cs]; [done|].
  case_match; [intros [= <-]; set_solver|].
  case_match eqn:E; intros [= <-]; [|set_solver].
  apply pick_running_in in E. by rewrite fst_pair_map in E.
Qed.

Lemma weightedPickByEffective_None u cs fn : weightedPickByEffective u cs fn = None -> cs = [].
Proof. unfold weightedPickByEffective. destruct cs; [done|]. by repeat case_match. Qed.

Lemma weightedPickCandidates_in rng cs c : weightedPickCandidates rng cs = Some c -> c ∈ cs.
Proof.
  unfold weightedPickCandidates. destruct cs as [|c0 cs]; [done|].
  case_match; [intros [= <-]; set_solver|].
  case_match eqn:E; intros [= <-]; [|set_solver].
  apply pick_running_in in E. by rewrite fst_pair_map in E.
Qed.

Lemma filter_all {A} (f : A -> bool) l : Forall (fun x => f x = true) l -> List.filter f l = l.
Proof. induction 1 as [|x l Hx _ IH]; simpl; [done|]. by rewrite Hx, IH. Qed.

(** With distinct ids, taking the picked candidate out and putting it first
    loses nothing. *)
Lemma pick_perm picked ps :
  NoDup (ModelID <$> ps) -> picked ∈ ps -> picked :: List.filter (other_than picked) ps ≡ₚ ps.
Proof.
  intros Hnd Hin. apply list_elem_of_split in Hin as (l1 & l2 & ->).
  rewrite fmap_app, fmap_cons in Hnd. apply NoDup_app in Hnd as (_ & H1 & H2).
  apply NoDup_cons in H2 as [H2 _].
  assert (Hne : forall c, c ∈ l1 \/ c ∈ l2 -> other_than picked c = true).
  { intros c Hc. unfold other_than. apply negb_true_iff, Z.eqb_neq. intros E. destruct Hc as [Hc|Hc].
    - apply (H1 (ModelID c)); [by apply list_elem_of_fmap_2|]. rewrite E. set_solver.
    - apply H2. rewrite <- E. by apply list_elem_of_fmap_2. }
  rewrite List.filter_app. simpl. unfold other_than at 2. rewrite Z.eqb_refl. simpl.
  rewrite !filter_all by (apply Forall_forall; auto). apply Permutation_middle.
Qed.

Lemma candidatesToRouteResults_perm l1 l2 :
  l1 ≡ₚ l2 -> candidatesToRouteResults l1 ≡ₚ candidatesToRouteResults l2.
Proof. intros Hp. unfold candidatesToRouteResults. by rewrite Hp. Qed.

#[export] Instance candidatesToRouteResults_proper :
  Proper ((≡ₚ) ==> (≡ₚ)) candidatesToRouteResults.
Proof. intros l1 l2. apply candidatesToRouteResults_perm. Qed.

Lemma routes_app l1 l2 :
  candidatesToRouteResults (l1 ++ l2) = candidatesToRouteResults l1 ++ candidatesToRouteResults l2.
Proof. apply fmap_app. Qed.

(** The primaries and fallbacks a strategy works on partition the candidates. *)
Lemma split_filter_perm fn cs p f :
  (let '(p0, f0) := splitPrimariesFallbacks cs in filterByHealth fn p0 f0) = (p, f) ->
  p ++ f ≡ₚ cs.
Proof.
  unfold splitPrimariesFallbacks. intros E.
  pose proof (filterByHealth_perm fn (List.filter (fun c => 0 <? cWeight c) cs)
                (List.filter (fun c => negb (0 <? cWeight c)) cs)) as Hp.
  rewrite E in Hp. simpl in Hp. by rewrite Hp, List_filter_split_perm.
Qed.

Lemma NoDup_primaries p f cs :
  p ++ f ≡ₚ cs -> NoDup (ModelID <$> cs) -> NoDup (ModelID <$> p).
Proof.
  intros Hp Hnd. rewrite <- Hp, fmap_app in Hnd. by apply NoDup_app in Hnd as [? _].
Qed.

Lemma picked_first_perm c l p f cs :
  p ++ f ≡ₚ cs -> c :: l ≡ₚ p ->
  candidateToRouteResult c :: candidatesToRouteResults l ++ candidatesToRouteResults f
    ≡ₚ candidatesToRouteResults cs.
Proof.
  intros <- Hl. rewrite routes_app.
  exact (Permutation_app_tail (candidatesToRouteResults f) (candidatesToRouteResults_perm (c :: l) p Hl)).
Qed.

#[export] Instance WeightedRandom_strategy fn u : RoutingStrategy (WeightedRandom_Select fn u).
Proof.
  intros cs Hnd. unfold WeightedRandom_Select.
  destruct (splitPrimariesFallbacks cs) as [p0 f0] eqn:Es.
  destruct (filterByHealth fn p0 f0) as [p f] eqn:Ef.
  assert (Hp : p ++ f ≡ₚ cs) by (apply (split_filter_perm fn); by rewrite Es).
  destruct (weightedPickByEffective u p fn) as [picked|] eqn:E; simpl.
  - apply (picked_first_perm picked _ p); [done|]. rewrite stable_sort_perm.
    apply pick_perm; [by eapply NoDup_primaries|]. by eapply weightedPickByEffective_in.
  - apply weightedPickByEffective_None in E as ->. by rewrite <- Hp.
Qed.

Lemma take_drop_perm (l : list RouteCandidate) i d :
  (i < length l)%nat -> default d (l !! i) :: take i l ++ drop (S i) l ≡ₚ l.
Proof.
  intros Hi. destruct (lookup_lt_is_Some_2 l i Hi) as [x Hx]. rewrite Hx. simpl.
  rewrite <- (take_drop_middle l i x Hx) at 3. apply Permutation_middle.
Qed.

Lemma RoundRobin_perm fn counter rng cs :
  (forall idx, counter = Some idx -> 0 <= idx) -> NoDup (ModelID <$> cs) ->
  snd (RoundRobin_Select fn counter rng cs) ≡ₚ candidatesToRouteResults cs.
Proof.
  intros Hidx Hnd. unfold RoundRobin_Select.
  destruct (splitPrimariesFallbacks cs) as [p0 f0] eqn:Es.
  destruct (filterByHealth fn p0 f0) as [p f] eqn:Ef.
  assert (Hp : p ++ f ≡ₚ cs) by (apply (split_filter_perm fn); by rewrite Es).
  destruct p as [|p1 ps]; [by rewrite <- Hp|].
  set (p := p1 :: ps) in *. destruct counter as [idx|]; cbn [snd].
  - specialize (Hidx idx eq_refl).
    pose proof (Z.rem_bound_pos idx (Z.of_nat (length p)) Hidx ltac:(simpl; lia)).
    apply (picked_first_perm _ _ p); [done|]. apply take_drop_perm. lia.
  - apply (picked_first_perm _ _ p); [done|].
    destruct (weightedPickCandidates rng p) as [picked|] eqn:E.
    + apply pick_perm; [by eapply NoDup_primaries|]. by eapply weightedPickCandidates_in.
    + unfold weightedPickCandidates in E. simpl in E. by repeat case_match.
Qed.

Lemma filterByHealth_sub fn p f c : c ∈ fst (filterByHealth fn p f) -> c ∈ p.
Proof.
  unfold filterByHealth. destruct fn as [fn|]; [|done]. destruct p as [|c0 p]; [done|].
  destruct (List.filter _ (c0 :: p)) eqn:E; [done|]. cbn [fst]. rewrite <- E.
  rewrite list_elem_of_In, filter_In, <- list_elem_of_In. by intros [? _].
Qed.

Lemma primary_positive cs c : c ∈ fst (splitPrimariesFallbacks cs) -> 0 < cWeight c.
Proof. cbn. rewrite list_elem_of_In, filter_In. intros [_ H]. lia. Qed.

(** ** Properties *)

(** Weighted-random selection with any health scores and any draw: every
    candidate is in the fallback chain exactly once, the pick is a configured
    primary and heads the chain, and there is no pick only when no primary is
    configured. *)
Theorem WeightedRandom_Select_complete fn u cs :
  NoDup (ModelID <$> cs) ->
  let '(picked, ordered) := WeightedRandom_Select fn u cs in
  ordered ≡ₚ candidatesToRouteResults cs /\
  match picked with
  | Some c => c ∈ cs /\ 0 < cWeight c /\ head ordered = Some (candidateToRouteResult c)
  | None => Forall (fun c => cWeight c <= 0) cs
  end.
Proof.
  intros Hnd. pose proof (WeightedRandom_strategy fn u cs Hnd) as Hperm.
  destruct (WeightedRandom_Select fn u cs) as [picked ordered] eqn:E. split; [done|].
  unfold WeightedRandom_Select in E.
  destruct (splitPrimariesFallbacks cs) as [p0 f0] eqn:Es.
  destruct (filterByHealth fn p0 f0) as [p f] eqn:Ef.
  assert (Hin : forall c, c ∈ p -> c ∈ p0).
  { intros c Hc. apply (filterByHealth_sub fn p0 f0). by rewrite Ef. }
  assert (Hp0 : p0 = List.filter (fun c => 0 <? cWeight c) cs) by (by injection Es).
  destruct (weightedPickByEffective u p fn) as [c|] eqn:Ew; injection E as <- <-.
  - apply weightedPickByEffective_in, Hin in Ew. split_and!; [| |done].
    + rewrite Hp0, list_elem_of_In, filter_In, <- list_elem_of_In in Ew. by destruct Ew.
    + apply (primary_positive cs). by rewrite Es.
  - apply weightedPickByEffective_None in Ew as ->.
    assert (p0 = []) as -> by (apply (filterByHealth_primaries fn p0 f0); by rewrite Ef).
    apply Forall_forall. intros c Hc. destruct (Z.ltb_spec 0 (cWeight c)) as [Hlt|]; [|done].
    assert (c ∈ List.filter (fun c => 0 <? cWeight c) cs) as Hx; [|rewrite <- Hp0 in Hx; set_solver].
    apply list_elem_of_In, filter_In. rewrite <- list_elem_of_In. split; [done|lia].
Qed.

(** Two providers of one model, and a configured fallback. *)
Definition sample_candidate (id : Z) (name : string) (w : Z) : RouteCandidate :=
  {| cProvider := name; cProviderModel := "gpt"; cProviderRow := None; cInputPrice := fzero;
     cOutputPrice := fzero; cCurrency := "USD"; cWeight := w; cPriority := 1; ModelID := id;
     ModelName := "gpt"; AvgLatencyMs := fzero; CanaryPercent := 0; ActiveRequests := 0;
     cRetryConfig := zero_retry; cFallbackModels := []; FallbackCfg := zero_fallback;
     cExtraConfig := ""; cMaxContext := None |}.

Definition sample_candidates : list RouteCandidate :=
  [sample_candidate 1 "a" 3; sample_candidate 2 "b" 0; sample_candidate 3 "c" 7].

Lemma WeightedRandom_Select_complete_witness :
  snd (WeightedRandom_Select (Some (fun _ _ => float_of_Z 1)) (S754_finite false 1 (-1)) sample_candidates)
    ≡ₚ candidatesToRouteResults sample_candidates.
Proof.
  pose proof (WeightedRandom_Select_complete (Some (fun _ _ => float_of_Z 1)) (S754_finite false 1 (-1))
                sample_candidates) as H.
  destruct (WeightedRandom_Select _ _ _) as [picked ordered]. simpl. apply H.
  apply (bool_decide_unpack _). vm_compute. exact I.
Defined.

Lemma total_weight_acc cs a : fold_left (fun t c => t + cWeight c) cs a = a + total_weight cs.
Proof.
  unfold total_weight. revert a. induction cs as [|c cs IH]; intros a; cbn [fold_left]; [lia|].
  rewrite (IH (a + cWeight c)), (IH (0 + cWeight c)). lia.
Qed.

Lemma total_weight_app l1 l2 : total_weight (l1 ++ l2) = total_weight l1 + total_weight l2.
Proof. unfold total_weight at 1. rewrite fold_left_app, total_weight_acc. done. Qed.

Lemma total_weight_cons c l : total_weight (c :: l) = cWeight c + total_weight l.
Proof. apply (total_weight_app [c] l). Qed.

Lemma total_weight_nonneg cs : Forall (fun c => 0 <= cWeight c) cs -> 0 <= total_weight cs.
Proof. induction 1 as [|c cs Hc _ IH]; [done|]. rewrite total_weight_cons. lia. Qed.

Lemma pick_running_interval pre c post rng base :
  Forall (fun c => 0 <= cWeight c) pre ->
  base + total_weight pre <= rng < base + total_weight pre + cWeight c ->
  pick_running Z.add Z.ltb rng base ((fun c => (c, cWeight c)) <$> (pre ++ c :: post)) = Some c.
Proof.
  intros Hpre. revert base. induction Hpre as [|c0 pre Hc0 Hpre IH]; intros base Hr; cbn.
  - unfold total_weight in Hr. simpl in Hr. by destruct (Z.ltb_spec rng (base + cWeight c)); [|lia].
  - rewrite total_weight_cons in Hr. pose proof (total_weight_nonneg pre Hpre).
    destruct (Z.ltb_spec rng (base + cWeight c0)); [lia|]. apply IH. lia.
Qed.

(** The weighted pick is exact: of the [totalWeight] equally likely draws, the
    ones that pick a candidate are the interval of its own weight that starts
    where the weights before it end. *)
Theorem weighted_pick_interval pre c post rng :
  Forall (fun c => 0 <= cWeight c) (pre ++ c :: post) ->
  total_weight pre <= rng < total_weight pre + cWeight c ->
  weightedPickCandidates rng (pre ++ c :: post) = Some c.
Proof.
  intros Hw Hr. apply Forall_app in Hw as [Hpre Hpost]. inversion Hpost as [|?? Hc Hpost']; subst.
  assert (Ht : total_weight (pre ++ c :: post) =? 0 = false).
  { rewrite total_weight_app, total_weight_cons.
    pose proof (total_weight_nonneg pre Hpre). pose proof (total_weight_nonneg post Hpost'). lia. }
  unfold weightedPickCandidates. rewrite Ht.
  rewrite (pick_running_interval pre c post rng 0); [|done|lia]. by destruct pre.
Qed.

Lemma weighted_pick_interval_witness :
  weightedPickCandidates 4 sample_candidates = Some (sample_candidate 3 "c" 7).
Proof.
  apply (weighted_pick_interval [sample_candidate 1 "a" 3; sample_candidate 2 "b" 0] (sample_candidate 3 "c" 7) []).
  - repeat constructor; simpl; lia.
  - vm_compute. intuition congruence.
Defined.

(** *** The resolver *)

(** The strategies wired at start-up keep the interface, and the default one is present. *)
Class LawfulStrategies (env : ResolveEnv) : Prop := {
  strategies_lawful : forall n s, strategies env n = Some s -> RoutingStrategy s;
  strategies_default : is_Some (strategies env StrategyWeightedRandom)
}.

Lemma strategy_for_lawful env cs :
  LawfulStrategies env -> exists s, strategy_for env cs = Some s /\ RoutingStrategy s.
Proof.
  intros [Hl [d Hd]]. unfold strategy_for. case_match eqn:E; eauto.
Qed.

Lemma build_candidate_ids env (rows : list ProviderModelRow) : ModelID <$> (build_candidate env <$> rows) = pmID <$> rows.
Proof. rewrite <- list_fmap_compose. by apply list_fmap_ext. Qed.

Lemma NoDup_filter_fmap {A B} (g : A -> B) (f : A -> bool) l :
  NoDup (g <$> l) -> NoDup (g <$> List.filter f l).
Proof.
  induction l as [|x l IH]; cbn; [done|]. intros [Hx Hl]%NoDup_cons.
  destruct (f x); [|by apply IH]. cbn. apply NoDup_cons. split; [|by apply IH].
  intros (y & E & Hy)%list_elem_of_fmap. apply Hx. rewrite E. apply list_elem_of_fmap_2.
  rewrite list_elem_of_In, filter_In, <- list_elem_of_In in Hy. by destruct Hy.
Qed.

Definition route_of_row (env : ResolveEnv) (m : ProviderModelRow) : RouteResult :=
  candidateToRouteResult (build_candidate env m).

(** The answer to a lookup that found [rows]. *)
Definition lookup_answer (env : ResolveEnv) (now : Z) (h : option HealthTracker) (modelName : string)
    (rows : list ProviderModelRow) (out : resolved) : Prop :=
  match out with
  | Routes rs =>
      rs <> [] /\ rs ≡ₚ route_of_row env <$> List.filter (row_routable env now h) rows
  | RErr (ErrNoProviderFound m) => m = modelName /\ rows = []
  | RErr (ErrNoActiveProvider m _) =>
      m = modelName /\ rows <> [] /\ Forall (fun m => row_routable env now h m = false) rows
  | _ => False
  end.

Lemma resolveUncached_answer env now h modelName rows :
  LawfulStrategies env -> NoDup (pmID <$> rows) ->
  lookup_answer env now h modelName rows (resolveUncached env now h modelName (Found rows)).
Proof.
  intros HL Hnd. unfold resolveUncached, lookup_answer. destruct rows as [|m0 rows]; [done|].
  set (rows' := m0 :: rows) in *.
  destruct (List.filter (row_routable env now h) rows') as [|c cs] eqn:E.
  - split_and!; try done. apply Forall_forall. intros m Hm.
    apply not_true_is_false. intros Hr.
    assert (m ∈ List.filter (row_routable env now h) rows') as Hx; [|rewrite E in Hx; set_solver].
    apply list_elem_of_In, filter_In. by rewrite <- list_elem_of_In.
  - destruct (strategy_for_lawful env (c :: cs) HL) as (sel & -> & Hsel).
    rewrite <- E in *.
    specialize (Hsel (build_candidate env <$> List.filter (row_routable env now h) rows')).
    rewrite build_candidate_ids in Hsel. specialize (Hsel (NoDup_filter_fmap _ _ _ Hnd)).
    assert (Hp : snd (sel (build_candidate env <$> List.filter (row_routable env now h) rows'))
                 ≡ₚ route_of_row env <$> List.filter (row_routable env now h) rows').
    { rewrite Hsel. unfold candidatesToRouteResults. by rewrite <- list_fmap_compose. }
    split; [|done]. intros Hnil. rewrite Hnil, E in Hp. by apply Permutation_nil_cons in Hp.
Qed.

(** What an uncached resolution answers, branch by branch: the routes of the
    routable mappings, each once, whatever the strategy; "no provider" only when
    the model has no mapping at all; the temporary "no active provider" when it
    has mappings and none is routable now. *)
Theorem resolveUncached_complete env now h modelName rows :
  LawfulStrategies env -> NoDup (pmID <$> rows) ->
  match resolveUncached env now h modelName (Found rows) with
  | Routes rs =>
      rs <> [] /\ rs ≡ₚ route_of_row env <$> List.filter (row_routable env now h) rows
  | RErr (ErrNoProviderFound m) => m = modelName /\ rows = []
  | RErr (ErrNoActiveProvider m _) =>
      m = modelName /\ rows <> [] /\ Forall (fun m => row_routable env now h m = false) rows
  | _ => False
  end.
Proof. exact (resolveUncached_answer env now h modelName rows). Qed.

(** A concrete environment: one weighted strategy, every adapter registered. *)
Definition sample_env : ResolveEnv :=
  {| registered := fun _ => true; adapterMinTier := fun _ => None; currentTier := "community";
     latencyOf := fun _ => fzero; activeOf := fun _ => 0;
     unmarshalExtra := fun _ => mkExtra 0 1000 "fixed" 0 0 [] zero_fallback 0 0;
     secretResolve := None;
     strategies := fun n => if String.eqb n StrategyWeightedRandom
                            then Some (WeightedRandom_Select None (S754_finite false 1 (-1))) else None |}.

#[export] Instance sample_env_lawful : LawfulStrategies sample_env.
Proof.
  split.
  - intros n s. simpl. case_match; [|done]. intros [= <-]. apply _.
  - by eexists.
Qed.

Definition sample_row (id : Z) (name : string) (status : Z) : ProviderModelRow :=
  mkProviderModel id "gpt" "gpt-4" 5 1 status None fzero fzero "USD" "" "{}"
    (mkProviderRow name "openai_compatible" "sk" 1).

Lemma resolveUncached_complete_witness :
  match resolveUncached sample_env 0 (Some NewHealthTracker) "gpt"
          (Found [sample_row 1 "a" 1; sample_row 2 "b" 0]) with
  | Routes rs => rs <> [] /\ rs ≡ₚ [route_of_row sample_env (sample_row 1 "a" 1)]
  | _ => False
  end.
Proof.
  pose proof (resolveUncached_complete sample_env 0 (Some NewHealthTracker) "gpt"
                [sample_row 1 "a" 1; sample_row 2 "b" 0] sample_env_lawful) as H.
  apply H. apply (bool_decide_unpack _). vm_compute. exact I.
Defined.

(** The retry settings of a served route are the model's raw JSON numbers: none
    of the bounds of [ParseRetryConfig] is applied on this path. *)
Theorem route_retry_config_unclamped env m :
  pmExtraConfig m <> "" ->
  NumRetries (rrRetryConfig (route_of_row env m)) = ecNumRetries (unmarshalExtra env (pmExtraConfig m)) /\
  InitialMs (rrRetryConfig (route_of_row env m)) = ecInitialMs (unmarshalExtra env (pmExtraConfig m)) /\
  MaxBackoffMs (rrRetryConfig (route_of_row env m)) = ecMaxBackoffMs (unmarshalExtra env (pmExtraConfig m)).
Proof.
  intros Hne. unfold route_of_row. simpl. unfold parseExtraConfig.
  destruct (String.eqb_spec (pmExtraConfig m) "") as [|_]; [done|]. by case_match.
Qed.

Lemma route_retry_config_unclamped_witness :
  NumRetries (rrRetryConfig (route_of_row sample_env (sample_row 1 "a" 1))) = 1000 /\
  ~ retry_config_ok (rrRetryConfig (route_of_row sample_env (sample_row 1 "a" 1))).
Proof.
  destruct (route_retry_config_unclamped sample_env (sample_row 1 "a" 1)) as (Hn & _); [done|].
  split; [exact Hn|]. unfold retry_config_ok. rewrite Hn. simpl. lia.
Defined.

(** Every cached entry holds at least one route. *)
Definition cache_ok (r : Resolver) : Prop :=
  forall k e, cache r !! k = Some e -> results e <> [].

Definition route_allowed (t : Z) (h : option HealthTracker) (rr : RouteResult) : Prop :=
  healthAllows t h (rrProvider rr) (ProviderModel rr) = true.

Lemma score_routes_fst now fn r routes :
  (fst (score_routes now fn r routes)).*1 = routes /\
  rHealth (snd (score_routes now fn r routes)) = rHealth r /\
  cache (snd (score_routes now fn r routes)) = cache r /\
  degraded (snd (score_routes now fn r routes)) = degraded r.
Proof.
  revert r. induction routes as [|rr routes IH]; intros r; [done|]. cbn [score_routes].
  destruct (cachedHealthScore now fn r (rrProvider rr) (ProviderModel rr)) as [sc r1] eqn:E.
  assert (H1 : rHealth r1 = rHealth r /\ cache r1 = cache r /\ degraded r1 = degraded r).
  { unfold cachedHealthScore in E. repeat case_match; by injection E as <- <-. }
  destruct H1 as (H1 & H2 & H3). specialize (IH r1).
  destruct (score_routes now fn r1 routes) as [items r2]. cbn in *.
  destruct IH as (E1 & E2 & E3 & E4). split_and!; [by f_equal|congruence..].
Qed.

(** Reordering by health keeps the routes and touches the score cache only. *)
Lemma reorderByHealth_spec now fn r routes :
  fst (reorderByHealth now fn r routes) ≡ₚ routes /\
  rHealth (snd (reorderByHealth now fn r routes)) = rHealth r /\
  cache (snd (reorderByHealth now fn r routes)) = cache r /\
  degraded (snd (reorderByHealth now fn r routes)) = degraded r.
Proof.
  unfold reorderByHealth. pose proof (score_routes_fst now fn r routes) as (E1 & E2 & E3 & E4).
  destruct (score_routes now fn r routes) as [items r1]. simpl in *. split; [|done].
  rewrite stable_sort_perm. by rewrite E1.
Qed.

Lemma allowed_filter now h rs :
  Forall (route_allowed now h)
    (List.filter (fun rr => healthAllows now h (rrProvider rr) (ProviderModel rr)) rs).
Proof. apply Forall_forall. intros rr. rewrite list_elem_of_In, filter_In. by intros [_ ?]. Qed.

Lemma perm_not_nil {A} (l l' : list A) : l ≡ₚ l' -> l' <> [] -> l <> [].
Proof. intros Hp Hne ->. apply Hne. by apply Permutation_nil. Qed.

(** What a cache lookup answers and what it may change. *)
Lemma serveFromCache_spec now r k m :
  cache_ok r ->
  let '(hit, r') := serveFromCache now r k m in
  cache_ok r' /\ rHealth r' = rHealth r /\ degraded r' = degraded r /\
  match hit with
  | Some (Routes rs) => rs <> [] /\ Forall (route_allowed now (rHealth r)) rs
  | Some (RErr e) => exists l, e = ErrNoActiveProvider m l
  | Some RPanic => False
  | None => True
  end.
Proof.
  intros Hok. unfold serveFromCache. destruct (cache r !! k) as [entry|] eqn:E; [|done].
  pose proof (Hok k entry E) as Hne. destruct (now <? expire entry); cbn [negb]; cycle 1.
  { split_and!; try done. intros k' e'. simpl. rewrite lookup_delete_Some. intros [_ ?]. by eapply Hok. }
  assert (Hre : forall fn rs, rs <> [] -> Forall (route_allowed now (rHealth r)) rs ->
    let '(out, r') := reorderByHealth now fn r rs in
    cache_ok r' /\ rHealth r' = rHealth r /\ degraded r' = degraded r /\
    out <> [] /\ Forall (route_allowed now (rHealth r)) out).
  { intros fn rs Hrs Hall. pose proof (reorderByHealth_spec now fn r rs) as (Hp & H1 & H2 & H3).
    destruct (reorderByHealth now fn r rs) as [out r']. simpl in *. split_and!; try done.
    - unfold cache_ok. by rewrite H2.
    - by eapply perm_not_nil.
    - by rewrite Hp. }
  destruct (rHealth r) as [h|] eqn:Eh.
  - pose proof (allowed_filter now (Some h) (results entry)) as Hall.
    destruct (List.filter _ (results entry)) as [|rr rs]; [eauto 10|].
    destruct (healthFn r) as [fn|]; [|done].
    specialize (Hre fn (rr :: rs) ltac:(done) Hall).
    destruct (reorderByHealth now fn r (rr :: rs)) as [out r']. tauto.
  - assert (Hall : Forall (route_allowed now None) (results entry)) by (by apply Forall_forall).
    destruct (healthFn r) as [fn|]; [|done].
    specialize (Hre fn (results entry) Hne Hall).
    destruct (reorderByHealth now fn r (results entry)) as [out r']. tauto.
Qed.

Lemma degradedError_spec now r k m :
  let '(e, r') := degradedError now r k m in
  cache r' = cache r /\ rHealth r' = rHealth r /\ degraded r' ⊆ degraded r /\
  match e with Some e => e = ErrResolveDegraded m /\ r' = r | None => True end.
Proof.
  unfold degradedError. destruct (degraded r !! k) as [until|]; [|done].
  destruct (until <? now); [|done]. split_and!; try done. apply delete_subseteq.
Qed.

Lemma routable_allowed env now h m :
  row_routable env now h m = true -> route_allowed now h (route_of_row env m).
Proof. unfold row_routable, route_allowed. rewrite !andb_true_iff. by intros [[_ ?] _]. Qed.

Lemma resolve_probe_spec env c r k m :
  LawfulStrategies env -> cache_ok r ->
  (forall rows, query c = Found rows -> NoDup (pmID <$> rows)) ->
  let '(out, r') := resolve_probe env c r k m in
  cache_ok r' /\ rHealth r' = rHealth r /\
  match out with
  | Routes rs => rs <> [] /\ Forall (route_allowed (t_probe c) (rHealth r)) rs
  | RErr _ => True
  | RPanic => False
  end.
Proof.
  intros HL Hok Hnd. unfold resolve_probe.
  pose proof (degradedError_spec (t_probe c) r k m) as Hd.
  destruct (degradedError (t_probe c) r k m) as [derr r1]. destruct Hd as (Hc1 & Hh1 & _ & _).
  assert (Hok1 : cache_ok r1) by (unfold cache_ok; by rewrite Hc1).
  destruct derr; [done|].
  pose proof (serveFromCache_spec (t_probe c) r1 k m Hok1) as Hs.
  destruct (serveFromCache (t_probe c) r1 k m) as [hit r2]. rewrite Hh1 in Hs.
  destruct Hs as (Hok2 & Hh2 & _ & Hhit). destruct hit as [out|].
  { split_and!; try done. by destruct out. }
  rewrite Hh2. destruct (query c) as [rows|err] eqn:Eq; cycle 1.
  { destruct err; simpl; split_and!; done. }
  pose proof (resolveUncached_answer env (t_probe c) (rHealth r) m rows HL (Hnd rows eq_refl)) as Hu.
  destruct (resolveUncached env (t_probe c) (rHealth r) m (Found rows)) as [rs|e|] eqn:Eu.
  - destruct Hu as [Hne Hp]. split_and!; [|done|done|].
    + intros k' e'. cbn [cache with_cache]. rewrite lookup_insert.
      case_decide; [by intros [= <-]|]. by apply Hok2.
    + rewrite Hp. apply Forall_forall. intros rr (m' & -> & Hm)%list_elem_of_fmap.
      rewrite list_elem_of_In, filter_In in Hm. destruct Hm. by apply routable_allowed.
  - destruct e; done.
  - done.
Qed.

(** C15: A resolution that succeeds returns at least one route and only routes whose
    circuits are not open at the time of the check, from the cache or from the
    database; it keeps the cache well formed (so taking the first route never
    panics) and never touches the health tracker (no probe lease is claimed). *)
Theorem Resolve_serves_allowed env c r modelName orgID :
  LawfulStrategies env -> cache_ok r ->
  (forall rows, query c = Found rows -> NoDup (pmID <$> rows)) ->
  let '(out, r') := Resolve env None c r modelName orgID in
  cache_ok r' /\ rHealth r' = rHealth r /\
  match out with
  | Routes rs =>
      rs <> [] /\ (Forall (route_allowed (t_check c) (rHealth r)) rs \/
                   Forall (route_allowed (t_probe c) (rHealth r)) rs)
  | RErr _ => True
  | RPanic => False
  end.
Proof.
  intros HL Hok Hnd. unfold Resolve.
  pose proof (degradedError_spec (t_check c) r (cache_key modelName orgID) modelName) as Hd.
  destruct (degradedError _ r _ _) as [derr r1]. destruct Hd as (Hc1 & Hh1 & _ & _).
  assert (Hok1 : cache_ok r1) by (unfold cache_ok; by rewrite Hc1).
  destruct derr; [done|].
  pose proof (serveFromCache_spec (t_check c) r1 (cache_key modelName orgID) modelName Hok1) as Hs.
  destruct (serveFromCache _ r1 _ _) as [hit r2]. rewrite Hh1 in Hs.
  destruct Hs as (Hok2 & Hh2 & _ & Hhit). destruct hit as [out|].
  { split_and!; try done. destruct out; try done. by split; [|left]; destruct Hhit. }
  pose proof (resolve_probe_spec env c r2 (cache_key modelName orgID) modelName HL Hok2 Hnd) as Hp.
  destruct (resolve_probe env c r2 _ _) as [out r3]. rewrite Hh2 in Hp. destruct Hp as (H1 & H2 & H3).
  split_and!; try done. unfold probeResolve.
  destruct (ctx_end c), out as [rs|e|]; try done; try (by destruct H3; split; [|right]).
  by destruct (is_ctx_err e).
Qed.

Definition sample_call : ResolveCall :=
  mkResolveCall 0 1 2 [] (Found [sample_row 1 "a" 1; sample_row 2 "b" 0]) None.

Lemma Resolve_serves_allowed_witness :
  cache_ok (snd (Resolve sample_env None sample_call (NewResolver (Some NewHealthTracker)) "gpt" 7)) /\
  match fst (Resolve sample_env None sample_call (NewResolver (Some NewHealthTracker)) "gpt" 7) with
  | Routes rs => rs <> []
  | _ => False
  end.
Proof.
  pose proof (Resolve_serves_allowed sample_env sample_call (NewResolver (Some NewHealthTracker)) "gpt" 7
                sample_env_lawful) as H.
  assert (Hok : cache_ok (NewResolver (Some NewHealthTracker))).
  { intros k e. simpl. rewrite lookup_empty. discriminate. }
  assert (Hq : forall rows, query sample_call = Found rows -> NoDup (pmID <$> rows)).
  { intros rows [= <-]. apply (bool_decide_unpack _). vm_compute. exact I. }
  specialize (H Hok Hq).
  destruct (Resolve sample_env None sample_call (NewResolver (Some NewHealthTracker)) "gpt" 7)
    as [out r'] eqn:E.
  destruct H as (H1 & _ & H3). split; [exact H1|].
  vm_compute in E. injection E as <- _. simpl. by destruct H3.
Defined.

Lemma evict_small order m :
  (forall k, k ∈ dom m -> k ∈ order) -> (size (evict order m) < degradedCacheCap)%nat.
Proof.
  assert (Hcap : (0 < degradedCacheCap)%nat) by (unfold degradedCacheCap; lia).
  revert m. induction order as [|k order IH]; intros m Hm; cbn [evict].
  - assert (m = ∅) as ->; [|by rewrite map_size_empty].
    apply map_eq. intros k. rewrite lookup_empty. destruct (m !! k) eqn:E; [|done].
    assert (k ∈ dom m) as Hk by (by apply elem_of_dom_2 in E). apply Hm in Hk. set_solver.
  - destruct (Nat.ltb_spec (size m) degradedCacheCap); [done|]. apply IH.
    intros k'. rewrite dom_delete_L, elem_of_difference, elem_of_singleton.
    intros [Hk' Hne]. apply Hm in Hk'. set_solver.
Qed.

Lemma size_insert_le (m : gmap string Z) k v : (size (<[k := v]> m) <= S (size m))%nat.
Proof.
  destruct (m !! k) eqn:E.
  - rewrite map_size_insert_Some; [lia|]. by rewrite E.
  - by rewrite map_size_insert_None.
Qed.

(** The negative cache never exceeds its cap, whatever the map iteration order. *)
Theorem degraded_cache_bounded now order r k :
  (forall k, k ∈ dom (degraded r) -> k ∈ order) ->
  (size (degraded (markDegraded now order r k)) <= degradedCacheCap)%nat.
Proof.
  intros Hord. unfold markDegraded. cbn [degraded with_degraded].
  etransitivity; [apply size_insert_le|].
  destruct (Nat.leb_spec degradedCacheCap (size (degraded r))); [|lia].
  apply (evict_small order). intros k' Hk'. apply Hord.
  apply elem_of_dom in Hk' as [v Hv]. apply map_lookup_filter_Some in Hv as [Hv _].
  by apply elem_of_dom_2 in Hv.
Qed.

Definition degraded_resolver : Resolver := with_degraded (NewResolver None) {["x" := 1]}.

Lemma degraded_cache_bounded_witness :
  (size (degraded (markDegraded 5%Z ["x"] degraded_resolver "y")) <= degradedCacheCap)%nat.
Proof. apply degraded_cache_bounded. simpl. intros k. rewrite dom_singleton_L. set_solver. Defined.

(** A query that failed on the database's own account suppresses lookups for
    [resolveDegradedTTL]: a later call on the same model answers the degraded
    error whatever the database would say, and changes nothing. *)
Theorem degradation_is_suppressed env c r modelName orgID c' :
  query c = LookupFailed None -> degraded r !! cache_key modelName orgID = None ->
  cache r !! cache_key modelName orgID = None ->
  t_check c' <= t_done c + resolveDegradedTTL ->
  let '(out, r1) := resolve_probe env c r (cache_key modelName orgID) modelName in
  out = RErr (ErrResolveDegraded modelName) /\
  Resolve env None c' r1 modelName orgID = (RErr (ErrResolveDegraded modelName), r1).
Proof.
  intros Hq Hd Hc Ht. unfold resolve_probe, degradedError, serveFromCache. rewrite Hd, Hc, Hq. simpl.
  split; [done|]. unfold Resolve, degradedError. simpl. rewrite lookup_insert_eq.
  by destruct (Z.ltb_spec (t_done c + resolveDegradedTTL) (t_check c')); [lia|].
Qed.

Definition failing_call : ResolveCall := mkResolveCall 0 1 2 [] (LookupFailed None) None.

Lemma degradation_is_suppressed_witness :
  let '(out, r1) := resolve_probe sample_env failing_call (NewResolver None) (cache_key "gpt" 7) "gpt" in
  out = RErr (ErrResolveDegraded "gpt") /\
  Resolve sample_env None sample_call r1 "gpt" 7 = (RErr (ErrResolveDegraded "gpt"), r1).
Proof.
  apply (degradation_is_suppressed sample_env failing_call (NewResolver None) "gpt" 7 sample_call);
    try reflexivity. vm_compute. discriminate.
Defined.

(** A caller that went away says nothing about the database: its failed query
    adds no entry to the negative cache. *)
Lemma cancellation_is_not_degradation env c r cacheKey modelName e :
  query c = LookupFailed (Some e) ->
  degraded (snd (resolve_probe env c r cacheKey modelName)) ⊆ degraded r.
Proof.
  intros Hq. unfold resolve_probe. pose proof (degradedError_spec (t_probe c) r cacheKey modelName) as Hd.
  destruct (degradedError (t_probe c) r cacheKey modelName) as [derr r1]. destruct Hd as (_ & _ & Hsub & _).
  destruct derr; [done|].
  assert (Hs : degraded (snd (serveFromCache (t_probe c) r1 cacheKey modelName)) = degraded r1).
  { unfold serveFromCache. repeat (case_match; try done); cbn [snd];
      match goal with E : reorderByHealth ?n ?f ?r ?l = _ |- _ =>
        pose proof (reorderByHealth_spec n f r l) as (_ & _ & _ & Hx); by rewrite E in Hx end. }
  destruct (serveFromCache (t_probe c) r1 cacheKey modelName) as [hit r2]. simpl in Hs.
  destruct hit; simpl; [by rewrite Hs|]. rewrite Hq. simpl. by rewrite Hs.
Qed.
