(* ===== verification/Fallback.v ===== *)
(** * Cross-provider failover: [internal/service/fallback_engine.go]

    The engine runs one call over an ordered list of routes.  It gates every
    attempt on the circuit breaker ([Health]), classifies failures with the rule
    table ([Errors]) and records them; the routes come from the resolver
    ([Router]).  Upstream calls, clocks and the effect of other goroutines on
    the shared tracker during a call are observations of an environment. *)

From S2P Require Import Prelude Health Errors Retry Router.

(** ** Data *)

(** The errors an attempt can end with: a circuit-breaker skip with the
    description of the open circuit, or what the call returned. *)
Inductive AttemptError :=
  | SkipErr (name : string) (desc : option circuit_desc)
  | CallErr (e : GoError).

Record FallbackAttempt := mkAttempt {
  faProviderName : string;
  faProviderModel : string;
  faErrorType : ErrorType;
  faError : option AttemptError;
  faLatencyMs : Z;
  faSuccess : bool;
  faPersistent : bool;
  faUpstreamStatus : Z
}.

(** [Response] stands for the response or the stream channel. *)
Record FallbackResult {Resp : Type} := mkResult {
  Response : option Resp;
  Route : option RouteResult;
  fbAttempts : list FallbackAttempt;
  FallbackCount : Z;
  FinalError : option AttemptError
}.
Arguments FallbackResult : clear implicits.
Arguments mkResult {Resp}.

(** A nil classifier is the legacy transient-only path; a nil tracker disables
    the breaker. *)
Record FallbackEngine := mkEngine {
  config : FallbackConfig;
  classifier : option ErrorClassifier
}.

(** What attempt [i] meets: the clock readings of its health gate, the call's
    outcome under the timeout it is given, its latency, what other goroutines
    did to the tracker meanwhile, the time its outcome is recorded, and the
    context's error if it ends during the delay that follows. *)
Record AttemptEnv {Resp : Type} := mkAttemptEnv {
  gate_clk : nat -> nat -> Z;
  outcome : nat -> RouteResult -> Resp + GoError;
  latencyMs : nat -> Z;
  interference : nat -> HealthTracker -> HealthTracker;
  record_time : nat -> Z;
  delayDone : nat -> option GoError
}.
Arguments AttemptEnv : clear implicits.

(** ** Helpers *)

Definition classify (e : FallbackEngine) (route : RouteResult) (err : GoError) : ClassifiedError :=
  match classifier e, ProviderRow route with
  | Some c, Some row => Classify c (AdapterType row) err
  | _, _ => transient_class (ClassifyError (Some err))
  end.

Definition retryAfterFrom (err : GoError) : Z :=
  match as_provider err with Some pe => RetryAfter pe | None => 0 end.

Definition upstreamStatusOf (err : GoError) : Z :=
  match as_provider err with Some pe => StatusCode pe | None => 0 end.

Definition defaultPerProviderTimeout : Z := 30 * Second.

(** [SetPerProviderTimeout]: the stored value, 0 for the built-in default. *)
Definition SetPerProviderTimeout (d : Z) : Z := if d <=? 0 then 0 else d.

Definition effectivePerProviderTimeout (stored : Z) : Z :=
  if 0 <? stored then stored else defaultPerProviderTimeout.

(** The timeout of attempt [attempt]: [remaining] is the time to the parent's
    deadline, if it has one. *)
Definition perProviderTimeout (stored : Z) (remaining : option Z) (attempt totalAttempts : Z) : Z :=
  match remaining with
  | Some rem =>
      let remainingAttempts := totalAttempts - attempt in
      let remainingAttempts := if remainingAttempts <? 1 then 1 else remainingAttempts in
      let perProvider := Z.quot rem remainingAttempts in
      let perProvider := if perProvider <? 5 * Second then 5 * Second else perProvider in
      let cap := effectivePerProviderTimeout stored in
      if cap <? perProvider then cap else perProvider
  | None => effectivePerProviderTimeout stored
  end.

Definition shouldRetry (retryOn : list string) (err : GoError) : bool :=
  let errType := ClassifyError (Some err) in
  if String.eqb errType "" then false
  else match retryOn with
       | [] => IsRetryableError (Some err)
       | _ => existsb (String.eqb errType) retryOn
       end.

Definition ResolveFallbackConfig (routes : list RouteResult) : FallbackConfig :=
  match routes with
  | [] => zero_fallback
  | r :: _ =>
      let cfg := rrFallbackConfig r in
      match RetryOn cfg with
      | [] => {| MaxRetries := MaxRetries cfg;
                 RetryOn := ["rate_limit"; "server"; "network"; "timeout"];
                 RetryDelayMs := RetryDelayMs cfg |}
      | _ => cfg
      end
  end.

Definition route_key (r : RouteResult) : string := rrProvider r +:+ "|" +:+ ProviderModel r.

(** Appends the routes whose (provider, model) was not seen. *)
Fixpoint append_unseen (seen : gset string) (acc fb : list RouteResult)
    : gset string * list RouteResult :=
  match fb with
  | [] => (seen, acc)
  | r :: fb =>
      if bool_decide (route_key r ∈ seen) then append_unseen seen acc fb
      else append_unseen ({[route_key r]} ∪ seen) (acc ++ [r]) fb
  end.

Definition expand_step (resolve : string -> option (list RouteResult))
    (st : gset string * list RouteResult) (fbModel : string) : gset string * list RouteResult :=
  match resolve fbModel with
  | None => st
  | Some fb => append_unseen st.1 st.2 fb
  end.

(** [resolve] is the resolver's answer per model ([None] is an error or a panic). *)
Definition ExpandFallbackRoutes (resolve : option (string -> option (list RouteResult)))
    (routes : list RouteResult) : list RouteResult :=
  match resolve, routes with
  | None, _ | _, [] => routes
  | Some resolve, r0 :: _ =>
      snd (fold_left (expand_step resolve) (FallbackModels r0)
             (list_to_set (route_key <$> routes), routes))
  end.

(** ** The engine *)

Definition maxAttempts (cfg : FallbackConfig) (routes : list RouteResult) : nat :=
  let n := Z.of_nat (length routes) in
  Z.to_nat (if (0 <? MaxRetries cfg) && (MaxRetries cfg + 1 <? n) then MaxRetries cfg + 1 else n).

Definition skip_attempt (name model : string) (err : AttemptError) : FallbackAttempt :=
  mkAttempt name model ErrorServer (Some err) 0 false false 0.

Definition circuitSkipError (now now' : Z) (h : HealthTracker) (name model : string) : AttemptError :=
  SkipErr name (OpenCircuitDescription now now' h name model).

(** The recording of a classified failure, cause included. *)
Definition record_failure (now : Z) (h : HealthTracker) (route : RouteResult) (ce : ClassifiedError)
    (err : GoError) : HealthTracker :=
  let name := rrProvider route in
  let model := ProviderModel route in
  let h := if cePersistent ce then RecordPersistentFailure now h name model (ceScope ce) 0
           else if String.eqb (ceErrorType ce) ErrorRateLimit then
             RecordRateLimitFailure now h name model (retryAfterFrom err)
           else RecordTransientFailure now h name model (retryAfterFrom err) in
  RecordCause h name model (ceErrorType ce) (error_text err).

Section Engine.
Context {Resp : Type} (eng : FallbackEngine) (env : AttemptEnv Resp).

(** [attemptNonStream] / [attemptStream]: the call, its classification or the
    recording of its success, and the deferred release of the probe lease. *)
Definition attempt_call (i : nat) (h : option HealthTracker) (route : RouteResult)
    : (Resp + (GoError * ClassifiedError)) * option HealthTracker :=
  let h := interference env i <$> h in
  let name := rrProvider route in
  let model := ProviderModel route in
  match outcome env i route with
  | inr err => (inr (err, classify eng route err), (fun h => ClearProbe h name model) <$> h)
  | inl resp =>
      (inl resp,
       (fun h => ClearProbe (RecordSuccessModel (record_time env i) h name model) name model) <$> h)
  end.

Definition call_attempt (stream : bool) (i : nat) (route : RouteResult) (err : GoError)
    (ce : ClassifiedError) : FallbackAttempt :=
  mkAttempt (rrProvider route) (ProviderModel route) (ceErrorType ce) (Some (CallErr err))
    (if stream then 0 else latencyMs env i) false (cePersistent ce) (upstreamStatusOf err).

Definition ok_attempt (stream : bool) (i : nat) (route : RouteResult) : FallbackAttempt :=
  mkAttempt (rrProvider route) (ProviderModel route) "" None
    (if stream then 0 else latencyMs env i) true false 0.

(** The attempt loop over the routes left, [i] of them done: [acc] is the
    attempts so far and [lastErr] the error the loop would end with. *)
Fixpoint execute_loop (stream : bool) (i : nat) (routes : list RouteResult) (h : option HealthTracker)
    (acc : list FallbackAttempt) (lastErr : option AttemptError)
    : FallbackResult Resp * option HealthTracker :=
  match routes with
  | [] => (mkResult None None acc 0 lastErr, h)
  | route :: rest =>
      let name := rrProvider route in
      let model := ProviderModel route in
      let gate := match h with
                  | None => (true, None)
                  | Some t => let '(ok, t) := IsHealthyModel (gate_clk env i) t name model in (ok, Some t)
                  end in
      if negb (fst gate) then
        let skip := match h with
                    | Some t => circuitSkipError (gate_clk env i 8%nat) (gate_clk env i 9%nat) t name model
                    | None => SkipErr name None
                    end in
        execute_loop stream (S i) rest h (acc ++ [skip_attempt name model skip]) (Some skip)
      else
        let '(out, h) := attempt_call i (snd gate) route in
        match out with
        | inl resp =>
            (mkResult (Some resp) (Some route) (acc ++ [ok_attempt stream i route]) (Z.of_nat i) None, h)
        | inr (err, ce) =>
            let acc := acc ++ [call_attempt stream i route err ce] in
            if String.eqb (ceErrorType ce) "" then
              (mkResult None None acc 0 (Some (CallErr err)), h)
            else
              let h := (fun t => record_failure (record_time env i) t route ce err) <$> h in
              if cePersistent ce || shouldRetry (RetryOn (config eng)) err then
                match (if (0 <? RetryDelayMs (config eng)) && negb (bool_decide (rest = []))
                       then delayDone env i else None) with
                | Some cerr => (mkResult None None acc 0 (Some (CallErr cerr)), h)
                | None => execute_loop stream (S i) rest h acc (Some (CallErr err))
                end
              else (mkResult None None acc 0 (Some (CallErr err)), h)
        end
  end.

Definition ExecuteNonStream (h : option HealthTracker) (routes : list RouteResult)
    : FallbackResult Resp * option HealthTracker :=
  execute_loop false 0 (take (maxAttempts (config eng) routes) routes) h [] None.

Definition ExecuteStream (h : option HealthTracker) (routes : list RouteResult)
    : FallbackResult Resp * option HealthTracker :=
  execute_loop true 0 (take (maxAttempts (config eng) routes) routes) h [] None.
End Engine.

(** The route of the last attempt that carries an error, for logging. *)
Definition LastAttemptRoute {Resp} (result : FallbackResult Resp) (routes : list RouteResult)
    : option RouteResult :=
  match Route result with
  | Some r => Some r
  | None =>
      let hit := omap (fun a => match faError a with
                                | Some _ => List.find (fun r => String.eqb (rrProvider r) (faProviderName a)) routes
                                | None => None
                                end) (rev (fbAttempts result)) in
      match hit with
      | r :: _ => Some r
      | [] => head routes
      end
  end.

(** ** Properties *)







Lemma maxAttempts_bounds cfg routes :
  (maxAttempts cfg routes <= length routes)%nat /\ (routes <> [] -> (0 < maxAttempts cfg routes)%nat) /\
  (0 < MaxRetries cfg -> Z.of_nat (maxAttempts cfg routes) <= MaxRetries cfg + 1).
Proof.
  unfold maxAttempts. split_and!; [case_match; lia| |case_match; lia].
  destruct routes; [done|]. intros _. simpl. case_match; lia.
Qed.



Definition sample_route (name : string) : RouteResult :=
  candidateToRouteResult (sample_candidate 1 name 1).

Definition sample_engine : FallbackEngine :=
  {| config := mkFallbackConfig 1 [] 0; classifier := None |}.

(** Provider "a" answers 503, every other one succeeds. *)
Definition sample_attempts : AttemptEnv string :=
  {| gate_clk := fun _ _ => 100;
     outcome := fun _ r => if String.eqb (rrProvider r) "a"
                           then inr (ProviderErr (mkPE 503 "busy" ErrorServer "" "" "" 0)) else inl "hello";
     latencyMs := fun _ => 7; interference := fun _ h => h; record_time := fun _ => 101;
     delayDone := fun _ => None |}.


(** *** Probe leases *)

Definition held_sub (h h' : HealthTracker) : Prop :=
  forall k, probe_held h' k = true -> probe_held h k = true.

#[export] Instance held_sub_preorder : PreOrder held_sub.
Proof. split; [by intros h k|]. intros h1 h2 h3 H1 H2 k Hk. auto. Qed.

Lemma insert_released h k s (m := <[k := s]> (states h)) :
  probeInFlight s = false -> held_sub h (with_states h m).
Proof.
  intros Hs k'. unfold probe_held, m. simpl. rewrite lookup_insert. case_decide; [by rewrite Hs|done].
Qed.

Lemma transient_fail_released h now ra s : probeInFlight (transient_fail h now ra s) = false.
Proof. unfold transient_fail. by repeat case_match. Qed.

Lemma RecordCause_held h n m et msg : held_sub h (RecordCause h n m et msg).
Proof.
  intros k. unfold probe_held. simpl.
  destruct (foldr_alter_cases (set_cause et (truncate200 msg)) (states h) (keys n m) k (keys_NoDup n m))
    as [->| ->]; [done|]. by destruct (states h !! k).
Qed.

Lemma RecordSuccess_held now h n m : held_sub h (RecordSuccessModel now h n m).
Proof.
  intros k. unfold RecordSuccessModel, probe_held.
  repeat case_match; simplify_eq; simpl in *; try done;
    repeat match goal with H : delete _ _ !! _ = Some _ |- _ => apply lookup_delete_Some in H as [? H] end;
    by simplify_eq.
Qed.

Lemma ClearProbe_held h n m : held_sub h (ClearProbe h n m).
Proof.
  intros k. unfold probe_held. simpl.
  destruct (foldr_alter_cases (set_probe false) (states h) (keys n m) k (keys_NoDup n m))
    as [->| ->]; [done|]. by destruct (states h !! k).
Qed.

Lemma record_failure_held now h route ce err : held_sub h (record_failure now h route ce err).
Proof.
  unfold record_failure. etransitivity; [|apply RecordCause_held].
  destruct (cePersistent ce); [by apply insert_released|].
  unfold RecordRateLimitFailure, RecordTransientFailure, recordTransientOnKey.
  repeat case_match; apply insert_released, transient_fail_released.
Qed.

(** A gate call of another request that may take the lease of circuit [k]. *)
Definition claims (k : string) (o : health_op) : Prop :=
  match o with OpIsHealthy _ n m => k ∈ keys n m | _ => False end.

Lemma gate_other clk h n m k : k ∉ keys n m -> probe_held (snd (IsHealthyModel clk h n m)) k = probe_held h k.
Proof.
  intros Hni. unfold IsHealthyModel, probe_held. destruct (anyBlocked clk 0 h (keys n m)); [done|]. simpl. by rewrite claimProbes_other.
Qed.

Lemma foldr_delete_keeps (m : gmap string circuitState) ks k s : foldr (fun k m => delete k m) m ks !! k = Some s -> m !! k = Some s.
Proof. induction ks as [|x ks IH]; [done|]. cbn. intros [_ H]%lookup_delete_Some. auto. Qed.

(** Only a gate call takes a lease. *)
Lemma op_free k o h : ~ claims k o -> probe_held h k = false -> probe_held (apply_op o h) k = false.
Proof.
  assert (Hs : forall h', held_sub h h' -> probe_held h k = false -> probe_held h' k = false).
  { intros h' Hsub Hk. destruct (probe_held h' k) eqn:E; [|done]. apply Hsub in E. congruence. }
  destruct o; cbn [claims apply_op]; intros Hc; [by rewrite gate_other| | | | | | | |by apply Hs; intros ?..]; apply Hs.
  - apply RecordSuccess_held.
  - apply insert_released, transient_fail_released.
  - unfold RecordRateLimitFailure, recordTransientOnKey. case_match; apply insert_released, transient_fail_released.
  - by apply insert_released.
  - apply ClearProbe_held.
  - intros k'. unfold probe_held, ResolveCircuit. cbn [with_states states].
    destruct (foldr _ _ _ !! k') as [x|] eqn:E; [|done]. by rewrite (foldr_delete_keeps _ _ _ _ E).
  - apply RecordCause_held.
Qed.

Lemma ops_free k os h : Forall (fun o => ~ claims k o) os -> probe_held h k = false -> probe_held (run_ops os h) k = false.
Proof. intros Hos. revert h. induction Hos as [|o os Ho _ IH]; intros h Hk; [done|]. cbn. by apply IH, op_free. Qed.

(** The release clears the lease whoever took it. *)
Lemma release_free k h n m : k ∈ keys n m -> probe_held (ClearProbe h n m) k = false.
Proof.
  intros Hin. unfold probe_held. simpl. rewrite foldr_alter_lookup_in by (done || apply keys_NoDup). by destruct (states h !! k).
Qed.

Definition quiet {Resp} (env : AttemptEnv Resp) : Prop := forall i h, interference env i h = h.

(** While call [i] is under way, other goroutines apply the operations [traffic i]. *)
Definition shared_with {Resp} (traffic : nat -> list health_op) (env : AttemptEnv Resp) : Prop :=
  forall i h, interference env i h = run_ops (traffic i) h.

(** A lease of [h'] was held in [h] or may have been taken by the traffic. *)
Definition leaves (traffic : nat -> list health_op) (h h' : HealthTracker) : Prop :=
  forall k, (forall i, Forall (fun o => ~ claims k o) (traffic i)) -> probe_held h k = false -> probe_held h' k = false.

Lemma held_sub_free h h' k : held_sub h h' -> probe_held h k = false -> probe_held h' k = false.
Proof. intros Hsub Hk. destruct (probe_held h' k) eqn:E; [|done]. apply Hsub in E. congruence. Qed.

(** A gate call, the traffic during the call, and the release at its end. *)
Lemma call_leaves traffic i clk h n m (h2 := run_ops (traffic i) (snd (IsHealthyModel clk h n m))) h3 :
  held_sub h2 h3 -> leaves traffic h (ClearProbe h3 n m).
Proof.
  intros Hsub k Hc Hk. destruct (decide (k ∈ keys n m)) as [Hin|Hni]; [by apply release_free|].
  apply (held_sub_free h3); [apply ClearProbe_held|]. apply (held_sub_free h2); [done|]. apply ops_free; [done|]. by rewrite gate_other.
Qed.

Lemma execute_loop_leaves {Resp} eng (env : AttemptEnv Resp) traffic stream i routes h acc lastErr :
  shared_with traffic env ->
  match snd (execute_loop eng env stream i routes (Some h) acc lastErr) with
  | Some h' => leaves traffic h h'
  | None => False
  end.
Proof.
  intros Hs. revert i h acc lastErr. induction routes as [|route rest IH]; intros i h acc lastErr; [by intros k|].
  cbn [execute_loop]. destruct (IsHealthyModel (gate_clk env i) h _ _) as [ok h1] eqn:Eg.
  assert (Eg' : h1 = snd (IsHealthyModel (gate_clk env i) h (rrProvider route) (ProviderModel route))) by (by rewrite Eg).
  destruct ok; cbn [fst snd negb]; [|apply IH].
  unfold attempt_call. cbn [fmap option_fmap option_map]. rewrite Hs, Eg'.
  destruct (outcome env i route) as [resp|err]; cbn [snd]; [apply (call_leaves traffic i (gate_clk env i)), RecordSuccess_held|].
  pose proof (call_leaves traffic i (gate_clk env i) h (rrProvider route) (ProviderModel route) _ (reflexivity _)) as H3.
  set (h3 := ClearProbe _ _ _) in *. destruct (String.eqb _ ""); [done|].
  assert (H4 : leaves traffic h (record_failure (record_time env i) h3 route (classify eng route err) err)).
  { intros k Hc Hk. apply (held_sub_free h3); [apply record_failure_held|]. by apply H3. }
  destruct (_ || _); [|exact H4].
  destruct (if _ && _ then delayDone env i else None); [exact H4|].
  cbn [fmap option_fmap option_map].
  match goal with |- context [execute_loop _ _ _ ?i' _ (Some ?h') ?acc' ?le] => specialize (IH i' h' acc' le) end.
  destruct (snd (execute_loop _ _ _ _ _ _ _ _)); [|done]. intros k Hc Hk. by apply IH, H4.
Qed.

(** C25: The engine leaves no probe lease behind, next to any traffic of other goroutines on the same
    tracker during its calls ([traffic]: gate calls, successes, failures, resolutions, settings): whatever the
    outcomes (success, failure, cancellation, skip), a circuit that is being probed
    afterwards was being probed before the request, or a gate call of another goroutine on
    that circuit may have taken its lease in the meantime.  The gate, and the records and
    release at the end of a call, are atomic steps. *)
Theorem no_lease_leaks {Resp} eng (env : AttemptEnv Resp) traffic stream h routes :
  shared_with traffic env ->
  match snd (if stream : bool then ExecuteStream eng env (Some h) routes
             else ExecuteNonStream eng env (Some h) routes) with
  | Some h' => forall k, (forall i, Forall (fun o => ~ claims k o) (traffic i)) ->
                 probe_held h k = false -> probe_held h' k = false
  | None => False
  end.
Proof.
  intros Hs. destruct stream; apply (execute_loop_leaves eng env traffic); exact Hs.
Qed.

(** The tracker shared with a request that succeeds at one of the providers and one whose gate
    call takes the lease of another. *)
Definition sample_traffic (i : nat) : list health_op := [OpSuccess 100 "acme" "gpt"; OpIsHealthy (fun _ => 100) "other" "gpt"].
Definition shared_attempts : AttemptEnv string :=
  {| gate_clk := gate_clk sample_attempts; outcome := outcome sample_attempts; latencyMs := fun _ => 7;
     interference := fun i h => run_ops (sample_traffic i) h; record_time := fun _ => 101; delayDone := fun _ => None |}.

Lemma no_lease_leaks_witness :
  match snd (ExecuteNonStream sample_engine shared_attempts (Some half_open_tracker)
               [sample_route "acme"; sample_route "b"]) with
  | Some h' => forall k, (forall i, Forall (fun o => ~ claims k o) (sample_traffic i)) ->
                 probe_held half_open_tracker k = false -> probe_held h' k = false
  | None => False
  end.
Proof.
  apply (no_lease_leaks sample_engine shared_attempts sample_traffic false half_open_tracker
           [sample_route "acme"; sample_route "b"]). intros i h. reflexivity.
Defined.

(** A call ended by its context, however the error is wrapped, stops the
    failover with that error and records neither a failure nor a success: the
    tracker is the one the gate left, with the probe lease released. *)
Theorem cancelled_call_records_nothing {Resp} eng (env : AttemptEnv Resp) h route rest e :
  quiet env -> outcome env 0 route = inr e -> is_ctx e = true -> as_provider e = None ->
  fst (IsHealthyModel (gate_clk env 0) h (rrProvider route) (ProviderModel route)) = true ->
  let '(res, h') := ExecuteNonStream eng env (Some h) (route :: rest) in
  FinalError res = Some (CallErr e) /\ length (fbAttempts res) = 1%nat /\
  h' = Some (ClearProbe (snd (IsHealthyModel (gate_clk env 0) h (rrProvider route) (ProviderModel route)))
               (rrProvider route) (ProviderModel route)).
Proof.
  intros Hq Ho Hctx Hpe Hgate. unfold ExecuteNonStream.
  destruct (maxAttempts_bounds (config eng) (route :: rest)) as (_ & Hpos & _). specialize (Hpos ltac:(done)).
  destruct (maxAttempts (config eng) (route :: rest)) as [|n]; [lia|]. cbn [take execute_loop].
  destruct (IsHealthyModel (gate_clk env 0) h (rrProvider route) (ProviderModel route)) as [ok h1].
  simpl in Hgate. subst ok. cbn [fst snd negb]. unfold attempt_call. cbn [fmap option_fmap option_map].
  rewrite Hq, Ho.
  assert (Hce : ceErrorType (classify eng route e) = "").
  { unfold classify, transient_class.
    destruct (classifier eng), (ProviderRow route); simpl; rewrite ?Hpe, ?Hctx; try done.
    unfold Classify. destruct e; try done; simpl in *; by rewrite ?Hpe, ?Hctx. }
  by rewrite Hce.
Qed.

Definition cancelled_attempts : AttemptEnv string :=
  {| gate_clk := fun _ _ => 100;
     outcome := fun _ _ => inr (NetWrap false "send request" (Wrap "post" Canceled));
     latencyMs := fun _ => 7; interference := fun _ h => h; record_time := fun _ => 101;
     delayDone := fun _ => None |}.

Lemma cancelled_call_records_nothing_witness :
  let '(res, h') := ExecuteNonStream sample_engine cancelled_attempts (Some half_open_tracker)
                      [sample_route "acme"; sample_route "b"] in
  FinalError res = Some (CallErr (NetWrap false "send request" (Wrap "post" Canceled))) /\
  length (fbAttempts res) = 1%nat /\
  h' = Some (ClearProbe (snd (IsHealthyModel (fun _ => 100) half_open_tracker "acme" "gpt")) "acme" "gpt").
Proof.
  apply (cancelled_call_records_nothing sample_engine cancelled_attempts half_open_tracker
           (sample_route "acme") [sample_route "b"]); try reflexivity.
  intros i h. reflexivity.
Defined.

(** The timeout of an attempt shares the remaining time among the attempts left,
    at least five seconds each and never above the configured cap; an expired
    deadline or an exhausted attempt count cannot make it zero or negative. *)
Theorem perProviderTimeout_bounds stored remaining attempt total :
  let t := perProviderTimeout stored remaining attempt total in
  let cap := effectivePerProviderTimeout stored in
  0 < t <= cap /\
  match remaining with
  | Some rem => t = Z.min cap (Z.max (5 * Second) (Z.quot rem (Z.max 1 (total - attempt))))
  | None => t = cap
  end.
Proof.
  unfold perProviderTimeout, effectivePerProviderTimeout, defaultPerProviderTimeout, Second, Millisecond.
  destruct remaining as [rem|]; [|destruct (Z.ltb_spec 0 stored); lia].
  assert (Hn : (if total - attempt <? 1 then 1 else total - attempt) = Z.max 1 (total - attempt))
    by (destruct (Z.ltb_spec (total - attempt) 1); lia).
  rewrite Hn. generalize (Z.quot rem (Z.max 1 (total - attempt))). intros q.
  destruct (Z.ltb_spec 0 stored); repeat case_match; lia.
Qed.

(** *** Expansion by fallback models *)

Definition keys_ok (st : gset string * list RouteResult) : Prop :=
  NoDup (route_key <$> st.2) /\ st.1 = list_to_set (route_key <$> st.2).

Lemma append_unseen_spec seen acc fb :
  keys_ok (seen, acc) ->
  keys_ok (append_unseen seen acc fb) /\ acc `prefix_of` (append_unseen seen acc fb).2 /\
  (forall r, r ∈ fb -> route_key r ∈ route_key <$> (append_unseen seen acc fb).2).
Proof.
  revert seen acc. induction fb as [|r fb IH]; intros seen acc Hok; cbn [append_unseen].
  { split_and!; [done|done|set_solver]. }
  destruct Hok as [Hnd Hs]. simpl in Hnd, Hs.
  assert (Hmem : forall st : gset string * list RouteResult,
    acc `prefix_of` st.2 -> route_key r ∈ route_key <$> acc -> route_key r ∈ route_key <$> st.2).
  { intros st [l ->] Hin. rewrite fmap_app. set_solver. }
  case_bool_decide as Hin.
  - destruct (IH seen acc) as (H1 & H2 & H3); [done|]. split_and!; try done.
    intros r' [->|Hr']%elem_of_cons; [|by apply H3]. apply (Hmem _ H2). subst seen. set_solver.
  - destruct (IH ({[route_key r]} ∪ seen) (acc ++ [r])) as (H1 & H2 & H3).
    { subst seen. split; simpl; rewrite fmap_app; [|rewrite list_to_set_app_L; cbn; set_solver].
      apply NoDup_app. split_and!; [done| |apply NoDup_singleton].
      intros k Hk. cbn. rewrite list_elem_of_singleton. intros ->. set_solver. }
    split_and!; [done| |].
    + etransitivity; [|done]. by exists [r].
    + intros r' [->|Hr']%elem_of_cons; [|by apply H3]. destruct H2 as [l ->].
      rewrite !fmap_app. cbn. set_solver.
Qed.

(** Expanding a chain by its fallback models keeps the original routes first and
    in order, never repeats a (provider, model) pair, and reaches every pair
    that a fallback model resolves to. *)
Theorem ExpandFallbackRoutes_spec resolve routes :
  NoDup (route_key <$> routes) ->
  let out := ExpandFallbackRoutes (Some resolve) routes in
  routes `prefix_of` out /\ NoDup (route_key <$> out) /\
  (forall r0 fbModel fb r, head routes = Some r0 -> fbModel ∈ FallbackModels r0 ->
     resolve fbModel = Some fb -> r ∈ fb -> route_key r ∈ route_key <$> out).
Proof.
  intros Hnd. destruct routes as [|r0 rest]; [done|]. unfold ExpandFallbackRoutes.
  set (f := expand_step resolve).
  assert (Hgen : forall ms st, keys_ok st ->
    keys_ok (fold_left f ms st) /\ st.2 `prefix_of` (fold_left f ms st).2 /\
    (forall m fb r, m ∈ ms -> resolve m = Some fb -> r ∈ fb ->
       route_key r ∈ route_key <$> (fold_left f ms st).2)).
  { induction ms as [|m ms IH]; intros [seen acc] Hok; [split_and!; [done|done|set_solver]|].
    cbn [fold_left]. assert (Hstep : keys_ok (f (seen, acc) m) /\ acc `prefix_of` (f (seen, acc) m).2 /\
      (forall fb r, resolve m = Some fb -> r ∈ fb -> route_key r ∈ route_key <$> (f (seen, acc) m).2)).
    { unfold f, expand_step. destruct (resolve m) as [fb|]; [|split_and!; done].
      destruct (append_unseen_spec seen acc fb Hok) as (H1 & H2 & H3). split_and!; try done.
      intros fb' r [= <-]. apply H3. }
    destruct Hstep as (H1 & H2 & H3). destruct (IH _ H1) as (H4 & H5 & H6).
    split_and!; [done|by etransitivity|].
    intros m' fb r [->|Hm]%elem_of_cons Hfb Hr; [|by eapply H6].
    destruct H5 as [l ->]. rewrite fmap_app. specialize (H3 fb r Hfb Hr). set_solver. }
  destruct (Hgen (FallbackModels r0) (list_to_set (route_key <$> r0 :: rest), r0 :: rest))
    as ((H1 & _) & H2 & H3); [by split|].
  split_and!; [done|done|]. intros r0' m fb r [= <-]. apply H3.
Qed.

Definition with_fallbacks (r : RouteResult) (ms : list string) : RouteResult :=
  {| rrProvider := rrProvider r; ProviderModel := ProviderModel r; InputPrice := InputPrice r;
     OutputPrice := OutputPrice r; Currency := Currency r; ProviderRow := ProviderRow r;
     rrRetryConfig := rrRetryConfig r; FallbackModels := ms; rrFallbackConfig := rrFallbackConfig r;
     ExtraConfig := ExtraConfig r; Weight := Weight r; rrPriority := rrPriority r;
     MaxContext := MaxContext r |}.

Lemma ExpandFallbackRoutes_spec_witness :
  NoDup (route_key <$> ExpandFallbackRoutes (Some (fun _ => Some [sample_route "a"; sample_route "b"]))
           [with_fallbacks (sample_route "a") ["m2"; "m3"]]).
Proof.
  apply (ExpandFallbackRoutes_spec (fun _ => Some [sample_route "a"; sample_route "b"])
           [with_fallbacks (sample_route "a") ["m2"; "m3"]]).
  apply (bool_decide_unpack _). vm_compute. exact I.
Defined.
