(* ===== verification/Json.v ===== *)
(** * JSON values and the wire data of [internal/domain]

    JSON documents as trees, the field accessors that [encoding/json] applies
    when it fills a struct (a missing or null field keeps its zero value, a
    field of another type is a decoding error), and the structs that the
    translators exchange. *)

From Stdlib Require Import SpecFloat.
From S2P Require Import Prelude.

(** ** JSON

    Numbers are integers as they are written; a field of a struct takes them exactly, an
    [any] as a [float64] (see [Template]).  Fractions occur only in fields that are not
    interpreted. *)

Inductive json :=
  | JNull
  | JBool (b : bool)
  | JNum (z : Z)
  | JStr (s : string)
  | JArr (l : list json)
  | JObj (kvs : list (string * json)).

Fixpoint assoc {A} (k : string) (kvs : list (string * A)) : option A :=
  match kvs with
  | [] => None
  | (k', v) :: kvs => if String.eqb k k' then Some v else assoc k kvs
  end.

(** The member [k] of an object; null and absent members alike leave the zero
    value of the field they are decoded into. *)
Definition member (k : string) (j : json) : json :=
  match j with JObj kvs => default JNull (assoc k kvs) | _ => JNull end.

Definition as_string (j : json) : option string :=
  match j with JNull => Some "" | JStr s => Some s | _ => None end.

(** An [int] or [int64] field: a number outside the range is a decoding error. *)
Definition as_int (j : json) : option Z :=
  match j with
  | JNull => Some 0
  | JNum z => if (- 2 ^ 63 <=? z) && (z <? 2 ^ 63) then Some z else None
  | _ => None
  end.

Lemma as_int_num z : in_int64 z -> as_int (JNum z) = Some z.
Proof. intros [H1 H2]. cbn [as_int]. by rewrite (proj2 (Z.leb_le _ _) H1), (proj2 (Z.ltb_lt _ _) H2). Qed.

(** A value decoded into a struct: an object, or null (all fields zero). *)
Definition as_struct (j : json) : option json :=
  match j with JNull => Some (JObj []) | JObj _ => Some j | _ => None end.

(** ** [domain.SSEEvent] *)

Record SSEEvent := mkEvent { Event : string; Data : json }.

(** ** OpenAI chunks *)

Record OpenAIChunkFunctionCall := mkChunkFn { cfName : string; cfArguments : string }.

Record OpenAIChunkToolCall := mkChunkTool {
  tcIndex : Z;
  tcID : string;
  tcType : string;
  tcFunction : OpenAIChunkFunctionCall
}.

Record OpenAIChunkDelta := mkDelta {
  dRole : string;
  dContent : string;
  dReasoningContent : string;
  dToolCalls : list OpenAIChunkToolCall
}.

Record OpenAIChunkChoice := mkChoice {
  ccIndex : Z;
  ccDelta : OpenAIChunkDelta;
  ccFinishReason : option string
}.

(** [OpenAIUsage] and [OpenAIChunkUsage] have the same fields. *)
Record OpenAIUsage := mkUsage {
  PromptTokens : Z;
  CompletionTokens : Z;
  TotalTokens : Z;
  CompletionTokensDetails : option Z;
  PromptTokensDetails : option Z;
  CacheCreationTokens : Z
}.

Record OpenAIChunk := mkChunk {
  chID : string;
  chObject : string;
  chModel : string;
  chChoices : list OpenAIChunkChoice;
  chUsage : option OpenAIUsage
}.

Record SSEChunk := mkSSEChunk { Chunk : option OpenAIChunk; Done : bool }.

Definition zero_delta : OpenAIChunkDelta := mkDelta "" "" "" [].

(** ** Token estimate ([pkg/token/estimate.go]) *)

(** UTF-8 decoding as a range loop does it: an invalid byte is one rune U+FFFD. *)
Definition cont_byte (c : Ascii.ascii) : option Z :=
  let n := Z.of_nat (Ascii.nat_of_ascii c) in
  if (128 <=? n) && (n <=? 191) then Some (n - 128) else None.

Definition decode_rune (c : Ascii.ascii) (rest : string) : Z * nat :=
  let n := Z.of_nat (Ascii.nat_of_ascii c) in
  let bad := (65533, 1%nat) in
  if n <? 128 then (n, 1%nat)
  else if (194 <=? n) && (n <=? 223) then
    match rest with
    | String c1 _ => match cont_byte c1 with Some a => ((n - 192) * 64 + a, 2%nat) | None => bad end
    | EmptyString => bad
    end
  else if (224 <=? n) && (n <=? 239) then
    match rest with
    | String c1 (String c2 _) =>
        match cont_byte c1, cont_byte c2 with
        | Some a, Some b =>
            let r := (n - 224) * 4096 + a * 64 + b in
            if (r <? 2048) || ((55296 <=? r) && (r <=? 57343)) then bad else (r, 3%nat)
        | _, _ => bad
        end
    | _ => bad
    end
  else if (240 <=? n) && (n <=? 244) then
    match rest with
    | String c1 (String c2 (String c3 _)) =>
        match cont_byte c1, cont_byte c2, cont_byte c3 with
        | Some a, Some b, Some d =>
            let r := (n - 240) * 262144 + a * 4096 + b * 64 + d in
            if (r <? 65536) || (1114111 <? r) then bad else (r, 4%nat)
        | _, _, _ => bad
        end
    | _ => bad
    end
  else bad.

(** [skip] bytes belong to the rune just decoded. *)
Fixpoint runes_from (skip : nat) (s : string) : list Z :=
  match s with
  | EmptyString => []
  | String c rest =>
      match skip with
      | S skip => runes_from skip rest
      | O => let '(r, w) := decode_rune c rest in r :: runes_from (Nat.pred w) rest
      end
  end.

Definition runes (s : string) : list Z := runes_from 0 s.

(** [int(f)] for a finite [f]: truncation toward zero. *)
Definition trunc (f : spec_float) : Z :=
  match f with
  | S754_finite s m e => let v := Z.shiftl (Zpos m) e in if s then - v else v
  | _ => 0
  end.

Section Estimate.
(** Membership in the Han, Hangul, Katakana or Hiragana tables of package [unicode]. *)
Context (isCJK : Z -> bool).

Definition Estimate (text : string) : Z :=
  let rs := runes text in
  let cjk := Z.of_nat (length (List.filter isCJK rs)) in
  let ascii := Z.of_nat (length (List.filter (fun r => negb (isCJK r)) rs)) in
  let half := S754_finite false 4503599627370496 (-53) in
  let three_halves := S754_finite false 6755399441055744 (-52) in
  trunc (SFadd 53 1024 (SFdiv 53 1024 (binary_normalize 53 1024 cjk 0 false) three_halves) half)
  + Z.quot ascii 4.
End Estimate.

(** Five Han characters and nine ASCII ones: [int(5/1.5 + 0.5) + 9/4]. *)
Example Estimate_mixed :
  Estimate (fun r => (19968 <=? r) && (r <=? 40959)) "中文中文中abcdefghi" = 5.
Proof. vm_compute. reflexivity. Qed.

(** ** A concrete text encoding

    Any printer and parser that are inverse to each other satisfy what the
    translators need of [encoding/json]; this one is used to instantiate their
    theorems. *)

Section json_induction.
Context (P : json -> Prop).
Context (Hnull : P JNull) (Hbool : forall b, P (JBool b)) (Hnum : forall z, P (JNum z)) (Hstr : forall s, P (JStr s)).
Context (Harr : forall l, Forall P l -> P (JArr l)).
Context (Hobj : forall kvs, Forall (fun kv => P (snd kv)) kvs -> P (JObj kvs)).

Fixpoint json_nested_ind (j : json) : P j :=
  match j with
  | JNull => Hnull
  | JBool b => Hbool b
  | JNum z => Hnum z
  | JStr s => Hstr s
  | JArr l => Harr l ((fix go l : Forall P l :=
      match l with [] => Forall_nil_2 _ | j :: l => Forall_cons_2 _ _ _ (json_nested_ind j) (go l) end) l)
  | JObj kvs => Hobj kvs ((fix go kvs : Forall (fun kv => P (snd kv)) kvs :=
      match kvs with
      | [] => Forall_nil_2 _
      | kv :: kvs => Forall_cons_2 _ kv kvs (json_nested_ind (snd kv)) (go kvs)
      end) kvs)
  end.
End json_induction.

Inductive leaf := LNull | LBool (b : bool) | LNum (z : Z) | LStr (s : string).

#[export] Instance leaf_eq_dec : EqDecision leaf.
Proof. solve_decision. Defined.

#[export] Instance leaf_countable : Countable leaf.
Proof.
  apply (inj_countable'
    (fun l => match l with LNull => inl () | LBool b => inr (inl b) | LNum z => inr (inr (inl z)) | LStr s => inr (inr (inr s)) end)
    (fun x => match x with inl _ => LNull | inr (inl b) => LBool b | inr (inr (inl z)) => LNum z | inr (inr (inr s)) => LStr s end)).
  by intros [].
Defined.

Fixpoint to_tree (j : json) : gen_tree leaf :=
  match j with
  | JNull => GenLeaf LNull
  | JBool b => GenLeaf (LBool b)
  | JNum z => GenLeaf (LNum z)
  | JStr s => GenLeaf (LStr s)
  | JArr l => GenNode 0 (map to_tree l)
  | JObj kvs => GenNode 1 (map (fun kv => GenNode 2 [GenLeaf (LStr (fst kv)); to_tree (snd kv)]) kvs)
  end.

Fixpoint of_tree (t : gen_tree leaf) : json :=
  match t with
  | GenLeaf LNull => JNull
  | GenLeaf (LBool b) => JBool b
  | GenLeaf (LNum z) => JNum z
  | GenLeaf (LStr s) => JStr s
  | GenNode 0 ts => JArr (map of_tree ts)
  | GenNode _ ts => JObj (map (fun t => match t with
                                        | GenNode _ [GenLeaf (LStr k); v] => (k, of_tree v)
                                        | _ => ("", JNull)
                                        end) ts)
  end.

Lemma of_to_tree j : of_tree (to_tree j) = j.
Proof.
  induction j as [| | | |l IH|kvs IH] using json_nested_ind; cbn; try done.
  - f_equal. rewrite map_map. induction IH as [|j l Hj IH IHl]; cbn; [done|]. by rewrite Hj, IHl.
  - f_equal. rewrite map_map. induction IH as [|[k v] kvs Hv IH IHl]; cbn in *; [done|]. by rewrite Hv, IHl.
Qed.

Fixpoint pos_text (p : positive) : string :=
  match p with
  | xH => "1"
  | xO p => String "0"%char (pos_text p)
  | xI p => String "1"%char (pos_text p)
  end.

Fixpoint text_pos (s : string) : option positive :=
  match s with
  | EmptyString => None
  | String c EmptyString => if Ascii.eqb c "1"%char then Some xH else None
  | String c s => (if Ascii.eqb c "1"%char then xI else xO) <$> text_pos s
  end.

Lemma text_pos_text p : text_pos (pos_text p) = Some p.
Proof.
  induction p as [p IH|p IH|]; cbn; [| |done]; destruct (pos_text p) eqn:E; rewrite ?IH; try done;
    by destruct p.
Qed.

Definition encode_text (j : json) : string := pos_text (encode (to_tree j)).

Definition decode_text (s : string) : option json := p ← text_pos s; of_tree <$> decode p.

Lemma decode_encode_text j : decode_text (encode_text j) = Some j.
Proof.
  unfold decode_text, encode_text. rewrite text_pos_text.
  change (of_tree <$> decode (encode (to_tree j)) = Some j). rewrite decode_encode.
  exact (f_equal Some (of_to_tree j)).
Qed.
