(* ===== verification/Stream.v ===== *)
(** * OpenAI chunks to Anthropic events: [internal/translator/stream.go]

    The streaming state machine with its parallel tool-call tracking, the event
    constructors of [stream_events.go] with their JSON payloads, and the loop of
    [service/gateway.go] that drives it. *)

From S2P Require Import Prelude Json.

(** ** Event constructors ([stream_events.go]) *)

Definition buildMessageStart (msgID model : string) (inputTokens : Z) : SSEEvent :=
  mkEvent "message_start" (JObj
    [("type", JStr "message_start");
     ("message", JObj
       [("id", JStr msgID); ("type", JStr "message"); ("role", JStr "assistant");
        ("content", JArr []); ("model", JStr model); ("stop_reason", JNull);
        ("stop_sequence", JNull);
        ("usage", JObj [("input_tokens", JNum inputTokens); ("output_tokens", JNum 0)])])]).

Definition contentBlockStart (index : Z) : SSEEvent :=
  mkEvent "content_block_start" (JObj
    [("type", JStr "content_block_start"); ("index", JNum index);
     ("content_block", JObj [("type", JStr "text"); ("text", JStr "")])]).

Definition thinkingBlockStart (index : Z) : SSEEvent :=
  mkEvent "content_block_start" (JObj
    [("type", JStr "content_block_start"); ("index", JNum index);
     ("content_block", JObj [("type", JStr "thinking"); ("thinking", JStr "")])]).

Definition thinkingBlockDelta (index : Z) (text : string) : SSEEvent :=
  mkEvent "content_block_delta" (JObj
    [("type", JStr "content_block_delta"); ("index", JNum index);
     ("delta", JObj [("type", JStr "thinking_delta"); ("thinking", JStr text)])]).

Definition toolUseBlockStart (index : Z) (id name : string) : SSEEvent :=
  mkEvent "content_block_start" (JObj
    [("type", JStr "content_block_start"); ("index", JNum index);
     ("content_block", JObj
       [("type", JStr "tool_use"); ("id", JStr id); ("name", JStr name); ("input", JObj [])])]).

Definition toolUseArgumentsDelta (index : Z) (argsChunk : string) : SSEEvent :=
  mkEvent "content_block_delta" (JObj
    [("type", JStr "content_block_delta"); ("index", JNum index);
     ("delta", JObj [("type", JStr "input_json_delta"); ("partial_json", JStr argsChunk)])]).

Definition contentBlockDelta (index : Z) (text : string) : SSEEvent :=
  mkEvent "content_block_delta" (JObj
    [("type", JStr "content_block_delta"); ("index", JNum index);
     ("delta", JObj [("type", JStr "text_delta"); ("text", JStr text)])]).

Definition contentBlockStop (index : Z) : SSEEvent :=
  mkEvent "content_block_stop" (JObj [("type", JStr "content_block_stop"); ("index", JNum index)]).

Definition messageDelta (stopReason : string) (outputTokens : Z) : SSEEvent :=
  mkEvent "message_delta" (JObj
    [("type", JStr "message_delta");
     ("delta", JObj [("stop_reason", JStr stopReason); ("stop_sequence", JNull)]);
     ("usage", JObj [("output_tokens", JNum outputTokens)])]).

Definition messageStop : SSEEvent :=
  mkEvent "message_stop" (JObj [("type", JStr "message_stop")]).

Definition streamInterruptedError : SSEEvent :=
  mkEvent "error" (JObj
    [("type", JStr "error");
     ("error", JObj [("type", JStr "stream_interrupted");
                     ("message", JStr "upstream stream ended unexpectedly")])]).

(** ** Stop reasons ([mapper.go]) *)

Definition finishReasonMap : list (string * string) :=
  [("stop", "end_turn"); ("length", "max_tokens"); ("content_filter", "end_turn");
   ("tool_calls", "tool_use")].

Definition finishReasonToStopReason (reason : string) : string :=
  default "end_turn" (assoc reason finishReasonMap).

(** ** State *)

Inductive streamState := stateInit | stateStarted | stateBlockActive | stateDone.

Record toolStreamState := mkTool {
  tsID : string;
  tsName : string;
  tsArgs : string;
  tsBlockIndex : Z;
  opened : bool;
  closed : bool
}.

Record StreamTranslator := mkStream {
  state : streamState;
  messageID : string;
  requestedModel : string;
  inputTokens : Z;
  outputTokens : Z;
  usageSeen : bool;
  reasoningTokens : Z;
  cacheReadTokens : Z;
  cacheCreationTokens : Z;
  blockIndex : Z;
  activeBlockType : string;
  tools : gmap Z toolStreamState;
  toolOrder : list Z;
  activeToolIdx : Z
}.

Definition NewStreamTranslator (msgID model : string) (inTok : Z) : StreamTranslator :=
  {| state := stateInit; messageID := msgID; requestedModel := model; inputTokens := inTok;
     outputTokens := 0; usageSeen := false; reasoningTokens := 0; cacheReadTokens := 0;
     cacheCreationTokens := 0; blockIndex := 0; activeBlockType := ""; tools := ∅; toolOrder := [];
     activeToolIdx := -1 |}.

(** Field assignments. *)
Definition set_state (s : streamState) (t : StreamTranslator) : StreamTranslator :=
  mkStream s (messageID t) (requestedModel t) (inputTokens t) (outputTokens t) (usageSeen t)
    (reasoningTokens t) (cacheReadTokens t) (cacheCreationTokens t) (blockIndex t)
    (activeBlockType t) (tools t) (toolOrder t) (activeToolIdx t).

Definition set_block (i : Z) (ty : string) (t : StreamTranslator) : StreamTranslator :=
  mkStream (state t) (messageID t) (requestedModel t) (inputTokens t) (outputTokens t) (usageSeen t)
    (reasoningTokens t) (cacheReadTokens t) (cacheCreationTokens t) i
    ty (tools t) (toolOrder t) (activeToolIdx t).

Definition set_input (n : Z) (t : StreamTranslator) : StreamTranslator :=
  mkStream (state t) (messageID t) (requestedModel t) n (outputTokens t) true
    (reasoningTokens t) (cacheReadTokens t) (cacheCreationTokens t) (blockIndex t)
    (activeBlockType t) (tools t) (toolOrder t) (activeToolIdx t).

Definition set_output (n : Z) (t : StreamTranslator) : StreamTranslator :=
  mkStream (state t) (messageID t) (requestedModel t) (inputTokens t) n (usageSeen t)
    (reasoningTokens t) (cacheReadTokens t) (cacheCreationTokens t) (blockIndex t)
    (activeBlockType t) (tools t) (toolOrder t) (activeToolIdx t).

Definition set_details (reasoning cacheRead : option Z) (creation : Z) (t : StreamTranslator)
    : StreamTranslator :=
  mkStream (state t) (messageID t) (requestedModel t) (inputTokens t) (outputTokens t) (usageSeen t)
    (default (reasoningTokens t) reasoning) (default (cacheReadTokens t) cacheRead) creation
    (blockIndex t) (activeBlockType t) (tools t) (toolOrder t) (activeToolIdx t).

Definition set_tools (m : gmap Z toolStreamState) (order : list Z) (active : Z) (t : StreamTranslator)
    : StreamTranslator :=
  mkStream (state t) (messageID t) (requestedModel t) (inputTokens t) (outputTokens t) (usageSeen t)
    (reasoningTokens t) (cacheReadTokens t) (cacheCreationTokens t) (blockIndex t)
    (activeBlockType t) m order active.

Definition is_state (s : streamState) (t : StreamTranslator) : bool :=
  match s, state t with
  | stateInit, stateInit | stateStarted, stateStarted
  | stateBlockActive, stateBlockActive | stateDone, stateDone => true
  | _, _ => false
  end.

(** ** Tool calls *)

Definition open_tool (bi : Z) (ts : toolStreamState) : toolStreamState :=
  mkTool (tsID ts) (tsName ts) (tsArgs ts) bi true (closed ts).

Definition close_tool (ts : toolStreamState) : toolStreamState :=
  mkTool (tsID ts) (tsName ts) (tsArgs ts) (tsBlockIndex ts) (opened ts) true.

(** The 1 MB cap is tested before the write. *)
Definition write_args (s : string) (ts : toolStreamState) : toolStreamState :=
  if Z.of_nat (String.length (tsArgs ts)) <=? 1048576 then
    mkTool (tsID ts) (tsName ts) (tsArgs ts +:+ s) (tsBlockIndex ts) (opened ts) (closed ts)
  else ts.

(** [openToolBlock]: [tools[idx]] is present at every call. *)
Definition openToolBlock (idx : Z) (t : StreamTranslator) : list SSEEvent * StreamTranslator :=
  match tools t !! idx with
  | None => ([], t)
  | Some ts =>
      ([toolUseBlockStart (blockIndex t) (tsID ts) (tsName ts)],
       set_tools (<[idx := open_tool (blockIndex t) ts]> (tools t)) (toolOrder t) idx t)
  end.

(** A new call is recorded, and its block opens at once only when no other tool
    block is open. *)
Definition recordTool (t : StreamTranslator) (tc : OpenAIChunkToolCall) : list SSEEvent * StreamTranslator :=
  let t := set_tools (<[tcIndex tc := mkTool (tcID tc) (cfName (tcFunction tc)) "" 0 false false]> (tools t))
             (toolOrder t ++ [tcIndex tc]) (activeToolIdx t) t in
  let t := set_state stateBlockActive t in
  if activeToolIdx t <? 0 then openToolBlock (tcIndex tc) t else ([], t).

(** A header: the active text or thinking block ends first. *)
Definition toolHeader (t : StreamTranslator) (tc : OpenAIChunkToolCall) : list SSEEvent * StreamTranslator :=
  let '(ev0, t) :=
    if is_state stateBlockActive t && negb (String.eqb (activeBlockType t) "") then
      ([contentBlockStop (blockIndex t)], set_state stateStarted (set_block (blockIndex t + 1) "" t))
    else ([], t) in
  let '(ev1, t) := recordTool t tc in
  (ev0 ++ ev1, t).

(** An argument fragment: forwarded when its block is the open one, buffered always. *)
Definition toolArguments (t : StreamTranslator) (idx : Z) (args : string) : list SSEEvent * StreamTranslator :=
  if String.eqb args "" then ([], t)
  else
    match tools t !! idx with
    | None => ([], t)
    | Some tool =>
        ((if activeToolIdx t =? idx then [toolUseArgumentsDelta (tsBlockIndex tool) args] else []),
         set_tools (<[idx := write_args args tool]> (tools t)) (toolOrder t) (activeToolIdx t) t)
    end.

(** One entry of a tool_calls delta; a header that repeats the id its index
    already has is skipped with its arguments. *)
Definition toolCallStep (t : StreamTranslator) (tc : OpenAIChunkToolCall)
    : list SSEEvent * StreamTranslator :=
  if String.eqb (tcID tc) "" then toolArguments t (tcIndex tc) (cfArguments (tcFunction tc))
  else if match tools t !! tcIndex tc with Some prev => String.eqb (tsID prev) (tcID tc) | None => false end
  then ([], t)
  else
    let '(ev1, t) := toolHeader t tc in
    let '(ev2, t) := toolArguments t (tcIndex tc) (cfArguments (tcFunction tc)) in
    (ev1 ++ ev2, t).

Fixpoint translateToolCallDelta (t : StreamTranslator) (tcs : list OpenAIChunkToolCall)
    : list SSEEvent * StreamTranslator :=
  match tcs with
  | [] => ([], t)
  | tc :: tcs =>
      let '(ev, t) := toolCallStep t tc in
      let '(evs, t) := translateToolCallDelta t tcs in
      (ev ++ evs, t)
  end.

(** The loop of [closeActiveToolBlock] over the first-seen order. *)
Fixpoint close_tools (order : list Z) (t : StreamTranslator) : list SSEEvent * StreamTranslator :=
  match order with
  | [] => ([], t)
  | idx :: order =>
      match tools t !! idx with
      | None => close_tools order t
      | Some tool =>
          if closed tool then close_tools order t
          else
            let '(ev1, t) :=
              if opened tool then ([], t)
              else
                let '(ev, t) := openToolBlock idx t in
                (ev ++ (if String.eqb (tsArgs tool) "" then []
                        else [toolUseArgumentsDelta (blockIndex t) (tsArgs tool)]), t) in
            let tool := default tool (tools t !! idx) in
            let ev2 := [contentBlockStop (tsBlockIndex tool)] in
            let t := set_tools (<[idx := close_tool tool]> (tools t)) (toolOrder t) (activeToolIdx t) t in
            let t := set_block (blockIndex t + 1) (activeBlockType t) t in
            let '(evs, t) := close_tools order t in
            (ev1 ++ ev2 ++ evs, t)
      end
  end.

Definition closeActiveToolBlock (t : StreamTranslator) : list SSEEvent * StreamTranslator :=
  let '(evs, t) := close_tools (toolOrder t) t in
  let t := set_tools (tools t) (toolOrder t) (-1) t in
  (evs, match toolOrder t with [] => t | _ => set_state stateStarted t end).

(** ** Chunks *)

Section Translate.
(** The Unicode tables behind the token estimate. *)
Context (isCJK : Z -> bool).

(** First chunk: [message_start]. *)
Definition start_message (chunk : OpenAIChunk) (t : StreamTranslator) : list SSEEvent * StreamTranslator :=
  if is_state stateInit t then
    let t := match chUsage chunk with
             | Some u => if 0 <? PromptTokens u then set_input (PromptTokens u) t else t
             | None => t
             end in
    ([buildMessageStart (messageID t) (requestedModel t) (inputTokens t)], set_state stateStarted t)
  else ([], t).

(** A usage-only chunk. *)
Definition usage_chunk (u : OpenAIUsage) (t : StreamTranslator) : StreamTranslator :=
  set_details (CompletionTokensDetails u) (PromptTokensDetails u) (CacheCreationTokens u)
    (set_output (CompletionTokens u) (set_input (PromptTokens u) t)).

(** Usage attached to the finish chunk: zero counts do not replace estimates. *)
Definition finish_usage (u : OpenAIUsage) (t : StreamTranslator) : StreamTranslator :=
  let t := if 0 <? PromptTokens u then set_input (PromptTokens u) t else t in
  let t := if 0 <? CompletionTokens u then set_output (CompletionTokens u) t else t in
  set_details (CompletionTokensDetails u) (PromptTokensDetails u) (CacheCreationTokens u) t.

Definition reasoning_delta (s : string) (t : StreamTranslator) : list SSEEvent * StreamTranslator :=
  if String.eqb s "" then ([], t)
  else
    let '(ev0, t) :=
      if is_state stateStarted t then
        ([thinkingBlockStart (blockIndex t)], set_state stateBlockActive (set_block (blockIndex t) "thinking" t))
      else ([], t) in
    if is_state stateBlockActive t && String.eqb (activeBlockType t) "thinking" then
      (ev0 ++ [thinkingBlockDelta (blockIndex t) s], set_output (outputTokens t + Estimate isCJK s) t)
    else (ev0, t).

Definition content_delta (s : string) (t : StreamTranslator) : list SSEEvent * StreamTranslator :=
  if String.eqb s "" then ([], t)
  else
    let '(ev0, t) :=
      if is_state stateBlockActive t && String.eqb (activeBlockType t) "thinking" then
        ([contentBlockStop (blockIndex t)], set_state stateStarted (set_block (blockIndex t + 1) "" t))
      else ([], t) in
    let '(ev1, t) :=
      if is_state stateStarted t then
        ([contentBlockStart (blockIndex t)], set_state stateBlockActive (set_block (blockIndex t) "text" t))
      else ([], t) in
    if is_state stateBlockActive t && String.eqb (activeBlockType t) "text" then
      (ev0 ++ ev1 ++ [contentBlockDelta (blockIndex t) s], set_output (outputTokens t + Estimate isCJK s) t)
    else (ev0 ++ ev1, t).

Definition finish_chunk (reason : option string) (usage : option OpenAIUsage) (t : StreamTranslator)
    : list SSEEvent * StreamTranslator :=
  match reason with
  | Some r =>
      if String.eqb r "" then ([], t)
      else
        let '(ev0, t) := closeActiveToolBlock t in
        let '(ev1, t) :=
          if is_state stateBlockActive t then ([contentBlockStop (blockIndex t)], set_block (blockIndex t) "" t)
          else ([], t) in
        let t := match usage with Some u => finish_usage u t | None => t end in
        (ev0 ++ ev1 ++ [messageDelta (finishReasonToStopReason r) (outputTokens t); messageStop],
         set_state stateDone t)
  | None => ([], t)
  end.

Definition TranslateChunk (t : StreamTranslator) (sse : SSEChunk) : list SSEEvent * StreamTranslator :=
  if Done sse then ([], t)
  else
    match Chunk sse with
    | None => ([], t)
    | Some chunk =>
        let '(ev0, t) := start_message chunk t in
        match chChoices chunk with
        | [] => (ev0, match chUsage chunk with Some u => usage_chunk u t | None => t end)
        | choice :: _ =>
            let delta := ccDelta choice in
            let '(ev1, t) := reasoning_delta (dReasoningContent delta) t in
            let '(ev2, t) := translateToolCallDelta t (dToolCalls delta) in
            let '(ev3, t) := content_delta (dContent delta) t in
            let '(ev4, t) := finish_chunk (ccFinishReason choice) (chUsage chunk) t in
            (ev0 ++ ev1 ++ ev2 ++ ev3 ++ ev4, t)
        end
    end.

(** The dangling block of a stream that stopped. *)
Definition close_dangling (t : StreamTranslator) : list SSEEvent * StreamTranslator :=
  match toolOrder t with
  | [] => ([contentBlockStop (blockIndex t)], set_block (blockIndex t) "" t)
  | _ => closeActiveToolBlock t
  end.

Definition OnProviderDisconnect (cleanTerminal : bool) (t : StreamTranslator)
    : list SSEEvent * StreamTranslator :=
  match state t with
  | stateDone => ([], t)
  | _ =>
      let '(evs, t) :=
        if negb cleanTerminal then
          let '(ev0, t) :=
            match state t with
            | stateBlockActive => close_dangling t
            | stateInit => ([buildMessageStart (messageID t) (requestedModel t) 0], t)
            | _ => ([], t)
            end in
          (ev0 ++ [streamInterruptedError; messageStop], t)
        else
          match state t with
          | stateInit =>
              ([buildMessageStart (messageID t) (requestedModel t) 0; messageDelta "end_turn" 0; messageStop], t)
          | _ =>
              let '(ev0, t) := if is_state stateBlockActive t then close_dangling t else ([], t) in
              (ev0 ++ [messageDelta "end_turn" (outputTokens t); messageStop], t)
          end in
      (evs, set_state stateDone t)
  end.

(** ** The relay loop ([service/gateway.go])

    [fn] is the caller's callback; its answer may depend on every event sent so
    far, the last one included. *)
Fixpoint deliver (fn : list SSEEvent -> bool) (sent : list SSEEvent) (events : list SSEEvent)
    : list SSEEvent * bool :=
  match events with
  | [] => (sent, false)
  | e :: events =>
      let sent := sent ++ [e] in
      if fn sent then deliver fn sent events else (sent, true)
  end.

Record RelayState := mkRelay { st : StreamTranslator; sent : list SSEEvent; sawDone : bool; stopped : bool }.

Fixpoint relay_loop (fn : list SSEEvent -> bool) (r : RelayState) (ch : list SSEChunk) : RelayState :=
  match ch with
  | [] => r
  | sse :: ch =>
      let done := sawDone r || Done sse in
      let '(events, t) := TranslateChunk (st r) sse in
      let '(out, stop) := deliver fn (sent r) events in
      let r := mkRelay t out done stop in
      if stop then r else relay_loop fn r ch
  end.

(** The callback's answer is ignored for the closing events. *)
Definition RelayStream (fn : list SSEEvent -> bool) (msgID model : string) (inputEstimate : Z)
    (ch : list SSEChunk) : list SSEEvent :=
  let r := relay_loop fn (mkRelay (NewStreamTranslator msgID model inputEstimate) [] false false) ch in
  if stopped r then sent r
  else sent r ++ (OnProviderDisconnect (sawDone r) (st r)).1.
End Translate.
