(* ===== verification/StreamSpec.v ===== *)
(** * What an Anthropic client reads from the translated stream

    A reader of the Anthropic event protocol that looks only at the JSON of the
    events; what an OpenAI chunk sequence says ([said]: every fragment of its
    reasoning, its text and its tool calls), and the part of it that the
    translation keeps ([add_chunks], the invariant of the simulation); the
    refinement theorem for the streams that are kept whole ([kept_whole]) through
    [TranslateChunk] and [OnProviderDisconnect], and the ways a stream loses
    content. *)

From S2P Require Import Prelude Json Stream.

(** ** The reader *)

Inductive block :=
  | BThinking (s : string)
  | BText (s : string)
  | BToolUse (id name args : string).

Inductive outcome :=
  | Completed (stop_reason : string) (output_tokens : Z)
  | Interrupted.

(** [COpen bs cur]: the message is open, [bs] are its finished blocks and [cur]
    the block being received. *)
Inductive client :=
  | CBefore
  | COpen (bs : list block) (cur : option block)
  | CEnding (bs : list block) (o : outcome)
  | CStopped (bs : list block) (o : outcome).

Definition start_block (j : json) : option block :=
  match member "type" j with
  | JStr "text" => Some (BText "")
  | JStr "thinking" => Some (BThinking "")
  | JStr "tool_use" =>
      match member "id" j, member "name" j with
      | JStr id, JStr name => Some (BToolUse id name "")
      | _, _ => None
      end
  | _ => None
  end.

Definition grow_block (b : block) (j : json) : option block :=
  match b, member "type" j with
  | BText s, JStr "text_delta" =>
      match member "text" j with JStr d => Some (BText (s +:+ d)) | _ => None end
  | BThinking s, JStr "thinking_delta" =>
      match member "thinking" j with JStr d => Some (BThinking (s +:+ d)) | _ => None end
  | BToolUse id name s, JStr "input_json_delta" =>
      match member "partial_json" j with JStr d => Some (BToolUse id name (s +:+ d)) | _ => None end
  | _, _ => None
  end.

(** Blocks are numbered consecutively from 0 and never interleave. *)
Definition at_index (bs : list block) (j : json) : bool :=
  match member "index" j with JNum i => Z.eqb i (Z.of_nat (length bs)) | _ => false end.

Definition read_event (c : client) (e : SSEEvent) : option client :=
  match c, Event e with
  | CBefore, "message_start" => Some (COpen [] None)
  | COpen bs None, "content_block_start" =>
      if at_index bs (Data e) then
        (fun b => COpen bs (Some b)) <$> start_block (member "content_block" (Data e))
      else None
  | COpen bs (Some b), "content_block_delta" =>
      if at_index bs (Data e) then
        (fun b => COpen bs (Some b)) <$> grow_block b (member "delta" (Data e))
      else None
  | COpen bs (Some b), "content_block_stop" =>
      if at_index bs (Data e) then Some (COpen (bs ++ [b]) None) else None
  | COpen bs None, "message_delta" =>
      match member "stop_reason" (member "delta" (Data e)),
            member "output_tokens" (member "usage" (Data e)) with
      | JStr r, JNum n => Some (CEnding bs (Completed r n))
      | _, _ => None
      end
  | COpen bs None, "error" => Some (CEnding bs Interrupted)
  | CEnding bs o, "message_stop" => Some (CStopped bs o)
  | _, _ => None
  end.

Fixpoint read_events (c : client) (es : list SSEEvent) : option client :=
  match es with
  | [] => Some c
  | e :: es => match read_event c e with Some c => read_events c es | None => None end
  end.

(** ** The content of a message *)

Record call := mkCall { callIndex : Z; callID : string; callName : string; callArgs : string }.

Record content := mkContent {
  thinking : option string;
  text : option string;
  calls : list call;
  tokens : Z;
  finish : option (string * Z)
}.

Definition no_content : content := mkContent None None [] 0 None.

Definition snoc_str (o : option string) (s : string) : option string := Some (default "" o +:+ s).

Definition find_call (i : Z) (cs : list call) : option call :=
  List.find (fun c => Z.eqb (callIndex c) i) cs.

Definition add_args (s : string) (c : call) : call := mkCall (callIndex c) (callID c) (callName c) (callArgs c +:+ s).

(** *** What is said

    A call is opened by the first fragment of its index that carries an id; every
    fragment adds its arguments. *)
Definition on_call (f : call -> call) (i : Z) (c : call) : call := if Z.eqb (callIndex c) i then f c else c.

Definition say_call (cs : list call) (tc : OpenAIChunkToolCall) : list call :=
  let i := tcIndex tc in
  let cs := if bool_decide (tcID tc <> "" /\ find_call i cs = None)
            then cs ++ [mkCall i (tcID tc) (cfName (tcFunction tc)) ""] else cs in
  map (on_call (add_args (cfArguments (tcFunction tc))) i) cs.

Definition say_calls : list OpenAIChunkToolCall -> list call -> list call := fun tcs cs => fold_left say_call tcs cs.

(** *** What the translation keeps

    Arguments of the call of index [i]; a call other than the first one keeps
    what arrives while it holds at most 1 MB. *)
Definition add_capped (s : string) (c : call) : call :=
  if Z.of_nat (String.length (callArgs c)) <=? 1048576 then add_args s c else c.

Definition append_args (i : Z) (s : string) (cs : list call) : list call :=
  match cs with
  | [] => []
  | c :: cs => on_call (add_args s) i c :: map (on_call (add_capped s) i) cs
  end.

(** A header repeats the id of its index or opens an index not yet used. *)
Definition add_call (tc : OpenAIChunkToolCall) (cs : list call) : option (list call) :=
  let '(args, i) := (cfArguments (tcFunction tc), tcIndex tc) in
  if String.eqb (tcID tc) "" then Some (append_args i args cs)
  else if i <? 0 then None
  else match find_call i cs with
       | Some c => if String.eqb (callID c) (tcID tc) then Some cs else None
       | None => Some (append_args i args (cs ++ [mkCall i (tcID tc) (cfName (tcFunction tc)) ""]))
       end.

Fixpoint add_calls (tcs : list OpenAIChunkToolCall) (cs : list call) : option (list call) :=
  match tcs with
  | [] => Some cs
  | tc :: tcs => match add_call tc cs with Some cs => add_calls tcs cs | None => None end
  end.

Section Spec.
Context (isCJK : Z -> bool).

(** The translation keeps reasoning until the answer starts, text until the first tool call. *)
Definition add_reasoning (s : string) (a : content) : content :=
  match text a, calls a with
  | None, [] => if String.eqb s "" then a
                else mkContent (snoc_str (thinking a) s) None [] (tokens a + Estimate isCJK s) (finish a)
  | _, _ => a
  end.

Definition add_text (s : string) (a : content) : content :=
  match calls a with
  | [] => if String.eqb s "" then a
          else mkContent (thinking a) (snoc_str (text a) s) [] (tokens a + Estimate isCJK s) (finish a)
  | _ => a
  end.

Definition add_tools (tcs : list OpenAIChunkToolCall) (a : content) : option content :=
  (fun cs => mkContent (thinking a) (text a) cs (tokens a) (finish a)) <$> add_calls tcs (calls a).

Definition set_tokens (n : Z) (a : content) : content :=
  mkContent (thinking a) (text a) (calls a) n (finish a).

Definition end_content (reason : option string) (usage : option OpenAIUsage) (a : content) : content :=
  match reason with
  | Some r =>
      if String.eqb r "" then a
      else
        let n := match usage with
                 | Some u => if 0 <? CompletionTokens u then CompletionTokens u else tokens a
                 | None => tokens a
                 end in
        mkContent (thinking a) (text a) (calls a) n (Some (finishReasonToStopReason r, n))
  | None => a
  end.

(** What is said in a chunk: reasoning, text and calls are always added; the tokens
    are estimated until the upstream reports them. *)
Definition say_reasoning (s : string) (a : content) : content :=
  if String.eqb s "" then a
  else mkContent (snoc_str (thinking a) s) (text a) (calls a) (tokens a + Estimate isCJK s) (finish a).

Definition say_text (s : string) (a : content) : content :=
  if String.eqb s "" then a
  else mkContent (thinking a) (snoc_str (text a) s) (calls a) (tokens a + Estimate isCJK s) (finish a).

Definition say_tools (tcs : list OpenAIChunkToolCall) (a : content) : content :=
  mkContent (thinking a) (text a) (say_calls tcs (calls a)) (tokens a) (finish a).

Definition say_choice (usage : option OpenAIUsage) (a : content) (choice : OpenAIChunkChoice) : content :=
  let d := ccDelta choice in
  end_content (ccFinishReason choice) usage (say_text (dContent d) (say_tools (dToolCalls d) (say_reasoning (dReasoningContent d) a))).

Definition say_chunk (a : content) (sse : SSEChunk) : content :=
  match Done sse, Chunk sse with
  | false, Some chunk =>
      match chChoices chunk with
      | [] => match chUsage chunk with Some u => set_tokens (CompletionTokens u) a | None => a end
      | choices => fold_left (say_choice (chUsage chunk)) choices a
      end
  | _, _ => a
  end.

Definition said (ch : list SSEChunk) : content := fold_left say_chunk ch no_content.







(** [None]: the chunk breaks the chunk protocol (an index reused under another
    id, a negative index, a choice after the finish reason). *)
Definition add_chunk (a : content) (sse : SSEChunk) : option content :=
  match Done sse, Chunk sse with
  | false, Some chunk =>
      match chChoices chunk, finish a with
      | [], _ => Some (match chUsage chunk with Some u => set_tokens (CompletionTokens u) a | None => a end)
      | choice :: _, None =>
          (fun a => end_content (ccFinishReason choice) (chUsage chunk) (add_text (dContent (ccDelta choice)) a))
            <$> add_tools (dToolCalls (ccDelta choice)) (add_reasoning (dReasoningContent (ccDelta choice)) a)
      | _ :: _, Some _ => None
      end
  | _, _ => Some a
  end.

Fixpoint add_chunks (a : content) (ch : list SSEChunk) : option content :=
  match ch with
  | [] => Some a
  | sse :: ch => match add_chunk a sse with Some a => add_chunks a ch | None => None end
  end.
End Spec.

Definition call_block (c : call) : block := BToolUse (callID c) (callName c) (callArgs c).

Definition prefix_blocks (a : content) : list block :=
  match thinking a with Some s => [BThinking s] | None => [] end
  ++ match text a with Some s => [BText s] | None => [] end.

Definition blocks (a : content) : list block := prefix_blocks a ++ map call_block (calls a).

(** Truncation is an error; a clean end without finish reason is [end_turn]. *)
Definition outcome_of (clean : bool) (a : content) : outcome :=
  match finish a with
  | Some (r, n) => Completed r n
  | None => if clean then Completed "end_turn" (tokens a) else Interrupted
  end.

(** ** Simulation *)

(** The table of a message without tool calls. *)
Definition no_tools (t : StreamTranslator) : Prop :=
  tools t = ∅ /\ toolOrder t = [] /\ activeToolIdx t = -1.

Definition deferred (c : call) : toolStreamState := mkTool (callID c) (callName c) (callArgs c) 0 false false.

(** The first call is open and streams; the others wait in first-seen order. *)
Definition tool_table (c : call) (cs : list call) (t : StreamTranslator) : Prop :=
  toolOrder t = map callIndex (c :: cs) /\ activeToolIdx t = callIndex c /\ 0 <= callIndex c
  /\ NoDup (map callIndex (c :: cs))
  /\ exists args, forall i, tools t !! i =
       if Z.eqb (callIndex c) i then Some (mkTool (callID c) (callName c) args (blockIndex t) true false)
       else deferred <$> find_call i cs.

Definition count (bs : list block) : Z := Z.of_nat (length bs).

Inductive sim_open (t : StreamTranslator) (a : content) : client -> Prop :=
  | sim_started :
      state t = stateStarted -> activeBlockType t = "" -> no_tools t -> blockIndex t = 0 ->
      thinking a = None -> text a = None -> calls a = [] ->
      sim_open t a (COpen [] None)
  | sim_thinking s :
      state t = stateBlockActive -> activeBlockType t = "thinking" -> no_tools t -> blockIndex t = 0 ->
      thinking a = Some s -> text a = None -> calls a = [] ->
      sim_open t a (COpen [] (Some (BThinking s)))
  | sim_text bs s :
      state t = stateBlockActive -> activeBlockType t = "text" -> no_tools t -> blockIndex t = count bs ->
      bs ++ [BText s] = prefix_blocks a -> text a = Some s -> calls a = [] ->
      sim_open t a (COpen bs (Some (BText s)))
  | sim_tools c cs :
      state t = stateBlockActive -> activeBlockType t = "" -> tool_table c cs t ->
      blockIndex t = count (prefix_blocks a) -> calls a = c :: cs ->
      sim_open t a (COpen (prefix_blocks a) (Some (call_block c))).

Inductive sim (t : StreamTranslator) (a : content) : client -> Prop :=
  | sim_before :
      state t = stateInit -> activeBlockType t = "" -> no_tools t -> blockIndex t = 0 ->
      outputTokens t = 0 -> a = no_content -> sim t a CBefore
  | sim_live c :
      sim_open t a c -> outputTokens t = tokens a -> finish a = None -> sim t a c
  | sim_done r n :
      state t = stateDone -> finish a = Some (r, n) -> sim t a (CStopped (blocks a) (Completed r n)).

(** [c], after the events of [p], is related to the state of [p] by [P]. *)
Definition reads (c : client) (p : list SSEEvent * StreamTranslator) (P : StreamTranslator -> client -> Prop) : Prop :=
  exists c', read_events c p.1 = Some c' /\ P p.2 c'.

Lemma read_events_app es es' c :
  read_events c (es ++ es') = match read_events c es with Some c => read_events c es' | None => None end.
Proof.
  revert c; induction es as [|e es IH]; intros c; [reflexivity|]. cbn.
  destruct (read_event c e); [apply IH|reflexivity].
Qed.

Lemma reads_ret (P : StreamTranslator -> client -> Prop) t c : P t c -> reads c ([], t) P.
Proof. intros HP. exists c. auto. Qed.

Lemma reads_app (P Q : StreamTranslator -> client -> Prop) c ev t ev' t' :
  reads c (ev, t) P -> (forall c', P t c' -> reads c' (ev', t') Q) -> reads c (ev ++ ev', t') Q.
Proof.
  intros (c1 & E1 & HP) Hk. destruct (Hk c1 HP) as (c2 & E2 & HQ). exists c2. split; [|done].
  cbn in *. by rewrite read_events_app, E1.
Qed.

Lemma reads_cons (P : StreamTranslator -> client -> Prop) c c' e ev t :
  read_event c e = Some c' -> reads c' (ev, t) P -> reads c (e :: ev, t) P.
Proof. intros E (c2 & E2 & HP). exists c2. split; [|done]. cbn in *. by rewrite E. Qed.

Lemma reads_mono (P Q : StreamTranslator -> client -> Prop) c p :
  reads c p P -> (forall c', P p.2 c' -> Q p.2 c') -> reads c p Q.
Proof. intros (c' & E & HP) HQ. exists c'. auto. Qed.

(** The events one at a time, at the index the reader expects. *)
Lemma read_thinking_start bs i : i = count bs ->
  read_event (COpen bs None) (thinkingBlockStart i) = Some (COpen bs (Some (BThinking ""))).
Proof. intros ->. cbn. by rewrite Z.eqb_refl. Qed.

Lemma read_text_start bs i : i = count bs ->
  read_event (COpen bs None) (contentBlockStart i) = Some (COpen bs (Some (BText ""))).
Proof. intros ->. cbn. by rewrite Z.eqb_refl. Qed.

Lemma read_tool_start bs i id name : i = count bs ->
  read_event (COpen bs None) (toolUseBlockStart i id name) = Some (COpen bs (Some (BToolUse id name ""))).
Proof. intros ->. cbn. by rewrite Z.eqb_refl. Qed.

Lemma read_thinking_delta bs i s d : i = count bs ->
  read_event (COpen bs (Some (BThinking s))) (thinkingBlockDelta i d)
  = Some (COpen bs (Some (BThinking (s +:+ d)))).
Proof. intros ->. cbn. by rewrite Z.eqb_refl. Qed.

Lemma read_text_delta bs i s d : i = count bs ->
  read_event (COpen bs (Some (BText s))) (contentBlockDelta i d)
  = Some (COpen bs (Some (BText (s +:+ d)))).
Proof. intros ->. cbn. by rewrite Z.eqb_refl. Qed.

Lemma read_tool_delta bs i id name s d : i = count bs ->
  read_event (COpen bs (Some (BToolUse id name s))) (toolUseArgumentsDelta i d)
  = Some (COpen bs (Some (BToolUse id name (s +:+ d)))).
Proof. intros ->. cbn. by rewrite Z.eqb_refl. Qed.

Lemma read_block_stop bs i b : i = count bs ->
  read_event (COpen bs (Some b)) (contentBlockStop i) = Some (COpen (bs ++ [b]) None).
Proof. intros ->. cbn. by rewrite Z.eqb_refl. Qed.

Lemma read_message_delta bs r n :
  read_event (COpen bs None) (messageDelta r n) = Some (CEnding bs (Completed r n)).
Proof. reflexivity. Qed.

Create HintDb stream.
#[export] Hint Rewrite read_thinking_start read_text_start read_tool_start read_thinking_delta
  read_text_delta read_tool_delta read_block_stop read_message_delta using (assumption || reflexivity || (cbn; lia)) : stream.

Lemma count_snoc bs b : count (bs ++ [b]) = count bs + 1.
Proof. unfold count. rewrite length_app. cbn. lia. Qed.

(** *** Calls *)

Lemma find_call_snoc i cs c :
  find_call i (cs ++ [c]) = match find_call i cs with
                            | Some x => Some x
                            | None => if Z.eqb (callIndex c) i then Some c else None
                            end.
Proof.
  unfold find_call. induction cs as [|x cs IH]; cbn; [reflexivity|].
  destruct (callIndex x =? i); [reflexivity|exact IH].
Qed.

Lemma find_call_map f i j cs :
  (forall c, callIndex (f c) = callIndex c) ->
  find_call i (map (on_call f j) cs) = if Z.eqb i j then f <$> find_call i cs else find_call i cs.
Proof.
  intros Hf. unfold find_call, on_call. induction cs as [|x cs IH]; cbn.
  - by destruct (i =? j).
  - destruct (Z.eqb_spec (callIndex x) j) as [Hj|Hj]; rewrite ?Hf;
      destruct (Z.eqb_spec (callIndex x) i) as [Hi|Hi]; destruct (Z.eqb_spec i j) as [Hij|Hij];
      try lia; try reflexivity; exact IH.
Qed.

Lemma find_call_None i cs : find_call i cs = None <-> ~ i ∈ map callIndex cs.
Proof.
  unfold find_call. induction cs as [|x cs IH]; cbn.
  - split; [intros _; apply not_elem_of_nil|done].
  - rewrite not_elem_of_cons. destruct (Z.eqb_spec (callIndex x) i) as [Hi|Hi].
    + split; [done|]. intros [H _]. congruence.
    + rewrite IH. split; [intros H; split; [congruence|done]|tauto].
Qed.

Lemma add_args_index s c : callIndex (add_args s c) = callIndex c.
Proof. reflexivity. Qed.

Lemma add_capped_index s c : callIndex (add_capped s c) = callIndex c.
Proof. unfold add_capped. by destruct (_ <=? _). Qed.

Lemma on_call_index f i c : (forall c, callIndex (f c) = callIndex c) -> callIndex (on_call f i c) = callIndex c.
Proof. intros Hf. unfold on_call. destruct (_ =? _); auto. Qed.

Lemma on_call_id f i c : (forall c, f c = c) -> on_call f i c = c.
Proof. intros Hf. unfold on_call. destruct (_ =? _); auto. Qed.

Lemma append_args_nil i cs : append_args i "" cs = cs.
Proof.
  assert (Ha : forall c, add_args "" c = c).
  { intros [j id n ar]. exact (f_equal (mkCall j id n) (string_app_empty_r ar)). }
  assert (Hc : forall c, add_capped "" c = c).
  { intros c. unfold add_capped. destruct (_ <=? _); auto. }
  destruct cs as [|c cs]; [done|]. cbn. rewrite on_call_id by done. f_equal.
  induction cs as [|x cs IH]; cbn; [done|]. by rewrite IH, on_call_id.
Qed.

Lemma append_args_indices i s cs : map callIndex (append_args i s cs) = map callIndex cs.
Proof.
  destruct cs as [|c cs]; [done|]. cbn. rewrite on_call_index by apply add_args_index. f_equal.
  rewrite map_map. apply map_ext. intros x. apply on_call_index, add_capped_index.
Qed.

Lemma append_args_absent i s cs : find_call i cs = None -> append_args i s cs = cs.
Proof.
  intros Hn. destruct cs as [|c cs]; [done|]. unfold find_call in Hn. cbn in *. unfold on_call at 1.
  destruct (callIndex c =? i); [done|]. f_equal.
  induction cs as [|x cs IH]; [done|]. cbn in *. unfold on_call at 1.
  destruct (callIndex x =? i); [done|]. by rewrite IH.
Qed.

(** *** Tool calls *)

Definition with_calls (cs : list call) (a : content) : content :=
  mkContent (thinking a) (text a) cs (tokens a) (finish a).

(** Related states that also count the same output tokens as [t]. *)
Definition sim_same (t : StreamTranslator) (a : content) (t' : StreamTranslator) (c : client) : Prop :=
  sim_open t' a c /\ outputTokens t' = outputTokens t.

Lemma no_tools_lookup t i : no_tools t -> tools t !! i = None.
Proof. intros (-> & _ & _). apply lookup_empty. Qed.

Lemma sim_lookup t a c i :
  sim_open t a c ->
  tools t !! i = None /\ find_call i (calls a) = None
  \/ exists x ts, tools t !! i = Some ts /\ find_call i (calls a) = Some x /\ tsID ts = callID x.
Proof.
  destruct 1 as [? ? Hn ? ? ? Hc|? ? ? Hn ? ? ? Hc|? ? ? ? Hn ? ? ? Hc|x xs ? ? (_ & _ & _ & _ & ar & Ht) ? Hc];
    rewrite Hc; try (left; split; [by apply no_tools_lookup|reflexivity]).
  rewrite Ht. unfold find_call at 2 4. cbn. destruct (callIndex x =? i); [right; eexists _, _; eauto|].
  fold (find_call i xs). destruct (find_call i xs) as [y|]; [right|left; done].
  eexists _, _. split; [reflexivity|]. eauto.
Qed.

Lemma tool_table_write c cs t i s :
  tool_table c cs t -> i <> callIndex c ->
  forall tool, tools t !! i = Some tool ->
  tool_table c (map (on_call (add_capped s) i) cs)
    (set_tools (<[i := write_args s tool]> (tools t)) (toolOrder t) (activeToolIdx t) t).
Proof.
  intros (Ho & Ha & H0 & Hnd & ar & Ht) Hi tool Htool.
  assert (Hm : map callIndex (map (on_call (add_capped s) i) cs) = map callIndex cs).
  { rewrite map_map. apply map_ext. intros x. apply on_call_index, add_capped_index. }
  unfold tool_table. cbn [set_tools toolOrder activeToolIdx blockIndex tools map] in *. rewrite Hm.
  split_and!; try assumption. exists ar. intros j. rewrite find_call_map by apply add_capped_index.
  destruct (Z.eqb_spec j i) as [->|Hj].
  - rewrite lookup_insert_eq, (proj2 (Z.eqb_neq (callIndex c) i)) by lia.
    rewrite Ht, (proj2 (Z.eqb_neq (callIndex c) i)) in Htool by lia.
    destruct (find_call i cs) as [x|]; [|done]. cbn in *. injection Htool as <-.
    unfold write_args, add_capped, deferred. cbn. by destruct (_ <=? _).
  - by rewrite lookup_insert_ne by congruence.
Qed.

Lemma tool_table_write_first c cs t s tool :
  tool_table c cs t -> tools t !! callIndex c = Some tool ->
  tool_table (add_args s c) cs
    (set_tools (<[callIndex c := write_args s tool]> (tools t)) (toolOrder t) (activeToolIdx t) t).
Proof.
  intros (Ho & Ha & H0 & Hnd & ar & Ht) Htool. rewrite Ht, Z.eqb_refl in Htool. injection Htool as <-.
  unfold tool_table. cbn [set_tools toolOrder activeToolIdx blockIndex tools map add_args callIndex callID callName] in *.
  split_and!; try assumption.
  exists (tsArgs (write_args s (mkTool (callID c) (callName c) ar (blockIndex t) true false))). intros j.
  destruct (Z.eqb_spec (callIndex c) j) as [<-|Hj].
  - rewrite lookup_insert_eq. unfold write_args. cbn. by destruct (_ <=? _).
  - rewrite lookup_insert_ne by congruence. rewrite Ht. by rewrite (proj2 (Z.eqb_neq _ _) Hj).
Qed.

Lemma map_on_call_absent f i cs : ~ i ∈ map callIndex cs -> map (on_call f i) cs = cs.
Proof.
  induction cs as [|x cs IH]; cbn; [done|]. rewrite not_elem_of_cons. intros [Hx Hcs].
  rewrite IH by done. unfold on_call. by rewrite (proj2 (Z.eqb_neq _ _) (not_eq_sym Hx)).
Qed.

Lemma with_calls_same a : with_calls (calls a) a = a.
Proof. by destruct a. Qed.

Lemma sim_arguments t a c i s :
  sim_open t a c ->
  reads c (toolArguments t i s) (sim_same t (with_calls (append_args i s (calls a)) a)).
Proof.
  intros Hsim. unfold toolArguments. destruct (String.eqb_spec s "") as [->|Hs].
  { rewrite append_args_nil, with_calls_same. by apply reads_ret. }
  destruct (sim_lookup t a c i Hsim) as [(Hl & Hf)|(x & ts & Hl & Hf & _)]; rewrite Hl.
  { rewrite append_args_absent, with_calls_same by done. by apply reads_ret. }
  destruct Hsim as [? ? Hn|? ? ? Hn|? ? ? ? Hn|x0 xs Hst Hty Htab Hbi Hc];
    try (rewrite (no_tools_lookup _ _ Hn) in Hl; discriminate).
  assert (Ha : (activeToolIdx t =? i) = (callIndex x0 =? i)) by (f_equal; apply Htab).
  rewrite Hc, Ha. cbn [append_args].
  destruct (Z.eqb_spec (callIndex x0) i) as [<-|Hi].
  - assert (Hb : tsBlockIndex ts = count (prefix_blocks a)).
    { destruct Htab as (_ & _ & _ & _ & ar & Ht). rewrite Ht, Z.eqb_refl in Hl. by injection Hl as <-. }
    unfold on_call at 1. rewrite Z.eqb_refl, map_on_call_absent.
    2: { destruct Htab as (_ & _ & _ & Hnd & _). cbn in Hnd. by apply NoDup_cons in Hnd as [? _]. }
    eexists. split; [cbn [fst read_events]; unfold call_block; rewrite read_tool_delta by exact Hb; reflexivity|].
    split; [|reflexivity].
    apply (sim_tools _ (with_calls _ a) (add_args s x0) xs); try assumption; [|reflexivity].
    by apply tool_table_write_first.
  - unfold on_call at 1. rewrite (proj2 (Z.eqb_neq _ _) Hi). apply reads_ret. split; [|reflexivity].
    eapply (sim_tools _ (with_calls _ a) x0); try assumption; [|reflexivity]. by apply tool_table_write.
Qed.

Definition new_call (tc : OpenAIChunkToolCall) : call := mkCall (tcIndex tc) (tcID tc) (cfName (tcFunction tc)) "".

(** The first header opens its block. *)
Lemma record_first t a tc :
  no_tools t -> activeBlockType t = "" -> blockIndex t = count (prefix_blocks a) -> calls a = [] ->
  0 <= tcIndex tc ->
  reads (COpen (prefix_blocks a) None) (recordTool t tc) (sim_same t (with_calls [new_call tc] a)).
Proof.
  intros (Htt & Hto & Hta) Hty Hbi Hc H0. unfold recordTool, openToolBlock.
  cbn [activeToolIdx set_state set_tools tools blockIndex]. rewrite Hta, lookup_insert_eq. cbn [Z.ltb Z.compare].
  eexists. split; [cbn [fst read_events]; rewrite read_tool_start by exact Hbi; reflexivity|].
  split; [|reflexivity]. eapply (sim_tools _ (with_calls _ a) (new_call tc) []); [reflexivity|exact Hty| |exact Hbi|reflexivity].
  unfold tool_table. cbn. rewrite Hto. split_and!; try done; [apply NoDup_singleton|].
  exists "". intros i. destruct (Z.eqb_spec (tcIndex tc) i) as [<-|Hi].
  - by rewrite lookup_insert_eq.
  - rewrite !lookup_insert_ne by done. by rewrite Htt, lookup_empty.
Qed.

(** A later header waits. *)
Lemma record_deferred t a x xs tc :
  state t = stateBlockActive -> activeBlockType t = "" -> tool_table x xs t ->
  blockIndex t = count (prefix_blocks a) -> calls a = x :: xs ->
  find_call (tcIndex tc) (calls a) = None ->
  reads (COpen (prefix_blocks a) (Some (call_block x))) (recordTool t tc)
    (sim_same t (with_calls (calls a ++ [new_call tc]) a)).
Proof.
  intros Hst Hty (Ho & Ha & H0 & Hnd & ar & Ht) Hbi Hc Hf. apply find_call_None in Hf.
  unfold recordTool. cbn [activeToolIdx set_state set_tools]. rewrite Ha, (proj2 (Z.ltb_ge _ _) H0).
  apply reads_ret. split; [|reflexivity]. rewrite Hc in *.
  eapply (sim_tools _ (with_calls _ a) x (xs ++ [new_call tc])); [reflexivity|exact Hty| |exact Hbi|reflexivity].
  unfold tool_table. cbn in *. rewrite Ho, map_app. split_and!; try done.
  { change (NoDup ((callIndex x :: map callIndex xs) ++ [tcIndex tc])). apply NoDup_app. split; [done|].
    split; [|apply NoDup_singleton]. intros j Hj ->%list_elem_of_singleton. done. }
  exists ar. intros i. apply not_elem_of_cons in Hf as [Hx Hxs]. rewrite find_call_snoc. cbn.
  destruct (decide (i = tcIndex tc)) as [->|Hi].
  - rewrite lookup_insert_eq, (proj2 (Z.eqb_neq (callIndex x) _)) by done.
    apply find_call_None in Hxs. by rewrite Hxs, Z.eqb_refl.
  - rewrite lookup_insert_ne by done. rewrite Ht. destruct (callIndex x =? i); [done|].
    rewrite (proj2 (Z.eqb_neq (tcIndex tc) i)) by done. by destruct (find_call i xs).
Qed.

(** A text or thinking block ends before the first header. *)
Lemma sim_header t a c tc :
  sim_open t a c -> find_call (tcIndex tc) (calls a) = None -> 0 <= tcIndex tc ->
  reads c (toolHeader t tc) (sim_same t (with_calls (calls a ++ [new_call tc]) a)).
Proof.
  intros Hsim Hf H0. unfold toolHeader, is_state.
  destruct Hsim as [Hst Hty Hn Hbi Hth Htx Hc|s Hst Hty Hn Hbi Hth Htx Hc|bs s Hst Hty Hn Hbi Hp Htx Hc
                   |x xs Hst Hty Htab Hbi Hc]; rewrite Hst, Hty; cbn.
  - pose proof (record_first t a tc Hn Hty) as Hr. unfold prefix_blocks in Hr. rewrite Hth, Htx, Hc in *.
    destruct (recordTool t tc). apply Hr; done.
  - pose proof (record_first (set_state stateStarted (set_block (blockIndex t + 1) "" t)) a tc Hn eq_refl) as Hr.
    unfold prefix_blocks in Hr. rewrite Hth, Htx, Hc in *.
    destruct (recordTool _ tc). eapply reads_cons; [by apply read_block_stop|]. apply Hr; [unfold count; cbn; lia|done..].
  - pose proof (record_first (set_state stateStarted (set_block (blockIndex t + 1) "" t)) a tc Hn eq_refl) as Hr.
    rewrite <- Hp, Hc in *. destruct (recordTool _ tc).
    eapply reads_cons; [by apply read_block_stop|]. apply Hr; [|done..]. cbn. rewrite count_snoc. lia.
  - pose proof (record_deferred t a x xs tc Hst Hty Htab Hbi Hc Hf) as Hr.
    destruct (recordTool t tc). exact Hr.
Qed.

Lemma sim_call t a c tc cs :
  sim_open t a c -> add_call tc (calls a) = Some cs ->
  reads c (toolCallStep t tc) (sim_same t (with_calls cs a)).
Proof.
  intros Hsim. unfold add_call, toolCallStep. destruct (tcID tc =? "")%string eqn:Hid.
  { intros [= <-]. by apply sim_arguments. }
  destruct (Z.ltb_spec (tcIndex tc) 0) as [|H0]; [done|].
  destruct (sim_lookup t a c (tcIndex tc) Hsim) as [(Hl & Hf)|(x & ts & Hl & Hf & Hx)]; rewrite Hl, Hf.
  - intros [= <-]. pose proof (sim_header t a c tc Hsim Hf H0) as Hh. destruct (toolHeader t tc) as [ev t1].
    destruct (toolArguments t1 _ _) as [ev' t2] eqn:E. eapply reads_app; [exact Hh|].
    intros c' [Hs1 Ho1]. rewrite <- E. eapply reads_mono; [apply (sim_arguments _ _ _ _ _ Hs1)|].
    intros c2 [Hs2 Ho2]. split; [exact Hs2|]. by rewrite Ho2.
  - rewrite Hx. destruct (callID x =? tcID tc)%string; [|done]. intros [= <-]. rewrite with_calls_same. by apply reads_ret.
Qed.

Lemma sim_calls t a c tcs cs :
  sim_open t a c -> add_calls tcs (calls a) = Some cs ->
  reads c (translateToolCallDelta t tcs) (sim_same t (with_calls cs a)).
Proof.
  revert t a c; induction tcs as [|tc tcs IH]; intros t a c Hsim; cbn [add_calls translateToolCallDelta].
  { intros [= <-]. rewrite with_calls_same. by apply reads_ret. }
  destruct (add_call tc (calls a)) as [cs1|] eqn:Ea; [|done]. intros Hcs.
  pose proof (sim_call t a c tc cs1 Hsim Ea) as H1. destruct (toolCallStep t tc) as [ev t1].
  destruct (translateToolCallDelta t1 tcs) as [evs t2] eqn:E. eapply reads_app; [exact H1|].
  intros c' [Hs1 Ho1]. rewrite <- E. eapply reads_mono; [apply (IH _ (with_calls cs1 a) _ Hs1 Hcs)|].
  intros c2 [Hs2 Ho2]. split; [exact Hs2|]. by rewrite Ho2.
Qed.

(** *** Text and reasoning *)

Section Deltas.
Context (isCJK : Z -> bool).

Definition sim_count (a : content) (t : StreamTranslator) (c : client) : Prop :=
  sim_open t a c /\ outputTokens t = tokens a /\ finish a = None.

Lemma sim_reasoning t a c s :
  sim_count a t c -> reads c (reasoning_delta isCJK s t) (sim_count (add_reasoning isCJK s a)).
Proof.
  intros Hs0. pose proof Hs0 as (Hsim & Htok & Hfin). unfold reasoning_delta, add_reasoning, is_state.
  destruct (s =? "")%string eqn:Hs.
  { apply reads_ret. by destruct (text a), (calls a). }
  destruct Hsim as [Hst Hty Hn Hbi Hth Htx Hc|s0 Hst Hty Hn Hbi Hth Htx Hc|bs s0 Hst Hty Hn Hbi Hp Htx Hc
                   |x xs Hst Hty Htab Hbi Hc]; rewrite ?Htx, ?Hc; repeat (rewrite ?Hst, ?Hty; cbn).
  - eapply reads_cons; [by apply read_thinking_start|]. eapply reads_cons; [by apply read_thinking_delta|].
    apply reads_ret. split; [|split; [cbn; by rewrite Htok|done]]. rewrite Hth.
    by apply sim_thinking.
  - eapply reads_cons; [by apply read_thinking_delta|].
    apply reads_ret. split; [|split; [cbn; by rewrite Htok|done]]. rewrite Hth. by apply sim_thinking.
  - apply reads_ret. split; [by apply (sim_text _ _ bs s0)|done].
  - apply reads_ret. destruct (text a); (split; [by apply (sim_tools _ _ x xs)|done]).
Qed.

Lemma sim_content t a c s :
  sim_count a t c -> reads c (content_delta isCJK s t) (sim_count (add_text isCJK s a)).
Proof.
  intros Hs0. pose proof Hs0 as (Hsim & Htok & Hfin). unfold content_delta, add_text, is_state.
  destruct (s =? "")%string eqn:Hs.
  { apply reads_ret. by destruct (calls a). }
  destruct Hsim as [Hst Hty Hn Hbi Hth Htx Hc|s0 Hst Hty Hn Hbi Hth Htx Hc|bs s0 Hst Hty Hn Hbi Hp Htx Hc
                   |x xs Hst Hty Htab Hbi Hc]; rewrite Hc; repeat (rewrite ?Hst, ?Hty; cbn).
  - eapply reads_cons; [by apply read_text_start|]. eapply reads_cons; [by apply read_text_delta|].
    apply reads_ret. split; [|split; [cbn; by rewrite Htok|done]].
    apply (sim_text _ _ [] s); try done; unfold prefix_blocks; cbn; by rewrite ?Hth, ?Htx.
  - eapply reads_cons; [by apply read_block_stop|].
    eapply reads_cons; [apply read_text_start; rewrite count_snoc; unfold count; cbn; lia|].
    eapply reads_cons; [apply read_text_delta; rewrite count_snoc; unfold count; cbn; lia|].
    apply reads_ret. split; [|split; [cbn; by rewrite Htok|done]].
    apply (sim_text _ _ [BThinking s0] s); try done; unfold prefix_blocks, count; cbn; rewrite ?Hth, ?Htx; try done. lia.
  - eapply reads_cons; [by apply read_text_delta|]. apply reads_ret.
    split; [|split; [cbn; by rewrite Htok|done]]. unfold prefix_blocks in Hp. rewrite Htx in *.
    apply app_inj_tail in Hp as [-> _].
    by apply (sim_text _ _ _ (s0 +:+ s)).
  - apply reads_ret. split; [by apply (sim_tools _ _ x xs)|done].
Qed.

(** *** The end of the message *)

Definition closed_as (t : StreamTranslator) (bs : list block) (t' : StreamTranslator) (c : client) : Prop :=
  c = COpen bs None /\ outputTokens t' = outputTokens t /\ toolOrder t' = toolOrder t.

Lemma Forall_deferred_insert cs i ts (m : gmap Z toolStreamState) :
  Forall (fun x => m !! callIndex x = Some (deferred x)) cs -> ~ i ∈ map callIndex cs ->
  Forall (fun x => <[i := ts]> m !! callIndex x = Some (deferred x)) cs.
Proof.
  rewrite !Forall_forall. intros Hm Hi x Hx. rewrite lookup_insert_ne; [by apply Hm|].
  intros ->. apply Hi. apply list_elem_of_fmap. eauto.
Qed.

(** The waiting calls flush in first-seen order with their buffered arguments. *)
Lemma close_deferred cs bs t :
  Forall (fun x => tools t !! callIndex x = Some (deferred x)) cs -> NoDup (map callIndex cs) ->
  blockIndex t = count bs ->
  reads (COpen bs None) (close_tools (map callIndex cs) t) (closed_as t (bs ++ map call_block cs)).
Proof.
  revert bs t; induction cs as [|x cs IH]; intros bs t Hm Hnd Hbi.
  { rewrite app_nil_r. by apply reads_ret. }
  apply Forall_cons in Hm as [Hx Hm]. cbn [map] in Hnd. apply NoDup_cons in Hnd as [Hni Hnd].
  cbn [map close_tools]. rewrite Hx. unfold openToolBlock. rewrite Hx.
  cbn [deferred closed opened tsArgs tsID tsName set_tools tools]. rewrite lookup_insert_eq. cbn.
  match goal with |- context [close_tools _ ?t0] => set (t1 := t0) end.
  destruct (close_tools (map callIndex cs) t1) as [evs t2] eqn:E.
  assert (Hk : reads (COpen (bs ++ [call_block x]) None) (evs, t2) (closed_as t (bs ++ call_block x :: map call_block cs))).
  { rewrite <- E. replace (bs ++ call_block x :: map call_block cs)
      with ((bs ++ [call_block x]) ++ map call_block cs) by (by rewrite <- app_assoc). apply (IH (bs ++ [call_block x]) t1); [|done|].
    - by repeat (apply Forall_deferred_insert; [|exact Hni]).
    - cbn. rewrite count_snoc. lia. }
  eapply reads_cons; [by apply read_tool_start|].
  destruct (callArgs x =? "")%string eqn:Ha.
  - apply String.eqb_eq in Ha. eapply reads_cons; [by apply read_block_stop|].
    unfold call_block in Hk at 1. rewrite Ha in Hk. exact Hk.
  - eapply reads_cons; [by apply read_tool_delta|]. eapply reads_cons; [by apply read_block_stop|]. exact Hk.
Qed.

(** The open call ends first. *)
Lemma close_all t a x xs :
  tool_table x xs t -> blockIndex t = count (prefix_blocks a) -> calls a = x :: xs ->
  reads (COpen (prefix_blocks a) (Some (call_block x))) (closeActiveToolBlock t)
    (fun t' c => closed_as t (blocks a) t' c /\ state t' = stateStarted).
Proof.
  intros (Ho & Ha & H0 & Hnd & ar & Ht) Hbi Hc. unfold closeActiveToolBlock, blocks. rewrite Ho, Hc.
  cbn [map close_tools]. pose proof (Ht (callIndex x)) as Hx. rewrite Z.eqb_refl in Hx. rewrite Hx. cbn [closed opened default].
  rewrite Hx. cbn [default tsBlockIndex].
  match goal with |- context [close_tools _ ?t0] => set (t1 := t0) end.
  apply NoDup_cons in Hnd as [Hni Hnd].
  assert (Hk : reads (COpen (prefix_blocks a ++ [call_block x]) None) (close_tools (map callIndex xs) t1)
                 (closed_as t1 ((prefix_blocks a ++ [call_block x]) ++ map call_block xs))).
  { apply close_deferred; [|done|cbn; rewrite count_snoc; lia]. cbn. apply Forall_deferred_insert; [|done].
    apply Forall_forall. intros y Hy. rewrite Ht.
    assert (Hy' : callIndex y ∈ map callIndex xs) by (apply list_elem_of_fmap; eauto).
    rewrite (proj2 (Z.eqb_neq _ _)) by (intros Hxy; apply Hni; by rewrite Hxy).
    clear - Hnd Hy. induction xs as [|z xs IH]; [by apply not_elem_of_nil in Hy|].
    cbn in Hnd. apply NoDup_cons in Hnd as [Hz Hnd]. unfold find_call. cbn.
    apply elem_of_cons in Hy as [->|Hy]; [by rewrite Z.eqb_refl|].
    rewrite (proj2 (Z.eqb_neq _ _)); [by apply IH|]. intros Hi. apply Hz. rewrite Hi. apply list_elem_of_fmap. eauto. }
  destruct (close_tools (map callIndex xs) t1) as [evs t2]. destruct Hk as (c' & Ec & -> & Htok & Hord).
  cbn in Ec. eapply reads_cons; [by apply read_block_stop|]. exists (COpen (prefix_blocks a ++ call_block x :: map call_block xs) None).
  cbn [fst]. rewrite Ec. split; [by rewrite <- app_assoc|]. cbn in Hord |- *. rewrite Hord, Ho. done.
Qed.

Lemma close_none t : no_tools t -> closeActiveToolBlock t = ([], set_tools ∅ [] (-1) t).
Proof. intros (Ht & Ho & Ha). unfold closeActiveToolBlock. rewrite Ho. cbn. by rewrite Ht, Ho. Qed.

(** Every open block closes; the reader holds all blocks of the content. *)
Lemma sim_close t a c :
  sim_count a t c ->
  reads c (let '(ev0, t) := closeActiveToolBlock t in
           let '(ev1, t) := if is_state stateBlockActive t
                            then ([contentBlockStop (blockIndex t)], set_block (blockIndex t) "" t) else ([], t) in
           (ev0 ++ ev1, t))
    (fun t' c' => c' = COpen (blocks a) None /\ outputTokens t' = tokens a).
Proof.
  intros (Hsim & Htok & _). unfold is_state.
  destruct Hsim as [Hst Hty Hn Hbi Hth Htx Hc|s0 Hst Hty Hn Hbi Hth Htx Hc|bs s0 Hst Hty Hn Hbi Hp Htx Hc
                   |x xs Hst Hty Htab Hbi Hc];
    try (rewrite close_none by done; cbn; rewrite Hst; unfold blocks; rewrite Hc).
  - apply reads_ret. unfold prefix_blocks. by rewrite Hth, Htx.
  - eapply reads_cons; [by apply read_block_stop|]. apply reads_ret. unfold prefix_blocks. by rewrite Hth, Htx.
  - eapply reads_cons; [by apply read_block_stop|]. apply reads_ret. by rewrite Hp, app_nil_r.
  - pose proof (close_all t a x xs Htab Hbi Hc) as Hr. destruct (closeActiveToolBlock t) as [ev t'].
    destruct Hr as (c' & Ec & (-> & Ho & _) & Hs). cbn in *. rewrite Hs, app_nil_r.
    eexists. split; [exact Ec|]. split; [done|]. cbn. congruence.
Qed.

Lemma finish_usage_tokens u t :
  outputTokens (finish_usage u t) = if 0 <? CompletionTokens u then CompletionTokens u else outputTokens t.
Proof. unfold finish_usage. destruct (0 <? PromptTokens u), (0 <? CompletionTokens u); reflexivity. Qed.

Lemma sim_finish t a c reason usage :
  sim_count a t c ->
  reads c (finish_chunk reason usage t) (fun t' => sim t' (end_content reason usage a)).
Proof.
  intros Hsim. destruct reason as [r|]; [|apply reads_ret; apply sim_live; apply Hsim].
  unfold finish_chunk, end_content. destruct (r =? "")%string; [apply reads_ret; apply sim_live; apply Hsim|].
  pose proof (sim_close t a c Hsim) as Hr. destruct (closeActiveToolBlock t) as [ev0 t0].
  destruct (if is_state stateBlockActive t0 then _ else _) as [ev1 t1].
  destruct Hr as (c1 & Ec & -> & Htok). cbn in Ec, Htok. rewrite app_assoc.
  apply (reads_app (fun _ c2 => c2 = COpen (blocks a) None) _ _ _ t1); [by eexists|]. intros c2 ->.
  eapply reads_cons; [apply read_message_delta|]. eapply reads_cons; [reflexivity|]. apply reads_ret.
  match goal with |- sim _ ?a' (CStopped _ (Completed ?r' ?n)) => change (blocks a) with (blocks a') end.
  apply sim_done; [reflexivity|]. cbn. do 2 f_equal. destruct usage as [u|]; [|by rewrite Htok].
  by rewrite finish_usage_tokens, Htok.
Qed.

(** *** Chunks *)

Lemma start_live t a chunk :
  sim t a CBefore -> reads CBefore (start_message chunk t) (sim_count a).
Proof.
  inversion 1 as [Hst Hty Hn Hbi Htok -> |? Hopen|]; subst; [|inversion Hopen].
  unfold start_message, is_state. rewrite Hst. eapply reads_cons; [reflexivity|]. apply reads_ret.
  destruct (chUsage chunk) as [u|]; [destruct (0 <? PromptTokens u)|];
    (split; [by apply sim_started|split; [exact Htok|reflexivity]]).
Qed.

Lemma start_message_idle t chunk : state t <> stateInit -> start_message chunk t = ([], t).
Proof. unfold start_message, is_state. by destruct (state t). Qed.

Lemma sim_open_state t a c : sim_open t a c -> state t = stateStarted \/ state t = stateBlockActive.
Proof. destruct 1; auto. Qed.

Lemma sim_choice t a c choice usage a' :
  sim_count a t c ->
  (fun a => end_content (ccFinishReason choice) usage (add_text isCJK (dContent (ccDelta choice)) a))
    <$> add_tools (dToolCalls (ccDelta choice)) (add_reasoning isCJK (dReasoningContent (ccDelta choice)) a) = Some a' ->
  reads c (let '(ev1, t) := reasoning_delta isCJK (dReasoningContent (ccDelta choice)) t in
           let '(ev2, t) := translateToolCallDelta t (dToolCalls (ccDelta choice)) in
           let '(ev3, t) := content_delta isCJK (dContent (ccDelta choice)) t in
           let '(ev4, t) := finish_chunk (ccFinishReason choice) usage t in
           (ev1 ++ ev2 ++ ev3 ++ ev4, t)) (fun t' => sim t' a').
Proof.
  intros Hsim Ha. pose proof (sim_reasoning t a c (dReasoningContent (ccDelta choice)) Hsim) as H1.
  set (a1 := add_reasoning _ _ _) in *. unfold add_tools in Ha.
  destruct (add_calls _ _) as [cs|] eqn:Hcs; [|done]. injection Ha as <-.
  destruct (reasoning_delta _ _ _) as [ev1 t1]. destruct (translateToolCallDelta _ _) as [ev2 t2] eqn:E2.
  destruct (content_delta _ _ _) as [ev3 t3] eqn:E3. destruct (finish_chunk _ _ _) as [ev4 t4] eqn:E4.
  eapply reads_app; [exact H1|]. intros c1 (Hs1 & Ht1 & Hf1).
  apply (reads_app (sim_count (with_calls cs a1)) _ _ _ t2).
  { rewrite <- E2. eapply reads_mono; [by apply sim_calls|]. intros c2 [Hs2 Ho2].
    exact (conj Hs2 (conj (eq_trans Ho2 Ht1) Hf1)). }
  intros c2 Hs2. eapply reads_app; [rewrite <- E3; by apply sim_content|].
  intros c3 Hs3. rewrite <- E4. by apply sim_finish.
Qed.

Lemma sim_usage t a c u :
  sim t a c -> c <> CBefore -> sim (usage_chunk u t) (set_tokens (CompletionTokens u) a) c.
Proof.
  destruct 1 as [| c Hopen Htok Hfin|r n Hst Hfin]; intros Hc; [done| |].
  - apply sim_live; [|reflexivity|exact Hfin].
    destruct Hopen; [by apply sim_started|by apply sim_thinking|by eapply sim_text|by eapply (sim_tools _ (set_tokens _ a))].
  - by apply (sim_done _ (set_tokens _ a)).
Qed.

Lemma sim_count_sim t a c : sim_count a t c -> sim t a c /\ c <> CBefore.
Proof. intros (Ho & Ht & Hf). split; [by apply sim_live|]. by destruct Ho. Qed.

Lemma sim_chunk t a c sse a' :
  sim t a c -> add_chunk isCJK a sse = Some a' -> reads c (TranslateChunk isCJK t sse) (fun t' => sim t' a').
Proof.
  intros Hsim. unfold add_chunk, TranslateChunk.
  destruct (Done sse); [intros [= <-]; by apply reads_ret|].
  destruct (Chunk sse) as [chunk|]; [|intros [= <-]; by apply reads_ret].
  assert (Hstart : reads c (start_message chunk t) (fun t' c' => sim t' a c' /\ c' <> CBefore)).
  { destruct Hsim as [| c Hopen Htok Hfin|r n Hst Hfin].
    - eapply reads_mono; [by apply start_live, sim_before|]. intros c'. apply sim_count_sim.
    - rewrite start_message_idle by (destruct (sim_open_state _ _ _ Hopen); congruence).
      apply reads_ret. by apply sim_count_sim.
    - rewrite start_message_idle by congruence. apply reads_ret. split; [by apply sim_done|done]. }
  destruct (start_message chunk t) as [ev0 t0]. destruct (chChoices chunk) as [|choice rest].
  { intros [= <-]. destruct Hstart as (c' & Ec & Hs & Hc). exists c'. split; [exact Ec|].
    destruct (chUsage chunk); [by apply sim_usage|exact Hs]. }
  destruct (finish a) eqn:Hfin; [done|]. intros Ha.
  pose proof (fun c' => sim_choice t0 a c' choice (chUsage chunk) a') as Hk.
  destruct (reasoning_delta _ _ _) as [ev1 t1]. destruct (translateToolCallDelta _ _) as [ev2 t2].
  destruct (content_delta _ _ _) as [ev3 t3]. destruct (finish_chunk _ _ _) as [ev4 t4].
  eapply reads_app; [exact Hstart|]. intros c' [Hs Hc]. apply Hk; [|exact Ha].
  destruct Hs as [|c' Hopen Htok _|r n _ Hf]; [done|by repeat split|congruence].
Qed.

(** *** The end of the upstream stream *)

Lemma close_dangling_reads t a c :
  sim_count a t c -> state t = stateBlockActive ->
  reads c (close_dangling t) (fun t' c' => c' = COpen (blocks a) None /\ outputTokens t' = tokens a).
Proof.
  intros (Hsim & Htok & _) Hs. unfold close_dangling, blocks.
  destruct Hsim as [Hst|s0 Hst Hty Hn Hbi Hth Htx Hc|bs s0 Hst Hty Hn Hbi Hp Htx Hc|x xs Hst Hty Htab Hbi Hc];
    [congruence|destruct Hn as (_ & -> & _); rewrite Hc; eapply reads_cons; [by apply read_block_stop|]; apply reads_ret..|].
  - unfold prefix_blocks. by rewrite Hth, Htx.
  - by rewrite app_nil_r, Hp.
  - pose proof Htab as (Ho & _). rewrite Ho. eapply reads_mono; [by eapply close_all|].
    intros c' ((-> & Ho' & _) & _). split; [done|congruence].
Qed.

Lemma sim_disconnect t a c clean :
  sim t a c ->
  reads c (OnProviderDisconnect clean t) (fun _ c' => c' = CStopped (blocks a) (outcome_of clean a)).
Proof.
  unfold OnProviderDisconnect, outcome_of, is_state.
  destruct 1 as [Hst Hty Hn Hbi Htok ->|c Hopen Htok Hfin|r n Hst Hfin].
  - rewrite Hst. destruct clean; cbn; by eexists.
  - rewrite Hfin. pose proof (sim_open_state _ _ _ Hopen) as [Hst|Hst]; rewrite Hst; cbn.
    + inversion Hopen as [Hst' Hty Hn Hbi Hth Htx Hc| | |]; subst; try congruence.
      unfold blocks, prefix_blocks. rewrite Hth, Htx, Hc. destruct clean; cbn; by rewrite <- ?Htok; eexists.
    + pose proof (close_dangling_reads t a c (conj Hopen (conj Htok Hfin)) Hst) as Hr.
      destruct (close_dangling t) as [ev t'], clean; cbn;
        (eapply reads_app; [exact Hr|]; intros c' [-> Ht']; cbn in Ht'; rewrite <- ?Ht'; by eexists).
  - rewrite Hst, Hfin. by apply reads_ret.
Qed.
End Deltas.

(** ** Theorems *)

Lemma deliver_all sent es : deliver (fun _ => true) sent es = (sent ++ es, false).
Proof.
  revert sent; induction es as [|e es IH]; intros sent; cbn; [by rewrite app_nil_r|].
  by rewrite IH, <- app_assoc.
Qed.

Lemma relay_loop_reads isCJK ch r c a a' :
  stopped r = false -> read_events CBefore (sent r) = Some c -> sim (st r) a c ->
  add_chunks isCJK a ch = Some a' ->
  let r' := relay_loop isCJK (fun _ => true) r ch in
  stopped r' = false /\ sawDone r' = sawDone r || existsb Done ch
  /\ exists c', read_events CBefore (sent r') = Some c' /\ sim (st r') a' c'.
Proof.
  revert r c a; induction ch as [|sse ch IH]; intros r c a Hstop Hread Hsim; cbn [add_chunks relay_loop existsb].
  { intros [= <-]. rewrite orb_false_r. eauto. }
  destruct (add_chunk isCJK a sse) as [a1|] eqn:Ea; [|done]. intros Hch.
  destruct (sim_chunk isCJK _ _ _ _ _ Hsim Ea) as (c1 & Ec & Hs1).
  destruct (TranslateChunk isCJK (st r) sse) as [ev t1]. cbn in Ec, Hs1.
  rewrite deliver_all, orb_assoc. apply (IH (mkRelay t1 (sent r ++ ev) _ false) c1 a1); try done.
  cbn. by rewrite read_events_app, Hread.
Qed.

Lemma relay_stream_reads isCJK msgID model est ch a :
  add_chunks isCJK no_content ch = Some a ->
  read_events CBefore (RelayStream isCJK (fun _ => true) msgID model est ch)
  = Some (CStopped (blocks a) (outcome_of (existsb Done ch) a)).
Proof.
  intros Hch. unfold RelayStream.
  edestruct (relay_loop_reads isCJK ch (mkRelay (NewStreamTranslator msgID model est) [] false false) CBefore)
    as (Hstop & Hdone & c & Hread & Hsim); [done..| |exact Hch|]; [by apply sim_before|].
  rewrite Hstop, read_events_app, Hread, Hdone. cbn [sawDone orb].
  destruct (sim_disconnect _ _ _ (existsb Done ch) Hsim) as (c' & Ec & ->). exact Ec.
Qed.

(** *** Streams that are kept whole *)

















(** Two parallel calls whose fragments interleave, after thinking and text. *)
Definition sample_delta (d : OpenAIChunkDelta) (fin : option string) : SSEChunk :=
  mkSSEChunk (Some (mkChunk "c" "chat.completion.chunk" "m" [mkChoice 0 d fin] None)) false.

Definition sample_stream : list SSEChunk :=
  [ sample_delta (mkDelta "assistant" "" "plan" []) None;
    sample_delta (mkDelta "" "Look" "" []) None;
    sample_delta (mkDelta "" "ing" "" []) None;
    sample_delta (mkDelta "" "" "" [mkChunkTool 0 "t0" "function" (mkChunkFn "f" "");
                                    mkChunkTool 1 "t1" "function" (mkChunkFn "g" "")]) None;
    sample_delta (mkDelta "" "" "" [mkChunkTool 1 "" "" (mkChunkFn "" "[1"); mkChunkTool 0 "" "" (mkChunkFn "" "{}")]) None;
    sample_delta (mkDelta "" "" "" [mkChunkTool 1 "" "" (mkChunkFn "" "]")]) (Some "tool_calls");
    mkSSEChunk None true ].


(** Text after the first tool call is dropped. *)
Theorem late_text_is_lost :
  let ch := [sample_delta (mkDelta "" "Wait" "" [mkChunkTool 0 "t0" "function" (mkChunkFn "f" "{}")]) None;
             sample_delta (mkDelta "" "for it" "" []) (Some "tool_calls")] in
  text (said (fun _ => false) ch) = Some "Waitfor it" /\
  read_events CBefore (RelayStream (fun _ => false) (fun _ => true) "msg_1" "m" 7 ch)
  = Some (CStopped [BToolUse "t0" "f" "{}"] (Completed "tool_use" 0)).
Proof. vm_compute. by split. Qed.

(** Reasoning after the first text is dropped. *)
Theorem late_reasoning_is_lost :
  let ch := [sample_delta (mkDelta "" "Hm" "" []) None; sample_delta (mkDelta "" "" "because" []) None;
             sample_delta (mkDelta "" "!" "" []) (Some "stop")] in
  thinking (said (fun _ => false) ch) = Some "because" /\
  read_events CBefore (RelayStream (fun _ => false) (fun _ => true) "msg_1" "m" 7 ch)
  = Some (CStopped [BText "Hm!"] (Completed "end_turn" 0)).
Proof. vm_compute. by split. Qed.

(** Arguments of the second call that arrive after more than 1 MB are dropped, and the call is
    completed with the arguments cut. *)
Theorem long_arguments_are_cut isCJK s :
  1048576 < Z.of_nat (String.length s) ->
  let ch := [sample_delta (mkDelta "" "" "" [mkChunkTool 0 "t0" "function" (mkChunkFn "f" "{}"); mkChunkTool 1 "t1" "function" (mkChunkFn "g" s);
                                             mkChunkTool 1 "" "" (mkChunkFn "" "]")]) (Some "tool_calls")] in
  calls (said isCJK ch) = [mkCall 0 "t0" "f" "{}"; mkCall 1 "t1" "g" (s +:+ "]")] /\
  read_events CBefore (RelayStream isCJK (fun _ => true) "msg_1" "m" 7 ch)
  = Some (CStopped [BToolUse "t0" "f" "{}"; BToolUse "t1" "g" s] (Completed "tool_use" 0)).
Proof.
  intros Hs ch. split; [reflexivity|].
  rewrite (relay_stream_reads isCJK "msg_1" "m" 7 ch (mkContent None None [mkCall 0 "t0" "f" "{}"; mkCall 1 "t1" "g" s] 0 (Some ("tool_use", 0)))); [done|].
  subst ch. cbn -[Z.leb Z.of_nat]. unfold add_capped. cbn -[Z.leb Z.of_nat].
  change (Z.of_nat 0 <=? 1048576) with true. unfold on_call, add_args. cbn -[Z.leb Z.of_nat].
  change ("" +:+ s) with s. destruct (Z.leb_spec (Z.of_nat (String.length s)) 1048576); [lia|done].
Qed.

(** Another choice of the upstream is mixed into the message. *)
Theorem other_choice_is_mixed_in :
  let ch := [sample_delta (mkDelta "" "yes" "" []) None;
             mkSSEChunk (Some (mkChunk "c" "chat.completion.chunk" "m" [mkChoice 1 (mkDelta "" "no" "" []) None] None)) false;
             sample_delta (mkDelta "" "" "" []) (Some "stop")] in
  read_events CBefore (RelayStream (fun _ => false) (fun _ => true) "msg_1" "m" 7 ch)
  = Some (CStopped [BText "yesno"] (Completed "end_turn" 0)).
Proof. vm_compute. reflexivity. Qed.

Lemma deliver_prefix fn sent es :
  exists tl, sent ++ es = (deliver fn sent es).1 ++ tl /\ ((deliver fn sent es).2 = false -> tl = []).
Proof.
  revert sent; induction es as [|e es IH]; intros sent; cbn.
  - exists []. by rewrite !app_nil_r.
  - destruct (fn (sent ++ [e])).
    + destruct (IH (sent ++ [e])) as (tl & E & Hs). exists tl. rewrite <- E, <- app_assoc. done.
    + exists es. split; [|done]. cbn. by rewrite <- app_assoc.
Qed.

Lemma relay_loop_extends isCJK r ch :
  exists tl, sent (relay_loop isCJK (fun _ => true) r ch) = sent r ++ tl.
Proof.
  revert r; induction ch as [|sse ch IH]; intros r; cbn; [exists []; by rewrite app_nil_r|].
  destruct (TranslateChunk isCJK (st r) sse) as [ev t]. rewrite deliver_all.
  destruct (IH (mkRelay t (sent r ++ ev) (sawDone r || Done sse) false)) as (tl & ->).
  exists (ev ++ tl). cbn. by rewrite app_assoc.
Qed.

Lemma relay_loop_agree isCJK fn r ch :
  stopped r = false ->
  let r' := relay_loop isCJK fn r ch in
  let full := relay_loop isCJK (fun _ => true) r ch in
  (stopped r' = false -> r' = full) /\ (stopped full = false) /\ exists tl, sent full = sent r' ++ tl.
Proof.
  revert r; induction ch as [|sse ch IH]; intros r Hr; cbn.
  { split_and!; try done. exists []. by rewrite app_nil_r. }
  destruct (TranslateChunk isCJK (st r) sse) as [ev t]. rewrite deliver_all.
  destruct (deliver_prefix fn (sent r) ev) as (tl & E & Hs).
  destruct (deliver fn (sent r) ev) as [out [|]]; cbn in *.
  - split; [done|]. destruct (relay_loop_extends isCJK (mkRelay t (sent r ++ ev) (sawDone r || Done sse) false) ch) as (tl2 & ->).
    split; [by apply IH|]. cbn. rewrite E, <- app_assoc. eauto.
  - rewrite (Hs eq_refl), app_nil_r in E. rewrite E. by apply IH.
Qed.

(** A client that hangs up receives a prefix of the complete event stream: the callback
    changes where the stream is cut, never its content. *)
Theorem hang_up_delivers_prefix isCJK fn msgID model est ch :
  exists tl, RelayStream isCJK (fun _ => true) msgID model est ch
             = RelayStream isCJK fn msgID model est ch ++ tl.
Proof.
  unfold RelayStream. set (r0 := mkRelay _ _ _ _).
  destruct (relay_loop_agree isCJK fn r0 ch eq_refl) as (Hsame & Hfull & tl & Htl). rewrite Hfull.
  destruct (stopped (relay_loop isCJK fn r0 ch)) eqn:Hs.
  - rewrite Htl, <- app_assoc. eauto.
  - rewrite (Hsame eq_refl). exists []. by rewrite app_nil_r.
Qed.

(** *** Truncation *)

Definition no_completion (es : list SSEEvent) : Prop := Forall (fun e => Event e <> "message_delta") es.

Lemma no_completion_app es es' : no_completion es -> no_completion es' -> no_completion (es ++ es').
Proof. apply Forall_app_2. Qed.

Create HintDb truncation.
#[export] Hint Resolve no_completion_app : truncation.

Ltac no_completion :=
  repeat first [ progress cbn | case_match; simplify_eq | apply no_completion_app
               | apply Forall_nil_2 | apply Forall_cons_2 | discriminate | assumption ].

Lemma openToolBlock_quiet i t : no_completion (openToolBlock i t).1.
Proof. unfold openToolBlock. no_completion. Qed.

Lemma toolHeader_quiet t tc : no_completion (toolHeader t tc).1.
Proof.
  unfold toolHeader, recordTool, openToolBlock. cbn [set_state set_tools tools]. no_completion.
Qed.

Lemma toolArguments_quiet t i s : no_completion (toolArguments t i s).1.
Proof. unfold toolArguments. no_completion. Qed.

Lemma toolCallStep_quiet t tc : no_completion (toolCallStep t tc).1.
Proof.
  unfold toolCallStep. destruct (_ =? "")%string; [apply toolArguments_quiet|].
  case_match; [apply Forall_nil_2|]. pose proof (toolHeader_quiet t tc) as Hh. destruct (toolHeader t tc) as [ev t1].
  pose proof (toolArguments_quiet t1 (tcIndex tc) (cfArguments (tcFunction tc))) as Ha.
  destruct (toolArguments _ _ _). by apply no_completion_app.
Qed.

Lemma translateToolCallDelta_quiet t tcs : no_completion (translateToolCallDelta t tcs).1.
Proof.
  revert t; induction tcs as [|tc tcs IH]; intros t; cbn; [apply Forall_nil_2|].
  pose proof (toolCallStep_quiet t tc) as H1. destruct (toolCallStep t tc) as [ev t1].
  specialize (IH t1). destruct (translateToolCallDelta t1 tcs). by apply no_completion_app.
Qed.

Lemma close_tools_quiet order t : no_completion (close_tools order t).1.
Proof.
  revert t; induction order as [|i order IH]; intros t; cbn [close_tools]; [apply Forall_nil_2|].
  destruct (tools t !! i) as [tool|]; [|apply IH]. destruct (closed tool); [apply IH|].
  assert (H1 : no_completion (if opened tool then ([], t) else
     let '(ev, t) := openToolBlock i t in
     (ev ++ (if String.eqb (tsArgs tool) "" then [] else [toolUseArgumentsDelta (blockIndex t) (tsArgs tool)]), t)).1).
  { pose proof (openToolBlock_quiet i t). destruct (openToolBlock i t). no_completion. }
  destruct (if opened tool then _ else _) as [ev1 t1]. cbn in H1.
  match goal with |- context [close_tools order ?t0] => specialize (IH t0); destruct (close_tools order t0) end.
  no_completion.
Qed.

Lemma closeActiveToolBlock_quiet t : no_completion (closeActiveToolBlock t).1.
Proof.
  unfold closeActiveToolBlock. pose proof (close_tools_quiet (toolOrder t) t). by destruct (close_tools _ _).
Qed.

(** No [Done] marker and no finish reason in a chunk. *)
Definition unterminated (sse : SSEChunk) : bool :=
  negb (Done sse) &&
  match Chunk sse with
  | Some chunk =>
      match chChoices chunk with
      | choice :: _ => match ccFinishReason choice with Some r => String.eqb r "" | None => true end
      | [] => true
      end
  | None => true
  end.

(** Neither completes the message nor ends the state machine. *)
Definition pending (p : list SSEEvent * StreamTranslator) : Prop :=
  no_completion p.1 /\ state p.2 <> stateDone.

Lemma pending_app ev t ev' t' : pending (ev, t) -> pending (ev', t') -> pending (ev ++ ev', t').
Proof. intros [H _] [H' D]. split; [by apply no_completion_app|done]. Qed.

Lemma pending_ret t : state t <> stateDone -> pending ([], t).
Proof. intros H. split; [apply Forall_nil_2|done]. Qed.

Lemma start_message_pending chunk t : state t <> stateDone -> pending (start_message chunk t).
Proof.
  intros Hd. unfold start_message. destruct (is_state stateInit t); [|by apply pending_ret].
  split; no_completion.
Qed.

Lemma toolArguments_state t i s : state (toolArguments t i s).2 = state t.
Proof. unfold toolArguments. by repeat case_match. Qed.

Lemma toolHeader_state t tc : state (toolHeader t tc).2 = stateBlockActive.
Proof. unfold toolHeader, recordTool, openToolBlock. cbn. repeat (case_match; simplify_eq/=); done. Qed.

Lemma tool_calls_pending tcs t : state t <> stateDone -> pending (translateToolCallDelta t tcs).
Proof.
  intros Hd. split; [apply translateToolCallDelta_quiet|]. revert t Hd.
  induction tcs as [|tc tcs IH]; intros t Hd; cbn; [done|].
  assert (H1 : state (toolCallStep t tc).2 <> stateDone).
  { unfold toolCallStep. destruct (_ =? "")%string; [by rewrite toolArguments_state|]. case_match; [done|].
    pose proof (toolHeader_state t tc) as Hh. destruct (toolHeader t tc) as [ev t1].
    pose proof (toolArguments_state t1 (tcIndex tc) (cfArguments (tcFunction tc))) as Ha.
    destruct (toolArguments _ _ _). cbn in *. congruence. }
  destruct (toolCallStep t tc) as [ev t1]. specialize (IH t1 H1). by destruct (translateToolCallDelta t1 tcs).
Qed.

Lemma reasoning_pending isCJK s t : state t <> stateDone -> pending (reasoning_delta isCJK s t).
Proof.
  intros Hd. unfold reasoning_delta, is_state. destruct (s =? "")%string; [by apply pending_ret|].
  destruct (state t) eqn:Hs; cbn; rewrite ?Hs; cbn; try done; [by apply pending_ret; congruence| |].
  - split; cbn; no_completion.
  - destruct (_ =? "thinking")%string; (split; cbn; [no_completion|congruence]).
Qed.

Lemma content_pending isCJK s t : state t <> stateDone -> pending (content_delta isCJK s t).
Proof.
  intros Hd. unfold content_delta, is_state. destruct (s =? "")%string; [by apply pending_ret|].
  destruct (state t) eqn:Hs; cbn; rewrite ?Hs; cbn; try done; [by apply pending_ret; congruence| |].
  - split; cbn; no_completion.
  - destruct (_ =? "thinking")%string; cbn; [split; cbn; no_completion|]. rewrite Hs. cbn. rewrite Hs. cbn.
    destruct (_ =? "text")%string; (split; cbn; [no_completion|congruence]).
Qed.

Lemma TranslateChunk_pending isCJK t sse :
  unterminated sse = true -> state t <> stateDone -> pending (TranslateChunk isCJK t sse).
Proof.
  intros Hu Hd. unfold unterminated in Hu. unfold TranslateChunk. destruct (Done sse); [done|].
  destruct (Chunk sse) as [chunk|]; [|by apply pending_ret].
  pose proof (start_message_pending chunk t Hd) as H0. destruct (start_message chunk t) as [ev0 t0].
  destruct (chChoices chunk) as [|choice rest]; [split; [apply H0|]; destruct H0, (chUsage chunk); done|].
  pose proof (reasoning_pending isCJK (dReasoningContent (ccDelta choice)) t0 (proj2 H0)) as H1.
  destruct (reasoning_delta _ _ _) as [ev1 t1].
  pose proof (tool_calls_pending (dToolCalls (ccDelta choice)) t1 (proj2 H1)) as H2.
  destruct (translateToolCallDelta _ _) as [ev2 t2].
  pose proof (content_pending isCJK (dContent (ccDelta choice)) t2 (proj2 H2)) as H3.
  destruct (content_delta _ _ _) as [ev3 t3].
  assert (H4 : finish_chunk (ccFinishReason choice) (chUsage chunk) t3 = ([], t3)).
  { unfold finish_chunk. destruct (ccFinishReason choice) as [r|]; [|done]. cbn in Hu. by rewrite Hu. }
  rewrite H4, app_nil_r. by repeat (eapply pending_app; [eassumption|]).
Qed.

Lemma relay_loop_pending isCJK r ch :
  forallb unterminated ch = true -> state (st r) <> stateDone -> no_completion (sent r) -> sawDone r = false ->
  stopped r = false ->
  let r' := relay_loop isCJK (fun _ => true) r ch in
  no_completion (sent r') /\ state (st r') <> stateDone /\ sawDone r' = false /\ stopped r' = false.
Proof.
  revert r; induction ch as [|sse ch IH]; intros r Hu Hd Hq Hs Hst; cbn in *; [done|].
  apply andb_prop in Hu as [Hu1 Hu]. pose proof (TranslateChunk_pending isCJK (st r) sse Hu1 Hd) as [Q D].
  destruct (TranslateChunk isCJK (st r) sse) as [ev t]. rewrite deliver_all. apply IH; cbn; try done.
  - by apply no_completion_app.
  - rewrite Hs. unfold unterminated in Hu1. by destruct (Done sse).
Qed.

Lemma truncated_relay isCJK msgID model est ch :
  forallb unterminated ch = true ->
  exists es, RelayStream isCJK (fun _ => true) msgID model est ch = es ++ [streamInterruptedError; messageStop]
             /\ Forall (fun e => Event e <> "message_delta") (es ++ [streamInterruptedError; messageStop]).
Proof.
  intros Hu. unfold RelayStream.
  destruct (relay_loop_pending isCJK (mkRelay (NewStreamTranslator msgID model est) [] false false) ch Hu)
    as (Q & D & Hs & Hst); [done|apply Forall_nil_2|done..|].
  rewrite Hst, Hs. set (t := st _) in *. set (out := sent _) in *.
  assert (Hc : no_completion (close_dangling t).1).
  { unfold close_dangling. destruct (toolOrder t); [cbn; no_completion|apply closeActiveToolBlock_quiet]. }
  unfold OnProviderDisconnect. destruct (state t); cbn [negb]; [| |destruct (close_dangling t) as [ev t']|done]; cbn [fst];
    eexists; (split; [by rewrite app_assoc|]); (apply Forall_app; split; [|no_completion]); no_completion.
Qed.

(** C27: Truncation is never reported as a completed turn: whatever chunks arrived, malformed ones
    included, a stream that carried neither [Done] nor a finish reason ends in the
    [stream_interrupted] error and [message_stop], and no event of it is a [message_delta]
    (the event that carries a stop reason). *)
Theorem truncation_is_an_error isCJK msgID model est ch :
  forallb unterminated ch = true ->
  exists es, RelayStream isCJK (fun _ => true) msgID model est ch = es ++ [streamInterruptedError; messageStop]
             /\ Forall (fun e => Event e <> "message_delta") (es ++ [streamInterruptedError; messageStop]).
Proof. apply truncated_relay. Qed.

Lemma truncation_is_an_error_witness :
  exists es, RelayStream (fun _ => false) (fun _ => true) "msg_1" "m" 7 (firstn 5 sample_stream)
             = es ++ [streamInterruptedError; messageStop]
             /\ Forall (fun e => Event e <> "message_delta") (es ++ [streamInterruptedError; messageStop]).
Proof. exact (truncation_is_an_error (fun _ => false) "msg_1" "m" 7 (firstn 5 sample_stream) eq_refl). Defined.
