(* ===== verification/ReverseStream.v ===== *)
(** * Anthropic events to OpenAI chunks: [internal/translator/reverse_stream.go]

    The reverse stream translator reads the events of an Anthropic upstream; its
    chunks feed the OpenAI clients directly and the forward translator of
    [Stream.v] for Anthropic clients.  The theorems state what survives that
    round trip. *)

From S2P Require Import Prelude Json Stream StreamSpec.

(** ** Stop reasons ([reverse_response.go]) *)

Definition stopReasonToFinishReasonMap : list (string * string) :=
  [("end_turn", "stop"); ("max_tokens", "length"); ("stop_sequence", "stop"); ("tool_use", "tool_calls")].

Definition stopReasonToFinishReason (reason : string) : string :=
  default "stop" (assoc reason stopReasonToFinishReasonMap).

(** ** State *)

Record ReverseStreamTranslator := mkReverse {
  rsMessageID : string;
  rsModel : string;
  rsInputTokens : Z;
  rsOutputTokens : Z;
  rsCacheReadTokens : Z;
  rsCacheCreationTokens : Z;
  activeToolID : string
}.

Definition NewReverseStreamTranslator : ReverseStreamTranslator := mkReverse "" "" 0 0 0 0 "".

(** A chunk of the current message with one choice. *)
Definition reverse_chunk (t : ReverseStreamTranslator) (d : OpenAIChunkDelta) (fin : option string)
    (usage : option OpenAIUsage) : SSEChunk :=
  mkSSEChunk (Some (mkChunk (rsMessageID t) "chat.completion.chunk" (rsModel t) [mkChoice 0 d fin] usage)) false.

(** [prompt_tokens] of OpenAI includes the cached tokens. *)
Definition promptTotal (t : ReverseStreamTranslator) : Z :=
  rsInputTokens t + rsCacheReadTokens t + rsCacheCreationTokens t.

(** ** Handlers: a decoding error yields no chunk and no state change *)

Definition handleMessageStart (t : ReverseStreamTranslator) (data : json)
    : list SSEChunk * ReverseStreamTranslator :=
  match
    evt ← as_struct data;
    msg ← as_struct (member "message" evt);
    id ← as_string (member "id" msg);
    model ← as_string (member "model" msg);
    usage ← as_struct (member "usage" msg);
    inTok ← as_int (member "input_tokens" usage);
    cr ← as_int (member "cache_read_input_tokens" usage);
    cc ← as_int (member "cache_creation_input_tokens" usage);
    Some (mkReverse id model inTok (rsOutputTokens t) cr cc (activeToolID t))
  with
  | None => ([], t)
  | Some t =>
      ([reverse_chunk t (mkDelta "assistant" "" "" []) None
          (Some (mkUsage (promptTotal t) 0 (promptTotal t) None None 0))], t)
  end.

Definition handleContentBlockStart (t : ReverseStreamTranslator) (data : json)
    : list SSEChunk * ReverseStreamTranslator :=
  match
    evt ← as_struct data;
    index ← as_int (member "index" evt);
    b ← as_struct (member "content_block" evt);
    ty ← as_string (member "type" b);
    id ← as_string (member "id" b);
    name ← as_string (member "name" b);
    Some (index, ty, id, name)
  with
  | None => ([], t)
  | Some (index, ty, id, name) =>
      if String.eqb ty "tool_use" then
        let t := mkReverse (rsMessageID t) (rsModel t) (rsInputTokens t) (rsOutputTokens t)
                   (rsCacheReadTokens t) (rsCacheCreationTokens t) id in
        ([reverse_chunk t (mkDelta "" "" "" [mkChunkTool index id "function" (mkChunkFn name "")]) None None], t)
      else ([], t)
  end.

Definition handleContentBlockDelta (t : ReverseStreamTranslator) (data : json) : list SSEChunk :=
  match
    evt ← as_struct data;
    index ← as_int (member "index" evt);
    d ← as_struct (member "delta" evt);
    ty ← as_string (member "type" d);
    txt ← as_string (member "text" d);
    pj ← as_string (member "partial_json" d);
    Some (index, ty, txt, pj)
  with
  | None => []
  | Some (index, ty, txt, pj) =>
      if String.eqb ty "thinking_delta" then [reverse_chunk t (mkDelta "" "" txt []) None None]
      else if String.eqb ty "text_delta" then [reverse_chunk t (mkDelta "" txt "" []) None None]
      else if String.eqb ty "input_json_delta" then
        if String.eqb (activeToolID t) "" then []
        else [reverse_chunk t (mkDelta "" "" "" [mkChunkTool index "" "" (mkChunkFn "" pj)]) None None]
      else []
  end.

Definition handleMessageDelta (t : ReverseStreamTranslator) (data : json)
    : list SSEChunk * ReverseStreamTranslator :=
  match
    evt ← as_struct data;
    d ← as_struct (member "delta" evt);
    sr ← as_string (member "stop_reason" d);
    usage ← as_struct (member "usage" evt);
    out ← as_int (member "output_tokens" usage);
    Some (sr, out)
  with
  | None => ([], t)
  | Some (sr, out) =>
      let t := mkReverse (rsMessageID t) (rsModel t) (rsInputTokens t) out
                 (rsCacheReadTokens t) (rsCacheCreationTokens t) (activeToolID t) in
      ([reverse_chunk t zero_delta (Some (stopReasonToFinishReason sr))
          (Some (mkUsage (promptTotal t) out (promptTotal t + out) None
                   (if 0 <? rsCacheReadTokens t then Some (rsCacheReadTokens t) else None)
                   (rsCacheCreationTokens t)))], t)
  end.

Definition TranslateEvent (t : ReverseStreamTranslator) (e : SSEEvent)
    : list SSEChunk * ReverseStreamTranslator :=
  if String.eqb (Event e) "message_start" then handleMessageStart t (Data e)
  else if String.eqb (Event e) "content_block_start" then handleContentBlockStart t (Data e)
  else if String.eqb (Event e) "content_block_delta" then (handleContentBlockDelta t (Data e), t)
  else if String.eqb (Event e) "message_delta" then handleMessageDelta t (Data e)
  else if String.eqb (Event e) "message_stop" then ([mkSSEChunk None true], t)
  else ([], t).

(** The read loop of an upstream connection: the events in order. *)
Fixpoint TranslateEvents (t : ReverseStreamTranslator) (es : list SSEEvent)
    : list SSEChunk * ReverseStreamTranslator :=
  match es with
  | [] => ([], t)
  | e :: es =>
      let '(c, t) := TranslateEvent t e in
      let '(cs, t) := TranslateEvents t es in
      (c ++ cs, t)
  end.

(** ** Well-formed Anthropic messages *)

(** A content block of the upstream message with the fragments of its deltas. *)
Inductive ublock :=
  | UThinking (frags : list string)
  | UText (frags : list string)
  | UTool (id name : string) (frags : list string).

Definition block_events (i : Z) (b : ublock) : list SSEEvent :=
  match b with
  | UThinking fs => thinkingBlockStart i :: map (thinkingBlockDelta i) fs
  | UText fs => contentBlockStart i :: map (contentBlockDelta i) fs
  | UTool id name fs => toolUseBlockStart i id name :: map (toolUseArgumentsDelta i) fs
  end ++ [contentBlockStop i].

Fixpoint blocks_events (i : Z) (bs : list ublock) : list SSEEvent :=
  match bs with
  | [] => []
  | b :: bs => block_events i b ++ blocks_events (i + 1) bs
  end.

(** [message_start] of the Anthropic API, cache counts included. *)
Definition upstream_start (id model : string) (inTok cacheRead cacheCreation : Z) : SSEEvent :=
  mkEvent "message_start" (JObj
    [("type", JStr "message_start");
     ("message", JObj
       [("id", JStr id); ("type", JStr "message"); ("role", JStr "assistant"); ("content", JArr []);
        ("model", JStr model);
        ("usage", JObj [("input_tokens", JNum inTok); ("cache_read_input_tokens", JNum cacheRead);
                        ("cache_creation_input_tokens", JNum cacheCreation); ("output_tokens", JNum 0)])])]).

Definition upstream_message (start : SSEEvent) (bs : list ublock) (reason : string) (out : Z) : list SSEEvent :=
  start :: blocks_events 0 bs ++ [messageDelta reason out; messageStop].

Definition join (fs : list string) : string := foldr String.append "" fs.

(** The text before the first tool call, and the tool calls. *)
Fixpoint leading_text (bs : list ublock) : string :=
  match bs with
  | [] => ""
  | UText fs :: bs => join fs +:+ leading_text bs
  | UThinking _ :: bs => leading_text bs
  | UTool _ _ _ :: _ => ""
  end.

Fixpoint calls_from (i : Z) (bs : list ublock) : list call :=
  match bs with
  | [] => []
  | UTool id name fs :: bs => mkCall i id name (join fs) :: calls_from (i + 1) bs
  | _ :: bs => calls_from (i + 1) bs
  end.

Definition tool_blocks (bs : list ublock) : list block :=
  omap (fun b => match b with UTool id name fs => Some (BToolUse id name (join fs)) | _ => None end) bs.

Definition text_block (s : string) : list block := if String.eqb s "" then [] else [BText s].

(** Ids are not empty and the arguments of a call stay within the buffer cap. *)
Definition ublock_ok (b : ublock) : bool :=
  match b with
  | UTool id _ fs => negb (String.eqb id "") && (Z.of_nat (String.length (join fs)) <=? 1048576)
  | _ => true
  end.

(** ** Round trip *)

Section RoundTrip.
Context (isCJK : Z -> bool).

(** The content read so far, whatever its token count. *)
Record holds (txt : string) (cs : list call) (a : content) : Prop := {
  h_thinking : thinking a = None;
  h_finish : finish a = None;
  h_text : text a = if String.eqb txt "" then None else Some txt;
  h_calls : calls a = cs
}.

(** From any content that [holds] the first part, the chunks lead to one that
    [holds] the second. *)
Definition takes (ch : list SSEChunk) (txt : string) (cs : list call) (txt' : string) (cs' : list call) : Prop :=
  forall a, holds txt cs a -> exists a', add_chunks isCJK a ch = Some a' /\ holds txt' cs' a'.

Lemma add_chunks_app ch ch' a :
  add_chunks isCJK a (ch ++ ch') = match add_chunks isCJK a ch with Some a => add_chunks isCJK a ch' | None => None end.
Proof. revert a; induction ch as [|x ch IH]; intros a; cbn; [done|]. destruct (add_chunk _ a x); auto. Qed.

Lemma takes_nil txt cs : takes [] txt cs txt cs.
Proof. intros a Ha. by exists a. Qed.

Lemma takes_app ch1 ch2 t0 c0 t1 c1 t2 c2 :
  takes ch1 t0 c0 t1 c1 -> takes ch2 t1 c1 t2 c2 -> takes (ch1 ++ ch2) t0 c0 t2 c2.
Proof.
  intros H1 H2 a Ha. destruct (H1 a Ha) as (a1 & E1 & Ha1). destruct (H2 a1 Ha1) as (a2 & E2 & Ha2).
  exists a2. by rewrite add_chunks_app, E1.
Qed.

Lemma takes_one t d txt cs txt' cs' :
  (forall a, holds txt cs a -> exists a1,
     add_tools (dToolCalls d) (add_reasoning isCJK (dReasoningContent d) a) = Some a1 /\
     holds txt' cs' (add_text isCJK (dContent d) a1)) ->
  takes [reverse_chunk t d None None] txt cs txt' cs'.
Proof.
  intros H a Ha. destruct (H a Ha) as (a1 & E1 & H1). exists (add_text isCJK (dContent d) a1). split; [|done].
  unfold add_chunks, add_chunk, reverse_chunk. cbn [Done Chunk chChoices ccDelta ccFinishReason chUsage].
  destruct Ha as [_ -> _ _]. by rewrite E1.
Qed.

Lemma str_app_empty s s' : s +:+ s' = "" <-> s = "" /\ s' = "".
Proof. destruct s; cbn; [|split; [done|intros []; done]]. split; [done|tauto]. Qed.

Lemma eqb_app s d : d <> "" -> (s +:+ d =? "")%string = false.
Proof. intros Hd. apply String.eqb_neq. rewrite str_app_empty. tauto. Qed.

Lemma takes_text t d txt :
  takes [reverse_chunk t (mkDelta "" d "" []) None None] txt [] (txt +:+ d) [].
Proof.
  apply takes_one. intros a [Ht Hf Hx Hc]. cbn. exists a. unfold add_reasoning, add_tools. cbn.
  split; [destruct a as [th tx cs n f]; cbn in *; subst; by destruct (txt =? "")%string|].
  unfold add_text. rewrite Hc. destruct (String.eqb_spec d "") as [->|Hd]; [by split; rewrite ?string_app_empty_r|].
  split; cbn; try done. unfold snoc_str. rewrite Hx, eqb_app by done.
  destruct (String.eqb_spec txt "") as [->|]; done.
Qed.

Lemma takes_text_late t d txt c cs :
  takes [reverse_chunk t (mkDelta "" d "" []) None None] txt (c :: cs) txt (c :: cs).
Proof.
  apply takes_one. intros a [Ht Hf Hx Hc]. cbn. exists a. unfold add_reasoning, add_tools. cbn.
  rewrite Hc. split; [by destruct a as [th tx xs n f]; cbn in *; subst; destruct (txt =? "")%string|].
  unfold add_text. by rewrite Hc.
Qed.

Lemma takes_thinking t txt cs : takes [reverse_chunk t (mkDelta "" "" "" []) None None] txt cs txt cs.
Proof.
  apply takes_one. intros a [Ht Hf Hx Hc]. cbn. exists a. unfold add_reasoning, add_tools, add_text. cbn.
  split; [destruct a as [th tx xs n f]; cbn in *; by destruct tx, xs|].
  by destruct (calls a) eqn:E; split; rewrite ?E.
Qed.

Lemma takes_tool t tc txt cs cs' :
  add_call tc cs = Some cs' ->
  takes [reverse_chunk t (mkDelta "" "" "" [tc]) None None] txt cs txt cs'.
Proof.
  intros E. apply takes_one. intros a [Ht Hf Hx Hc]. cbn [dToolCalls dReasoningContent dContent].
  exists (with_calls cs' a).
  assert (Hr : add_reasoning isCJK "" a = a) by (unfold add_reasoning; by destruct (text a), (calls a)).
  rewrite Hr. unfold add_tools. cbn [add_calls]. rewrite Hc, E. split; [done|].
  unfold add_text. by destruct (calls (with_calls cs' a)) eqn:E'; split; rewrite ?E'.
Qed.

(** *** Blocks *)

Lemma TranslateEvents_app t es es' :
  TranslateEvents t (es ++ es') =
  let '(c, t) := TranslateEvents t es in let '(c', t) := TranslateEvents t es' in (c ++ c', t).
Proof.
  revert t; induction es as [|e es IH]; intros t; cbn; [by destruct (TranslateEvents t es')|].
  destruct (TranslateEvent t e) as [c t1]. rewrite IH. destruct (TranslateEvents t1 es) as [c1 t2].
  destruct (TranslateEvents t2 es') as [c2 t3]. by rewrite app_assoc.
Qed.

Lemma TranslateEvents_cons t e es c t1 :
  TranslateEvent t e = (c, t1) ->
  TranslateEvents t (e :: es) = let '(cs, t2) := TranslateEvents t1 es in (c ++ cs, t2).
Proof. intros E. cbn. by rewrite E. Qed.

Lemma append_args_last i f cs id name acc :
  ~ i ∈ map callIndex cs -> Z.of_nat (String.length acc) <= 1048576 ->
  append_args i f (cs ++ [mkCall i id name acc]) = cs ++ [mkCall i id name (acc +:+ f)].
Proof.
  intros Hi Hacc.
  assert (Hc : on_call (add_capped f) i (mkCall i id name acc) = mkCall i id name (acc +:+ f)).
  { unfold on_call, add_capped. cbn [callIndex callArgs]. rewrite Z.eqb_refl. by rewrite (proj2 (Z.leb_le _ _) Hacc). }
  destruct cs as [|c cs]; cbn [app append_args].
  { unfold on_call. cbn [callIndex]. by rewrite Z.eqb_refl. }
  cbn in Hi. apply not_elem_of_cons in Hi as [Hc0 Hcs].
  unfold on_call at 1. rewrite (proj2 (Z.eqb_neq _ _)) by congruence.
  rewrite map_app, map_on_call_absent by done. cbn [map]. by rewrite Hc.
Qed.

(** The events of a message, one at a time. *)
Ltac reverse_event Hi :=
  unfold TranslateEvent, handleContentBlockStart, handleContentBlockDelta; cbn -[as_int]; rewrite (as_int_num _ Hi); cbn.

Lemma reverse_text_delta t i f : in_int64 i ->
  TranslateEvent t (contentBlockDelta i f) = ([reverse_chunk t (mkDelta "" f "" []) None None], t).
Proof. intros Hi. by reverse_event Hi. Qed.

Lemma reverse_thinking_delta t i f : in_int64 i ->
  TranslateEvent t (thinkingBlockDelta i f) = ([reverse_chunk t (mkDelta "" "" "" []) None None], t).
Proof. intros Hi. by reverse_event Hi. Qed.

Lemma reverse_args_delta t i f : in_int64 i -> activeToolID t <> "" ->
  TranslateEvent t (toolUseArgumentsDelta i f)
  = ([reverse_chunk t (mkDelta "" "" "" [mkChunkTool i "" "" (mkChunkFn "" f)]) None None], t).
Proof. intros Hi Ha. reverse_event Hi. by rewrite (proj2 (String.eqb_neq _ _) Ha). Qed.

Definition with_tool (id : string) (t : ReverseStreamTranslator) : ReverseStreamTranslator :=
  mkReverse (rsMessageID t) (rsModel t) (rsInputTokens t) (rsOutputTokens t) (rsCacheReadTokens t)
    (rsCacheCreationTokens t) id.

Lemma reverse_tool_start t i id name : in_int64 i ->
  TranslateEvent t (toolUseBlockStart i id name)
  = ([reverse_chunk (with_tool id t) (mkDelta "" "" "" [mkChunkTool i id "function" (mkChunkFn name "")]) None None],
     with_tool id t).
Proof. intros Hi. by reverse_event Hi. Qed.

(** A start event other than of a tool call carries no chunk. *)
Lemma reverse_block_start t i e : in_int64 i -> e = contentBlockStart i \/ e = thinkingBlockStart i -> TranslateEvent t e = ([], t).
Proof. intros Hi [-> | ->]; by reverse_event Hi. Qed.

(** The fragments of a text block. *)
Lemma text_frags i fs t txt : in_int64 i ->
  exists ch, TranslateEvents t (map (contentBlockDelta i) fs) = (ch, t) /\ takes ch txt [] (txt +:+ join fs) [].
Proof.
  intros Hi. revert txt; induction fs as [|f fs IH]; intros txt; cbn [map TranslateEvents join foldr].
  { exists []. rewrite string_app_empty_r. split; [done|apply takes_nil]. }
  rewrite reverse_text_delta by done. destruct (IH (txt +:+ f)) as (ch & -> & H). eexists. split; [reflexivity|].
  rewrite string_app_assoc. eapply takes_app; [|exact H]. apply takes_text.
Qed.

Lemma text_frags_late i fs t txt c cs : in_int64 i ->
  exists ch, TranslateEvents t (map (contentBlockDelta i) fs) = (ch, t) /\ takes ch txt (c :: cs) txt (c :: cs).
Proof.
  intros Hi. induction fs as [|f fs (ch & E & H)]; cbn [map TranslateEvents]; [exists []; split; [done|apply takes_nil]|].
  rewrite reverse_text_delta, E by done. eexists. split; [reflexivity|]. eapply takes_app; [|exact H]. apply takes_text_late.
Qed.

Lemma thinking_frags i fs t txt cs : in_int64 i ->
  exists ch, TranslateEvents t (map (thinkingBlockDelta i) fs) = (ch, t) /\ takes ch txt cs txt cs.
Proof.
  intros Hi. induction fs as [|f fs (ch & E & H)]; cbn [map TranslateEvents]; [exists []; split; [done|apply takes_nil]|].
  rewrite reverse_thinking_delta, E by done. eexists. split; [reflexivity|]. eapply takes_app; [|exact H]. apply takes_thinking.
Qed.

Lemma tool_frags i fs t txt cs id name acc :
  in_int64 i -> activeToolID t <> "" -> ~ i ∈ map callIndex cs ->
  Z.of_nat (String.length (acc +:+ join fs)) <= 1048576 ->
  exists ch, TranslateEvents t (map (toolUseArgumentsDelta i) fs) = (ch, t) /\
    takes ch txt (cs ++ [mkCall i id name acc]) txt (cs ++ [mkCall i id name (acc +:+ join fs)]).
Proof.
  intros H64 Ha Hi. revert acc; induction fs as [|f fs IH]; intros acc Hlen; cbn [map TranslateEvents join foldr].
  { exists []. rewrite string_app_empty_r. split; [done|apply takes_nil]. }
  change (join (f :: fs)) with (f +:+ join fs) in Hlen. change (foldr String.append "" fs) with (join fs).
  rewrite string_app_assoc in Hlen.
  rewrite reverse_args_delta by done. destruct (IH (acc +:+ f) Hlen) as (ch & -> & H). eexists. split; [reflexivity|].
  rewrite string_app_assoc. apply (takes_app [_] ch _ _ txt (cs ++ [mkCall i id name (acc +:+ f)])); [|exact H].
  apply takes_tool. unfold add_call. cbn. rewrite append_args_last; [done|done|].
  rewrite !string_length_app in Hlen. lia.
Qed.

(** A stop event and a start event other than of a tool call carry no chunk. *)
Lemma block_events_reverse i b t ch t' :
  in_int64 i ->
  TranslateEvents (match b with UTool id _ _ => with_tool id t | _ => t end)
    (match b with UThinking fs => map (thinkingBlockDelta i) fs | UText fs => map (contentBlockDelta i) fs
                | UTool _ _ fs => map (toolUseArgumentsDelta i) fs end) = (ch, t') ->
  TranslateEvents t (block_events i b) =
  (match b with
   | UTool id name _ =>
       [reverse_chunk (with_tool id t) (mkDelta "" "" "" [mkChunkTool i id "function" (mkChunkFn name "")]) None None]
   | _ => []
   end ++ ch, t').
Proof.
  intros Hi E. unfold block_events. rewrite TranslateEvents_app.
  destruct b as [fs|fs|id name fs]; erewrite TranslateEvents_cons by
      first [apply (reverse_block_start t i); [done|by auto]|by apply reverse_tool_start];
    rewrite E; cbn; by rewrite app_nil_r.
Qed.

Lemma indices_below i cs : Forall (fun c => callIndex c < i) cs -> ~ i ∈ map callIndex cs.
Proof.
  rewrite Forall_forall. intros H (c & -> & Hc)%list_elem_of_fmap. specialize (H c Hc). cbn in H. lia.
Qed.

Lemma block_takes b i t txt cs :
  ublock_ok b = true -> 0 <= i < 2 ^ 63 -> Forall (fun c => callIndex c < i) cs ->
  exists ch t', TranslateEvents t (block_events i b) = (ch, t') /\
    takes ch txt cs (match b, cs with UText fs, [] => txt +:+ join fs | _, _ => txt end)
      (match b with UTool id name fs => cs ++ [mkCall i id name (join fs)] | _ => cs end).
Proof.
  intros Hok [Hi Hi'] Hcs. assert (H64 : in_int64 i) by (unfold in_int64; lia). pose proof (indices_below i cs Hcs) as Hni. destruct b as [fs|fs|id name fs].
  - destruct (thinking_frags i fs t txt cs H64) as (ch & E & H). exists ch, t. split; [|done].
    exact (block_events_reverse i (UThinking fs) t ch t H64 E).
  - destruct cs as [|c cs].
    + destruct (text_frags i fs t txt H64) as (ch & E & H). exists ch, t. split; [|done].
      exact (block_events_reverse i (UText fs) t ch t H64 E).
    + destruct (text_frags_late i fs t txt c cs H64) as (ch & E & H). exists ch, t. split; [|done].
      exact (block_events_reverse i (UText fs) t ch t H64 E).
  - cbn in Hok. apply andb_prop in Hok as [Hid Hlen]. apply negb_true_iff, String.eqb_neq in Hid. apply Z.leb_le in Hlen.
    destruct (tool_frags i fs (with_tool id t) txt cs id name "") as (ch & E & H); [done..|].
    eexists _, _. split; [exact (block_events_reverse i (UTool id name fs) t ch _ H64 E)|].
    eapply takes_app; [|exact H]. apply takes_tool. unfold add_call. cbn.
    rewrite (proj2 (String.eqb_neq _ _) Hid), (proj2 (Z.ltb_ge _ _) Hi), (proj2 (find_call_None _ _) Hni).
    by rewrite append_args_nil.
Qed.

Lemma blocks_takes bs i t txt cs :
  forallb ublock_ok bs = true -> 0 <= i -> i + Z.of_nat (length bs) < 2 ^ 63 -> Forall (fun c => callIndex c < i) cs ->
  exists ch t', TranslateEvents t (blocks_events i bs) = (ch, t') /\
    takes ch txt cs (txt +:+ match cs with [] => leading_text bs | _ => "" end) (cs ++ calls_from i bs).
Proof.
  revert i t txt cs; induction bs as [|b bs IH]; intros i t txt cs Hok Hi Hl Hcs.
  { exists [], t. rewrite app_nil_r. split; [done|]. destruct cs; rewrite string_app_empty_r; apply takes_nil. }
  cbn in Hok. apply andb_prop in Hok as [Hb Hbs]. cbn [length] in Hl. cbn [blocks_events]. rewrite TranslateEvents_app.
  destruct (block_takes b i t txt cs Hb ltac:(lia) Hcs) as (ch & t1 & -> & H1).
  assert (Hcs1 : Forall (fun c => callIndex c < i + 1)
            (match b with UTool id name fs => cs ++ [mkCall i id name (join fs)] | _ => cs end)).
  { assert (Forall (fun c => callIndex c < i + 1) cs) by (eapply Forall_impl; [exact Hcs|]; intros c Hc; cbn in Hc; lia).
    destruct b; [done..|]. apply Forall_app. split; [done|]. apply Forall_singleton. cbn. lia. }
  edestruct (IH (i + 1) t1) as (ch2 & t2 & -> & H2); [exact Hbs|lia|lia|exact Hcs1|].
  eexists _, _. split; [reflexivity|]. pose proof (takes_app _ _ _ _ _ _ _ _ H1 H2) as H. clear -H.
  destruct b as [fs|fs|id name fs], cs; cbn [leading_text calls_from app] in *;
    rewrite <- ?string_app_assoc, ?string_app_empty_r in *; try exact H; by rewrite <- app_assoc in H.
Qed.
End RoundTrip.

Lemma calls_from_blocks i bs : map call_block (calls_from i bs) = tool_blocks bs.
Proof.
  revert i; induction bs as [|b bs IH]; intros i; [done|].
  destruct b; cbn; rewrite ?IH; done.
Qed.

Lemma holds_blocks txt cs a : holds txt cs a -> blocks a = text_block txt ++ map call_block cs.
Proof.
  intros [Ht _ Hx Hc]. unfold blocks, prefix_blocks, text_block. rewrite Ht, Hx, Hc.
  by destruct (txt =? "")%string.
Qed.

(** The stop reason after both mappings. *)
Definition stop_image (reason : string) : string := finishReasonToStopReason (stopReasonToFinishReason reason).

Lemma stopReasonToFinishReason_nonempty reason : (stopReasonToFinishReason reason =? "")%string = false.
Proof. unfold stopReasonToFinishReason, stopReasonToFinishReasonMap. cbn. repeat case_match; done. Qed.

(** A chunk without reasoning, text or calls only ends the content. *)
Lemma bare_chunk isCJK a t role fin usage :
  finish a = None ->
  add_chunk isCJK a (reverse_chunk t (mkDelta role "" "" []) fin usage) = Some (end_content fin usage a).
Proof.
  intros Hf. unfold add_chunk, reverse_chunk. cbn [Done Chunk chChoices ccDelta ccFinishReason chUsage dToolCalls
    dReasoningContent dContent]. rewrite Hf.
  assert (Hr : add_reasoning isCJK "" a = a) by (unfold add_reasoning; by destruct (text a), (calls a)).
  assert (Hx : add_text isCJK "" a = a) by (unfold add_text; by destruct (calls a)).
  assert (Ht : add_tools [] a = Some a) by (by destruct a). rewrite Hr, Ht.
  cbn [fmap option_fmap option_map]. by rewrite Hx.
Qed.

(** The numbers of a message fit their fields. *)
Definition counts_fit (inTok cr cc out : Z) (bs : list ublock) : Prop :=
  in_int64 inTok /\ in_int64 cr /\ in_int64 cc /\ in_int64 out /\ Z.of_nat (length bs) < 2 ^ 63.

Lemma reverse_message_start t id model inTok cr cc : in_int64 inTok -> in_int64 cr -> in_int64 cc ->
  TranslateEvent t (upstream_start id model inTok cr cc) = (let t := mkReverse id model inTok (rsOutputTokens t) cr cc (activeToolID t) in
    ([reverse_chunk t (mkDelta "assistant" "" "" []) None (Some (mkUsage (promptTotal t) 0 (promptTotal t) None None 0))], t)).
Proof.
  intros H1 H2 H3. unfold TranslateEvent, handleMessageStart. cbn -[as_int promptTotal].
  by rewrite (as_int_num _ H1), (as_int_num _ H2), (as_int_num _ H3).
Qed.

Lemma reverse_message_delta t reason out : in_int64 out ->
  TranslateEvent t (messageDelta reason out) = (let t := mkReverse (rsMessageID t) (rsModel t) (rsInputTokens t) out (rsCacheReadTokens t) (rsCacheCreationTokens t) (activeToolID t) in
    ([reverse_chunk t zero_delta (Some (stopReasonToFinishReason reason)) (Some (mkUsage (promptTotal t) out (promptTotal t + out) None
        (if 0 <? rsCacheReadTokens t then Some (rsCacheReadTokens t) else None) (rsCacheCreationTokens t)))], t)).
Proof. intros H. unfold TranslateEvent, handleMessageDelta. cbn -[as_int promptTotal]. by rewrite (as_int_num _ H). Qed.

Lemma upstream_content isCJK id model inTok cr cc bs reason out :
  forallb ublock_ok bs = true -> counts_fit inTok cr cc out bs -> 0 < out ->
  exists a, add_chunks isCJK no_content
    (TranslateEvents NewReverseStreamTranslator (upstream_message (upstream_start id model inTok cr cc) bs reason out)).1
    = Some a /\ blocks a = text_block (leading_text bs) ++ tool_blocks bs /\ finish a = Some (stop_image reason, out).
Proof.
  intros Hok (Hin & Hcr & Hcc & Ho & Hlen) Hout. unfold upstream_message.
  erewrite TranslateEvents_cons by (by apply reverse_message_start). set (t0 := mkReverse _ _ _ _ _ _ _).
  rewrite TranslateEvents_app.
  destruct (blocks_takes isCJK bs 0 t0 "" [] Hok ltac:(lia) ltac:(lia) ltac:(done)) as (ch & t1 & -> & H).
  erewrite TranslateEvents_cons by (by apply reverse_message_delta). set (t2 := mkReverse _ _ _ _ _ _ _).
  erewrite TranslateEvents_cons by reflexivity. cbn [TranslateEvents].
  destruct (H no_content) as (a & Ea & Ha); [done|]. cbn [fst app].
  eexists. split.
  { cbn [add_chunks]. rewrite bare_chunk by done. cbn [end_content]. rewrite add_chunks_app, Ea.
    cbn [add_chunks]. unfold zero_delta. rewrite bare_chunk by apply Ha. reflexivity. }
  unfold end_content. rewrite stopReasonToFinishReason_nonempty. split.
  - rewrite <- (calls_from_blocks 0 bs). exact (holds_blocks _ _ _ Ha).
  - cbn -[Z.ltb]. by rewrite (proj2 (Z.ltb_lt _ _) Hout).
Qed.

(** An Anthropic upstream behind an Anthropic client: the reverse translation of a
    well-formed message followed by the forward one hands the client a well-formed message
    with the text that precedes the first tool call, every tool call with its id, name and
    complete arguments, the output token count and the image of the stop reason, when the
    counts fit their fields.  Thinking, and text after the first tool call, do not survive. *)
Theorem anthropic_passthrough isCJK id model inTok cr cc bs reason out msgID model' est :
  forallb ublock_ok bs = true -> counts_fit inTok cr cc out bs -> 0 < out ->
  read_events CBefore
    (RelayStream isCJK (fun _ => true) msgID model' est
       (TranslateEvents NewReverseStreamTranslator
          (upstream_message (upstream_start id model inTok cr cc) bs reason out)).1)
  = Some (CStopped (text_block (leading_text bs) ++ tool_blocks bs) (Completed (stop_image reason) out)).
Proof.
  intros Hok Hfit Hout. destruct (upstream_content isCJK id model inTok cr cc bs reason out Hok Hfit Hout) as (a & Ea & Hb & Hf).
  rewrite (relay_stream_reads _ _ _ _ _ _ Ea), Hb. unfold outcome_of. by rewrite Hf.
Qed.

Definition sample_message : list ublock :=
  [UThinking ["hm"]; UText ["Let "; "me see"]; UTool "t1" "ls" ["[1"; ",2]"]; UTool "t2" "cat" []].

Lemma anthropic_passthrough_witness :
  read_events CBefore
    (RelayStream (fun _ => false) (fun _ => true) "msg_1" "m" 3
       (TranslateEvents NewReverseStreamTranslator
          (upstream_message (upstream_start "up" "claude" 10 4 0) sample_message "tool_use" 9)).1)
  = Some (CStopped [BText "Let me see"; BToolUse "t1" "ls" "[1,2]"; BToolUse "t2" "cat" ""]
            (Completed "tool_use" 9)).
Proof.
  exact (anthropic_passthrough (fun _ => false) "up" "claude" 10 4 0 sample_message "tool_use" 9 "msg_1" "m" 3
           eq_refl ltac:(unfold counts_fit, in_int64; cbn; lia) eq_refl).
Defined.

(** The loss of thinking: the upstream's deltas carry it in [thinking], the handler reads [text]. *)
Theorem reasoning_is_lost i s t : in_int64 i ->
  handleContentBlockDelta t (Data (thinkingBlockDelta i s)) = [reverse_chunk t zero_delta None None].
Proof. intros Hi. unfold handleContentBlockDelta. cbn -[as_int]. by rewrite (as_int_num _ Hi). Qed.
