(* ===== verification/Sse.v ===== *)
(** * Upstream SSE read loops: [provider/openai_compatible.go], [provider/anthropic.go]

    The loops that turn the lines of an upstream event stream into chunks, and
    decide whether the stream ended cleanly.  The scanner's lines are the input;
    [parse] is the JSON syntax of [encoding/json], and the decoding of its trees
    into structs is modelled.  [send] is the consumer: whether the next chunk,
    given those already sent, is taken before the context is cancelled. *)

From S2P Require Import Prelude Json Stream StreamSpec ReverseStream.

(** ** Decoding a chunk *)

Definition as_list (j : json) : option (list json) :=
  match j with JNull => Some [] | JArr l => Some l | _ => None end.

(** A pointer field: null leaves it nil. *)
Definition as_ptr {A} (dec : json -> option A) (j : json) : option (option A) :=
  match j with JNull => Some None | _ => Some <$> dec j end.

Fixpoint decode_all {A} (dec : json -> option A) (l : list json) : option (list A) :=
  match l with
  | [] => Some []
  | j :: l => x ← dec j; xs ← decode_all dec l; Some (x :: xs)
  end.

Definition as_slice {A} (dec : json -> option A) (j : json) : option (list A) :=
  l ← as_list j; decode_all dec l.

Definition decode_tool_call (j : json) : option OpenAIChunkToolCall :=
  o ← as_struct j;
  i ← as_int (member "index" o);
  id ← as_string (member "id" o);
  ty ← as_string (member "type" o);
  f ← as_struct (member "function" o);
  name ← as_string (member "name" f);
  args ← as_string (member "arguments" f);
  Some (mkChunkTool i id ty (mkChunkFn name args)).

Definition decode_delta (j : json) : option OpenAIChunkDelta :=
  o ← as_struct j;
  role ← as_string (member "role" o);
  c ← as_string (member "content" o);
  r ← as_string (member "reasoning_content" o);
  tcs ← as_slice decode_tool_call (member "tool_calls" o);
  Some (mkDelta role c r tcs).

Definition decode_choice (j : json) : option OpenAIChunkChoice :=
  o ← as_struct j;
  i ← as_int (member "index" o);
  d ← decode_delta (member "delta" o);
  fr ← as_ptr as_string (member "finish_reason" o);
  Some (mkChoice i d fr).

(** A details object with one count. *)
Definition decode_count (k : string) (j : json) : option Z := o ← as_struct j; as_int (member k o).

Definition decode_usage (j : json) : option OpenAIUsage :=
  o ← as_struct j;
  p ← as_int (member "prompt_tokens" o);
  c ← as_int (member "completion_tokens" o);
  t ← as_int (member "total_tokens" o);
  cd ← as_ptr (decode_count "reasoning_tokens") (member "completion_tokens_details" o);
  pd ← as_ptr (decode_count "cached_tokens") (member "prompt_tokens_details" o);
  Some (mkUsage p c t cd pd 0).

Definition decode_chunk (j : json) : option OpenAIChunk :=
  o ← as_struct j;
  id ← as_string (member "id" o);
  obj ← as_string (member "object" o);
  _ ← as_int (member "created" o);
  model ← as_string (member "model" o);
  cs ← as_slice decode_choice (member "choices" o);
  u ← as_ptr decode_usage (member "usage" o);
  _ ← as_string (member "system_fingerprint" o);
  Some (mkChunk id obj model cs u).

(** [upstreamStreamError]: the probe decodes and its error object is present. *)
Definition error_frame (j : json) : bool :=
  match o ← as_struct j; as_ptr (fun e => e ← as_struct e; as_string (member "type" e)) (member "error" o) with
  | Some (Some _) => true
  | _ => false
  end.

(** ** The OpenAI-compatible loop *)

Definition TrimPrefix (s p : string) : string :=
  if HasPrefix s p then String.substring (String.length p) (String.length s - String.length p) s else s.

Record SseState := mkSse {
  choiceSeen : gset Z;
  choiceFinished : gset Z;
  sawParseError : bool;
  sawUpstreamError : bool
}.

Definition sse_init : SseState := mkSse ∅ ∅ false false.

Definition finished_choice (c : OpenAIChunkChoice) : bool :=
  match ccFinishReason c with Some r => negb (String.eqb r "") | None => false end.

(** The bookkeeping of one decoded chunk. *)
Definition see_choices (cs : list OpenAIChunkChoice) (s : SseState) : SseState :=
  mkSse (choiceSeen s ∪ list_to_set (ccIndex <$> cs))
        (choiceFinished s ∪ list_to_set (ccIndex <$> List.filter finished_choice cs))
        (sawParseError s) (sawUpstreamError s).

Definition poison_parse (s : SseState) : SseState :=
  mkSse (choiceSeen s) (choiceFinished s) true (sawUpstreamError s).

Definition poison_error (b : bool) (s : SseState) : SseState :=
  mkSse (choiceSeen s) (choiceFinished s) (sawParseError s) (sawUpstreamError s || b).

Section ReadLoop.
Context (parse : string -> option json).
Context (send : list SSEChunk -> SSEChunk -> bool).

(** [sendSSEChunkActivity]: delivered, or dropped because the context ended. *)
Definition push (out : list SSEChunk) (c : SSEChunk) : list SSEChunk * bool :=
  if send out c then (out ++ [c], true) else (out, false).

(** The scanner loop: the chunks sent and, when the lines ran out, the state. *)
Fixpoint read_lines (lines : list string) (s : SseState) (out : list SSEChunk)
    : list SSEChunk * option SseState :=
  match lines with
  | [] => (out, Some s)
  | line :: lines =>
      if String.eqb line "" || HasPrefix line ":" then read_lines lines s out
      else if HasPrefix line "data: " then
        let data := TrimPrefix line "data: " in
        if String.eqb data "[DONE]" then
          if sawParseError s || sawUpstreamError s then (out, None)
          else (fst (push out (mkSSEChunk None true)), None)
        else
          match parse data with
          | None => read_lines lines (poison_parse s) out
          | Some j =>
              match decode_chunk j with
              | None => read_lines lines (poison_parse s) out
              | Some chunk =>
                  let s := see_choices (chChoices chunk) (poison_error (error_frame j) s) in
                  let '(out, ok) := push out (mkSSEChunk (Some chunk) false) in
                  if ok then read_lines lines s out else (out, None)
              end
          end
      else read_lines lines s out
  end.

(** The first [n] indices. *)
Definition all_finished (n : Z) (fin : gset Z) : bool :=
  forallb (fun i => bool_decide (i ∈ fin)) (Z.of_nat <$> seq 0 (Z.to_nat n)).

(** [readErr]: [scanner.Err()]; [ctxErr]: [ctx.Err()] after the loop. *)
Definition readSSEStream (lines : list string) (readErr ctxErr : bool) (expectedChoices : Z) : list SSEChunk :=
  match read_lines lines sse_init [] with
  | (out, None) => out
  | (out, Some s) =>
      if readErr then out
      else if ctxErr then out
      else if sawParseError s || sawUpstreamError s || (expectedChoices <? 1) then out
      else if negb (Nat.eqb (size (choiceFinished s)) (size (choiceSeen s))) then out
      else if negb (all_finished expectedChoices (choiceFinished s)) then out
      else fst (push out (mkSSEChunk None true))
  end.

(** ** The Anthropic loop *)

(** [eventType] is cleared by each data line; a decode error of the event yields
    no chunk ([TranslateEvent] on an undecodable payload). *)
Fixpoint push_all (out : list SSEChunk) (cs : list SSEChunk) : list SSEChunk * bool :=
  match cs with
  | [] => (out, true)
  | c :: cs => let '(out, ok) := push out c in if ok then push_all out cs else (out, false)
  end.

(** A payload that is not JSON: the decoding handlers return no chunk;
    [message_stop] does not look at its payload. *)
Definition translate_payload (t : ReverseStreamTranslator) (ev : string) (data : option json)
    : list SSEChunk * ReverseStreamTranslator :=
  match data with
  | Some j => TranslateEvent t (mkEvent ev j)
  | None => if String.eqb ev "message_stop" then ([mkSSEChunk None true], t) else ([], t)
  end.

Fixpoint readAnthropicSSE (lines : list string) (t : ReverseStreamTranslator) (eventType : string)
    (sawError : bool) (out : list SSEChunk) : list SSEChunk :=
  match lines with
  | [] => out
  | line :: lines =>
      if String.eqb line "" then readAnthropicSSE lines t eventType sawError out
      else if HasPrefix line "event: " then
        readAnthropicSSE lines t (TrimPrefix line "event: ") sawError out
      else if HasPrefix line "data: " then
        if String.eqb eventType "error" then readAnthropicSSE lines t "" true out
        else if String.eqb eventType "message_stop" && sawError then readAnthropicSSE lines t "" sawError out
        else
          let '(cs, t) := translate_payload t eventType (parse (TrimPrefix line "data: ")) in
          let '(out, ok) := push_all out cs in
          if ok then readAnthropicSSE lines t "" sawError out else out
      else readAnthropicSSE lines t eventType sawError out
  end.
End ReadLoop.

(** ** Specification of the OpenAI-compatible loop *)

(** The payload of a data line; blank, comment and other lines have none. *)
Definition payload (line : string) : option string :=
  if String.eqb line "" || HasPrefix line ":" then None
  else if HasPrefix line "data: " then Some (TrimPrefix line "data: ") else None.

(** The payloads before the terminal sentinel, and whether it came. *)
Fixpoint before_done (ps : list string) : list string :=
  match ps with
  | [] => []
  | p :: ps => if String.eqb p "[DONE]" then [] else p :: before_done ps
  end.

Definition done_seen (ps : list string) : bool := existsb (fun p => String.eqb p "[DONE]") ps.

Section Spec.
Context (parse : string -> option json).

Definition decoded (p : string) : option OpenAIChunk := j ← parse p; decode_chunk j.

(** A malformed payload or an error frame. *)
Definition broken (p : string) : bool :=
  match parse p with
  | Some j => match decode_chunk j with Some _ => error_frame j | None => true end
  | None => true
  end.

Definition finished_index (cs : list OpenAIChunkChoice) (i : Z) : bool :=
  existsb (fun c => Z.eqb (ccIndex c) i && finished_choice c) cs.

(** The stream may be reported as complete: nothing in it was broken, and either the
    sentinel came or the stream ended without error after every choice seen, and every
    choice expected, had its finish reason. *)
Definition clean_end (ps : list string) (readErr ctxErr : bool) (expected : Z) : bool :=
  let body := before_done ps in
  let cs := concat (chChoices <$> omap decoded body) in
  forallb (fun p => negb (broken p)) body &&
  (done_seen ps
   || (negb readErr && negb ctxErr && (1 <=? expected)
       && forallb (fun c => finished_index cs (ccIndex c)) cs
       && forallb (finished_index cs) (Z.of_nat <$> seq 0 (Z.to_nat expected)))).

Definition chunk_of (c : OpenAIChunk) : SSEChunk := mkSSEChunk (Some c) false.

Definition done_chunk : SSEChunk := mkSSEChunk None true.

(** *** The loop's state *)

Definition state_after (s : SseState) (body : list string) : SseState :=
  let cs := concat (chChoices <$> omap decoded body) in
  let bad_parse := existsb (fun p => match decoded p with None => true | Some _ => false end) body in
  let bad_frame := existsb (fun p => match decoded p with None => false | Some _ => broken p end) body in
  mkSse (choiceSeen s ∪ list_to_set (ccIndex <$> cs))
        (choiceFinished s ∪ list_to_set (ccIndex <$> List.filter finished_choice cs))
        (sawParseError s || bad_parse) (sawUpstreamError s || bad_frame).

Lemma state_after_nil s : state_after s [] = s.
Proof. destruct s as [a b c d]. unfold state_after. cbn. f_equal; [set_solver|set_solver|apply orb_false_r|apply orb_false_r]. Qed.

Lemma filter_app_list (cs cs' : list OpenAIChunkChoice) :
  List.filter finished_choice (cs ++ cs') = List.filter finished_choice cs ++ List.filter finished_choice cs'.
Proof. apply List.filter_app. Qed.

Lemma state_after_cons_ok s p c j body :
  parse p = Some j -> decode_chunk j = Some c ->
  state_after s (p :: body) = state_after (see_choices (chChoices c) (poison_error (error_frame j) s)) body.
Proof.
  intros Hj Hc. unfold state_after, see_choices, poison_error. cbn [omap list_omap existsb].
  assert (Hd : decoded p = Some c) by (unfold decoded; by rewrite Hj).
  assert (Hb : broken p = error_frame j) by (unfold broken; by rewrite Hj, Hc).
  rewrite Hd, Hb. cbn [fmap list_fmap concat choiceSeen choiceFinished sawParseError sawUpstreamError orb].
  f_equal.
  - rewrite fmap_app, list_to_set_app_L. set_solver.
  - rewrite filter_app_list, fmap_app, list_to_set_app_L. set_solver.
  - by rewrite orb_assoc.
Qed.

Lemma state_after_cons_bad s p body :
  decoded p = None -> state_after s (p :: body) = state_after (poison_parse s) body.
Proof.
  intros Hd. unfold state_after, poison_parse. cbn [omap list_omap existsb]. rewrite Hd. cbn. f_equal.
  by rewrite orb_true_r.
Qed.

Lemma before_done_cons p ps : p <> "[DONE]" -> before_done (p :: ps) = p :: before_done ps.
Proof. intros Hp. cbn. by rewrite (proj2 (String.eqb_neq _ _) Hp). Qed.

Definition accept (_ : list SSEChunk) (_ : SSEChunk) : bool := true.

Lemma read_lines_spec lines s out :
  let ps := omap payload lines in
  let body := before_done ps in
  let s' := state_after s body in
  read_lines parse accept lines s out =
  (out ++ (chunk_of <$> omap decoded body)
       ++ (if done_seen ps && negb (sawParseError s' || sawUpstreamError s') then [done_chunk] else []),
   if done_seen ps then None else Some s').
Proof.
  revert s out; induction lines as [|line lines IH]; intros s out; cbn [omap list_omap read_lines].
  { cbn. by rewrite state_after_nil, app_nil_r. }
  pose proof (eq_refl (payload line)) as Hpl. unfold payload in Hpl at 2.
  destruct (_ || _); [rewrite Hpl; apply IH|]. destruct (HasPrefix line "data: "); rewrite Hpl; [|apply IH].
  set (p := TrimPrefix line "data: ").
  destruct (String.eqb_spec p "[DONE]") as [E|Hp].
  - unfold done_seen. cbn [before_done existsb]. rewrite E. cbn [String.eqb Ascii.eqb Bool.eqb orb].
    rewrite state_after_nil. destruct (sawParseError s || sawUpstreamError s); cbn; by rewrite ?app_nil_r.
  - cbv zeta. rewrite before_done_cons by done.
    assert (Hdn : done_seen (p :: omap payload lines) = done_seen (omap payload lines)).
    { unfold done_seen. cbn. by rewrite (proj2 (String.eqb_neq _ _) Hp). }
    rewrite Hdn. cbn [omap list_omap]. destruct (parse p) as [j|] eqn:Hj.
    2: { assert (decoded p = None) as Hd by (unfold decoded; by rewrite Hj). rewrite Hd, state_after_cons_bad by done. apply IH. }
    destruct (decode_chunk j) as [c|] eqn:Hc.
    2: { assert (decoded p = None) as Hd by (unfold decoded; by rewrite Hj). rewrite Hd, state_after_cons_bad by done. apply IH. }
    assert (decoded p = Some c) as Hd by (unfold decoded; by rewrite Hj).
    rewrite Hd, (state_after_cons_ok s p c j) by done. unfold push, accept. cbn [fst snd].
    rewrite (IH _ (out ++ [mkSSEChunk (Some c) false])). by rewrite <- app_assoc.
Qed.

Lemma poisoned_broken body :
  let s := state_after sse_init body in
  sawParseError s || sawUpstreamError s = existsb broken body.
Proof.
  cbn. induction body as [|p body IH]; cbn; [done|].
  rewrite <- IH. assert (Hb : decoded p = None -> broken p = true).
  { unfold decoded, broken. destruct (parse p); cbn; [|done]. by intros ->. }
  destruct (decoded p) eqn:E; [|rewrite Hb by done; done].
  cbn. destruct (broken p); cbn; [by rewrite orb_true_r|done].
Qed.

Lemma existsb_negb_forallb {A} (f : A -> bool) l : negb (existsb f l) = forallb (fun x => negb (f x)) l.
Proof. induction l as [|x l IH]; cbn; [done|]. by rewrite negb_orb, IH. Qed.

Lemma finished_elem (cs : list OpenAIChunkChoice) i :
  i ∈@{gset Z} list_to_set (ccIndex <$> List.filter finished_choice cs) <-> finished_index cs i = true.
Proof.
  rewrite elem_of_list_to_set, list_elem_of_fmap. unfold finished_index. rewrite existsb_exists. split.
  - intros (c & -> & Hc). apply list_elem_of_In, filter_In in Hc as [Hc Hf]. exists c. by rewrite Z.eqb_refl.
  - intros (c & Hc & [Hi Hf]%andb_prop). apply Z.eqb_eq in Hi. exists c. split; [done|].
    apply list_elem_of_In, filter_In. done.
Qed.

Lemma all_seen_finished (cs : list OpenAIChunkChoice) :
  Nat.eqb (size (list_to_set (ccIndex <$> List.filter finished_choice cs) : gset Z))
          (size (list_to_set (ccIndex <$> cs) : gset Z))
  = forallb (fun c => finished_index cs (ccIndex c)) cs.
Proof.
  set (fin := list_to_set (ccIndex <$> List.filter finished_choice cs) : gset Z).
  set (seen := list_to_set (ccIndex <$> cs) : gset Z).
  assert (Hsub : fin ⊆ seen).
  { intros i. unfold fin, seen. rewrite !elem_of_list_to_set, !list_elem_of_fmap.
    intros (c & -> & Hc). exists c. split; [done|]. by apply list_elem_of_In, filter_In, proj1, list_elem_of_In in Hc. }
  apply eq_true_iff_eq. rewrite Nat.eqb_eq, forallb_forall. split.
  - intros E c Hc. apply finished_elem. fold fin. rewrite (set_subseteq_size_eq fin seen Hsub) by lia.
    unfold seen. rewrite elem_of_list_to_set, list_elem_of_fmap. exists c. split; [done|]. by apply list_elem_of_In.
  - intros H. apply Nat.le_antisymm; [by apply subseteq_size|]. apply subseteq_size. intros i.
    unfold seen. rewrite elem_of_list_to_set, list_elem_of_fmap. intros (c & -> & Hc).
    apply finished_elem, H. by apply list_elem_of_In.
Qed.

Lemma all_finished_index n (cs : list OpenAIChunkChoice) :
  all_finished n (list_to_set (ccIndex <$> List.filter finished_choice cs))
  = forallb (finished_index cs) (Z.of_nat <$> seq 0 (Z.to_nat n)).
Proof.
  unfold all_finished. generalize (Z.of_nat <$> seq 0 (Z.to_nat n)) as l.
  induction l as [|i l IH]; cbn [forallb]; [done|]. rewrite IH. f_equal.
  apply eq_true_iff_eq. by rewrite bool_decide_eq_true, finished_elem.
Qed.

(** C29: The relayed chunks of an OpenAI-compatible upstream are exactly the decodable payloads
    before the sentinel, in order, and the terminal marker is added exactly when the stream
    ended cleanly: no malformed payload and no error frame came before, and the sentinel
    came, or the body ended without read error or cancellation with a finish reason for
    every choice seen and every choice the request expects.  In particular no sentinel
    turns a stream with a malformed or an error frame into a completed one. *)
Theorem readSSEStream_clean_iff lines readErr ctxErr expected :
  let ps := omap payload lines in
  readSSEStream parse accept lines readErr ctxErr expected
  = (chunk_of <$> omap decoded (before_done ps))
    ++ (if clean_end ps readErr ctxErr expected then [done_chunk] else []).
Proof.
  cbv zeta. unfold readSSEStream. rewrite read_lines_spec. cbv zeta. rewrite poisoned_broken.
  unfold clean_end. set (body := before_done _). set (cs := concat _). rewrite <- existsb_negb_forallb.
  destruct (done_seen _); cbn [app].
  { destruct (existsb broken body); reflexivity. }
  rewrite app_nil_r. pose proof (poisoned_broken body) as Hp. cbv zeta in Hp. rewrite Hp.
  destruct (existsb broken body); cbn [orb negb andb]; [by destruct readErr, ctxErr; rewrite app_nil_r|].
  destruct readErr; cbn; [by rewrite app_nil_r|]. destruct ctxErr; cbn; [by rewrite app_nil_r|].
  rewrite !union_empty_l_L, all_seen_finished, all_finished_index. fold body. fold cs.
  destruct (Z.ltb_spec expected 1) as [Hx|Hx].
  { rewrite (proj2 (Z.leb_gt 1 expected)) by lia. by rewrite app_nil_r. }
  rewrite (proj2 (Z.leb_le 1 expected)) by lia. cbn [andb].
  destruct (forallb (fun c => finished_index cs (ccIndex c)) cs); cbn; [|by rewrite app_nil_r].
  destruct (forallb _ _); cbn; by rewrite ?app_nil_r.
Qed.
End Spec.

(** ** Error frames of an Anthropic upstream *)

Lemma substring_all s : String.substring 0 (String.length s) s = s.
Proof. induction s as [|c s IH]; [done|]. exact (f_equal (String c) IH). Qed.

Lemma substring_skip p s : String.substring (String.length p) (String.length s) (p +:+ s) = s.
Proof. induction p as [|c p IH]; [apply substring_all|exact IH]. Qed.

Lemma HasPrefix_app p s : HasPrefix (p +:+ s) p = true.
Proof. induction p as [|c p IH]; [by destruct s|]. change (Ascii.eqb c c && HasPrefix (p +:+ s) p = true). by rewrite Ascii.eqb_refl, IH. Qed.

Lemma HasPrefix_split s p : HasPrefix s p = true -> exists r, s = p +:+ r.
Proof.
  revert s; induction p as [|c p IH]; intros s H; [by exists s|].
  destruct s as [|d s]; [done|]. cbn in H. apply andb_prop in H as [Hc H]. apply Ascii.eqb_eq in Hc as <-.
  destruct (IH s H) as (r & ->). by exists r.
Qed.

Lemma TrimPrefix_app p s : TrimPrefix (p +:+ s) p = s.
Proof.
  unfold TrimPrefix. rewrite HasPrefix_app, string_length_app.
  replace (String.length p + String.length s - String.length p)%nat with (String.length s) by lia. apply substring_skip.
Qed.

(** No line announces the event [ev]. *)
Definition no_event (ev : string) (lines : list string) : bool :=
  forallb (fun l => negb (String.eqb l ("event: " +:+ ev))) lines.

Lemma TranslateEvent_unterminated t e :
  Event e <> "message_stop" -> Event e <> "message_delta" ->
  forallb unterminated (TranslateEvent t e).1 = true.
Proof.
  intros Hs Hd. unfold TranslateEvent. rewrite (proj2 (String.eqb_neq _ _) Hs), (proj2 (String.eqb_neq _ _) Hd).
  destruct (_ =? "message_start")%string; [unfold handleMessageStart; by case_match|].
  destruct (_ =? "content_block_start")%string.
  { unfold handleContentBlockStart. case_match; [|done]. destruct p as [[[i ty] id] name]. by case_match. }
  destruct (_ =? "content_block_delta")%string; [|done].
  cbn [fst]. unfold handleContentBlockDelta. case_match; [|done]. destruct p as [[[i ty] x] pj]. by repeat case_match.
Qed.

Section Poison.
Context (parse : string -> option json) (send : list SSEChunk -> SSEChunk -> bool).

Definition quiet_out (out : list SSEChunk) : Prop := forallb unterminated out = true.

Lemma push_all_quiet out cs : quiet_out out -> quiet_out cs -> quiet_out (push_all send out cs).1.
Proof.
  unfold quiet_out. revert out; induction cs as [|c cs IH]; intros out Ho Hc; cbn; [done|].
  cbn in Hc. apply andb_prop in Hc as [Hc Hcs]. unfold push. destruct (send out c); [|done].
  apply IH; [|done]. rewrite forallb_app, Ho. cbn. by rewrite Hc.
Qed.

Lemma payload_quiet t ev data :
  ev <> "message_stop" -> ev <> "message_delta" -> quiet_out (translate_payload t ev data).1.
Proof.
  intros Hs Hd. unfold translate_payload. destruct data; [by apply TranslateEvent_unterminated|].
  by rewrite (proj2 (String.eqb_neq _ _) Hs).
Qed.

Lemma event_line_neq line ev :
  line <> "event: " +:+ ev -> HasPrefix line "event: " = true -> TrimPrefix line "event: " <> ev.
Proof. intros Hl (r & ->)%HasPrefix_split. rewrite TrimPrefix_app. congruence. Qed.

(** After an error frame, [message_stop] is dropped too. *)
Lemma poisoned_quiet lines t ev out :
  no_event "message_delta" lines = true -> ev <> "message_delta" -> quiet_out out ->
  quiet_out (readAnthropicSSE parse send lines t ev true out).
Proof.
  revert t ev out; induction lines as [|line lines IH]; intros t ev out Hn He Ho; cbn [readAnthropicSSE]; [done|].
  cbn in Hn. apply andb_prop in Hn as [Hl Hn]. apply negb_true_iff, String.eqb_neq in Hl.
  destruct (line =? "")%string; [by apply IH|]. destruct (HasPrefix line "event: ") eqn:Hp.
  { apply IH; [done| |done]. by apply event_line_neq. }
  destruct (HasPrefix line "data: "); [|by apply IH].
  destruct (ev =? "error")%string; [by apply IH|].
  destruct (String.eqb_spec ev "message_stop") as [->|Hs]; cbn [andb]; [by apply IH|].
  pose proof (payload_quiet t ev (parse (TrimPrefix line "data: ")) Hs He) as Hq.
  destruct (translate_payload _ _ _) as [cs t1]. pose proof (push_all_quiet out cs Ho Hq) as Hq2.
  destruct (push_all send out cs) as [out2 [|]]; [by apply IH|done].
Qed.

Lemma before_error_quiet pre t ev saw out payload post :
  no_event "message_stop" pre = true -> no_event "message_delta" (pre ++ post) = true ->
  ev <> "message_stop" -> ev <> "message_delta" -> quiet_out out ->
  quiet_out (readAnthropicSSE parse send (pre ++ "event: error" :: ("data: " +:+ payload) :: post) t ev saw out).
Proof.
  revert t ev saw out; induction pre as [|line pre IH]; intros t ev saw out Hns Hnd Hs Hd Ho.
  { change (quiet_out (if HasPrefix ("data: " +:+ payload) "data: " then readAnthropicSSE parse send post t "" true out
                        else readAnthropicSSE parse send post t "error" saw out)).
    rewrite HasPrefix_app. by apply poisoned_quiet. }
  cbn in Hns, Hnd. apply andb_prop in Hns as [Hl Hns]. apply andb_prop in Hnd as [Hl' Hnd].
  apply negb_true_iff, String.eqb_neq in Hl. apply negb_true_iff, String.eqb_neq in Hl'.
  cbn [app readAnthropicSSE]. destruct (line =? "")%string; [by apply IH|].
  destruct (HasPrefix line "event: ") eqn:Hp.
  { apply IH; [done|done| | |done]; by apply event_line_neq. }
  destruct (HasPrefix line "data: "); [|by apply IH]. destruct (ev =? "error")%string; [by apply IH|].
  rewrite (proj2 (String.eqb_neq _ _) Hs). cbn [andb].
  pose proof (payload_quiet t ev (parse (TrimPrefix line "data: ")) Hs Hd) as Hq.
  destruct (translate_payload _ _ _) as [cs t1]. pose proof (push_all_quiet out cs Ho Hq) as Hq2.
  destruct (push_all send out cs) as [out2 [|]]; [by apply IH|done].
Qed.
End Poison.

(** An upstream error frame reaches an Anthropic client as an interruption: whatever
    follows the frame, [message_stop] included, and whatever the payloads and the
    consumer, if no stop reason was sent the relayed events end with the
    [stream_interrupted] error and contain no [message_delta]. *)
Theorem upstream_error_interrupts parse send isCJK msgID model est pre payload post :
  no_event "message_stop" pre = true -> no_event "message_delta" (pre ++ post) = true ->
  exists es,
    RelayStream isCJK (fun _ => true) msgID model est
      (readAnthropicSSE parse send (pre ++ "event: error" :: ("data: " +:+ payload) :: post)
         NewReverseStreamTranslator "" false [])
    = es ++ [streamInterruptedError; messageStop]
    /\ Forall (fun e => Event e <> "message_delta") (es ++ [streamInterruptedError; messageStop]).
Proof. intros Hs Hd. apply truncated_relay. by apply before_error_quiet. Qed.

(** One text delta, an overload error, then the terminator of the upstream. *)
Definition sample_lines : list string :=
  ["event: content_block_delta"; "data: hello"; ""].

Definition sample_parse (s : string) : option json :=
  if String.eqb s "hello" then Some (Data (contentBlockDelta 0 "hello")) else Some (JObj []).

Lemma upstream_error_interrupts_witness :
  readAnthropicSSE sample_parse accept (sample_lines ++ "event: error" :: ("data: " +:+ "{}") :: ["event: message_stop"; "data: {}"])
    NewReverseStreamTranslator "" false []
  = [reverse_chunk NewReverseStreamTranslator (mkDelta "" "hello" "" []) None None] /\
  exists es,
    RelayStream (fun _ => false) (fun _ => true) "msg_1" "m" 3
      (readAnthropicSSE sample_parse accept (sample_lines ++ "event: error" :: ("data: " +:+ "{}") :: ["event: message_stop"; "data: {}"])
         NewReverseStreamTranslator "" false [])
    = es ++ [streamInterruptedError; messageStop]
    /\ Forall (fun e => Event e <> "message_delta") (es ++ [streamInterruptedError; messageStop]).
Proof.
  split; [vm_compute; reflexivity|].
  apply (upstream_error_interrupts sample_parse accept (fun _ => false) "msg_1" "m" 3 sample_lines "{}"
           ["event: message_stop"; "data: {}"]); vm_compute; reflexivity.
Defined.
