(* ===== verification/Messages.v ===== *)
(** * Request and response translation

    [translator/request.go], [response.go], [reverse_request.go] and
    [reverse_response.go] over the types of [domain/openai.go] and
    [domain/anthropic.go].  A [json.RawMessage] is its text, nil being the empty
    text; [parse] and [marshal] are the syntax of [encoding/json], and the raw
    text of a nested value is taken in the form [marshal] gives it. *)

From Stdlib Require Import SpecFloat.
From stdpp Require Import pretty.
From S2P Require Import Prelude Json Stream StreamSpec ReverseStream Sse.

(** ** Data *)

Record OpenAIFunctionCall := mkFn { fnName : string; fnArguments : string }.

Record OpenAIToolCall := mkToolCall { otID : string; otType : string; otFunction : OpenAIFunctionCall }.

(** [Content] is the decoded JSON value (JNull is nil). *)
Record OpenAIMessage := mkMsg {
  omRole : string;
  omContent : json;
  ReasoningContent : string;
  omToolCalls : list OpenAIToolCall;
  ToolCallID : string
}.

Record OpenAIFunctionDef := mkFnDef {
  fdName : string;
  fdDescription : string;
  fdParameters : string;
  fdStrict : option bool
}.

Record OpenAITool := mkTool' { toType : string; toFunction : OpenAIFunctionDef }.

(** [Stop any]: nil, a decoded JSON value, or the []string of the forward translator. *)
Inductive stop_value :=
  | StopNil
  | StopJson (j : json)
  | StopStrings (l : list string).

Record OpenAIRequest := mkORequest {
  orModel : string;
  orMessages : list OpenAIMessage;
  orMaxTokens : option Z;
  orMaxCompletionTokens : option Z;
  orN : option Z;
  orStream : bool;
  orTemperature : option spec_float;
  orTopP : option spec_float;
  orStop : stop_value;
  orUser : string;
  orIncludeUsage : option bool;
  orTools : list OpenAITool;
  orToolChoice : json;
  orReasoningEffort : string;
  orThinking : string
}.

Record OpenAIChoice := mkOChoice { ocIndex : Z; ocMessage : OpenAIMessage; ocFinishReason : string }.

Record OpenAIResponse := mkOResponse {
  opID : string;
  opObject : string;
  opModel : string;
  opChoices : list OpenAIChoice;
  opUsage : OpenAIUsage
}.

Record ContentBlock := mkBlock {
  cbType : string;
  cbText : string;
  cbID : string;
  cbName : string;
  cbInput : string;
  cbSource : string;
  cbToolUseID : string;
  cbContent : string
}.

Record AnthropicMessage := mkAMessage { amRole : string; amContent : string }.

Record AnthropicTool := mkATool { atName : string; atDescription : string; atInputSchema : string }.

Record AnthropicRequest := mkARequest {
  arModel : string;
  arMaxTokens : Z;
  arMessages : list AnthropicMessage;
  arSystem : string;
  arStream : bool;
  arTemperature : option spec_float;
  arTopP : option spec_float;
  arTopK : option Z;
  arStopSequences : list string;
  arUserID : option string;
  arTools : string;
  arToolChoice : string;
  arThinking : string
}.

Record AnthropicUsage := mkAUsage {
  auInputTokens : Z;
  auOutputTokens : Z;
  auCacheReadInputTokens : Z;
  auCacheCreationInputTokens : Z
}.

Record AnthropicResponse := mkAResponse {
  apID : string;
  apType : string;
  apRole : string;
  apContent : list ContentBlock;
  apModel : string;
  apStopReason : string;
  apStopSequence : option string;
  apUsage : AnthropicUsage
}.

Definition newline : string := String (Ascii.ascii_of_nat 10) EmptyString.

(** [strings.Join(parts, "\n")] *)
Definition join_lines (parts : list string) : string := String.concat newline parts.

Definition text_only (ty text : string) : ContentBlock := mkBlock ty text "" "" "" "" "" "".

(** [jsonString]: empty arguments become an empty object. *)
Definition jsonString (s : string) : string := if String.eqb s "" then "{}" else s.

(** [domain.ContentText] of a [json.RawMessage], which is neither a string nor a
    []any: [fmt.Sprintf("%v", raw)], the bytes in decimal. *)
Definition byte_dump (raw : string) : string :=
  let fix go s :=
    match s with
    | EmptyString => "]"
    | String c s => pretty (Z.of_nat (Ascii.nat_of_ascii c))
                    +:+ match s with EmptyString => "]" | _ => " " +:+ go s end
    end in
  "[" +:+ go raw.

Section Translate.
Context (parse : string -> option json) (marshal : json -> string).
(** [fmt.Sprintf("%v", v)] *)
Context (sprint : json -> string).

(** ** [domain.ContentText] *)

Definition text_part (item : json) : option string :=
  match item with
  | JObj _ =>
      match member "type" item, member "text" item with
      | JStr ty, JStr s => if String.eqb ty "text" && negb (String.eqb s "") then Some s else None
      | _, _ => None
      end
  | _ => None
  end.

Definition ContentText (v : json) : string :=
  match v with
  | JNull => ""
  | JStr s => s
  | JArr items => join_lines (omap text_part items)
  | _ => sprint v
  end.

(** ** Anthropic request to OpenAI ([request.go]) *)

(** A RawMessage field: absent is nil, null is the text "null". *)
Definition raw_member (k : string) (j : json) : string :=
  match j with JObj kvs => match assoc k kvs with Some v => marshal v | None => "" end | _ => "" end.

Definition decode_block (j : json) : option ContentBlock :=
  o ← as_struct j;
  ty ← as_string (member "type" o);
  tx ← as_string (member "text" o);
  id ← as_string (member "id" o);
  nm ← as_string (member "name" o);
  tu ← as_string (member "tool_use_id" o);
  Some (mkBlock ty tx id nm (raw_member "input" o) (raw_member "source" o) tu (raw_member "content" o)).

(** [json.Unmarshal(raw, &s)] and [json.Unmarshal(raw, &blocks)] *)
Definition unmarshal_string (raw : string) : option string := j ← parse raw; as_string j.
Definition unmarshal_blocks (raw : string) : option (list ContentBlock) := j ← parse raw; as_slice decode_block j.

Definition is_type (ty : string) (b : ContentBlock) : bool := String.eqb (cbType b) ty.

Definition joinTextBlocks (blocks : list ContentBlock) : string :=
  join_lines (cbText <$> List.filter (is_type "text") blocks).

Definition extractSystemPrompt (raw : string) : string :=
  if String.eqb raw "" then ""
  else match unmarshal_string raw with
       | Some s => s
       | None => match unmarshal_blocks raw with Some bs => joinTextBlocks bs | None => "" end
       end.

(** [ExtractContentText] and [extractToolResultContent] *)
Definition ExtractContentText (raw : string) : string :=
  if String.eqb raw "" then ""
  else match unmarshal_string raw with
       | Some s => s
       | None => match unmarshal_blocks raw with Some bs => joinTextBlocks bs | None => raw end
       end.

Definition extractToolResultContent (raw : string) : string := ExtractContentText raw.

Definition call_of_block (b : ContentBlock) : OpenAIToolCall :=
  mkToolCall (cbID b) "function" (mkFn (cbName b) (cbInput b)).

Definition result_of_block (b : ContentBlock) : OpenAIMessage :=
  mkMsg "tool" (JStr (extractToolResultContent (cbContent b))) "" [] (cbToolUseID b).

Definition translateContentBlocks (role : string) (blocks : list ContentBlock) : list OpenAIMessage :=
  let textParts := cbText <$> List.filter (is_type "text") blocks in
  let toolCalls := call_of_block <$> List.filter (is_type "tool_use") blocks in
  let results := result_of_block <$> List.filter (is_type "tool_result") blocks in
  match toolCalls, results with
  | [], [] => [mkMsg role (JStr (join_lines textParts)) "" [] ""]
  | _, _ =>
      match textParts, toolCalls with
      | [], [] => []
      | _, _ => [mkMsg role (JStr (join_lines textParts)) "" toolCalls ""]
      end ++ results
  end.

Definition translateMessage (msg : AnthropicMessage) : list OpenAIMessage :=
  if String.eqb (amContent msg) "" then [mkMsg (amRole msg) (JStr "") "" [] ""]
  else match unmarshal_string (amContent msg) with
       | Some s => [mkMsg (amRole msg) (JStr s) "" [] ""]
       | None =>
           match unmarshal_blocks (amContent msg) with
           | None => [mkMsg (amRole msg) (JStr (amContent msg)) "" [] ""]
           | Some blocks => translateContentBlocks (amRole msg) blocks
           end
       end.

Definition decode_atool (j : json) : option AnthropicTool :=
  o ← as_struct j;
  nm ← as_string (member "name" o);
  ds ← as_string (member "description" o);
  Some (mkATool nm ds (raw_member "input_schema" o)).

Definition translateTools (raw : string) : option (list OpenAITool) :=
  j ← parse raw;
  ts ← as_slice decode_atool j;
  Some (map (fun t => mkTool' "function" (mkFnDef (atName t) (atDescription t) (atInputSchema t) None)) ts).

Definition as_bool (j : json) : option bool :=
  match j with JNull => Some false | JBool b => Some b | _ => None end.

Definition translateToolChoice (raw : string) : json :=
  match
    j ← parse raw; o ← as_struct j;
    ty ← as_string (member "type" o); nm ← as_string (member "name" o);
    _ ← as_bool (member "disable_parallel_tool_use" o);
    Some (ty, nm)
  with
  | None => JStr "auto"
  | Some (ty, nm) =>
      if String.eqb ty "auto" then JStr "auto"
      else if String.eqb ty "any" then JStr "required"
      else if String.eqb ty "tool" then
        JObj [("type", JStr "function"); ("function", JObj [("name", JStr nm)])]
      else JStr "auto"
  end.

Definition translateStopSequences (seqs : list string) : stop_value :=
  match seqs with [s] => StopJson (JStr s) | _ => StopStrings seqs end.

Inductive request_error := ErrMissingModel | ErrMissingMessages | ErrMissingMaxTokens.

Definition AnthropicToOpenAI (req : AnthropicRequest) (modelName : string) : request_error + OpenAIRequest :=
  if String.eqb (arModel req) "" then inl ErrMissingModel
  else match arMessages req with
  | [] => inl ErrMissingMessages
  | _ =>
    if arMaxTokens req <=? 0 then inl ErrMissingMaxTokens
    else
      let sys := extractSystemPrompt (arSystem req) in
      let messages := (if String.eqb sys "" then [] else [mkMsg "system" (JStr sys) "" [] ""])
                      ++ concat (translateMessage <$> arMessages req) in
      inr {| orModel := modelName; orMessages := messages; orMaxTokens := Some (arMaxTokens req);
             orMaxCompletionTokens := None; orN := None; orStream := arStream req;
             orTemperature := arTemperature req; orTopP := arTopP req;
             orStop := match arStopSequences req with [] => StopNil | seqs => translateStopSequences seqs end;
             orUser := default "" (arUserID req);
             orIncludeUsage := if arStream req then Some true else None;
             orTools := if String.eqb (arTools req) "" then [] else default [] (translateTools (arTools req));
             orToolChoice := if String.eqb (arToolChoice req) "" then JNull else translateToolChoice (arToolChoice req);
             orReasoningEffort := ""; orThinking := arThinking req |}
  end.

(** ** OpenAI request to Anthropic ([reverse_request.go]) *)

(** Encoding of a block: empty fields are omitted, a RawMessage that is not JSON
    makes the whole encoding fail. *)
Definition str_field (k v : string) : list (string * json) := if String.eqb v "" then [] else [(k, JStr v)].

Definition raw_field (k raw : string) : option (list (string * json)) :=
  if String.eqb raw "" then Some [] else j ← parse raw; Some [(k, j)].

Definition encode_block (b : ContentBlock) : option json :=
  input ← raw_field "input" (cbInput b);
  source ← raw_field "source" (cbSource b);
  content ← raw_field "content" (cbContent b);
  Some (JObj (("type", JStr (cbType b)) :: str_field "text" (cbText b) ++ str_field "id" (cbID b)
              ++ str_field "name" (cbName b) ++ input ++ source ++ str_field "tool_use_id" (cbToolUseID b) ++ content)).

Fixpoint encode_all {A} (enc : A -> option json) (l : list A) : option (list json) :=
  match l with
  | [] => Some []
  | x :: l => j ← enc x; js ← encode_all enc l; Some (j :: js)
  end.

(** [content, _ := json.Marshal(...)]: the error is dropped, the content is nil. *)
Definition marshal_slice {A} (enc : A -> option json) (l : list A) : string :=
  match encode_all enc l with Some js => marshal (JArr js) | None => "" end.

Definition block_of_call (tc : OpenAIToolCall) : ContentBlock :=
  mkBlock "tool_use" "" (otID tc) (fnName (otFunction tc)) (jsonString (fnArguments (otFunction tc))) "" "" "".

Definition assistantToContentBlocks (msg : OpenAIMessage) : list ContentBlock :=
  let text := ContentText (omContent msg) in
  match (if String.eqb text "" then [] else [text_only "text" text]) ++ map block_of_call (omToolCalls msg) with
  | [] => [text_only "text" ""]
  | blocks => blocks
  end.

Definition toolResultToContentBlocks (msg : OpenAIMessage) : list ContentBlock :=
  [mkBlock "tool_result" "" "" "" "" "" (ToolCallID msg)
     (match omContent msg with JNull => "" | c => marshal c end)].

Definition reverseToolChoice (tc : json) : string :=
  match tc with
  | JStr v =>
      if String.eqb v "auto" then marshal (JObj [("type", JStr "auto")])
      else if String.eqb v "required" then marshal (JObj [("type", JStr "any")])
      else ""
  | JObj _ =>
      match member "type" tc, member "function" tc with
      | JStr ty, JObj f =>
          match String.eqb ty "function", member "name" (JObj f) with
          | true, JStr name => marshal (JObj [("name", JStr name); ("type", JStr "tool")])
          | _, _ => ""
          end
      | _, _ => ""
      end
  | _ => ""
  end.

Definition string_item (j : json) : option string := match j with JStr s => Some s | _ => None end.

(** A []string falls through the type switch. *)
Definition reverseStopSequences (stop : stop_value) : list string :=
  match stop with
  | StopJson (JStr s) => [s]
  | StopJson (JArr l) => omap string_item l
  | _ => []
  end.

Definition is_system (msg : OpenAIMessage) : bool :=
  String.eqb (omRole msg) "system" || String.eqb (omRole msg) "developer".

(** The message of the conversation, if its role has one. *)
Definition reverse_message (msg : OpenAIMessage) : option AnthropicMessage :=
  if is_system msg then None
  else if String.eqb (omRole msg) "user" then Some (mkAMessage "user" (marshal (omContent msg)))
  else if String.eqb (omRole msg) "assistant" then
    Some (mkAMessage "assistant" (marshal_slice encode_block (assistantToContentBlocks msg)))
  else if String.eqb (omRole msg) "tool" || String.eqb (omRole msg) "function" then
    Some (mkAMessage "user" (marshal_slice encode_block (toolResultToContentBlocks msg)))
  else None.

(** [InputSchema] has no [omitempty]: a nil RawMessage is encoded as null. *)
Definition encode_atool (t : OpenAITool) : option json :=
  schema ← (if String.eqb (fdParameters (toFunction t)) "" then Some JNull else parse (fdParameters (toFunction t)));
  Some (JObj (("name", JStr (fdName (toFunction t))) :: str_field "description" (fdDescription (toFunction t))
              ++ [("input_schema", schema)])).

Definition OpenAIToAnthropicRequest (req : OpenAIRequest) : AnthropicRequest :=
  let systemParts := map (fun m => ContentText (omContent m)) (List.filter is_system (orMessages req)) in
  {| arModel := orModel req;
     arMaxTokens := match orMaxTokens req with
                    | Some n => n
                    | None => default 4096 (orMaxCompletionTokens req)
                    end;
     arMessages := omap reverse_message (orMessages req);
     arSystem := match systemParts with [] => "" | _ => marshal (JStr (join_lines systemParts)) end;
     arStream := orStream req;
     arTemperature := orTemperature req; arTopP := orTopP req; arTopK := None;
     arStopSequences := reverseStopSequences (orStop req);
     arUserID := if String.eqb (orUser req) "" then None else Some (orUser req);
     arTools := match orTools req with [] => "" | ts => marshal_slice encode_atool ts end;
     arToolChoice := match orToolChoice req with JNull => "" | tc => reverseToolChoice tc end;
     arThinking := orThinking req |}.

(** ** OpenAI response to Anthropic ([response.go]) *)

Definition buildContentBlocks (text reasoningContent : string) (toolCalls : list OpenAIToolCall) : list ContentBlock :=
  (if String.eqb reasoningContent "" then [] else [text_only "thinking" reasoningContent])
  ++ (if negb (String.eqb text "") || match toolCalls with [] => true | _ => false end
      then [text_only "text" text] else [])
  ++ map block_of_call toolCalls.

(** [messageID] is the value of [generateMessageID]. *)
Definition OpenAIToAnthropic (messageID : string) (resp : OpenAIResponse) (requestedModel : string) : AnthropicResponse :=
  let '(content, reasoning, finishReason, toolCalls) :=
    match opChoices resp with
    | [] => ("", "", "", [])
    | c :: _ => (ContentText (omContent (ocMessage c)), ReasoningContent (ocMessage c), ocFinishReason c,
                 omToolCalls (ocMessage c))
    end in
  {| apID := messageID; apType := "message"; apRole := "assistant";
     apContent := buildContentBlocks content reasoning toolCalls;
     apModel := requestedModel; apStopReason := finishReasonToStopReason finishReason; apStopSequence := None;
     apUsage := {| auInputTokens := PromptTokens (opUsage resp);
                   auOutputTokens := CompletionTokens (opUsage resp);
                   auCacheReadInputTokens := default 0 (PromptTokensDetails (opUsage resp));
                   auCacheCreationInputTokens := 0 |} |}.

(** ** Anthropic response to OpenAI ([reverse_response.go]) *)

Definition cat_type (ty : string) (blocks : list ContentBlock) : string :=
  join (map cbText (List.filter (is_type ty) blocks)).

Definition AnthropicToOpenAIResponse (resp : AnthropicResponse) : OpenAIResponse :=
  let u := apUsage resp in
  let prompt := auInputTokens u + auCacheReadInputTokens u + auCacheCreationInputTokens u in
  {| opID := apID resp; opObject := "chat.completion"; opModel := apModel resp;
     opChoices := [mkOChoice 0
       (mkMsg "assistant" (JStr (cat_type "text" (apContent resp))) (cat_type "thinking" (apContent resp))
          (map call_of_block (List.filter (is_type "tool_use") (apContent resp))) "")
       (stopReasonToFinishReason (apStopReason resp))];
     opUsage := {| PromptTokens := prompt; CompletionTokens := auOutputTokens u;
                   TotalTokens := prompt + auOutputTokens u; CompletionTokensDetails := None;
                   PromptTokensDetails := if 0 <? auCacheReadInputTokens u then Some (auCacheReadInputTokens u) else None;
                   CacheCreationTokens := auCacheCreationInputTokens u |} |}.
End Translate.

(** ** Responses *)

(** A tool call as it comes back: function type, empty arguments as an object. *)
Definition normal_call (tc : OpenAIToolCall) : OpenAIToolCall :=
  mkToolCall (otID tc) "function" (mkFn (fnName (otFunction tc)) (jsonString (fnArguments (otFunction tc)))).

Lemma filter_calls ty tcs : ty <> "tool_use" -> List.filter (is_type ty) (map block_of_call tcs) = [].
Proof.
  intros Hty. induction tcs as [|tc tcs IH]; [done|]. cbn [map List.filter].
  unfold is_type at 1. cbn [block_of_call cbType]. by rewrite (proj2 (String.eqb_neq "tool_use" ty)) by congruence.
Qed.

Lemma filter_tool_use tcs : List.filter (is_type "tool_use") (map block_of_call tcs) = map block_of_call tcs.
Proof. induction tcs as [|tc tcs IH]; [done|]. cbn. by rewrite IH. Qed.

Lemma calls_back tcs : map call_of_block (map block_of_call tcs) = map normal_call tcs.
Proof. rewrite map_map. by apply map_ext. Qed.

Lemma join_single s : join [s] = s.
Proof. apply string_app_empty_r. Qed.

Lemma cat_built text reasoning tcs :
  cat_type "text" (buildContentBlocks text reasoning tcs) = text
  /\ cat_type "thinking" (buildContentBlocks text reasoning tcs) = reasoning
  /\ List.filter (is_type "tool_use") (buildContentBlocks text reasoning tcs) = map block_of_call tcs.
Proof.
  unfold cat_type, buildContentBlocks. rewrite !List.filter_app, !filter_tool_use, !filter_calls by done.
  destruct (String.eqb_spec reasoning "") as [->|Hr], (String.eqb_spec text "") as [->|Ht], tcs;
    cbn; rewrite ?join_single; split_and!; try done; apply string_app_empty_r.
Qed.

(** The finish reason after both mappings. *)
Definition finish_image (reason : string) : string := stopReasonToFinishReason (finishReasonToStopReason reason).

(** An OpenAI answer shown as an Anthropic one keeps everything an OpenAI reader can recover
    from it: text, reasoning, the tool calls in order with ids, names and arguments, the
    finish reason up to its image, and the completion tokens.  The prompt count does not:
    the cached tokens, already part of [prompt_tokens], are reported again as cache reads. *)
Theorem response_roundtrip sprint messageID model resp c rest :
  opChoices resp = c :: rest ->
  let back := AnthropicToOpenAIResponse (OpenAIToAnthropic sprint messageID resp model) in
  opChoices back =
    [mkOChoice 0 (mkMsg "assistant" (JStr (ContentText sprint (omContent (ocMessage c))))
                    (ReasoningContent (ocMessage c)) (map normal_call (omToolCalls (ocMessage c))) "")
       (finish_image (ocFinishReason c))]
  /\ CompletionTokens (opUsage back) = CompletionTokens (opUsage resp)
  /\ PromptTokens (opUsage back) = PromptTokens (opUsage resp) + default 0 (PromptTokensDetails (opUsage resp)).
Proof.
  intros Hc. unfold OpenAIToAnthropic, AnthropicToOpenAIResponse. rewrite Hc. cbn -[buildContentBlocks cat_type].
  destruct (cat_built (ContentText sprint (omContent (ocMessage c))) (ReasoningContent (ocMessage c))
              (omToolCalls (ocMessage c))) as (-> & -> & ->).
  rewrite calls_back. split_and!; [done..|lia].
Qed.

Definition sample_response : OpenAIResponse :=
  mkOResponse "r1" "chat.completion" "gpt"
    [mkOChoice 0 (mkMsg "assistant" (JStr "hi") "thought" [mkToolCall "t1" "function" (mkFn "ls" "")] "") "tool_calls"]
    (mkUsage 100 7 107 None (Some 40) 0).

Lemma response_roundtrip_witness :
  let back := AnthropicToOpenAIResponse (OpenAIToAnthropic (fun _ => "") "msg_1" sample_response "claude") in
  opChoices back = [mkOChoice 0 (mkMsg "assistant" (JStr "hi") "thought" [mkToolCall "t1" "function" (mkFn "ls" "{}")] "")
                      "tool_calls"]
  /\ CompletionTokens (opUsage back) = 7 /\ PromptTokens (opUsage back) = 140.
Proof. exact (response_roundtrip (fun _ => "") "msg_1" "claude" sample_response _ [] eq_refl). Defined.

(** An Anthropic upstream behind an Anthropic client, not streamed: the client receives the
    concatenated thinking, the concatenated text and every tool call in order with its id,
    name and input; the output tokens are kept, the input tokens are the inclusive total,
    cache reads are kept and the cache creations become 0. *)
Theorem anthropic_response_passthrough sprint messageID model r :
  let out := OpenAIToAnthropic sprint messageID (AnthropicToOpenAIResponse r) model in
  let calls := List.filter (is_type "tool_use") (apContent r) in
  apContent out =
    buildContentBlocks (cat_type "text" (apContent r)) (cat_type "thinking" (apContent r)) (map call_of_block calls)
  /\ map cbID (List.filter (is_type "tool_use") (apContent out)) = map cbID calls
  /\ map cbName (List.filter (is_type "tool_use") (apContent out)) = map cbName calls
  /\ map cbInput (List.filter (is_type "tool_use") (apContent out)) = map (fun b => jsonString (cbInput b)) calls
  /\ apUsage out = mkAUsage
       (auInputTokens (apUsage r) + auCacheReadInputTokens (apUsage r) + auCacheCreationInputTokens (apUsage r))
       (auOutputTokens (apUsage r)) (Z.max 0 (auCacheReadInputTokens (apUsage r))) 0.
Proof.
  cbv zeta. split; [reflexivity|]. cbn -[buildContentBlocks cat_type Z.ltb Z.max].
  destruct (cat_built (cat_type "text" (apContent r)) (cat_type "thinking" (apContent r))
              (map call_of_block (List.filter (is_type "tool_use") (apContent r)))) as (_ & _ & ->).
  rewrite !map_map. split_and!; try (apply map_ext; done). f_equal.
  destruct (Z.ltb_spec 0 (auCacheReadInputTokens (apUsage r))); cbn; lia.
Qed.

(** ** Requests *)

(** What the translators need of [encoding/json]: decoding inverts encoding, and the empty
    text is not a document. *)
Class LawfulJson (parse : string -> option json) (marshal : json -> string) : Prop := {
  parse_marshal : forall j, parse (marshal j) = Some j;
  parse_empty : parse "" = None
}.

Section Requests.
Context (parse : string -> option json) (marshal : json -> string) (sprint : json -> string).

Context {law : LawfulJson parse marshal}.

Lemma marshal_nonempty j : (marshal j =? "")%string = false.
Proof.
  apply String.eqb_neq. intros E. pose proof (parse_marshal j) as H. rewrite E in H.
  by rewrite parse_empty in H.
Qed.

(** A tool call whose arguments are a JSON document in canonical form. *)
Definition call_ok (tc : OpenAIToolCall) : Prop :=
  otType tc = "function" /\ exists j, fnArguments (otFunction tc) = marshal j.

(** The messages of an ordinary conversation. *)
Inductive plain_message : OpenAIMessage -> Prop :=
  | plain_user s : plain_message (mkMsg "user" (JStr s) "" [] "")
  | plain_assistant s tcs : Forall call_ok tcs -> plain_message (mkMsg "assistant" (JStr s) "" tcs "")
  | plain_tool s id : plain_message (mkMsg "tool" (JStr s) "" [] id).

(** *** Blocks *)

Lemma raw_field_marshal k j : raw_field parse k (marshal j) = Some [(k, j)].
Proof. unfold raw_field. by rewrite marshal_nonempty, parse_marshal. Qed.

Lemma raw_field_nil k : raw_field parse k "" = Some [].
Proof. reflexivity. Qed.

Lemma text_codec s :
  exists j, encode_block parse (text_only "text" s) = Some j /\ decode_block marshal j = Some (text_only "text" s).
Proof.
  unfold encode_block, str_field. cbn. destruct (String.eqb_spec s "") as [->|Hs]; eexists; split; reflexivity.
Qed.

Lemma call_codec id name j :
  exists e, encode_block parse (mkBlock "tool_use" "" id name (marshal j) "" "" "") = Some e /\
    decode_block marshal e = Some (mkBlock "tool_use" "" id name (marshal j) "" "" "").
Proof.
  unfold encode_block. cbn [cbInput cbSource cbContent cbText cbID cbName cbToolUseID cbType].
  rewrite raw_field_marshal, !raw_field_nil. unfold str_field. eexists. split; [reflexivity|].
  destruct (String.eqb_spec id "") as [->|Hi], (String.eqb_spec name "") as [->|Hn]; reflexivity.
Qed.

Lemma result_codec id c :
  exists e, encode_block parse (mkBlock "tool_result" "" "" "" "" "" id (marshal c)) = Some e /\
    decode_block marshal e = Some (mkBlock "tool_result" "" "" "" "" "" id (marshal c)).
Proof.
  unfold encode_block. cbn [cbInput cbSource cbContent cbText cbID cbName cbToolUseID cbType].
  rewrite raw_field_marshal, !raw_field_nil. unfold str_field. eexists. split; [reflexivity|].
  destruct (String.eqb_spec id "") as [->|Hi]; reflexivity.
Qed.

(** A list of blocks that encode survives the trip through its text. *)
Lemma slice_codec bs :
  Forall (fun b => exists j, encode_block parse b = Some j /\ decode_block marshal j = Some b) bs ->
  unmarshal_blocks parse marshal (marshal_slice marshal (encode_block parse) bs) = Some bs
  /\ unmarshal_string parse (marshal_slice marshal (encode_block parse) bs) = None
  /\ (marshal_slice marshal (encode_block parse) bs =? "")%string = false.
Proof.
  intros H.
  assert (Hj : exists js, encode_all (encode_block parse) bs = Some js /\ decode_all (decode_block marshal) js = Some bs).
  { induction H as [|b bs (j & E & D) Hbs (js & Es & Ds)]; [by exists []|].
    exists (j :: js). cbn. by rewrite E, Es, D, Ds. }
  destruct Hj as (js & E & D). unfold marshal_slice, unmarshal_blocks, unmarshal_string. rewrite E, parse_marshal.
  split_and!; [exact D|done|apply marshal_nonempty].
Qed.

Lemma call_block_ok tc :
  call_ok tc -> exists j, encode_block parse (block_of_call tc) = Some j /\ decode_block marshal j = Some (block_of_call tc).
Proof.
  intros (_ & j & E). unfold block_of_call, jsonString. rewrite E, marshal_nonempty. apply call_codec.
Qed.

Lemma normal_call_ok tc : call_ok tc -> normal_call tc = tc.
Proof.
  intros (Ht & j & E). destruct tc as [id ty [name args]]. unfold normal_call, jsonString. cbn in *.
  by rewrite E, marshal_nonempty, Ht.
Qed.

(** *** Messages *)

Lemma filter_texts ty ts :
  List.filter (is_type ty) (map (text_only "text") ts) = if String.eqb "text" ty then map (text_only "text") ts else [].
Proof.
  induction ts as [|t ts IH]; cbn [map List.filter]; [by destruct (String.eqb "text" ty)|].
  rewrite IH. unfold is_type. cbn [text_only cbType]. by destruct (String.eqb "text" ty).
Qed.

Lemma translate_texts_calls role ts tcs :
  translateContentBlocks parse marshal role (map (text_only "text") ts ++ map block_of_call tcs)
  = [mkMsg role (JStr (join_lines ts)) "" (map normal_call tcs) ""].
Proof.
  unfold translateContentBlocks. rewrite !List.filter_app, !filter_texts, filter_tool_use, !filter_calls by done.
  cbn [String.eqb Ascii.eqb Bool.eqb]. rewrite !app_nil_r, app_nil_l.
  change (cbText <$> map (text_only "text") ts) with (map cbText (map (text_only "text") ts)).
  assert (Ht : map cbText (map (text_only "text") ts) = ts) by (clear; induction ts; cbn; congruence). rewrite Ht.
  change (call_of_block <$> map block_of_call tcs) with (map call_of_block (map block_of_call tcs)). rewrite calls_back.
  destruct tcs, ts; reflexivity.
Qed.

Lemma translate_assistant s tcs :
  Forall call_ok tcs ->
  translateContentBlocks parse marshal "assistant" (assistantToContentBlocks sprint (mkMsg "assistant" (JStr s) "" tcs ""))
  = [mkMsg "assistant" (JStr s) "" tcs ""].
Proof.
  intros Hcs. assert (Hn : map normal_call tcs = tcs).
  { induction Hcs as [|tc tcs Htc Hcs IH]; cbn; [done|]. by rewrite normal_call_ok, IH. }
  unfold assistantToContentBlocks. cbn [omContent omToolCalls ContentText].
  destruct (String.eqb_spec s "") as [->|Hs].
  - destruct tcs as [|tc tcs]; [reflexivity|]. pose proof (translate_texts_calls "assistant" [] (tc :: tcs)) as H.
    rewrite Hn in H. exact H.
  - pose proof (translate_texts_calls "assistant" [s] tcs) as H. rewrite Hn in H. exact H.
Qed.

Lemma plain_roundtrip m :
  plain_message m -> exists am, reverse_message parse marshal sprint m = Some am /\
    translateMessage parse marshal am = [m] /\ is_system m = false.
Proof.
  destruct 1 as [s|s tcs Hcs|s id]; eexists; (split; [reflexivity|]); (split; [|reflexivity]).
  - unfold translateMessage, unmarshal_string. cbn [amContent amRole]. by rewrite marshal_nonempty, parse_marshal.
  - destruct (slice_codec (assistantToContentBlocks sprint (mkMsg "assistant" (JStr s) "" tcs ""))) as (E1 & E2 & E3).
    { assert (Hc : Forall (fun b => exists j, encode_block parse b = Some j /\ decode_block marshal j = Some b) (map block_of_call tcs)).
      { apply Forall_fmap. eapply Forall_impl; [exact Hcs|]. intros tc. apply call_block_ok. }
      unfold assistantToContentBlocks. cbn [omContent omToolCalls ContentText].
      destruct (s =? "")%string; cbn [app].
      - destruct (map block_of_call tcs) eqn:E; [|done]. apply Forall_singleton, text_codec.
      - apply Forall_cons. split; [apply text_codec|done]. }
    unfold translateMessage. cbn [amContent amRole]. rewrite E3, E2, E1. by apply translate_assistant.
  - destruct (slice_codec (toolResultToContentBlocks marshal (mkMsg "tool" (JStr s) "" [] id))) as (E1 & E2 & E3).
    { apply Forall_singleton, result_codec. }
    unfold translateMessage. cbn [amContent amRole]. rewrite E3, E2, E1. cbn. unfold result_of_block, extractToolResultContent,
      ExtractContentText, unmarshal_string. cbn. by rewrite marshal_nonempty, parse_marshal.
Qed.

Lemma plain_roundtrips ms :
  Forall plain_message ms ->
  concat (translateMessage parse marshal <$> omap (reverse_message parse marshal sprint) ms) = ms
  /\ List.filter is_system ms = [].
Proof.
  induction 1 as [|m ms Hm Hms [IH IHs]]; [done|]. destruct (plain_roundtrip m Hm) as (am & E & T & S).
  cbn [omap list_omap List.filter]. rewrite E, S. split; [|exact IHs].
  cbn [fmap list_fmap concat]. rewrite T. cbn [app]. f_equal. exact IH.
Qed.

Definition system_msg (s : string) : OpenAIMessage := mkMsg "system" (JStr s) "" [] "".

Lemma reverse_systems sys ms :
  omap (reverse_message parse marshal sprint) (map system_msg sys ++ ms) = omap (reverse_message parse marshal sprint) ms
  /\ List.filter is_system (map system_msg sys ++ ms) = map system_msg sys ++ List.filter is_system ms.
Proof. induction sys as [|s sys [IH1 IH2]]; cbn; [done|]. split; [exact IH1|]. by rewrite IH2. Qed.

Lemma system_text sys :
  extractSystemPrompt parse marshal (match sys with [] => "" | _ => marshal (JStr (join_lines sys)) end) = join_lines sys.
Proof.
  unfold extractSystemPrompt, unmarshal_string. destruct sys; [reflexivity|]. by rewrite marshal_nonempty, parse_marshal.
Qed.

(** An OpenAI conversation sent through an Anthropic provider and read back: the system
    prompts come first, joined by newlines into one, and every user, assistant and tool
    message, with its text, tool calls and tool results, is unchanged and in order. *)
Theorem request_roundtrip req sys ms :
  orMessages req = map system_msg sys ++ ms ->
  Forall plain_message ms -> ms <> [] -> orModel req <> "" ->
  0 < default (default 4096 (orMaxCompletionTokens req)) (orMaxTokens req) ->
  exists req', AnthropicToOpenAI parse marshal (OpenAIToAnthropicRequest parse marshal sprint req) (orModel req) = inr req'
    /\ orMessages req' = (if String.eqb (join_lines sys) "" then [] else [system_msg (join_lines sys)]) ++ ms
    /\ orModel req' = orModel req /\ orStream req' = orStream req /\ orUser req' = orUser req
    /\ orTemperature req' = orTemperature req /\ orTopP req' = orTopP req /\ orThinking req' = orThinking req
    /\ orMaxTokens req' = Some (default (default 4096 (orMaxCompletionTokens req)) (orMaxTokens req)).
Proof.
  intros Hm Hp Hne Hmodel Hmax. destruct (plain_roundtrips ms Hp) as [Hback Hsys].
  destruct (reverse_systems sys ms) as [Hrev Hfil]. rewrite Hsys, app_nil_r in Hfil.
  assert (Hparts : map (fun m => ContentText sprint (omContent m)) (map system_msg sys) = sys).
  { clear. induction sys; cbn; congruence. }
  assert (Hmax' : (match orMaxTokens req with Some n => n | None => default 4096 (orMaxCompletionTokens req) end <=? 0) = false).
  { apply Z.leb_gt. by destruct (orMaxTokens req). }
  unfold AnthropicToOpenAI, OpenAIToAnthropicRequest.
  cbn [arModel arMessages arMaxTokens arSystem arStream arTemperature arTopP arStopSequences arUserID arTools arToolChoice arThinking].
  rewrite (proj2 (String.eqb_neq _ _) Hmodel), Hm, Hrev, Hfil, Hparts, Hmax'.
  destruct (omap (reverse_message parse marshal sprint) ms) as [|am ams] eqn:Eo; [by rewrite <- Hback in Hne|].
  eexists. split; [reflexivity|]. cbn -[join_lines]. rewrite system_text, <- Hback. split_and!; try done.
  by destruct (String.eqb_spec (orUser req) "") as [->|].
Qed.
End Requests.

#[export] Instance encode_text_lawful : LawfulJson decode_text encode_text.
Proof. split; [apply decode_encode_text|reflexivity]. Qed.

Definition sample_request : OpenAIRequest :=
  {| orModel := "gpt";
     orMessages := map system_msg ["be"; "brief"] ++
       [mkMsg "user" (JStr "list") "" [] "";
        mkMsg "assistant" (JStr "ok") "" [mkToolCall "t1" "function" (mkFn "ls" (encode_text (JObj [])))] "";
        mkMsg "tool" (JStr "a b") "" [] "t1"];
     orMaxTokens := None; orMaxCompletionTokens := Some 64; orN := None; orStream := true; orTemperature := None;
     orTopP := None; orStop := StopNil; orUser := "u1"; orIncludeUsage := None; orTools := []; orToolChoice := JNull;
     orReasoningEffort := ""; orThinking := "" |}.

Lemma request_roundtrip_witness :
  exists req', AnthropicToOpenAI decode_text encode_text
      (OpenAIToAnthropicRequest decode_text encode_text (fun _ => "") sample_request) "gpt" = inr req'
    /\ orMessages req' = system_msg (join_lines ["be"; "brief"]) :: drop 2 (orMessages sample_request).
Proof.
  destruct (request_roundtrip decode_text encode_text (fun _ => "") sample_request ["be"; "brief"]
              (drop 2 (orMessages sample_request))) as (req' & E & Hm & _).
  - reflexivity.
  - repeat constructor. by exists (JObj []).
  - discriminate.
  - discriminate.
  - reflexivity.
  - exists req'. split; [exact E|exact Hm].
Defined.

(** *** Anthropic requests on an Anthropic provider *)

Section ToolChoice.
Context (parse : string -> option json) (marshal : json -> string) (sprint : json -> string).
Context {law : LawfulJson parse marshal}.

(** The tool choices of the Anthropic API with a counterpart in OpenAI's. *)
Inductive tool_choice := ChooseAuto | ChooseAny | ChooseTool (name : string).

Definition choice_json (c : tool_choice) : json :=
  match c with
  | ChooseAuto => JObj [("type", JStr "auto")]
  | ChooseAny => JObj [("type", JStr "any")]
  | ChooseTool name => JObj [("name", JStr name); ("type", JStr "tool")]
  end.

Lemma choice_roundtrip c :
  reverseToolChoice marshal (translateToolChoice parse (marshal (choice_json c))) = marshal (choice_json c)
  /\ translateToolChoice parse (marshal (choice_json c)) <> JNull.
Proof.
  unfold translateToolChoice. rewrite parse_marshal. destruct c; cbn; done.
Qed.

(** An Anthropic request served by an Anthropic provider crosses both translations.  The
    token limit, the streaming flag, the sampling parameters, the user, the thinking
    setting and a tool choice of the three common kinds arrive unchanged.  Stop sequences
    arrive only when there is exactly one: the forward translation makes a []string of two
    or more, which the reverse one does not recognise; [top_k] never arrives. *)
Theorem anthropic_request_passthrough req modelName req' c :
  AnthropicToOpenAI parse marshal req modelName = inr req' ->
  arToolChoice req = marshal (choice_json c) ->
  let back := OpenAIToAnthropicRequest parse marshal sprint req' in
  arModel back = modelName /\ arMaxTokens back = arMaxTokens req /\ arStream back = arStream req
  /\ arTemperature back = arTemperature req /\ arTopP back = arTopP req /\ arThinking back = arThinking req
  /\ default "" (arUserID back) = default "" (arUserID req)
  /\ arToolChoice back = arToolChoice req
  /\ arStopSequences back = match arStopSequences req with [s] => [s] | _ => [] end
  /\ arTopK back = None.
Proof.
  unfold AnthropicToOpenAI. destruct (arModel req =? "")%string; [done|]. destruct (arMessages req); [done|].
  destruct (arMaxTokens req <=? 0); [done|]. intros [= <-] Hc. rewrite Hc, (marshal_nonempty parse marshal (law := law)).
  destruct (choice_roundtrip c) as [Hr Hn].
  unfold OpenAIToAnthropicRequest. cbn -[translateToolChoice]. split_and!; try done.
  - by destruct (String.eqb_spec (default "" (arUserID req)) "") as [E|].
  - destruct (translateToolChoice parse (marshal (choice_json c))); done.
  - by destruct (arStopSequences req) as [|s [|s' ?]].
Qed.
End ToolChoice.

Definition sample_arequest : AnthropicRequest :=
  mkARequest "claude" 10 [mkAMessage "user" (encode_text (JStr "hi"))] "" false None None (Some 5)
    ["a"; "b"] None "" (encode_text (choice_json ChooseAny)) "".

Lemma anthropic_request_passthrough_witness :
  exists req', AnthropicToOpenAI decode_text encode_text sample_arequest "claude-3" = inr req' /\
    arStopSequences (OpenAIToAnthropicRequest decode_text encode_text (fun _ => "") req') = [] /\
    arMaxTokens (OpenAIToAnthropicRequest decode_text encode_text (fun _ => "") req') = 10.
Proof.
  eexists. split; [reflexivity|].
  pose proof (anthropic_request_passthrough decode_text encode_text (fun _ => "") sample_arequest "claude-3" _ ChooseAny
                eq_refl eq_refl) as (_ & Hm & _ & _ & _ & _ & _ & _ & Hs & _).
  split; [exact Hs|exact Hm].
Defined.

(** Tool definitions survive the trip through the Anthropic form. *)
Lemma atool_codec parse marshal (law : LawfulJson parse marshal) name desc schema :
  exists j, encode_atool parse (mkTool' "function" (mkFnDef name desc (marshal schema) None)) = Some j /\
    decode_atool marshal j = Some (mkATool name desc (marshal schema)).
Proof.
  unfold encode_atool. cbn [toFunction fdParameters fdName fdDescription].
  rewrite (marshal_nonempty parse marshal (law := law)), (parse_marshal (LawfulJson := law)).
  eexists. split; [reflexivity|]. unfold str_field. by destruct (String.eqb_spec desc "") as [->|Hd].
Qed.

Lemma tools_roundtrip parse marshal (law : LawfulJson parse marshal) ts :
  Forall (fun t => toType t = "function" /\ fdStrict (toFunction t) = None /\
            exists j, fdParameters (toFunction t) = marshal j) ts ->
  translateTools parse marshal (marshal_slice marshal (encode_atool parse) ts) = Some ts.
Proof.
  intros H.
  assert (Hj : exists js xs, encode_all (encode_atool parse) ts = Some js /\ decode_all (decode_atool marshal) js = Some xs /\
     map (fun t => mkTool' "function" (mkFnDef (atName t) (atDescription t) (atInputSchema t) None)) xs = ts).
  { induction H as [|[ty [nm ds ps st]] ts (Ht & Hs & j & Hp) Hts (js & xs & E & D & M)]; [by exists [], []|].
    cbn in Ht, Hs, Hp. subst ty st ps. destruct (atool_codec parse marshal law nm ds j) as (e & Ee & De).
    exists (e :: js), (mkATool nm ds (marshal j) :: xs). cbn [encode_all decode_all map]. rewrite Ee, De.
    cbn [mbind option_bind]. rewrite E, D, M. done. }
  destruct Hj as (js & xs & E & D & M). unfold translateTools, marshal_slice, as_slice.
  rewrite E, (parse_marshal (LawfulJson := law)). cbn [mbind option_bind as_list]. rewrite D. cbn. by rewrite M.
Qed.

(** Arguments that are not JSON make the whole assistant message empty: the encoding error
    of its blocks is dropped together with its text. *)
Lemma invalid_arguments_empty_message parse marshal sprint s id name args tcs :
  parse args = None -> args <> "" ->
  reverse_message parse marshal sprint
    (mkMsg "assistant" (JStr s) "" (mkToolCall id "function" (mkFn name args) :: tcs) "")
  = Some (mkAMessage "assistant" "").
Proof.
  intros Hp Hne. unfold reverse_message. cbn [is_system omRole]. cbn. do 2 f_equal.
  assert (Hb : encode_block parse (block_of_call (mkToolCall id "function" (mkFn name args))) = None).
  { unfold encode_block, block_of_call, jsonString, raw_field. cbn. rewrite (proj2 (String.eqb_neq _ _) Hne).
    cbn. by rewrite (proj2 (String.eqb_neq _ _) Hne), Hp. }
  unfold marshal_slice, assistantToContentBlocks. cbn [omContent omToolCalls ContentText map].
  destruct (s =? "")%string; cbn [app encode_all]; rewrite Hb; [done|].
  by destruct (encode_block parse (text_only "text" s)).
Qed.
