(* ===== verification/Period.v ===== *)
(** * Budget periods: [PeriodKey], [PeriodTTL] and [periodStartAt] of [internal/service/budget_service.go],
    [periodBoundaries] of [internal/service/budget_calibration.go]

    The calendar of package [time] in UTC (civil dates, weekdays and ISO weeks)
    over whole days since 1970-01-01, and the period functions over Unix
    seconds. *)

From stdpp Require Import pretty.
From S2P Require Import Prelude.

(** ** The calendar *)

Definition unix_day (now : Z) : Z := now / 86400.

Definition is_leap (y : Z) : bool := (y mod 4 =? 0) && (negb (y mod 100 =? 0) || (y mod 400 =? 0)).

(** The day number of January 1st. *)
Definition year_start (y : Z) : Z :=
  365 * (y - 1970) + (y - 1) / 4 - (y - 1) / 100 + (y - 1) / 400 - 477.

(** [Time.Year]: the estimate from the mean Gregorian year, corrected by at most one. *)
Definition Year (d : Z) : Z :=
  let y := (d + 719162) * 400 / 146097 + 1 in
  if d <? year_start y then y - 1 else if year_start (y + 1) <=? d then y + 1 else y.

(** [Time.YearDay], from 0 *)
Definition yday (d : Z) : Z := d - year_start (Year d).

Definition days_before (leap : bool) (m : Z) : Z :=
  nth (Z.to_nat (m - 1)) [0; 31; 59; 90; 120; 151; 181; 212; 243; 273; 304; 334; 365] 0
  + (if leap && (2 <? m) then 1 else 0).

Definition months : list Z := [1; 2; 3; 4; 5; 6; 7; 8; 9; 10; 11; 12].

Definition month_of (leap : bool) (yd : Z) : Z :=
  Z.of_nat (length (List.filter (fun m => days_before leap m <=? yd) months)).

(** [Time.Month] *)
Definition Month (d : Z) : Z := month_of (is_leap (Year d)) (yday d).

(** The day number of the first day of a month. *)
Definition month_start (y m : Z) : Z := year_start y + days_before (is_leap y) m.

(** [Time.Day] *)
Definition Day (d : Z) : Z := d - month_start (Year d) (Month d) + 1.

(** [Time.Weekday], Sunday = 0; 1970-01-01 was a Thursday. *)
Definition Weekday (d : Z) : Z := (d + 4) mod 7.

(** [Time.ISOWeek]: the year and week of the Thursday of the Monday-based week. *)
Definition iso_thursday (d : Z) : Z :=
  let delta := 4 - Weekday d in d + (if delta =? 4 then -3 else delta).

Definition ISOWeek (d : Z) : Z * Z :=
  let t := iso_thursday d in (Year t, yday t / 7 + 1).

(** ** The period functions *)

Fixpoint zeros (n : nat) : string := match n with O => "" | S n => "0" +:+ zeros n end.

(** "%0wd" of a natural number, and a number in a [Format] layout *)
Definition pad (w : nat) (z : Z) : string :=
  let s := pretty z in zeros (w - String.length s) +:+ s.

Definition monthly_key (d : Z) : string := pad 4 (Year d) +:+ "-" +:+ pad 2 (Month d).

Definition PeriodKey (now : Z) (period : string) : string :=
  let d := unix_day now in
  if String.eqb period "daily" then monthly_key d +:+ "-" +:+ pad 2 (Day d)
  else if String.eqb period "weekly" then
    let '(y, w) := ISOWeek d in pretty y +:+ "-W" +:+ pad 2 w
  else monthly_key d.

Definition Hour : Z := 60 * Minute.

Definition PeriodTTL (period : string) : Z :=
  if String.eqb period "daily" then 48 * Hour
  else if String.eqb period "weekly" then 14 * 24 * Hour
  else 62 * 24 * Hour.

Definition periodStartAt (period : string) (now : Z) : Z :=
  let d := unix_day now in
  86400 *
  (if String.eqb period "daily" then d
   else if String.eqb period "weekly" then
     let jan4 := year_start (Year d) + 3 in
     let wk1 := snd (ISOWeek jan4) in
     let w := snd (ISOWeek d) in
     let monday := jan4 + - ((Weekday jan4 + 6) mod 7) in
     monday + (w - wk1) * 7
   else month_start (Year d) (Month d)).

(** ** The calendar is right *)

Lemma year_start_next y : year_start (y + 1) - year_start y = if is_leap y then 366 else 365.
Proof.
  unfold year_start, is_leap.
  destruct (Z.eqb_spec (y mod 4) 0), (Z.eqb_spec (y mod 100) 0), (Z.eqb_spec (y mod 400) 0); cbn; div_lia.
Qed.

Lemma Year_spec d : year_start (Year d) <= d < year_start (Year d + 1).
Proof.
  unfold Year. set (y := (d + 719162) * 400 / 146097 + 1). 
  assert (year_start (y - 1) <= d < year_start (y + 2)).
  { subst y. unfold year_start. div_lia. }
  destruct (Z.ltb_spec d (year_start y)); [rewrite Z.sub_add; lia|].
  destruct (Z.leb_spec (year_start (y + 1)) d); [|lia].
  replace (y + 1 + 1) with (y + 2) by lia. lia.
Qed.

Lemma year_start_mono y1 y2 : y1 <= y2 -> year_start y1 <= year_start y2.
Proof. unfold year_start. intros H. div_lia. Qed.

Lemma Year_unique d y : year_start y <= d < year_start (y + 1) -> Year d = y.
Proof.
  intros H. pose proof (Year_spec d) as H'.
  destruct (Z.lt_trichotomy (Year d) y) as [Hlt|[->|Hgt]]; [|done|].
  - pose proof (year_start_mono (Year d + 1) y ltac:(lia)). lia.
  - pose proof (year_start_mono (y + 1) (Year d) ltac:(lia)). lia.
Qed.

Lemma year_length y : 365 <= year_start (y + 1) - year_start y <= 366.
Proof. rewrite year_start_next. destruct (is_leap y); lia. Qed.

(** The Monday of a day's week. *)
Definition monday (d : Z) : Z := d - (Weekday d + 6) mod 7.

Lemma monday_spec d : monday d mod 7 = 4 /\ monday d <= d < monday d + 7.
Proof. unfold monday, Weekday. div_lia. Qed.

Lemma monday_unique d m : m mod 7 = 4 -> m <= d < m + 7 -> monday d = m.
Proof. intros Hm H. pose proof (monday_spec d). div_lia. Qed.

Lemma iso_thursday_monday d : iso_thursday d = monday d + 3.
Proof.
  unfold iso_thursday, monday, Weekday. destruct (Z.eqb_spec (4 - (d + 4) mod 7) 4); div_lia.
Qed.

(** The week of January 4th is week 1, and its Thursday is the first of the year. *)
Lemma jan4_week y :
  let jan4 := year_start y + 3 in
  ISOWeek jan4 = (y, 1) /\ year_start y <= iso_thursday jan4 < year_start y + 7.
Proof.
  cbv zeta. set (jan4 := year_start y + 3). pose proof (monday_spec jan4). pose proof (year_length y).
  unfold ISOWeek. rewrite iso_thursday_monday.
  assert (Hy : Year (monday jan4 + 3) = y) by (apply Year_unique; lia).
  unfold yday. rewrite Hy. split; [|lia]. f_equal. rewrite Z.div_small by lia. done.
Qed.

(** The weekly start, by weeks from the first Monday of the calendar year's ISO weeks. *)
Lemma weekly_start now :
  let d := unix_day now in
  periodStartAt "weekly" now
  = 86400 * (monday (year_start (Year d) + 3) + 7 * (yday (iso_thursday d) / 7)).
Proof.
  cbv zeta. unfold periodStartAt. cbn [String.eqb Ascii.eqb Bool.eqb].
  destruct (jan4_week (Year (unix_day now))) as [-> _]. unfold ISOWeek at 1. cbn [snd]. unfold monday. lia.
Qed.

Lemma yday_weeks d :
  let t := iso_thursday d in
  monday (year_start (Year t) + 3) + 7 * (yday t / 7) = monday d.
Proof.
  cbv zeta. rewrite iso_thursday_monday. set (t := monday d + 3).
  pose proof (monday_spec d). pose proof (monday_spec (year_start (Year t) + 3)).
  pose proof (Year_spec t). unfold yday. div_lia.
Qed.

(** In the last days of December that belong to week 1 of the next year, and in the first of
    January that belong to the last week of the year before, the weekly start is a year off. *)
Lemma weekly_start_cases now :
  let d := unix_day now in
  let start := periodStartAt "weekly" now in
  let w := 86400 * monday d in
  (fst (ISOWeek d) = Year d /\ start = w)
  \/ (fst (ISOWeek d) = Year d + 1 /\ start <= w - 52 * 7 * 86400)
  \/ (fst (ISOWeek d) = Year d - 1 /\ w + 52 * 7 * 86400 <= start).
Proof.
  cbv zeta. rewrite weekly_start. set (d := unix_day now). cbn [fst ISOWeek].
  pose proof (yday_weeks d) as Hw. cbv zeta in Hw. unfold ISOWeek. cbn [fst].
  set (t := iso_thursday d) in *. pose proof (iso_thursday_monday d : t = _). pose proof (monday_spec d).
  pose proof (Year_spec t). pose proof (Year_spec d). pose proof (year_length (Year d)).
  pose proof (year_length (Year d - 1)) as Hp. rewrite Z.sub_add in Hp.
  assert (Hc : Year t = Year d \/ Year t = Year d + 1 \/ Year t = Year d - 1).
  { destruct (Z_lt_le_dec t (year_start (Year d))).
    - right; right. apply Year_unique. rewrite Z.sub_add. lia.
    - destruct (Z_lt_le_dec t (year_start (Year d + 1))); [left; apply Year_unique; lia|].
      right; left. apply Year_unique. pose proof (year_length (Year d + 1)). lia. }
  destruct Hc as [E|[E|E]]; rewrite E in *; [left|right; left|right; right]; (split; [done|]); unfold yday in *;
    rewrite E in *.
  - lia.
  - pose proof (monday_spec (year_start (Year d) + 3)). pose proof (monday_spec (year_start (Year d + 1) + 3)).
    div_lia.
  - pose proof (monday_spec (year_start (Year d) + 3)). pose proof (monday_spec (year_start (Year d - 1) + 3)).
    div_lia.
Qed.

(** ** Months *)

Lemma month_of_spec (leap : bool) (yd : Z) :
  0 <= yd < (if leap then 366 else 365) ->
  let m := month_of leap yd in
  1 <= m <= 12 /\ days_before leap m <= yd < days_before leap (m + 1)
  /\ days_before leap (m + 1) <= (if leap then 366 else 365)
  /\ 28 <= days_before leap (m + 1) - days_before leap m <= 31.
Proof.
  intros H. cbv zeta.
  assert (Hall : forallb (fun i => let yd := Z.of_nat i in let m := month_of leap yd in
      let a := days_before leap m in let b := days_before leap (m + 1) in
      (1 <=? m) && (m <=? 12) && (a <=? yd) && (yd <? b) && (b <=? if leap then 366 else 365)
      && (28 <=? b - a) && (b - a <=? 31)) (seq 0 (if leap then 366 else 365)) = true)
    by (by destruct leap; vm_compute).
  rewrite forallb_forall in Hall. specialize (Hall (Z.to_nat yd)). rewrite Z2Nat.id in Hall by lia. cbv zeta in Hall.
  specialize (Hall ltac:(apply in_seq; destruct leap; lia)). lia.
Qed.

Lemma days_before_mono leap a b :
  1 <= a -> a <= b <= 13 -> days_before leap a <= days_before leap b.
Proof.
  intros Ha Hb.
  assert (H : forallb (fun i => forallb (fun j => (j <? i)%nat || (days_before leap (Z.of_nat i) <=? days_before leap (Z.of_nat j)))
                (seq 1 13)) (seq 1 13) = true) by (by destruct leap).
  rewrite forallb_forall in H. specialize (H (Z.to_nat a) ltac:(apply in_seq; lia)).
  rewrite forallb_forall in H. specialize (H (Z.to_nat b) ltac:(apply in_seq; lia)).
  rewrite !Z2Nat.id in H by lia. destruct (Nat.ltb_spec (Z.to_nat b) (Z.to_nat a)); [lia|]. cbn in H. lia.
Qed.

Lemma year_day_range d : 0 <= yday d < (if is_leap (Year d) then 366 else 365).
Proof. unfold yday. rewrite <- year_start_next. pose proof (Year_spec d). lia. Qed.

Lemma Month_spec d :
  1 <= Month d <= 12 /\ month_start (Year d) (Month d) <= d < month_start (Year d) (Month d + 1)
  /\ month_start (Year d) (Month d + 1) <= year_start (Year d + 1)
  /\ year_start (Year d) <= month_start (Year d) (Month d)
  /\ 28 <= month_start (Year d) (Month d + 1) - month_start (Year d) (Month d) <= 31.
Proof.
  pose proof (year_day_range d) as Hr. pose proof (month_of_spec _ _ Hr : let m := Month d in _) as H. cbv zeta in H.
  unfold month_start. pose proof (year_start_next (Year d)). unfold yday in *.
  pose proof (days_before_mono (is_leap (Year d)) 1 (Month d) ltac:(lia) ltac:(lia)).
  assert (days_before (is_leap (Year d)) 1 = 0) by (by destruct (is_leap _)). lia.
Qed.

(** A day of a month has the year and the month of that month. *)
Lemma Month_unique d y m :
  1 <= m <= 12 -> month_start y m <= d < month_start y (m + 1) -> Year d = y /\ Month d = m.
Proof.
  intros Hm Hd.
  assert (Hy : Year d = y).
  { apply Year_unique. pose proof (year_start_next y). unfold month_start in Hd.
    pose proof (days_before_mono (is_leap y) 1 m ltac:(lia) ltac:(lia)).
    pose proof (days_before_mono (is_leap y) (m + 1) 13 ltac:(lia) ltac:(lia)).
    assert (days_before (is_leap y) 1 = 0 /\ days_before (is_leap y) 13 = if is_leap y then 366 else 365)
      by (by destruct (is_leap y)). lia. }
  split; [done|]. pose proof (Month_spec d) as H. rewrite Hy in H. unfold month_start in *.
  destruct (Z.lt_trichotomy (Month d) m) as [Hlt|[->|Hgt]]; [|done|].
  - pose proof (days_before_mono (is_leap y) (Month d + 1) m ltac:(lia) ltac:(lia)). lia.
  - pose proof (days_before_mono (is_leap y) (m + 1) (Month d) ltac:(lia) ltac:(lia)). lia.
Qed.

(** Months have at least 28 days and tile the year. *)
Lemma month_start_next y m : 1 <= m <= 12 -> month_start y m + 28 <= month_start y (m + 1) <= month_start y m + 31.
Proof.
  intros Hm. unfold month_start. generalize (is_leap y) as l. intros l.
  assert (H : forallb (fun i => let a := days_before l (Z.of_nat i) in let b := days_before l (Z.of_nat i + 1) in
                (a + 28 <=? b) && (b <=? a + 31)) (seq 1 12) = true) by (by destruct l).
  rewrite forallb_forall in H. specialize (H (Z.to_nat m) ltac:(apply in_seq; lia)).
  rewrite Z2Nat.id in H by lia. cbv zeta in H. lia.
Qed.

Lemma month_start_13 y : month_start y 13 = year_start (y + 1).
Proof.
  unfold month_start. pose proof (year_start_next y) as H.
  replace (days_before (is_leap y) 13) with (if is_leap y then 366 else 365) by (by destruct (is_leap y)). lia.
Qed.

Lemma month_start_1 y : month_start y 1 = year_start y.
Proof.
  unfold month_start. replace (days_before (is_leap y) 1) with 0 by (by destruct (is_leap y)). lia.
Qed.

(** The day before a month's first is in another month. *)
Lemma Month_before y m : 1 <= m <= 12 -> Month (month_start y m - 1) <> m.
Proof.
  intros Hm. destruct (Z.eq_dec m 1) as [->|Hne].
  - pose proof (month_start_13 (y - 1)) as H. rewrite Z.sub_add in H. rewrite month_start_1.
    pose proof (month_start_next (y - 1) 12 ltac:(lia)) as H12. change (12 + 1) with 13 in H12.
    destruct (Month_unique (year_start y - 1) (y - 1) 12) as [_ ->]; [lia| |done].
    change (12 + 1) with 13. lia.
  - pose proof (month_start_next y (m - 1) ltac:(lia)) as Hn. rewrite Z.sub_add in Hn.
    destruct (Month_unique (month_start y m - 1) y (m - 1)) as [_ ->]; [lia| |lia]. rewrite Z.sub_add. lia.
Qed.

(** ** Period keys *)

Definition digit (c : ascii) : Z := Z.of_nat (nat_of_ascii c) - 48.

Definition unpad (s : string) : Z :=
  match s with String a (String b EmptyString) => 10 * digit a + digit b | _ => -1 end.

Lemma unpad_pad z : 0 <= z < 100 -> unpad (pad 2 z) = z /\ String.length (pad 2 z) = 2%nat.
Proof.
  intros Hz.
  assert (H : forallb (fun i => let s := pad 2 (Z.of_nat i) in
      (unpad s =? Z.of_nat i) && (String.length s =? 2)%nat) (seq 0 100) = true) by (by vm_compute).
  rewrite forallb_forall in H. specialize (H (Z.to_nat z) ltac:(apply in_seq; lia)).
  rewrite Z2Nat.id in H by lia. cbv zeta in H. apply andb_prop in H as [H1 H2].
  apply Z.eqb_eq in H1. apply Nat.eqb_eq in H2. done.
Qed.

Lemma string_suffix_inj a b s t :
  String.length s = String.length t -> a +:+ s = b +:+ t -> s = t.
Proof.
  intros Hl. revert b. induction a as [|c a IH]; intros b E.
  - destruct b as [|c b]; [done|]. apply (f_equal String.length) in E. rewrite !string_length_app in E.
    cbn in E. lia.
  - destruct b as [|c' b].
    + apply (f_equal String.length) in E. rewrite !string_length_app in E. cbn in E. lia.
    + injection E as _ E. by apply IH in E.
Qed.

(** Keys that end in different two-digit numbers differ. *)
Lemma pad_suffix_neq a b x y : 0 <= x < 100 -> 0 <= y < 100 -> x <> y -> a +:+ pad 2 x <> b +:+ pad 2 y.
Proof.
  intros Hx Hy Hne E. destruct (unpad_pad x Hx) as [Ux Lx], (unpad_pad y Hy) as [Uy Ly].
  apply string_suffix_inj in E; congruence.
Qed.

Lemma Day_range d : 1 <= Day d <= 31.
Proof. unfold Day. pose proof (Month_spec d). lia. Qed.

Lemma Day_before d : Day (d - 1) <> Day d.
Proof.
  pose proof (Month_spec d) as H. pose proof (Day_range (d - 1)). unfold Day at 2.
  destruct (Z.eq_dec d (month_start (Year d) (Month d))) as [E|E].
  - unfold Day. intros E'. 
    pose proof (Month_spec (d - 1)) as H'. pose proof (Month_before (Year d) (Month d) ltac:(lia)) as Hb.
    rewrite <- E in Hb. 
    pose proof (month_start_next (Year (d - 1)) (Month (d - 1)) ltac:(lia)) as Hn.
    assert (Hd : d - 1 = month_start (Year (d - 1)) (Month (d - 1))) by lia.
    destruct (Month_unique d (Year (d - 1)) (Month (d - 1))) as [_ Hm]; [lia|lia|congruence].
  - destruct (Month_unique (d - 1) (Year d) (Month d)) as [Hy Hm]; [lia|lia|]. unfold Day. rewrite Hy, Hm. lia.
Qed.

Lemma week_range d : 1 <= snd (ISOWeek d) <= 53.
Proof. unfold ISOWeek. cbn [snd]. pose proof (year_day_range (iso_thursday d)). destruct (is_leap _); div_lia. Qed.

(** The days of a week share its ISO week; the day before its Monday has another week number. *)
Lemma ISOWeek_same d d' : monday d' = monday d -> ISOWeek d' = ISOWeek d.
Proof. intros H. unfold ISOWeek. by rewrite !iso_thursday_monday, H. Qed.

Lemma ISOWeek_before d : snd (ISOWeek (monday d - 1)) <> snd (ISOWeek d).
Proof.
  unfold ISOWeek. cbn [snd]. rewrite !iso_thursday_monday. pose proof (monday_spec d) as H.
  rewrite (monday_unique (monday d - 1) (monday d - 7)) by (div_lia).
  replace (monday d - 7 + 3) with (monday d + 3 - 7) by lia. set (t := monday d + 3).
  pose proof (Year_spec t) as Ht. unfold yday.
  destruct (Z_lt_le_dec (t - 7) (year_start (Year t))) as [Hlt|Hge].
  - pose proof (year_length (Year t - 1)) as Hl. rewrite Z.sub_add in Hl.
    rewrite (Year_unique (t - 7) (Year t - 1)) by (rewrite Z.sub_add; lia). div_lia.
  - rewrite (Year_unique (t - 7) (Year t)) by lia. div_lia.
Qed.

Lemma unix_day_before s : unix_day (86400 * s - 1) = s - 1.
Proof. unfold unix_day. div_lia. Qed.

Lemma unix_day_between s t now : 86400 * s <= t <= now -> s <= unix_day t <= unix_day now.
Proof. unfold unix_day. intros H. div_lia. Qed.

Lemma unix_day_le s now : s <= unix_day now -> 86400 * s <= now.
Proof. unfold unix_day. intros H. div_lia. Qed.

(** The bucket of [now] starts at day [s]: same key from there on, another key the day before. *)
Definition starts_bucket (key : Z -> string) (s d : Z) : Prop :=
  s <= d /\ (forall d', s <= d' <= d -> key d' = key d) /\ key (s - 1) <> key d.

Definition daily_key (d : Z) : string := monthly_key d +:+ "-" +:+ pad 2 (Day d).
Definition weekly_key (d : Z) : string := pretty (fst (ISOWeek d)) +:+ "-W" +:+ pad 2 (snd (ISOWeek d)).

Lemma daily_bucket d : starts_bucket daily_key d d.
Proof.
  split_and!; [lia|by intros d' Hd; replace d' with d by lia|].
  unfold daily_key. rewrite !string_app_assoc. 
  apply pad_suffix_neq; [pose proof (Day_range (d - 1)); lia|pose proof (Day_range d); lia|apply Day_before].
Qed.

Lemma monthly_bucket d : starts_bucket monthly_key (month_start (Year d) (Month d)) d.
Proof.
  pose proof (Month_spec d) as H. split_and!; [lia| |].
  - intros d' Hd. unfold monthly_key. by destruct (Month_unique d' (Year d) (Month d)) as [-> ->]; [lia|lia|].
  - unfold monthly_key. rewrite !string_app_assoc. set (p := month_start _ _ - 1).
    apply pad_suffix_neq; [pose proof (Month_spec p); lia|lia|]. apply Month_before. lia.
Qed.

Lemma weekly_bucket d : starts_bucket weekly_key (monday d) d.
Proof.
  pose proof (monday_spec d) as H. split_and!; [lia| |].
  - intros d' Hd. unfold weekly_key. rewrite (ISOWeek_same d d'); [done|]. apply monday_unique; lia.
  - unfold weekly_key. rewrite !string_app_assoc.
    apply pad_suffix_neq; [pose proof (week_range (monday d - 1)); lia|pose proof (week_range d); lia|].
    apply ISOWeek_before.
Qed.

Definition key_of (period : string) : Z -> string :=
  if String.eqb period "daily" then daily_key else if String.eqb period "weekly" then weekly_key else monthly_key.

Lemma PeriodKey_day now period : PeriodKey now period = key_of period (unix_day now).
Proof.
  unfold PeriodKey, key_of. destruct (String.eqb period "daily"); [done|].
  by destruct (String.eqb period "weekly").
Qed.

Lemma PeriodKey_nonempty now period : PeriodKey now period <> "".
Proof.
  assert (H : forall a b, a +:+ "-" +:+ b <> "") by (by intros []).
  rewrite PeriodKey_day. unfold key_of, daily_key, weekly_key, monthly_key. repeat case_match; try apply H.
Qed.

Lemma bucket_of_days period s now :
  starts_bucket (key_of period) s (unix_day now) ->
  let start := 86400 * s in
  start <= now /\ (forall t, start <= t <= now -> PeriodKey t period = PeriodKey now period)
  /\ PeriodKey (start - 1) period <> PeriodKey now period.
Proof.
  intros (H1 & H2 & H3). cbv zeta. split_and!.
  - by apply unix_day_le.
  - intros t Ht. rewrite !PeriodKey_day. apply H2. by apply unix_day_between.
  - by rewrite !PeriodKey_day, unix_day_before.
Qed.

(** [PeriodStart] is the lower bound that matches [PeriodKey]: every instant from it to now has
    now's key and the instant before it has another, for every period; for weekly periods, when
    the ISO year of now is its calendar year. *)
Theorem period_start_matches_key period now :
  (period = "weekly" -> fst (ISOWeek (unix_day now)) = Year (unix_day now)) ->
  let start := periodStartAt period now in
  start <= now /\ (forall t, start <= t <= now -> PeriodKey t period = PeriodKey now period)
  /\ PeriodKey (start - 1) period <> PeriodKey now period.
Proof.
  intros Hw. cbv zeta. pose proof (weekly_start_cases now) as Hc. cbv zeta in Hc.
  unfold periodStartAt in *. 
  destruct (String.eqb_spec period "daily") as [->|Hd]; [apply bucket_of_days, daily_bucket|].
  destruct (String.eqb_spec period "weekly") as [->|Hk].
  - cbn [String.eqb Ascii.eqb Bool.eqb] in Hc. specialize (Hw eq_refl).
    destruct Hc as [[_ ->]|[[E _]|[E _]]]; [|lia|lia]. apply bucket_of_days, weekly_bucket.
  - apply bucket_of_days. unfold key_of. rewrite (proj2 (String.eqb_neq _ _) Hd), (proj2 (String.eqb_neq _ _) Hk).
    apply monthly_bucket.
Qed.

(** 2026-01-07 12:00:00 UTC *)
Definition sample_instant : Z := 1767787200.

Lemma period_start_matches_key_witness :
  periodStartAt "weekly" sample_instant = 1767571200 /\ PeriodKey sample_instant "weekly" = "2026-W02"
  /\ PeriodKey (periodStartAt "weekly" sample_instant - 1) "weekly" <> PeriodKey sample_instant "weekly".
Proof.
  split; [vm_compute; reflexivity|]. split; [vm_compute; reflexivity|].
  apply (period_start_matches_key "weekly" sample_instant). intros _. vm_compute. reflexivity.
Defined.

(** Around the turn of the year the weekly start is off by a year: in the last days of December
    that belong to week 1 it is at least 52 weeks before the week's Monday, and in the first days
    of January that belong to the last week of the old year it is in the future. *)
Theorem weekly_start_across_years now :
  fst (ISOWeek (unix_day now)) <> Year (unix_day now) ->
  let start := periodStartAt "weekly" now in
  start <= 86400 * monday (unix_day now) - 52 * 7 * 86400 \/ now < start.
Proof.
  intros Hne. cbv zeta. destruct (weekly_start_cases now) as [[E _]|[[_ H]|[_ H]]]; [done|by left|right].
  pose proof (monday_spec (unix_day now)). unfold unix_day in *. div_lia.
Qed.

(** 2027-01-01 12:00:00 UTC, in week 53 of 2026: the start computed is 2028-01-03. *)
Lemma weekly_start_across_years_witness :
  let now := 1798804800 in
  PeriodKey now "daily" = "2027-01-01" /\ PeriodKey now "weekly" = "2026-W53" /\
  PeriodKey (periodStartAt "weekly" now) "daily" = "2028-01-03" /\
  (periodStartAt "weekly" now <= 86400 * monday (unix_day now) - 52 * 7 * 86400 \/ now < periodStartAt "weekly" now).
Proof.
  cbv zeta. do 3 (split; [vm_compute; reflexivity|]).
  apply (weekly_start_across_years 1798804800). vm_compute. discriminate.
Defined.

(** ** The bounds of a period: [periodBoundaries] of [internal/service/budget_calibration.go] *)

(** [time.Date] at midnight, with months and days that need not be in range *)
Definition Date (y m d : Z) : Z := month_start (y + (m - 1) / 12) ((m - 1) mod 12 + 1) + d - 1.

Definition periodBoundaries (period : string) (now : Z) : Z * Z :=
  let d := unix_day now in
  let '(start, end_) :=
    if String.eqb period "daily" then
      let start := Date (Year d) (Month d) (Day d) in (start, start + 1)
    else if String.eqb period "weekly" then
      let weekday := if Weekday d =? 0 then 7 else Weekday d in
      let start := Date (Year d) (Month d) (Day d - weekday + 1) in (start, start + 7)
    else (Date (Year d) (Month d) 1, Date (Year d) (Month d + 1) 1) in
  (86400 * start, 86400 * end_).

Lemma Date_in_range y m d : 1 <= m <= 12 -> Date y m d = month_start y m + d - 1.
Proof. intros H. unfold Date. rewrite Z.div_small, Z.mod_small, Z.add_0_r, Z.sub_add by lia. done. Qed.

Lemma Date_civil d : Date (Year d) (Month d) (Day d) = d.
Proof. rewrite Date_in_range by apply Month_spec. unfold Day. lia. Qed.

Lemma Date_next_month y m : 1 <= m <= 12 -> Date y (m + 1) 1 = month_start y (m + 1).
Proof.
  intros H. destruct (Z.eq_dec m 12) as [->|Hne]; [|rewrite Date_in_range by lia; lia].
  change (12 + 1) with 13. rewrite month_start_13. unfold Date. change ((13 - 1) / 12) with 1. change ((13 - 1) mod 12 + 1) with 1.
  rewrite month_start_1. lia.
Qed.

(** The bounds in days. *)
Lemma boundaries_days period now :
  let d := unix_day now in
  periodBoundaries period now =
    if String.eqb period "daily" then (86400 * d, 86400 * (d + 1))
    else if String.eqb period "weekly" then (86400 * monday d, 86400 * (monday d + 7))
    else (86400 * month_start (Year d) (Month d), 86400 * month_start (Year d) (Month d + 1)).
Proof.
  cbv zeta. unfold periodBoundaries. destruct (String.eqb period "daily"); [by rewrite Date_civil|].
  destruct (Month_spec (unix_day now)) as [Hm _]. destruct (String.eqb period "weekly").
  - rewrite Date_in_range by done. unfold Day, monday, Weekday. f_equal; destruct (Z.eqb_spec ((unix_day now + 4) mod 7) 0); div_lia.
  - rewrite Date_next_month, Date_in_range by done. f_equal; lia.
Qed.

(** Years of four digits are told apart by their text. *)
Definition read_year (s : string) : Z := fold_left (fun n c => 10 * n + digit c) (String.list_ascii_of_string s) 0.

Lemma read_pad_year y : 0 <= y < 10000 -> read_year (pad 4 y) = y /\ String.length (pad 4 y) = 4%nat.
Proof.
  intros Hy.
  assert (H : forallb (fun i => let s := pad 4 (Z.of_nat i) in
      (read_year s =? Z.of_nat i) && (String.length s =? 4)%nat) (seq 0 (Z.to_nat 10000)) = true) by (by vm_compute).
  rewrite forallb_forall in H. specialize (H (Z.to_nat y) ltac:(apply in_seq; lia)).
  rewrite Z2Nat.id in H by lia. cbv zeta in H.
  apply andb_prop in H as [H1%Z.eqb_eq H2%Nat.eqb_eq]. done.
Qed.

Lemma string_cut_inj a b s t : String.length s = String.length t -> a +:+ s = b +:+ t -> a = b /\ s = t.
Proof.
  intros Hl E. pose proof (string_suffix_inj a b s t Hl E) as <-. split; [|done]. clear Hl. revert b E.
  induction a as [|c a IH]; intros [|c' b] E; [done|..].
  - apply (f_equal String.length) in E. rewrite !string_length_app in E. cbn in E. lia.
  - apply (f_equal String.length) in E. rewrite !string_length_app in E. cbn in E. lia.
  - injection E as -> E. f_equal. by apply IH.
Qed.

Lemma pad_inj a b x y : 0 <= x < 100 -> 0 <= y < 100 -> a +:+ pad 2 x = b +:+ pad 2 y -> a = b /\ x = y.
Proof.
  intros Hx Hy E. destruct (unpad_pad x Hx) as [Ux Lx], (unpad_pad y Hy) as [Uy Ly].
  apply string_cut_inj in E as [-> E]; [|congruence]. split; [done|]. by rewrite <- Ux, <- Uy, E.
Qed.

Definition four_digits (d : Z) : Prop := 0 <= Year d < 10000.

Lemma monthly_key_inj d e : four_digits d -> four_digits e -> monthly_key d = monthly_key e -> Year d = Year e /\ Month d = Month e.
Proof.
  intros Hd He E. unfold monthly_key in E. rewrite !string_app_assoc in E.
  destruct (Month_spec d) as [Md _], (Month_spec e) as [Me _]. apply pad_inj in E as [E ->]; [|lia|lia]. split; [|done].
  apply string_cut_inj in E as [E _]; [|done]. destruct (read_pad_year _ Hd) as [<- _], (read_pad_year _ He) as [<- _]. by rewrite E.
Qed.

Lemma daily_key_inj d e : four_digits d -> four_digits e -> daily_key d = daily_key e -> d = e.
Proof.
  intros Hd He E. unfold daily_key in E. rewrite !string_app_assoc in E.
  pose proof (Day_range d). pose proof (Day_range e). apply pad_inj in E as [E ED]; [|lia|lia].
  apply string_cut_inj in E as [E _]; [|done]. apply monthly_key_inj in E as [Ey Em]; [|done|done].
  unfold Day in ED. rewrite Ey, Em in ED. lia.
Qed.

Lemma weekly_key_inj d e : weekly_key d = weekly_key e -> monday d = monday e.
Proof.
  intros E. unfold weekly_key in E. rewrite !string_app_assoc in E.
  pose proof (week_range d). pose proof (week_range e). apply pad_inj in E as [E Ew]; [|lia|lia].
  apply string_cut_inj in E as [E _]; [|done]. apply (inj pretty) in E. unfold ISOWeek in E, Ew. cbn [fst snd] in E, Ew.
  rewrite <- (yday_weeks d), <- (yday_weeks e). rewrite E. lia.
Qed.

(** The rows a calibration round takes for a period are those of its key: an instant is
    within the bounds of [periodBoundaries] exactly if it has the same [PeriodKey] as now, for
    every period and over the turn of months and years. *)
Theorem boundaries_are_the_bucket period now t :
  four_digits (unix_day now) -> four_digits (unix_day t) ->
  let '(start, end_) := periodBoundaries period now in
  start <= t < end_ <-> PeriodKey t period = PeriodKey now period.
Proof.
  intros Hn Ht. rewrite boundaries_days, !PeriodKey_day. unfold key_of.
  assert (forall a b, 86400 * a <= t < 86400 * b <-> a <= unix_day t < b) as Hday by (intros; unfold unix_day; div_lia).
  destruct (String.eqb period "daily"); [|destruct (String.eqb period "weekly")]; rewrite Hday.
  - split; [intros H; f_equal; lia|intros H%daily_key_inj; [lia|done..]].
  - pose proof (monday_spec (unix_day now)) as [Hm _]. pose proof (monday_spec (unix_day t)) as Hmt. split.
    + intros H. unfold weekly_key. by rewrite (ISOWeek_same (unix_day now) (unix_day t)) by (by apply monday_unique).
    + intros H%weekly_key_inj. lia.
  - destruct (Month_spec (unix_day now)) as [Hm _]. split.
    + intros [Ey Em]%Month_unique; [|done]. unfold monthly_key. by rewrite Ey, Em.
    + intros [Ey Em]%monthly_key_inj; [|done|done]. rewrite <- Ey, <- Em. destruct (Month_spec (unix_day t)) as (_ & H & _). done.
Qed.

(** 2027-01-01 12:00 UTC and 2026-12-28 00:00 UTC are of the same ISO week. *)
Lemma boundaries_are_the_bucket_witness :
  periodBoundaries "weekly" 1798804800 = (1798416000, 1799020800) /\
  PeriodKey 1798416000 "weekly" = PeriodKey 1798804800 "weekly".
Proof.
  split; [vm_compute; reflexivity|]. apply (boundaries_are_the_bucket "weekly" 1798804800 1798416000).
  - unfold four_digits. vm_compute. split; [discriminate|reflexivity].
  - unfold four_digits. vm_compute. split; [discriminate|reflexivity].
  - vm_compute. split; [discriminate|reflexivity].
Defined.
