(* ===== verification/Budget.v ===== *)
(** * Budget reservations: [internal/service/budget_service.go]

    The Redis scripts that reserve, settle and reap budget, as functions on the
    database they share, and the admission of a request against its scopes.

    Each script runs atomically in Redis, so an execution is a sequence of
    script runs of any requests and replicas ([budget_op], [run_budget]); the
    expiry of a marker's TTL is a step of its own, and may happen at any time.
    Amounts are integers in units of 1e-17, the decimals that INCRBYFLOAT keeps;
    its binary additions are taken as exact.  The mark and the member of a
    reservation carry the estimate as the caller prints it, with "%.9f"
    ([fmt9]), while the counters move by the estimate itself.  Key strings are colon-separated parts ([fmt.Sprintf]); they are
    modelled by the tuple of their parts.  The aggregate counters, whose TTL is
    the budget period's and is refreshed by the scripts, do not expire here. *)

From S2P Require Import Prelude Period.

(** ** Data *)

Inductive bkind := KBudget | KResv | KSettled | KShadow.

#[export] Instance bkind_eq_dec : EqDecision bkind.
Proof. solve_decision. Defined.

#[export] Instance bkind_countable : Countable bkind.
Proof.
  refine (inj_countable' (fun k => match k with KBudget => 0%nat | KResv => 1%nat | KSettled => 2%nat | KShadow => 3%nat end)
            (fun n => match n with 0%nat => KBudget | 1%nat => KResv | 2%nat => KSettled | _ => KShadow end) _).
  by intros [].
Defined.

(** [budget:{scope}:{target}:{pk}], [budgetresv:...], [budgetset:...], [budgetshadow:...] *)
Notation bkey := (bkind * (string * string * string))%type (only parsing).

(** The parts of [resvmark:...], [settledmark:...] and [shadowmark:...]. *)
Notation rkey := (string * string * string)%type (only parsing).

(** A mark value "e|pk". *)
Notation mark := (Z * string)%type (only parsing).

(** [resvExpMember]: scope, target, request, period, period key, estimate. *)
Record resv_member := mkMember {
  mScope : string; mTarget : string; mReq : string; mPeriod : string; mPk : string; mEstimate : Z
}.

#[export] Instance member_eq_dec : EqDecision resv_member.
Proof. solve_decision. Defined.

#[export] Instance member_countable : Countable resv_member.
Proof.
  refine (inj_countable' (fun m => (mScope m, mTarget m, mReq m, mPeriod m, mPk m, mEstimate m))
            (fun '(a, b, c, d, e, f) => mkMember a b c d e f) _).
  by intros [].
Defined.

Record budget_db := mkDB {
  counters : gmap bkey Z;
  resvmark : gmap rkey mark;
  settledmark : gset rkey;
  shadowmark : gmap rkey mark;
  resvexp : gmap resv_member Z
}.

Definition empty_db : budget_db := mkDB ∅ ∅ ∅ ∅ ∅.

Definition get (k : bkey) (db : budget_db) : Z := default 0 (counters db !! k).

(** [INCRBYFLOAT] *)
Definition incr (k : bkey) (d : Z) (db : budget_db) : budget_db :=
  mkDB (<[k := get k db + d]> (counters db)) (resvmark db) (settledmark db) (shadowmark db) (resvexp db).

Definition set_mark (k : rkey) (m : option mark) (db : budget_db) : budget_db :=
  mkDB (counters db) (partial_alter (fun _ => m) k (resvmark db)) (settledmark db) (shadowmark db) (resvexp db).

Definition set_shadowmark (k : rkey) (m : option mark) (db : budget_db) : budget_db :=
  mkDB (counters db) (resvmark db) (settledmark db) (partial_alter (fun _ => m) k (shadowmark db)) (resvexp db).

Definition set_settledmark (k : rkey) (b : bool) (db : budget_db) : budget_db :=
  mkDB (counters db) (resvmark db) (if b then {[k]} ∪ settledmark db else settledmark db ∖ {[k]})
    (shadowmark db) (resvexp db).

(** [ZADD] and [ZREM] *)
Definition zset (m : resv_member) (score : option Z) (db : budget_db) : budget_db :=
  mkDB (counters db) (resvmark db) (settledmark db) (shadowmark db)
    (partial_alter (fun _ => score) m (resvexp db)).

Definition isSettled (k : rkey) (db : budget_db) : bool := bool_decide (k ∈ settledmark db).

(** ** Scripts *)

(** A scope of a request: the keys every script derives from it. *)
Record scope_ref := mkScope {
  sScope : string; sTarget : string; sPeriod : string; sPk : string; sReq : string
}.

Definition ckey (kd : bkind) (s : scope_ref) : bkey := (kd, (sScope s, sTarget s, sPk s)).
Definition at_pk (pk : string) (s : scope_ref) : scope_ref := mkScope (sScope s) (sTarget s) (sPeriod s) pk (sReq s).
Definition mkey (s : scope_ref) : rkey := (sScope s, sTarget s, sReq s).

Definition member_of (s : scope_ref) (m : mark) : resv_member :=
  mkMember (sScope s) (sTarget s) (sReq s) (sPeriod s) (snd m) (fst m).

Record reserve_result := mkReserve { rSpent : Z; rLimit : Z; rExceeded : bool; rReserved : bool }.

(** 1e-9, and an amount printed with ["%.9f"]: nine decimals, correctly rounded. *)
Definition nano : Z := 100000000.
Definition fmt9 (e : Z) : Z := round_half_even e nano * nano.

(** [budgetReserveMarkScript]: [e] is ARGV[1]; [ep] is the printed estimate in the member
    ARGV[6] and in the mark value ARGV[7]. *)
Definition budgetReserveMark (s : scope_ref) (e ep limit expiry : Z) (db : budget_db) : reserve_result * budget_db :=
  if isSettled (mkey s) db then (mkReserve (get (ckey KBudget s) db) limit false false, db)
  else
    match resvmark db !! mkey s with
    | None =>
        let m := member_of s (ep, sPk s) in
        let db := zset m (Some expiry)
                    (incr (ckey KResv s) e (incr (ckey KBudget s) e (set_mark (mkey s) (Some (ep, sPk s)) db))) in
        let spent := get (ckey KBudget s) db in
        if limit <? spent then
          (mkReserve (spent - e) limit true false,
           set_mark (mkey s) None
             (zset m None (incr (ckey KResv s) (- e) (incr (ckey KBudget s) (- e) db))))
        else (mkReserve spent limit false true, db)
    | Some _ => (mkReserve (get (ckey KBudget s) db) limit false true, db)
    end.

(** The release of a hold: from the live mark, else from the quarantine. *)
Definition release (s : scope_ref) (db : budget_db) : budget_db :=
  match resvmark db !! mkey s with
  | Some (e, mpk) =>
      let old := at_pk mpk s in
      incr (ckey KResv old) (- e) (incr (ckey KBudget old) (- e)
        (zset (member_of s (e, mpk)) None (set_mark (mkey s) None db)))
  | None =>
      match shadowmark db !! mkey s with
      | Some (e, mpk) =>
          let old := at_pk mpk s in
          incr (ckey KShadow old) (- e) (incr (ckey KBudget old) (- e) (set_shadowmark (mkey s) None db))
      | None => db
      end
  end.

(** [budgetSettleScript]; when the hold's period is the settle's, the script
    folds the charge and the release of [budget] into one increment. *)
Definition budgetSettle (s : scope_ref) (c : Z) (db : budget_db) : Z * budget_db :=
  if isSettled (mkey s) db then (2, release s db)
  else
    let db := set_settledmark (mkey s) true db in
    match resvmark db !! mkey s with
    | Some (e, mpk) =>
        let old := at_pk mpk s in
        let db := zset (member_of s (e, mpk)) None (set_mark (mkey s) None db) in
        let db := if String.eqb mpk (sPk s) then
                    incr (ckey KResv s) (- e) (incr (ckey KBudget s) (c - e) db)
                  else
                    incr (ckey KBudget s) c (incr (ckey KResv old) (- e) (incr (ckey KBudget old) (- e) db)) in
        (1, incr (ckey KSettled s) c db)
    | None =>
        match shadowmark db !! mkey s with
        | Some (e, mpk) =>
            let old := at_pk mpk s in
            let db := set_shadowmark (mkey s) None db in
            let db := if String.eqb mpk (sPk s) then
                        incr (ckey KShadow s) (- e) (incr (ckey KBudget s) (c - e) db)
                      else
                        incr (ckey KBudget s) c (incr (ckey KShadow old) (- e) (incr (ckey KBudget old) (- e) db)) in
            (1, incr (ckey KSettled s) c db)
        | None => (0, incr (ckey KSettled s) c (incr (ckey KBudget s) c db))
        end
    end.

(** [budgetReapOrphanScript] on a member of the expiry set. *)
Definition budgetReapOrphan (m : resv_member) (db : budget_db) : Z * budget_db :=
  let k := (mScope m, mTarget m, mReq m) in
  let agg kd := (kd, (mScope m, mTarget m, mPk m)) in
  match resvmark db !! k with
  | Some _ => (0, db)
  | None =>
      match resvexp db !! m with
      | None => (0, db)
      | Some _ =>
          let db := zset m None db in
          let db := match shadowmark db !! k with
                    | None => set_shadowmark k (Some (mEstimate m, mPk m)) db
                    | Some _ => db
                    end in
          (1, incr (agg KShadow) (mEstimate m) (incr (agg KResv) (- mEstimate m) db))
      end
  end.

(** One member of a [ReapExpiredReservations] round: the script, and the
    re-scheduling of the member when the script answered 0. *)
Definition reapMember (m : resv_member) (retryAt : Z) (db : budget_db) : budget_db :=
  let '(res, db) := budgetReapOrphan m db in
  if res =? 1 then db else zset m (Some retryAt) db.

(** ** Executions *)

(** The only caller of the reserve script, [reserveScopeMarkedE], passes the estimate and its
    print. *)
Inductive budget_op :=
  | OpReserve (s : scope_ref) (e limit expiry : Z)
  | OpSettle (s : scope_ref) (c : Z)
  | OpReap (m : resv_member)
  | OpReschedule (m : resv_member) (retryAt : Z)
  | OpMarkExpires (k : rkey)
  | OpSettledExpires (k : rkey)
  | OpShadowExpires (k : rkey).

Definition budget_step (db : budget_db) (o : budget_op) : budget_db :=
  match o with
  | OpReserve s e limit expiry => snd (budgetReserveMark s e (fmt9 e) limit expiry db)
  | OpSettle s c => snd (budgetSettle s c db)
  | OpReap m => snd (budgetReapOrphan m db)
  | OpReschedule m retryAt => zset m (Some retryAt) db
  | OpMarkExpires k => set_mark k None db
  | OpSettledExpires k => set_settledmark k false db
  | OpShadowExpires k => set_shadowmark k None db
  end.

Definition run_budget (os : list budget_op) (db : budget_db) : budget_db := fold_left budget_step os db.

(** ** Counters *)

Definition kind_eqb (a b : bkind) : bool :=
  match a, b with
  | KBudget, KBudget | KResv, KResv | KSettled, KSettled | KShadow, KShadow => true
  | _, _ => false
  end.

Lemma kind_eqb_spec a b : kind_eqb a b = true <-> a = b.
Proof. by destruct a, b. Qed.

Lemma get_incr kd a kd' b d db :
  get (kd, a) (incr (kd', b) d db) = get (kd, a) db + (if kind_eqb kd kd' && bool_decide (a = b) then d else 0).
Proof.
  unfold get, incr. cbn [counters]. destruct (decide ((kd, a) = (kd', b))) as [[= -> ->]|Hne].
  - rewrite lookup_insert_eq, bool_decide_true by done.
    by rewrite (proj2 (kind_eqb_spec kd' kd') eq_refl).
  - rewrite lookup_insert_ne by done. destruct (kind_eqb kd kd') eqn:E; cbn [andb]; [|lia].
    apply kind_eqb_spec in E as ->. rewrite bool_decide_false by congruence. lia.
Qed.

(** What [budget] counts beyond settled costs, live holds and quarantined holds. *)
Definition excess (a : string * string * string) (db : budget_db) : Z :=
  get (KBudget, a) db - get (KSettled, a) db - get (KResv, a) db - get (KShadow, a) db.

Definition sign (kd : bkind) : Z := match kd with KBudget => 1 | _ => -1 end.

Lemma excess_incr a kd b d db :
  excess a (incr (kd, b) d db) = excess a db + (if bool_decide (a = b) then sign kd * d else 0).
Proof. unfold excess. rewrite !get_incr. destruct kd, (bool_decide (a = b)); cbn; lia. Qed.

Lemma excess_mark a k m db : excess a (set_mark k m db) = excess a db.
Proof. reflexivity. Qed.

Lemma excess_shadowmark a k m db : excess a (set_shadowmark k m db) = excess a db.
Proof. reflexivity. Qed.

Lemma excess_settledmark a k b db : excess a (set_settledmark k b db) = excess a db.
Proof. reflexivity. Qed.

Lemma excess_zset a m sc db : excess a (zset m sc db) = excess a db.
Proof. reflexivity. Qed.

Create HintDb budget.
#[export] Hint Rewrite excess_incr excess_mark excess_shadowmark excess_settledmark excess_zset : budget.

(** Evaluate the counters of a script's result. *)
Ltac excess_simpl :=
  cbn [snd]; unfold ckey, at_pk; autorewrite with budget; cbn [sign sScope sTarget sPk];
  repeat case_bool_decide; simplify_eq; lia.

Lemma reserve_excess a s e ep limit expiry db :
  excess a (snd (budgetReserveMark s e ep limit expiry db)) = excess a db.
Proof.
  unfold budgetReserveMark. destruct (isSettled _ _); [done|]. destruct (resvmark db !! mkey s); [done|].
  destruct (limit <? _); excess_simpl.
Qed.

Lemma release_excess a s db : excess a (release s db) = excess a db.
Proof.
  unfold release. destruct (resvmark db !! mkey s) as [[e mpk]|]; [excess_simpl|].
  destruct (shadowmark db !! mkey s) as [[e mpk]|]; [excess_simpl|done].
Qed.

Lemma settle_excess a s c db : excess a (snd (budgetSettle s c db)) = excess a db.
Proof.
  unfold budgetSettle. destruct (isSettled _ _); [apply release_excess|].
  cbn [set_settledmark resvmark shadowmark].
  destruct (resvmark db !! mkey s) as [[e mpk]|].
  { destruct (String.eqb_spec mpk (sPk s)) as [->|]; excess_simpl. }
  destruct (shadowmark db !! mkey s) as [[e mpk]|]; [|excess_simpl].
  destruct (String.eqb_spec mpk (sPk s)) as [->|]; excess_simpl.
Qed.

Lemma reap_excess a m db : excess a (snd (budgetReapOrphan m db)) = excess a db.
Proof.
  unfold budgetReapOrphan. destruct (resvmark db !! _); [done|]. destruct (resvexp db !! m); [|done].
  cbn [zset shadowmark]. destruct (shadowmark db !! _); excess_simpl.
Qed.

Lemma step_excess a db o : excess a (budget_step db o) = excess a db.
Proof.
  destruct o; cbn; auto using reserve_excess, settle_excess, reap_excess.
Qed.

(** The accounting identity of the budget counters, [budget = settled + reserved + shadow] for
    every scope, target and period, is kept by every interleaving of reservations,
    settlements, duplicate settlements, reaper rounds and marker expiries of any requests and
    replicas, across period boundaries. *)
Theorem budget_identity os db scope target pk :
  (forall a, excess a db = 0) ->
  let db' := run_budget os db in
  let at_ kd := get (kd, (scope, target, pk)) db' in
  at_ KBudget = at_ KSettled + at_ KResv + at_ KShadow.
Proof.
  intros H0. cbv zeta. enough (excess (scope, target, pk) (run_budget os db) = 0) by (unfold excess in *; lia).
  revert db H0. induction os as [|o os IH]; intros db H0; [apply H0|].
  cbn. apply IH. intros a. by rewrite step_excess.
Qed.

Definition sample_scope (req : string) : scope_ref := mkScope "key" "7" "daily" "2026-01-01" req.

(** A reservation that crosses a day boundary, a crashed one that is quarantined, and a duplicate settle. *)
Definition sample_ops : list budget_op :=
  [OpReserve (sample_scope "r1") (50 * nano) (1000 * nano) 99; OpReserve (sample_scope "r2") (70 * nano) (1000 * nano) 99;
   OpSettle (at_pk "2026-01-02" (sample_scope "r1")) 30; OpMarkExpires ("key", "7", "r2");
   OpReap (mkMember "key" "7" "r2" "daily" "2026-01-01" (70 * nano)); OpSettle (at_pk "2026-01-02" (sample_scope "r1")) 30].

Lemma budget_identity_witness :
  let db' := run_budget sample_ops empty_db in
  get (KShadow, ("key", "7", "2026-01-01")) db' = 70 * nano /\ get (KBudget, ("key", "7", "2026-01-02")) db' = 30 /\
  get (KBudget, ("key", "7", "2026-01-01")) db'
  = get (KSettled, ("key", "7", "2026-01-01")) db' + get (KResv, ("key", "7", "2026-01-01")) db'
    + get (KShadow, ("key", "7", "2026-01-01")) db'.
Proof.
  split; [vm_compute; reflexivity|]. split; [vm_compute; reflexivity|].
  apply (budget_identity sample_ops empty_db "key" "7" "2026-01-01"). intros a. reflexivity.
Defined.

(** ** Exactly-once settlement *)

(** [d] at the key [k], nothing elsewhere. *)
Definition on (x k : bkey) (d : Z) : Z := if bool_decide (x = k) then d else 0.

Lemma get_incr_on x k d db : get x (incr k d db) = get x db + on x k d.
Proof.
  unfold get, incr, on. cbn [counters]. destruct (decide (x = k)) as [->|Hne].
  - by rewrite lookup_insert_eq, bool_decide_true.
  - rewrite lookup_insert_ne, bool_decide_false by congruence. lia.
Qed.

Lemma get_mark x k m db : get x (set_mark k m db) = get x db.
Proof. reflexivity. Qed.

Lemma get_shadowmark x k m db : get x (set_shadowmark k m db) = get x db.
Proof. reflexivity. Qed.

Lemma get_settledmark x k b db : get x (set_settledmark k b db) = get x db.
Proof. reflexivity. Qed.

Lemma get_zset x m sc db : get x (zset m sc db) = get x db.
Proof. reflexivity. Qed.

#[export] Hint Rewrite get_incr_on get_mark get_shadowmark get_settledmark get_zset : counters.

Definition op_request (o : budget_op) : option rkey :=
  match o with
  | OpReserve s _ _ _ | OpSettle s _ => Some (mkey s)
  | OpReap m | OpReschedule m _ => Some (mScope m, mTarget m, mReq m)
  | OpMarkExpires k | OpSettledExpires k | OpShadowExpires k => Some k
  end.

Definition of_request (k : rkey) (o : budget_op) : bool := bool_decide (op_request o = Some k).

(** The total of what the operations of request [k] add to the counter [x]. *)
Fixpoint charged (k : rkey) (x : bkey) (os : list budget_op) (db : budget_db) : Z :=
  match os with
  | [] => 0
  | o :: os =>
      (if of_request k o then get x (budget_step db o) - get x db else 0) + charged k x os (budget_step db o)
  end.

(** The marks of a request. *)
Definition marks (k : rkey) (db : budget_db) : option mark * bool * option mark :=
  (resvmark db !! k, isSettled k db, shadowmark db !! k).

Lemma marks_incr k x d db : marks k (incr x d db) = marks k db.
Proof. reflexivity. Qed.

Lemma marks_zset k m sc db : marks k (zset m sc db) = marks k db.
Proof. reflexivity. Qed.

Lemma marks_set_mark k k' m db :
  marks k (set_mark k' m db)
  = if bool_decide (k = k') then (m, isSettled k db, shadowmark db !! k) else marks k db.
Proof.
  unfold marks, set_mark. cbn [resvmark shadowmark]. destruct (decide (k = k')) as [->|E].
  - by rewrite lookup_partial_alter_eq, (bool_decide_true (k' = k')).
  - by rewrite lookup_partial_alter_ne, (bool_decide_false (k = k')) by congruence.
Qed.

Lemma marks_set_shadow k k' m db :
  marks k (set_shadowmark k' m db)
  = if bool_decide (k = k') then (resvmark db !! k, isSettled k db, m) else marks k db.
Proof.
  unfold marks, set_shadowmark. cbn [resvmark shadowmark]. destruct (decide (k = k')) as [->|E].
  - by rewrite lookup_partial_alter_eq, (bool_decide_true (k' = k')).
  - by rewrite lookup_partial_alter_ne, (bool_decide_false (k = k')) by congruence.
Qed.

Lemma marks_set_settled k k' b db :
  marks k (set_settledmark k' b db)
  = if bool_decide (k = k') then (resvmark db !! k, b, shadowmark db !! k) else marks k db.
Proof.
  unfold marks, set_settledmark, isSettled. cbn [resvmark settledmark shadowmark].
  destruct (decide (k = k')) as [->|E].
  - rewrite (bool_decide_true (k' = k')) by done. do 2 f_equal.
    destruct b; [apply bool_decide_true|apply bool_decide_false]; set_solver.
  - rewrite (bool_decide_false (k = k')) by done. do 2 f_equal. apply bool_decide_ext. destruct b; set_solver.
Qed.

#[export] Hint Rewrite marks_incr marks_zset marks_set_mark marks_set_shadow marks_set_settled : marks.

(** The operations of other requests leave the marks of [k] alone. *)
Lemma step_frame k db o : of_request k o = false -> marks k (budget_step db o) = marks k db.
Proof.
  unfold of_request. intros H. apply bool_decide_eq_false in H.
  assert (Hs : forall s, Some (mkey s) <> Some k -> bool_decide (k = mkey s) = false)
    by (intros s Hs; apply bool_decide_false; congruence).
  assert (Hr : forall s, Some (mkey s) <> Some k -> marks k (release s db) = marks k db).
  { intros s Hs'. unfold release. destruct (resvmark db !! mkey s) as [[e mpk]|];
      [|destruct (shadowmark db !! mkey s) as [[e mpk]|]; [|done]]; autorewrite with marks; by rewrite Hs. }
  destruct o as [s e l ex|s c|m|m r|k'|k'|k']; cbn [op_request budget_step] in *.
  - unfold budgetReserveMark. destruct (isSettled _ _); [done|]. destruct (resvmark db !! mkey s); [done|].
    destruct (l <? _); cbn [snd]; autorewrite with marks; by rewrite Hs.
  - unfold budgetSettle. destruct (isSettled _ _); [by apply Hr|]. cbn [set_settledmark resvmark shadowmark].
    destruct (resvmark db !! mkey s) as [[e mpk]|]; [|destruct (shadowmark db !! mkey s) as [[e mpk]|]];
      cbn [snd]; try case_match; autorewrite with marks; by rewrite Hs.
  - unfold budgetReapOrphan. destruct (resvmark db !! _); [done|]. destruct (resvexp db !! m); [|done].
    cbn [zset shadowmark]. destruct (shadowmark db !! _); cbn [snd]; autorewrite with marks; [done|].
    rewrite bool_decide_false; [done|]. by intros ->.
  - done.
  - autorewrite with marks. rewrite bool_decide_false; [done|]. by intros ->.
  - autorewrite with marks. rewrite bool_decide_false; [done|]. by intros ->.
  - autorewrite with marks. rewrite bool_decide_false; [done|]. by intros ->.
Qed.

Section ExactlyOnce.
Context (s0 : scope_ref) (c : Z).

(** What a settled request must have cost, and what a held one has taken. *)
Definition charge (x : bkey) : Z := on x (ckey KBudget s0) c + on x (ckey KSettled s0) c.

Definition hold (x : bkey) (m : mark) : Z :=
  on x (ckey KBudget (at_pk (snd m) s0)) (fst m) + on x (ckey KResv (at_pk (snd m) s0)) (fst m).

(** The request's own operations: reservations, replayed or not, and settlements of [c]. *)
Definition own_op (o : budget_op) : Prop :=
  match o with OpReserve s _ _ _ => True | OpSettle s c' => s = s0 /\ c' = c | _ => False end.

Lemma marks_inv k m b sm db :
  marks k db = (m, b, sm) -> resvmark db !! k = m /\ isSettled k db = b /\ shadowmark db !! k = sm.
Proof. unfold marks. by intros [= -> -> ->]. Qed.

Lemma ckey_same kd s : mkey s = mkey s0 -> ckey kd s = ckey kd (at_pk (sPk s) s0).
Proof. unfold mkey, ckey. intros [= -> -> _]. reflexivity. Qed.

Ltac counts :=
  cbn [snd budget_step]; autorewrite with counters; unfold charge, hold, on; cbn [fst snd];
  repeat case_bool_decide; simplify_eq; lia.

Lemma reserve_fresh s e ep l ex db :
  mkey s = mkey s0 -> marks (mkey s0) db = (None, false, None) ->
  let '(r, db') := budgetReserveMark s e ep l ex db in
  (rExceeded r = true /\ marks (mkey s0) db' = (None, false, None) /\ forall x, get x db' = get x db)
  \/ (rExceeded r = false /\ rReserved r = true /\ marks (mkey s0) db' = (Some (ep, sPk s), false, None)
      /\ forall x, get x db' = get x db + hold x (e, sPk s)).
Proof.
  intros Hk Hm. pose proof (marks_inv _ _ _ _ _ Hm) as (H1 & H2 & H3).
  unfold budgetReserveMark. rewrite Hk, H1, H2. destruct (l <? _); [left|right]; (split_and!; [done..| |]).
  - autorewrite with marks. rewrite !bool_decide_true by done. unfold marks, isSettled in *.
    cbn in *. by rewrite H2, H3.
  - intros x. counts.
  - autorewrite with marks. by rewrite bool_decide_true, H2, H3.
  - intros x. rewrite !(ckey_same _ s Hk). counts.
Qed.

Lemma settle_fresh db x :
  marks (mkey s0) db = (None, false, None) ->
  let db' := budget_step db (OpSettle s0 c) in
  marks (mkey s0) db' = (None, true, None) /\ get x db' = get x db + charge x.
Proof.
  intros Hm. pose proof (marks_inv _ _ _ _ _ Hm) as (H1 & H2 & H3). cbv zeta. cbn [budget_step].
  unfold budgetSettle. rewrite H2. cbv zeta.
  change (resvmark (set_settledmark (mkey s0) true db)) with (resvmark db).
  change (shadowmark (set_settledmark (mkey s0) true db)) with (shadowmark db). rewrite H1, H3. cbn [snd]. split.
  - autorewrite with marks. rewrite bool_decide_true by done. by rewrite H1, H3.
  - fold (set_settledmark (mkey s0) true db). counts.
Qed.

Lemma settle_held db x m :
  marks (mkey s0) db = (Some m, false, None) ->
  let db' := budget_step db (OpSettle s0 c) in
  marks (mkey s0) db' = (None, true, None) /\ get x db' = get x db + charge x - hold x m.
Proof.
  intros Hm. destruct m as [e mpk]. pose proof (marks_inv _ _ _ _ _ Hm) as (H1 & H2 & H3). cbv zeta. cbn [budget_step].
  unfold budgetSettle. rewrite H2. cbv zeta. change (resvmark (set_settledmark (mkey s0) true db)) with (resvmark db).
  rewrite H1. cbn [snd]. split.
  - destruct (mpk =? sPk s0)%string; autorewrite with marks; rewrite !bool_decide_true by done;
      unfold isSettled, set_settledmark; cbn [settledmark shadowmark]; rewrite H3, bool_decide_true; [done|set_solver|done|set_solver].
  - destruct (String.eqb_spec mpk (sPk s0)) as [->|Hne]; [|counts].
    assert (Hk : forall kd, ckey kd (at_pk (sPk s0) s0) = ckey kd s0) by reflexivity.
    autorewrite with counters. unfold charge, hold. cbn [fst snd]. rewrite !Hk. unfold on. repeat case_bool_decide; lia.
Qed.

Lemma done_stays db o :
  marks (mkey s0) db = (None, true, None) -> own_op o -> op_request o = Some (mkey s0) ->
  budget_step db o = db.
Proof.
  intros Hm Ho Hk. pose proof (marks_inv _ _ _ _ _ Hm) as (H1 & H2 & H3).
  destruct o as [s e l ex|s c'| | | | |]; try done; cbn [op_request] in Hk; apply (inj Some) in Hk; cbn [budget_step].
  - unfold budgetReserveMark. by rewrite Hk, H2.
  - unfold budgetSettle, release. by rewrite Hk, H2, H1, H3.
Qed.

Lemma held_reserve db s e l ex m :
  mkey s = mkey s0 -> marks (mkey s0) db = (Some m, false, None) -> budget_step db (OpReserve s e l ex) = db.
Proof.
  intros Hk Hm. pose proof (marks_inv _ _ _ _ _ Hm) as (H1 & H2 & H3). cbn [budget_step].
  unfold budgetReserveMark. by rewrite Hk, H2, H1.
Qed.

Definition own_ops (os : list budget_op) : Prop :=
  Forall (fun o => op_request o = Some (mkey s0) -> own_op o) os.

Lemma of_request_cases o :
  (op_request o = Some (mkey s0) /\ of_request (mkey s0) o = true) \/ of_request (mkey s0) o = false.
Proof. unfold of_request. destruct (decide (op_request o = Some (mkey s0))); [left|right]; auto using bool_decide_true, bool_decide_false. Qed.

Lemma charged_done os db x :
  own_ops os -> marks (mkey s0) db = (None, true, None) -> charged (mkey s0) x os db = 0.
Proof.
  intros Hos. revert db. induction Hos as [|o os Ho Hos IH]; intros db Hm; cbn; [done|].
  destruct (of_request_cases o) as [[Hk ->]| E].
  - rewrite (done_stays db o Hm (Ho Hk) Hk), IH by done. lia.
  - rewrite E, IH; [lia|]. by rewrite step_frame.
Qed.

Definition is_settle (o : budget_op) : bool :=
  match o with OpSettle s _ => bool_decide (mkey s = mkey s0) | _ => false end.

Definition held_or_fresh (h : option mark) (db : budget_db) : Prop := marks (mkey s0) db = (h, false, None).

(** What a held request has taken: the estimate and the period, where its mark has the print;
    and what its settlement leaves behind, the difference of the two. *)
Definition taken_mark (t : Z * string) : mark := (fmt9 (fst t), snd t).
Definition held_amount (x : bkey) (h : option (Z * string)) : Z := match h with Some t => hold x t | None => 0 end.
Definition residue (x : bkey) (h : option (Z * string)) : Z :=
  match h with Some (e, pk) => hold x (e - fmt9 e, pk) | None => 0 end.

Lemma hold_residue x t : hold x t - hold x (taken_mark t) = residue x (Some t).
Proof. destruct t as [e pk]. unfold residue, taken_mark, hold, on. cbn [fst snd]. repeat case_bool_decide; lia. Qed.

(** The reservation is one of the request in the trace. *)
Definition reserved_in (os : list budget_op) (h : option (Z * string)) : Prop :=
  exists s e l ex, OpReserve s e l ex ∈ os /\ mkey s = mkey s0 /\ h = Some (e, sPk s).

(** One own operation of an unsettled request: it settles, giving back the printed hold and
    charging the cost, or it leaves the request unsettled with what it took held. *)
Lemma own_step h db o :
  held_or_fresh (taken_mark <$> h) db -> own_op o -> op_request o = Some (mkey s0) ->
  let db' := budget_step db o in
  if is_settle o then marks (mkey s0) db' = (None, true, None)
                      /\ forall x, get x db' = get x db + charge x + residue x h - held_amount x h
  else exists h', (h' = h \/ reserved_in [o] h') /\ held_or_fresh (taken_mark <$> h') db'
                  /\ forall x, get x db' = get x db + held_amount x h' - held_amount x h.
Proof.
  intros Hm Ho Hk. destruct o as [s e l ex|s c'| | | | |]; try done; cbn [op_request is_settle] in *.
  - apply (inj Some) in Hk. cbv zeta.
    destruct h as [t|].
    + exists (Some t). rewrite (held_reserve _ _ _ _ _ (taken_mark t)) by done. split_and!; [by left|done|lia].
    + pose proof (reserve_fresh s e (fmt9 e) l ex db Hk Hm) as Hr. cbn [budget_step].
      destruct (budgetReserveMark s e _ l ex db) as [r db'].
      destruct Hr as [(_ & H1 & H2)|(_ & _ & H1 & H2)]; [exists None|exists (Some (e, sPk s))].
      * split_and!; [by left|exact H1|]. intros x. cbn [snd]. rewrite H2. cbn [held_amount]. lia.
      * split_and!; [|exact H1|].
        { right. exists s, e, l, ex. by split_and!; [left|..]. }
        intros x. cbn [snd]. rewrite H2. cbn [held_amount]. lia.
  - destruct Ho as [-> ->]. rewrite bool_decide_true by done. destruct h as [t|]; cbv zeta.
    + split; [by apply (settle_held db (KBudget, ("", "", "")) (taken_mark t))|]. intros x.
      destruct (settle_held db x (taken_mark t) Hm) as [_ ->]. pose proof (hold_residue x t). cbn [held_amount]. lia.
    + split; [by apply (settle_fresh db (KBudget, ("", "", "")))|]. intros x.
      destruct (settle_fresh db x Hm) as [_ ->]. cbn. lia.
Qed.

Lemma reserved_in_app os os' h : reserved_in os h \/ reserved_in os' h -> reserved_in (os ++ os') h.
Proof. intros [H|H]; destruct H as (s & e & l & ex & Hin & H); exists s, e, l, ex; (split; [|done]); set_solver. Qed.

Lemma charged_open os h db :
  own_ops os -> held_or_fresh (taken_mark <$> h) db ->
  exists h', (h' = h \/ reserved_in os h')
    /\ if existsb is_settle os then forall x, charged (mkey s0) x os db = charge x + residue x h' - held_amount x h
       else held_or_fresh (taken_mark <$> h') (run_budget os db)
            /\ forall x, charged (mkey s0) x os db = held_amount x h' - held_amount x h.
Proof.
  intros Hos. revert h db. induction Hos as [|o os Ho Hos IH]; intros h db Hm; cbn [existsb charged].
  { exists h. split; [by left|]. split; [done|]. intros x. lia. }
  destruct (of_request_cases o) as [[Hk ->]| E].
  - pose proof (own_step h db o Hm (Ho Hk) Hk) as Hstep. cbv zeta in Hstep. destruct (is_settle o); cbn [orb].
    + destruct Hstep as [H1 H2]. exists h. split; [by left|]. intros x. rewrite H2, charged_done by done. lia.
    + destruct Hstep as (h1 & Hh1 & H1 & H2). destruct (IH h1 _ H1) as (h2 & Hh2 & H3). exists h2. split.
      { destruct Hh2 as [->|Hh2]; [destruct Hh1 as [->|Hh1]; [by left|right]|right]; apply (reserved_in_app [o] os); auto. }
      destruct (existsb is_settle os); [intros x; rewrite H2, H3; lia|].
      destruct H3 as [H3 H4]. split; [exact H3|]. intros x. rewrite H2, H4. lia.
  - assert (Hns : is_settle o = false).
    { destruct o; try done. cbn. apply bool_decide_false. intros Hk.
      unfold of_request in E. apply bool_decide_eq_false in E. apply E. cbn. by rewrite Hk. }
    rewrite Hns, E. cbn [orb]. unfold held_or_fresh in *. rewrite <- (step_frame _ _ o E) in Hm.
    destruct (IH h _ Hm) as (h2 & Hh2 & H3). exists h2. split.
    { destruct Hh2 as [->|Hh2]; [by left|right]. apply (reserved_in_app [o] os). by right. }
    destruct (existsb is_settle os); [intros x; rewrite H3; lia|].
    destruct H3 as [H3 H4]. split; [exact H3|]. intros x. rewrite H4. lia.
Qed.
End ExactlyOnce.

Lemma fmt9_near e : 2 * Z.abs (e - fmt9 e) <= nano.
Proof. pose proof (round_half_even_near e nano eq_refl). unfold fmt9. lia. Qed.

Lemma fmt9_exact k : fmt9 (k * nano) = k * nano.
Proof. unfold fmt9. by rewrite round_half_even_exact. Qed.

(** C10: A request is charged its actual cost exactly once.  In every interleaving of its reservations
    (replayed in any number and in any period) and its settlements (duplicated in any number)
    with the operations of all other requests, its own operations add in total the cost to
    [budget] and to [settled] of the settlement's period, as soon as one settlement is in the
    trace; besides, they leave in [budget] and [resv] of the period of at most one of its
    reservations the difference between the estimate and its print with nine decimals (at most
    5e-10, zero when the estimate has nine decimals: [residue], [refund_leaves_residue]), and nothing in
    any other counter.  The request starts without marks and its marks do not expire within
    the trace. *)
Theorem settled_exactly_once s c os db :
  marks (mkey s) db = (None, false, None) ->
  own_ops s c os -> existsb (is_settle s) os = true ->
  exists h, (h = None \/ reserved_in s os h) /\
    forall x, charged (mkey s) x os db = on x (ckey KBudget s) c + on x (ckey KSettled s) c + residue s x h.
Proof.
  intros Hm Hos Hs. destruct (charged_open s c os None db Hos Hm) as (h & Hh & H). rewrite Hs in H.
  exists h. split; [done|]. intros x. rewrite H. cbn. unfold charge. lia.
Qed.

Lemma settled_exactly_once_witness :
  let r1 := sample_scope "r1" in
  let s := at_pk "2026-01-02" r1 in
  let os := [OpReserve r1 (50 * nano) (1000 * nano) 99; OpReserve (sample_scope "r2") (70 * nano) (1000 * nano) 99;
             OpReserve s (50 * nano) (1000 * nano) 99;
             OpSettle s 30; OpSettle (sample_scope "r2") 10;
             OpSettle s 30; OpReserve r1 (50 * nano) (1000 * nano) 99] in
  exists h, (h = None \/ reserved_in s os h) /\
    forall x, charged (mkey s) x os empty_db = on x (ckey KBudget s) 30 + on x (ckey KSettled s) 30 + residue s x h.
Proof.
  cbv zeta. apply (settled_exactly_once (at_pk "2026-01-02" (sample_scope "r1")) 30).
  - reflexivity.
  - repeat constructor; try done.
  - reflexivity.
Defined.

(** ** Admission *)

(** A reservation that is newly admitted leaves the counter within the limit, one that is
    rejected leaves every counter and mark as it was, and every other admission_outcome changes nothing. *)
Theorem reserve_admission s e ep limit expiry db :
  let '(r, db') := budgetReserveMark s e ep limit expiry db in
  (rExceeded r = true -> rReserved r = false /\ limit < get (ckey KBudget s) db + e
     /\ (forall x, get x db' = get x db) /\ (forall k, marks k db' = marks k db))
  /\ (rExceeded r = false ->
      db' = db \/ (rReserved r = true /\ get (ckey KBudget s) db' = get (ckey KBudget s) db + e
                   /\ get (ckey KBudget s) db' <= limit /\ rSpent r = get (ckey KBudget s) db')).
Proof.
  unfold budgetReserveMark. destruct (isSettled (mkey s) db); [by split; [|left]|].
  destruct (resvmark db !! mkey s) eqn:E; [by split; [|left]|].
  assert (Hg : forall d, get (ckey KBudget s) (zset (member_of s (ep, sPk s)) (Some expiry)
      (incr (ckey KResv s) e (incr (ckey KBudget s) e (set_mark (mkey s) d db)))) = get (ckey KBudget s) db + e).
  { intros d. autorewrite with counters. unfold on. rewrite bool_decide_true by done.
    rewrite bool_decide_false by (unfold ckey; congruence). lia. }
  rewrite Hg. destruct (Z.ltb_spec limit (get (ckey KBudget s) db + e)) as [Hl|Hl]; (split; [intros Hx|intros Hx]); try done.
  - cbn. split_and!; [done|done| |].
    + intros x. autorewrite with counters. unfold on. repeat case_bool_decide; lia.
    + intros k. autorewrite with marks. case_bool_decide as Hk; [|done]. subst. unfold marks. by rewrite E.
  - right. cbn [rSpent rReserved]. rewrite Hg. by split_and!.
Qed.

(** ** Requests *)

(** What becomes of one command sent to Redis: an answer, a command that never
    left ([redisWriteDefinitelyNotSent]), or one whose answer was lost. *)
Inductive fate := Delivered | NotSent | ResponseLost.

(** [BudgetScope] *)
Record budget_scope := mkBudgetScope { bsScope : string; bsID : string; bsPeriod : string; bsLimit : Z }.

(** [BudgetReservations] *)
Record reservations := mkReservations { rvReserved : gmap string Z; rvPeriodKeys : gmap string string }.

Definition no_reservations : reservations := mkReservations ∅ ∅.

(** A request's view of the shared store: how many commands it sent, the
    operations executed so far (its own and those of others in between), and the
    store. *)
Record session := mkSession { sent : nat; trace : list budget_op; store : budget_db }.

Section Request.
(** The operations of other requests before each command, the fate of each
    command, the wall clock at each command, and whether the request's context
    is done by then. *)
Context (others : nat -> list budget_op) (net : nat -> fate) (clock : nat -> Z) (ctxDone : nat -> bool).
Context (markerTTL : Z) (reqID : string).

Definition redis_call {A} (script : budget_db -> A * budget_db) (o : budget_op) (st : session) : option A * session :=
  let n := sent st in
  let db := run_budget (others n) (store st) in
  match net n with
  | NotSent => (None, mkSession (S n) (trace st ++ others n) db)
  | Delivered => let '(r, db) := script db in (Some r, mkSession (S n) (trace st ++ others n ++ [o]) db)
  | ResponseLost => let '(_, db) := script db in (None, mkSession (S n) (trace st ++ others n ++ [o]) db)
  end.

Definition scope_of (sc : budget_scope) (pk : string) : scope_ref := mkScope (bsScope sc) (bsID sc) (bsPeriod sc) pk reqID.

Record marked := mkMarked { written : bool; exceeded : bool; enforcementDown : bool }.

(** [reserveScopeMarkedE] for a request with an identity ([reqID] not empty, as the gateway's
    middleware assigns one to every request); [spent] and [limit] of its answer, which the
    admission ignores, are left out. *)
Definition reserveScopeMarkedE (sc : budget_scope) (pk : string) (estimate : Z) (st : session) : marked * session :=
  if (bsLimit sc <=? 0) || (estimate <=? 0) then (mkMarked false false false, st)
  else
    let s := scope_of sc pk in
    let expiry := clock (sent st) + markerTTL in
    match redis_call (budgetReserveMark s estimate (fmt9 estimate) (bsLimit sc) expiry) (OpReserve s estimate (bsLimit sc) expiry) st with
    | (None, st) => (mkMarked false false true, st)
    | (Some r, st) => (mkMarked (rReserved r) (rExceeded r) false, st)
    end.

(** The retry ladder of [SettleScope]: [false] when the settlement was left to
    the replay ledger.  The journal entry written before the first attempt is not
    part of the store. *)
Fixpoint settle_ladder (retries : nat) (s : scope_ref) (c : Z) (st : session) : bool * session :=
  match redis_call (budgetSettle s c) (OpSettle s c) st with
  | (Some _, st) => (true, st)
  | (None, st) =>
      match retries with
      | O => (false, st)
      | S retries => if ctxDone (sent st) then (false, st) else settle_ladder retries s c st
      end
  end.

Definition SettleScope (s : scope_ref) (c : Z) (st : session) : bool * session :=
  let s := if String.eqb (sPk s) "" then at_pk (PeriodKey (clock (sent st)) (sPeriod s)) s else s in
  settle_ladder 4 s c st.

(** [refundReserved] over the scopes before the failing one; the flag tells
    whether every refund settled inline. *)
Fixpoint refundReserved (scopes : list budget_scope) (res : reservations) (st : session) : bool * reservations * session :=
  match scopes with
  | [] => (true, res, st)
  | sc :: scopes =>
      if 0 <? default 0 (rvReserved res !! bsScope sc) then
        let '(ok, st) := SettleScope (scope_of sc (default "" (rvPeriodKeys res !! bsScope sc))) 0 st in
        let '(oks, res, st) :=
          refundReserved scopes (mkReservations (delete (bsScope sc) (rvReserved res)) (rvPeriodKeys res)) st in
        (ok && oks, res, st)
      else refundReserved scopes res st
  end.

Inductive verdict := Accepted | Exceeded (scope : string) (refunded : bool) | Unavailable (scope : string) (refunded : bool).

(** The loop of [ReserveForRequestE]; [before] are the scopes already done. *)
Fixpoint reserve_loop (before todo : list budget_scope) (estimate : Z) (res : reservations) (st : session)
    : verdict * reservations * session :=
  match todo with
  | [] => (Accepted, res, st)
  | sc :: rest =>
      if bsLimit sc <=? 0 then reserve_loop (before ++ [sc]) rest estimate res st
      else
        let pk := PeriodKey (clock (sent st)) (bsPeriod sc) in
        let '(r, st) := reserveScopeMarkedE sc pk estimate st in
        if enforcementDown r then
          let '(ok, res, st) := refundReserved before res st in (Unavailable (bsScope sc) ok, res, st)
        else if exceeded r then
          let '(ok, res, st) := refundReserved before res st in (Exceeded (bsScope sc) ok, res, st)
        else
          let res := if written r then
                       mkReservations (<[bsScope sc := estimate]> (rvReserved res)) (<[bsScope sc := pk]> (rvPeriodKeys res))
                     else res in
          reserve_loop (before ++ [sc]) rest estimate res st
  end.

(** [ReserveForRequestE] for a request with an identity *)
Definition ReserveForRequestE (scopes : list budget_scope) (estimate : Z) (st : session) : verdict * reservations * session :=
  if (estimate <=? 0) || (match scopes with [] => true | _ => false end) then (Accepted, no_reservations, st)
  else reserve_loop [] scopes estimate no_reservations st.
End Request.

Lemma run_budget_app a b db : run_budget (a ++ b) db = run_budget b (run_budget a db).
Proof. unfold run_budget. apply fold_left_app. Qed.

Lemma charged_app k x a b db : charged k x (a ++ b) db = charged k x a db + charged k x b (run_budget a db).
Proof. revert db. induction a as [|o a IH]; intros db; cbn [app charged]; [done|].
  rewrite IH. change (run_budget (o :: a) db) with (run_budget a (budget_step db o)). lia.
Qed.

Definition foreign (k : rkey) (os : list budget_op) : Prop := Forall (fun o => of_request k o = false) os.

Lemma charged_foreign k x os db : foreign k os -> charged k x os db = 0.
Proof. intros H. revert db. induction H as [|o os Ho _ IH]; intros db; cbn; [done|]. by rewrite Ho, IH. Qed.

Lemma marks_foreign k os db : foreign k os -> marks k (run_budget os db) = marks k db.
Proof.
  intros H. revert db. induction H as [|o os Ho _ IH]; intros db; cbn; [done|]. rewrite IH. by apply step_frame.
Qed.

Lemma foreign_own s c os : foreign (mkey s) os -> own_ops s c os.
Proof.
  intros H. eapply Forall_impl; [exact H|]. intros o Ho Hk. unfold of_request in Ho.
  by rewrite bool_decide_true in Ho.
Qed.

(** [st'] is [st] after the operations [l]. *)
Definition extends (st : session) (l : list budget_op) (st' : session) : Prop :=
  trace st' = trace st ++ l /\ store st' = run_budget l (store st).

Lemma extends_trans a l1 b l2 c : extends a l1 b -> extends b l2 c -> extends a (l1 ++ l2) c.
Proof. intros [H1 H2] [H3 H4]. split; [by rewrite H3, H1, app_assoc|by rewrite H4, H2, run_budget_app]. Qed.

Section RequestProofs.
Context (others : nat -> list budget_op) (net : nat -> fate) (clock : nat -> Z) (ctxDone : nat -> bool).
Context (markerTTL : Z) (reqID : string).

Lemma redis_call_extends {A} (script : budget_db -> A * budget_db) o st r st' :
  (forall db, snd (script db) = budget_step db o) ->
  redis_call others net script o st = (r, st') ->
  let db := run_budget (others (sent st)) (store st) in
  (r = None /\ extends st (others (sent st)) st')
  \/ (extends st (others (sent st) ++ [o]) st' /\ (r = None \/ r = Some (fst (script db)))).
Proof.
  intros Hs. unfold redis_call. cbv zeta. destruct (net (sent st)); [| |].
  - destruct (script _) as [a db'] eqn:E. intros [= <- <-]. right. split; [|by right].
    split; [done|]. cbn. rewrite run_budget_app. cbn. by rewrite <- Hs, E.
  - intros [= <- <-]. by left.
  - destruct (script _) as [a db'] eqn:E. intros [= <- <-]. right. split; [|by left].
    split; [done|]. cbn. rewrite run_budget_app. cbn. by rewrite <- Hs, E.
Qed.

(** Settlements of [s] among the operations of other requests. *)
Definition settles_among (s : scope_ref) (c : Z) (l : list budget_op) : Prop :=
  Forall (fun o => o = OpSettle s c \/ exists m, In o (others m)) l.

Lemma others_among s c m : settles_among s c (others m).
Proof. apply List.Forall_forall. eauto. Qed.

Lemma settle_call s c st r st' :
  redis_call others net (budgetSettle s c) (OpSettle s c) st = (r, st') ->
  exists l, extends st l st' /\ settles_among s c l /\ (is_Some r -> existsb (is_settle s) l = true).
Proof.
  intros E. apply redis_call_extends in E as [[-> He]|[He _]]; [| |done].
  - exists (others (sent st)). split_and!; [done|apply others_among|by intros [? [=]]].
  - eexists. split_and!; [exact He| |].
    + apply Forall_app. split; [apply others_among|]. by repeat constructor.
    + intros _. rewrite existsb_app. cbn. by rewrite bool_decide_true, !orb_true_r.
Qed.

(** The ladder runs the settlement between one and five times, and when it reports success at
    least one run took effect. *)
Lemma ladder_extends n s c st ok st' :
  settle_ladder others net ctxDone n s c st = (ok, st') ->
  exists l, extends st l st' /\ settles_among s c l /\ (ok = true -> existsb (is_settle s) l = true).
Proof.
  revert st. induction n as [|n IH]; intros st; cbn [settle_ladder]; destruct (redis_call _ _ _ _ st) as [r st1] eqn:E;
    apply settle_call in E as (l & He & Hl & Hr); destruct r as [r|].
  1, 3: intros [= <- <-]; exists l; split_and!; eauto.
  - intros [= <- <-]. exists l. by split_and!.
  - destruct (ctxDone _); [intros [= <- <-]; exists l; by split_and!|]. intros H.
    destruct (IH _ H) as (l' & He' & Hl' & Hs'). exists (l ++ l'). split_and!.
    + by eapply extends_trans.
    + by apply Forall_app.
    + intros ->. rewrite existsb_app, (Hs' eq_refl). apply orb_true_r.
Qed.

(** The request starts on [db0], on which it has left no mark yet. *)
Context (all : list budget_scope) (db0 : budget_db) (estimate : Z) (est_pos : 0 < estimate).

Definition skey (sc : budget_scope) : rkey := (bsScope sc, bsID sc, reqID).

Context (fresh : forall sc, sc ∈ all -> marks (skey sc) db0 = (None, false, None)).
Context (others_foreign : forall sc n, sc ∈ all -> foreign (skey sc) (others n)).

(** What the request added to the counters for a scope so far. *)
Definition added (sc : budget_scope) (st : session) (v : bkey -> Z) : Prop :=
  forall x, charged (skey sc) x (trace st) db0 = v x.

Definition untouched (sc : budget_scope) (res : reservations) (st : session) : Prop :=
  foreign (skey sc) (trace st) /\ rvReserved res !! bsScope sc = None.

Definition held (sc : budget_scope) (res : reservations) (st : session) : Prop :=
  exists pk, pk <> "" /\ rvReserved res !! bsScope sc = Some estimate /\ rvPeriodKeys res !! bsScope sc = Some pk
    /\ marks (skey sc) (store st) = (Some (fmt9 estimate, pk), false, None)
    /\ added sc st (fun x => hold (scope_of reqID sc pk) x (estimate, pk)).

(** The request has added nothing for a scope, or has given back what it had added as its mark
    prints it. *)
Definition given_back (sc : budget_scope) (st : session) : Prop :=
  added sc st (fun _ => 0) \/ exists pk, added sc st (fun x => residue (scope_of reqID sc pk) x (Some (estimate, pk))).

Definition consistent (st : session) : Prop := store st = run_budget (trace st) db0.

Lemma extends_consistent st l st' : consistent st -> extends st l st' -> consistent st'.
Proof. unfold consistent. intros H [H1 H2]. by rewrite H1, H2, H, run_budget_app. Qed.

Lemma added_extends sc st l st' v :
  consistent st -> extends st l st' -> added sc st v ->
  added sc st' (fun x => v x + charged (skey sc) x l (store st)).
Proof. intros Hc [H1 H2] Hv x. by rewrite H1, charged_app, Hv, <- Hc. Qed.

Lemma added_foreign sc st l st' v :
  consistent st -> extends st l st' -> foreign (skey sc) l -> added sc st v -> added sc st' v.
Proof.
  intros Hc He Hf Hv x. rewrite (added_extends sc st l st' v Hc He Hv x), charged_foreign by done. lia.
Qed.

Lemma given_back_foreign sc st l st' :
  consistent st -> extends st l st' -> foreign (skey sc) l -> given_back sc st -> given_back sc st'.
Proof. intros Hc He Hf [Ha|[pk Ha]]; [left|right; exists pk]; by eapply added_foreign. Qed.

Lemma untouched_added sc res st : untouched sc res st -> added sc st (fun _ => 0).
Proof. intros [H _] x. by apply charged_foreign. Qed.

Lemma untouched_foreign sc res st l st' :
  extends st l st' -> foreign (skey sc) l -> untouched sc res st -> untouched sc res st'.
Proof. intros [H1 _] Hf [Hu Hr]. split; [|done]. rewrite H1. by apply Forall_app. Qed.

Lemma held_foreign sc res st l st' :
  consistent st -> extends st l st' -> foreign (skey sc) l -> held sc res st -> held sc res st'.
Proof.
  intros Hc He Hf (pk & H1 & H2 & H3 & H4 & H5). exists pk. split_and!; try done.
  - destruct He as [_ ->]. by rewrite marks_foreign.
  - by eapply added_foreign.
Qed.

Lemma settles_foreign sc sc' pk c l :
  sc' ∈ all -> bsScope sc <> bsScope sc' -> settles_among (scope_of reqID sc pk) c l -> foreign (skey sc') l.
Proof.
  intros Hin Hne Hl. eapply Forall_impl; [exact Hl|]. intros o [->|[m Ho]].
  - unfold of_request. apply bool_decide_false. cbn. unfold mkey, scope_of, skey. cbn. congruence.
  - by apply (proj1 (List.Forall_forall _ _) (others_foreign sc' m Hin)).
Qed.

Lemma settles_own sc pk c l :
  sc ∈ all -> settles_among (scope_of reqID sc pk) c l -> own_ops (scope_of reqID sc pk) c l.
Proof.
  intros Hin Hl. eapply Forall_impl; [exact Hl|]. intros o [->|[m Ho]] Hk; [done|].
  apply (proj1 (List.Forall_forall _ _) (others_foreign sc m Hin)) in Ho. unfold of_request in Ho.
  by rewrite bool_decide_true in Ho.
Qed.

Lemma settles_reserve_nothing sc pk c l h :
  sc ∈ all -> settles_among (scope_of reqID sc pk) c l -> ~ reserved_in (scope_of reqID sc pk) l h.
Proof.
  intros Hin Hl (s & e & lim & ex & Ho & Hk & _). unfold settles_among in Hl. rewrite Forall_forall in Hl.
  destruct (Hl _ Ho) as [?|[m Hm]]; [done|].
  apply (proj1 (List.Forall_forall _ _) (others_foreign sc m Hin)) in Hm. unfold of_request in Hm.
  apply bool_decide_eq_false in Hm. apply Hm. cbn. by rewrite Hk.
Qed.

(** Refunding one held scope takes back what its mark says. *)
Lemma refund_one sc res st pk ok st' :
  sc ∈ all -> consistent st -> held sc res st -> rvPeriodKeys res !! bsScope sc = Some pk ->
  SettleScope others net clock ctxDone (scope_of reqID sc pk) 0 st = (ok, st') ->
  exists l, extends st l st' /\ settles_among (scope_of reqID sc pk) 0 l /\ (ok = true -> given_back sc st').
Proof.
  intros Hin Hc (pk' & Hne & _ & Hpk & Hm & Ha) Hpk' H. assert (pk' = pk) as -> by congruence.
  unfold SettleScope in H. cbn [scope_of sPk] in H. rewrite (proj2 (String.eqb_neq _ _) Hne) in H.
  apply ladder_extends in H as (l & He & Hl & Hok). exists l. split_and!; try done. intros ->.
  right. exists pk. intros x. rewrite (added_extends sc st l st' _ Hc He Ha x).
  destruct (charged_open (scope_of reqID sc pk) 0 l (Some (estimate, pk)) (store st) (settles_own sc pk 0 l Hin Hl) Hm) as (h & Hh & Hco).
  destruct Hh as [->|Hh]; [|by destruct (settles_reserve_nothing sc pk 0 l h Hin Hl Hh)].
  rewrite (Hok eq_refl) in Hco. specialize (Hco x).
  change (mkey (scope_of reqID sc pk)) with (skey sc) in Hco. rewrite Hco. cbn [held_amount]. unfold charge, on.
  repeat case_bool_decide; lia.
Qed.

(** Changing the record of another scope changes nothing for this one. *)
Definition same_record (sc : budget_scope) (a b : reservations) : Prop :=
  rvReserved a !! bsScope sc = rvReserved b !! bsScope sc
  /\ rvPeriodKeys a !! bsScope sc = rvPeriodKeys b !! bsScope sc.

Definition settled_or_held (sc : budget_scope) (res : reservations) (st : session) : Prop :=
  untouched sc res st \/ held sc res st.

Lemma keep sc res res' st l st' :
  consistent st -> extends st l st' -> foreign (skey sc) l -> same_record sc res' res ->
  settled_or_held sc res st -> settled_or_held sc res' st'.
Proof.
  intros Hc He Hf [H1 H2] [Hu|Hh]; [left|right].
  - destruct (untouched_foreign sc res st l st' He Hf Hu) as [Ha Hb]. split; [done|]. by rewrite H1.
  - destruct (held_foreign sc res st l st' Hc He Hf Hh) as (pk & ? & ? & ? & ? & ?).
    exists pk. rewrite H1, H2. by split_and!.
Qed.

Lemma refund_spec l res st ok res' st' :
  (forall sc, sc ∈ l -> sc ∈ all) -> NoDup (map bsScope l) -> consistent st ->
  (forall sc, sc ∈ l -> settled_or_held sc res st) ->
  refundReserved others net clock ctxDone reqID l res st = (ok, res', st') ->
  exists ext, extends st ext st'
    /\ (forall sc, sc ∈ all -> bsScope sc ∉ map bsScope l -> foreign (skey sc) ext)
    /\ (ok = true -> forall sc, sc ∈ l -> given_back sc st')
    /\ (forall n, rvReserved res' !! n = if bool_decide (n ∈ map bsScope l) then None else rvReserved res !! n).
Proof.
  revert res st ok. induction l as [|sc l IH]; intros res st ok Hall Hnd Hc Hl; cbn [refundReserved].
  { intros [= <- <- <-]. exists []. split_and!; [by split; [rewrite app_nil_r|]|constructor|set_solver|].
    intros n. rewrite bool_decide_false; [done|]. apply not_elem_of_nil. }
  cbn [map] in Hnd. apply NoDup_cons in Hnd as [Hni Hnd].
  assert (Hin : sc ∈ all) by set_solver.
  assert (Hd : forall sc', sc' ∈ l -> bsScope sc <> bsScope sc').
  { intros sc' Hs' E. apply Hni. rewrite E. by apply list_elem_of_fmap_2. }
  destruct (Hl sc ltac:(set_solver)) as [Hu|Hh].
  - destruct Hu as [Hu1 Hu2]. rewrite Hu2. cbn [from_option id Z.ltb Z.compare]. intros H.
    apply IH in H as (ext & He & Hf & Hz & Hr); [|set_solver|done|done|set_solver].
    exists ext. split_and!; [done|set_solver| |].
    + intros Hok sc' [->|Hs']%elem_of_cons; [|by apply Hz].
      left. eapply added_foreign; [done|done|by apply Hf|]. by apply (untouched_added sc res).
    + intros n. rewrite Hr. cbn [map]. repeat case_bool_decide; set_solver.
  - pose proof Hh as (pk & _ & H2 & H3 & _). rewrite H2, H3. cbn [from_option id].
    rewrite (proj2 (Z.ltb_lt _ _) est_pos).
    destruct (SettleScope _ _ _ _ _ 0 st) as [ok1 st1] eqn:E1.
    destruct (refund_one sc res st pk ok1 st1 Hin Hc Hh H3 E1) as (l1 & He1 & Hl1 & Hz1).
    destruct (refundReserved _ _ _ _ _ l _ st1) as [[ok2 res2] st2] eqn:E2. intros [= <- <- <-].
    assert (Hc1 : consistent st1) by (by eapply extends_consistent).
    apply IH in E2 as (l2 & He2 & Hf2 & Hz2 & Hr2); [|set_solver|done|done|].
    + exists (l1 ++ l2). split_and!.
      * by eapply extends_trans.
      * intros sc' Hs' Hn. cbn [map] in Hn. apply Forall_app. split; [|set_solver].
        eapply settles_foreign; [done| |done]. set_solver.
      * intros [-> ->]%andb_prop sc' [->|Hs']%elem_of_cons; [|by apply Hz2].
        eapply given_back_foreign; [done|done|by apply Hf2|by apply Hz1].
      * intros n. rewrite Hr2. cbn [map rvReserved].
        destruct (decide (n = bsScope sc)) as [->|Hne]; [rewrite lookup_delete_eq|rewrite lookup_delete_ne by done];
          repeat case_bool_decide; set_solver.
    + intros sc' Hs'. eapply keep; [exact Hc|exact He1| | |by apply Hl; set_solver].
      * eapply settles_foreign; [set_solver| |done]. auto.
      * split; [|done]. cbn. apply lookup_delete_ne. auto.
Qed.

Lemma charged_snoc k x l o db :
  foreign k l -> of_request k o = true ->
  charged k x (l ++ [o]) db = get x (budget_step (run_budget l db) o) - get x (run_budget l db).
Proof. intros Hf Ho. rewrite charged_app, charged_foreign by done. cbn [charged]. rewrite Ho. lia. Qed.

(** Reserving one scope that the request has not touched. *)
Lemma reserve_one sc res st pk r st' :
  sc ∈ all -> consistent st -> untouched sc res st -> 0 < bsLimit sc ->
  reserveScopeMarkedE others net clock markerTTL reqID sc pk estimate st = (r, st') ->
  exists ext, extends st ext st'
    /\ (forall sc', sc' ∈ all -> bsScope sc <> bsScope sc' -> foreign (skey sc') ext)
    /\ (enforcementDown r = true
        \/ (enforcementDown r = false /\ exceeded r = true /\ added sc st' (fun _ => 0))
        \/ (enforcementDown r = false /\ exceeded r = false /\ written r = true
            /\ marks (skey sc) (store st') = (Some (fmt9 estimate, pk), false, None)
            /\ added sc st' (fun x => hold (scope_of reqID sc pk) x (estimate, pk)))).
Proof.
  intros Hin Hc Hu Hlim. unfold reserveScopeMarkedE.
  destruct (Z.leb_spec (bsLimit sc) 0); [lia|]. destruct (Z.leb_spec estimate 0); [lia|]. cbn [orb].
  set (s := scope_of reqID sc pk). set (ex := clock (sent st) + markerTTL).
  destruct (redis_call _ _ _ _ st) as [a st1] eqn:E. apply redis_call_extends in E; [|done]. cbv zeta in E.
  assert (Hfo : forall sc', sc' ∈ all -> foreign (skey sc') (others (sent st))) by auto.
  assert (Hop : forall sc', sc' ∈ all -> bsScope sc <> bsScope sc' ->
    foreign (skey sc') (others (sent st) ++ [OpReserve s estimate (bsLimit sc) ex])).
  { intros sc' Hs' Hne. apply Forall_app. split; [by apply Hfo|]. constructor; [|constructor].
    unfold of_request. apply bool_decide_false. cbn. unfold s, mkey, scope_of, skey. cbn. congruence. }
  destruct E as [[-> He]|[He Ha]]; [intros [= <- <-]; exists (others (sent st)); auto|].
  destruct Ha as [-> | ->]; intros [= <- <-]; eexists; (split; [exact He|]); (split; [exact Hop|]); [by left|right].
  assert (Hm : marks (mkey s) (run_budget (others (sent st)) (store st)) = (None, false, None)).
  { change (mkey s) with (skey sc). rewrite marks_foreign by auto. rewrite Hc, marks_foreign by apply Hu. auto. }
  pose proof (reserve_fresh s s estimate (fmt9 estimate) (bsLimit sc) ex _ eq_refl Hm) as Hr.
  assert (Hadd : added sc st1 (fun x => get x (store st1) - get x (run_budget (others (sent st)) (store st)))).
  { intros x. rewrite (added_extends sc st _ st1 _ Hc He (untouched_added sc res st Hu) x).
    rewrite charged_snoc; [|auto|by unfold of_request; apply bool_decide_true].
    destruct He as [_ ->]. rewrite run_budget_app. cbn [run_budget fold_left]. lia. }
  destruct He as [_ Hst]. rewrite run_budget_app in Hst. cbn [run_budget fold_left budget_step] in Hst.
  unfold run_budget in *. destruct (budgetReserveMark s _ _ _ _ _) as [a db']. cbn [snd fst] in *.
  destruct Hr as [(H1 & H2 & H3)|(H1 & H2 & H3 & H4)]; [left|right]; cbn [enforcementDown exceeded written].
  - split_and!; [done..|]. intros x. rewrite Hadd, Hst, H3. lia.
  - split_and!; [done..| |]; [by rewrite Hst|]. intros x. rewrite Hadd, Hst, H4. unfold s. cbn [scope_of sPk]. lia.
Qed.

Definition done_scope (sc : budget_scope) (res : reservations) (st : session) : Prop :=
  (bsLimit sc <= 0 /\ untouched sc res st) \/ (0 < bsLimit sc /\ held sc res st).

Lemma done_keep sc res res' st l st' :
  consistent st -> extends st l st' -> foreign (skey sc) l -> same_record sc res' res ->
  done_scope sc res st -> done_scope sc res' st'.
Proof.
  intros Hc He Hf [H1 H2] [[Hl Hu]|[Hl Hh]]; [left|right]; (split; [done|]).
  - destruct (untouched_foreign sc res st l st' He Hf Hu) as [Ha Hb]. split; [done|]. by rewrite H1.
  - destruct (held_foreign sc res st l st' Hc He Hf Hh) as (pk & ? & ? & ? & ? & ?).
    exists pk. rewrite H1, H2. by split_and!.
Qed.

Definition admission_outcome (v : verdict) (res : reservations) (st : session) : Prop :=
  match v with
  | Accepted => forall sc, sc ∈ all -> done_scope sc res st
  | Exceeded s refunded =>
      refunded = true -> forall sc, sc ∈ all ->
      given_back sc st /\ (bsScope sc = s -> added sc st (fun _ => 0)) /\ rvReserved res !! bsScope sc = None
  | Unavailable s refunded =>
      refunded = true -> forall sc, sc ∈ all -> bsScope sc <> s ->
      given_back sc st /\ rvReserved res !! bsScope sc = None
  end.

Context (names : NoDup (map bsScope all)).

Lemma differ a sc b sc' : all = a ++ sc :: b -> sc' ∈ a \/ sc' ∈ b -> bsScope sc <> bsScope sc'.
Proof.
  intros Hall H' Eq. pose proof names as Hn. rewrite Hall, map_app in Hn. cbn [map] in Hn.
  apply NoDup_app in Hn as (_ & Hd & Hn). apply NoDup_cons in Hn as [Hn _].
  destruct H' as [H'|H']; apply (list_elem_of_fmap_2 bsScope) in H'; rewrite <- Eq in H'; [apply (Hd _ H'); left|done].
Qed.

Lemma distinct_scopes a sc b sc' :
  all = a ++ sc :: b -> sc' ∈ all -> sc' = sc \/ (bsScope sc <> bsScope sc' /\ (sc' ∈ a \/ sc' ∈ b)).
Proof.
  intros Hall H. rewrite Hall in H. apply elem_of_app in H as [H|[->|H]%elem_of_cons]; [right|by left|right];
    (split; [eapply differ; eauto|auto]).
Qed.

(** The refund of the scopes before the failing one. *)
Lemma refund_before before sc rest res st1 ok res' st' :
  all = before ++ sc :: rest -> consistent st1 ->
  (forall sc', sc' ∈ before -> settled_or_held sc' res st1) ->
  (forall sc', sc' ∈ rest -> untouched sc' res st1) -> rvReserved res !! bsScope sc = None ->
  refundReserved others net clock ctxDone reqID before res st1 = (ok, res', st') ->
  (ok = true -> forall sc', sc' ∈ all -> bsScope sc' <> bsScope sc -> given_back sc' st')
  /\ (forall sc', sc' ∈ all -> rvReserved res' !! bsScope sc' = None)
  /\ (added sc st1 (fun _ => 0) -> added sc st' (fun _ => 0)).
Proof.
  intros Hall Hc Hb Hr Hn H.
  assert (Hnd : NoDup (map bsScope before)) by (rewrite Hall, map_app in names; by apply NoDup_app in names as [? _]).
  assert (Hnb : forall sc', sc' ∈ sc :: rest -> bsScope sc' ∉ map bsScope before).
  { intros sc' Hs Hx. rewrite Hall, map_app in names. apply NoDup_app in names as (_ & Hd & _).
    apply (Hd _ Hx). by apply list_elem_of_fmap_2. }
  apply refund_spec in H as (ext & He & Hf & Hz & Hres); [|rewrite Hall; set_solver|done|done|done].
  split_and!.
  - intros Hok sc' Hs' Hne. destruct (distinct_scopes before sc rest sc' Hall Hs') as [->|[_ [Hin|Hin]]]; [done|by apply Hz|].
    left. eapply added_foreign; [done|done|apply Hf; [done|apply Hnb; set_solver]|]. by apply (untouched_added sc' res), Hr.
  - intros sc' Hs'. rewrite Hres. case_bool_decide as Hx; [done|].
    destruct (distinct_scopes before sc rest sc' Hall Hs') as [->|[_ [Hin|Hin]]]; [done| |by apply Hr].
    exfalso. apply Hx. by apply list_elem_of_fmap_2.
  - intros Ha. eapply added_foreign; [done|done| |done]. apply Hf; [rewrite Hall; set_solver|apply Hnb; left].
Qed.

Lemma loop_spec before todo res st v res' st' :
  all = before ++ todo -> consistent st ->
  (forall sc, sc ∈ before -> done_scope sc res st) -> (forall sc, sc ∈ todo -> untouched sc res st) ->
  reserve_loop others net clock ctxDone markerTTL reqID before todo estimate res st = (v, res', st') ->
  admission_outcome v res' st'.
Proof.
  revert before res st. induction todo as [|sc rest IH]; intros before res st Hall Hc Hb Ht; cbn [reserve_loop].
  { intros [= <- <- <-]. cbn. rewrite Hall, app_nil_r. done. }
  assert (Hall' : all = (before ++ [sc]) ++ rest) by (by rewrite <- app_assoc).
  assert (Hin : sc ∈ all) by (rewrite Hall; set_solver).
  destruct (Z.leb_spec (bsLimit sc) 0) as [Hl|Hl].
  { intros H. eapply IH; [exact Hall'|exact Hc| | |exact H].
    - intros sc' [H'|[->|[]%not_elem_of_nil]%elem_of_cons]%elem_of_app; [by apply Hb|left]. split; [done|].
      apply Ht. left.
    - intros sc' H'. apply Ht. by right. }
  set (pk := PeriodKey _ _). destruct (reserveScopeMarkedE _ _ _ _ _ sc pk estimate st) as [r st1] eqn:E.
  apply (reserve_one sc res) in E as (ext & He & Hf & Hcase); [|done|done|apply Ht; left|done].
  assert (Hc1 : consistent st1) by (by eapply extends_consistent).
  assert (Hne := fun sc' => differ before sc rest sc' Hall).
  assert (Hb1 : forall sc', sc' ∈ before -> done_scope sc' res st1).
  { intros sc' H'. eapply done_keep; [exact Hc|exact He| |done|by apply Hb].
    apply Hf; [rewrite Hall; set_solver|]. apply Hne. by left. }
  assert (Ht1 : forall sc', sc' ∈ rest -> untouched sc' res st1).
  { intros sc' H'. eapply untouched_foreign; [exact He| |apply Ht; by right].
    apply Hf; [rewrite Hall; set_solver|]. apply Hne. by right. }
  assert (Hn : rvReserved res !! bsScope sc = None) by (apply Ht; left).
  assert (Hb2 : forall sc', sc' ∈ before -> settled_or_held sc' res st1).
  { intros sc' H'. destruct (Hb1 sc' H') as [[_ ?]|[_ ?]]; [by left|by right]. }
  destruct Hcase as [Hd|[(Hd & Hx & Ha)|(Hd & Hx & Hw & Hm & Ha)]]; rewrite Hd; [|rewrite Hx..].
  - destruct (refundReserved _ _ _ _ _ before res st1) as [[ok res1] st2] eqn:E. intros [= <- <- <-].
    eapply refund_before in E as (Hz & Hr & _); [|exact Hall|done..]. cbn. auto.
  - destruct (refundReserved _ _ _ _ _ before res st1) as [[ok res1] st2] eqn:E. intros [= <- <- <-].
    eapply refund_before in E as (Hz & Hr & Hs); [|exact Hall|done..]. cbn. intros Hok sc' Hs'.
    destruct (distinct_scopes before sc rest sc' Hall Hs') as [->|[Hns _]]; [by split_and!; [left; apply Hs|intros _; apply Hs|auto]|].
    split_and!; [by apply Hz; auto|done|auto].
  - rewrite Hw. intros H. eapply IH; [exact Hall'|exact Hc1| | |exact H].
    + intros sc' [H'|[->|[]%not_elem_of_nil]%elem_of_cons]%elem_of_app.
      * eapply (done_keep sc' res _ st1 []); [done|by split; [rewrite app_nil_r|]|constructor| |by apply Hb1].
        split; cbn; apply lookup_insert_ne, Hne; by left.
      * right. split; [done|]. exists pk. cbn. rewrite !lookup_insert_eq. split_and!; try done. apply PeriodKey_nonempty.
    + intros sc' H'. destruct (Ht1 sc' H') as [Hu1 Hu2]. split; [done|]. cbn.
      rewrite lookup_insert_ne; [done|]. apply Hne. by right.
Qed.
End RequestProofs.

(** C6: Admission is all or nothing across the key, team and organisation budgets, whatever the other
    requests do in between and whichever commands are lost.  An accepted request holds its
    estimate in every limited scope.  One rejected for exceeding a scope has added nothing for
    that scope, and once its refunds settled inline it has given back every scope before it;
    when the store fails at a scope, the scopes reserved before it are given back the same way.
    A refund gives back the estimate as the mark prints it, with nine decimals: what stays in
    [budget] and [resv] is the difference to the estimate ([given_back]; at most 5e-10, zero for
    an estimate with nine decimals; [refund_leaves_residue]).  The request has an identity of its own
    and no marks yet; a reservation whose answer was lost at the failing scope is not given back. *)
Theorem admission_all_or_nothing others net clock ctxDone markerTTL reqID scopes estimate db :
  0 < estimate -> NoDup (map bsScope scopes) ->
  (forall sc, sc ∈ scopes -> marks (skey reqID sc) db = (None, false, None)) ->
  (forall sc n, sc ∈ scopes -> foreign (skey reqID sc) (others n)) ->
  let '(v, res, st) := ReserveForRequestE others net clock ctxDone markerTTL reqID scopes estimate (mkSession 0 [] db) in
  admission_outcome reqID scopes db estimate v res st.
Proof.
  intros Hpos Hnd Hfresh Hothers. unfold ReserveForRequestE. rewrite (proj2 (Z.leb_gt _ _) Hpos). cbn [orb].
  destruct scopes as [|sc scopes]; [by intros sc Hsc%not_elem_of_nil|].
  destruct (reserve_loop _ _ _ _ _ _ _ _ _ _) as [[v res] st] eqn:E.
  eapply loop_spec in E; [done|done|done|done|done|done|done| |].
  - by intros ? ?%not_elem_of_nil.
  - intros sc' _. split; [constructor|done].
Qed.

(** A key and a team budget; another request fills the team's while this one is between its two
    reservations, and the answer to the first refund is lost. *)
Definition key_scope : budget_scope := mkBudgetScope "key" "7" "daily" (1000 * nano).
Definition team_scope : budget_scope := mkBudgetScope "team" "3" "daily" (60 * nano).

Definition sample_others (n : nat) : list budget_op :=
  if (n =? 1)%nat then [OpReserve (mkScope "team" "3" "daily" "2026-01-07" "r9") (50 * nano) (60 * nano) 99] else [].

Definition sample_net (n : nat) : fate := if (n =? 2)%nat then ResponseLost else Delivered.

Definition sample_admission : verdict * reservations * session :=
  ReserveForRequestE sample_others sample_net (fun _ => sample_instant) (fun _ => false) 900 "r1"
    [key_scope; team_scope] (20 * nano + 7) (mkSession 0 [] empty_db).

Lemma admission_all_or_nothing_witness :
  fst (fst sample_admission) = Exceeded "team" true /\
  get (KBudget, ("team", "3", "2026-01-07")) (store (snd sample_admission)) = 50 * nano /\
  (let '(v, res, st) := sample_admission in admission_outcome "r1" [key_scope; team_scope] empty_db (20 * nano + 7) v res st).
Proof.
  split; [vm_compute; reflexivity|]. split; [vm_compute; reflexivity|].
  apply (admission_all_or_nothing sample_others sample_net (fun _ => sample_instant) (fun _ => false) 900 "r1"
           [key_scope; team_scope] (20 * nano + 7) empty_db).
  - reflexivity.
  - vm_compute. repeat constructor; set_solver.
  - intros sc Hsc. reflexivity.
  - intros sc n Hsc. unfold sample_others. destruct (n =? 1)%nat; repeat constructor.
    apply elem_of_cons in Hsc as [->|Hsc]; [by vm_compute|].
    apply elem_of_cons in Hsc as [->|Hsc]; [by vm_compute|]. by apply not_elem_of_nil in Hsc.
Defined.

(** What a refund leaves: the estimate of the request above has more than nine decimals, the
    refund of the key's scope gives back what its mark prints, and the difference stays in
    [budget] and [resv] although the request was rejected and its mark is gone. *)
Theorem refund_leaves_residue :
  let db := store (snd sample_admission) in
  fst (fst sample_admission) = Exceeded "team" true /\
  get (KBudget, ("key", "7", "2026-01-07")) db = 7 /\ get (KResv, ("key", "7", "2026-01-07")) db = 7 /\
  resvmark db !! ("key", "7", "r1") = None.
Proof. vm_compute. by split_and!. Qed.

(** ** The reaper *)

Definition agg (kd : bkind) (m : resv_member) : bkey := (kd, (mScope m, mTarget m, mPk m)).

Definition member_key (m : resv_member) : rkey := (mScope m, mTarget m, mReq m).

(** A round that quarantines: the hold moves from [resv] to [shadow], [budget] keeps counting it,
    and the member leaves the expiry set. *)
Lemma reap_quarantines m t db :
  resvmark db !! member_key m = None -> is_Some (resvexp db !! m) ->
  let db' := reapMember m t db in
  get (agg KResv m) db' = get (agg KResv m) db - mEstimate m
  /\ get (agg KShadow m) db' = get (agg KShadow m) db + mEstimate m
  /\ get (agg KBudget m) db' = get (agg KBudget m) db
  /\ resvmark db' = resvmark db /\ resvexp db' !! m = None.
Proof.
  intros Hm [sc Hz]. cbv zeta. unfold reapMember, budgetReapOrphan. unfold member_key in Hm. rewrite Hm, Hz.
  change (shadowmark (zset m None db)) with (shadowmark db).
  destruct (shadowmark db !! _); cbn [Z.eqb Pos.eqb]; fold (agg KResv m) (agg KShadow m); autorewrite with counters;
    unfold on, agg; repeat case_bool_decide; simplify_eq; split_and!; try lia; try done; apply lookup_partial_alter_eq.
Qed.

(** A round on a member that another replica already quarantined, or whose request has settled
    since the round read the set, puts the member back. *)
Lemma reap_requeues m t db :
  resvmark db !! member_key m = None -> resvexp db !! m = None ->
  reapMember m t db = zset m (Some t) db.
Proof. intros Hm Hz. unfold reapMember, budgetReapOrphan. unfold member_key in Hm. by rewrite Hm, Hz. Qed.

(** Two replicas that read the same expired reservation quarantine it twice: the round that loses
    the race puts the member back, and the next round takes the estimate out of [resv] and adds
    it to [shadow] once more. *)
Theorem reaper_race_quarantines_twice m t1 t2 t3 db :
  resvmark db !! member_key m = None -> is_Some (resvexp db !! m) ->
  let db' := reapMember m t3 (reapMember m t2 (reapMember m t1 db)) in
  get (agg KResv m) db' = get (agg KResv m) db - 2 * mEstimate m
  /\ get (agg KShadow m) db' = get (agg KShadow m) db + 2 * mEstimate m.
Proof.
  intros Hm Hz. cbv zeta. destruct (reap_quarantines m t1 db Hm Hz) as (H1 & H2 & _ & H3 & H4). cbv zeta in *.
  set (db1 := reapMember m t1 db) in *. rewrite (reap_requeues m t2 db1) by (rewrite ?H3; done).
  destruct (reap_quarantines m t3 (zset m (Some t2) db1)) as (H5 & H6 & _).
  - cbn [zset resvmark]. by rewrite H3.
  - cbn [zset resvexp]. rewrite lookup_partial_alter_eq. by eexists.
  - cbv zeta in *. rewrite H5, H6, !get_zset, H1, H2. split; lia.
Qed.

Lemma reaper_race_quarantines_twice_witness :
  let db := run_budget [OpReserve (sample_scope "r2") (70 * nano) (1000 * nano) 99; OpMarkExpires ("key", "7", "r2")] empty_db in
  let m := mkMember "key" "7" "r2" "daily" "2026-01-01" (70 * nano) in
  let db' := reapMember m 3 (reapMember m 2 (reapMember m 1 db)) in
  get (agg KResv m) db = 70 * nano /\ get (agg KResv m) db' = -70 * nano /\ get (agg KShadow m) db' = 140 * nano.
Proof.
  cbv zeta. set (db := run_budget _ _). set (m := mkMember _ _ _ _ _ _).
  split; [vm_compute; reflexivity|].
  destruct (reaper_race_quarantines_twice m 1 2 3 db) as [-> ->]; [vm_compute; reflexivity|vm_compute; by eexists|].
  split; vm_compute; reflexivity.
Defined.
