(* ===== verification/Journal.v ===== *)
(** * The settlement journal: [internal/service/settle_journal.go]

    Every settlement is written to a journal file before it is tried, so that a
    process that is killed in between can finish it: on boot, and every ten
    minutes, the journal is sealed, its lines are settled again, and what could
    not be settled goes back into the active file.

    A journal is the content of its files.  Other goroutines append to the active
    file while a round runs ([live]); a write can stop in the middle, with or
    without the process ([write_fate]); other replicas change the budget store
    between any two commands ([Budget.redis_call]).  Times are nanoseconds, the
    [Ts] of a line is in seconds. *)

From S2P Require Import Prelude Json Period Budget.

(** ** Lines *)

Record journalLine := mkLine {
  jlScope : string; jlTarget : string; jlPeriod : string; jlPk : string; jlReqID : string;
  jlCost : Z; jlTs : Z; jlVersion : Z
}.

(** [journalLine.task]; the cost goes with it. *)
Definition line_task (l : journalLine) : scope_ref := mkScope (jlScope l) (jlTarget l) (jlPeriod l) (jlPk l) (jlReqID l).

Definition line_key (l : journalLine) : string * string * string := mkey (line_task l).

(** [encoding/json] on lines *)
Class LineCodec := {
  marshal_line : journalLine -> string;
  unmarshal_line : string -> option journalLine
}.

Definition line_break : Ascii.ascii := Ascii.ascii_of_nat 10.

(** A line is printed on one line, without spaces around it, and read back. *)
Class LawfulLineCodec `{LineCodec} : Prop := {
  line_roundtrip : forall l, unmarshal_line (marshal_line l) = Some l;
  line_one_line : forall l, string_has line_break (marshal_line l) = false;
  line_trimmed : forall l, TrimSpace (marshal_line l) = marshal_line l;
  line_nonempty : forall l, marshal_line l <> ""
}.

(** ** Files *)

(** The active file and its handle, and the sealed segments by the time in their names. *)
Record settleJournal := mkJournal { jActive : option string; jOpen : bool; jSealed : gmap Z string }.

(** A write that completes, one that fails after [n] bytes, and one during which the process dies. *)
Inductive write_fate := Written | Failed (n : nat) | Killed (n : nat).

Inductive append_result := Appended | AppendError | AppendKilled.

Section Journal.
Context `{LineCodec}.

Definition write_active (text : string) (j : settleJournal) : settleJournal :=
  mkJournal (Some (default "" (jActive j) +:+ text)) (jOpen j) (jSealed j).

(** [settleJournal.append] at the time [now] *)
Definition append (w : write_fate) (now : Z) (t : scope_ref) (cost : Z) (j : settleJournal) : append_result * settleJournal :=
  let l := mkLine (sScope t) (sTarget t) (sPeriod t) (sPk t) (sReq t) cost (now / Second) 1 in
  if jOpen j then
    let text := marshal_line l +:+ String line_break "" in
    match w with
    | Written => (Appended, write_active text j)
    | Failed n => (AppendError, write_active (String.substring 0 n text) j)
    | Killed n => (AppendKilled, write_active (String.substring 0 n text) j)
    end
  else (AppendError, j).

(** Which file operations of a rotation succeed. *)
Record seal_io := mkSealIO { stat_ok : bool; rename_ok : bool; reopen_ok : bool }.

Inductive seal_result := SealError | SealedAs (name : option Z).

Definition sealActive (io : seal_io) (now : Z) (j : settleJournal) : seal_result * settleJournal :=
  if negb (stat_ok io) then (SealError, j)
  else
    match jActive j with
    | None => (SealedAs None, j)
    | Some content =>
        if String.eqb content "" then (SealedAs None, j)
        else if negb (rename_ok io) then (SealError, mkJournal (Some content) false (jSealed j))
        else
          let sealed := <[now := content]> (jSealed j) in
          if reopen_ok io then (SealedAs (Some now), mkJournal (Some "") true sealed)
          else (SealError, mkJournal None false sealed)
    end.

(** Oldest first. *)
Definition sealedSegments (j : settleJournal) : list (Z * string) :=
  stable_sort (fun a b => fst a <? fst b) (map_to_list (jSealed j)).

(** [openSettleJournal] on the files a former process left *)
Definition openSettleJournal (j : settleJournal) : settleJournal :=
  mkJournal (Some (default "" (jActive j))) true (jSealed j).

(** ** Reading a segment *)

Record SettleJournalStats := mkStats {
  Total : nat; AlreadyMarked : nat; Recovered : nat; Expired : nat; KeptForRetry : nat
}.

(** One raw line: skipped when empty, dropped when malformed. *)
Definition parse_line (raw : string) : option journalLine :=
  let raw := TrimSpace raw in
  if String.eqb raw "" then None
  else match unmarshal_line raw with
       | Some l => if String.eqb (jlReqID l) "" then None else Some l
       | None => None
       end.

Definition maxToken : N := 1024 * 1024.

(** The lines of a file; the scanner gives up on a line that does not fit its buffer. *)
Definition scan (content : string) : option (list journalLine) :=
  let raws := split_on line_break content in
  if existsb (fun raw => (maxToken <=? N.of_nat (String.length raw))%N) raws then None
  else Some (omap parse_line raws).

(** Duplicates and lines past the guard window are dropped; the key of an
    expired line is remembered as well. *)
Fixpoint fresh_lines (guard now : Z) (seen : list (string * string * string)) (ls : list journalLine)
  : list journalLine * nat :=
  match ls with
  | [] => ([], 0%nat)
  | l :: ls =>
      if bool_decide (line_key l ∈ seen) then fresh_lines guard now seen ls
      else
        let '(rest, expired) := fresh_lines guard now (line_key l :: seen) ls in
        if guard <? now - jlTs l * Second then (rest, S expired) else (l :: rest, expired)
  end.

Definition journalBatchSize : nat := 1000.

(** [lines[i:end]] for [i] in steps of the batch size *)
Fixpoint batches (fuel n : nat) (ls : list journalLine) : list (list journalLine) :=
  match fuel, ls with
  | S fuel, _ :: _ => take n ls :: batches fuel n (drop n ls)
  | _, _ => []
  end.

(** ** Replaying a segment *)

(** The operations of others before each command, the fate of each command, and the answers of the lease check. *)
Context (others : nat -> list budget_op) (net : nat -> fate) (lease : nat -> bool).

(** A command that only reads the budget store. *)
Definition read_call {A} (f : budget_db -> A) (st : session) : option A * session :=
  let n := sent st in
  let db := run_budget (others n) (store st) in
  (match net n with Delivered => Some (f db) | _ => None end, mkSession (S n) (trace st ++ others n) db).

(** [verify]: still the owner of the calibration lock, lease renewed *)
Definition verify (st : session) : bool * session :=
  let '(r, st') := read_call (fun _ => lease (sent st)) st in (default false r, st').

(** The lines of a batch with the marks its pipeline read. *)
Fixpoint settle_lines (ls : list (journalLine * bool)) (st : session) : list journalLine * (nat * nat) * session :=
  match ls with
  | [] => ([], (0%nat, 0%nat), st)
  | (l, true) :: ls =>
      let '(kept, (am, rec), st) := settle_lines ls st in (kept, (S am, rec), st)
  | (l, false) :: ls =>
      match redis_call others net (budgetSettle (line_task l) (jlCost l)) (OpSettle (line_task l) (jlCost l)) st with
      | (None, st) => let '(kept, counts, st) := settle_lines ls st in (l :: kept, counts, st)
      | (Some _, st) => let '(kept, (am, rec), st) := settle_lines ls st in (kept, (am, S rec), st)
      end
  end.

Fixpoint replay_batches (bs : list (list journalLine)) (st : session) : list journalLine * (nat * nat) * session :=
  match bs with
  | [] => ([], (0%nat, 0%nat), st)
  | b :: bs =>
      let '(owner, st) := verify st in
      if negb owner then (b ++ concat bs, (0%nat, 0%nat), st)
      else
        match read_call (fun db => map (fun l => isSettled (line_key l) db) b) st with
        | (None, st) => let '(kept, counts, st) := replay_batches bs st in (b ++ kept, counts, st)
        | (Some marks, st) =>
            let '(kept1, (am1, rec1), st) := settle_lines (zip b marks) st in
            let '(kept2, (am2, rec2), st) := replay_batches bs st in
            (kept1 ++ kept2, ((am1 + am2)%nat, (rec1 + rec2)%nat), st)
        end
  end.

(** An append of another goroutine. *)
Record live_append := mkLive { laWrite : write_fate; laNow : Z; laTask : scope_ref; laCost : Z }.

Definition run_live (las : list live_append) (j : settleJournal) : settleJournal :=
  fold_left (fun j a => snd (append (laWrite a) (laNow a) (laTask a) (laCost a) j)) las j.

(** What happens to the files during the write phase: the appends of others
    before the [n]th step, the fate and the time of the [n]th own append, and
    whether the segment can be opened and removed. *)
Record io_plan := mkPlan {
  live : nat -> list live_append; own_write : nat -> write_fate; own_now : nat -> Z; open_ok : bool; remove_ok : bool
}.

Inductive replay_result := Replayed | ReplayError | ReplayKilled.

Fixpoint append_kept (io : io_plan) (n : nat) (kept : list journalLine) (j : settleJournal) : replay_result * settleJournal :=
  let j := run_live (live io n) j in
  match kept with
  | [] => (Replayed, j)
  | l :: kept =>
      match append (own_write io n) (own_now io n) (line_task l) (jlCost l) j with
      | (Appended, j) => append_kept io (S n) kept j
      | (AppendError, j) => (ReplayError, j)
      | (AppendKilled, j) => (ReplayKilled, j)
      end
  end.

Definition remove_segment (name : Z) (j : settleJournal) : settleJournal :=
  mkJournal (jActive j) (jOpen j) (delete name (jSealed j)).

(** [replaySegment]; the statistics are absent when the segment could not be read. *)
Definition replaySegment (guard now : Z) (io : io_plan) (name : Z) (content : string) (j : settleJournal) (st : session)
  : replay_result * option SettleJournalStats * settleJournal * session :=
  match (if open_ok io then scan content else None) with
  | None => (ReplayError, None, j, st)
  | Some all =>
      let '(lines, expired) := fresh_lines guard now [] all in
      let '(kept, (marked, recovered), st) := replay_batches (batches (length lines) journalBatchSize lines) st in
      let stats := mkStats (length all) marked recovered expired (length kept) in
      match append_kept io 0 kept j with
      | (Replayed, j) =>
          if remove_ok io then (Replayed, Some stats, remove_segment name j, st) else (ReplayError, Some stats, j, st)
      | (r, j) => (r, Some stats, j, st)
      end
  end.

(** ** A round *)

Definition add_stats (a b : SettleJournalStats) : SettleJournalStats :=
  mkStats (Total a + Total b) (AlreadyMarked a + AlreadyMarked b) (Recovered a + Recovered b)
    (Expired a + Expired b) (KeptForRetry a + KeptForRetry b).

Definition no_stats : SettleJournalStats := mkStats 0 0 0 0 0.

Inductive round_result := RoundOk | RoundIncomplete | RoundError | RoundKilled | LockNotAcquired | LockDown | RoundCancelled | SealFailed.

(** The clock and the files at each segment, and the deadline of the round. *)
Context (guard : Z) (seg_now : nat -> Z) (seg_io : nat -> io_plan) (segDeadline : Z).

Fixpoint replay_segments (n : nat) (segs : list (Z * string)) (total : SettleJournalStats) (j : settleJournal) (st : session)
  : replay_result * SettleJournalStats * settleJournal * session :=
  match segs with
  | [] => (Replayed, total, j, st)
  | (name, content) :: segs =>
      if segDeadline <? seg_now n then (Replayed, total, j, st)
      else
        let '(r, stats, j, st) := replaySegment guard (seg_now n) (seg_io n) name content j st in
        let total := match stats with Some s => add_stats total s | None => total end in
        match r with
        | Replayed => replay_segments (S n) segs total j st
        | r => (r, total, j, st)
        end
  end.

Definition locked_round (segs : list (Z * string)) (j : settleJournal) (st : session)
  : round_result * SettleJournalStats * settleJournal * session :=
  let '(r, total, j, st) := replay_segments 0 segs no_stats j st in
  (match r with
   | Replayed => if (0 <? KeptForRetry total)%nat then RoundIncomplete else RoundOk
   | ReplayError => RoundError
   | ReplayKilled => RoundKilled
   end, total, j, st).

(** The answers of [acquireCalibrationLock], the clock and the context at each attempt. *)
Inductive lock_answer := LockTaken | LockHeld | LockStoreDown.

Context (acquire : nat -> lock_answer) (lock_now : nat -> Z) (ctxDone : nat -> bool).

(** The attempts at the lock, half a second apart; [None] when the fuel does not suffice. *)
Fixpoint lock_loop (fuel n : nat) (deadline : Z) : option round_result :=
  match fuel with
  | O => None
  | S fuel =>
      match acquire n with
      | LockTaken => Some RoundOk
      | LockStoreDown => Some LockDown
      | LockHeld =>
          if deadline <? lock_now n then Some LockNotAcquired
          else if ctxDone n then Some RoundCancelled
          else lock_loop fuel (S n) deadline
      end
  end.

Definition SettleJournalRound (fuel : nat) (sio : seal_io) (now start lockWait : Z) (j : settleJournal) (st : session)
  : option (round_result * SettleJournalStats * settleJournal * session) :=
  match sealActive sio now j with
  | (SealError, j) => Some (SealFailed, no_stats, j, st)
  | (SealedAs _, j) =>
      match sealedSegments j with
      | [] => Some (RoundOk, no_stats, j, st)
      | segs =>
          match lock_loop fuel 0 (start + lockWait) with
          | None => None
          | Some RoundOk => Some (locked_round segs j st)
          | Some r => Some (r, no_stats, j, st)
          end
      end
  end.

(** *** Intents and the boot gate *)

(** [JournalSettleIntents]: one line per scope, before any of them is settled; [None] as
    [reservations] is the nil pointer. *)
Fixpoint JournalSettleIntents (write : nat -> write_fate) (clock : nat -> Z) (n : nat) (reqID : string) (cost : Z)
    (scopes : list budget_scope) (res : option reservations) (j : settleJournal) : settleJournal :=
  match scopes with
  | [] => j
  | sc :: scopes =>
      if String.eqb reqID "" then j
      else
        let pk := default "" (res ≫= fun r => rvPeriodKeys r !! bsScope sc) in
        let pk := if String.eqb pk "" then PeriodKey (clock n / Second) (bsPeriod sc) else pk in
        let '(_, j) := append (write n) (clock n) (mkScope (bsScope sc) (bsID sc) (bsPeriod sc) pk reqID) cost j in
        JournalSettleIntents write clock (S n) reqID cost scopes res j
  end.

(** [SettleJournalBootGate] over the rounds of the process: the answer ([false]
    when the context ended first), the waits in between, and the final state;
    [None] when the fuel does not suffice. *)
Fixpoint SettleJournalBootGate {X} (round : nat -> X -> round_result * X) (done : nat -> bool)
    (fuel n : nat) (backoff : Z) (waits : list Z) (x : X) : option (bool * list Z * X) :=
  match fuel with
  | O => None
  | S fuel =>
      match round n x with
      | (RoundOk, x) => Some (true, waits, x)
      | (_, x) =>
          if done n then Some (false, waits ++ [backoff], x)
          else SettleJournalBootGate round done fuel (S n) (if backoff <? 10 * Second then backoff * 2 else backoff)
                 (waits ++ [backoff]) x
      end
  end.
End Journal.

(** ** The content of a file *)

Section Content.
Context `{LawfulLineCodec}.

(** The intents a file holds. *)
Definition intents (content : string) : list journalLine := omap parse_line (split_on line_break content).

(** Every line of the file is complete. *)
Definition whole_lines (content : string) : Prop := content = "" \/ exists c, content = c +:+ String line_break "".

Lemma intents_nil : intents "" = [].
Proof. reflexivity. Qed.

Lemma intents_app a b : intents (a +:+ String line_break b) = intents a ++ intents b.
Proof. unfold intents. by rewrite split_on_app, omap_app. Qed.

Lemma intents_clean c t : whole_lines c -> intents (c +:+ t) = intents c ++ intents t.
Proof.
  intros [->|[c' ->]]; [done|]. rewrite <- string_app_assoc.
  change (String line_break "" +:+ t) with (String line_break t). rewrite !intents_app, intents_nil. by rewrite app_nil_r.
Qed.

Lemma parse_marshal l : jlReqID l <> "" -> parse_line (marshal_line l) = Some l.
Proof.
  intros Hr. unfold parse_line. rewrite line_trimmed, line_roundtrip, (proj2 (String.eqb_neq _ _) (line_nonempty l)).
  by rewrite (proj2 (String.eqb_neq _ _) Hr).
Qed.

Lemma intents_line l : jlReqID l <> "" -> intents (marshal_line l +:+ String line_break "") = [l].
Proof.
  intros Hr. rewrite intents_app, intents_nil, app_nil_r. unfold intents.
  rewrite split_on_none by apply line_one_line. cbn. by rewrite parse_marshal.
Qed.

Lemma clean_line c l : whole_lines c -> whole_lines (c +:+ (marshal_line l +:+ String line_break "")).
Proof. intros _. right. exists (c +:+ marshal_line l). by rewrite string_app_assoc. Qed.

(** *** The journal under appends *)

Definition active_has (j : settleJournal) (l : journalLine) : Prop := l ∈ intents (default "" (jActive j)).

Definition in_journal (j : settleJournal) (l : journalLine) : Prop :=
  active_has j l \/ exists name content, jSealed j !! name = Some content /\ l ∈ intents content.

Definition tidy (j : settleJournal) : Prop := whole_lines (default "" (jActive j)).

(** A write of another goroutine that leaves no half line. *)
Definition whole (a : live_append) : Prop := laWrite a = Written \/ laWrite a = Failed 0.

Lemma active_write t j l : active_has (write_active t j) l <-> l ∈ intents (default "" (jActive j) +:+ t).
Proof. reflexivity. Qed.

Lemma append_grows w now t c j :
  tidy j ->
  let j' := snd (append w now t c j) in
  jSealed j' = jSealed j /\ (forall l, active_has j l -> active_has j' l).
Proof.
  intros Ht. unfold append. destruct (jOpen j); [|done].
  destruct w; cbn [snd write_active jSealed]; (split; [done|]); intros l Hl; rewrite active_write, intents_clean by done;
    unfold active_has in Hl; set_solver.
Qed.

Lemma append_tidy w now t c j :
  tidy j -> w = Written \/ w = Failed 0 -> tidy (snd (append w now t c j)).
Proof.
  intros Ht Hw. unfold append. destruct (jOpen j); [|done].
  destruct Hw as [-> | ->]; cbn [snd].
  - apply (clean_line _ _ Ht).
  - change (whole_lines (default "" (jActive j) +:+ String.substring 0 0 (marshal_line
      (mkLine (sScope t) (sTarget t) (sPeriod t) (sPk t) (sReq t) c (now / Second) 1) +:+ String line_break ""))).
    destruct (_ +:+ String line_break ""); cbn [String.substring]; by rewrite string_app_empty_r.
Qed.

Lemma appended_line w now t c j j' :
  tidy j -> sReq t <> "" -> append w now t c j = (Appended, j') ->
  tidy j' /\ exists l, active_has j' l /\ line_task l = t /\ jlCost l = c.
Proof.
  intros Ht Hr. unfold append. destruct (jOpen j); [|done]. destruct w; [|done..]. intros [= <-].
  split; [by apply clean_line|].
  exists (mkLine (sScope t) (sTarget t) (sPeriod t) (sPk t) (sReq t) c (now / Second) 1).
  split; [|split; [by destruct t|reflexivity]].
  rewrite active_write, intents_clean, intents_line by done. set_solver.
Qed.

Lemma run_live_grows las j :
  Forall whole las -> tidy j ->
  let j' := run_live las j in tidy j' /\ jSealed j' = jSealed j /\ (forall l, active_has j l -> active_has j' l).
Proof.
  intros Hw. revert j. induction Hw as [|a las Ha _ IH]; intros j Ht; [done|].
  change (run_live (a :: las) j) with (run_live las (snd (append (laWrite a) (laNow a) (laTask a) (laCost a) j))).
  destruct (append_grows (laWrite a) (laNow a) (laTask a) (laCost a) j Ht) as [H1 H2].
  destruct (IH _ (append_tidy (laWrite a) (laNow a) (laTask a) (laCost a) j Ht Ha)) as (H3 & H4 & H5).
  split; [done|]. cbv zeta in *. split; [by rewrite H4|]. auto.
Qed.

Lemma append_kept_spec io n kept j r j' :
  (forall n, Forall whole (live io n)) -> tidy j -> Forall (fun l => jlReqID l <> "") kept ->
  append_kept io n kept j = (r, j') ->
  jSealed j' = jSealed j /\ (forall l, active_has j l -> active_has j' l)
  /\ (r = Replayed -> tidy j' /\ forall l, l ∈ kept -> exists l', active_has j' l' /\ line_key l' = line_key l).
Proof.
  intros Hw. revert n j. induction kept as [|l kept IH]; intros n j Ht Hr; cbn [append_kept];
    destruct (run_live_grows (live io n) j (Hw n) Ht) as (Ht1 & Hs1 & Hg1).
  { intros [= <- <-]. split_and!; [done|done|]. intros _. split; [done|]. by intros l ?%not_elem_of_nil. }
  apply Forall_cons in Hr as [Hr1 Hr2]. set (j1 := run_live _ j) in *.
  destruct (append_grows (own_write io n) (own_now io n) (line_task l) (jlCost l) j1 Ht1) as [Hs2 Hg2].
  destruct (append _ _ _ _ j1) as [a j2] eqn:E. cbn [snd] in *. destruct a.
  - destruct (appended_line _ _ (line_task l) _ _ _ Ht1 Hr1 E) as (Ht2 & l' & Hl' & Htask & _). intros Hk.
    destruct (IH (S n) j2 Ht2 Hr2 Hk) as (H1 & H2 & H3). split_and!; [by rewrite H1, Hs2, Hs1|auto|].
    intros ->. destruct (H3 eq_refl) as [H4 H5]. split; [done|]. intros l0 [->|Hin]%elem_of_cons; [|auto].
    exists l'. split; [auto|]. unfold line_key. by rewrite Htask.
  - intros [= <- <-]. split_and!; [by rewrite Hs2, Hs1|auto|done].
  - intros [= <- <-]. split_and!; [by rewrite Hs2, Hs1|auto|done].
Qed.

(** ** The settlements of a segment *)

(** Settlement marks outlive the round (their TTL is longer than any line's guard window). *)
Definition keeps_marks (o : budget_op) : Prop := match o with OpSettledExpires _ => False | _ => True end.

Lemma settled_step k db o : keeps_marks o -> isSettled k db = true -> isSettled k (budget_step db o) = true.
Proof.
  unfold isSettled. rewrite !bool_decide_eq_true. destruct o as [s e l x|s c|m|m t|k'|k'|k']; cbn [budget_step keeps_marks]; try done.
  - unfold budgetReserveMark. repeat (case_match; try done).
  - intros _ Hk. unfold budgetSettle, release. cbn [set_settledmark resvmark shadowmark].
    repeat case_match; cbn [snd]; try done; cbn [incr zset set_mark set_shadowmark set_settledmark settledmark]; set_solver.
  - unfold budgetReapOrphan. repeat (case_match; try done).
Qed.

Lemma settled_run k os db : Forall keeps_marks os -> isSettled k db = true -> isSettled k (run_budget os db) = true.
Proof.
  intros Hos. revert db. induction Hos as [|o os Ho _ IH]; intros db Hk; [done|]. cbn. by apply IH, settled_step.
Qed.

Lemma settle_settles s c db : isSettled (mkey s) (snd (budgetSettle s c db)) = true.
Proof.
  unfold budgetSettle. destruct (isSettled (mkey s) db) eqn:E.
  - apply (settled_step _ db (OpSettle s c) I) in E as E'. cbn in E'. unfold budgetSettle in E'. by rewrite E in E'.
  - unfold isSettled in *. apply bool_decide_eq_true. cbn [set_settledmark resvmark shadowmark].
    repeat case_match; cbn [snd incr zset set_mark set_shadowmark set_settledmark settledmark]; set_solver.
Qed.

Context (others : nat -> list budget_op) (net : nat -> fate) (lease : nat -> bool).
Context (lasting : forall n, Forall keeps_marks (others n)).

Definition settled (k : string * string * string) (st : session) : Prop := isSettled k (store st) = true.

Lemma read_call_settled {A} (f : budget_db -> A) st r st' k :
  read_call others net f st = (r, st') ->
  (settled k st -> settled k st') /\ (forall a, r = Some a -> a = f (store st')).
Proof.
  unfold read_call. intros [= <- <-]. split; [intros Hk; by apply settled_run|]. cbn. intros a. by destruct (net _); intros [=].
Qed.

Lemma settle_call_settled l st r st' k :
  redis_call others net (budgetSettle (line_task l) (jlCost l)) (OpSettle (line_task l) (jlCost l)) st = (r, st') ->
  (settled k st -> settled k st') /\ (is_Some r -> settled (line_key l) st').
Proof.
  unfold redis_call. set (db := run_budget _ _). pose proof (settle_settles (line_task l) (jlCost l) db) as Hs.
  assert (Hm : settled k st -> isSettled k db = true) by (apply settled_run, lasting).
  pose proof (settled_step k db (OpSettle (line_task l) (jlCost l)) I) as Hm2. cbn in Hm2.
  destruct (net _); [| |]; destruct (budgetSettle _ _ db) as [x db'];
    intros [= <- <-]; (split; [unfold settled; cbn [store snd] in *; auto|]); try (by intros [? [=]]).
Qed.

Lemma settle_lines_spec ls st kept counts st' :
  settle_lines others net ls st = (kept, counts, st') ->
  (forall k, settled k st -> settled k st')
  /\ ((forall l, (l, true) ∈ ls -> settled (line_key l) st) -> forall l m, (l, m) ∈ ls -> settled (line_key l) st' \/ l ∈ kept)
  /\ (forall l, l ∈ kept -> exists m, (l, m) ∈ ls).
Proof.
  revert st kept counts. induction ls as [|[l [|]] ls IH]; intros st kept counts; cbn [settle_lines].
  - intros [= <- <- <-]. split_and!; [done| |]; intros; exfalso; by eapply not_elem_of_nil.
  - destruct (settle_lines _ _ ls st) as [[kept1 [am rec]] st1] eqn:E. intros [= <- <- <-].
    apply IH in E as (H1 & H2 & H3). split_and!; [done| |].
    + intros Hm l' m [[= -> ->]|Hin]%elem_of_cons; [left; apply H1, Hm; by left|]. eapply H2; [|done]. intros. apply Hm. by right.
    + intros l' [m Hm]%H3. exists m. by right.
  - destruct (redis_call _ _ _ _ st) as [r st1] eqn:Er.
    pose proof (fun k => settle_call_settled l st r st1 k Er) as Hs. destruct r as [r|];
      destruct (settle_lines _ _ ls st1) as [[kept1 [am rec]] st2] eqn:E; intros [= <- <- <-]; apply IH in E as (H1 & H2 & H3);
      (split_and!; [intros k Hk; by apply H1, Hs| |]).
    + intros Hm l' m [[= -> ->]|Hin]%elem_of_cons; [left; apply H1, (proj2 (Hs ("", "", ""))); eauto|].
      eapply H2; [|done]. intros. apply Hs, Hm. by right.
    + intros l' [m Hm]%H3. exists m. by right.
    + intros Hm l' m [[= -> ->]|Hin]%elem_of_cons; [right; by left|].
      destruct (H2 ltac:(intros; apply Hs, Hm; by right) l' m Hin); [by left|right; by right].
    + intros l' [->|[m Hm]%H3]%elem_of_cons; [exists false; by left|]. exists m. by right.
Qed.

Lemma replay_batches_spec bs st kept counts st' :
  replay_batches others net lease bs st = (kept, counts, st') ->
  (forall k, settled k st -> settled k st')
  /\ (forall l, l ∈ concat bs -> settled (line_key l) st' \/ l ∈ kept) /\ (forall l, l ∈ kept -> l ∈ concat bs).
Proof.
  revert st kept counts. induction bs as [|b bs IH]; intros st kept counts; cbn [replay_batches concat].
  { intros [= <- <- <-]. split_and!; [done| |]; intros; exfalso; by eapply not_elem_of_nil. }
  unfold verify. destruct (read_call _ _ _ st) as [ok st1] eqn:E1.
  pose proof (fun k => read_call_settled _ _ _ _ k E1) as H1. destruct (default false ok); cbn [negb].
  2: { intros [= <- <- <-]. split_and!; [apply H1| |done]. intros l Hl. by right. }
  destruct (read_call _ _ _ st1) as [[marks|] st2] eqn:E2; pose proof (fun k => read_call_settled _ _ _ _ k E2) as H2.
  - assert (Hmarks : marks = map (fun l => isSettled (line_key l) (store st2)) b) by (by apply (H2 ("", "", ""))).
    destruct (settle_lines _ _ _ st2) as [[kept1 [am1 rec1]] st3] eqn:E3.
    destruct (replay_batches _ _ _ bs st3) as [[kept2 [am2 rec2]] st4] eqn:E4. intros [= <- <- <-].
    apply settle_lines_spec in E3 as (H3 & H4 & H5). apply IH in E4 as (H6 & H7 & H8).
    assert (Hzip : zip b marks = map (fun l => (l, isSettled (line_key l) (store st2))) b).
    { rewrite Hmarks. clear. induction b; cbn; [done|]. by f_equal. }
    rewrite Hzip in H4, H5. split_and!.
    + intros k Hk. by apply H6, H3, H2, H1.
    + intros l [Hl|Hl]%elem_of_app; [|destruct (H7 l Hl); set_solver].
      destruct (H4 ltac:(intros l' (? & [= -> ?] & _)%list_elem_of_fmap; by symmetry) l (isSettled (line_key l) (store st2)))
        as [?|?]; [apply list_elem_of_fmap; eauto|left; by apply H6|set_solver].
    + intros l [[m (? & [= -> ?] & ?)%list_elem_of_fmap]%H5|?%H8]%elem_of_app; set_solver.
  - destruct (replay_batches _ _ _ bs st2) as [[kept2 counts2] st3] eqn:E3. intros [= <- <- <-].
    apply IH in E3 as (H6 & H7 & H8). split_and!; [intros k Hk; by apply H6, H2, H1| |].
    + intros l [Hl|Hl]%elem_of_app; [set_solver|]. destruct (H7 l Hl); set_solver.
    + intros l [?|?%H8]%elem_of_app; set_solver.
Qed.

Lemma batches_concat n fuel ls : (0 < n)%nat -> (length ls <= fuel)%nat -> concat (batches fuel n ls) = ls.
Proof.
  intros Hn. revert ls. induction fuel as [|fuel IH]; intros [|l ls] Hf; cbn [batches]; try done; [cbn in Hf; lia|].
  cbn [concat]. rewrite IH; [apply take_drop|]. rewrite length_drop. cbn [length] in *. lia.
Qed.

Definition expired_at (guard now : Z) (l : journalLine) : bool := guard <? now - jlTs l * Second.

Lemma fresh_lines_spec guard now seen ls lines e l :
  fresh_lines guard now seen ls = (lines, e) -> l ∈ ls -> line_key l ∉ seen ->
  (forall l', l' ∈ ls -> line_key l' = line_key l -> expired_at guard now l' = false) ->
  exists l', l' ∈ lines /\ line_key l' = line_key l.
Proof.
  revert seen lines e. induction ls as [|a ls IH]; intros seen lines e; [by intros _ ?%not_elem_of_nil|]. cbn [fresh_lines].
  intros E Hl Hs Hx. case_bool_decide as Ha.
  { apply elem_of_cons in Hl as [->|Hl]; [done|]. eapply IH; [exact E|done|done|]. intros. apply Hx; [by right|done]. }
  destruct (fresh_lines guard now (line_key a :: seen) ls) as [rest e'] eqn:Er.
  destruct (decide (line_key a = line_key l)) as [Eq|Hne].
  - fold (expired_at guard now a) in E. rewrite Hx in E by (by constructor || done). injection E as <- <-.
    exists a. split; [by left|done].
  - apply elem_of_cons in Hl as [->|Hl]; [done|].
    destruct (IH _ _ _ Er Hl) as (l' & Hl' & Hk).
    { rewrite not_elem_of_cons. split; [congruence|done]. }
    { intros. apply Hx; [by right|done]. }
    exists l'. split; [|done]. destruct (guard <? _); injection E as <- <-; [done|by right].
Qed.

Lemma fresh_lines_sub guard now seen ls lines e l : fresh_lines guard now seen ls = (lines, e) -> l ∈ lines -> l ∈ ls.
Proof.
  revert seen lines e. induction ls as [|a ls IH]; intros seen lines e; cbn [fresh_lines]; [by intros [= <- <-]|].
  case_bool_decide; [intros E Hl; right; by eapply IH|]. destruct (fresh_lines _ _ _ ls) as [rest e'] eqn:Er.
  destruct (guard <? _); intros [= <- <-]; [intros Hl; right; by eapply IH|].
  intros [->|Hl]%elem_of_cons; [by left|right; by eapply IH].
Qed.

Lemma scan_intents content all : scan content = Some all -> all = intents content.
Proof. unfold scan. case_match; [done|]. by intros [= <-]. Qed.

Lemma intents_named content l : l ∈ intents content -> jlReqID l <> "".
Proof.
  unfold intents. rewrite list_elem_of_omap. intros (raw & _ & Hp). unfold parse_line in Hp.
  repeat case_match; simplify_eq. by apply String.eqb_neq.
Qed.

(** What a round owes to the request [k]: it is settled, or the journal still has its intent. *)
Definition accounted (k : string * string * string) (j : settleJournal) (st : session) : Prop :=
  settled k st \/ exists l, in_journal j l /\ line_key l = k.

(** No line of [k] in the file is past the guard window. *)
Definition in_time (guard now : Z) (k : string * string * string) (content : string) : Prop :=
  forall l, l ∈ intents content -> line_key l = k -> expired_at guard now l = false.

Record segment_outcome (guard now : Z) (name : Z) (content : string) (j : settleJournal) (st : session)
    (r : replay_result) (stats : option SettleJournalStats) (j' : settleJournal) (st' : session) : Prop := {
  so_settled : forall k, settled k st -> settled k st';
  so_active : forall l, active_has j l -> active_has j' l;
  so_kept : r <> Replayed -> jSealed j' = jSealed j;
  so_done : r = Replayed ->
    tidy j' /\ jSealed j' = delete name (jSealed j) /\ exists s, stats = Some s /\
    forall l, l ∈ intents content -> in_time guard now (line_key l) content ->
      settled (line_key l) st' \/ ((0 < KeptForRetry s)%nat /\ exists l', active_has j' l' /\ line_key l' = line_key l)
}.

Lemma replaySegment_spec guard now io name content j st r stats j' st' :
  (forall n, Forall whole (live io n)) -> tidy j ->
  replaySegment others net lease guard now io name content j st = (r, stats, j', st') ->
  segment_outcome guard now name content j st r stats j' st'.
Proof.
  intros Hw Ht. unfold replaySegment. destruct (open_ok io); [|intros [= <- <- <- <-]; by split].
  destruct (scan content) as [all|] eqn:Es.
  2: { intros [= <- <- <- <-]. by split. }
  apply scan_intents in Es as ->. destruct (fresh_lines guard now [] _) as [lines e] eqn:Ef.
  destruct (replay_batches _ _ _ _ st) as [[kept [am rec]] st1] eqn:Eb. apply replay_batches_spec in Eb as (H1 & H2 & H3).
  rewrite batches_concat in H2, H3 by (unfold journalBatchSize; lia).
  destruct (append_kept io 0 kept j) as [a j1] eqn:Ea.
  assert (Hn : Forall (fun l => jlReqID l <> "") kept).
  { apply Forall_forall. intros l Hl. eapply intents_named, fresh_lines_sub; eauto. }
  apply append_kept_spec in Ea as (H4 & H5 & H6); [|done..].
  destruct a; [|by intros [= <- <- <- <-]..].
  destruct (H6 eq_refl) as [H7 H8]. destruct (remove_ok io); intros [= <- <- <- <-]; [|by split].
  split; [done|done|done|]. intros _. split; [done|]. split; [by rewrite <- H4|]. eexists. split; [done|].
  intros l Hl Hx. destruct (fresh_lines_spec _ _ _ _ _ _ l Ef Hl) as (l1 & Hl1 & Hk1); [apply not_elem_of_nil|done|].
  destruct (H2 l1 Hl1) as [Hs|Hkept]; [left; by rewrite <- Hk1|right].
  destruct (H8 l1 Hkept) as (l2 & Hl2 & Hk2). split; [|exists l2; by rewrite Hk2].
  cbn. destruct kept; [by apply not_elem_of_nil in Hkept|]. cbn. lia.
Qed.

(** ** Rounds *)

Context (guard : Z) (seg_now : nat -> Z) (seg_io : nat -> io_plan) (segDeadline : Z).
Context (whole_live : forall n m, Forall whole (live (seg_io n) m)).

Lemma kept_grows n segs total j st r total' j' st' :
  replay_segments others net lease guard seg_now seg_io segDeadline n segs total j st = (r, total', j', st') ->
  (KeptForRetry total <= KeptForRetry total')%nat.
Proof.
  revert n total j st. induction segs as [|[name content] segs IH]; intros n total j st; cbn [replay_segments].
  { by intros [= <- <- <- <-]. }
  destruct (segDeadline <? seg_now n); [by intros [= <- <- <- <-]|].
  destruct (replaySegment _ _ _ _ _ _ _ _ _ _) as [[[a s] j1] st1].
  assert (H' : (KeptForRetry total <= KeptForRetry (match s with Some s => add_stats total s | None => total end))%nat).
  { destruct s; cbn; lia. }
  destruct a; [|by intros [= <- <- <- <-]..]. intros E%IH. lia.
Qed.

Lemma replay_segments_spec n segs total j st r total' j' st' :
  tidy j -> NoDup (map fst segs) -> (forall name content, (name, content) ∈ segs -> jSealed j !! name = Some content) ->
  replay_segments others net lease guard seg_now seg_io segDeadline n segs total j st = (r, total', j', st') ->
  (forall k, settled k st -> settled k st')
  /\ (forall k, (forall name content m, (name, content) ∈ segs -> in_time guard (seg_now m) k content) ->
      accounted k j st -> accounted k j' st')
  /\ (r = Replayed -> KeptForRetry total' = 0%nat -> (forall m, seg_now m <= segDeadline) ->
      forall name content l, (name, content) ∈ segs -> l ∈ intents content ->
      (forall m, in_time guard (seg_now m) (line_key l) content) -> settled (line_key l) st').
Proof.
  revert n total j st. induction segs as [|[name content] segs IH]; intros n total j st Ht Hnd Hsegs; cbn [replay_segments].
  { intros [= <- <- <- <-]. split_and!; [done|done|]. intros. exfalso. by eapply not_elem_of_nil. }
  destruct (Z.ltb_spec segDeadline (seg_now n)) as [Hd|Hd].
  { intros [= <- <- <- <-]. split_and!; [done|done|]. intros _ _ Hm. specialize (Hm n). lia. }
  destruct (replaySegment _ _ _ _ _ _ _ _ _ _) as [[[a s] j1] st1] eqn:E.
  apply replaySegment_spec in E as [O1 O2 O3 O4]; [|apply whole_live|done].
  assert (Hstop : a <> Replayed -> forall k, accounted k j st -> accounted k j1 st1).
  { intros Ha k [Hk|(l & [Hl|Hl] & Hk)]; [left; auto|right; exists l; split; [left; auto|done]|].
    right. exists l. split; [right|done]. by rewrite (O3 Ha). }
  destruct a; [|intros [= <- <- <- <-]; split_and!; [done| |done]; intros k _; by apply Hstop..].
  clear Hstop O3. destruct (O4 eq_refl) as (Ht1 & Hs1 & s' & -> & Hdone). intros E.
  cbn [map fst] in Hnd. apply NoDup_cons in Hnd as [Hnot Hnd].
  assert (Hrest : forall nm ct, (nm, ct) ∈ segs -> jSealed j1 !! nm = Some ct).
  { intros nm ct Hin. rewrite Hs1, lookup_delete_ne; [apply Hsegs; by right|].
    intros ->. apply Hnot. apply list_elem_of_fmap. by exists (nm, ct). }
  destruct (IH (S n) _ j1 st1 Ht1 Hnd Hrest E) as (I1 & I2 & I3).
  split_and!; [auto| |].
  - intros k Hx Hacc. apply I2; [intros; eapply Hx; by right|].
    destruct Hacc as [Hk|(l & [Hl|(nm & ct & Hnm & Hl)] & Hk)]; [left; auto|right; exists l; split; [left; auto|done]|].
    destruct (decide (nm = name)) as [->|Hne].
    + rewrite (Hsegs name content) in Hnm by left. injection Hnm as <-. subst k.
      destruct (Hdone l Hl) as [?|(_ & l' & Hl' & Hk')]; [eapply Hx; by left|by left|]. right. exists l'. split; [by left|done].
    + right. exists l. split; [right|done]. exists nm, ct. rewrite Hs1, lookup_delete_ne by done. done.
  - intros -> Hz Hm nm ct l [[= -> ->]|Hin]%elem_of_cons Hl Hx; [|by eapply I3].
    apply kept_grows in E. cbn in E. destruct (Hdone l Hl (Hx n)) as [?|[? _]]; [by apply I1|lia].
Qed.

Lemma segments_elem j name content : (name, content) ∈ sealedSegments j <-> jSealed j !! name = Some content.
Proof. unfold sealedSegments. rewrite stable_sort_perm. by rewrite elem_of_map_to_list. Qed.

Lemma segments_nodup j : NoDup (map fst (sealedSegments j)).
Proof. unfold sealedSegments. rewrite stable_sort_perm. apply NoDup_fst_map_to_list. Qed.

Lemma seal_keeps sio now j r j' :
  jSealed j !! now = None -> sealActive sio now j = (r, j') ->
  (forall l, in_journal j l -> in_journal j' l)
  /\ (forall name, r = SealedAs name -> tidy j ->
      tidy j' /\ forall l, in_journal j l -> exists nm ct, jSealed j' !! nm = Some ct /\ l ∈ intents ct).
Proof.
  intros Hf. unfold sealActive. destruct (stat_ok sio); cbn [negb]; [|by intros [= <- <-]].
  destruct (jActive j) as [content|] eqn:Ea.
  2: { intros [= <- <-]. split; [done|]. intros _ _ Ht. split; [done|]. intros l [Hl|Hl]; [|done].
       unfold active_has in Hl. rewrite Ea in Hl. by apply not_elem_of_nil in Hl. }
  destruct (String.eqb_spec content "") as [->|Hne].
  { intros [= <- <-]. split; [done|]. intros _ _ Ht. split; [done|]. intros l [Hl|Hl]; [|done].
    unfold active_has in Hl. rewrite Ea in Hl. by apply not_elem_of_nil in Hl. }
  destruct (rename_ok sio); cbn [negb].
  2: { intros [= <- <-]. split; [|done]. intros l [Hl|Hl]; [left|by right]. unfold active_has in *. by rewrite Ea in Hl. }
  assert (Hin : forall l, in_journal j l -> exists nm ct, <[now := content]> (jSealed j) !! nm = Some ct /\ l ∈ intents ct).
  { intros l [Hl|(nm & ct & Hn & Hl)].
    - exists now, content. rewrite lookup_insert_eq. unfold active_has in Hl. by rewrite Ea in Hl.
    - exists nm, ct. rewrite lookup_insert_ne by congruence. done. }
  destruct (reopen_ok sio); intros [= <- <-]; (split; [intros l Hl; right; by apply Hin|]); intros name [= <-] _.
  split; [by left|done].
Qed.

Context (acquire : nat -> lock_answer) (lock_now : nat -> Z) (ctxDone : nat -> bool).

Definition round_of := SettleJournalRound others net lease guard seg_now seg_io segDeadline acquire lock_now ctxDone.

(** No line of the request anywhere in the journal is past the guard window while the round runs. *)
Definition timely (k : string * string * string) (j : settleJournal) : Prop :=
  forall l m, in_journal j l -> line_key l = k -> expired_at guard (seg_now m) l = false.

Lemma timely_segments k j r j' sio now :
  jSealed j !! now = None -> tidy j -> sealActive sio now j = (r, j') -> timely k j ->
  forall name content m, (name, content) ∈ sealedSegments j' -> in_time guard (seg_now m) k content.
Proof.
  intros Hf Ht E Hx name content m Hin l Hl Hk. apply segments_elem in Hin. apply Hx; [|done].
  unfold sealActive in E. destruct (stat_ok sio); cbn [negb] in E; [|injection E as <- <-; right; eauto].
  destruct (jActive j) as [c|] eqn:Ea; [|injection E as <- <-; right; eauto].
  destruct (String.eqb c ""); [injection E as <- <-; right; eauto|].
  destruct (rename_ok sio); cbn [negb] in E; [|injection E as <- <-; right; eauto].
  assert (Hcase : <[now := c]> (jSealed j) !! name = Some content) by (destruct (reopen_ok sio); injection E as <- <-; done).
  apply lookup_insert_Some in Hcase as [[<- <-]|[_ Hs]]; [left; unfold active_has; by rewrite Ea|right; eauto].
Qed.

Lemma round_spec fuel sio now start lockWait j st r stats j' st' :
  jSealed j !! now = None -> tidy j -> round_of fuel sio now start lockWait j st = Some (r, stats, j', st') ->
  forall l, in_journal j l -> timely (line_key l) j ->
  accounted (line_key l) j' st' /\ (r = RoundOk -> (forall m, seg_now m <= segDeadline) -> settled (line_key l) st').
Proof.
  intros Hf Ht. unfold round_of, SettleJournalRound. destruct (sealActive sio now j) as [sr j1] eqn:Es.
  intros E l Hl Hx. pose proof (timely_segments (line_key l) j sr j1 sio now Hf Ht Es Hx) as Htime.
  destruct (seal_keeps sio now j sr j1 Hf Es) as [K1 K2].
  assert (Hacc : accounted (line_key l) j1 st) by (right; eauto).
  destruct sr as [|name]; [injection E as <- <- <- <-; by split|].
  destruct (K2 name eq_refl Ht) as [Ht1 K3]. destruct (K3 l Hl) as (nm & ct & Hnm & Hct).
  assert (Hseg : (nm, ct) ∈ sealedSegments j1) by (by apply segments_elem).
  pose proof (segments_nodup j1) as Hnd. pose proof (segments_elem j1) as Hall.
  destruct (sealedSegments j1) as [|seg segs]; [by apply not_elem_of_nil in Hseg|].
  destruct (lock_loop _ _ _ _ _ _) as [lr|]; [|done].
  destruct lr; try (injection E as <- <- <- <-; by split).
  unfold locked_round in E. destruct (replay_segments _ _ _ _ _ _ _ _ _ _ _ _) as [[[a total] j2] st2] eqn:Er.
  apply replay_segments_spec in Er as (_ & R2 & R3); [|done|done|intros; by apply Hall].
  injection E as <- <- <- <-. split; [by apply R2|].
  destruct a; [|done..]. destruct (Nat.ltb_spec 0 (KeptForRetry total)); [done|]. intros _ Hm.
  eapply R3; [done|lia|done|exact Hseg|done|]. intros m. by eapply Htime.
Qed.

(** Half a second per attempt bounds the wait for the lock. *)
Lemma lock_loop_terminates fuel n deadline :
  (forall m, lock_now m + 500 * Millisecond <= lock_now (S m)) ->
  deadline < lock_now n + Z.of_nat fuel * (500 * Millisecond) ->
  exists r, lock_loop acquire lock_now ctxDone (S fuel) n deadline = Some r.
Proof.
  intros Hc. revert n. induction fuel as [|fuel IH]; intros n Hd; cbn [lock_loop]; destruct (acquire n); eauto.
  - rewrite (proj2 (Z.ltb_lt deadline (lock_now n))) by lia. eauto.
  - destruct (deadline <? lock_now n); [eauto|]. destruct (ctxDone n); [eauto|]. apply IH. specialize (Hc n). lia.
Qed.
End Content.

(** ** Theorems *)

(** C9: No journaled settlement is lost in a replay round. The journal ends in a whole line ([tidy]),
    the name of the new segment is free, no line of the request passes its guard window during the round
    ([timely]: the code drops expired lines), settlement marks do not expire meanwhile, and the intents
    that other requests append are written whole or not at all ([whole]; a torn one hides the next,
    [torn_write_hides_next_intent]). Then, whatever else happens (rotation, lock and lease failures,
    lost Redis commands, unreadable segments, failed or interrupted writes of the round itself, a
    process killed while it puts lines back), every intent in the journal before the round is settled
    after it or still in the journal. *)
Theorem no_intent_lost `{LawfulLineCodec} others net lease guard seg_now seg_io segDeadline acquire lock_now ctxDone
    fuel sio now start lockWait j st r stats j' st' l :
  (forall n, Forall keeps_marks (others n)) -> (forall n m, Forall whole (live (seg_io n) m)) ->
  jSealed j !! now = None -> tidy j -> in_journal j l -> timely guard seg_now (line_key l) j ->
  SettleJournalRound others net lease guard seg_now seg_io segDeadline acquire lock_now ctxDone
    fuel sio now start lockWait j st = Some (r, stats, j', st') ->
  isSettled (line_key l) (store st') = true \/ exists l', in_journal j' l' /\ line_key l' = line_key l.
Proof. intros Ho Hw Hf Ht Hl Hx E. eapply round_spec in E as [E _]; [exact E|eauto..]. Qed.

(** A round that reports success, within its deadline, has settled every intent that was in the
    journal: this is what the boot gate waits for before the gateway serves. *)
Theorem completed_round_settles_all `{LawfulLineCodec} others net lease guard seg_now seg_io segDeadline acquire lock_now ctxDone
    fuel sio now start lockWait j st stats j' st' l :
  (forall n, Forall keeps_marks (others n)) -> (forall n m, Forall whole (live (seg_io n) m)) ->
  jSealed j !! now = None -> tidy j -> in_journal j l -> timely guard seg_now (line_key l) j ->
  (forall m, seg_now m <= segDeadline) ->
  SettleJournalRound others net lease guard seg_now seg_io segDeadline acquire lock_now ctxDone
    fuel sio now start lockWait j st = Some (RoundOk, stats, j', st') ->
  isSettled (line_key l) (store st') = true.
Proof. intros Ho Hw Hf Ht Hl Hx Hm E. eapply round_spec in E as [_ E]; [by apply E|eauto..]. Qed.

(** A replay round terminates: while the lock is held elsewhere it retries every half second, and
    after [lockWait] it has taken the lock or returned, so that two attempts more than fit into the
    wait are always enough; the rest of the round is bounded by the lines of the sealed files. *)
Theorem round_terminates `{LineCodec} others net lease guard seg_now seg_io segDeadline acquire lock_now ctxDone
    sio now start lockWait j st :
  0 <= lockWait -> start <= lock_now 0%nat -> (forall m, lock_now m + 500 * Millisecond <= lock_now (S m)) ->
  exists result, SettleJournalRound others net lease guard seg_now seg_io segDeadline acquire lock_now ctxDone
    (Z.to_nat (lockWait / (500 * Millisecond)) + 2) sio now start lockWait j st = Some result.
Proof.
  intros Hw Hs Hc. unfold SettleJournalRound. destruct (sealActive sio now j) as [[|name] j1]; [eauto|].
  destruct (sealedSegments j1) as [|seg segs]; [eauto|].
  destruct (lock_loop_terminates acquire lock_now ctxDone (Z.to_nat (lockWait / (500 * Millisecond)) + 1) 0 (start + lockWait) Hc)
    as [r Hr].
  { unfold Millisecond in *. rewrite Nat2Z.inj_add, Z2Nat.id by (apply Z.div_pos; lia).
    pose proof (Z.mul_succ_div_gt lockWait (500 * 1000000) ltac:(lia)). lia. }
  rewrite <- plus_n_Sm in Hr. rewrite Nat.add_0_r in Hr. replace (_ + 2)%nat with (S (Z.to_nat (lockWait / (500 * Millisecond)) + 1)) by lia.
  replace (_ + 1)%nat with (S (Z.to_nat (lockWait / (500 * Millisecond)))) by lia. rewrite Hr. destruct r; eauto.
Qed.

(** *** From the intents of a request to its recovery *)

Section Recovery.
Context `{LawfulLineCodec}.

Lemma intents_recorded clock n reqID cost scopes res j :
  reqID <> "" -> jOpen j = true -> tidy j ->
  let j' := JournalSettleIntents (fun _ => Written) clock n reqID cost scopes res j in
  tidy j' /\ jSealed j' = jSealed j /\ (forall l, active_has j l -> active_has j' l)
  /\ forall sc, sc ∈ scopes -> exists l, active_has j' l /\ line_key l = (bsScope sc, bsID sc, reqID) /\ jlCost l = cost.
Proof.
  intros Hr. revert n j. induction scopes as [|sc scopes IH]; intros n j Ho Ht; cbv zeta; cbn [JournalSettleIntents].
  { split_and!; [done|done|done|]. by intros sc ?%not_elem_of_nil. }
  rewrite (proj2 (String.eqb_neq _ _) Hr). set (t := mkScope _ _ _ _ reqID).
  destruct (append_grows Written (clock n) t cost j Ht) as [H1 H2].
  destruct (append Written (clock n) t cost j) as [a j1] eqn:E.
  cbn [snd] in H1, H2. assert (Ha : a = Appended /\ jOpen j1 = true) by (unfold append in E; rewrite Ho in E; by injection E as <- <-).
  destruct Ha as [-> Ho1]. destruct (appended_line _ _ t _ _ _ Ht Hr E) as (Ht1 & l & Hl & Htask & Hcost).
  destruct (IH (S n) j1 Ho1 Ht1) as (I1 & I2 & I3 & I4). split_and!; [done|by rewrite I2, H1|auto|].
  intros sc' [->|Hin]%elem_of_cons; [|auto]. exists l. split_and!; [auto| |done]. unfold line_key. by rewrite Htask.
Qed.
End Recovery.


(** ** A codec for the witnesses *)

Definition line_json (l : journalLine) : json :=
  JArr [JStr (jlScope l); JStr (jlTarget l); JStr (jlPeriod l); JStr (jlPk l); JStr (jlReqID l);
        JNum (jlCost l); JNum (jlTs l); JNum (jlVersion l)].

Definition json_line (j : json) : option journalLine :=
  match j with
  | JArr [JStr a; JStr b; JStr c; JStr d; JStr e; JNum x; JNum y; JNum z] => Some (mkLine a b c d e x y z)
  | _ => None
  end.

#[export] Instance line_codec : LineCodec := {|
  marshal_line l := encode_text (line_json l);
  unmarshal_line s := decode_text s ≫= json_line
|}.

Lemma pos_text_plain p c : Ascii.eqb c "0"%char = false -> Ascii.eqb c "1"%char = false -> string_has c (pos_text p) = false.
Proof. intros H0 H1. induction p; cbn; rewrite ?H0, ?H1; done. Qed.

Lemma pos_text_chars p : Forall (fun c => c = "0"%char \/ c = "1"%char) (String.list_ascii_of_string (pos_text p)).
Proof. induction p; cbn; (constructor; [by auto|]); [done|done|constructor]. Qed.

Lemma trim_plain s : Forall (fun c => c = "0"%char \/ c = "1"%char) s -> trim_space_left s = s.
Proof. destruct 1 as [|c s [-> | ->]]; done. Qed.

#[export] Instance line_codec_lawful : LawfulLineCodec.
Proof.
  split.
  - intros l. change (decode_text (encode_text (line_json l)) ≫= json_line = Some l).
    rewrite decode_encode_text. by destruct l.
  - intros l. by apply pos_text_plain.
  - intros l. change (TrimSpace (encode_text (line_json l)) = encode_text (line_json l)).
    unfold TrimSpace, encode_text. set (p := encode _). rewrite (trim_plain (String.list_ascii_of_string _)) by apply pos_text_chars.
    rewrite trim_plain by (apply Forall_rev, pos_text_chars). rewrite rev_involutive.
    apply String.string_of_list_ascii_of_string.
  - intros l. change (encode_text (line_json l) <> ""). unfold encode_text. by destruct (encode (to_tree (line_json l))).
Qed.

(** A process is killed after it journaled the settlements of a key and a team; the next one finds the
    lock taken once, and its round settles both. *)
Definition calm : nat -> io_plan := fun _ => mkPlan (fun _ => []) (fun _ => Written) (fun _ => 0) true true.
Definition second_try (n : nat) : lock_answer := if (n =? 0)%nat then LockHeld else LockTaken.
Definition half_seconds (n : nat) : Z := Z.of_nat n * (500 * Millisecond).

Definition fresh_journal : settleJournal := mkJournal (Some "") true ∅.

Definition crashed_journal : settleJournal :=
  JournalSettleIntents (fun _ => Written) (fun _ => 1767787200 * Second) 0 "r1" 30 [key_scope; team_scope] None fresh_journal.

Definition sample_round (net : nat -> fate) (lease : nat -> bool) :=
  SettleJournalRound (fun _ => []) net lease (7200 * Second) (fun _ => 1767787260 * Second) calm (1767787800 * Second)
    second_try half_seconds (fun _ => false) 22 (mkSealIO true true true) 5 0 (10 * Second)
    (openSettleJournal crashed_journal) (mkSession 0 [] empty_db).

Lemma sample_timely k : timely (7200 * Second) (fun _ => 1767787260 * Second) k crashed_journal.
Proof.
  assert (H : Forall (fun l => jlTs l = 1767787200) (intents (default "" (jActive crashed_journal)))).
  { vm_compute. repeat constructor. }
  rewrite Forall_forall in H. intros l m [Hl|(name & content & Hn & _)] _.
  - unfold expired_at. rewrite (H l Hl). reflexivity.
  - by vm_compute in Hn.
Qed.

Definition lossy (n : nat) : fate := if (n =? 3)%nat then NotSent else Delivered.

Definition round_view (k : string * string * string) (x : option (round_result * SettleJournalStats * settleJournal * session))
  : option (round_result * bool) :=
  match x with Some (r, _, _, st) => Some (r, isSettled k (store st)) | None => None end.

Lemma no_intent_lost_witness :
  match sample_round lossy (fun _ => true) with
  | Some (r, _, j', st') =>
      r = RoundIncomplete /\ isSettled ("team", "3", "r1") (store st') = false
      /\ forall l, in_journal (openSettleJournal crashed_journal) l ->
           isSettled (line_key l) (store st') = true \/ exists l', in_journal j' l' /\ line_key l' = line_key l
  | None => False
  end.
Proof.
  assert (Hv : round_view ("team", "3", "r1") (sample_round lossy (fun _ => true)) = Some (RoundIncomplete, false))
    by (vm_compute; reflexivity).
  destruct (sample_round lossy (fun _ => true)) as [[[[r stats] j'] st']|] eqn:E; [|discriminate Hv].
  cbn [round_view] in Hv. injection Hv as Hr Hs. split; [exact Hr|]. split; [exact Hs|].
  intros l Hl. eapply (no_intent_lost (fun _ => []) lossy (fun _ => true)); [..|exact E].
  - intros n. constructor.
  - intros n m. constructor.
  - reflexivity.
  - apply (intents_recorded (fun _ => 1767787200 * Second) 0 "r1" 30 [key_scope; team_scope] None fresh_journal);
      [discriminate|reflexivity|by left].
  - exact Hl.
  - apply sample_timely.
Defined.

Lemma completed_round_settles_all_witness :
  match sample_round (fun _ => Delivered) (fun _ => true) with
  | Some (r, _, _, st') =>
      r = RoundOk /\ forall l, in_journal (openSettleJournal crashed_journal) l -> isSettled (line_key l) (store st') = true
  | None => False
  end.
Proof.
  assert (Hv : round_view ("team", "3", "r1") (sample_round (fun _ => Delivered) (fun _ => true)) = Some (RoundOk, true))
    by (vm_compute; reflexivity).
  destruct (sample_round (fun _ => Delivered) (fun _ => true)) as [[[[r stats] j'] st']|] eqn:E; [|discriminate Hv].
  cbn [round_view] in Hv. injection Hv as Hr Hs. split; [exact Hr|]. subst r.
  intros l Hl. eapply (completed_round_settles_all (fun _ => []) (fun _ => Delivered) (fun _ => true)); [..|exact E].
  - intros n. constructor.
  - intros n m. constructor.
  - reflexivity.
  - apply (intents_recorded (fun _ => 1767787200 * Second) 0 "r1" 30 [key_scope; team_scope] None fresh_journal);
      [discriminate|reflexivity|by left].
  - exact Hl.
  - apply sample_timely.
  - intros m. vm_compute. discriminate.
Defined.


Lemma round_terminates_witness :
  exists result, SettleJournalRound (fun _ => []) (fun _ => Delivered) (fun _ => true) (7200 * Second) (fun _ => 0) calm 0
    (fun _ => LockHeld) half_seconds (fun _ => false)
    (Z.to_nat (10 * Second / (500 * Millisecond)) + 2) (mkSealIO true true true) 5 0 (10 * Second)
    crashed_journal (mkSession 0 [] empty_db) = Some result.
Proof.
  apply (round_terminates (fun _ => []) (fun _ => Delivered) (fun _ => true) (7200 * Second) (fun _ => 0) calm 0
           (fun _ => LockHeld) half_seconds (fun _ => false) (mkSealIO true true true) 5 0 (10 * Second)).
  - vm_compute. discriminate.
  - reflexivity.
  - intros m. unfold half_seconds. rewrite Nat2Z.inj_succ. lia.
Defined.

(** ** Behaviours at the edges *)

(** Later appends and rotations of the same process. *)
Inductive journal_op := JAppend (w : write_fate) (now : Z) (t : scope_ref) (cost : Z) | JSeal (io : seal_io) (now : Z).

Definition journal_step `{LineCodec} (j : settleJournal) (o : journal_op) : settleJournal :=
  match o with
  | JAppend w now t c => snd (append w now t c j)
  | JSeal io now => snd (sealActive io now j)
  end.

(** A rotation whose last step fails, the reopening of the active file, closes the journal for the
    rest of the process: every later append fails, and later rotations find no file to rotate and
    report success without opening one. *)
Theorem failed_reopen_disables_journal `{LineCodec} now content j ops :
  jActive j = Some content -> content <> "" ->
  let j' := snd (sealActive (mkSealIO true true false) now j) in
  fold_left journal_step ops j' = j'
  /\ (forall w t c now', fst (append w now' t c j') = AppendError)
  /\ (forall now', fst (sealActive (mkSealIO true true true) now' j') = SealedAs None).
Proof.
  intros Ha Hne. cbv zeta.
  assert (Es : snd (sealActive (mkSealIO true true false) now j) = mkJournal None false (<[now := content]> (jSealed j))).
  { unfold sealActive. rewrite Ha. cbn [stat_ok rename_ok reopen_ok negb]. by rewrite (proj2 (String.eqb_neq _ _) Hne). }
  rewrite Es. split; [|split; intros; reflexivity].
  induction ops as [|o ops IH]; [done|]. cbn [fold_left]. destruct o as [w n t c|io n]; cbn [journal_step]; [exact IH|].
  unfold sealActive. cbn [jActive]. destruct (stat_ok io); exact IH.
Qed.

Lemma failed_reopen_disables_journal_witness :
  let j' := snd (sealActive (mkSealIO true true false) 5 crashed_journal) in
  fold_left journal_step [JSeal (mkSealIO true true true) 6; JAppend Written 7 (sample_scope "r2") 40] j' = j'
  /\ fst (append Written 8 (sample_scope "r3") 50 j') = AppendError.
Proof.
  destruct (failed_reopen_disables_journal 5 (default "" (jActive crashed_journal)) crashed_journal
    [JSeal (mkSealIO true true true) 6; JAppend Written 7 (sample_scope "r2") 40]) as (H1 & H2 & _).
  - reflexivity.
  - vm_compute. discriminate.
  - split; [exact H1|apply H2].
Defined.

Lemma string_has_substring c s t n :
  (n <= String.length s)%nat -> string_has c s = false -> string_has c (String.substring 0 n (s +:+ t)) = false.
Proof.
  revert n. induction s as [|d s IH]; intros n Hn Hs; cbn in Hn.
  - replace n with 0%nat by lia. by destruct t.
  - destruct n as [|n]; [done|]. cbn in Hs. apply orb_false_iff in Hs as [Hd Hs].
    change (Ascii.eqb c d || string_has c (String.substring 0 n (s +:+ t)) = false).
    rewrite Hd. cbn [orb]. apply IH; [lia|done].
Qed.

Lemma string_has_app c a b : string_has c (a +:+ b) = string_has c a || string_has c b.
Proof.
  induction a as [|d a IH]; [done|].
  change (Ascii.eqb c d || string_has c (a +:+ b) = (Ascii.eqb c d || string_has c a) || string_has c b).
  by rewrite IH, orb_assoc.
Qed.

(** A write that fails half way (a full disk) takes the next intent with it: the journal has no
    line break after the torn text, so the next append, which succeeds, ends up on the same line and
    is dropped as malformed when the journal is read. *)
Theorem torn_write_hides_next_intent `{LawfulLineCodec} n now1 t1 c1 now2 t2 c2 j :
  let line now t c := marshal_line (mkLine (sScope t) (sTarget t) (sPeriod t) (sPk t) (sReq t) c (now / Second) 1) in
  let torn := String.substring 0 n (line now1 t1 c1 +:+ String line_break "") in
  jOpen j = true -> tidy j -> (n <= String.length (line now1 t1 c1))%nat ->
  parse_line (torn +:+ line now2 t2 c2) = None ->
  let j' := snd (append Written now2 t2 c2 (snd (append (Failed n) now1 t1 c1 j))) in
  fst (append Written now2 t2 c2 (snd (append (Failed n) now1 t1 c1 j))) = Appended
  /\ forall l, active_has j' l <-> active_has j l.
Proof.
  intros line torn Ho Ht Hn Hp. cbv zeta. unfold append at 2 4. rewrite Ho. cbn [snd]. unfold append. cbn [write_active jOpen].
  rewrite Ho. split; [done|]. intros l. cbn [snd]. fold (line now1 t1 c1) (line now2 t2 c2). fold torn.
  rewrite active_write. cbn [write_active jActive from_option id]. rewrite <- string_app_assoc, intents_clean by done.
  rewrite string_app_assoc, intents_app, intents_nil, app_nil_r. unfold intents at 2. rewrite split_on_none.
  - cbn. rewrite Hp. by rewrite app_nil_r.
  - rewrite string_has_app. apply orb_false_iff. split; [|apply line_one_line].
    apply string_has_substring; [done|apply line_one_line].
Qed.

Lemma torn_write_hides_next_intent_witness :
  let j' := snd (append Written 0 (sample_scope "r2") 40 (snd (append (Failed 9) 0 (sample_scope "r1") 30 fresh_journal))) in
  fst (append Written 0 (sample_scope "r2") 40 (snd (append (Failed 9) 0 (sample_scope "r1") 30 fresh_journal))) = Appended
  /\ forall l, active_has j' l <-> active_has fresh_journal l.
Proof.
  apply (torn_write_hides_next_intent 9 0 (sample_scope "r1") 30 0 (sample_scope "r2") 40 fresh_journal).
  - reflexivity.
  - by left.
  - vm_compute. repeat constructor.
  - vm_compute. reflexivity.
Defined.

(** A round that runs out of time reports success although it has not looked at a single segment, so
    the boot gate lets the gateway serve with unsettled intents in the journal. *)
Theorem overdue_round_reports_success `{LineCodec} others net lease guard seg_now seg_io segDeadline segs j st :
  segDeadline < seg_now 0%nat ->
  locked_round others net lease guard seg_now seg_io segDeadline segs j st = (RoundOk, no_stats, j, st).
Proof.
  intros Hd. unfold locked_round. destruct segs as [|[name content] segs]; [done|]. cbn [replay_segments].
  by rewrite (proj2 (Z.ltb_lt _ _) Hd).
Qed.

Lemma overdue_round_reports_success_witness :
  sealedSegments (snd (sealActive (mkSealIO true true true) 5 crashed_journal)) <> [] /\
  locked_round (fun _ => []) (fun _ => Delivered) (fun _ => true) (7200 * Second) (fun _ => 601 * Second) calm (600 * Second)
    (sealedSegments (snd (sealActive (mkSealIO true true true) 5 crashed_journal)))
    (snd (sealActive (mkSealIO true true true) 5 crashed_journal)) (mkSession 0 [] empty_db)
  = (RoundOk, no_stats, snd (sealActive (mkSealIO true true true) 5 crashed_journal), mkSession 0 [] empty_db).
Proof.
  split; [vm_compute; discriminate|]. apply overdue_round_reports_success. vm_compute. reflexivity.
Defined.

Lemma scan_line `{LawfulLineCodec} l :
  jlReqID l <> "" -> (N.of_nat (String.length (marshal_line l)) < maxToken)%N ->
  scan (marshal_line l +:+ String line_break "") = Some [l].
Proof.
  intros Hr Hn. unfold scan. rewrite split_on_app, split_on_none by apply line_one_line.
  cbn [app split_on existsb]. rewrite (proj2 (N.leb_gt _ _) Hn). cbn [orb String.length N.of_nat]. cbn. by rewrite parse_marshal.
Qed.

(** The charge of a settlement without a hold. *)
Lemma settle_charges s c db :
  isSettled (mkey s) db = false ->
  get (ckey KSettled s) (snd (budgetSettle s c db)) = get (ckey KSettled s) db + c.
Proof.
  intros Hs. unfold budgetSettle. rewrite Hs. cbn [set_settledmark resvmark shadowmark].
  destruct (resvmark db !! mkey s) as [[e mpk]|]; [|destruct (shadowmark db !! mkey s) as [[e mpk]|]];
    try destruct (String.eqb mpk (sPk s)); cbn [snd]; autorewrite with counters; unfold on, ckey, at_pk;
    repeat case_bool_decide; simplify_eq; lia.
Qed.

(** A line that is put back is dated anew, so the guard window does not bound how long it lives: an
    intent whose request was settled long ago, kept once because the lease was lost, is settled
    again after its mark expired, when its own age is past the window. *)
Theorem kept_line_settles_twice `{LawfulLineCodec} others net guard t1 t2 io io2 name name2 l sealed st db2 :
  let text l := marshal_line l +:+ String line_break "" in
  let again := mkLine (jlScope l) (jlTarget l) (jlPeriod l) (jlPk l) (jlReqID l) (jlCost l) (own_now io 0 / Second) 1 in
  jlReqID l <> "" -> jlCost l <> 0 ->
  (N.of_nat (String.length (marshal_line l)) < maxToken)%N -> (N.of_nat (String.length (marshal_line again)) < maxToken)%N ->
  expired_at guard t1 l = false -> expired_at guard t2 l = true -> expired_at guard t2 again = false ->
  live io 0 = [] -> live io 1 = [] -> own_write io 0 = Written ->
  open_ok io = true -> open_ok io2 = true -> remove_ok io = true -> remove_ok io2 = true -> live io2 0 = [] ->
  isSettled (line_key l) db2 = false ->
  exists stats1 st1,
    replaySegment others net (fun _ => false) guard t1 io name (text l) (mkJournal (Some "") true sealed) st
    = (Replayed, Some stats1, mkJournal (Some (text again)) true (delete name sealed), st1)
  /\ exists stats2 j2 st2,
    replaySegment (fun _ => []) (fun _ => Delivered) (fun _ => true) guard t2 io2 name2 (text again)
      (mkJournal (Some "") true sealed) (mkSession 0 [] db2) = (Replayed, Some stats2, j2, st2)
    /\ get (ckey KSettled (line_task l)) (store st2) = get (ckey KSettled (line_task l)) db2 + jlCost l.
Proof.
  intros text again Hr Hc Hn Hn2 Hx1 Hx2 Hx3 Hl0 Hl1 Hw Hop Hop2 Hrm Hrm2 Hl2 Hs.
  unfold expired_at in Hx1, Hx3. unfold replaySegment, text. rewrite Hop, Hop2, !scan_line by done.
  cbn [fresh_lines]. rewrite !bool_decide_false by apply not_elem_of_nil. rewrite Hx1, Hx3.
  change (batches (length [l]) journalBatchSize [l]) with [[l]].
  change (batches (length [again]) journalBatchSize [again]) with [[again]].
  cbn [replay_batches concat app]. unfold verify.
  destruct (read_call others net _ st) as [ok st1] eqn:E1.
  assert (Hok : default false ok = false) by (unfold read_call in E1; injection E1 as <- _; by destruct (net _)).
  rewrite Hok. cbn [negb append_kept]. rewrite Hl0, Hl1. cbn [run_live fold_left]. unfold append at 1. rewrite Hw. cbn [jOpen].
  rewrite Hrm. eexists _, _. split; [reflexivity|]. unfold read_call. cbn [run_budget fold_left store sent trace default from_option id negb].
  cbn [map zip]. unfold line_key in Hs. change (line_key again) with (mkey (line_task l)). unfold run_budget. cbn [fold_left]. rewrite Hs.
  cbn [zip settle_lines]. unfold redis_call. cbn [run_budget fold_left store sent trace].
  pose proof (settle_charges (line_task l) (jlCost l) db2 Hs) as Hg.
  change (budgetSettle (line_task again) (jlCost again)) with (budgetSettle (line_task l) (jlCost l)).
  unfold run_budget. cbn [fold_left]. destruct (budgetSettle (line_task l) (jlCost l) db2) as [code db3].
  cbn [snd] in Hg. cbn [replay_batches app append_kept]. rewrite Hl2. cbn [run_live fold_left]. rewrite Hrm2.
  eexists _, _, _. split; [reflexivity|]. exact Hg.
Qed.

Definition old_line : journalLine := mkLine "key" "7" "daily" "2026-01-01" "r1" 30 1000 1.
Definition settled_and_expired : budget_db :=
  run_budget [OpSettle (line_task old_line) 30; OpSettledExpires (line_key old_line)] empty_db.
Definition keeping_plan : io_plan := mkPlan (fun _ => []) (fun _ => Written) (fun _ => 5000 * Second) true true.

Lemma kept_line_settles_twice_witness :
  get (KSettled, ("key", "7", "2026-01-01")) settled_and_expired = 30 /\
  exists stats2 j2 st2,
    replaySegment (fun _ => []) (fun _ => Delivered) (fun _ => true) (7200 * Second) (9000 * Second) keeping_plan 2
      (marshal_line (mkLine "key" "7" "daily" "2026-01-01" "r1" 30 5000 1) +:+ String line_break "")
      (mkJournal (Some "") true ∅) (mkSession 0 [] settled_and_expired) = (Replayed, Some stats2, j2, st2)
    /\ get (KSettled, ("key", "7", "2026-01-01")) (store st2) = get (KSettled, ("key", "7", "2026-01-01")) settled_and_expired + 30.
Proof.
  split; [vm_compute; reflexivity|].
  destruct (kept_line_settles_twice (fun _ => []) (fun _ => Delivered) (7200 * Second) (5000 * Second) (9000 * Second)
    keeping_plan keeping_plan 1 2 old_line ∅ (mkSession 0 [] empty_db) settled_and_expired) as (s1 & st1 & _ & Htwice);
    [discriminate|discriminate|vm_compute; reflexivity..|exact Htwice].
Defined.
