(* ===== verification/RateLimit.v ===== *)
(** * Rate limits: [internal/middleware/ratelimit.go]

    The request and token limits of a gateway call: the three Redis scripts on
    the counters they share, the RPM and TPM middlewares with their key, team and
    organisation levels, and the settlement of a token reservation.

    Scripts are atomic.  A middleware is a function on a [limiter]: the shared
    store, the number of commands it sent, and a record of what its own commands
    added to which counter.  Before each command any other requests may run
    ([others]) and the command may be lost ([net]).  Counter values are exact
    integers (Redis and Lua agree with them below 2^53) and TTLs are seconds. *)

From Stdlib Require Import SpecFloat.
From stdpp Require Import pretty.
From S2P Require Import Prelude Json Messages Budget.

(** ** The store *)

Record counter := mkCounter { cValue : Z; cTTL : option Z }.

Notation redis := (gmap string counter) (only parsing).

Definition value (k : string) (db : redis) : Z := from_option cValue 0 (db !! k).

Definition INCRBY (k : string) (d : Z) (db : redis) : Z * redis :=
  (value k db + d, <[k := mkCounter (value k db + d) (db !! k ≫= cTTL)]> db).

Definition EXPIRE (k : string) (ttl : Z) (db : redis) : redis :=
  match db !! k with Some c => <[k := mkCounter (cValue c) (Some ttl)]> db | None => db end.

(** Seconds pass; a counter whose TTL runs out is gone. *)
Definition age (d : Z) (c : counter) : option counter :=
  match cTTL c with
  | None => Some c
  | Some t => if t <=? d then None else Some (mkCounter (cValue c) (Some (t - d)))
  end.

Definition elapse (d : Z) (db : redis) : redis := omap (age d) db.

(** ** Scripts *)

Definition incrExpireScript (k : string) (ttl : Z) (db : redis) : Z * redis :=
  let '(count, db) := INCRBY k 1 db in
  (count, if count =? 1 then EXPIRE k ttl db else db).

Definition incrByExpireScript (k : string) (delta ttl : Z) (db : redis) : Z * redis :=
  if (delta <? 0) && negb (bool_decide (is_Some (db !! k))) then (0, db)
  else
    let '(count, db) := INCRBY k delta db in
    (count, if count =? delta then EXPIRE k ttl db else db).

(** The counter and whether the reservation was granted. *)
Definition reserveTPMAtomicScript (k : string) (reservation limit ttl : Z) (db : redis) : (Z * bool) * redis :=
  let '(new_count, db) := INCRBY k reservation db in
  let db := if new_count =? reservation then EXPIRE k ttl db else db in
  if limit <? new_count then ((new_count - reservation, false), snd (INCRBY k (- reservation) db))
  else ((new_count, true), db).

Definition tpmWindowTTLSeconds : Z := 120.
Definition rpmWindowSeconds : Z := 60.

(** ** Executions *)

Inductive redis_op :=
  | RRequest (k : string)
  | RReserve (k : string) (reservation limit : Z)
  | RAdjust (k : string) (delta : Z)
  | RElapse (d : Z).

#[export] Instance redis_op_eq_dec : EqDecision redis_op.
Proof. solve_decision. Defined.

Definition redis_step (db : redis) (o : redis_op) : redis :=
  match o with
  | RRequest k => snd (incrExpireScript k rpmWindowSeconds db)
  | RReserve k r limit => snd (reserveTPMAtomicScript k r limit tpmWindowTTLSeconds db)
  | RAdjust k d => snd (incrByExpireScript k d tpmWindowTTLSeconds db)
  | RElapse d => elapse d db
  end.

Definition run_redis (os : list redis_op) (db : redis) : redis := fold_left redis_step os db.

(** ** A request *)

Record limiter := mkLimiter { calls : nat; shared : redis; own : list (string * Z) }.

Record RateLimitConfig := mkRateLimit { RPM : Z; TPM : Z; Reservation : Z; FailClosed : bool }.

(** The limits of an API key, a team or an organisation. *)
Record APIKey := mkAPIKey { akRPMLimit : Z; akTPMLimit : Z; akTeamID : option Z }.
Record Team := mkTeam { tID : Z; tRPMLimit : Z; tTPMLimit : Z }.

(** What the middlewares read of the request context. *)
Record rl_ctx := mkCtx {
  clientIP : string;
  apiKey : option APIKey;
  api_key_id : option Z;
  user_id : option Z;
  team_id : option Z;
  org_id : Z;
  urlPath : string;
  bodyJSON : option json
}.

Inductive rl_response :=
  | Next
  | TooManyRequests (message : string) (retryAfter limit : Z)
  | ServiceUnavailable.

Record tpmReservations := mkTPM { rKey : Z; rTeam : Z; rOrg : Z }.

Definition resolveTeamID (c : rl_ctx) : Z :=
  match apiKey c ≫= akTeamID with Some id => id | None => default 0 (team_id c) end.

Definition isNonTokenEndpoint (path : string) : bool :=
  existsb (HasPrefix path)
    ["/v1/videos"; "/v1/images/"; "/v1/audio/"; "/v1/embeddings"; "/v1/batch"; "/v1/batches"].

Definition positive (o : option Z) : option Z := id ← o; if 0 <? id then Some id else None.

(** *** The token estimate of a body *)

Definition outputTokenReservation (maxTokens : Z) : Z :=
  if maxTokens <=? 0 then 512 else Z.min (Z.quot maxTokens 2) 8192.

Definition nonempty_estimate (isCJK : Z -> bool) (s : string) : Z :=
  if String.eqb s "" then 0 else Estimate isCJK s.

Definition sumZ (l : list Z) : Z := fold_right Z.add 0 l.

(** A JSON array decoded into a slice. *)
Definition as_array (j : json) : option (list json) :=
  match j with JNull => Some [] | JArr l => Some l | _ => None end.

Section TokenEstimate.
Context (isCJK : Z -> bool) (raw_text : json -> string).

Definition message_content (j : json) : option string := as_struct j ≫= fun m => as_string (member "content" m).

Definition item_estimate (j : json) : option Z :=
  m ← as_struct j;
  ty ← as_string (member "type" m);
  output ← as_string (member "output" m);
  let content := match m with JObj kvs => match assoc "content" kvs with Some v => raw_text v | None => "" end | _ => "" end in
  Some ((if String.eqb ty "message" && negb (String.eqb content "") then Estimate isCJK (byte_dump content) else 0)
        + (if String.eqb ty "function_call_output" then nonempty_estimate isCJK output else 0)).

Definition input_estimate (input : json) : Z :=
  match input with
  | JStr s => Estimate isCJK s
  | _ => match as_array input ≫= mapM item_estimate with Some l => sumZ l | None => 0 end
  end.

Definition estimateResponsesTokens (body : json) : Z :=
  default 0 (
    probe ← as_struct body;
    instructions ← as_string (member "instructions" probe);
    maxOutput ← as_int (member "max_output_tokens" probe);
    let total := nonempty_estimate isCJK instructions + input_estimate (member "input" probe) in
    Some (if total =? 0 then 0 else total + outputTokenReservation maxOutput)).

Definition estimateTokens (c : rl_ctx) : Z :=
  match bodyJSON c with
  | None => 0
  | Some body =>
      if HasPrefix (urlPath c) "/v1/responses" then estimateResponsesTokens body
      else
        default 0 (
          probe ← as_struct body;
          prompt ← as_string (member "prompt" probe);
          messages ← as_array (member "messages" probe) ≫= mapM message_content;
          maxTokens ← as_int (member "max_tokens" probe);
          let total := nonempty_estimate isCJK prompt + sumZ (nonempty_estimate isCJK <$> messages) in
          Some (if total =? 0 then 0 else total + outputTokenReservation maxTokens))
  end.
End TokenEstimate.

(** *** Commands *)

(** Counters by key, team and organisation ([fmt.Sprintf]). *)
Definition numbered (prefix : string) (id : Z) : string := prefix +:+ pretty id.

Section Middleware.
Context (others : nat -> list redis_op) (net : nat -> fate).

(** One command on the counter [k]. *)
Definition script_call {A} (k : string) (script : redis -> A * redis) (st : limiter) : option A * limiter :=
  let n := calls st in
  let db := run_redis (others n) (shared st) in
  match net n with
  | NotSent => (None, mkLimiter (S n) db (own st))
  | f =>
      let '(r, db') := script db in
      ((match f with Delivered => Some r | _ => None end),
       mkLimiter (S n) db' (own st ++ [(k, value k db' - value k db)]))
  end.

(** The TTL command: -1 without TTL, -2 without key. *)
Definition ttl_of (k : string) (db : redis) : Z :=
  match db !! k with Some c => default (-1) (cTTL c) | None => -2 end.

Definition retryAfterFromTTL (k : string) (st : limiter) : Z * limiter :=
  let '(ttl, st) := script_call k (fun db => (ttl_of k db, db)) st in
  (match ttl with Some t => if t <=? 0 then 60 else t + 1 | None => 60 end, st).

(** [X-RateLimit-Limit] and [X-RateLimit-Remaining] *)
Notation headers := (option (Z * Z)) (only parsing).

Definition too_many (message : string) (k : string) (limit : Z) (st : limiter) : rl_response * headers * limiter :=
  let '(retryAfter, st) := retryAfterFromTTL k st in
  (TooManyRequests message retryAfter limit, Some (limit, 0), st).

Definition abortTPMLimit (k : string) (limit : Z) (message : string) (st : limiter) : rl_response * headers * limiter :=
  too_many message k limit st.

(** [None]: the request goes on. *)
Definition isRateLimitedWithHeaders (k : string) (rpm : Z) (h : headers) (st : limiter)
  : option rl_response * headers * limiter :=
  match script_call k (incrExpireScript k rpmWindowSeconds) st with
  | (None, st) => (None, h, st)
  | (Some count, st) =>
      if rpm <? count then
        let '(r, h, st) := too_many "rate limit exceeded" k rpm st in (Some r, h, st)
      else (None, Some (rpm, Z.max 0 (rpm - count)), st)
  end.

(** *** Requests per minute *)

Context (teamCache : Z -> option Team) (orgCache : option (Z -> option Team)).

Definition rpm_limited (c : rl_ctx) : bool := match apiKey c with Some k => 0 <? akRPMLimit k | None => false end.

(** The key of the global limit. *)
Definition rpm_key (c : rl_ctx) : string :=
  let limitKey := match positive (api_key_id c) with
                  | Some id => if rpm_limited c then clientIP c else numbered "key:" id
                  | None => clientIP c
                  end in
  match apiKey c, positive (user_id c) with
  | None, Some id => numbered "admin:" id
  | _, _ => limitKey
  end.

Definition team_of (c : rl_ctx) : option Team :=
  if 0 <? resolveTeamID c then teamCache (resolveTeamID c) else None.

Definition org_of (c : rl_ctx) : option Team :=
  cache ← orgCache; if org_id c =? 0 then None else cache (org_id c).

Definition limit_check (prefix : string) (get : Team -> Z) (t : option Team) : list (string * Z) :=
  match t with
  | Some t => if 0 <? get t then [(numbered prefix (tID t), get t)] else []
  | None => []
  end.

(** The counters a request is checked against, in order. *)
Definition rpm_checks (rpm : Z) (c : rl_ctx) : list (string * Z) :=
  match apiKey c, positive (api_key_id c) with
  | Some k, Some id => if 0 <? akRPMLimit k then [(numbered "ratelimit:key:" id, akRPMLimit k)] else []
  | _, _ => []
  end
  ++ (if rpm_limited c then [] else [("ratelimit:" +:+ rpm_key c, rpm)])
  ++ limit_check "ratelimit:team:" tRPMLimit (team_of c)
  ++ limit_check "ratelimit:org:" tRPMLimit (org_of c).

Fixpoint run_checks (checks : list (string * Z)) (h : headers) (st : limiter) : rl_response * headers * limiter :=
  match checks with
  | [] => (Next, h, st)
  | (k, limit) :: checks =>
      match isRateLimitedWithHeaders k limit h st with
      | (Some r, h, st) => (r, h, st)
      | (None, h, st) => run_checks checks h st
      end
  end.

Definition rateLimit (cfg : RateLimitConfig) (c : rl_ctx) (st : limiter) : rl_response * headers * limiter :=
  if RPM cfg <=? 0 then (Next, None, st) else run_checks (rpm_checks (RPM cfg) c) None st.

(** *** Tokens per minute *)

Context (isCJK : Z -> bool) (raw_text : json -> string).

Definition refundTPMReservation (k : string) (reservation : Z) (st : limiter) : limiter :=
  snd (script_call k (incrByExpireScript k (- reservation) tpmWindowTTLSeconds) st).

Definition reserve (k : string) (r limit : Z) (st : limiter) : option (Z * bool) * limiter :=
  script_call k (reserveTPMAtomicScript k r limit tpmWindowTTLSeconds) st.

Definition tpm_key (c : rl_ctx) : string :=
  let k := match positive (api_key_id c) with Some id => numbered "tpm:key:" id | None => clientIP c end in
  match apiKey c, positive (user_id c) with
  | None, Some id => numbered "tpm:admin:" id
  | _, _ => k
  end.

Definition tpm_limit (cfg : RateLimitConfig) (c : rl_ctx) : Z :=
  match apiKey c with Some k => if 0 <? akTPMLimit k then akTPMLimit k else TPM cfg | None => TPM cfg end.

Definition tpm_reservation (cfg : RateLimitConfig) (c : rl_ctx) : Z :=
  let defaultReservation := if Reservation cfg <=? 0 then 2000 else Reservation cfg in
  Z.max (estimateTokens isCJK raw_text c) defaultReservation.

(** The answer, the headers, and what the context holds for [ReportTokens]
    when the request goes on. *)
Notation tpm_answer := (rl_response * headers * option (string * tpmReservations) * limiter)%type (only parsing).

Definition go_on (k : string) (res : tpmReservations) (h : headers) (st : limiter) : tpm_answer :=
  (Next, h, Some (k, res), st).

Definition reject_tpm (k : string) (limit : Z) (message : string) (st : limiter) : tpm_answer :=
  let '(r, h, st) := abortTPMLimit k limit message st in (r, h, None, st).

(** The organisation level. *)
Definition tpm_org (c : rl_ctx) (r : Z) (res : tpmReservations) (h : headers) (st : limiter) : tpm_answer :=
  let k := tpm_key c in
  match limit_check "tpm:org:" tTPMLimit (org_of c) with
  | (orgKey, limit) :: _ =>
      match reserve orgKey r limit st with
      | (Some (_, false), st) =>
          let st := refundTPMReservation k r st in
          let st := if (0 <? rTeam res) && (0 <? resolveTeamID c)
                    then refundTPMReservation (numbered "tpm:team:" (resolveTeamID c)) r st else st in
          reject_tpm orgKey limit "organization token rate limit exceeded" st
      | (Some (_, true), st) => go_on k (mkTPM (rKey res) (rTeam res) r) h st
      | (None, st) => go_on k res h st
      end
  | [] => go_on k res h st
  end.

(** The team level and what follows. *)
Definition tpm_team (c : rl_ctx) (r : Z) (h : headers) (st : limiter) : tpm_answer :=
  let k := tpm_key c in
  match limit_check "tpm:team:" tTPMLimit (team_of c) with
  | (teamKey, limit) :: _ =>
      match reserve teamKey r limit st with
      | (Some (_, false), st) =>
          reject_tpm teamKey limit "team token rate limit exceeded" (refundTPMReservation k r st)
      | (Some (_, true), st) => tpm_org c r (mkTPM r r 0) h st
      | (None, st) => tpm_org c r (mkTPM r 0 0) h st
      end
  | [] => tpm_org c r (mkTPM r 0 0) h st
  end.

Definition tpmLimit (cfg : RateLimitConfig) (c : rl_ctx) (st : limiter) : tpm_answer :=
  if isNonTokenEndpoint (urlPath c) then (Next, None, Some ("", mkTPM 0 0 0), st)
  else
    let k := tpm_key c in
    let limit := tpm_limit cfg c in
    if limit <=? 0 then go_on k (mkTPM 0 0 0) None st
    else
      let r := tpm_reservation cfg c in
      match reserve k r limit st with
      | (None, st) =>
          if FailClosed cfg then (ServiceUnavailable, None, None, st) else go_on k (mkTPM 0 0 0) None st
      | (Some (_, false), st) => reject_tpm k limit "token rate limit exceeded" st
      | (Some (count, true), st) => tpm_team c r (Some (limit, Z.max 0 (limit - count))) st
      end.

(** *** Settlement *)

Definition adjust (k : string) (delta : Z) (st : limiter) : limiter :=
  if delta =? 0 then st else snd (script_call k (incrByExpireScript k delta tpmWindowTTLSeconds) st).

Definition ReportTokens (c : rl_ctx) (set : option (string * tpmReservations)) (inputTokens outputTokens : option Z)
    (st : limiter) : limiter :=
  match set with
  | None => st
  | Some (key, res) =>
      let total := default 0 inputTokens + default 0 outputTokens in
      if (total <=? 0) && (rKey res =? 0) && (rTeam res =? 0) && (rOrg res =? 0) then st
      else
        let st := if String.eqb key "" then st else adjust key (total - rKey res) st in
        let teamID := resolveTeamID c in
        let st := if (0 <? teamID) && ((0 <? total) || (0 <? rTeam res))
                  then adjust (numbered "tpm:team:" teamID) (total - rTeam res) st else st in
        match orgCache with
        | Some _ =>
            if negb (org_id c =? 0) && ((0 <? total) || (0 <? rOrg res))
            then adjust (numbered "tpm:org:" (org_id c)) (total - rOrg res) st else st
        | None => st
        end
  end.
End Middleware.

(** ** Counters under the scripts *)

Lemma value_insert k k' v t db : value k (<[k' := mkCounter v t]> db) = if bool_decide (k = k') then v else value k db.
Proof.
  unfold value. case_bool_decide as E; [subst; by rewrite lookup_insert_eq|by rewrite lookup_insert_ne].
Qed.

Lemma value_EXPIRE k k' t db : value k (EXPIRE k' t db) = value k db.
Proof.
  unfold EXPIRE. destruct (db !! k') as [c|] eqn:E; [|done]. rewrite value_insert.
  case_bool_decide; [|done]. subst. unfold value. by rewrite E.
Qed.

Lemma value_INCRBY k k' d db : value k (snd (INCRBY k' d db)) = value k db + (if bool_decide (k = k') then d else 0).
Proof. cbn. rewrite value_insert. case_bool_decide; [subst; lia|lia]. Qed.

Lemma alive_EXPIRE k k' t (db : redis) : is_Some (EXPIRE k' t db !! k) <-> is_Some (db !! k).
Proof.
  unfold EXPIRE. destruct (db !! k') as [c|] eqn:E; [|done]. rewrite lookup_insert_is_Some.
  destruct (decide (k' = k)) as [->|]; [|naive_solver]. rewrite E. split; eauto.
Qed.

Lemma alive_INCRBY k k' d db : is_Some (snd (INCRBY k' d db) !! k) <-> k = k' \/ is_Some (db !! k).
Proof. cbn. rewrite lookup_insert_is_Some. destruct (decide (k' = k)); naive_solver. Qed.

Create HintDb limiter.
#[export] Hint Rewrite value_EXPIRE value_INCRBY : limiter.

(** [d] on the counter [k]. *)
Definition at_key (k k' : string) (d : Z) : Z := if bool_decide (k = k') then d else 0.

(** A reservation counts in full when it is granted and not at all when it is refused. *)
Lemma reserve_effect k r limit ttl db :
  let '((count, granted), db') := reserveTPMAtomicScript k r limit ttl db in
  (forall k', value k' db' = value k' db + at_key k' k (if granted then r else 0))
  /\ (forall k', is_Some (db' !! k') <-> k' = k \/ is_Some (db !! k'))
  /\ granted = (value k db + r <=? limit) /\ count = value k db'.
Proof.
  unfold reserveTPMAtomicScript. destruct (INCRBY k r db) as [n db1] eqn:E.
  pose proof (fun k' => value_INCRBY k' k r db) as Hv. pose proof (fun k' => alive_INCRBY k' k r db) as Ha.
  assert (Hn : n = value k db + r) by (unfold INCRBY in E; congruence).
  rewrite E in Hv, Ha. cbn [snd] in Hv, Ha. set (db2 := if n =? r then _ else _).
  assert (Hv2 : forall k', value k' db2 = value k' db1) by (intros; unfold db2; case_match; [apply value_EXPIRE|done]).
  assert (Ha2 : forall k', is_Some (db2 !! k') <-> is_Some (db1 !! k')).
  { intros. unfold db2. case_match; [apply alive_EXPIRE|done]. }
  destruct (Z.ltb_spec limit n) as [Hl|Hl]; split_and!.
  - intros k'. rewrite value_INCRBY, Hv2, Hv. unfold at_key. case_bool_decide; lia.
  - intros k'. rewrite alive_INCRBY, Ha2, Ha. naive_solver.
  - symmetry. apply Z.leb_gt. lia.
  - rewrite value_INCRBY, Hv2, Hv, !bool_decide_true by done. lia.
  - intros k'. rewrite Hv2, Hv. unfold at_key. done.
  - intros k'. rewrite Ha2, Ha. done.
  - symmetry. apply Z.leb_le. lia.
  - rewrite Hv2, Hv, bool_decide_true by done. lia.
Qed.

(** An adjustment counts in full, unless it is a refund of a counter that is gone. *)
Lemma adjust_effect k d ttl db :
  let db' := snd (incrByExpireScript k d ttl db) in
  (forall k', is_Some (db !! k') -> is_Some (db' !! k'))
  /\ (0 <= d \/ is_Some (db !! k) -> forall k', value k' db' = value k' db + at_key k' k d)
  /\ (d < 0 -> db !! k = None -> db' = db).
Proof.
  unfold incrByExpireScript. destruct (Z.ltb_spec d 0) as [Hd|Hd]; cbn [andb].
  - destruct (db !! k) as [c|] eqn:E; [|by split_and!; [..|intros [?|[? ?]]; [lia|done]|]].
    rewrite bool_decide_true by eauto. cbn [negb]. destruct (INCRBY k d db) as [n db1] eqn:E1.
    pose proof (fun k' => value_INCRBY k' k d db) as Hv. pose proof (fun k' => alive_INCRBY k' k d db) as Ha.
    rewrite E1 in Hv, Ha. cbn [snd] in *. split_and!; [| |done]; destruct (n =? d); intros; rewrite ?alive_EXPIRE, ?value_EXPIRE.
    1,2: apply Ha; by right. all: apply Hv.
  - destruct (INCRBY k d db) as [n db1] eqn:E1.
    pose proof (fun k' => value_INCRBY k' k d db) as Hv. pose proof (fun k' => alive_INCRBY k' k d db) as Ha.
    rewrite E1 in Hv, Ha. cbn [snd] in *. split_and!; [| |lia]; destruct (n =? d); intros; rewrite ?alive_EXPIRE, ?value_EXPIRE.
    1,2: apply Ha; by right. all: apply Hv.
Qed.

(** ** Every counter expires *)

Definition expires (_ : string) (c : counter) : Prop := exists t, cTTL c = Some t /\ 0 < t <= tpmWindowTTLSeconds.

Definition op_ok (o : redis_op) : Prop := match o with RElapse d => 0 <= d | _ => True end.

Lemma expires_alive k d (db : redis) : map_Forall expires db -> is_Some (db !! k) -> map_Forall expires (snd (INCRBY k d db)).
Proof.
  intros Hw [c Hc]. cbn. apply map_Forall_insert_2; [|done]. destruct (Hw k c Hc) as (t & Ht & ?).
  exists t. cbn. rewrite Hc. by split.
Qed.

Lemma expires_fresh k v ttl (db : redis) :
  map_Forall expires db -> 0 < ttl <= tpmWindowTTLSeconds -> map_Forall expires (EXPIRE k ttl (<[k := v]> db)).
Proof.
  intros Hw Ht. unfold EXPIRE. rewrite lookup_insert_eq, insert_insert_eq. apply map_Forall_insert_2; [|done].
  exists ttl. by split.
Qed.

(** The pattern of the scripts: the TTL is set when the increment is the first. *)
Lemma expires_first k d ttl (db : redis) :
  map_Forall expires db -> 0 < ttl <= tpmWindowTTLSeconds ->
  let '(n, db1) := INCRBY k d db in map_Forall expires (if n =? d then EXPIRE k ttl db1 else db1).
Proof.
  intros Hw Ht. destruct (INCRBY k d db) as [n db1] eqn:E. unfold INCRBY in E. injection E as <- <-.
  destruct (Z.eqb_spec (value k db + d) d) as [Hz|Hz]; [by apply expires_fresh|].
  apply (expires_alive k d db Hw). unfold value in Hz. destruct (db !! k); [eauto|cbn in Hz; lia].
Qed.

Lemma step_expires db o : op_ok o -> map_Forall expires db -> map_Forall expires (redis_step db o).
Proof.
  intros Ho Hw. destruct o as [k|k r l|k d|d]; cbn [redis_step].
  - pose proof (expires_first k 1 rpmWindowSeconds db Hw ltac:(split; [reflexivity|discriminate])) as H. unfold incrExpireScript.
    by destruct (INCRBY k 1 db).
  - pose proof (expires_first k r tpmWindowTTLSeconds db Hw ltac:(split; [reflexivity|discriminate])) as H.
    pose proof (fun k' => alive_INCRBY k' k r db) as Ha. unfold reserveTPMAtomicScript.
    destruct (INCRBY k r db) as [n db1]. destruct (l <? n); [|done]. cbn [snd] in *. apply expires_alive; [done|].
    case_match; rewrite ?alive_EXPIRE; apply Ha; by left.
  - pose proof (expires_first k d tpmWindowTTLSeconds db Hw ltac:(split; [reflexivity|discriminate])) as H.
    unfold incrByExpireScript. destruct (_ && _); [done|]. by destruct (INCRBY k d db).
  - intros k c Hc. unfold elapse in Hc. rewrite lookup_omap in Hc.
    destruct (db !! k) as [c0|] eqn:E; [|done]. cbn in Hc. destruct (Hw k c0 E) as (t & Ht & ?). unfold age in Hc.
    rewrite Ht in Hc. destruct (Z.leb_spec t d); [done|]. injection Hc as <-. exists (t - d). cbn in *. split; [done|lia].
Qed.

(** C38: No rate-limit counter is immortal: whatever requests are counted, tokens reserved, settled or
    refunded, and however time passes, every counter in the store carries a TTL of at most the
    window, so a limit that was hit always opens again; in particular, no refund revives an
    expired counter without a TTL. *)
Theorem counters_always_expire os db :
  Forall op_ok os -> map_Forall expires db -> map_Forall expires (run_redis os db).
Proof.
  intros Hos. revert db. induction Hos as [|o os Ho Hos IH]; intros db Hw; [done|].
  cbn. apply IH. by apply step_expires.
Qed.

Definition sample_limits : list redis_op :=
  [RReserve "tpm:key:7" 2000 5000; RElapse 120; RAdjust "tpm:key:7" (-500); RRequest "ratelimit:key:7";
   RReserve "tpm:team:3" 6000 5000; RAdjust "tpm:team:3" 40].

Lemma counters_always_expire_witness :
  run_redis sample_limits ∅ !! "tpm:key:7" = None /\ value "tpm:team:3" (run_redis sample_limits ∅) = 40
  /\ map_Forall expires (run_redis sample_limits ∅).
Proof.
  split; [vm_compute; reflexivity|]. split; [vm_compute; reflexivity|].
  apply counters_always_expire; [unfold sample_limits; repeat (apply Forall_cons; split); try done; cbn; lia|].
  apply map_Forall_empty.
Defined.

(** ** Requests per minute *)

(** Whether the operation touches the counter [k]. *)
Definition touches (k : string) (o : redis_op) : Prop :=
  match o with RRequest k' | RReserve k' _ _ | RAdjust k' _ => k' = k | RElapse _ => False end.

(** A request on [k] that the limit lets through. *)
Definition lets_through (k : string) (rpm : Z) (db : redis) (o : redis_op) : Z :=
  match o with
  | RRequest k' => if String.eqb k' k && (fst (incrExpireScript k rpmWindowSeconds db) <=? rpm) then 1 else 0
  | _ => 0
  end.

Fixpoint let_through (k : string) (rpm : Z) (os : list redis_op) (db : redis) : Z :=
  match os with
  | [] => 0
  | o :: os => lets_through k rpm db o + let_through k rpm os (redis_step db o)
  end.

Fixpoint duration (os : list redis_op) : Z :=
  match os with [] => 0 | RElapse d :: os => d + duration os | _ :: os => duration os end.

(** Only requests touch the counter, and time moves forward. *)
Definition rpm_counter (k : string) (o : redis_op) : Prop := op_ok o /\ (touches k o -> o = RRequest k).

(** What the counter can still let through in the next [T] seconds. *)
Definition capacity (rpm T : Z) (c : option counter) : Z :=
  match c with
  | None => rpm * (1 + T / rpmWindowSeconds)
  | Some c =>
      let t := default 0 (cTTL c) in
      Z.max 0 (rpm - cValue c) + (if t <=? T then rpm * (1 + (T - t) / rpmWindowSeconds) else 0)
  end.

Definition rpm_state (c : option counter) : Prop :=
  match c with None => True | Some c => 1 <= cValue c /\ exists t, cTTL c = Some t /\ 0 < t <= rpmWindowSeconds end.

Lemma INCRBY_other k k' d db : k <> k' -> snd (INCRBY k' d db) !! k = db !! k.
Proof. intros. cbn. by rewrite lookup_insert_ne. Qed.

Lemma EXPIRE_other k k' t (db : redis) : k <> k' -> EXPIRE k' t db !! k = db !! k.
Proof. intros. unfold EXPIRE. case_match; [by rewrite lookup_insert_ne|done]. Qed.

Lemma untouched_step k o db :
  ~ touches k o -> redis_step db o !! k = match o with RElapse d => db !! k ≫= age d | _ => db !! k end.
Proof.
  intros Ht. destruct o as [k'|k' r l|k' d|d]; cbn [touches redis_step] in *.
  - unfold incrExpireScript. pose proof (INCRBY_other k k' 1 db ltac:(auto)) as H. destruct (INCRBY k' 1 db) as [n db1].
    cbn [snd] in *. case_match; [rewrite EXPIRE_other by auto|]; done.
  - unfold reserveTPMAtomicScript. pose proof (INCRBY_other k k' r db ltac:(auto)) as H. destruct (INCRBY k' r db) as [n db1].
    cbn [snd] in H. destruct (l <? n); cbn [snd]; [rewrite INCRBY_other by auto|];
      (case_match; [rewrite EXPIRE_other by auto|]; done).
  - unfold incrByExpireScript. destruct (_ && _); [done|]. pose proof (INCRBY_other k k' d db ltac:(auto)) as H.
    destruct (INCRBY k' d db) as [n db1]. cbn [snd] in *. case_match; [rewrite EXPIRE_other by auto|]; done.
  - unfold elapse. by rewrite lookup_omap.
Qed.

Lemma incrExpire_self k ttl (db : redis) :
  fst (incrExpireScript k ttl db) = value k db + 1
  /\ snd (incrExpireScript k ttl db) !! k
     = Some (mkCounter (value k db + 1) (if value k db + 1 =? 1 then Some ttl else db !! k ≫= cTTL)).
Proof.
  unfold incrExpireScript, INCRBY, EXPIRE. split; [done|]. cbn [snd]. destruct (_ =? 1); [|apply lookup_insert_eq].
  by rewrite lookup_insert_eq, lookup_insert_eq.
Qed.

(** One request on the counter. *)
Lemma request_step k rpm T (db : redis) :
  0 <= rpm -> 0 <= T -> rpm_state (db !! k) ->
  let db' := redis_step db (RRequest k) in
  rpm_state (db' !! k) /\ lets_through k rpm db (RRequest k) + capacity rpm T (db' !! k) <= capacity rpm T (db !! k).
Proof.
  intros Hr HT Hs. cbv zeta. unfold lets_through. rewrite String.eqb_refl. cbn [redis_step andb].
  destruct (incrExpire_self k rpmWindowSeconds db) as [-> ->]. unfold value.
  destruct (db !! k) as [[v t]|] eqn:E; cbn [from_option cValue].
  - destruct Hs as (Hv & t' & Ht & Hb). cbn in Hv, Ht. subst t. rewrite (proj2 (Z.eqb_neq (v + 1) 1)) by lia.
    split; [split; [cbn; lia|eauto]|]. unfold capacity. cbn [cValue cTTL from_option mbind option_bind].
    generalize (if t' <=? T then rpm * (1 + (T - t') / rpmWindowSeconds) else 0). intros G.
    unfold from_option, id. destruct (Z.leb_spec (v + 1) rpm); lia.
  - split; [split; [cbn; lia|exists rpmWindowSeconds; by unfold rpmWindowSeconds]|].
    unfold capacity, rpmWindowSeconds in *. cbn [cValue cTTL].
    change (default 0 (if 0 + 1 =? 1 then Some 60 else None ≫= cTTL)) with 60. destruct (Z.leb_spec 60 T).
    + replace (1 + (T - 60) / 60) with (T / 60) by div_lia. destruct (Z.leb_spec (0 + 1) rpm); nia.
    + rewrite (Z.div_small T 60) by lia. destruct (Z.leb_spec (0 + 1) rpm); lia.
Qed.

(** Time passes. *)
Lemma wait_step rpm d T (c : option counter) :
  0 <= rpm -> 0 <= d <= T -> rpm_state c ->
  rpm_state (c ≫= age d) /\ capacity rpm (T - d) (c ≫= age d) <= capacity rpm T c.
Proof.
  intros Hr Hd Hs. destruct c as [[v t]|]; cbn.
  - destruct Hs as (Hv & t' & Ht & Hb). cbn in Hv, Ht. subst t. unfold age. cbn. destruct (Z.leb_spec t' d); cbn.
    + split; [done|]. rewrite (proj2 (Z.leb_le t' T)) by lia.
      assert ((T - d) / rpmWindowSeconds <= (T - t') / rpmWindowSeconds) by (unfold rpmWindowSeconds; apply Z.div_le_mono; lia).
      nia.
    + split; [split; [lia|]; exists (t' - d); split; [done|lia]|].
      replace (T - d - (t' - d)) with (T - t') by lia. destruct (Z.leb_spec (t' - d) (T - d)), (Z.leb_spec t' T); lia.
  - split; [done|].
    assert ((T - d) / rpmWindowSeconds <= T / rpmWindowSeconds) by (unfold rpmWindowSeconds; apply Z.div_le_mono; lia). nia.
Qed.

Lemma duration_nonneg k os : Forall (rpm_counter k) os -> 0 <= duration os.
Proof. induction 1 as [|o os [Ho _] _ IH]; [done|]. destruct o; cbn in *; lia. Qed.

Lemma let_through_capacity k rpm os db :
  0 <= rpm -> Forall (rpm_counter k) os -> rpm_state (db !! k) ->
  let_through k rpm os db <= capacity rpm (duration os) (db !! k).
Proof.
  intros Hr Hos. revert db. induction Hos as [|o os [Ho Ht] Hos IH]; intros db Hs; cbn [let_through duration].
  { unfold capacity. destruct (db !! k) as [c|]; [|change (0 / rpmWindowSeconds) with 0; lia]. destruct Hs as (_ & t & -> & Hb).
    cbn [from_option id]. rewrite (proj2 (Z.leb_gt t 0)) by lia. lia. }
  pose proof (duration_nonneg k os Hos) as HT. destruct (decide (o = RRequest k)) as [->|Hne].
  - destruct (request_step k rpm (duration os) db Hr HT Hs) as [Hs' Hc]. specialize (IH _ Hs'). lia.
  - assert (Hz : lets_through k rpm db o = 0).
    { destruct o; try done. cbn. destruct (String.eqb_spec k0 k); [subst; done|done]. }
    rewrite Hz. pose proof (untouched_step k o db ltac:(auto)) as Hu. specialize (IH (redis_step db o)). rewrite Hu in IH.
    destruct o as [| | |d]; cbn [op_ok] in Ho; try (by specialize (IH Hs)).
    destruct (wait_step rpm d (d + duration os) (db !! k) Hr ltac:(lia) Hs) as [Hs' Hc].
    specialize (IH Hs'). replace (d + duration os - d) with (duration os) in Hc by lia. lia.
Qed.

(** The request limit holds in every window, whatever else happens to the store: from any state of
    its counter, a key limited to [rpm] requests per minute lets at most [rpm] requests through per
    started minute, plus those of the window that was already open. *)
Theorem requests_per_minute_bounded k rpm os db :
  0 <= rpm -> Forall (rpm_counter k) os -> rpm_state (db !! k) ->
  let_through k rpm os db <= rpm * (duration os / 60 + if db !! k then 2 else 1).
Proof.
  intros Hr Hos Hs. pose proof (let_through_capacity k rpm os db Hr Hos Hs) as H.
  pose proof (duration_nonneg k os Hos) as HT. unfold capacity, rpmWindowSeconds in H.
  destruct (db !! k) as [c|]; [|lia]. destruct Hs as (Hv & t & Ht & Hb). rewrite Ht in H. cbn in H.
  destruct (Z.leb_spec t (duration os)).
  - assert ((duration os - t) / 60 <= duration os / 60) by (apply Z.div_le_mono; lia). nia.
  - assert (0 <= duration os / 60) by (apply Z.div_pos; lia). nia.
Qed.

(** Three requests a minute: two windows in 70 seconds, and the fourth request of each is refused. *)
Definition sample_requests : list redis_op :=
  let r := RRequest "ratelimit:key:7" in
  [r; r; RRequest "ratelimit:key:8"; r; r; RElapse 30; r; RElapse 40; r; r; r; r].

Lemma requests_per_minute_bounded_witness :
  let_through "ratelimit:key:7" 3 sample_requests ∅ = 6 /\
  let_through "ratelimit:key:7" 3 sample_requests ∅ <= 3 * (duration sample_requests / 60 + if (∅ : redis) !! "ratelimit:key:7" then 2 else 1).
Proof.
  split; [vm_compute; reflexivity|].
  apply (requests_per_minute_bounded "ratelimit:key:7" 3 sample_requests ∅); [lia| |done].
  unfold sample_requests. repeat (apply Forall_cons; split); try apply Forall_nil; try done;
    (split; [cbn; lia || done|cbn; intros H; by inversion H]).
Defined.

(** ** What a request leaves in the counters *)

(** What the request's own commands added to the counter [k]. *)
Definition added_to (k : string) (st : limiter) : Z :=
  sumZ (map snd (List.filter (fun p => String.eqb (fst p) k) (own st))).

Definition no_time (o : redis_op) : Prop := match o with RElapse _ => False | _ => True end.

Lemma sumZ_app l1 l2 : sumZ (l1 ++ l2) = sumZ l1 + sumZ l2.
Proof. unfold sumZ. induction l1 as [|x l1 IH]; [done|]. cbn. rewrite IH. apply Z.add_assoc. Qed.

Lemma added_snoc k k' d n db o :
  added_to k (mkLimiter n db (o ++ [(k', d)])) = sumZ (map snd (List.filter (fun p => String.eqb (fst p) k) o)) + at_key k k' d.
Proof.
  unfold added_to. cbn [own]. rewrite List.filter_app, map_app, sumZ_app. cbn. unfold at_key.
  destruct (String.eqb_spec k' k) as [->|Hne]; cbn; [rewrite bool_decide_true by done; lia|].
  rewrite bool_decide_false by congruence. lia.
Qed.

Lemma alive_step k db o : no_time o -> is_Some (db !! k) -> is_Some (redis_step db o !! k).
Proof.
  intros Hn Ha. destruct o as [k'|k' r l|k' d|d]; cbn [redis_step]; [| | |done].
  - unfold incrExpireScript. pose proof (alive_INCRBY k k' 1 db) as H. destruct (INCRBY k' 1 db) as [n db1].
    cbn [snd] in *. destruct (n =? 1); rewrite ?alive_EXPIRE; naive_solver.
  - pose proof (reserve_effect k' r l tpmWindowTTLSeconds db) as H.
    destruct (reserveTPMAtomicScript _ _ _ _ _) as [[c g] db1]. naive_solver.
  - by apply (adjust_effect k' d tpmWindowTTLSeconds db).
Qed.

Lemma alive_run k os db : Forall no_time os -> is_Some (db !! k) -> is_Some (run_redis os db !! k).
Proof.
  intros Hos. revert db. induction Hos as [|o os Ho _ IH]; intros db Ha; [done|]. cbn. by apply IH, alive_step.
Qed.

Section Accounting.
(** Every command arrives and the window does not end in between. *)
Context (others : nat -> list redis_op) (net : nat -> fate).
Context (delivered : forall n, net n = Delivered) (same_window : forall n, Forall no_time (others n)).

Definition alive (k : string) (st : limiter) : Prop := is_Some (shared st !! k).

(** [st'] follows [st] and the request's own commands in between added [d]. *)
Definition leads (st : limiter) (d : string -> Z) (st' : limiter) : Prop :=
  (forall k, alive k st -> alive k st') /\ (forall k, added_to k st' = added_to k st + d k).

Lemma leads_refl st : leads st (fun _ => 0) st.
Proof. split; [done|]. intros. lia. Qed.

Lemma leads_trans st1 d1 st2 d2 st3 d :
  leads st1 d1 st2 -> leads st2 d2 st3 -> (forall k, d k = d1 k + d2 k) -> leads st1 d st3.
Proof. intros [Ha Hc] [Ha' Hc'] Hd. split; [auto|]. intros k. rewrite Hc', Hc, Hd. lia. Qed.

Lemma reserve_leads k r limit st :
  exists count granted st', reserve others net k r limit st = (Some (count, granted), st')
  /\ leads st (fun k' => at_key k' k (if granted then r else 0)) st' /\ alive k st'.
Proof.
  unfold reserve, script_call. rewrite delivered. set (db := run_redis _ _).
  pose proof (reserve_effect k r limit tpmWindowTTLSeconds db) as H.
  destruct (reserveTPMAtomicScript _ _ _ _ _) as [[count granted] db']. destruct H as (Hv & Ha & _).
  exists count, granted. eexists. split; [reflexivity|]. split; [split|].
  - intros k' Hk. apply Ha. right. by apply alive_run.
  - intros k'. rewrite added_snoc, Hv. unfold added_to, at_key. case_bool_decide; [|lia].
    rewrite bool_decide_true by done. subst. lia.
  - apply Ha. by left.
Qed.

Lemma adjust_leads k d st :
  0 <= d \/ alive k st ->
  leads st (fun k' => at_key k' k d) (snd (script_call others net k (incrByExpireScript k d tpmWindowTTLSeconds) st)).
Proof.
  intros H. unfold script_call. rewrite delivered. set (db := run_redis _ _).
  destruct (adjust_effect k d tpmWindowTTLSeconds db) as (Ha & Hv & _).
  destruct (incrByExpireScript _ _ _ _) as [n db']. cbn [snd] in *. split.
  - intros k' Hk. apply Ha. by apply alive_run.
  - intros k'. rewrite added_snoc, Hv; [|destruct H; [by left|right; by apply alive_run]].
    unfold added_to, at_key. case_bool_decide; [|lia]. rewrite bool_decide_true by done. subst. lia.
Qed.

Lemma refund_leads k r st :
  alive k st -> leads st (fun k' => - at_key k' k r) (refundTPMReservation others net k r st).
Proof.
  intros H. eapply leads_trans; [apply leads_refl|apply (adjust_leads k (- r)); by right|].
  intros k'. unfold at_key. case_bool_decide; lia.
Qed.

Lemma settle_leads k d st :
  0 <= d \/ alive k st -> leads st (fun k' => at_key k' k d) (adjust others net k d st).
Proof.
  intros H. unfold adjust. destruct (Z.eqb_spec d 0) as [->|]; [|by apply adjust_leads].
  eapply leads_trans; [apply leads_refl|apply leads_refl|]. intros k'. unfold at_key. case_bool_decide; lia.
Qed.

Lemma reject_leads k limit msg st :
  exists r h st', reject_tpm others net k limit msg st = (r, h, None, st') /\ r <> Next /\ leads st (fun _ => 0) st'.
Proof.
  unfold reject_tpm, abortTPMLimit, too_many, retryAfterFromTTL, script_call. rewrite delivered.
  eexists _, _, _. split; [reflexivity|]. split; [done|]. split.
  - intros k' Hk. by apply alive_run.
  - intros k'. rewrite added_snoc. unfold added_to, at_key. case_bool_decide; lia.
Qed.

Context (teamCache : Z -> option Team) (orgCache : option (Z -> option Team)) (isCJK : Z -> bool) (raw_text : json -> string).

(** The caches answer with the row that was asked for ([GetByID]). *)
Context (team_row : forall id t, teamCache id = Some t -> tID t = id).
Context (org_row : forall cache id t, orgCache = Some cache -> cache id = Some t -> tID t = id).

Definition team_key (c : rl_ctx) : string := numbered "tpm:team:" (resolveTeamID c).
Definition org_key (c : rl_ctx) : string := numbered "tpm:org:" (org_id c).

(** The request holds [res] and its counters are there. *)
Record holding (c : rl_ctx) (res : tpmReservations) (st0 st : limiter) : Prop := {
  h_leads : leads st0 (fun k => at_key k (tpm_key c) (rKey res) + at_key k (team_key c) (rTeam res)
                               + at_key k (org_key c) (rOrg res)) st;
  h_key : rKey res = 0 \/ alive (tpm_key c) st;
  h_team : rTeam res = 0 \/ (0 < rTeam res /\ 0 < resolveTeamID c /\ alive (team_key c) st);
  h_org : rOrg res = 0 \/ (0 < rOrg res /\ org_id c <> 0 /\ is_Some orgCache /\ alive (org_key c) st)
}.

(** A request that goes on holds what its context says, one that is refused left nothing behind. *)
Definition limited (c : rl_ctx) (st0 : limiter)
    (a : rl_response * option (Z * Z) * option (string * tpmReservations) * limiter) : Prop :=
  match a with
  | (r, _, Some (k, res), st) => r = Next /\ k = tpm_key c /\ holding c res st0 st
  | (r, _, None, st) => r <> Next /\ leads st0 (fun _ => 0) st
  end.

Ltac charges := intros; unfold at_key; repeat case_bool_decide; cbn [rKey rTeam rOrg]; lia.

Lemma team_check c :
  limit_check "tpm:team:" tTPMLimit (team_of teamCache c) = []
  \/ exists limit, limit_check "tpm:team:" tTPMLimit (team_of teamCache c) = [(team_key c, limit)] /\ 0 < resolveTeamID c.
Proof.
  unfold team_of, limit_check, team_key. destruct (Z.ltb_spec 0 (resolveTeamID c)); [|by left].
  destruct (teamCache _) as [t|] eqn:E; [|by left]. destruct (0 <? _); [right|by left].
  eexists. by rewrite (team_row _ _ E).
Qed.

Lemma org_check c :
  limit_check "tpm:org:" tTPMLimit (org_of orgCache c) = []
  \/ exists limit, limit_check "tpm:org:" tTPMLimit (org_of orgCache c) = [(org_key c, limit)]
     /\ org_id c <> 0 /\ is_Some orgCache.
Proof.
  unfold org_of, limit_check, org_key. destruct orgCache as [cache|] eqn:Ec; [|by left]. cbn.
  destruct (Z.eqb_spec (org_id c) 0); [by left|].
  destruct (cache _) as [t|] eqn:E; [|by left]. destruct (0 <? _); [right|by left].
  eexists. rewrite (org_row cache _ _ eq_refl E). by split_and!.
Qed.

Lemma tpm_org_limited c r res h st0 st :
  0 < r -> rKey res = r -> rTeam res = 0 \/ rTeam res = r -> rOrg res = 0 -> holding c res st0 st ->
  limited c st0 (tpm_org others net orgCache c r res h st).
Proof.
  intros Hr Hk Ht Ho [Hl H1 H2 H3]. unfold tpm_org.
  destruct (org_check c) as [->|(limit & -> & Hid & Hc)]; [by split_and!|].
  destruct (reserve_leads (org_key c) r limit st) as (n & g & st1 & -> & Hl1 & Ha1).
  assert (Hkey : alive (tpm_key c) st1) by (apply Hl1; destruct H1; [lia|done]).
  destruct g; cbn [limited go_on].
  - split_and!; [done|done|]. split; cbn [rKey rTeam rOrg].
    + eapply leads_trans; [exact Hl|exact Hl1|]. cbn. rewrite Ho. charges.
    + by right.
    + destruct H2 as [|(? & ? & ?)]; [by left|right]. split_and!; [done..|]. by apply Hl1.
    + right. by split_and!.
  - pose proof (refund_leads _ r st1 Hkey) as Hl2.
    set (st2 := refundTPMReservation _ _ _ _ _) in *.
    set (st3 := if (0 <? rTeam res) && (0 <? resolveTeamID c) then _ else st2).
    assert (Hl3 : leads st0 (fun _ => 0) st3).
    { unfold st3. destruct H2 as [H2|(Hp & Hid' & Ha')].
      - rewrite H2. eapply leads_trans; [exact Hl| |]; [eapply leads_trans; [exact Hl1|exact Hl2|reflexivity]|].
        cbn. rewrite Ho, H2, Hk. charges.
      - rewrite !(proj2 (Z.ltb_lt _ _)) by done. cbn [andb].
        eapply leads_trans; [exact Hl| |].
        { eapply leads_trans; [exact Hl1| |reflexivity]. eapply leads_trans; [exact Hl2| |reflexivity].
          apply refund_leads. by apply Hl2, Hl1. }
        cbn. unfold team_key. rewrite Ho, Hk. destruct Ht as [Ht|Ht]; rewrite Ht; [lia|]. charges. }
    edestruct (reject_leads) as (rr & hh & st4 & -> & Hn & Hl4). split; [done|].
    eapply leads_trans; [exact Hl3|exact Hl4|]. done.
Qed.

Lemma tpm_team_limited c r h st0 st :
  0 < r -> holding c (mkTPM r 0 0) st0 st -> limited c st0 (tpm_team others net teamCache orgCache c r h st).
Proof.
  intros Hr Hh. unfold tpm_team. destruct (team_check c) as [->|(limit & -> & Hid)].
  { apply tpm_org_limited; auto. }
  destruct Hh as [Hl H1 _ _]. cbn [rKey rTeam rOrg] in *.
  destruct (reserve_leads (team_key c) r limit st) as (n & g & st1 & -> & Hl1 & Ha1).
  assert (Hkey : alive (tpm_key c) st1) by (apply Hl1; destruct H1; [lia|done]).
  destruct g.
  - apply tpm_org_limited; [done|done|by right|done|]. split; cbn [rKey rTeam rOrg]; [|by right|right; by split_and!|by left].
    eapply leads_trans; [exact Hl|exact Hl1|]. charges.
  - pose proof (refund_leads _ r st1 Hkey) as Hl2.
    edestruct (reject_leads) as (rr & hh & st4 & -> & Hn & Hl4). split; [done|].
    eapply leads_trans; [exact Hl| |]; [eapply leads_trans; [exact Hl1| |reflexivity]; eapply leads_trans; [exact Hl2|exact Hl4|reflexivity]|].
    charges.
Qed.

Lemma tpm_reservation_pos cfg c : 0 < tpm_reservation isCJK raw_text cfg c.
Proof. unfold tpm_reservation. destruct (Z.leb_spec (Reservation cfg) 0); lia. Qed.

Lemma tpmLimit_limited cfg c st :
  isNonTokenEndpoint (urlPath c) = false ->
  limited c st (tpmLimit others net teamCache orgCache isCJK raw_text cfg c st).
Proof.
  intros Hp. unfold tpmLimit. rewrite Hp. destruct (_ <=? 0).
  { split_and!; [done|done|]. split; cbn [rKey rTeam rOrg]; [|by left..].
    eapply leads_trans; [apply leads_refl|apply leads_refl|]. charges. }
  pose proof (tpm_reservation_pos cfg c) as Hr. set (r := tpm_reservation _ _ _ _) in *.
  destruct (reserve_leads (tpm_key c) r (tpm_limit cfg c) st) as (n & g & st1 & -> & Hl1 & Ha1).
  destruct g.
  - apply tpm_team_limited; [done|]. split; cbn [rKey rTeam rOrg]; [|by right|by left|by left].
    eapply leads_trans; [apply leads_refl|exact Hl1|]. charges.
  - edestruct (reject_leads) as (rr & hh & st4 & -> & Hn & Hl4). split; [done|].
    eapply leads_trans; [exact Hl1|exact Hl4|]. charges.
Qed.

(** The token usage of a request in each of its counters. *)
Definition usage (c : rl_ctx) (total : Z) (k : string) : Z :=
  at_key k (tpm_key c) total
  + (if 0 <? resolveTeamID c then at_key k (team_key c) total else 0)
  + (match orgCache with Some _ => if org_id c =? 0 then 0 else at_key k (org_key c) total | None => 0 end).

(** One level of the settlement: from the reservation to the usage. *)
Lemma level_leads (b : bool) k total r st :
  0 <= total -> r = 0 \/ alive k st -> (b = false -> r = total) ->
  leads st (fun k' => at_key k' k (total - r)) (if b then adjust others net k (total - r) st else st).
Proof.
  intros Ht Hr Hb. destruct b.
  - apply settle_leads. destruct Hr as [->|]; [left; lia|by right].
  - rewrite (Hb eq_refl). eapply leads_trans; [apply leads_refl|apply leads_refl|]. charges.
Qed.

Lemma ReportTokens_leads c res inp out st0 st :
  tpm_key c <> "" -> 0 <= default 0 inp + default 0 out -> holding c res st0 st ->
  leads st0 (usage c (default 0 inp + default 0 out)) (ReportTokens others net orgCache c (Some (tpm_key c, res)) inp out st).
Proof.
  intros Hk Ht [Hl H1 H2 H3]. unfold ReportTokens. set (total := default 0 inp + default 0 out) in *.
  destruct (_ && _) eqn:E.
  { rewrite !andb_true_iff, Z.leb_le, !Z.eqb_eq in E. destruct E as [[[? ?] ?] ?].
    eapply leads_trans; [apply leads_refl|exact Hl|]. intros k. unfold usage. replace total with 0 by lia.
    repeat case_match; charges. }
  clear E. rewrite (proj2 (String.eqb_neq _ _) Hk).
  pose proof (level_leads true (tpm_key c) total (rKey res) st Ht H1 ltac:(done)) as L1. cbv iota in L1.
  set (st1 := adjust _ _ (tpm_key c) _ st) in *. fold (team_key c) (org_key c).
  assert (L2 : leads st1 (fun k => if 0 <? resolveTeamID c then at_key k (team_key c) (total - rTeam res) else 0)
    (if (0 <? resolveTeamID c) && ((0 <? total) || (0 <? rTeam res)) then adjust others net (team_key c) (total - rTeam res) st1 else st1)).
  { destruct (Z.ltb_spec 0 (resolveTeamID c)) as [Hid|Hid]; cbn [andb]; [|apply leads_refl]. apply level_leads; [done| |].
    - destruct H2 as [|(? & ? & ?)]; [by left|right]. by apply L1.
    - rewrite orb_false_iff, !Z.ltb_ge. destruct H2 as [|(? & ? & ?)]; lia. }
  assert (Hteam : resolveTeamID c <= 0 -> rTeam res = 0) by (destruct H2 as [|(? & ? & ?)]; lia).
  set (st2 := if (0 <? resolveTeamID c) && _ then _ else st1) in *.
  assert (L3 : leads st2 (fun k => match orgCache with Some _ => if org_id c =? 0 then 0 else at_key k (org_key c) (total - rOrg res) | None => 0 end)
    (match orgCache with Some _ => if negb (org_id c =? 0) && ((0 <? total) || (0 <? rOrg res))
       then adjust others net (org_key c) (total - rOrg res) st2 else st2 | None => st2 end)).
  { destruct orgCache as [cache|] eqn:Ec; [|apply leads_refl]. destruct (Z.eqb_spec (org_id c) 0); cbn [negb andb]; [apply leads_refl|].
    apply level_leads; [done| |].
    - destruct H3 as [|(? & ? & ? & ?)]; [by left|right]. by apply L2, L1.
    - rewrite orb_false_iff, !Z.ltb_ge. destruct H3 as [|(? & ? & ? & ?)]; lia. }
  assert (Horg : match orgCache with Some _ => org_id c = 0 | None => True end -> rOrg res = 0).
  { destruct H3 as [|(? & ? & [? E] & ?)]; [done|]. rewrite E. done. }
  eapply leads_trans; [exact Hl| |]; [eapply leads_trans; [exact L1| |reflexivity]; eapply leads_trans; [exact L2|exact L3|reflexivity]|].
  intros k. unfold usage. clear -Hteam Horg.
  destruct (Z.ltb_spec 0 (resolveTeamID c)); [|rewrite Hteam by done]; (destruct orgCache; [destruct (Z.eqb_spec (org_id c) 0)|]);
    rewrite ?Horg by done; charges.
Qed.
End Accounting.

(** C12: Token accounting of a request at a token endpoint with a key, with any other requests in
    between, when every command is answered, no window ends during the request (a refund after the end
    grants headroom, [late_refund_grants_headroom]), its token count is not negative and the caches
    return the entry asked for: when it goes on, its commands (the reservations on the way in and the
    settlement on the way out) have together added exactly its input and output tokens to its key's, its
    team's and its organisation's counter, whether or not those levels are limited; when it is refused
    at any level, they added nothing to any counter. *)
Theorem tpm_usage_accounted others net teamCache orgCache isCJK raw_text cfg c inp out st :
  (forall n, net n = Delivered) -> (forall n, Forall no_time (others n)) ->
  (forall id t, teamCache id = Some t -> tID t = id) ->
  (forall cache id t, orgCache = Some cache -> cache id = Some t -> tID t = id) ->
  isNonTokenEndpoint (urlPath c) = false -> tpm_key c <> "" -> 0 <= default 0 inp + default 0 out ->
  let '(r, _, set, st1) := tpmLimit others net teamCache orgCache isCJK raw_text cfg c st in
  forall k, added_to k (ReportTokens others net orgCache c set inp out st1)
            = added_to k st + match r with Next => usage orgCache c (default 0 inp + default 0 out) k | _ => 0 end.
Proof.
  intros Hd Hw Ht Ho Hp Hk Hu.
  pose proof (tpmLimit_limited others net Hd Hw teamCache orgCache isCJK raw_text Ht Ho cfg c st Hp) as H.
  destruct (tpmLimit _ _ _ _ _ _ _ _ _) as [[[r h] [[k0 res]|]] st1]; cbn [limited] in H.
  - destruct H as (-> & -> & Hh). by eapply ReportTokens_leads.
  - destruct H as [Hr [_ Hl]]. intros k. cbn [ReportTokens]. rewrite Hl. by destruct r.
Qed.

(** A key of team 3 and organisation 9, whose limit another request fills while the team is asked. *)
Definition sample_limit_ctx : rl_ctx :=
  mkCtx "10.0.0.1" (Some (mkAPIKey 0 0 (Some 3))) (Some 7) None None 9 "/v1/chat/completions" None.
Definition sample_team (id : Z) : option Team := Some (mkTeam id 0 9000).
Definition sample_org (id : Z) : option Team := Some (mkTeam id 0 4000).
Definition sample_limit_cfg : RateLimitConfig := mkRateLimit 60 5000 0 false.
Definition busy_org (n : nat) : list redis_op := if (n =? 1)%nat then [RReserve "tpm:org:9" 3000 4000] else [].

Definition sample_flow (others : nat -> list redis_op) : rl_response * limiter :=
  let '(r, _, set, st) := tpmLimit others (fun _ => Delivered) sample_team (Some sample_org) (fun _ => false) encode_text
                            sample_limit_cfg sample_limit_ctx (mkLimiter 0 ∅ []) in
  (r, ReportTokens others (fun _ => Delivered) (Some sample_org) sample_limit_ctx set (Some 100) (Some 20) st).

Lemma tpm_usage_accounted_witness :
  fst (sample_flow (fun _ => [])) = Next /\ added_to "tpm:org:9" (snd (sample_flow (fun _ => []))) = 120
  /\ fst (sample_flow busy_org) <> Next
  /\ (let '(r, _, set, st1) := tpmLimit busy_org (fun _ => Delivered) sample_team (Some sample_org) (fun _ => false) encode_text
                                 sample_limit_cfg sample_limit_ctx (mkLimiter 0 ∅ []) in
      forall k, added_to k (ReportTokens busy_org (fun _ => Delivered) (Some sample_org) sample_limit_ctx set (Some 100) (Some 20) st1)
                = added_to k (mkLimiter 0 ∅ []) + match r with Next => usage (Some sample_org) sample_limit_ctx (100 + 20) k | _ => 0 end).
Proof.
  split; [vm_compute; reflexivity|]. split; [vm_compute; reflexivity|]. split; [vm_compute; discriminate|].
  apply (tpm_usage_accounted busy_org (fun _ => Delivered) sample_team (Some sample_org) (fun _ => false) encode_text
           sample_limit_cfg sample_limit_ctx (Some 100) (Some 20) (mkLimiter 0 ∅ [])); try done.
  - intros n. unfold busy_org. destruct (n =? 1)%nat; repeat constructor.
  - intros id t [= <-]. reflexivity.
  - intros cache id t [= <-] [= <-]. reflexivity.
Defined.

(** ** Behaviours at the edges *)

(** With a default of 0 ("unlimited") the explicit limits are not applied either: neither the
    request limits of the key, its team and its organisation, nor the token limits of the team
    and the organisation of a key without a token limit of its own. *)
Theorem zero_default_ignores_explicit_limits others net teamCache orgCache isCJK raw_text cfg c st :
  (RPM cfg = 0 -> rateLimit others net teamCache orgCache cfg c st = (Next, None, st))
  /\ (TPM cfg = 0 -> (forall k, apiKey c = Some k -> akTPMLimit k = 0) -> isNonTokenEndpoint (urlPath c) = false ->
      tpmLimit others net teamCache orgCache isCJK raw_text cfg c st = (Next, None, Some (tpm_key c, mkTPM 0 0 0), st)).
Proof.
  split.
  - intros E. unfold rateLimit. by rewrite E.
  - intros E Hk Hp. unfold tpmLimit, tpm_limit. rewrite Hp, E. destruct (apiKey c) as [k|]; [|done].
    by rewrite (Hk k eq_refl).
Qed.

Lemma zero_default_ignores_explicit_limits_witness :
  limit_check "tpm:org:" tTPMLimit (org_of (Some sample_org) sample_limit_ctx) = [("tpm:org:9", 4000)] /\
  tpmLimit (fun _ => []) (fun _ => Delivered) sample_team (Some sample_org) (fun _ => false) encode_text
    (mkRateLimit 0 0 0 false) sample_limit_ctx (mkLimiter 0 ∅ []) = (Next, None, Some ("tpm:key:7", mkTPM 0 0 0), mkLimiter 0 ∅ []).
Proof.
  split; [vm_compute; reflexivity|].
  apply (zero_default_ignores_explicit_limits (fun _ => []) (fun _ => Delivered) sample_team (Some sample_org)
           (fun _ => false) encode_text (mkRateLimit 0 0 0 false) sample_limit_ctx (mkLimiter 0 ∅ [])); [done| |done].
  intros k [= <-]. reflexivity.
Defined.

(** A refund that arrives in the next window takes tokens out of that window: the guard of the
    script only covers a counter that is gone, so when another request has already reserved in the
    new window the counter falls below zero and more than the limit is granted. *)
Theorem late_refund_grants_headroom k r s limit db :
  db !! k = None -> 0 < s < r -> r <= limit ->
  let db' := run_redis [RReserve k r limit; RElapse tpmWindowTTLSeconds; RReserve k s limit; RAdjust k (- r)] db in
  value k db' = s - r /\ snd (fst (reserveTPMAtomicScript k (limit + (r - s)) limit tpmWindowTTLSeconds db')) = true.
Proof.
  intros Hn Hs Hr. cbv zeta. cbn [run_redis fold_left redis_step].
  pose proof (reserve_effect k r limit tpmWindowTTLSeconds db) as H1.
  destruct (reserveTPMAtomicScript k r limit _ db) as [[c1 g1] db1] eqn:E1. destruct H1 as (_ & _ & Hg & _).
  assert (H2 : elapse tpmWindowTTLSeconds db1 !! k = None).
  { unfold reserveTPMAtomicScript, INCRBY in E1. unfold value in E1, Hg. rewrite Hn in E1, Hg. cbn [from_option] in *.
    rewrite Z.add_0_l, Z.eqb_refl in E1. rewrite (proj2 (Z.ltb_ge limit r)) in E1 by lia. injection E1 as _ _ <-.
    unfold elapse. rewrite lookup_omap. unfold EXPIRE. rewrite lookup_insert_eq, lookup_insert_eq. reflexivity. }
  cbn [snd]. set (db2 := elapse _ db1) in *.
  pose proof (reserve_effect k s limit tpmWindowTTLSeconds db2) as H3.
  destruct (reserveTPMAtomicScript k s limit _ db2) as [[c3 g3] db3]. destruct H3 as (Hv3 & Ha3 & Hg3 & _).
  assert (Hz : value k db2 = 0) by (unfold value; by rewrite H2).
  rewrite (proj2 (Z.leb_le _ _)) in Hg3 by lia. subst g3. cbn [snd].
  destruct (adjust_effect k (- r) tpmWindowTTLSeconds db3) as (_ & Hv4 & _).
  set (db4 := snd (incrByExpireScript _ _ _ db3)) in *.
  assert (Hv : value k db4 = s - r).
  { rewrite Hv4, Hv3; [|right; apply Ha3; by left]. unfold at_key. rewrite !bool_decide_true by done. lia. }
  split; [done|]. pose proof (reserve_effect k (limit + (r - s)) limit tpmWindowTTLSeconds db4) as H5.
  destruct (reserveTPMAtomicScript k _ limit _ db4) as [[c5 g5] db5]. destruct H5 as (_ & _ & -> & _).
  cbn [fst snd]. apply Z.leb_le. lia.
Qed.

Lemma late_refund_grants_headroom_witness :
  let db' := run_redis [RReserve "tpm:key:7" 2000 5000; RElapse tpmWindowTTLSeconds; RReserve "tpm:key:7" 500 5000;
                        RAdjust "tpm:key:7" (-2000)] ∅ in
  value "tpm:key:7" db' = -1500
  /\ snd (fst (reserveTPMAtomicScript "tpm:key:7" (5000 + (2000 - 500)) 5000 tpmWindowTTLSeconds db')) = true.
Proof. apply (late_refund_grants_headroom "tpm:key:7" 2000 500 5000 ∅); [done|lia|lia]. Defined.

(** The window of the tokens-per-minute limit is two minutes long: a key that used up its limit is
    refused for 120 seconds, not for 60, however small its next request is. *)
Theorem tpm_window_is_two_minutes k limit d r db :
  db !! k = None -> 0 < limit -> 0 <= d < 120 -> 0 < r ->
  snd (fst (reserveTPMAtomicScript k r limit tpmWindowTTLSeconds (run_redis [RReserve k limit limit; RElapse d] db))) = false.
Proof.
  intros Hn Hl Hd Hr. cbn [run_redis fold_left redis_step].
  set (db2 := elapse d _). assert (H2 : value k db2 = limit).
  { unfold db2, reserveTPMAtomicScript, INCRBY, value. rewrite Hn. cbn [from_option]. rewrite Z.add_0_l, Z.eqb_refl, Z.ltb_irrefl.
    cbn [snd]. unfold elapse. rewrite lookup_omap. unfold EXPIRE. rewrite lookup_insert_eq, lookup_insert_eq.
    cbn [mbind option_bind]. unfold age. cbn [cTTL cValue]. unfold tpmWindowTTLSeconds.
    rewrite (proj2 (Z.leb_gt 120 d)) by lia. done. }
  pose proof (reserve_effect k r limit tpmWindowTTLSeconds db2) as H.
  destruct (reserveTPMAtomicScript k r limit _ db2) as [[c g] db3]. destruct H as (_ & _ & -> & _).
  cbn [fst snd]. apply Z.leb_gt. lia.
Qed.

Lemma tpm_window_is_two_minutes_witness :
  snd (fst (reserveTPMAtomicScript "tpm:key:7" 1 5000 tpmWindowTTLSeconds
             (run_redis [RReserve "tpm:key:7" 5000 5000; RElapse 119] ∅))) = false.
Proof. apply (tpm_window_is_two_minutes "tpm:key:7" 5000 119 1 ∅); [done|lia..]. Defined.

(** The content of a Responses API message is estimated from the listing of its bytes, about four
    times the text. *)
Example responses_estimate_of_dump :
  byte_dump "hi" = "[104 105]"
  /\ Estimate (fun _ => false) (byte_dump "the quick brown fox jumps") = 23
  /\ Estimate (fun _ => false) "the quick brown fox jumps" = 6.
Proof. split_and!; vm_compute; reflexivity. Qed.
