(* ===== verification/Utf8.v ===== *)
(** * UTF-8 as package [unicode/utf8] reads it

    Byte strings, the runes a [range] loop visits (an invalid byte is a rune of
    width one), [utf8.ValidString], [utf8.RuneStart] and
    [utf8.RuneCountInString]. *)

From S2P Require Import Prelude.

Notation bytes := (list ascii) (only parsing).

Definition bytes_of (s : string) : bytes := String.list_ascii_of_string s.

Definition byte_in (lo hi : nat) (c : ascii) : bool := (lo <=? nat_of_ascii c)%nat && (nat_of_ascii c <=? hi)%nat.

Definition cont (c : ascii) : bool := byte_in 128 191 c.

(** [utf8.RuneStart]: not a continuation byte *)
Definition RuneStart (c : ascii) : bool := negb (cont c).

(** The width of the first rune when it is well formed: the acceptance table of
    [unicode/utf8], which excludes overlong forms, surrogates and values past
    U+10FFFF. *)
Definition rune_len (s : bytes) : option nat :=
  match s with
  | [] => None
  | c :: s =>
      if byte_in 0 127 c then Some 1%nat
      else
        match s with
        | [] => None
        | d :: s =>
            if byte_in 194 223 c then (if cont d then Some 2%nat else None)
            else
              match s with
              | [] => None
              | e :: s =>
                  let lo := if byte_in 224 224 c then 160%nat else 128%nat in
                  let hi := if byte_in 237 237 c then 159%nat else 191%nat in
                  if byte_in 224 239 c then (if byte_in lo hi d && cont e then Some 3%nat else None)
                  else
                    match s with
                    | [] => None
                    | f :: _ =>
                        let lo := if byte_in 240 240 c then 144%nat else 128%nat in
                        let hi := if byte_in 244 244 c then 143%nat else 191%nat in
                        if byte_in 240 244 c && byte_in lo hi d && cont e && cont f then Some 4%nat else None
                    end
              end
        end
  end.

(** The bytes a [range] step consumes. *)
Definition rune_width (s : bytes) : nat := default 1%nat (rune_len s).

Fixpoint runes_upto (fuel : nat) (s : bytes) : list bytes :=
  match fuel, s with
  | S fuel, _ :: _ => take (rune_width s) s :: runes_upto fuel (drop (rune_width s) s)
  | _, _ => []
  end.

(** The runes of a string; each step consumes at least one byte. *)
Definition split_runes (s : bytes) : list bytes := runes_upto (length s) s.

Definition well_formed (r : bytes) : bool := bool_decide (rune_len r = Some (length r)).

(** [utf8.ValidString] *)
Definition ValidString (s : bytes) : bool := forallb well_formed (split_runes s).

(** [utf8.RuneCountInString] *)
Definition RuneCount (s : bytes) : nat := length (split_runes s).

(** ** Lemmas *)

Lemma rune_len_bounds s n : rune_len s = Some n -> (1 <= n <= length s)%nat.
Proof.
  unfold rune_len. intros H. destruct s as [|c [|d [|e [|f s]]]]; cbn in H |- *; repeat case_match; simplify_eq; lia.
Qed.

Lemma rune_len_app s t n : rune_len s = Some n -> rune_len (s ++ t) = Some n.
Proof.
  destruct s as [|c [|d [|e [|f s]]]]; cbn; [done| | | |]; repeat case_match; simplify_eq; done.
Qed.

Lemma rune_len_take s n : rune_len s = Some n -> rune_len (take n s) = Some n.
Proof.
  destruct s as [|c [|d [|e [|f s]]]]; cbn; [done| | | |]; intros H; repeat case_match; simplify_eq; cbn;
    repeat match goal with E : ?b = _ |- context [?b] => rewrite E end; done.
Qed.

Lemma rune_width_pos c s : (1 <= rune_width (c :: s))%nat.
Proof. unfold rune_width. destruct (rune_len _) as [n|] eqn:E; cbn; [apply rune_len_bounds in E; lia|lia]. Qed.

Lemma runes_upto_enough n m s : (length s <= n)%nat -> (length s <= m)%nat -> runes_upto n s = runes_upto m s.
Proof.
  revert m s. induction n as [|n IH]; intros m [|c s] Hn Hm; cbn in *; try (by destruct m); [lia|].
  destruct m as [|m]; [cbn in Hm; lia|]. cbn [runes_upto]. f_equal. pose proof (rune_width_pos c s).
  apply IH; rewrite length_drop; cbn [length]; lia.
Qed.

Lemma runes_cons c s :
  split_runes (c :: s) = take (rune_width (c :: s)) (c :: s) :: split_runes (drop (rune_width (c :: s)) (c :: s)).
Proof.
  unfold split_runes at 1. cbn [length runes_upto]. f_equal. pose proof (rune_width_pos c s).
  apply runes_upto_enough; [rewrite length_drop; cbn [length]|]; lia.
Qed.

(** Induction along the runes of a string. *)
Lemma runes_ind (P : bytes -> Prop) :
  P [] -> (forall c s, P (drop (rune_width (c :: s)) (c :: s)) -> P (c :: s)) -> forall s, P s.
Proof.
  intros H0 HS s. remember (length s) as n eqn:Hn. revert s Hn.
  induction (lt_wf n) as [n _ IH]. intros [|c s] Hn; [done|]. apply HS. eapply IH; [|done].
  pose proof (rune_width_pos c s). rewrite length_drop. cbn [length] in *. lia.
Qed.

Lemma runes_concat s : concat (split_runes s) = s.
Proof.
  induction s as [|c s IH] using runes_ind; [done|]. rewrite runes_cons. cbn [concat]. rewrite IH. apply take_drop.
Qed.

Lemma runes_nonempty s : Forall (fun r => r <> []) (split_runes s).
Proof.
  induction s as [|c s IH] using runes_ind; [constructor|]. rewrite runes_cons. constructor; [|done].
  pose proof (rune_width_pos c s). destruct (rune_width (c :: s)); [lia|done].
Qed.

(** The head of a valid string is a well formed rune. *)
Lemma valid_cons c s :
  ValidString (c :: s) = true ->
  rune_len (c :: s) = Some (rune_width (c :: s)) /\ ValidString (drop (rune_width (c :: s)) (c :: s)) = true.
Proof.
  unfold ValidString. rewrite runes_cons. cbn [forallb]. intros [H1 H2]%andb_prop. split; [|done].
  unfold well_formed in H1. apply bool_decide_eq_true in H1. unfold rune_width in *.
  destruct (rune_len (c :: s)) as [n|] eqn:E; [done|]. apply (rune_len_app _ s) in H1. cbn [from_option take] in H1.
  exfalso. change (rune_len (c :: s) = Some 1%nat) in H1. congruence.
Qed.

(** Valid text is a sequence of whole runes, whatever follows it. *)
Lemma runes_app s t : ValidString s = true -> split_runes (s ++ t) = split_runes s ++ split_runes t.
Proof.
  induction s as [|c s IH] using runes_ind; [done|]. intros [Hl Hv]%valid_cons. cbn [app].
  rewrite !runes_cons. set (n := rune_width (c :: s)) in *.
  assert (Hn : rune_width (c :: s ++ t) = n).
  { unfold rune_width. change (c :: s ++ t) with ((c :: s) ++ t). by rewrite (rune_len_app _ _ _ Hl). }
  rewrite Hn. apply rune_len_bounds in Hl as [_ Hb]. change (c :: s ++ t) with ((c :: s) ++ t).
  rewrite take_app_le, drop_app_le by done. cbn [app]. f_equal. by apply IH.
Qed.

Lemma valid_app s t : ValidString s = true -> ValidString (s ++ t) = ValidString t.
Proof. intros H. unfold ValidString in *. by rewrite runes_app, forallb_app, H. Qed.

Lemma RuneCount_app s t : ValidString s = true -> RuneCount (s ++ t) = (RuneCount s + RuneCount t)%nat.
Proof. intros H. unfold RuneCount. by rewrite runes_app, length_app. Qed.

(** The first byte of a well formed rune is not a continuation byte. *)
Lemma rune_len_start c s n : rune_len (c :: s) = Some n -> RuneStart c = true.
Proof.
  unfold RuneStart, cont. intros H. apply negb_true_iff. destruct (byte_in 128 191 c) eqn:E; [|done]. exfalso.
  unfold byte_in in *. apply andb_prop in E as [E1 E2]. apply Nat.leb_le in E1, E2.
  assert (Hf : forall lo hi, (192 <= lo)%nat -> ((lo <=? nat_of_ascii c) && (nat_of_ascii c <=? hi))%nat = false).
  { intros lo hi Hlo. apply andb_false_iff. left. apply Nat.leb_gt. lia. }
  assert (H0 : ((0 <=? nat_of_ascii c) && (nat_of_ascii c <=? 127))%nat = false).
  { apply andb_false_iff. right. apply Nat.leb_gt. lia. }
  unfold rune_len, byte_in in H. rewrite H0 in H. destruct s as [|d [|e [|f s]]]; [done| | |];
    rewrite ?Hf in H by lia; done.
Qed.

Lemma valid_start c s : ValidString (c :: s) = true -> RuneStart c = true.
Proof. intros [H _]%valid_cons. by eapply rune_len_start. Qed.

(** Well formed runes are the runes of their concatenation. *)
Lemma runes_of_well_formed l : Forall (fun r => well_formed r = true) l -> split_runes (concat l) = l.
Proof.
  induction 1 as [|r l Hr Hl IH]; [done|]. cbn [concat]. unfold well_formed in Hr. rewrite bool_decide_eq_true in Hr.
  destruct r as [|c r]; [done|]. cbn [app]. rewrite runes_cons.
  assert (Hw : rune_width (c :: r ++ concat l) = length (c :: r)).
  { unfold rune_width. change (c :: r ++ concat l) with ((c :: r) ++ concat l). by rewrite (rune_len_app _ _ _ Hr). }
  rewrite Hw. change (c :: r ++ concat l) with ((c :: r) ++ concat l). by rewrite take_app_length, drop_app_length, IH.
Qed.

Lemma valid_well_formed s : ValidString s = true <-> Forall (fun r => well_formed r = true) (split_runes s).
Proof. unfold ValidString. by rewrite forallb_forall, List.Forall_forall. Qed.

Lemma valid_concat l : Forall (fun r => well_formed r = true) l -> ValidString (concat l) = true.
Proof. intros H. apply valid_well_formed. by rewrite runes_of_well_formed. Qed.

Lemma byte_in_cont lo hi c : (128 <= lo)%nat -> (hi <= 191)%nat -> byte_in lo hi c = true -> cont c = true.
Proof.
  unfold cont, byte_in. intros Hlo Hhi [H1 H2]%andb_prop. apply Nat.leb_le in H1, H2.
  apply andb_true_intro. split; apply Nat.leb_le; lia.
Qed.

(** The other bytes of a rune are continuation bytes. *)
Lemma rune_tail_cont s n : rune_len s = Some n -> Forall (fun c => cont c = true) (take (n - 1) (drop 1 s)).
Proof.
  unfold rune_len. intros H. destruct s as [|c0 s]; [done|].
  destruct (byte_in 0 127 c0); [simplify_eq; by rewrite take_0|].
  destruct s as [|c1 s]; [done|]. destruct (byte_in 194 223 c0).
  { destruct (cont c1) eqn:?; simplify_eq. by repeat constructor. }
  assert (Hif : forall (x : bool) (a b lo hi : nat), (lo <= a <= hi)%nat -> (lo <= b <= hi)%nat -> (lo <= (if x then a else b) <= hi)%nat).
  { by intros []. }
  destruct s as [|c2 s]; [done|]. destruct (byte_in 224 239 c0).
  { destruct (byte_in _ _ c1) eqn:E1; [|done]. destruct (cont c2) eqn:E2; cbn in H; simplify_eq.
    apply byte_in_cont in E1; [cbn; by rewrite !Forall_cons| |];
      [apply (Hif _ _ _ _ 191%nat); lia|apply (Hif _ _ _ 128%nat); lia]. }
  destruct s as [|c3 s]; [done|].
  destruct (byte_in 240 244 c0 && _ && cont c2 && cont c3) eqn:E; simplify_eq.
  apply andb_prop in E as [[[_ E1]%andb_prop E2]%andb_prop E3].
  apply byte_in_cont in E1; [cbn; by rewrite !Forall_cons| |];
    [apply (Hif _ _ _ _ 191%nat); lia|apply (Hif _ _ _ 128%nat); lia].
Qed.

(** A valid string split before the first byte of a rune is two valid strings. *)
Lemma valid_split a c b :
  ValidString (a ++ c :: b) = true -> RuneStart c = true -> ValidString a = true /\ ValidString (c :: b) = true.
Proof.
  intros Hv Hc. induction a as [|d a IH] using runes_ind; [done|]. cbn [app] in Hv.
  destruct (valid_cons _ _ Hv) as [Hl Hd]. set (n := rune_width (d :: a ++ c :: b)) in *.
  change (d :: a ++ c :: b) with ((d :: a) ++ c :: b) in *.
  destruct (decide (n <= length (d :: a))%nat) as [Hle|Hgt].
  - assert (Hla : rune_len (d :: a) = Some n).
    { apply rune_len_take in Hl. rewrite take_app_le in Hl by done.
      rewrite <- (take_drop n (d :: a)). by apply rune_len_app. }
    assert (Hw : rune_width (d :: a) = n) by (unfold rune_width; by rewrite Hla).
    rewrite Hw in IH. rewrite drop_app_le in Hd by done. destruct (IH Hd) as [Ha Hb]. split; [|done].
    unfold ValidString in Ha |- *. rewrite runes_cons, Hw. cbn [forallb]. rewrite Ha, andb_true_r.
    unfold well_formed. apply bool_decide_eq_true. apply rune_len_take in Hla. rewrite Hla. f_equal.
    rewrite length_take. lia.
  - exfalso. pose proof (rune_tail_cont _ _ Hl) as Ht. change (length (d :: a)) with (S (length a)) in Hgt.
    change (drop 1 ((d :: a) ++ c :: b)) with (a ++ c :: b) in Ht. rewrite take_app_ge in Ht by lia. apply Forall_app in Ht as [_ Ht].
    destruct (n - 1 - length a)%nat eqn:E; [lia|]. inversion Ht as [|?? Hcc _]; subst.
    unfold RuneStart in Hc. by rewrite Hcc in Hc.
Qed.
