(* ===== verification/Spans.v ===== *)
(** * Masked spans: [composeSpans] and [applySpans] of [internal/guardrail/service.go]

    A guardrail engine reports the regions of a text to replace; the service
    merges overlapping regions into a sorted, disjoint list and rewrites the
    text.  The lemmas describe the merge for the spans of one engine, which
    differ only in their bounds: it depends on the set of spans only, it splits
    at a position that no span crosses, and it commutes with translation. *)

From S2P Require Import Prelude Utf8.

Record Span := mkSpan { Start : Z; Stop : Z; Replacement : bytes; Reversible : bool }.

#[export] Instance Span_eq_dec : EqDecision Span.
Proof. solve_decision. Defined.

Definition span_less (a b : Span) : bool :=
  if Start a =? Start b then Stop b <? Stop a else Start a <? Start b.

Definition span_ok (sp : Span) : bool := negb ((Start sp <? 0) || (Stop sp <=? Start sp)).

(** The merge of [sp] into the last span of the output. *)
Definition absorb (o sp : Span) : Span :=
  mkSpan (Start o) (if Stop o <? Stop sp then Stop sp else Stop o) (Replacement o)
    (if negb (Start sp =? Start o) || negb (Stop sp =? Stop o) || negb (Reversible sp) then false else Reversible o).

(** One step of the loop; the output is kept reversed. *)
Definition compose_step (out : list Span) (sp : Span) : list Span :=
  if span_ok sp then
    match out with
    | o :: out' => if Start sp <? Stop o then absorb o sp :: out' else sp :: out
    | [] => [sp]
    end
  else out.

Definition composeSpans (spans : list Span) : list Span :=
  rev (fold_left compose_step (stable_sort span_less spans) []).

(** [content[a:b]] for bounds that the callers keep in range *)
Definition slice (a b : Z) (content : bytes) : bytes := take (Z.to_nat (b - a)) (drop (Z.to_nat a) content).

Fixpoint apply_from (content : bytes) (last : Z) (spans : list Span) : bytes :=
  match spans with
  | [] => if last <? Z.of_nat (length content) then drop (Z.to_nat last) content else []
  | sp :: spans =>
      if (Start sp <? last) || (Z.of_nat (length content) <? Stop sp) || (Stop sp <=? Start sp) then apply_from content last spans
      else slice last (Start sp) content ++ Replacement sp ++ apply_from content (Stop sp) spans
  end.

Definition applySpans (content : bytes) (spans : list Span) : bytes :=
  match spans with [] => content | _ => apply_from content 0 spans end.

Lemma slice_app a b c text : 0 <= a <= b -> b <= c -> slice a b text ++ slice b c text = slice a c text.
Proof.
  intros Hab Hbc. unfold slice. replace (Z.to_nat b) with (Z.to_nat a + Z.to_nat (b - a))%nat by lia.
  rewrite <- drop_drop. replace (Z.to_nat (c - a)) with (Z.to_nat (b - a) + Z.to_nat (c - b))%nat by lia.
  by rewrite take_take_drop.
Qed.

Lemma applySpans_from content spans : applySpans content spans = apply_from content 0 spans.
Proof.
  destruct spans; [|done]. cbn [applySpans apply_from].
  destruct (Z.ltb_spec 0 (Z.of_nat (length content))); [done|]. apply length_zero_iff_nil. lia.
Qed.

(** ** The merged list *)

Definition covers (c sp : Span) : Prop := Start c <= Start sp /\ Stop sp <= Stop c.

Definition disjoint_spans (a b : Span) : Prop := Stop a <= Start b.

Definition nonempty (sp : Span) : Prop := Start sp < Stop sp.

Definition sorted_spans (l : list Span) : Prop := StronglySorted disjoint_spans l /\ Forall nonempty l.

Lemma span_less_asym x y : span_less x y = true -> span_less y x = false.
Proof. unfold span_less. repeat case_match; lia. Qed.

Lemma span_less_trans x y z : ordered span_less x y -> ordered span_less y z -> ordered span_less x z.
Proof. unfold ordered, span_less. repeat case_match; lia. Qed.

Lemma sort_sorted l : StronglySorted (ordered span_less) (stable_sort span_less l).
Proof.
  apply (stable_sort_sorted span_less (fun _ => True)); [|eauto using span_less_trans|by apply List.Forall_forall].
  intros x y _ _. apply span_less_asym.
Qed.

Lemma ordered_start x y : ordered span_less x y -> Start x <= Start y.
Proof. unfold ordered, span_less. case_match; lia. Qed.

(** What the output (reversed) knows of the spans processed so far. *)
Record merged (done_ out : list Span) : Prop := mkMerged {
  md_disjoint : StronglySorted (flip disjoint_spans) out;
  md_start : forall o, o ∈ out -> exists sp, sp ∈ done_ /\ span_ok sp = true /\ Start sp = Start o;
  md_covers : forall sp, sp ∈ done_ -> span_ok sp = true -> exists o, o ∈ out /\ covers o sp
}.

Lemma merged_step done_ out sp :
  merged done_ out -> (forall x, x ∈ done_ -> Start x <= Start sp) -> merged (done_ ++ [sp]) (compose_step out sp).
Proof.
  intros [Hd Hs Hc] Hle. unfold compose_step. destruct (span_ok sp) eqn:Hok.
  2: { split; [done| |].
       - intros o Ho. destruct (Hs o Ho) as (x & ? & ? & ?). exists x. set_solver.
       - intros x [Hx|[->|[]%not_elem_of_nil]%elem_of_cons]%elem_of_app Hx'; [by apply Hc|congruence]. }
  destruct out as [|o out].
  { split; [repeat constructor| |].
    - intros o [->|[]%not_elem_of_nil]%elem_of_cons. exists sp. set_solver.
    - intros x [Hx|[->|[]%not_elem_of_nil]%elem_of_cons]%elem_of_app Hx'.
      + destruct (Hc x Hx Hx') as (o & []%not_elem_of_nil & _).
      + exists sp. split; [left|]. unfold covers. lia. }
  inversion Hd as [|?? Hd' Ho]; subst.
  assert (Hos : Start o <= Start sp).
  { destruct (Hs o) as (x & Hx & _ & <-); [left|]. by apply Hle. }
  destruct (Z.ltb_spec (Start sp) (Stop o)) as [Hlt|Hge].
  - split.
    + constructor; [done|]. eapply Forall_impl; [exact Ho|]. done.
    + intros y [->|Hy]%elem_of_cons; cbn [absorb Start].
      * destruct (Hs o) as (x & ? & ? & ?); [left|]. exists x. set_solver.
      * destruct (Hs y) as (x & ? & ? & ?); [by right|]. exists x. set_solver.
    + intros x [Hx|[->|[]%not_elem_of_nil]%elem_of_cons]%elem_of_app Hx'.
      * destruct (Hc x Hx Hx') as (y & [->|Hy]%elem_of_cons & Hcov); [|exists y; split; [by right|done]].
        exists (absorb o sp). split; [left|]. unfold covers in *. cbn. destruct (Z.ltb_spec (Stop o) (Stop sp)); lia.
      * exists (absorb o sp). split; [left|]. unfold covers. cbn. destruct (Z.ltb_spec (Stop o) (Stop sp)); lia.
  - split.
    + constructor; [done|]. constructor; [done|]. eapply Forall_impl; [exact Ho|]. intros y Hy.
      assert (Start o < Stop o \/ Stop o <= Start o) as [|] by lia; unfold flip, disjoint_spans in *; lia.
    + intros y [->|Hy]%elem_of_cons; [exists sp; set_solver|].
      destruct (Hs y Hy) as (x & ? & ? & ?). exists x. set_solver.
    + intros x [Hx|[->|[]%not_elem_of_nil]%elem_of_cons]%elem_of_app Hx'.
      * destruct (Hc x Hx Hx') as (y & Hy & Hcov). exists y. split; [by right|done].
      * exists sp. split; [left|]. unfold covers. lia.
Qed.

Lemma merged_fold done_ out l :
  merged done_ out -> StronglySorted (ordered span_less) l ->
  (forall x y, x ∈ done_ -> y ∈ l -> Start x <= Start y) -> merged (done_ ++ l) (fold_left compose_step l out).
Proof.
  intros Hm Hl. revert done_ out Hm. induction Hl as [|sp l Hl IH Hsp]; intros done_ out Hm Hle; cbn.
  { by rewrite app_nil_r. }
  replace (done_ ++ sp :: l) with ((done_ ++ [sp]) ++ l) by (by rewrite <- app_assoc).
  apply IH.
  - apply merged_step; [done|]. intros x Hx. apply Hle; [done|left].
  - intros x y [Hx|[->|[]%not_elem_of_nil]%elem_of_cons]%elem_of_app Hy; [apply Hle; [done|by right]|].
    rewrite Forall_forall in Hsp. by apply ordered_start, Hsp.
Qed.

Lemma compose_merged l : merged (stable_sort span_less l) (rev (composeSpans l)).
Proof.
  unfold composeSpans. rewrite rev_involutive.
  change (stable_sort span_less l) with ([] ++ stable_sort span_less l) at 1.
  apply merged_fold; [|apply sort_sorted|by intros ?? ?%not_elem_of_nil].
  split; [constructor|by intros ? ?%not_elem_of_nil..].
Qed.

Lemma in_rev_iff {A} (x : A) l : x ∈ rev l <-> x ∈ l.
Proof. by rewrite <- Permutation_rev. Qed.

(** Every well formed span lies in one merged span, and a merged span starts where some span does. *)
Lemma compose_covers l sp :
  sp ∈ l -> span_ok sp = true -> exists c, c ∈ composeSpans l /\ covers c sp.
Proof.
  intros Hin Hok. destruct (compose_merged l) as [_ _ Hc].
  destruct (Hc sp) as (c & Hcin & Hcov); [by rewrite stable_sort_perm|done|].
  exists c. split; [|done]. by apply (proj1 (in_rev_iff _ _)).
Qed.

Lemma compose_start l c :
  c ∈ composeSpans l -> exists sp, sp ∈ l /\ span_ok sp = true /\ Start sp = Start c.
Proof.
  intros Hin. destruct (compose_merged l) as [_ Hs _].
  destruct (Hs c) as (sp & Hsp & ? & ?); [by apply (proj2 (in_rev_iff _ _))|]. exists sp. by rewrite stable_sort_perm in Hsp.
Qed.

Lemma compose_disjoint l : StronglySorted (flip disjoint_spans) (rev (composeSpans l)).
Proof. apply (compose_merged l). Qed.

(** ** Spans of one engine *)

Section Plain.
Context (rep : bytes).

Definition plain (p : Z * Z) : Span := mkSpan (fst p) (snd p) rep false.

Definition shift (k : Z) (sp : Span) : Span := mkSpan (Start sp + k) (Stop sp + k) (Replacement sp) (Reversible sp).

Definition is_plain (sp : Span) : Prop := Replacement sp = rep /\ Reversible sp = false.

Lemma ordered_antisym x y :
  is_plain x -> is_plain y -> ordered span_less x y -> ordered span_less y x -> x = y.
Proof.
  unfold ordered, span_less. destruct x as [s e r v], y as [s' e' r' v']. unfold is_plain. cbn.
  intros [-> ->] [-> ->] H1 H2. assert (s = s' /\ e = e') as [-> ->]; [|done]. repeat case_match; lia.
Qed.

(** Sorted lists of plain spans are determined by their elements. *)
Lemma sorted_unique l1 l2 :
  Forall is_plain l1 -> l1 ≡ₚ l2 ->
  StronglySorted (ordered span_less) l1 -> StronglySorted (ordered span_less) l2 -> l1 = l2.
Proof.
  intros Hp Hperm H1. revert l2 Hperm Hp. induction H1 as [|x l1 H1 IH Hx]; intros l2 Hperm Hp H2.
  { symmetry. by apply Permutation_nil. }
  destruct l2 as [|y l2]; [by apply Permutation_nil_r in Hperm|].
  assert (Hp2 : Forall is_plain (y :: l2)) by (by rewrite <- Hperm).
  inversion H2 as [|?? H2' Hy]; subst. inversion Hp as [|?? Hpx Hp1]; subst. inversion Hp2; subst.
  assert (x = y) as ->.
  { assert (x ∈ y :: l2) as [->|Hin]%elem_of_cons by (rewrite <- Hperm; left); [done|].
    assert (y ∈ x :: l1) as [->|Hin']%elem_of_cons by (rewrite Hperm; left); [done|].
    rewrite Forall_forall in Hx, Hy. apply ordered_antisym; auto. }
  f_equal. apply IH; [by apply (Permutation_cons_inv (a := y))|done|done].
Qed.

Lemma sort_perm_eq l1 l2 :
  Forall is_plain l1 -> l1 ≡ₚ l2 -> stable_sort span_less l1 = stable_sort span_less l2.
Proof.
  intros Hp Hperm. apply sorted_unique; auto using sort_sorted.
  - by rewrite stable_sort_perm.
  - by rewrite !stable_sort_perm.
Qed.

Lemma StronglySorted_filter {A} (R : A -> A -> Prop) (f : A -> bool) l :
  StronglySorted R l -> StronglySorted R (List.filter f l).
Proof.
  induction 1 as [|x l Hs IH Hx]; cbn; [constructor|]. destruct (f x); [|done]. constructor; [done|].
  rewrite Forall_forall in *. intros y Hy. apply Hx. apply list_elem_of_In in Hy. apply filter_In in Hy as [Hy _].
  by apply list_elem_of_In.
Qed.

#[export] Instance filter_Permutation {A} (f : A -> bool) : Proper (Permutation ==> Permutation) (List.filter f).
Proof.
  intros l1 l2. induction 1 as [|x l1 l2 H IH|x y l|l1 l2 l3 H1 IH1 H2 IH2]; cbn; [done| | |by etrans].
  - destruct (f x); [by constructor|done].
  - destruct (f x), (f y); try done. constructor.
Qed.

Lemma Forall_List_filter {A} (P : A -> Prop) (f : A -> bool) l : Forall P l -> Forall P (List.filter f l).
Proof. induction 1; cbn; [constructor|]. by case_match; [constructor|]. Qed.

Lemma sort_filter l :
  Forall is_plain l ->
  List.filter span_ok (stable_sort span_less l) = stable_sort span_less (List.filter span_ok l).
Proof.
  intros Hp. apply sorted_unique; auto using sort_sorted, StronglySorted_filter.
  - apply Forall_List_filter. by rewrite stable_sort_perm.
  - by rewrite !stable_sort_perm.
Qed.

Lemma fold_ok l acc : fold_left compose_step l acc = fold_left compose_step (List.filter span_ok l) acc.
Proof.
  revert acc. induction l as [|sp l IH]; intros acc; cbn; [done|]. unfold compose_step at 2.
  destruct (span_ok sp) eqn:E; cbn; [|apply IH]. rewrite IH. unfold compose_step at 3. by rewrite E.
Qed.

(** The merge of the well formed spans, sorted. *)
Definition merge (l : list Span) : list Span := fold_left compose_step (stable_sort span_less (List.filter span_ok l)) [].

Lemma composeSpans_merge l : Forall is_plain l -> composeSpans l = rev (merge l).
Proof. intros Hp. unfold composeSpans, merge. by rewrite fold_ok, sort_filter. Qed.

Lemma compose_perm l1 l2 : Forall is_plain l1 -> l1 ≡ₚ l2 -> composeSpans l1 = composeSpans l2.
Proof. intros Hp H. unfold composeSpans. by rewrite (sort_perm_eq l1 l2). Qed.

Lemma StronglySorted_app_2 {A} (R : A -> A -> Prop) l1 l2 :
  StronglySorted R l1 -> StronglySorted R l2 -> (forall x y, x ∈ l1 -> y ∈ l2 -> R x y) -> StronglySorted R (l1 ++ l2).
Proof.
  induction 1 as [|x l1 H1 IH Hx]; intros H2 H; cbn; [done|]. constructor.
  - apply IH; [done|]. intros; apply H; [by right|done].
  - apply Forall_app. split; [done|]. apply Forall_forall. intros y Hy. apply H; [by left|done].
Qed.

(** *** Splitting at a position that no span crosses *)

Definition ends_by (r : Z) (sp : Span) : Prop := Stop sp <= r.
Definition starts_from (r : Z) (sp : Span) : Prop := r <= Start sp.

Lemma sort_split r la lb :
  Forall is_plain la -> Forall is_plain lb ->
  Forall (fun sp => span_ok sp = true /\ ends_by r sp) la -> Forall (fun sp => span_ok sp = true /\ starts_from r sp) lb ->
  stable_sort span_less (la ++ lb) = stable_sort span_less la ++ stable_sort span_less lb.
Proof.
  intros Hpa Hpb Ha Hb. apply sorted_unique.
  - rewrite stable_sort_perm. by apply Forall_app.
  - by rewrite !stable_sort_perm.
  - apply sort_sorted.
  - apply StronglySorted_app_2; [apply sort_sorted..|]. intros x y Hx Hy.
    rewrite stable_sort_perm in Hx, Hy. rewrite Forall_forall in Ha, Hb.
    destruct (Ha x Hx) as [Hox Hbx], (Hb y Hy) as [Hoy Hay]. unfold span_ok, ends_by, starts_from, ordered, span_less in *.
    case_match; lia.
Qed.

(** Spans past [r] leave merged spans that end by [r] alone. *)
Lemma fold_after r l x acc :
  Forall (fun sp => span_ok sp = true /\ starts_from r sp) l ->
  match acc with o :: _ => Stop o <= r | [] => True end ->
  fold_left compose_step l (x ++ acc) = fold_left compose_step l x ++ acc.
Proof.
  intros Hl Hacc. revert x. induction Hl as [|sp l [Hok Ha] Hl IH]; intros x; cbn; [done|].
  assert (compose_step (x ++ acc) sp = compose_step x sp ++ acc) as ->; [|apply IH].
  unfold compose_step. rewrite Hok. destruct x as [|o x]; cbn.
  - destruct acc as [|o acc]; [done|]. unfold starts_from in Ha. destruct (Z.ltb_spec (Start sp) (Stop o)); [lia|done].
  - by destruct (Start sp <? Stop o).
Qed.

Lemma step_before r out sp :
  Forall (ends_by r) out -> ends_by r sp -> Forall (ends_by r) (compose_step out sp).
Proof.
  intros Ho Hs. unfold compose_step, ends_by in *. destruct (span_ok sp); [|done].
  destruct Ho as [|o out Ho Hout]; [by repeat constructor|]. destruct (Start sp <? Stop o); constructor; auto.
  cbn. destruct (Z.ltb_spec (Stop o) (Stop sp)); lia.
Qed.

Lemma step_after r out sp :
  Forall (fun o => r <= Start o /\ Start o < Stop o) out -> starts_from r sp ->
  Forall (fun o => r <= Start o /\ Start o < Stop o) (compose_step out sp).
Proof.
  intros Ho Hs. unfold compose_step, starts_from in *. destruct (span_ok sp) eqn:Hok; [|done].
  assert (Start sp < Stop sp) by (unfold span_ok in Hok; lia).
  destruct Ho as [|o out Ho Hout]; [by repeat constructor|]. destruct (Start sp <? Stop o); constructor; auto.
  cbn. destruct (Z.ltb_spec (Stop o) (Stop sp)); lia.
Qed.

Lemma fold_inv {A B} (P : list A -> Prop) (Q : B -> Prop) (f : list A -> B -> list A) l acc :
  (forall out b, P out -> Q b -> P (f out b)) -> Forall Q l -> P acc -> P (fold_left f l acc).
Proof. intros Hf Hl. revert acc. induction Hl; intros acc Ha; cbn; auto. Qed.

Lemma compose_before r l : Forall (ends_by r) l -> Forall (ends_by r) (composeSpans l).
Proof.
  intros H. unfold composeSpans. rewrite <- Permutation_rev.
  apply (fold_inv (Forall (ends_by r)) (ends_by r)); [apply step_before|by rewrite stable_sort_perm|constructor].
Qed.

Lemma compose_after r l :
  Forall (starts_from r) l -> Forall (fun o => r <= Start o /\ Start o < Stop o) (composeSpans l).
Proof.
  intros H. unfold composeSpans. rewrite <- Permutation_rev.
  apply (fold_inv (Forall (fun o => r <= Start o /\ Start o < Stop o)) (starts_from r));
    [apply step_after|by rewrite stable_sort_perm|constructor].
Qed.

Lemma filter_app_ok {A} (f : A -> bool) (l1 l2 : list A) :
  List.filter f (l1 ++ l2) = List.filter f l1 ++ List.filter f l2.
Proof. apply List.filter_app. Qed.

Lemma Forall_filter_and {A} (P : A -> Prop) (f : A -> bool) l :
  Forall P l -> Forall (fun x => f x = true /\ P x) (List.filter f l).
Proof. induction 1; cbn; [constructor|]. by destruct (f x) eqn:E; [constructor|]. Qed.

(** The merge splits at [r]. *)
Theorem compose_split r la lb :
  Forall is_plain la -> Forall is_plain lb -> Forall (ends_by r) la -> Forall (starts_from r) lb ->
  composeSpans (la ++ lb) = composeSpans la ++ composeSpans lb.
Proof.
  intros Hpa Hpb Ha Hb. rewrite !composeSpans_merge by (try apply Forall_app; auto).
  unfold merge. rewrite filter_app_ok, (sort_split r), fold_left_app by auto using Forall_List_filter, Forall_filter_and.
  rewrite <- rev_app_distr. f_equal.
  pose proof (Forall_filter_and (ends_by r) span_ok la Ha) as Ha'.
  rewrite <- (app_nil_l (fold_left compose_step (stable_sort span_less (List.filter span_ok la)) [])).
  apply (fold_after r); [by rewrite stable_sort_perm; apply Forall_filter_and|].
  assert (H : Forall (ends_by r) (fold_left compose_step (stable_sort span_less (List.filter span_ok la)) [])).
  { apply (fold_inv (Forall (ends_by r)) (ends_by r)); [apply step_before| |constructor].
    rewrite stable_sort_perm. by apply Forall_List_filter. }
  by destruct H.
Qed.

(** *** Translation *)

Lemma stable_sort_map {A} (f : A -> A) (less : A -> A -> bool) l :
  (forall x y, less (f x) (f y) = less x y) -> stable_sort less (map f l) = map f (stable_sort less l).
Proof.
  intros Hf. unfold stable_sort. rewrite map_rev. f_equal.
  change (@nil A) with (map f []) at 1. generalize (@nil A) as acc.
  assert (Hi : forall x rp, insert_rev less (f x) (map f rp) = map f (insert_rev less x rp)).
  { intros x rp. induction rp as [|y rp IH]; cbn; [done|]. rewrite Hf. destruct (less x y); cbn; [by rewrite IH|done]. }
  induction l as [|x l IH]; intros acc; cbn; [done|]. by rewrite Hi.
Qed.

Lemma compose_shift k l :
  0 <= k -> Forall (fun sp => 0 <= Start sp) l -> composeSpans (map (shift k) l) = map (shift k) (composeSpans l).
Proof.
  intros Hk Hl. unfold composeSpans. rewrite stable_sort_map, map_rev.
  2: { intros x y. unfold span_less, shift. cbn. repeat case_match; lia. }
  f_equal. assert (Hs : Forall (fun sp => 0 <= Start sp) (stable_sort span_less l)) by (by rewrite stable_sort_perm).
  change (@nil Span) with (map (shift k) []) at 1. generalize (@nil Span) as acc.
  induction Hs as [|sp l' Hsp Hs IH]; intros acc; cbn; [done|].
  assert (compose_step (map (shift k) acc) (shift k sp) = map (shift k) (compose_step acc sp)) as ->; [|apply IH].
  unfold compose_step. replace (span_ok (shift k sp)) with (span_ok sp) by (unfold span_ok, shift; cbn; lia).
  destruct (span_ok sp); [|done]. destruct acc as [|o acc]; cbn; [done|].
  replace (Start sp + k <? Stop o + k) with (Start sp <? Stop o) by lia.
  destruct (Start sp <? Stop o); [|done]. cbn. f_equal. unfold absorb, shift. cbn. f_equal.
  - replace (Stop o + k <? Stop sp + k) with (Stop o <? Stop sp) by lia. by destruct (Stop o <? Stop sp).
  - replace (Start sp + k =? Start o + k) with (Start sp =? Start o) by lia.
    replace (Stop sp + k =? Stop o + k) with (Stop sp =? Stop o) by lia. done.
Qed.
End Plain.

Lemma compose_forall (P : Span -> Prop) l :
  (forall o sp, P o -> P sp -> P (absorb o sp)) -> Forall P l -> Forall P (composeSpans l).
Proof.
  intros Habs Hl. unfold composeSpans. rewrite <- Permutation_rev.
  apply (fold_inv (Forall P) P); [|by rewrite stable_sort_perm|constructor].
  intros out sp Ho Hsp. unfold compose_step. destruct (span_ok sp); [|done].
  destruct out as [|o out]; [by constructor|]. inversion Ho; subst. case_match; constructor; auto.
Qed.

Lemma sorted_rev {A} (R : A -> A -> Prop) l : StronglySorted (flip R) (rev l) -> StronglySorted R l.
Proof.
  rewrite <- (rev_involutive l) at 2. generalize (rev l). clear. induction 1 as [|x l Hs IH Hx]; [constructor|].
  cbn [rev]. apply StronglySorted_snoc; [done|]. by rewrite <- Permutation_rev.
Qed.

(** The merged spans, as a list of sorted disjoint nonempty regions. *)
Lemma compose_sorted l : Forall (fun sp => 0 <= Start sp) l -> sorted_spans (composeSpans l).
Proof.
  intros Hl. split; [by apply sorted_rev, compose_disjoint|].
  eapply Forall_impl; [by apply (compose_after 0)|]. by intros sp [_ ?].
Qed.
