(* ===== verification/Keyword.v ===== *)
(** * The keyword guardrail: [internal/guardrail/keyword.go] and [keyword_stream.go]

    The engine that checks a complete text and its streaming session, which
    checks a field as it arrives and releases a prefix of it.  [lower_rune] is
    [strings.ToLower] of one rune and [regexp] stands for package [regexp]. *)

From S2P Require Import Prelude Utf8 Spans.

(** ** Results ([types.go], [incremental.go]) *)

Record GuardrailResult := mkResult {
  Blocked : bool; RuleName : string; Reason : bytes; Severity : string;
  MaskedSpans : list Span; MaskedContent : bytes; ContentSnippet : string
}.

Definition pass_result : GuardrailResult := mkResult false "" [] "" [] [] "".

Record StreamFragment := mkFragment { Key : string; Text : bytes; Final : bool; Tool : bool }.

Record StreamVerdict := mkVerdict {
  CheckedThrough : Z; ReleaseThrough : Z; Result : option GuardrailResult; VSpans : list Span; BlockStart : option Z
}.

(** ** The engine *)

(** [strings.Index] *)
Fixpoint Index (s sub : bytes) : option nat :=
  if bool_decide (take (length sub) s = sub) then Some O
  else match s with [] => None | _ :: s => S <$> Index s sub end.

Section Engine.
Context (lower_rune : bytes -> bytes).
Context {regexp : Type} (compile : bytes -> option regexp) (FindAllStringIndex : regexp -> bytes -> list (Z * Z)).

(** [strings.ToLower]: rune by rune *)
Definition toLower (s : bytes) : bytes := concat (map lower_rune (split_runes s)).

Record keywordConfig := mkKeywordConfig {
  cfgBlocklist : list bytes; cfgAllowlist : list bytes; cfgUseRegex : bool; cfgCaseSensitive : bool
}.

Record KeywordEngine := mkKeyword {
  blocklist : list bytes; allowlist : list bytes; useRegex : bool; caseSensitive : bool; compiledRegex : list regexp
}.

Definition kw_name : string := "keyword_filter".

(** [NewKeywordEngineFromConfig] on a decoded configuration; the error names the pattern. *)
Definition NewKeywordEngine (cfg : keywordConfig) : bytes + KeywordEngine :=
  let allow := if cfgCaseSensitive cfg then cfgAllowlist cfg else map toLower (cfgAllowlist cfg) in
  let fix compile_all (ps : list bytes) : bytes + list regexp :=
    match ps with
    | [] => inr []
    | p :: ps =>
        match compile ((if cfgCaseSensitive cfg then [] else bytes_of "(?i)") ++ p) with
        | None => inl p
        | Some re => match compile_all ps with inl e => inl e | inr res => inr (re :: res) end
        end
    end in
  match (if cfgUseRegex cfg then compile_all (cfgBlocklist cfg) else inr []) with
  | inl e => inl e
  | inr res => inr (mkKeyword (cfgBlocklist cfg) allow (cfgUseRegex cfg) (cfgCaseSensitive cfg) res)
  end.

(** The lowered text of the runes from byte offset [off] on, and the offset of every byte of it. *)
Fixpoint norm_runes (off : nat) (rs : list bytes) : bytes * list nat :=
  match rs with
  | [] => ([], [])
  | r :: rs =>
      let l := lower_rune r in
      let '(text, positions) := norm_runes (off + length r) rs in
      (l ++ text, replicate (length l) off ++ positions)
  end.

Definition normalizedText (e : KeywordEngine) (content : bytes) : bytes * option (list nat) :=
  if caseSensitive e then (content, None)
  else
    let '(text, positions) := norm_runes 0 (split_runes content) in
    (text, Some (positions ++ [length content])).

(** The occurrences of [key] from [cursor] on, overlapping ones included. *)
Fixpoint occurrences (fuel : nat) (text key : bytes) (cursor : nat) : list nat :=
  match fuel with
  | O => []
  | S fuel =>
      if (cursor <? length text)%nat then
        match Index (drop cursor text) key with
        | None => []
        | Some i => (cursor + i)%nat :: occurrences fuel text key (cursor + i + 1)
        end
      else []
  end.

Definition at_position (positions : option (list nat)) (i : nat) : nat :=
  match positions with Some ps => default O (ps !! i) | None => i end.

Definition redacted : bytes := bytes_of "[REDACTED]".

(** The key of a word, when it takes part in the search. *)
Definition word_key (e : KeywordEngine) (word : bytes) : option bytes :=
  let key := if caseSensitive e then word else toLower word in
  match key with
  | [] => None
  | _ => if bool_decide (key ∈ allowlist e) then None else Some key
  end.

Definition word_spans (text : bytes) (positions : option (list nat)) (key : bytes) : list Span :=
  map (fun i => mkSpan (Z.of_nat (at_position positions i)) (Z.of_nat (at_position positions (i + length key))) redacted false)
    (occurrences (length text) text key 0).

Definition regex_spans (e : KeywordEngine) (re : regexp) (content : bytes) : list Span :=
  omap (fun '(a, b) =>
      if a =? b then None
      else
        let found := slice a b content in
        let key := if caseSensitive e then found else toLower found in
        if bool_decide (key ∈ allowlist e) then None else Some (mkSpan a b redacted false))
    (FindAllStringIndex re content).

(** The first word or pattern with a span gives the reason. *)
Fixpoint first_reason (prefix : string) (hits : list (bytes * list Span)) : bytes :=
  match hits with
  | [] => []
  | (_, []) :: hits => first_reason prefix hits
  | (word, _) :: _ => bytes_of prefix ++ word
  end.

Definition matchSpans (e : KeywordEngine) (content : bytes) : list Span * bytes :=
  let hits :=
    if useRegex e then
      zip_with (fun word re => (word, regex_spans e re content)) (blocklist e) (compiledRegex e)
    else
      let '(text, positions) := normalizedText e content in
      map (fun word => (word, match word_key e word with Some key => word_spans text positions key | None => [] end))
        (blocklist e) in
  (composeSpans (concat (map snd hits)),
   first_reason (if useRegex e then "matched keyword pattern: " else "matched keyword: ") hits).

Definition Keyword_Check (e : KeywordEngine) (content : bytes) : GuardrailResult :=
  match matchSpans e content with
  | ([], _) => pass_result
  | (spans, reason) => mkResult true kw_name reason "medium" spans (applySpans content spans) ""
  end.

(** ** The streaming session *)

Record keywordStreamField := mkField { tail : bytes; kwBytes : nat; kwFinal : bool }.

Record keywordStream := mkStream {
  engine : KeywordEngine; fields : gmap string keywordStreamField; words : list bytes; closed : bool
}.

Inductive stream_error := StreamUnsupported | CtxDone | StreamClosed | InvalidUtf8 | FieldCompleted.

Definition Keyword_NewStream (e : KeywordEngine) (ctxErr : bool) : stream_error + keywordStream :=
  if ctxErr then inl CtxDone
  else if useRegex e then inl StreamUnsupported
  else inr (mkStream e ∅ (omap (word_key e) (blocklist e)) false).

(** Whether a proper prefix of [word] of [size] bytes ends the text. *)
Definition candidate (normal word : bytes) (size : nat) : bool :=
  let start := (length normal - size)%nat in
  match normal !! start, word !! size with
  | Some a, Some b => RuneStart a && RuneStart b && bool_decide (drop start normal = take size word)
  | _, _ => false
  end.

Definition candidate_sizes (normal word : bytes) : list nat :=
  seq 1 (min (length word - 1) (length normal)).

(** The release position below every position where a word may be under way. *)
Definition hold_back (normal : bytes) (positions : option (list nat)) (ws : list bytes) (release : Z) : Z :=
  fold_left (fun release word =>
    fold_left (fun release size =>
      if candidate normal word size then
        let start := Z.of_nat (at_position positions (length normal - size)) in
        if start <? release then start else release
      else release) (candidate_sizes normal word) release) ws release.

(** Spans that cross the release position are held back with it. *)
Definition hold_spans (spans : list Span) (release : Z) : Z :=
  fold_left (fun release sp => if (Start sp <? release) && (release <? Stop sp) then Start sp else release)
    (rev spans) release.

Definition Keyword_Push (s : keywordStream) (ctxErr : bool) (f : StreamFragment) : stream_error + (StreamVerdict * keywordStream) :=
  if ctxErr then inl CtxDone
  else if closed s then inl StreamClosed
  else if negb (ValidString (Text f)) then inl InvalidUtf8
  else
    let field := default (mkField [] 0 false) (fields s !! Key f) in
    if kwFinal field then inl FieldCompleted
    else
      let text := tail field ++ Text f in
      let base := Z.of_nat (kwBytes field) - Z.of_nat (length (tail field)) in
      let total := (kwBytes field + length (Text f))%nat in
      let '(spans, reason) := matchSpans (engine s) text in
      let release := Z.of_nat (length text) in
      let release :=
        if Final f then release
        else let '(normal, positions) := normalizedText (engine s) text in hold_back normal positions (words s) release in
      let release := hold_spans spans release in
      let v :=
        match spans with
        | [] => mkVerdict (Z.of_nat total) (base + release) None [] None
        | sp0 :: _ =>
            mkVerdict (Z.of_nat total) (base + release)
              (Some (mkResult true kw_name reason "medium" [] [] ""))
              (map (shift base) (List.filter (fun sp => Stop sp <=? release) spans))
              (Some (base + Start sp0))
        end in
      let field := mkField (drop (Z.to_nat release) text) total (Final f) in
      inr (v, mkStream (engine s) (<[Key f := field]> (fields s)) (words s) (closed s)).

Definition Keyword_Close (s : keywordStream) : keywordStream := mkStream (engine s) ∅ [] true.
End Engine.
