(* ===== verification/KeywordSpec.v ===== *)
(** * The keyword stream finds what the complete check finds

    Text is a list of units (bytes when the engine is case sensitive, runes
    otherwise), each with the bytes it is compared by.  Matches are translation
    invariant at unit boundaries, so a session that holds back every position
    where a word may be under way reports, fragment by fragment, exactly the
    spans of the complete text. *)

From S2P Require Import Prelude Utf8 Spans Keyword.

(** ** Occurrences *)

Definition match_at (key text : bytes) (i : nat) : bool := bool_decide (take (length key) (drop i text) = key).

Lemma match_at_bound key text i : key <> [] -> match_at key text i = true -> (i + length key <= length text)%nat.
Proof.
  unfold match_at. rewrite bool_decide_eq_true. intros Hk H. apply (f_equal length) in H.
  rewrite length_take, length_drop in H. destruct key; [done|]. cbn [length] in *. lia.
Qed.

Lemma match_at_app_l key a b i :
  (i + length key <= length a)%nat -> match_at key (a ++ b) i = match_at key a i.
Proof.
  intros H. unfold match_at. rewrite drop_app_le by lia. rewrite take_app_le by (rewrite length_drop; lia). done.
Qed.

Lemma match_at_app_r key a b i : match_at key (a ++ b) (length a + i) = match_at key b i.
Proof. unfold match_at. rewrite drop_app_ge by lia. by replace (length a + i - length a)%nat with i by lia. Qed.

Lemma Index_spec s sub i :
  Index s sub = Some i <-> match_at sub s i = true /\ (forall j, (j < i)%nat -> match_at sub s j = false)
                          /\ (i <= length s)%nat.
Proof.
  revert i. induction s as [|c s IH]; intros i; cbn [Index].
  - destruct (bool_decide_reflect (take (length sub) [] = sub)) as [E|E].
    + split; [intros [= <-]|].
      * split_and!; [by apply bool_decide_true|lia|cbn; lia].
      * intros (_ & H & Hi). cbn in Hi. f_equal. lia.
    + split; [done|]. intros (H & _ & Hi). cbn in Hi. assert (i = 0%nat) as -> by lia.
      unfold match_at in H. cbn [drop] in H. rewrite bool_decide_eq_true in H. congruence.
  - destruct (bool_decide_reflect (take (length sub) (c :: s) = sub)) as [E|E].
    + split; [intros [= <-]|].
      * split_and!; [by apply bool_decide_true|lia|lia].
      * intros (_ & H & _). destruct i as [|i]; [done|]. specialize (H 0%nat ltac:(lia)).
        unfold match_at in H. cbn [drop] in H. by rewrite bool_decide_eq_false in H.
    + rewrite fmap_Some. split.
      * intros (k & Hk & ->). apply IH in Hk as (H1 & H2 & H3). split_and!; [done| |cbn; lia].
        intros [|j] Hj; [by apply bool_decide_false|]. apply H2. lia.
      * intros (H1 & H2 & H3). destruct i as [|i].
        { unfold match_at in H1. cbn [drop] in H1. by rewrite bool_decide_eq_true in H1. }
        exists i. split; [|done]. apply IH. split_and!; [done| |cbn in H3; lia].
        intros j Hj. apply (H2 (S j)). lia.
Qed.

Lemma Index_None s sub : Index s sub = None -> forall j, (j <= length s)%nat -> match_at sub s j = false.
Proof.
  induction s as [|c s IH]; cbn [Index]; case_bool_decide as E; try done.
  - intros _ j Hj. cbn in Hj. assert (j = 0%nat) as -> by lia. by apply bool_decide_false.
  - intros H [|j] Hj; [by apply bool_decide_false|]. apply fmap_None in H. apply (IH H). cbn in Hj. lia.
Qed.

Definition word_matches (key text : bytes) : list nat := List.filter (match_at key text) (seq 0 (length text)).

Lemma filter_all_false {A} (f : A -> bool) l : (forall x, In x l -> f x = false) -> List.filter f l = [].
Proof. induction l as [|x l IH]; intros H; cbn; [done|]. rewrite (H x) by (by left). apply IH. intros; apply H; by right. Qed.

Lemma occurrences_from fuel text key cursor :
  key <> [] -> (length text - cursor <= fuel)%nat ->
  occurrences fuel text key cursor = List.filter (match_at key text) (seq cursor (length text - cursor)).
Proof.
  intros Hk. revert cursor. induction fuel as [|fuel IH]; intros cursor Hf; cbn [occurrences].
  { by replace (length text - cursor)%nat with 0%nat by lia. }
  destruct (Nat.ltb_spec cursor (length text)) as [Hc|Hc]; [|by replace (length text - cursor)%nat with 0%nat by lia].
  assert (Hshift : forall j, match_at key (drop cursor text) j = match_at key text (cursor + j)).
  { intros j. unfold match_at. by rewrite drop_drop. }
  destruct (Index (drop cursor text) key) as [i|] eqn:E.
  - apply Index_spec in E as (H1 & H2 & H3). rewrite Hshift in H1.
    pose proof (match_at_bound key text _ Hk H1). destruct key as [|k0 key']; [done|]. cbn [length] in *.
    replace (length text - cursor)%nat with (i + S (length text - (cursor + i + 1)))%nat by lia.
    rewrite seq_app, List.filter_app, (filter_all_false _ (seq cursor i)).
    2: { intros j Hj. apply in_seq in Hj. replace j with (cursor + (j - cursor))%nat by lia. rewrite <- Hshift. apply H2. lia. }
    cbn [seq List.filter app]. rewrite H1. f_equal. rewrite IH by lia. repeat f_equal; lia.
  - symmetry. apply filter_all_false. intros j Hj. apply in_seq in Hj.
    replace j with (cursor + (j - cursor))%nat by lia. rewrite <- Hshift. apply (Index_None _ _ E). rewrite length_drop. lia.
Qed.

Lemma occurrences_matches text key : key <> [] -> occurrences (length text) text key 0 = word_matches key text.
Proof. intros Hk. unfold word_matches. rewrite occurrences_from by (auto; lia). by rewrite Nat.sub_0_r. Qed.

(** ** Units *)

Section Units.
Context (nu : bytes -> bytes).

Definition norm (us : list bytes) : bytes := concat (map nu us).

Definition unit_ok (u : bytes) : Prop := u <> [] /\ nu u <> [].

(** The byte offset of the unit a compared byte belongs to. *)
Fixpoint pos (us : list bytes) (i : nat) : nat :=
  match us with
  | [] => 0
  | u :: us => if (i <? length (nu u))%nat then 0 else length u + pos us (i - length (nu u))
  end.

Lemma norm_app a b : norm (a ++ b) = norm a ++ norm b.
Proof. unfold norm. by rewrite map_app, concat_app. Qed.

Lemma pos_app_l a b i : (i < length (norm a))%nat -> pos (a ++ b) i = pos a i.
Proof.
  revert i. induction a as [|u a IH]; intros i; [cbn; lia|]. cbn [app pos].
  change (norm (u :: a)) with (nu u ++ norm a). rewrite length_app. intros H.
  destruct (Nat.ltb_spec i (length (nu u))); [done|]. f_equal. apply IH. lia.
Qed.

Lemma pos_app_r a b i : pos (a ++ b) (length (norm a) + i) = (length (concat a) + pos b i)%nat.
Proof.
  induction a as [|u a IH]; [done|]. cbn [app pos concat]. change (norm (u :: a)) with (nu u ++ norm a).
  rewrite !length_app. destruct (Nat.ltb_spec (length (nu u) + length (norm a) + i) (length (nu u))); [lia|].
  replace (length (nu u) + length (norm a) + i - length (nu u))%nat with (length (norm a) + i)%nat by lia.
  rewrite IH. lia.
Qed.

Lemma pos_zero us : Forall unit_ok us -> pos us 0 = 0%nat.
Proof. destruct 1 as [|u us [_ Hu] _]; cbn; [done|]. by destruct (nu u). Qed.

Lemma pos_end us : pos us (length (norm us)) = length (concat us).
Proof. rewrite <- (Nat.add_0_r (length (norm us))), <- (app_nil_r us) at 1. rewrite pos_app_r. cbn. lia. Qed.

(** Up to the end of [a], [a] decides the offsets. *)
Lemma pos_app_le a b i : Forall unit_ok b -> (i <= length (norm a))%nat -> pos (a ++ b) i = pos a i.
Proof.
  intros Hb Hi. destruct (decide (i = length (norm a))) as [->|]; [|apply pos_app_l; lia].
  rewrite pos_end, <- (Nat.add_0_r (length (norm a))), pos_app_r, pos_zero by done. lia.
Qed.

Lemma pos_lt us i : Forall unit_ok us -> (i < length (norm us))%nat -> (pos us i < length (concat us))%nat.
Proof.
  intros Hu. revert i. induction Hu as [|u us [Hu _] _ IH]; intros i; [cbn; lia|]. cbn [pos concat].
  change (norm (u :: us)) with (nu u ++ norm us). rewrite !length_app. intros H.
  assert (0 < length u)%nat by (destruct u; [done|cbn; lia]).
  destruct (Nat.ltb_spec i (length (nu u))); [lia|]. specialize (IH (i - length (nu u))%nat). lia.
Qed.

(** Every offset is a unit boundary. *)
Lemma pos_boundary us i : exists a b, us = a ++ b /\ pos us i = length (concat a).
Proof.
  revert i. induction us as [|u us IH]; intros i; [by exists [], []|]. cbn [pos].
  destruct (i <? length (nu u))%nat; [by exists [], (u :: us)|].
  destruct (IH (i - length (nu u))%nat) as (a & b & -> & ->). exists (u :: a), b. split; [done|]. cbn. by rewrite length_app.
Qed.

(** Before a boundary exactly when the compared byte is. *)
Lemma pos_before a b i :
  Forall unit_ok a -> (pos (a ++ b) i < length (concat a))%nat <-> (i < length (norm a))%nat.
Proof.
  intros Ha. split.
  - intros H. destruct (Nat.lt_ge_cases i (length (norm a))) as [|Hge]; [done|].
    replace i with (length (norm a) + (i - length (norm a)))%nat in H by lia. rewrite pos_app_r in H. lia.
  - intros H. rewrite pos_app_l by done. by apply pos_lt.
Qed.

(** *** The spans of a text *)

Definition span_at (us : list bytes) (key : bytes) (i : nat) : Span :=
  plain redacted (Z.of_nat (pos us i), Z.of_nat (pos us (i + length key))).

Definition key_spans (us : list bytes) (key : bytes) : list Span := map (span_at us key) (word_matches key (norm us)).

Definition all_spans (ks : list bytes) (us : list bytes) : list Span := concat (map (key_spans us) ks).

(** Those that start below the compared byte [n]. *)
Definition key_spans_below (n : nat) (us : list bytes) (key : bytes) : list Span :=
  map (span_at us key) (List.filter (match_at key (norm us)) (seq 0 n)).

Definition spans_below (ks : list bytes) (n : nat) (us : list bytes) : list Span := concat (map (key_spans_below n us) ks).

Lemma filter_seq_shift (f : nat -> bool) k n :
  List.filter f (seq k n) = map (fun i => (k + i)%nat) (List.filter (fun i => f (k + i)%nat) (seq 0 n)).
Proof.
  assert (H : forall m, List.filter f (seq (k + m) n) = map (fun i => (k + i)%nat) (List.filter (fun i => f (k + i)%nat) (seq m n))).
  { induction n as [|n IH]; intros m; cbn; [done|]. rewrite <- Nat.add_succ_r, IH.
    by destruct (f (k + m)%nat). }
  specialize (H 0%nat). by rewrite Nat.add_0_r in H.
Qed.

Lemma key_spans_split a b key :
  key_spans (a ++ b) key
  = key_spans_below (length (norm a)) (a ++ b) key
    ++ map (shift (Z.of_nat (length (concat a)))) (key_spans b key).
Proof.
  unfold key_spans, key_spans_below, word_matches. rewrite norm_app, length_app, seq_app, List.filter_app, map_app. f_equal.
  rewrite Nat.add_0_l, filter_seq_shift, !map_map. 
  rewrite (List.filter_ext _ (match_at key (norm b))) by (intros i; by rewrite match_at_app_r).
  apply map_ext. intros i. unfold span_at, shift, plain. cbn.
  rewrite <- Nat.add_assoc, !pos_app_r. f_equal; lia.
Qed.

Lemma concat_app_perm {A B} (f g : A -> list B) l :
  concat (map (fun x => f x ++ g x) l) ≡ₚ concat (map f l) ++ concat (map g l).
Proof.
  induction l as [|x l IH]; cbn; [done|]. rewrite IH. rewrite <- !app_assoc. f_equiv.
  rewrite !app_assoc. f_equiv. apply Permutation_app_comm.
Qed.

Lemma all_spans_split ks a b :
  all_spans ks (a ++ b)
  ≡ₚ spans_below ks (length (norm a)) (a ++ b) ++ map (shift (Z.of_nat (length (concat a)))) (all_spans ks b).
Proof.
  unfold all_spans, spans_below. rewrite (map_ext _ _ (key_spans_split a b)).
  rewrite (concat_app_perm (key_spans_below (length (norm a)) (a ++ b))). f_equiv.
  by rewrite concat_map, map_map.
Qed.

Lemma all_spans_plain ks us : Forall (is_plain redacted) (all_spans ks us).
Proof.
  apply Forall_concat, Forall_map, Forall_true. intros k. apply Forall_map, Forall_true. by intros i.
Qed.

Lemma spans_below_plain ks n us : Forall (is_plain redacted) (spans_below ks n us).
Proof.
  apply Forall_concat, Forall_map, Forall_true. intros k. apply Forall_map, Forall_true. by intros i.
Qed.

Lemma all_spans_nonneg ks us : Forall (fun sp => 0 <= Start sp) (all_spans ks us).
Proof.
  apply Forall_concat, Forall_map, Forall_true. intros k. apply Forall_map, Forall_true. intros i. cbn. lia.
Qed.
End Units.

Lemma norm_ext f g us : (forall u, f u = g u) -> norm f us = norm g us.
Proof. intros H. unfold norm. f_equal. by apply map_ext. Qed.

Lemma pos_ext f g us i : (forall u, f u = g u) -> pos f us i = pos g us i.
Proof. intros H. revert i. induction us as [|u us IH]; intros i; cbn [pos]; [done|]. by rewrite H, IH. Qed.

(** ** The held-back position *)

(** A position that disjoint spans do not cross: [r] itself, or the start of the one that crosses it. *)
Lemma hold_spans_cases (L : list Span) r :
  StronglySorted (flip disjoint_spans) L ->
  let r' := fold_left (fun release sp => if (Start sp <? release) && (release <? Stop sp) then Start sp else release) L r in
  (r' = r /\ forall c, c ∈ L -> ~ (Start c < r < Stop c))
  \/ (exists c, c ∈ L /\ Start c < r < Stop c /\ r' = Start c).
Proof.
  cbv zeta. intros Hs. revert r. induction Hs as [|c L Hs IH Hc]; intros r; cbn [fold_left].
  { left. split; [done|]. by intros ? ?%not_elem_of_nil. }
  destruct (Z.ltb_spec (Start c) r) as [H1|H1]; cbn [andb].
  2: { destruct (IH r) as [[-> H]|(y & Hy & H & ->)]; [left|right; exists y; split; [by right|done]].
       split; [done|]. intros y [->|Hy]%elem_of_cons; [lia|by apply H]. }
  destruct (Z.ltb_spec r (Stop c)) as [H2|H2].
  - right. exists c. split; [left|]. split; [done|]. destruct (IH (Start c)) as [[-> _]|(y & Hy & H & _)]; [done|].
    rewrite Forall_forall in Hc. specialize (Hc y Hy). unfold flip, disjoint_spans in Hc. lia.
  - destruct (IH r) as [[-> H]|(y & Hy & H & ->)]; [left|right; exists y; split; [by right|done]].
    split; [done|]. intros y [->|Hy]%elem_of_cons; [lia|by apply H].
Qed.

Lemma sorted_pairwise (L : list Span) x y :
  StronglySorted (flip disjoint_spans) L -> x ∈ L -> y ∈ L -> x = y \/ Stop x <= Start y \/ Stop y <= Start x.
Proof.
  intros Hs. induction Hs as [|c L Hs IH Hc]; [by intros ?%not_elem_of_nil|].
  rewrite Forall_forall in Hc. unfold flip, disjoint_spans in Hc.
  intros [->|Hx]%elem_of_cons [->|Hy]%elem_of_cons; auto.
Qed.

Lemma hold_spans_spec (l : list Span) r :
  let spans := composeSpans l in
  let r' := hold_spans spans r in
  r' <= r /\ (forall c, c ∈ spans -> ~ (Start c < r' < Stop c))
  /\ (r' = r \/ exists sp, sp ∈ l /\ Start sp = r').
Proof.
  cbv zeta. unfold hold_spans. pose proof (compose_disjoint l) as Hd.
  destruct (hold_spans_cases (rev (composeSpans l)) r Hd) as [[-> H]|(c & Hc & H & ->)].
  - split_and!; [lia| |by left]. intros c Hc. apply H. by apply (proj2 (in_rev_iff _ _)).
  - split_and!; [lia| |].
    + intros y Hy%(proj2 (in_rev_iff _ _)). destruct (sorted_pairwise _ c y Hd Hc Hy) as [<-|[|]]; lia.
    + right. apply (proj1 (in_rev_iff _ _)) in Hc. destruct (compose_start l c Hc) as (sp & ? & _ & ?). by exists sp.
Qed.

Lemma fold_min {A} (cand : A -> bool) (at_ : A -> Z) l r :
  let r' := fold_left (fun r x => if cand x then (if at_ x <? r then at_ x else r) else r) l r in
  r' <= r /\ (forall x, x ∈ l -> cand x = true -> r' <= at_ x) /\ (r' = r \/ exists x, x ∈ l /\ cand x = true /\ at_ x = r').
Proof.
  cbv zeta. revert r. induction l as [|x l IH]; intros r; cbn [fold_left].
  { split_and!; [lia|by intros ? ?%not_elem_of_nil|by left]. }
  set (r1 := if cand x then _ else _). destruct (IH r1) as (H1 & H2 & H3).
  assert (Hr1 : r1 <= r /\ (cand x = true -> r1 <= at_ x) /\ (r1 = r \/ cand x = true /\ r1 = at_ x)).
  { subst r1. destruct (cand x) eqn:?; [destruct (Z.ltb_spec (at_ x) r)|]; split_and!; intros; try lia; auto. }
  destruct Hr1 as (Ha & Hb & Hc). split_and!; [lia| |].
  - intros y [->|Hy]%elem_of_cons Hy'; [specialize (Hb Hy'); lia|by apply H2].
  - destruct H3 as [->|(y & Hy & Hcy & <-)]; [|right; exists y; split; [by right|done]].
    destruct Hc as [->|[Hcx ->]]; [by left|right; exists x; split; [left|done]].
Qed.

Lemma hold_back_spec normal positions ws r :
  let r' := hold_back normal positions ws r in
  r' <= r
  /\ (forall w n, w ∈ ws -> n ∈ candidate_sizes normal w -> candidate normal w n = true ->
        r' <= Z.of_nat (at_position positions (length normal - n)))
  /\ (r' = r \/ exists i c, normal !! i = Some c /\ RuneStart c = true /\ r' = Z.of_nat (at_position positions i)).
Proof.
  unfold hold_back. cbv zeta. revert r. induction ws as [|w ws IH]; intros r; cbn [fold_left].
  { split_and!; [lia|by intros ?? ?%not_elem_of_nil|by left]. }
  set (r1 := fold_left _ (candidate_sizes normal w) r). destruct (IH r1) as (H1 & H2 & H3).
  pose proof (fold_min (candidate normal w) (fun n => Z.of_nat (at_position positions (length normal - n)))
    (candidate_sizes normal w) r) as Hm. cbv zeta in Hm. fold r1 in Hm. destruct Hm as (Ha & Hb & Hc).
  split_and!; [lia| |].
  - intros w' n [->|Hw]%elem_of_cons Hn Hcand; [specialize (Hb n Hn Hcand); lia|by apply (H2 w')].
  - destruct H3 as [->|(i & c & Hi & Hs & ->)]; [|right; exists i, c; done].
    destruct Hc as [E|(n & Hn & Hcand & E)]; [left; exact E|right]. exists (length normal - n)%nat.
    unfold candidate in Hcand. destruct (normal !! _) as [c|]; [|done]. exists c.
    destruct (w !! n); [|done]. apply andb_prop in Hcand as [[Hs _]%andb_prop _]. by split_and!.
Qed.

(** ** Engines as units *)

Section EngineUnits.
Context (lower_rune : bytes -> bytes) {regexp : Type} (FindAll : regexp -> bytes -> list (Z * Z)).
Context (lower_wf : forall r, well_formed r = true -> well_formed (lower_rune r) = true).
Context (e : KeywordEngine (regexp := regexp)) (no_regex : useRegex e = false).

Definition nu (u : bytes) : bytes := if caseSensitive e then u else lower_rune u.

Definition chunks (s : bytes) : list bytes := if caseSensitive e then map (fun c => [c]) s else split_runes s.

Definition aligned (s : bytes) : Prop := caseSensitive e = true \/ ValidString s = true.

Definition keys_of : list bytes := omap (word_key lower_rune e) (blocklist e).

Lemma concat_singletons (s : bytes) : concat (map (fun c => [c]) s) = s.
Proof. induction s as [|c s IH]; cbn; [done|]. by rewrite IH. Qed.

Lemma chunks_concat s : concat (chunks s) = s.
Proof. unfold chunks. destruct (caseSensitive e); [apply concat_singletons|apply runes_concat]. Qed.

Lemma chunks_app s t : aligned s -> chunks (s ++ t) = chunks s ++ chunks t.
Proof.
  unfold chunks, aligned. destruct (caseSensitive e); [intros _; apply map_app|].
  intros [?|Hv]; [done|]. by apply runes_app.
Qed.

Lemma well_formed_nonempty r : well_formed r = true -> r <> [].
Proof. unfold well_formed. by destruct r. Qed.

Lemma chunks_ok s : aligned s -> Forall (unit_ok nu) (chunks s).
Proof.
  unfold aligned, chunks, unit_ok, nu. destruct (caseSensitive e).
  - intros _. apply Forall_map, Forall_true. by intros c.
  - intros [?|Hv]; [done|]. unfold ValidString in Hv. rewrite forallb_forall in Hv. apply List.Forall_forall.
    intros r Hr. specialize (Hv r Hr). split; auto using well_formed_nonempty.
Qed.

Lemma pos_singletons s i : (i <= length s)%nat -> pos (fun u => u) (map (fun c => [c]) s) i = i.
Proof.
  revert i. induction s as [|c s IH]; intros i Hi; cbn [map pos length] in *; [lia|].
  destruct (Nat.ltb_spec i 1); [lia|]. rewrite IH by lia. lia.
Qed.

Lemma norm_runes_spec rs off :
  norm_runes lower_rune off rs
  = (norm lower_rune rs, map (fun i => (off + pos lower_rune rs i)%nat) (seq 0 (length (norm lower_rune rs)))).
Proof.
  revert off. induction rs as [|r rs IH]; intros off; cbn [norm_runes]; [done|]. rewrite IH.
  change (norm lower_rune (r :: rs)) with (lower_rune r ++ norm lower_rune rs). f_equal.
  rewrite length_app, seq_app, map_app. f_equal.
  - apply list_eq. intros i. rewrite list_lookup_fmap. destruct (decide (i < length (lower_rune r))%nat) as [Hi|Hi].
    + rewrite lookup_replicate_2, lookup_seq_lt by done. cbn [fmap option_fmap option_map pos]. 
      rewrite Nat.add_0_l, (proj2 (Nat.ltb_lt _ _) Hi). f_equal. lia.
    + rewrite !lookup_ge_None_2 by (rewrite ?length_replicate, ?length_seq; lia). done.
  - pose proof (fmap_add_seq (length (lower_rune r)) 0 (length (norm lower_rune rs))) as Hs.
    rewrite Nat.add_0_r in Hs. rewrite Nat.add_0_l, <- Hs. rewrite <- list_fmap_compose. apply map_ext.
    intros i. unfold compose. cbn [pos].
    destruct (Nat.ltb_spec (length (lower_rune r) + i) (length (lower_rune r))); [lia|].
    replace (length (lower_rune r) + i - length (lower_rune r))%nat with i by lia. lia.
Qed.

(** [normalizedText] is the text of the units and their offsets. *)
Lemma normalizedText_units s :
  exists positions, normalizedText lower_rune e s = (norm nu (chunks s), positions)
    /\ forall i, (i <= length (norm nu (chunks s)))%nat -> at_position positions i = pos nu (chunks s) i.
Proof.
  unfold normalizedText, chunks. destruct (caseSensitive e) eqn:Ecs.
  - assert (Hnu : forall u, nu u = u) by (intros u; unfold nu; by rewrite Ecs).
    exists None. rewrite (norm_ext _ (fun u => u) _ Hnu). unfold norm. rewrite map_id, concat_singletons. split; [done|].
    intros i Hi. by rewrite (pos_ext _ (fun u => u) _ _ Hnu), pos_singletons.
  - assert (Hnu : forall u, nu u = lower_rune u) by (intros u; unfold nu; by rewrite Ecs).
    rewrite norm_runes_spec, (norm_ext _ _ _ Hnu). eexists. split; [done|]. intros i Hi. cbn [at_position].
    rewrite (pos_ext _ _ _ _ Hnu). destruct (decide (i = length (norm lower_rune (split_runes s)))) as [->|Hne].
    + rewrite lookup_app_r; rewrite length_map, length_seq; [|lia]. rewrite Nat.sub_diag. cbn.
      by rewrite pos_end, runes_concat.
    + rewrite lookup_app_l by (rewrite length_map, length_seq; lia).
      rewrite list_lookup_fmap, lookup_seq_lt by lia. done.
Qed.

Lemma word_key_nonempty w k : word_key lower_rune e w = Some k -> k <> [].
Proof.
  unfold word_key. cbv zeta. destruct (if caseSensitive e then _ else _) as [|c l]; [done|].
  case_bool_decide; [done|]. by intros [= <-].
Qed.

Lemma keys_nonempty k : k ∈ keys_of -> k <> [].
Proof. unfold keys_of. rewrite list_elem_of_omap. intros (w & _ & H). by eapply word_key_nonempty. Qed.

Lemma match_in_range k text i : k ∈ keys_of -> In i (word_matches k text) -> (i + length k <= length text)%nat.
Proof.
  intros Hk Hi. unfold word_matches in Hi. apply filter_In in Hi as [_ Hi]. apply match_at_bound; [by apply keys_nonempty|done].
Qed.

(** [matchSpans] merges the spans of the units. *)
Lemma matchSpans_units s : fst (matchSpans lower_rune FindAll e s) = composeSpans (all_spans nu keys_of (chunks s)).
Proof.
  unfold matchSpans. rewrite no_regex. destruct (normalizedText_units s) as (positions & -> & Hp). cbn [fst]. f_equal.
  rewrite map_map. cbn [snd]. unfold all_spans.
  assert (Hw : forall k, k ∈ keys_of -> word_spans (norm nu (chunks s)) positions k = key_spans nu (chunks s) k).
  { intros k Hk. unfold word_spans, key_spans. rewrite occurrences_matches by (by apply keys_nonempty).
    apply map_ext_in. intros i Hi. pose proof (match_in_range k _ i Hk Hi). unfold span_at, plain. cbn [fst snd].
    by rewrite !Hp by lia. }
  clear -Hw. unfold keys_of in *. induction (blocklist e) as [|w ws IH]; cbn [map concat omap list_omap]; [done|].
  destruct (word_key lower_rune e w) as [k|] eqn:Ek.
  - cbn [map concat]. rewrite Hw, IH; [done| |cbn; rewrite Ek; left].
    intros k' Hk'. apply Hw. cbn. rewrite Ek. by right.
  - apply IH. intros k' Hk'. apply Hw. cbn. by rewrite Ek.
Qed.

(** *** Words that start at a rune *)

Definition starts_rune (k : bytes) : Prop := match k with c :: _ => RuneStart c = true | [] => False end.

Lemma well_formed_start r : well_formed r = true -> starts_rune r.
Proof. unfold well_formed. rewrite bool_decide_eq_true. destruct r as [|c r]; [done|]. apply rune_len_start. Qed.

Lemma starts_app a b : starts_rune a -> starts_rune (a ++ b).
Proof. by destruct a. Qed.

Lemma lowered_start s : ValidString s = true -> s <> [] -> starts_rune (toLower lower_rune s).
Proof.
  unfold ValidString, toLower. destruct s as [|c s]; [done|]. rewrite runes_cons. cbn [forallb map concat].
  intros [H _]%andb_prop _. by apply starts_app, well_formed_start, lower_wf.
Qed.

Lemma norm_start s : ValidString s = true -> s <> [] -> starts_rune (norm nu (chunks s)).
Proof.
  intros Hv Hne. unfold norm, chunks, nu. destruct (caseSensitive e).
  - rewrite map_id, concat_singletons. destruct s; [done|]. by eapply valid_start.
  - by apply lowered_start.
Qed.

Definition valid_words : Prop := Forall (fun w => ValidString w = true) (blocklist e).

Lemma keys_start k : valid_words -> k ∈ keys_of -> starts_rune k.
Proof.
  unfold keys_of. rewrite list_elem_of_omap. intros Hv (w & Hw & Hk). unfold valid_words in Hv.
  rewrite Forall_forall in Hv. specialize (Hv w Hw). pose proof (word_key_nonempty w k Hk) as Hne.
  assert (k = if caseSensitive e then w else toLower lower_rune w) as ->.
  { revert Hk. unfold word_key. cbv zeta. destruct (if caseSensitive e then _ else _) as [|c l]; [done|].
    case_bool_decide; [done|]. by intros [= <-]. }
  destruct (caseSensitive e).
  - destruct w; [done|]. by eapply valid_start.
  - apply lowered_start; [done|]. by intros ->.
Qed.

(** *** A match that runs past the text is a candidate *)

Lemma straddle_candidate k nt nr i :
  starts_rune k -> starts_rune nr -> (i < length nt)%nat -> (length nt < i + length k)%nat ->
  match_at k (nt ++ nr) i = true ->
  (length nt - i)%nat ∈ candidate_sizes nt k /\ candidate nt k (length nt - i) = true.
Proof.
  intros Hk Hr Hi Hlen Hm. unfold match_at in Hm. rewrite bool_decide_eq_true in Hm.
  rewrite drop_app_le in Hm by lia. rewrite take_app_ge in Hm by (rewrite length_drop; lia).
  rewrite length_drop in Hm. set (n := (length nt - i)%nat) in *. set (m := (length k - n)%nat) in *.
  split.
  { unfold candidate_sizes. apply list_elem_of_In, in_seq. lia. }
  unfold candidate. replace (length nt - n)%nat with i by lia.
  assert (Hdl : length (drop i nt) = n) by (rewrite length_drop; lia).
  destruct (nt !! i) as [a|] eqn:Ea; [|apply lookup_ge_None in Ea; lia].
  assert (Ek : k !! n = head nr).
  { rewrite <- Hm, lookup_app_r, Hdl, Nat.sub_diag by lia. destruct m eqn:Em; [lia|]. by destruct nr. }
  destruct nr as [|b nr]; [done|]. cbn [head] in Ek. rewrite Ek.
  assert (Ha : RuneStart a = true).
  { rewrite <- Hm in Hk. destruct (drop i nt) as [|a' l] eqn:Ed; [cbn in Hdl; lia|]. cbn in Hk.
    apply (f_equal (lookup 0%nat)) in Ed. rewrite lookup_drop, Nat.add_0_r, Ea in Ed. cbn in Ed. by injection Ed as ->. }
  rewrite Ha, Hr. cbn [andb]. apply bool_decide_eq_true. rewrite <- Hm. by rewrite take_app_length'.
Qed.

(** *** What a release leaves behind *)

Lemma norm_nil : norm nu (chunks []) = [].
Proof. unfold norm, chunks. by destruct (caseSensitive e). Qed.

Lemma spans_below_text ta tb rest :
  valid_words -> ValidString rest = true -> Forall (unit_ok nu) (ta ++ tb) ->
  (rest = [] \/ forall k n, k ∈ keys_of -> n ∈ candidate_sizes (norm nu (ta ++ tb)) k ->
     candidate (norm nu (ta ++ tb)) k n = true ->
     (length (concat ta) <= pos nu (ta ++ tb) (length (norm nu (ta ++ tb)) - n))%nat) ->
  spans_below nu keys_of (length (norm nu ta)) ((ta ++ tb) ++ chunks rest)
  = spans_below nu keys_of (length (norm nu ta)) (ta ++ tb).
Proof.
  intros Hw Hv Hok Hcand. unfold spans_below. f_equal. apply map_ext_in. intros k Hk%list_elem_of_In.
  assert (Hrest : Forall (unit_ok nu) (chunks rest)) by (apply chunks_ok; by right).
  assert (Hta : Forall (unit_ok nu) ta) by (by apply Forall_app in Hok as [? _]).
  set (us := ta ++ tb) in *. unfold key_spans_below.
  assert (Hlen : (length (norm nu ta) <= length (norm nu us))%nat) by (subst us; rewrite norm_app, length_app; lia).
  assert (Hm : forall i, In i (seq 0 (length (norm nu ta))) ->
    match_at k (norm nu (us ++ chunks rest)) i = match_at k (norm nu us) i).
  { intros i Hi%in_seq. rewrite norm_app. destruct (Nat.le_gt_cases (i + length k) (length (norm nu us))) as [Hle|Hgt].
    { by apply match_at_app_l. }
    assert (Hf : match_at k (norm nu us) i = false).
    { destruct (match_at k (norm nu us) i) eqn:E; [|done]. apply match_at_bound in E; [lia|by apply keys_nonempty]. }
    rewrite Hf. destruct (match_at k (norm nu us ++ _) i) eqn:E; [exfalso|done].
    destruct (decide (rest = [])) as [->|Hne]; [rewrite norm_nil, app_nil_r in E; congruence|].
    destruct Hcand as [->|Hcand]; [done|].
    destruct (straddle_candidate k (norm nu us) (norm nu (chunks rest)) i) as [Hs Hc];
      [by apply keys_start|by apply norm_start|lia|lia|done|].
    specialize (Hcand k _ Hk Hs Hc). replace (length (norm nu us) - (length (norm nu us) - i))%nat with i in Hcand by lia.
    subst us. pose proof (proj2 (pos_before nu ta tb i Hta) ltac:(lia)). lia. }
  rewrite (List.filter_ext_in _ _ _ Hm). apply map_ext_in. intros i Hi.
  apply filter_In in Hi as [Hi Hma]. apply in_seq in Hi.
  apply match_at_bound in Hma; [|by apply keys_nonempty]. unfold span_at. by rewrite !pos_app_le by (auto; lia).
Qed.

Lemma span_ok_false sp : span_ok sp = false -> 0 <= Start sp -> Stop sp <= Start sp.
Proof. unfold span_ok. lia. Qed.

(** Spans below a position that no merged span crosses end by it. *)
Lemma below_ends ta tb :
  Forall (unit_ok nu) ta ->
  (forall c, c ∈ composeSpans (all_spans nu keys_of (ta ++ tb)) ->
     ~ (Start c < Z.of_nat (length (concat ta)) < Stop c)) ->
  Forall (ends_by (Z.of_nat (length (concat ta)))) (spans_below nu keys_of (length (norm nu ta)) (ta ++ tb)).
Proof.
  intros Hta Hno. apply List.Forall_forall. intros sp Hsp. unfold ends_by.
  assert (Hin : sp ∈ all_spans nu keys_of (ta ++ tb)).
  { rewrite all_spans_split. apply elem_of_app. left. by apply list_elem_of_In. }
  assert (Hst : 0 <= Start sp < Z.of_nat (length (concat ta))).
  { unfold spans_below in Hsp. apply in_concat in Hsp as (l & Hl & Hsp). apply in_map_iff in Hl as (k & <- & Hk).
    apply in_map_iff in Hsp as (i & <- & Hi). apply filter_In in Hi as [Hi _]. apply in_seq in Hi. cbn.
    pose proof (proj2 (pos_before nu ta tb i Hta) ltac:(lia)). lia. }
  destruct (span_ok sp) eqn:Hok; [|pose proof (span_ok_false sp Hok ltac:(lia)); lia].
  destruct (compose_covers _ sp Hin Hok) as (c & Hc & Hcov). specialize (Hno c Hc). unfold covers in Hcov. lia.
Qed.

Lemma shifted_from r l : 0 <= r -> Forall (fun sp => 0 <= Start sp) l -> Forall (starts_from r) (map (shift r) l).
Proof. intros Hr Hl. apply Forall_map. eapply Forall_impl; [exact Hl|]. intros sp H. unfold compose, starts_from, shift in *. cbn in *. lia. Qed.

Lemma shifted_plain r l : Forall (is_plain redacted) l -> Forall (is_plain redacted) (map (shift r) l).
Proof. intros Hl. apply Forall_map. eapply Forall_impl; [exact Hl|]. by intros [] []. Qed.

(** The merge of a text splits at a boundary that no merged span crosses. *)
Lemma compose_at_boundary ta tb (below : list Span) :
  spans_below nu keys_of (length (norm nu ta)) (ta ++ tb) = below ->
  Forall (ends_by (Z.of_nat (length (concat ta)))) below ->
  composeSpans (all_spans nu keys_of (ta ++ tb))
  = composeSpans below ++ map (shift (Z.of_nat (length (concat ta)))) (composeSpans (all_spans nu keys_of tb)).
Proof.
  intros <- Hb. set (r := Z.of_nat (length (concat ta))) in *.
  rewrite (compose_perm redacted _ _ (all_spans_plain nu keys_of (ta ++ tb)) (all_spans_split nu keys_of ta tb)).
  fold r. rewrite (compose_split redacted r), compose_shift; try done; try lia;
    auto using spans_below_plain, shifted_plain, all_spans_plain, all_spans_nonneg.
  apply shifted_from; [lia|apply all_spans_nonneg].
Qed.

Lemma filter_all_true {A} (f : A -> bool) l : Forall (fun x => f x = true) l -> List.filter f l = l.
Proof. induction 1 as [|x l H _ IH]; cbn; [done|]. by rewrite H, IH. Qed.

Lemma emitted_below ta tb :
  Forall (ends_by (Z.of_nat (length (concat ta)))) (spans_below nu keys_of (length (norm nu ta)) (ta ++ tb)) ->
  List.filter (fun sp => Stop sp <=? Z.of_nat (length (concat ta))) (composeSpans (all_spans nu keys_of (ta ++ tb)))
  = composeSpans (spans_below nu keys_of (length (norm nu ta)) (ta ++ tb)).
Proof.
  intros Hb. set (r := Z.of_nat (length (concat ta))) in *. rewrite (compose_at_boundary ta tb _ eq_refl Hb). fold r.
  rewrite List.filter_app, (filter_all_true _ (composeSpans (spans_below _ _ _ _))), filter_all_false, app_nil_r; [done| |].
  - intros sp Hsp. apply in_map_iff in Hsp as (c & <- & Hc).
    assert (Ha : Forall (starts_from 0) (all_spans nu keys_of tb)) by apply all_spans_nonneg.
    apply compose_after in Ha. rewrite List.Forall_forall in Ha. specialize (Ha c Hc). cbn. apply Z.leb_gt. lia.
  - eapply Forall_impl; [apply compose_before, Hb|]. intros sp H. unfold ends_by in H. by apply Z.leb_le.
Qed.

Lemma chunks_suffix text ta tb :
  aligned text -> chunks text = ta ++ tb -> chunks (concat tb) = tb /\ aligned (concat tb).
Proof.
  unfold aligned, chunks. destruct (caseSensitive e); intros Hal H.
  - split; [|by left]. apply map_eq_app in H as (a & b & -> & <- & <-). by rewrite concat_singletons.
  - destruct Hal as [?|Hv]; [done|]. apply valid_well_formed in Hv. rewrite H in Hv. apply Forall_app in Hv as [_ Hv].
    split; [by apply runes_of_well_formed|right]. by apply valid_concat.
Qed.

Definition release_of (text : bytes) (final : bool) : Z :=
  hold_spans (composeSpans (all_spans nu keys_of (chunks text)))
    (if final then Z.of_nat (length text)
     else let '(normal, positions) := normalizedText lower_rune e text in
          hold_back normal positions keys_of (Z.of_nat (length text))).

(** The release position is a unit boundary below every candidate and every crossing span. *)
Lemma release_boundary text final :
  aligned text ->
  exists ta tb, chunks text = ta ++ tb /\ release_of text final = Z.of_nat (length (concat ta))
    /\ (forall c, c ∈ composeSpans (all_spans nu keys_of (chunks text)) ->
           ~ (Start c < release_of text final < Stop c))
    /\ (final = true \/ forall k n, k ∈ keys_of -> n ∈ candidate_sizes (norm nu (chunks text)) k ->
           candidate (norm nu (chunks text)) k n = true ->
           (length (concat ta) <= pos nu (chunks text) (length (norm nu (chunks text)) - n))%nat).
Proof.
  intros Hal. unfold release_of. destruct (normalizedText_units text) as (positions & -> & Hp).
  set (r0 := if final then _ else _).
  assert (Hr0 : (exists i, (i <= length (norm nu (chunks text)))%nat /\ r0 = Z.of_nat (pos nu (chunks text) i))
    /\ (final = true \/ forall k n, k ∈ keys_of -> n ∈ candidate_sizes (norm nu (chunks text)) k ->
           candidate (norm nu (chunks text)) k n = true ->
           r0 <= Z.of_nat (pos nu (chunks text) (length (norm nu (chunks text)) - n)))).
  { assert (Hend : Z.of_nat (length text) = Z.of_nat (pos nu (chunks text) (length (norm nu (chunks text))))).
    { by rewrite pos_end, chunks_concat. }
    subst r0. destruct final; [split; [eauto|by left]|].
    destruct (hold_back_spec (norm nu (chunks text)) positions keys_of (Z.of_nat (length text))) as (_ & H2 & H3).
    split.
    - destruct H3 as [->|(i & c & Hi%lookup_lt_Some & _ & ->)]; [eauto|]. exists i. split; [lia|]. by rewrite Hp by lia.
    - right. intros k n Hk Hn Hc. specialize (H2 k n Hk Hn Hc). by rewrite Hp in H2 by lia. }
  destruct Hr0 as [(i0 & Hi0 & Hr0) Hcand].
  destruct (hold_spans_spec (all_spans nu keys_of (chunks text)) r0) as (Hle & Hno & Hst).
  assert (Hb : exists i, hold_spans (composeSpans (all_spans nu keys_of (chunks text))) r0 = Z.of_nat (pos nu (chunks text) i)).
  { destruct Hst as [->|(sp & Hsp & <-)]; [eauto|]. apply list_elem_of_In in Hsp. unfold all_spans in Hsp.
    apply in_concat in Hsp as (l & Hl & Hsp). apply in_map_iff in Hl as (k & <- & Hk).
    apply in_map_iff in Hsp as (i & <- & Hi). by exists i. }
  destruct Hb as (i & Hi). destruct (pos_boundary nu (chunks text) i) as (ta & tb & E & Hpos).
  exists ta, tb. split; [done|]. split; [by rewrite Hi, Hpos|]. split; [done|].
  destruct Hcand as [->|Hcand]; [by left|right]. intros k n Hk Hn Hc. specialize (Hcand k n Hk Hn Hc). lia.
Qed.

(** One release: the spans of the text and whatever follows are the spans released now and the
    spans of what is kept and whatever follows. *)
Lemma release_step text rest final :
  valid_words -> aligned text -> ValidString rest = true -> (final = true -> rest = []) ->
  let r := release_of text final in
  0 <= r <= Z.of_nat (length text) /\ aligned (drop (Z.to_nat r) text) /\
  composeSpans (all_spans nu keys_of (chunks (text ++ rest)))
  = List.filter (fun sp => Stop sp <=? r) (composeSpans (all_spans nu keys_of (chunks text)))
    ++ map (shift r) (composeSpans (all_spans nu keys_of (chunks (drop (Z.to_nat r) text ++ rest)))).
Proof.
  intros Hw Hal Hv Hfin. cbv zeta. destruct (release_boundary text final Hal) as (ta & tb & E & Hr & Hno & Hcand).
  pose proof (chunks_ok text Hal) as Hok. rewrite E in *. rewrite Hr in *.
  assert (Ht : text = concat ta ++ concat tb) by (by rewrite <- concat_app, <- E, chunks_concat).
  assert (Hd : drop (Z.to_nat (Z.of_nat (length (concat ta)))) text = concat tb).
  { rewrite Ht at 1. by rewrite Nat2Z.id, drop_app_length. }
  destruct (chunks_suffix text ta tb Hal E) as [Hs1 Hs2].
  rewrite Hd. split; [rewrite Ht, length_app; lia|]. split; [done|].
  rewrite !chunks_app, E, Hs1 by done. rewrite <- app_assoc.
  assert (Hta : Forall (unit_ok nu) ta) by (by apply Forall_app in Hok as [? _]).
  assert (Hbelow : spans_below nu keys_of (length (norm nu ta)) (ta ++ tb ++ chunks rest)
                   = spans_below nu keys_of (length (norm nu ta)) (ta ++ tb)).
  { rewrite app_assoc. apply spans_below_text; [done|done|done|]. destruct Hcand as [H|H]; [left; auto|right; exact H]. }
  pose proof (below_ends ta tb Hta Hno) as Hends.
  rewrite (compose_at_boundary ta (tb ++ chunks rest) _ Hbelow Hends), (emitted_below ta tb Hends). done.
Qed.

(** ** Sessions *)

(** A session fed with fragments; a rejected fragment changes nothing. *)
Fixpoint run_keyword (s : keywordStream (regexp := regexp)) (fs : list StreamFragment) : list (option StreamVerdict) * keywordStream (regexp := regexp) :=
  match fs with
  | [] => ([], s)
  | f :: fs =>
      match Keyword_Push lower_rune FindAll s false f with
      | inl _ => let '(vs, s) := run_keyword s fs in (None :: vs, s)
      | inr (v, s) => let '(vs, s) := run_keyword s fs in (Some v :: vs, s)
      end
  end.

Definition of_key (k : string) (f : StreamFragment) : bool := String.eqb (Key f) k.

(** The text of a field and the spans reported for it. *)
Definition field_text (k : string) (fs : list StreamFragment) : bytes := concat (map Text (List.filter (of_key k) fs)).

Fixpoint field_spans (k : string) (fs : list StreamFragment) (vs : list (option StreamVerdict)) : list Span :=
  match fs, vs with
  | f :: fs, v :: vs =>
      (if of_key k f then match v with Some v => VSpans v | None => [] end else []) ++ field_spans k fs vs
  | _, _ => []
  end.

(** The position up to which a field was released last. *)
Fixpoint released (r : Z) (k : string) (fs : list StreamFragment) (vs : list (option StreamVerdict)) : Z :=
  match fs, vs with
  | f :: fs, v :: vs =>
      released (if of_key k f then match v with Some v => ReleaseThrough v | None => r end else r) k fs vs
  | _, _ => r
  end.

(** The fragments of a field that is still open. *)
Definition open_field (k : string) (fs : list StreamFragment) : Prop :=
  Forall (fun f => of_key k f = true -> ValidString (Text f) = true /\ Final f = false) fs.

(** The state of field [k]: the text kept and the position it starts at. *)
Definition field_at (k : string) (s : keywordStream (regexp := regexp)) : keywordStreamField :=
  default (mkField [] 0 false) (fields s !! k).

Definition field_base (fd : keywordStreamField) : Z := Z.of_nat (kwBytes fd) - Z.of_nat (length (tail fd)).

Record kw_session (s : keywordStream (regexp := regexp)) : Prop := mkKwSession {
  ss_engine : engine s = e; ss_words : words s = keys_of; ss_open : closed s = false
}.

Definition spans_of (text : bytes) : list Span := composeSpans (all_spans nu keys_of (chunks text)).

(** A push on the field, when it is accepted. *)
Lemma push_field s f :
  kw_session s -> ValidString (Text f) = true -> kwFinal (field_at (Key f) s) = false ->
  let fd := field_at (Key f) s in
  let text := tail fd ++ Text f in
  let r := release_of text (Final f) in
  exists v s', Keyword_Push lower_rune FindAll s false f = inr (v, s') /\ kw_session s'
    /\ VSpans v = map (shift (field_base fd)) (List.filter (fun sp => Stop sp <=? r) (spans_of text))
    /\ ReleaseThrough v = field_base fd + r /\ CheckedThrough v = Z.of_nat (kwBytes fd + length (Text f))
    /\ field_at (Key f) s' = mkField (drop (Z.to_nat r) text) (kwBytes fd + length (Text f)) (Final f)
    /\ (forall k, k <> Key f -> field_at k s' = field_at k s)
    /\ (Result v = None <-> spans_of text = [])
    /\ BlockStart v = match spans_of text with sp :: _ => Some (field_base fd + Start sp) | [] => None end.
Proof.
  intros [He Hw Ho] Hv Hfin. cbv zeta. unfold Keyword_Push. rewrite Ho, Hv. cbn [negb].
  fold (field_at (Key f) s). rewrite Hfin. rewrite He, Hw. set (text := tail _ ++ Text f).
  pose proof (matchSpans_units text) as Hm. fold (spans_of text) in Hm.
  destruct (matchSpans lower_rune FindAll e text) as [spans reason]. cbn [fst] in Hm. subst spans.
  unfold release_of. fold (spans_of text).
  set (r := hold_spans _ _). eexists _, _. split; [reflexivity|].
  assert (Hdef : forall s', field_at (Key f) (mkStream e (<[Key f := s']> (fields s)) keys_of (closed s)) = s').
  { intros s'. unfold field_at. cbn [fields]. by rewrite lookup_insert_eq. }
  split; [by split|]. split; [by destruct (spans_of text)|]. split; [by destruct (spans_of text)|].
  split; [by destruct (spans_of text)|]. split; [by rewrite <- He, <- Hw in Hdef |- *; rewrite ?He, ?Hw; apply Hdef|].
  split; [|by destruct (spans_of text)].
  intros k Hk. unfold field_at. cbn [fields]. by rewrite lookup_insert_ne.
Qed.

Lemma push_other s f k :
  of_key k f = false ->
  match Keyword_Push lower_rune FindAll s false f with
  | inl _ => True
  | inr (_, s') => field_at k s' = field_at k s /\ engine s' = engine s /\ words s' = words s /\ closed s' = closed s
  end.
Proof.
  intros Hk. unfold of_key in Hk. apply String.eqb_neq in Hk. unfold Keyword_Push.
  repeat case_match; simplify_eq; try done; unfold field_at; cbn [fields engine words closed]; by rewrite lookup_insert_ne.
Qed.

Lemma spans_of_after text : Forall (fun sp => 0 <= Start sp /\ Start sp < Stop sp) (spans_of text).
Proof. apply (compose_after 0). apply all_spans_nonneg. Qed.

Lemma map_shift_shift a b l : map (shift a) (map (shift b) l) = map (shift (a + b)) l.
Proof. rewrite map_map. apply map_ext. intros []. unfold shift. cbn. f_equal; lia. Qed.

(** What a field reported and kept after some fragments, whatever text [rest] follows: the spans
    of its complete text are those reported, all before the kept text, and those still to come. *)
Lemma run_open k fs s rest :
  valid_words -> kw_session s -> open_field k fs -> ValidString rest = true ->
  let fd := field_at k s in
  kwFinal fd = false -> aligned (tail fd) -> 0 <= field_base fd ->
  let '(vs, s') := run_keyword s fs in
  let fd' := field_at k s' in
  kw_session s' /\ kwFinal fd' = false /\ aligned (tail fd') /\ field_base fd <= field_base fd'
  /\ map (shift (field_base fd)) (spans_of (tail fd ++ field_text k fs ++ rest))
     = field_spans k fs vs ++ map (shift (field_base fd')) (spans_of (tail fd' ++ rest))
  /\ Forall (fun sp => Stop sp <= field_base fd') (field_spans k fs vs)
  /\ field_base fd' = released (field_base fd) k fs vs
  /\ kwBytes fd' = (kwBytes fd + length (field_text k fs))%nat.
Proof.
  intros Hw Hs Hop Hrest. revert s Hs. induction Hop as [|f fs Hf Hop IH]; intros s Hs; cbv zeta; cbn [run_keyword].
  { intros Hfin Hal Hb. cbn. split_and!; try done; lia. }
  intros Hfin Hal Hb. destruct (of_key k f) eqn:Ek.
  - pose proof Ek as Ekk. unfold of_key in Ekk. apply String.eqb_eq in Ekk. destruct (Hf eq_refl) as [Hvf Hff].
    rewrite <- Ekk in Hfin, Hal, Hb. destruct (push_field s f Hs Hvf Hfin) as (v & s1 & -> & Hs1 & Hsp & Hrel & _ & Hfd & _ & _).
    rewrite Ekk in *. set (fd := field_at k s) in *. set (text := tail fd ++ Text f) in *.
    assert (Hvr : ValidString (field_text k fs ++ rest) = true).
    { clear -Hop Hrest. unfold field_text. induction Hop as [|g fs Hg Hop IHo]; [done|]. cbn [List.filter].
      destruct (of_key k g) eqn:Eg; [|done]. cbn [map concat]. by rewrite <- app_assoc, valid_app by (by apply Hg). }
    assert (Halt : aligned text).
    { subst text. destruct Hal as [?|Hv]; [by left|]. destruct (caseSensitive e) eqn:Ecs; [by left|right]. by rewrite valid_app. }
    destruct (release_step text (field_text k fs ++ rest) (Final f) Hw Halt Hvr) as (Hr & Hal' & Hsplit); [congruence|].
    set (r := release_of text (Final f)) in *.
    assert (Hb1 : field_base (field_at k s1) = field_base fd + r).
    { rewrite Hfd. unfold field_base. cbn [kwBytes tail]. rewrite length_drop. subst text. rewrite length_app in *. lia. }
    specialize (IH s1 Hs1). cbv zeta in IH. rewrite Hfd in IH at 1 2. cbn [kwFinal tail] in IH.
    specialize (IH Hff Hal' ltac:(lia)). destruct (run_keyword s1 fs) as [vs s2] eqn:Er.
    destruct IH as (I1 & I2 & I3 & I4 & I5 & I6 & I7 & I8). rewrite Hb1 in I4, I5, I7.
    rewrite Hfd in I8. cbn [kwBytes] in I8. rewrite Hfd in I5 at 1. cbn [tail] in I5.
    cbn [field_spans released]. rewrite Ek, Hrel. split_and!; try done; [lia| | |].
    + unfold field_text at 1. cbn [List.filter]. rewrite Ek. cbn [map concat]. fold (field_text k fs).
      replace (tail fd ++ (Text f ++ field_text k fs) ++ rest) with (text ++ field_text k fs ++ rest)
        by (subst text; by rewrite <- !app_assoc).
      unfold spans_of at 1. rewrite Hsplit, map_app, map_shift_shift, Hsp, <- app_assoc. f_equal.
      exact I5.
    + apply Forall_app. split; [|done]. rewrite Hsp. apply List.Forall_forall. intros sp Hin.
      apply in_map_iff in Hin as (c & <- & Hc). apply filter_In in Hc as [_ Hc]. cbn. lia.
    + rewrite I8. unfold field_text at 2. cbn [List.filter]. rewrite Ek. cbn [map concat]. rewrite length_app.
      fold (field_text k fs). lia.
  - assert (Hft : field_text k (f :: fs) = field_text k fs) by (unfold field_text; cbn [List.filter]; by rewrite Ek).
    pose proof (push_other s f k Ek) as Ho. destruct (Keyword_Push lower_rune FindAll s false f) as [err|[v s1]].
    + specialize (IH s Hs Hfin Hal Hb). destruct (run_keyword s fs) as [vs s2]. cbn [field_spans released]. rewrite Ek. cbn [app].
      by rewrite Hft.
    + destruct Ho as (Hfd & He & Hwd & Hcl). assert (Hs1 : kw_session s1) by (destruct Hs; split; congruence).
      rewrite <- Hfd in Hfin, Hal, Hb. specialize (IH s1 Hs1 Hfin Hal Hb). rewrite Hfd in IH.
      destruct (run_keyword s1 fs) as [vs s2]. cbn [field_spans released]. rewrite Ek. cbn [app].
      by rewrite Hft.
Qed.

Lemma pos_le us i : (pos nu us i <= length (concat us))%nat.
Proof. destruct (pos_boundary nu us i) as (a & b & -> & ->). rewrite concat_app, length_app. lia. Qed.

Lemma spans_end text : Forall (ends_by (Z.of_nat (length text))) (spans_of text).
Proof.
  apply compose_before, Forall_concat, Forall_map, Forall_true. intros k. apply Forall_map, Forall_true. intros i.
  unfold compose, ends_by. cbn. pose proof (pos_le (chunks text) (i + length k)). rewrite chunks_concat in *. lia.
Qed.

(** Everything is released with the last fragment. *)
Lemma release_final text : release_of text true = Z.of_nat (length text).
Proof.
  unfold release_of, hold_spans.
  destruct (hold_spans_cases _ (Z.of_nat (length text)) (compose_disjoint (all_spans nu keys_of (chunks text))))
    as [[-> _]|(c & Hc & H & _)]; [done|].
  pose proof (spans_end text) as Hb. rewrite Forall_forall in Hb. apply (proj1 (in_rev_iff _ _)) in Hc.
  specialize (Hb c Hc). unfold ends_by in Hb. lia.
Qed.

Lemma filter_before_all text : List.filter (fun sp => Stop sp <=? Z.of_nat (length text)) (spans_of text) = spans_of text.
Proof. apply filter_all_true. eapply Forall_impl; [apply spans_end|]. intros sp H. unfold ends_by in H. by apply Z.leb_le. Qed.

Lemma shift_0 l : map (shift 0) l = l.
Proof. rewrite <- (map_id l) at 2. apply map_ext. intros []. unfold shift. cbn. f_equal; lia. Qed.

Lemma checked_spans content : MaskedSpans (Keyword_Check lower_rune FindAll e content) = spans_of content.
Proof.
  unfold Keyword_Check, spans_of. rewrite <- matchSpans_units. by destruct (matchSpans _ _ e content) as [[|sp spans] reason].
Qed.

Lemma new_session s : Keyword_NewStream lower_rune e false = inr s -> kw_session s /\ forall k, field_at k s = mkField [] 0 false.
Proof. unfold Keyword_NewStream. rewrite no_regex. intros [= <-]. split; [by split|done]. Qed.
End EngineUnits.

Section RunApp.
Context (lower_rune : bytes -> bytes) {regexp : Type} (FindAll : regexp -> bytes -> list (Z * Z)).

Lemma run_length s fs : length (fst (run_keyword lower_rune FindAll s fs)) = length fs.
Proof.
  revert s. induction fs as [|f fs IH]; intros s; cbn [run_keyword]; [done|].
  destruct (Keyword_Push _ _ s false f) as [|[v s1]]; [specialize (IH s)|specialize (IH s1)];
    destruct (run_keyword _ _ _ fs); cbn in *; by rewrite IH.
Qed.

Lemma run_app s fs gs :
  run_keyword lower_rune FindAll s (fs ++ gs)
  = let '(vs, s1) := run_keyword lower_rune FindAll s fs in
    let '(ws, s2) := run_keyword lower_rune FindAll s1 gs in (vs ++ ws, s2).
Proof.
  revert s. induction fs as [|g fs IH]; intros s; cbn [app run_keyword]; [by destruct (run_keyword _ _ s gs)|].
  destruct (Keyword_Push _ _ s false g) as [|[v s1]]; rewrite IH; destruct (run_keyword _ _ _ fs) as [vs s2];
    by destruct (run_keyword _ _ s2 gs).
Qed.
End RunApp.

Lemma field_spans_app k fs f vs v :
  length vs = length fs -> field_spans k (fs ++ [f]) (vs ++ [v]) = field_spans k fs vs ++ field_spans k [f] [v].
Proof.
  revert vs. induction fs as [|g fs IH]; intros [|w vs] Hl; try done. cbn [app field_spans].
  rewrite IH by (cbn in Hl; lia). cbn [field_spans]. by rewrite <- app_assoc.
Qed.

Lemma released_app r k fs f vs v :
  length vs = length fs -> released r k (fs ++ [f]) (vs ++ [v]) = released (released r k fs vs) k [f] [v].
Proof. revert r vs. induction fs as [|g fs IH]; intros r [|w vs] Hl; try done. cbn [app]. apply IH. cbn in Hl. lia. Qed.

Lemma field_text_app k fs f : field_text k (fs ++ [f]) = field_text k fs ++ (if of_key k f then Text f else []).
Proof.
  unfold field_text. rewrite List.filter_app, map_app, concat_app. f_equal. cbn. destruct (of_key k f); [apply app_nil_r|done].
Qed.

(** Nothing of a keyword is released unreported, whatever the client sends next: at any point of a
    stream, for every continuation of the field, the spans that the check of the complete text
    masks are the spans already reported, which end by the release position, followed by spans
    that start at or after it.  Fragments of other fields interleave freely. *)
Theorem keyword_release_is_safe lower_rune {regexp} (FindAll : regexp -> bytes -> list (Z * Z)) e s k fs rest :
  (forall r, well_formed r = true -> well_formed (lower_rune r) = true) ->
  Forall (fun w => ValidString w = true) (blocklist e) ->
  Keyword_NewStream lower_rune e false = inr s -> open_field k fs -> ValidString rest = true ->
  let vs := fst (run_keyword lower_rune FindAll s fs) in
  exists later,
    MaskedSpans (Keyword_Check lower_rune FindAll e (field_text k fs ++ rest)) = field_spans k fs vs ++ later
    /\ Forall (fun sp => Stop sp <= released 0 k fs vs) (field_spans k fs vs)
    /\ Forall (fun sp => released 0 k fs vs <= Start sp) later.
Proof.
  intros Hlow Hw Hnew Hop Hrest.
  assert (Hre : useRegex e = false) by (unfold Keyword_NewStream in Hnew; by destruct (useRegex e)).
  destruct (new_session lower_rune e Hre s Hnew) as [Hs Hfd]. cbv zeta.
  pose proof (run_open lower_rune FindAll Hlow e Hre k fs s rest Hw Hs Hop Hrest) as H. cbv zeta in H. rewrite Hfd in H.
  specialize (H eq_refl (or_intror eq_refl) ltac:(done)). destruct (run_keyword _ _ s fs) as [vs s'].
  destruct H as (_ & _ & _ & _ & Hsp & Hend & Hrel & _). cbn [tail app fst] in *. rewrite checked_spans by done.
  change (field_base (mkField [] 0 false)) with 0 in *. rewrite <- Hrel. eexists. split_and!; [|exact Hend|].
  - by rewrite <- Hsp, shift_0.
  - apply Forall_map. eapply Forall_impl; [apply spans_of_after|]. intros sp H. unfold compose, shift in *. cbn [Start] in *. destruct H. lia.
Qed.

Definition ascii_lower_rune (r : bytes) : bytes := match r with [c] => [ascii_lower c] | _ => r end.

Lemma ascii_lower_wf r : well_formed r = true -> well_formed (ascii_lower_rune r) = true.
Proof. destruct r as [|c [|d r]]; try done. cbn. destruct c as [[] [] [] [] [] [] [] []]; by vm_compute. Qed.

Definition no_regexp : unit -> bytes -> list (Z * Z) := fun _ _ => [].

Definition keyword_engine : KeywordEngine (regexp := unit) := mkKeyword [bytes_of "secret"; bytes_of "retry"] [] false false [].

Definition sample_session : keywordStream (regexp := unit) :=
  mkStream keyword_engine ∅ [bytes_of "secret"; bytes_of "retry"] false.

Definition sample_fragments : list StreamFragment :=
  [mkFragment "a" (bytes_of "my SEC") false false; mkFragment "b" (bytes_of "re") false false;
   mkFragment "a" (bytes_of "Ret") false false].

(** "my SECRet" is released up to the word under way, and "ry" completes a longer match. *)
Lemma keyword_release_is_safe_witness :
  let vs := fst (run_keyword ascii_lower_rune no_regexp sample_session sample_fragments) in
  released 0 "a" sample_fragments vs = 3 /\
  exists later,
    MaskedSpans (Keyword_Check ascii_lower_rune no_regexp keyword_engine (field_text "a" sample_fragments ++ bytes_of "ry!"))
    = field_spans "a" sample_fragments vs ++ later
    /\ Forall (fun sp => Stop sp <= released 0 "a" sample_fragments vs) (field_spans "a" sample_fragments vs)
    /\ Forall (fun sp => released 0 "a" sample_fragments vs <= Start sp) later.
Proof.
  cbv zeta. split; [vm_compute; reflexivity|].
  apply (keyword_release_is_safe ascii_lower_rune no_regexp keyword_engine sample_session "a" sample_fragments (bytes_of "ry!")).
  - exact ascii_lower_wf.
  - repeat constructor.
  - reflexivity.
  - repeat constructor; intros; by vm_compute.
  - reflexivity.
Defined.

(** C30: The complete check and the stream agree: when the last fragment of a field is pushed, the
    spans reported over all its fragments are exactly the spans that the check of its complete
    text masks, and the whole field is released. *)
Theorem keyword_stream_equals_check lower_rune {regexp} (FindAll : regexp -> bytes -> list (Z * Z)) e s k fs last :
  (forall r, well_formed r = true -> well_formed (lower_rune r) = true) ->
  Forall (fun w => ValidString w = true) (blocklist e) ->
  Keyword_NewStream lower_rune e false = inr s -> open_field k fs ->
  Key last = k -> ValidString (Text last) = true -> Final last = true ->
  let vs := fst (run_keyword lower_rune FindAll s (fs ++ [last])) in
  field_spans k (fs ++ [last]) vs
  = MaskedSpans (Keyword_Check lower_rune FindAll e (field_text k (fs ++ [last])))
  /\ released 0 k (fs ++ [last]) vs = Z.of_nat (length (field_text k (fs ++ [last]))).
Proof.
  intros Hlow Hw Hnew Hop <- Hv Hfin.
  assert (Hre : useRegex e = false) by (unfold Keyword_NewStream in Hnew; by destruct (useRegex e)).
  destruct (new_session lower_rune e Hre s Hnew) as [Hs Hfd]. cbv zeta.
  pose proof (run_open lower_rune FindAll Hlow e Hre (Key last) fs s (Text last) Hw Hs Hop Hv) as H.
  cbv zeta in H. rewrite Hfd in H. specialize (H eq_refl (or_intror eq_refl) ltac:(done)).
  pose proof (run_length lower_rune FindAll s fs) as Hlen. rewrite run_app, field_text_app.
  destruct (run_keyword _ _ s fs) as [vs s'] eqn:Er. cbn [fst] in Hlen.
  destruct H as (Hs' & Hf' & Hal & Hb & Hsp & _ & Hrel & Hby). cbn [run_keyword].
  destruct (push_field lower_rune FindAll e Hre s' last Hs' Hv Hf') as (v & s2 & -> & _ & Hvs & Hrt & _).
  cbn [fst]. rewrite field_spans_app, released_app by done. cbn [field_spans released]. unfold of_key.
  rewrite String.eqb_refl, app_nil_r, checked_spans, Hvs, Hrt, Hfin, release_final by done.
  rewrite filter_before_all. cbn [tail app] in Hsp. change (field_base (mkField [] 0 false)) with 0 in *.
  rewrite shift_0 in Hsp. split; [by rewrite <- Hsp|].
  unfold field_base. rewrite !length_app. cbn [kwBytes] in Hby. lia.
Qed.

Lemma keyword_stream_equals_check_witness :
  let fs := sample_fragments ++ [mkFragment "a" (bytes_of "ry!") true false] in
  let vs := fst (run_keyword ascii_lower_rune no_regexp sample_session fs) in
  field_spans "a" fs vs = [mkSpan 3 11 redacted false] /\ released 0 "a" fs vs = 12.
Proof.
  cbv zeta.
  destruct (keyword_stream_equals_check ascii_lower_rune no_regexp keyword_engine sample_session "a" sample_fragments
              (mkFragment "a" (bytes_of "ry!") true false)) as [-> ->].
  - exact ascii_lower_wf.
  - repeat constructor.
  - reflexivity.
  - repeat constructor; intros; by vm_compute.
  - reflexivity.
  - reflexivity.
  - reflexivity.
  - split; vm_compute; reflexivity.
Defined.
