(* ===== verification/ResponseStream.v ===== *)
(** * The response stream: [internal/guardrail/incremental.go], [incremental_masking.go]

    [ResponseStream] pins the response rules of one answer.  Every fragment of a
    field is pushed to the streaming session of every rule; the stream merges
    the verdicts into a release position, a set of masks and a block decision,
    and [Render] gives the masked text of a range.  A session is an instance of
    the class [StreamSession]; [ctx i] is the cancellation of the request as the
    [i]-th reader of it sees it (0 is [Push] itself, [i + 1] the session of rule
    [i]).  Metrics are left out, the audit events are the list [rsEvents]. *)

From S2P Require Import Prelude Utf8 Spans Keyword.

(** ** Rules and answers ([types.go]) *)

Record GuardrailRule := mkGuardRule {
  rID : Z; rOrgID : option Z; rName : string; rType : string; rDirection : string; rEnabled : bool;
  rConfig : string; rSeverity : string; rAction : string; rModelFilter : option string; rVersion : Z
}.

Record MatchedRule := mkMatched { mRuleID : Z; mVersion : Z; mAction : string }.

Record CheckResponse := mkResponse {
  crBlocked : bool; crRuleName : string; crReason : bytes; crMaskedContent : bytes; crAction : string;
  crMaskedSpans : list Span; crTruncated : bool; crMatched : list MatchedRule
}.

(** ** Actions *)

(** The member [action] of the marshalled result: [GuardrailResult] has none. *)
Definition result_action (r : GuardrailResult) : string := "".

Definition streamDecisionAction (action : string) (result : option GuardrailResult) (logOnly : bool) : string :=
  let action := if String.eqb action "" then "block" else action in
  let action :=
    match result with
    | Some r => if bool_decide (result_action r ∈ ["pass"; "log"; "block"; "review"]) then result_action r else action
    | None => action
    end in
  if logOnly && (String.eqb action "block" || String.eqb action "review") then "log" else action.

Definition effectiveStreamAction (action : string) (result : option GuardrailResult) (logOnly : bool) : string :=
  let action := streamDecisionAction action result logOnly in
  if String.eqb action "review" then "block" else action.

(** ** Offsets and masks *)

Definition rune_at (text : bytes) (n : Z) : bool :=
  match text !! Z.to_nat n with Some c => RuneStart c | None => false end.

Definition validStreamOffset (text : bytes) (n : Z) : bool :=
  (0 <=? n) && (n <=? Z.of_nat (length text)) && ((n =? Z.of_nat (length text)) || rune_at text n).

Definition validStreamSpan (text : bytes) (sp : Span) : bool :=
  (Start sp <? Stop sp) && validStreamOffset text (Start sp) && validStreamOffset text (Stop sp).

Definition stream_less (a b : Span) : bool :=
  if Start a =? Start b then Stop b <? Stop a else Start a <? Start b.

Definition stream_absorb (last sp : Span) : Span :=
  mkSpan (Start last) (if Stop last <? Stop sp then Stop sp else Stop last)
    (if negb (Start last =? Start sp) || negb (Stop last =? Stop sp) || negb (bool_decide (Replacement last = Replacement sp))
     then redacted else Replacement last)
    (Reversible last).

Definition stream_step (out : list Span) (sp : Span) : list Span :=
  match out with
  | last :: out' => if Start sp <? Stop last then stream_absorb last sp :: out' else sp :: out
  | [] => [sp]
  end.

Definition mergeStreamSpans (spans : list Span) : list Span :=
  rev (fold_left stream_step (stable_sort stream_less spans) []).

(** ** The stream *)

(** What the stream requires of a session: one verdict per fragment. *)
Class StreamSession (S : Type) := session_push : S -> bool -> StreamFragment -> S * (stream_error + StreamVerdict).

#[export] Instance keyword_session lower_rune {regexp} (FindAll : regexp -> bytes -> list (Z * Z)) :
    StreamSession (keywordStream (regexp := regexp)) :=
  fun s ctxErr f =>
    match Keyword_Push lower_rune FindAll s ctxErr f with
    | inl e => (s, inl e)
    | inr (v, s) => (s, inr v)
    end.

Inductive stream_event := Hit (rule : Z) (action : string) | Observed (rule : Z).

Record streamRule {S : Type} := mkStreamRule {
  rule : GuardrailRule; observationOnly : bool; session : option S;
  hit : bool; observed : bool; watermarks : gmap string Z; conservative : bool
}.
Arguments streamRule : clear implicits.

Record ResponseStream {S : Type} := mkResponseStream {
  rsMaxRunes : Z; rsRules : list (streamRule S); rsText : gmap string bytes; rsOrder : list string;
  rsReleased : gmap string Z; rsRunes : Z; rsClosed : bool; rsLogOnly : bool; rsMasks : gmap string (list Span);
  rsFinished : bool; rsEvents : list stream_event
}.
Arguments ResponseStream : clear implicits.

Inductive push_error :=
| StreamEnded | PushCtxDone | PushInvalidUtf8 | LimitExceeded | SessionError (e : stream_error)
| BadWatermark | BadViolation | BadSpan | MaskWithoutPosition.

Section Stream.
Context {S : Type} `{StreamSession S}.

(** [ResponseStream.action] *)
Definition rule_action (logOnly : bool) (r : GuardrailRule) : string :=
  if logOnly && negb (String.eqb (rAction r) "mask") then "log"
  else if String.eqb (rAction r) "" then "block" else rAction r.

Definition ruleEnforces (logOnly : bool) (sr : streamRule S) : bool :=
  if negb (conservative sr) then false
  else if observationOnly sr then false
  else if negb (String.eqb (rule_action logOnly (rule sr)) "log") then true
  else String.eqb (rType (rule sr)) "content_compliance" && negb logOnly.

Definition enforcing (action : string) : bool := negb (String.eqb action "log") && negb (String.eqb action "pass").

Definition streamBlock (sr : streamRule S) (result : option GuardrailResult) : CheckResponse :=
  let action := streamDecisionAction (rAction (rule sr)) result false in
  mkResponse true (rName (rule sr)) (bytes_of "policy_match") [] action [] false
    [mkMatched (rID (rule sr)) (rVersion (rule sr)) action].

Definition emit (logOnly : bool) (sr : streamRule S) (result : option GuardrailResult) (events : list stream_event)
    : streamRule S * list stream_event :=
  if hit sr then (sr, events)
  else (mkStreamRule _ (rule sr) (observationOnly sr) (session sr) true (observed sr) (watermarks sr) (conservative sr),
        events ++ [Hit (rID (rule sr)) (streamDecisionAction (rule_action logOnly (rule sr)) result logOnly)]).

Definition observe (sr : streamRule S) (events : list stream_event) : streamRule S * list stream_event :=
  if observed sr then (sr, events)
  else (mkStreamRule _ (rule sr) (observationOnly sr) (session sr) (hit sr) true (watermarks sr) (conservative sr),
        events ++ [Observed (rID (rule sr))]).

(** What the loop over the rules carries: the release position, the block answer, the masks of
    the field and the events. *)
Record push_acc := mkAcc {
  acRelease : Z; acBlocked : option CheckResponse; acMasks : list Span; acEvents : list stream_event
}.

Definition watermark (sr : streamRule S) (k : string) : Z := default 0 (watermarks sr !! k).

Definition set_session (sr : streamRule S) (s : S) : streamRule S :=
  mkStreamRule _ (rule sr) (observationOnly sr) (Some s) (hit sr) (observed sr) (watermarks sr) (conservative sr).

Definition set_watermark (sr : streamRule S) (k : string) (n : Z) : streamRule S :=
  mkStreamRule _ (rule sr) (observationOnly sr) (session sr) (hit sr) (observed sr) (<[k := n]> (watermarks sr)) (conservative sr).

Definition verdict_matched (v : StreamVerdict) : bool := match Result v with Some r => Blocked r | None => false end.

(** Where a block cuts the field. *)
Definition block_start (w : Z) (v : StreamVerdict) : Z :=
  match BlockStart v, VSpans v with
  | Some b, _ => b
  | None, sp :: _ => Start sp
  | None, [] => w
  end.

(** The watermark, position and span checks on a verdict; [released] is the position released so far. *)
Definition verdict_error (text : bytes) (released w : Z) (enf : bool) (v : StreamVerdict) : option push_error :=
  let len := Z.of_nat (length text) in
  if (CheckedThrough v <? ReleaseThrough v) || (len <? CheckedThrough v) || (ReleaseThrough v <? w) || (ReleaseThrough v <? 0)
     || ((ReleaseThrough v <? len) && negb (rune_at text (ReleaseThrough v)))
  then Some BadWatermark
  else if match BlockStart v with
          | Some b => (enf && (b <? released)) || negb (validStreamOffset text b)
          | None => false
          end
  then Some BadViolation
  else if existsb (fun sp => (enf && (Start sp <? released)) || negb (validStreamSpan text sp)) (VSpans v)
  then Some BadSpan
  else None.

(** The decision on a verdict that passed the checks. *)
Definition decide_verdict (logOnly : bool) (k : string) (action : string) (v : StreamVerdict) (sr : streamRule S) (acc : push_acc)
    : streamRule S * push_acc * option push_error :=
  let matched := verdict_matched v in
  if matched || negb (bool_decide (VSpans v = [])) then
    let '(sr, events) :=
      if (negb matched && negb (String.eqb action "mask")) || String.eqb action "pass"
      then observe sr (acEvents acc) else emit logOnly sr (Result v) (acEvents acc) in
    if String.eqb action "block" && matched then
      let start := block_start (watermark sr k) v in
      (sr, mkAcc (if start <? acRelease acc then start else acRelease acc)
             (match acBlocked acc with None => Some (streamBlock sr (Result v)) | b => b end) (acMasks acc) events, None)
    else if String.eqb action "mask" then
      match VSpans v with
      | _ :: _ => (sr, mkAcc (acRelease acc) (acBlocked acc) (mergeStreamSpans (acMasks acc ++ VSpans v)) events, None)
      | [] =>
          (sr, mkAcc (acRelease acc) (acBlocked acc) (acMasks acc) events,
           if matched && bool_decide (BlockStart v = None) then Some MaskWithoutPosition else None)
      end
    else (sr, mkAcc (acRelease acc) (acBlocked acc) (acMasks acc) events, None)
  else (sr, acc, None).

(** The body of the loop for one rule. *)
Definition push_rule (logOnly ctxErr : bool) (f : StreamFragment) (text : bytes) (released : Z) (sr : streamRule S) (acc : push_acc)
    : streamRule S * push_acc * option push_error :=
  match session sr with
  | None =>
      (sr, mkAcc (if ruleEnforces logOnly sr then 0 else acRelease acc) (acBlocked acc) (acMasks acc) (acEvents acc), None)
  | Some s =>
      let '(s, answer) := session_push s ctxErr f in
      let sr := set_session sr s in
      match answer with
      | inl e => (sr, acc, Some (SessionError e))
      | inr v =>
          let action := effectiveStreamAction (rule_action logOnly (rule sr)) (Result v) logOnly in
          match verdict_error text released (watermark sr (Key f)) (enforcing action) v with
          | Some e => (sr, acc, Some e)
          | None =>
              let '(sr, acc, err) := decide_verdict logOnly (Key f) action v sr acc in
              match err with
              | Some e => (sr, acc, Some e)
              | None =>
                  (set_watermark sr (Key f) (ReleaseThrough v),
                   mkAcc (if enforcing action && (ReleaseThrough v <? acRelease acc) then ReleaseThrough v else acRelease acc)
                     (acBlocked acc) (acMasks acc) (acEvents acc), None)
              end
          end
      end
  end.

Fixpoint push_rules (logOnly : bool) (ctx : nat -> bool) (f : StreamFragment) (text : bytes) (released : Z)
    (i : nat) (rules : list (streamRule S)) (acc : push_acc) : list (streamRule S) * push_acc * option push_error :=
  match rules with
  | [] => ([], acc, None)
  | sr :: rest =>
      match push_rule logOnly (ctx (Datatypes.S i)) f text released sr acc with
      | (sr, acc, Some e) => (sr :: rest, acc, Some e)
      | (sr, acc, None) =>
          let '(rest, acc, err) := push_rules logOnly ctx f text released (Datatypes.S i) rest acc in
          (sr :: rest, acc, err)
      end
  end.

(** A release position inside a mask moves to its start. *)
Definition before_masks (masks : list Span) (release : Z) : Z :=
  fold_left (fun release sp => if (Start sp <? release) && (release <? Stop sp) then Start sp else release) masks release.

Definition released_of (r : ResponseStream S) (k : string) : Z := default 0 (rsReleased r !! k).
Definition masks_of (r : ResponseStream S) (k : string) : list Span := default [] (rsMasks r !! k).
Definition text_of (r : ResponseStream S) (k : string) : bytes := default [] (rsText r !! k).

Definition Push (r : ResponseStream S) (ctx : nat -> bool) (f : StreamFragment)
    : ResponseStream S * (push_error + (Z * option CheckResponse)) :=
  if rsClosed r || rsFinished r then (r, inl StreamEnded)
  else if ctx O then (r, inl PushCtxDone)
  else if negb (ValidString (Text f)) then (r, inl PushInvalidUtf8)
  else
    let k := Key f in
    let order := match rsText r !! k with Some _ => rsOrder r | None => rsOrder r ++ [k] end in
    let old := text_of r k in
    let runes := rsRunes r + Z.of_nat (RuneCount (Text f)) in
    let with_ text rules released masks events :=
      mkResponseStream _ (rsMaxRunes r) rules (<[k := text]> (rsText r)) order released runes (rsClosed r) (rsLogOnly r)
        masks (rsFinished r) events in
    if rsMaxRunes r <? runes then (with_ old (rsRules r) (rsReleased r) (rsMasks r) (rsEvents r), inl LimitExceeded)
    else
      let text := old ++ Text f in
      let '(rules, acc, err) :=
        push_rules (rsLogOnly r) ctx f text (released_of r k) 0 (rsRules r)
          (mkAcc (Z.of_nat (length text)) None (masks_of r k) (rsEvents r)) in
      let masks := <[k := acMasks acc]> (rsMasks r) in
      match err with
      | Some e => (with_ text rules (rsReleased r) masks (acEvents acc), inl e)
      | None =>
          let release := before_masks (acMasks acc) (acRelease acc) in
          (with_ text rules (<[k := release]> (rsReleased r)) masks (acEvents acc), inr (release, acBlocked acc))
      end.

(** ** Rendering *)

(** The loop of [Render] from position [pos] on. *)
Fixpoint render_from (text : bytes) (start stop pos : Z) (masks : list Span) : bytes :=
  match masks with
  | [] => if pos <? stop then slice pos stop text else []
  | sp :: masks =>
      if (Stop sp <=? start) || (stop <=? Start sp) then render_from text start stop pos masks
      else
        (if pos <? Start sp then slice pos (Start sp) text else []) ++
        (if start <=? Start sp then Replacement sp else []) ++
        let pos := if pos <? Stop sp then Stop sp else pos in
        if stop <=? pos then [] else render_from text start stop pos masks
  end.

Inductive render_error := UnknownField | InvalidRange.

Definition Render (r : ResponseStream S) (k : string) (start stop : Z) : render_error + bytes :=
  match rsText r !! k with
  | None => inl UnknownField
  | Some text =>
      if (stop <? start) || negb (validStreamOffset text start) || negb (validStreamOffset text stop) then inl InvalidRange
      else inr (render_from text start stop start (masks_of r k))
  end.

Definition Close (r : ResponseStream S) (close_session : S -> S) : ResponseStream S :=
  if rsClosed r then r
  else
    mkResponseStream _ (rsMaxRunes r)
      (map (fun sr => match session sr with Some s => set_session sr (close_session s) | None => sr end) (rsRules r))
      ∅ (rsOrder r) ∅ (rsRunes r) true (rsLogOnly r) (rsMasks r) (rsFinished r) (rsEvents r).
End Stream.
