(* ===== verification/ResponseStreamSpec.v ===== *)
(** * What the response stream promises

    Three layers.  Masks: merging new spans into the masks of a field never
    touches a mask that ends below every new span.  Rendering: [Render] is
    additive over any cut of its range, so the output does not depend on how the
    stream was split into events.  The stream: an invariant that every [Push]
    keeps, on its error paths too, from which the release position is monotone,
    and what was released is never rewritten. *)

From S2P Require Import Prelude Utf8 Spans Keyword ResponseStream.

(** ** Merging *)

(** The end of a sorted list is sorted. *)
Lemma sorted_tail {A} (R : A -> A -> Prop) l1 l2 : StronglySorted R (l1 ++ l2) -> StronglySorted R l2.
Proof. induction l1 as [|x l1 IH]; cbn [app]; [done|]. intros H. inversion H; subst. auto. Qed.

Section SortApp.
Context {A : Type} (less : A -> A -> bool).

Lemma insert_rev_app x l1 l2 :
  Forall (fun y => less x y = false) l2 -> insert_rev less x (l1 ++ l2) = insert_rev less x l1 ++ l2.
Proof.
  intros H. induction l1 as [|y l1 IH]; cbn [app insert_rev].
  - destruct l2 as [|y l2]; [done|]. inversion H as [|?? Hy ?]; subst. cbn [insert_rev]. by rewrite Hy.
  - case_match; [by rewrite IH|done].
Qed.

(** A sorted prefix that nothing precedes stays in front. *)
Lemma stable_sort_prefix l1 l2 :
  StronglySorted (ordered less) l1 -> Forall (fun x => Forall (fun y => less x y = false) l1) l2 ->
  stable_sort less (l1 ++ l2) = l1 ++ stable_sort less l2.
Proof.
  intros Hs Hx. unfold stable_sort. rewrite fold_left_app.
  assert (H1 : forall l acc, StronglySorted (ordered less) (rev acc ++ l) ->
    fold_left (fun rp x => insert_rev less x rp) l acc = rev l ++ acc).
  { clear. induction l as [|x l IH]; intros acc Hs; cbn [fold_left rev]; [done|].
    assert (insert_rev less x acc = x :: acc) as ->.
    { destruct acc as [|y acc]; [done|]. cbn [insert_rev].
      assert (less x y = false) as ->; [|done].
      cbn [rev] in Hs. rewrite <- app_assoc in Hs. cbn in Hs. apply sorted_tail in Hs.
      inversion Hs as [|?? _ Hf]; subst. by inversion Hf. }
    rewrite IH, <- app_assoc; [done|]. cbn [rev]. by rewrite <- app_assoc. }
  rewrite (H1 l1 []) by done. rewrite app_nil_r.
  assert (H2 : forall l acc, Forall (fun x => Forall (fun y => less x y = false) l1) l ->
    fold_left (fun rp x => insert_rev less x rp) l (acc ++ rev l1)
    = fold_left (fun rp x => insert_rev less x rp) l acc ++ rev l1).
  { clear. induction l as [|x l IH]; intros acc Hx; cbn [fold_left]; [done|].
    inversion Hx as [|?? Hx1 Hx2]; subst. rewrite insert_rev_app by (by rewrite <- Permutation_rev). by apply IH. }
  pose proof (H2 l2 [] Hx) as H. cbn [app] in H. rewrite H, rev_app_distr. by rewrite rev_involutive.
Qed.
End SortApp.

Lemma sorted_spans_ordered l : sorted_spans l -> StronglySorted (ordered stream_less) l.
Proof.
  intros [Hs Hn]. induction Hs as [|x l Hs IH Hx]; [constructor|]. inversion Hn as [|?? Hx' Hn']; subst.
  constructor; [by apply IH|]. rewrite Forall_forall in Hx, Hn' |- *. intros y Hy.
  specialize (Hx y Hy). specialize (Hn' y Hy). unfold disjoint_spans, nonempty, ordered, stream_less in *.
  case_match; lia.
Qed.

Lemma sorted_spans_app l1 l2 : sorted_spans (l1 ++ l2) -> sorted_spans l1 /\ sorted_spans l2.
Proof.
  intros [Hs [Hn1 Hn2]%Forall_app]. split; split; [|done| |done].
  - clear -Hs. induction l1 as [|x l1 IH]; [constructor|]. cbn [app] in Hs. inversion Hs as [|?? Hs' Hx]; subst.
    apply Forall_app in Hx as [Hx _]. constructor; [by apply IH|done].
  - by apply sorted_tail in Hs.
Qed.

Lemma sorted_spans_join r l1 l2 :
  sorted_spans l1 -> sorted_spans l2 -> Forall (ends_by r) l1 -> Forall (starts_from r) l2 -> sorted_spans (l1 ++ l2).
Proof.
  intros [Hs1 Hn1] [Hs2 Hn2] He Hf. split; [|by apply Forall_app].
  induction Hs1 as [|x l1 Hs1 IH Hx]; cbn [app]; [done|].
  inversion Hn1; subst. inversion He as [|?? Hxr He']; subst. constructor; [by apply IH|].
  apply Forall_app. split; [done|]. eapply Forall_impl; [exact Hf|].
  intros y. unfold starts_from, ends_by, disjoint_spans in *. lia.
Qed.

Lemma steps_prefix r (pre l out : list Span) :
  Forall (ends_by r) pre -> Forall (starts_from r) l ->
  fold_left stream_step l (out ++ pre) = fold_left stream_step l out ++ pre.
Proof.
  intros Hp Hl. revert out. induction Hl as [|sp l Hsp Hl IH]; intros out; cbn [fold_left]; [done|].
  rewrite <- IH. f_equal. destruct out as [|o out]; cbn [app stream_step].
  - destruct pre as [|p pre]; [done|]. inversion Hp as [|?? Hp' _]; subst. cbn [stream_step].
    unfold starts_from, ends_by in *. destruct (Z.ltb_spec (Start sp) (Stop p)); [lia|done].
  - by case_match.
Qed.

Lemma steps_sorted (l out : list Span) :
  StronglySorted disjoint_spans (rev out ++ l) -> fold_left stream_step l out = rev l ++ out.
Proof.
  revert out. induction l as [|sp l IH]; intros out Hs; cbn [fold_left rev]; [done|].
  assert (stream_step out sp = sp :: out) as ->.
  { destruct out as [|o out]; [done|]. cbn [stream_step rev] in *. rewrite <- app_assoc in Hs. cbn in Hs.
    apply sorted_tail in Hs. inversion Hs as [|?? _ Hf]; subst. inversion Hf as [|?? Ho _]; subst.
    unfold disjoint_spans in Ho. destruct (Z.ltb_spec (Start sp) (Stop o)); [lia|done]. }
  rewrite IH, <- app_assoc; [done|]. cbn [rev]. by rewrite <- app_assoc.
Qed.

(** Sorted disjoint spans are already merged. *)
Lemma merge_sorted l : sorted_spans l -> mergeStreamSpans l = l.
Proof.
  intros Hl. pose proof (sorted_spans_ordered _ Hl) as Ho. destruct Hl as [Hs Hn]. unfold mergeStreamSpans.
  pose proof (stable_sort_prefix stream_less l [] Ho (Forall_nil_2 _)) as H. rewrite app_nil_r in H. rewrite H.
  change (stable_sort stream_less []) with (@nil Span). rewrite app_nil_r, steps_sorted by done. by rewrite app_nil_r, rev_involutive.
Qed.

(** Masks that end below every new span are left alone. *)
Lemma merge_prefix r pre l :
  sorted_spans pre -> Forall (ends_by r) pre -> Forall (starts_from r) l ->
  mergeStreamSpans (pre ++ l) = pre ++ mergeStreamSpans l.
Proof.
  intros Hpre He Hl. unfold mergeStreamSpans.
  rewrite stable_sort_prefix; [|by apply sorted_spans_ordered|].
  2: { eapply Forall_impl; [exact Hl|]. intros x Hx. destruct Hpre as [_ Hn].
       rewrite Forall_forall in He, Hn |- *. intros y Hy. specialize (He y Hy). specialize (Hn y Hy).
       unfold starts_from, ends_by, nonempty, stream_less in *. case_match; lia. }
  rewrite fold_left_app, (steps_sorted pre []) by apply Hpre. rewrite app_nil_r.
  pose proof (steps_prefix r (rev pre) (stable_sort stream_less l) []) as H. cbn [app] in H. rewrite H.
  - by rewrite rev_app_distr, rev_involutive.
  - by rewrite <- Permutation_rev.
  - by rewrite stable_sort_perm.
Qed.

Lemma absorb_nonempty o sp : nonempty o -> nonempty (stream_absorb o sp).
Proof. unfold nonempty. cbn. destruct (Z.ltb_spec (Stop o) (Stop sp)); lia. Qed.

(** A property of spans that absorbing keeps holds of the merged spans. *)
Lemma merge_forall (P : Span -> Prop) l :
  (forall o sp, P o -> P sp -> P (stream_absorb o sp)) -> Forall P l -> Forall P (mergeStreamSpans l).
Proof.
  intros Habs Hl. unfold mergeStreamSpans. rewrite <- Permutation_rev.
  apply (fold_inv (Forall P) P); [|by rewrite stable_sort_perm|constructor].
  intros out sp Ho Hsp. unfold stream_step. destruct out as [|o out]; [by constructor|].
  inversion Ho; subst. case_match; constructor; auto.
Qed.

(** The merged spans are sorted and disjoint. *)
Lemma merge_sorted_spans l : Forall nonempty l -> sorted_spans (mergeStreamSpans l).
Proof.
  intros Hl. split; [|apply merge_forall; [by intros; apply absorb_nonempty|done]].
  unfold mergeStreamSpans.
  cut (forall l out, Forall nonempty l -> Forall nonempty out -> StronglySorted (flip disjoint_spans) out ->
    StronglySorted (flip disjoint_spans) (fold_left stream_step l out)).
  { intros H. assert (Hs : StronglySorted (flip disjoint_spans) (fold_left stream_step (stable_sort stream_less l) [])).
    { apply H; [by rewrite stable_sort_perm|constructor..]. }
    clear -Hs. induction Hs as [|x l' Hs IH Hx]; [constructor|]. cbn [rev].
    apply StronglySorted_snoc; [done|]. by rewrite <- Permutation_rev. }
  clear. induction l as [|sp l IH]; intros out Hl Ho Hs; cbn [fold_left]; [done|].
  inversion Hl; subst. destruct out as [|o out]; cbn [stream_step].
  { apply IH; [done|by constructor|repeat constructor]. }
  inversion Ho as [|?? Ho1 Ho2]; subst. inversion Hs as [|?? Hs' Hx]; subst.
  destruct (Z.ltb_spec (Start sp) (Stop o)).
  - apply IH; [done| |].
    + constructor; [by apply absorb_nonempty|done].
    + constructor; [done|]. eapply Forall_impl; [exact Hx|]. done.
  - apply IH; [done|by repeat constructor|]. constructor; [by constructor|]. constructor; [done|].
    eapply Forall_impl; [exact Hx|]. intros y. unfold flip, disjoint_spans, nonempty in *. lia.
Qed.

(** No merged span leaves a part of an input span uncovered. *)
Lemma merge_covers l sp : sp ∈ l -> exists m, m ∈ mergeStreamSpans l /\ covers m sp.
Proof.
  intros Hsp. unfold mergeStreamSpans.
  cut (forall l out, StronglySorted (ordered span_less) l ->
    (forall o x, o ∈ out -> x ∈ l -> Start o <= Start x) ->
    forall y, y ∈ l \/ (exists m, m ∈ out /\ covers m y) -> exists m, m ∈ fold_left stream_step l out /\ covers m y).
  { intros H. destruct (H (stable_sort stream_less l) [] (sort_sorted l)) with (y := sp) as (m & Hm & Hc).
    - by intros ?? ?%not_elem_of_nil.
    - left. by rewrite stable_sort_perm.
    - exists m. split; [by apply in_rev_iff|done]. }
  clear. intros l out Hs. revert out. induction Hs as [|x l Hs IH Hx]; intros out Hle y Hy; cbn [fold_left].
  { destruct Hy as [[]%not_elem_of_nil|?]; done. }
  rewrite Forall_forall in Hx.
  assert (Hxo : exists m, m ∈ stream_step out x /\ covers m x).
  { destruct out as [|o out]; cbn [stream_step]; [exists x; split; [left|unfold covers; lia]|].
    pose proof (Hle o x ltac:(left) ltac:(left)). case_match.
    - exists (stream_absorb o x). split; [left|]. unfold covers. cbn. destruct (Z.ltb_spec (Stop o) (Stop x)); lia.
    - exists x. split; [left|unfold covers; lia]. }
  apply IH.
  - intros o z Ho Hz. pose proof (ordered_start _ _ (Hx z Hz)) as Hxz.
    destruct out as [|p out]; cbn [stream_step] in Ho.
    + apply list_elem_of_singleton in Ho as ->. done.
    + case_match; apply elem_of_cons in Ho as [->|Ho]; try done.
      * cbn. apply Hle; [left|by right].
      * apply Hle; [by right|by right].
      * apply Hle; [done|by right].
  - destruct Hy as [[->|Hy]%elem_of_cons|(m & Hm & Hc)]; [by right|by left|]. right.
    destruct out as [|o out]; [by apply not_elem_of_nil in Hm|]. cbn [stream_step]. case_match; [|exists m; split; [by right|done]].
    apply elem_of_cons in Hm as [->|Hm]; [|exists m; split; [by right|done]].
    exists (stream_absorb o x). split; [left|]. unfold covers in *. cbn. destruct (Z.ltb_spec (Stop o) (Stop x)); lia.
Qed.

(** ** Rendering *)

(** The text of the range with its masks, from left to right. *)
Fixpoint rendered (text : bytes) (a b : Z) (masks : list Span) : bytes :=
  match masks with
  | [] => slice a b text
  | sp :: masks =>
      if Stop sp <=? a then rendered text a b masks
      else if b <=? Start sp then slice a b text
      else (if a <=? Start sp then slice a (Start sp) text ++ Replacement sp else [])
           ++ (if b <=? Stop sp then [] else rendered text (Stop sp) b masks)
  end.

Lemma slice_empty a b text : b <= a -> slice a b text = [].
Proof. intros H. unfold slice. by replace (Z.to_nat (b - a)) with O by lia. Qed.

Lemma slice_text_app a b text rest : 0 <= a -> b <= Z.of_nat (length text) -> slice a b (text ++ rest) = slice a b text.
Proof.
  intros Ha Hb. unfold slice. destruct (decide (a <= b)).
  - rewrite drop_app_le by lia. rewrite take_app_le; [done|]. rewrite length_drop. lia.
  - by replace (Z.to_nat (b - a)) with O by lia.
Qed.

(** Masks at or past the end of the range do not show. *)
Lemma rendered_after text a b masks : a <= b -> Forall (starts_from b) masks -> rendered text a b masks = slice a b text.
Proof.
  intros Hab H. induction H as [|sp masks Hsp H IH]; cbn [rendered]; [done|]. unfold starts_from in Hsp.
  destruct (Z.leb_spec (Stop sp) a); [done|]. by destruct (Z.leb_spec b (Start sp)); [|lia].
Qed.

Lemma rendered_empty text a masks : sorted_spans masks -> rendered text a a masks = [].
Proof.
  intros [Hs Hn]. induction Hs as [|sp masks Hs IH Hsp]; cbn [rendered]; [apply slice_empty; lia|].
  inversion Hn; subst. destruct (Z.leb_spec (Stop sp) a); [by apply IH|].
  destruct (Z.leb_spec a (Start sp)); [apply slice_empty; lia|]. cbn [app].
  by destruct (Z.leb_spec a (Stop sp)); [|lia].
Qed.

Lemma starts_after sp masks : Forall (disjoint_spans sp) masks -> Forall (starts_from (Stop sp)) masks.
Proof. done. Qed.

Lemma slice_if a b text : (if a <? b then slice a b text else []) = slice a b text.
Proof. destruct (Z.ltb_spec a b); [done|]. symmetry. by apply slice_empty. Qed.

Lemma render_past text start stop pos masks :
  Forall (starts_from stop) masks -> render_from text start stop pos masks = slice pos stop text.
Proof.
  induction 1 as [|sp masks Hsp _ IH]; cbn [render_from]; [by rewrite slice_if|].
  unfold starts_from in Hsp. destruct (Z.leb_spec stop (Start sp)); [|lia]. by rewrite orb_true_r.
Qed.

Lemma starts_weaken a b masks : a <= b -> Forall (starts_from b) masks -> Forall (starts_from a) masks.
Proof. intros Hab H. eapply Forall_impl; [exact H|]. intros sp. unfold starts_from. lia. Qed.

(** The loop of [Render] computes it. *)
Lemma render_from_rendered text start stop pos masks :
  sorted_spans masks -> start <= pos <= stop -> pos = start \/ Forall (starts_from pos) masks ->
  render_from text start stop pos masks = rendered text pos stop masks.
Proof.
  intros [Hs Hn]. revert pos. induction Hs as [|sp masks Hs IH Hsp]; intros pos Hp Hpos; cbn [render_from rendered].
  { by rewrite slice_if. }
  inversion Hn as [|?? Hne Hn']; subst. apply starts_after in Hsp. unfold nonempty in Hne.
  assert (Hpos' : pos = start \/ pos <= Start sp) by (destruct Hpos as [->|Hf]; [by left|right; by inversion Hf]).
  assert (Htail : pos = start \/ Forall (starts_from pos) masks) by (destruct Hpos as [->|Hf]; [by left|right; by inversion Hf]).
  destruct (Z.leb_spec (Stop sp) start); cbn [orb].
  { destruct (Z.leb_spec (Stop sp) pos); [by apply IH|lia]. }
  destruct (Z.leb_spec (Stop sp) pos); [lia|].
  destruct (Z.leb_spec stop (Start sp)); [apply render_past; by eapply starts_weaken; [|done]; lia|].
  rewrite slice_if. destruct (Z.ltb_spec pos (Stop sp)); [|lia].
  destruct (Z.leb_spec start (Start sp)), (Z.leb_spec pos (Start sp)); try lia.
  - rewrite <- app_assoc. do 2 f_equal. destruct (Z.leb_spec stop (Stop sp)); [done|].
    apply IH; [done|lia|by right].
  - rewrite slice_empty by lia. cbn [app]. destruct (Z.leb_spec stop (Stop sp)); [done|].
    apply IH; [done|lia|by right].
Qed.

Lemma rendered_app text a b c masks :
  sorted_spans masks -> 0 <= a <= b -> b <= c ->
  rendered text a b masks ++ rendered text b c masks = rendered text a c masks.
Proof.
  intros [Hs Hn]. revert a. induction Hs as [|sp masks Hs IH Hsp]; intros a Ha Hbc; cbn [rendered].
  { by apply slice_app. }
  inversion Hn as [|?? Hne Hn']; subst. unfold nonempty in Hne. apply starts_after in Hsp.
  destruct (Z.leb_spec (Stop sp) a).
  { destruct (Z.leb_spec (Stop sp) b); [|lia]. by apply IH. }
  destruct (Z.leb_spec b (Start sp)).
  - destruct (Z.leb_spec (Stop sp) b); [lia|]. destruct (Z.leb_spec a (Start sp)); [|lia].
    destruct (Z.leb_spec c (Start sp)); [by apply slice_app|].
    rewrite !app_assoc. do 2 f_equal. apply slice_app; lia.
  - destruct (Z.leb_spec c (Start sp)); [lia|].
    destruct (Z.leb_spec (Stop sp) b) as [Hsb|Hsb].
    + destruct (Z.leb_spec c (Stop sp)).
      * assert (b = c) as -> by lia. destruct (Z.leb_spec c (Stop sp)); [|lia].
        rewrite app_nil_r, rendered_empty, app_nil_r by done. done.
      * rewrite <- app_assoc. f_equal. destruct (Z.leb_spec b (Stop sp)).
        { assert (b = Stop sp) as -> by lia. by rewrite app_nil_l. }
        apply IH; [done|lia|lia].
    + destruct (Z.leb_spec b (Stop sp)); [|lia]. destruct (Z.leb_spec b (Start sp)); [lia|].
      rewrite app_nil_r. cbn [app]. done.
Qed.

Lemma rendered_text_app text rest a b masks :
  0 <= a -> b <= Z.of_nat (length text) -> sorted_spans masks -> rendered (text ++ rest) a b masks = rendered text a b masks.
Proof.
  intros Ha Hb [Hs Hn]. revert a Ha. induction Hs as [|sp masks Hs IH Hsp]; intros a Ha; cbn [rendered].
  { by apply slice_text_app. }
  inversion Hn as [|?? Hne Hn']; subst. unfold nonempty in Hne.
  destruct (Z.leb_spec (Stop sp) a); [by apply IH|]. destruct (Z.leb_spec b (Start sp)); [by apply slice_text_app|].
  f_equal.
  - destruct (Z.leb_spec a (Start sp)); [|done]. rewrite slice_text_app by lia. done.
  - destruct (Z.leb_spec b (Stop sp)); [done|]. apply IH; [done|lia].
Qed.

(** Masks past the range do not matter. *)
Lemma rendered_prefix text a b pre m1 m2 :
  a <= b -> Forall (starts_from b) m1 -> Forall (starts_from b) m2 ->
  rendered text a b (pre ++ m1) = rendered text a b (pre ++ m2).
Proof.
  intros Hab H1 H2. revert a Hab. induction pre as [|sp pre IH]; intros a Hab; cbn [app rendered].
  { by rewrite !rendered_after. }
  case_match; [by apply IH|]. case_match; [done|]. f_equal. case_match; [done|]. apply IH. lia.
Qed.

(** Rendering the whole field replaces its masks. *)
Lemma rendered_apply text masks a :
  sorted_spans masks -> Forall (ends_by (Z.of_nat (length text))) masks -> 0 <= a <= Z.of_nat (length text) ->
  Forall (starts_from a) masks -> rendered text a (Z.of_nat (length text)) masks = apply_from text a masks.
Proof.
  intros [Hs Hn]. revert a. induction Hs as [|sp masks Hs IH Hsp]; intros a He Ha Hst; cbn [rendered apply_from].
  { unfold slice. destruct (Z.ltb_spec a (Z.of_nat (length text))).
    - rewrite take_ge; [done|]. rewrite length_drop. lia.
    - by replace (Z.to_nat (Z.of_nat (length text) - a)) with O by lia. }
  inversion Hn as [|?? Hne Hn']; subst. inversion He as [|?? Hen He']; subst. inversion Hst as [|?? Hsa _]; subst.
  unfold nonempty, ends_by, starts_from in *.
  destruct (Z.leb_spec (Stop sp) a); [lia|]. destruct (Z.leb_spec (Z.of_nat (length text)) (Start sp)); [lia|].
  destruct (Z.ltb_spec (Start sp) a); [lia|]. destruct (Z.ltb_spec (Z.of_nat (length text)) (Stop sp)); [lia|].
  destruct (Z.leb_spec (Stop sp) (Start sp)); [lia|]. destruct (Z.leb_spec a (Start sp)); [|lia]. cbn [orb].
  rewrite <- app_assoc. do 2 f_equal. destruct (Z.leb_spec (Z.of_nat (length text)) (Stop sp)).
  - assert (Stop sp = Z.of_nat (length text)) as Heq by lia. rewrite Heq.
    rewrite <- IH; [symmetry; by apply rendered_empty|done..| |]; [lia|].
    rewrite <- Heq. by apply starts_after.
  - apply IH; [done|done|lia|by apply starts_after].
Qed.

(** ** The stream *)

Lemma offset_range text n : validStreamOffset text n = true -> 0 <= n <= Z.of_nat (length text).
Proof. unfold validStreamOffset. lia. Qed.

Lemma offset_end text : validStreamOffset text (Z.of_nat (length text)) = true.
Proof. unfold validStreamOffset. rewrite Z.eqb_refl, Z.leb_refl, orb_true_l, !andb_true_r. apply Z.leb_le. lia. Qed.

Lemma offset_spec text n :
  validStreamOffset text n = true <->
  0 <= n <= Z.of_nat (length text) /\ (n = Z.of_nat (length text) \/ rune_at text n = true).
Proof. unfold validStreamOffset. rewrite !andb_true_iff, orb_true_iff, !Z.leb_le, Z.eqb_eq. tauto. Qed.

Lemma offset_app text rest n :
  ValidString rest = true -> validStreamOffset text n = true -> validStreamOffset (text ++ rest) n = true.
Proof.
  rewrite !offset_spec, length_app. intros Hv [Hr Hn]. split; [lia|]. unfold rune_at in *.
  destruct (decide (n < Z.of_nat (length text))) as [Hlt|Hge].
  - right. rewrite lookup_app_l by lia. destruct Hn; [lia|done].
  - assert (n = Z.of_nat (length text)) as -> by lia. rewrite Nat2Z.id, lookup_app_r, Nat.sub_diag by lia.
    destruct rest as [|c rest]; [left; cbn; lia|right]. by apply (valid_start c rest).
Qed.

Lemma span_app text rest sp :
  ValidString rest = true -> validStreamSpan text sp = true -> validStreamSpan (text ++ rest) sp = true.
Proof.
  intros Hv. unfold validStreamSpan. rewrite !andb_true_iff. intros [[? ?] ?]. by rewrite !offset_app.
Qed.

Lemma span_absorb text o sp :
  validStreamSpan text o = true -> validStreamSpan text sp = true -> validStreamSpan text (stream_absorb o sp) = true.
Proof.
  unfold validStreamSpan. cbn. rewrite !andb_true_iff, !Z.ltb_lt.
  destruct (Z.ltb_spec (Stop o) (Stop sp)); intuition lia.
Qed.

Lemma valid_nonempty text sp : validStreamSpan text sp = true -> nonempty sp.
Proof. unfold validStreamSpan, nonempty. lia. Qed.

(** The masks of a field: sorted, on rune boundaries, [pre] below the released position and the
    others past it. *)
Record masks_ok (text : bytes) (r : Z) (pre masks : list Span) : Prop := mkMasksOk {
  mo_valid : Forall (fun sp => validStreamSpan text sp = true) masks;
  mo_sorted : sorted_spans masks;
  mo_split : exists post, masks = pre ++ post /\ Forall (ends_by r) pre /\ Forall (starts_from r) post
}.

(** New spans past the released position keep the masks below it. *)
Lemma masks_ok_merge text r pre masks new_ :
  masks_ok text r pre masks -> Forall (fun sp => validStreamSpan text sp = true) new_ -> Forall (starts_from r) new_ ->
  masks_ok text r pre (mergeStreamSpans (masks ++ new_)).
Proof.
  intros [Hv Hs (post & -> & Hpre & Hpost)] Hnv Hns. apply Forall_app in Hv as Hv'. destruct Hv' as [Hv1 Hv2].
  assert (Hall : Forall (fun sp => validStreamSpan text sp = true) ((pre ++ post) ++ new_)) by (by apply Forall_app).
  split.
  - apply merge_forall; [|done]. intros. by apply span_absorb.
  - apply merge_sorted_spans. eapply Forall_impl; [exact Hall|]. apply valid_nonempty.
  - exists (mergeStreamSpans (post ++ new_)). rewrite <- app_assoc.
    rewrite (merge_prefix r); [|by apply sorted_spans_app in Hs as [? _]|done|by apply Forall_app].
    repeat split; [done|]. apply merge_forall; [|by apply Forall_app].
    unfold starts_from. cbn. lia.
Qed.

Lemma masks_ok_app text rest r pre masks :
  ValidString rest = true -> masks_ok text r pre masks -> masks_ok (text ++ rest) r pre masks.
Proof. intros Hv [H1 H2 H3]. split; [|done..]. eapply Forall_impl; [exact H1|]. intros. by apply span_app. Qed.

(** Moving the release position out of the masks. *)
Lemma before_masks_spec text r pre masks n :
  masks_ok text r pre masks -> r <= n -> validStreamOffset text n = true ->
  let n' := before_masks masks n in
  r <= n' <= n /\ validStreamOffset text n' = true /\ Forall (fun sp => Stop sp <= n' \/ n' <= Start sp) masks.
Proof.
  intros [Hv [Hs _] (post & Heq & Hpre & Hpost)] Hn Ho. cbv zeta. unfold before_masks.
  assert (Hmasks : Forall (fun sp => (Stop sp <= r \/ r <= Start sp) /\ validStreamSpan text sp = true) masks).
  { apply List.Forall_forall. intros sp Hsp. rewrite Heq in Hsp. split.
    - apply in_app_or in Hsp as [Hsp|Hsp]; rewrite List.Forall_forall in Hpre, Hpost;
        [left; by apply Hpre|right; by apply Hpost].
    - rewrite List.Forall_forall in Hv. apply Hv. by rewrite Heq. }
  clear Heq Hpre Hpost Hv pre post.
  enough (H : forall done_, Forall (fun sp => Stop sp <= n \/ n <= Start sp) done_ ->
    Forall (fun sp => Forall (disjoint_spans sp) masks) done_ ->
    let n' := fold_left (fun release sp => if (Start sp <? release) && (release <? Stop sp) then Start sp else release) masks n in
    r <= n' <= n /\ validStreamOffset text n' = true /\ Forall (fun sp => Stop sp <= n' \/ n' <= Start sp) (done_ ++ masks))
    by (apply (H []); constructor).
  revert n Hn Ho. induction Hs as [|sp masks Hs IH Hsp]; intros n Hn Ho done_ Hd Hdis; cbn [fold_left].
  { rewrite app_nil_r. repeat split; [lia|lia|done|done]. }
  inversion Hmasks as [|?? [Hside Hval] Hmasks']; subst. specialize (IH Hmasks').
  assert (Hdis' : Forall (fun x => Forall (disjoint_spans x) masks) (done_ ++ [sp])).
  { apply Forall_app. split; [|by repeat constructor]. eapply Forall_impl; [exact Hdis|]. by intros x [_ ?]%Forall_cons. }
  change (done_ ++ sp :: masks) with (done_ ++ ([sp] ++ masks)). rewrite app_assoc.
  destruct (Z.ltb_spec (Start sp) n) as [Hlt|Hge]; [destruct (Z.ltb_spec n (Stop sp)) as [Hin|Hout]|]; cbn [andb].
  - unfold validStreamSpan in Hval. apply andb_true_iff in Hval as [[Hne Hst]%andb_true_iff _].
    destruct (IH (Start sp) ltac:(lia) Hst (done_ ++ [sp])) as (Hr & Hv' & Hall); [|done|].
    + apply Forall_app. split; [|apply Forall_singleton; lia]. rewrite Forall_forall in Hd, Hdis |- *. intros x Hx.
      destruct (Hd x Hx) as [H1|H1]; [|right; lia].
      specialize (Hdis x Hx). inversion Hdis as [|?? Hxs _]; subst. unfold disjoint_spans in Hxs. lia.
    + repeat split; [lia|lia|done|done].
  - apply IH; [done|done| |done]. apply Forall_app. split; [done|]. apply Forall_singleton. lia.
  - apply IH; [done|done| |done]. apply Forall_app. split; [done|]. apply Forall_singleton. lia.
Qed.

Section StreamInvariant.
Context {S : Type} `{StreamSession S}.
Context (logOnly : bool).

(** Whether the verdicts of a rule hold the text back: the action of a verdict is the rule's. *)
Definition rule_enforcing (sr : streamRule S) : bool :=
  enforcing (effectiveStreamAction (rule_action logOnly (rule sr)) None logOnly).

Lemma action_of_verdict action result : effectiveStreamAction action result logOnly = effectiveStreamAction action None logOnly.
Proof. unfold effectiveStreamAction, streamDecisionAction. by destruct result. Qed.

(** The released position is backed by every rule that holds the text back. *)
Definition rule_ok (text : bytes) (r : Z) (k : string) (sr : streamRule S) : Prop :=
  match session sr with
  | Some _ => validStreamOffset text (watermark sr k) = true /\ (rule_enforcing sr = true -> r <= watermark sr k)
  | None => ruleEnforces logOnly sr = true -> r <= 0
  end.

(** What [Push] keeps of a rule. *)
Record same_rule (k : string) (a b : streamRule S) : Prop := mkSameRule {
  sm_rule : rule a = rule b;
  sm_observation : observationOnly a = observationOnly b;
  sm_conservative : conservative a = conservative b;
  sm_session : is_Some (session a) <-> is_Some (session b);
  sm_watermark : forall k', k' <> k -> watermark a k' = watermark b k'
}.

Record acc_ok (text : bytes) (r : Z) (pre : list Span) (acc : push_acc) : Prop := mkAccOk {
  ao_lower : r <= acRelease acc;
  ao_offset : validStreamOffset text (acRelease acc) = true;
  ao_masks : masks_ok text r pre (acMasks acc)
}.

Lemma same_refl k sr : same_rule k sr sr.
Proof. by split. Qed.

Lemma same_trans k a b c : same_rule k a b -> same_rule k b c -> same_rule k a c.
Proof.
  intros [H1 H2 H3 H4 H5] [G1 G2 G3 G4 G5]. split; [congruence..|tauto|]. intros k' Hk. by rewrite H5, G5.
Qed.

Lemma same_set_session k sr s : is_Some (session sr) -> same_rule k sr (set_session sr s).
Proof. intros Hs. by split. Qed.

Lemma same_emit k (sr : streamRule S) result events : same_rule k sr (emit logOnly sr result events).1.
Proof. unfold emit. by destruct (hit sr); split. Qed.

Lemma same_observe k (sr : streamRule S) events : same_rule k sr (observe sr events).1.
Proof. unfold observe. by destruct (observed sr); split. Qed.

Lemma same_watermark k sr n : same_rule k sr (set_watermark sr k n).
Proof. split; try done. intros k' Hk. unfold watermark. cbn. by rewrite lookup_insert_ne. Qed.

Lemma watermark_emit (sr : streamRule S) result events k : watermark (emit logOnly sr result events).1 k = watermark sr k.
Proof. unfold emit. by destruct (hit sr). Qed.

Lemma watermark_observe (sr : streamRule S) events k : watermark (observe sr events).1 k = watermark sr k.
Proof. unfold observe. by destruct (observed sr). Qed.

Lemma same_enforcing k a b : same_rule k a b -> rule_enforcing a = rule_enforcing b.
Proof. intros [Hr _ _ _ _]. unfold rule_enforcing. by rewrite Hr. Qed.

(** A verdict that passes the checks: its positions are rune boundaries past what they must not undercut. *)
Lemma verdict_checked text r w enf v :
  verdict_error text r w enf v = None ->
  w <= ReleaseThrough v /\ validStreamOffset text (ReleaseThrough v) = true
  /\ (forall b, BlockStart v = Some b -> validStreamOffset text b = true /\ (enf = true -> r <= b))
  /\ Forall (fun sp => validStreamSpan text sp = true) (VSpans v) /\ (enf = true -> Forall (starts_from r) (VSpans v)).
Proof.
  unfold verdict_error. intros Herr.
  destruct (_ || ((ReleaseThrough v <? _) && _)) eqn:Hw; [done|].
  destruct (match BlockStart v with Some b => _ | None => _ end) eqn:Hb; [done|].
  destruct (existsb _ (VSpans v)) eqn:Hs; [done|]. clear Herr.
  apply orb_false_iff in Hw as [Hw Hrune]. repeat apply orb_false_iff in Hw as [Hw ?].
  assert (Hspans : forall sp, sp ∈ VSpans v -> (enf && (Start sp <? r)) || negb (validStreamSpan text sp) = false).
  { intros sp Hsp. apply not_true_iff_false. intros Ht. apply not_true_iff_false in Hs. apply Hs.
    apply existsb_exists. exists sp. split; [by apply list_elem_of_In|done]. }
  split; [lia|]. split.
  { unfold validStreamOffset. destruct (rune_at text (ReleaseThrough v)); lia. }
  split.
  { intros b Heq. rewrite Heq in Hb. destruct (validStreamOffset text b); [|by rewrite orb_true_r in Hb].
    split; [done|]. intros ->. cbn in Hb. lia. }
  split.
  { apply Forall_forall. intros sp Hsp. specialize (Hspans sp Hsp).
    destruct (validStreamSpan text sp); [done|by rewrite orb_true_r in Hspans]. }
  intros ->. apply Forall_forall. intros sp Hsp. specialize (Hspans sp Hsp). unfold starts_from. cbn in Hspans. lia.
Qed.

Lemma block_start_ok text r w enf v :
  verdict_error text r w enf v = None -> enf = true -> r <= w -> validStreamOffset text w = true ->
  r <= block_start w v /\ validStreamOffset text (block_start w v) = true.
Proof.
  intros (_ & _ & Hb & Hv & Hst)%verdict_checked Henf Hw Hwv. unfold block_start.
  destruct (BlockStart v) as [b|]; [destruct (Hb b eq_refl) as [? Hrb]; auto|].
  destruct (VSpans v) as [|sp l]; [done|]. specialize (Hst Henf).
  inversion Hv as [|?? Hsp _]; subst. inversion Hst; subst. split; [done|].
  unfold validStreamSpan in Hsp. by apply andb_true_iff in Hsp as [[_ ?]%andb_true_iff _].
Qed.

Lemma decide_ok k action v text r pre (sr : streamRule S) acc sr' acc' err :
  decide_verdict logOnly k action v sr acc = (sr', acc', err) ->
  verdict_error text r (watermark sr k) (enforcing action) v = None ->
  validStreamOffset text (watermark sr k) = true -> (enforcing action = true -> r <= watermark sr k) ->
  acc_ok text r pre acc ->
  same_rule k sr sr' /\ watermark sr' k = watermark sr k /\ acc_ok text r pre acc' /\ acRelease acc' <= acRelease acc.
Proof.
  intros Hd Hc Hwv Hw Hacc. pose proof Hacc as [Hlo Hoff Hm]. unfold decide_verdict in Hd.
  destruct (verdict_matched v || _); [|inversion Hd; subst; split; [apply same_refl|]; split; [done|split; [done|lia]]].
  destruct (if _ || _ then observe sr _ else emit logOnly sr _ _) as [sr1 events] eqn:Hev.
  assert (Hsr1 : same_rule k sr sr1 /\ watermark sr1 k = watermark sr k).
  { change sr1 with (sr1, events).1. rewrite <- Hev. clear.
    case_match; [split; [apply same_observe|apply watermark_observe]|split; [apply same_emit|apply watermark_emit]]. }
  clear Hev. destruct Hsr1 as [Hs1 Hw1].
  destruct (String.eqb_spec action "block") as [->|Hnb]; cbn [andb] in Hd.
  - assert (He : enforcing "block" = true) by done. specialize (Hw He).
    destruct (verdict_matched v); cbn in Hd; inversion Hd; subst; (split; [done|]; split; [done|]); [|by split; [split|]; cbn; try lia].
    rewrite Hw1. destruct (block_start_ok _ _ _ _ _ Hc He Hw Hwv) as [Hb Hbv].
    split; [split; [| |done]|]; cbn [acRelease]; destruct (Z.ltb_spec (block_start (watermark sr k) v) (acRelease acc)); try lia; done.
  - destruct (String.eqb_spec action "mask") as [->|Hnm].
    + assert (He : enforcing "mask" = true) by done. apply verdict_checked in Hc as (_ & _ & _ & Hv & Hst).
      specialize (Hst He). destruct (VSpans v) as [|sp l] eqn:Hvs; inversion Hd; subst; (split; [done|]; split; [done|]).
      * by split; [split|]; cbn; try lia.
      * split; [split; [done|done|]|cbn; lia]. cbn [acMasks]. by apply masks_ok_merge.
    + inversion Hd; subst. split; [done|]. split; [done|]. by split; [split|]; cbn; try lia.
Qed.

Lemma offset_zero text : ValidString text = true -> validStreamOffset text 0 = true.
Proof.
  intros Hv. apply offset_spec. split; [lia|]. destruct text as [|c text]; [by left|right]. by apply (valid_start c text).
Qed.

(** One rule keeps the invariant; when it does not fail, its watermark bounds the new release position. *)
Lemma push_rule_ok ctxErr f text r pre (sr : streamRule S) acc sr' acc' err :
  push_rule logOnly ctxErr f text r sr acc = (sr', acc', err) -> 0 <= r -> ValidString text = true ->
  rule_ok text r (Key f) sr -> acc_ok text r pre acc ->
  same_rule (Key f) sr sr' /\ rule_ok text r (Key f) sr' /\ acc_ok text r pre acc' /\ acRelease acc' <= acRelease acc
  /\ (err = None -> rule_ok text (acRelease acc') (Key f) sr').
Proof.
  intros Hp Hr Htext Hrule Hacc. unfold push_rule in Hp. unfold rule_ok in Hrule.
  destruct (session sr) as [s|] eqn:Hs.
  2: { inversion Hp; subst. clear Hp. destruct Hacc as [Hlo Hoff Hm]. pose proof (offset_range _ _ Hoff).
       split; [apply same_refl|]. unfold rule_ok. rewrite Hs. split; [done|].
       destruct (ruleEnforces logOnly sr') eqn:He; cbn [acRelease]; [|by split; [split|]].
       specialize (Hrule eq_refl). split; [split; cbn; [lia|by apply offset_zero|done]|]. split; [lia|done]. }
  destruct Hrule as [Hwv Hw]. destruct (session_push s ctxErr f) as [s1 answer].
  assert (Hs1 : same_rule (Key f) sr (set_session sr s1)) by (apply same_set_session; by rewrite Hs).
  assert (Hok1 : rule_ok text r (Key f) (set_session sr s1)) by done.
  destruct answer as [e|v]; [inversion Hp; subst; split; [done|]; split; [done|]; split; [done|]; by split; [lia|]|].
  rewrite action_of_verdict in Hp.
  set (action := effectiveStreamAction _ None logOnly) in Hp.
  destruct (verdict_error _ _ _ _ v) as [e|] eqn:Hc.
  { inversion Hp; subst; split; [done|]; split; [done|]; split; [done|]; by split; [lia|]. }
  destruct (decide_verdict _ _ _ _ _ _) as [[sr2 acc2] err2] eqn:Hd.
  destruct (decide_ok _ _ _ _ _ _ _ _ _ _ _ Hd Hc Hwv Hw Hacc) as (Hs2 & Hw2 & Hacc2 & Hle).
  assert (Hss : same_rule (Key f) sr sr2) by (by eapply same_trans).
  assert (Hsess : is_Some (session sr2)) by (apply (sm_session _ _ _ Hss); by rewrite Hs).
  assert (Henf : rule_enforcing sr2 = enforcing action) by (symmetry; by apply (same_enforcing _ _ _ Hss)).
  destruct err2 as [e|]; inversion Hp; subst; clear Hp.
  { split; [done|]. split; [|by split]. unfold rule_ok. destruct Hsess as [? ->]. rewrite Hw2, Henf. by split. }
  destruct (verdict_checked _ _ _ _ _ Hc) as (Hwr & Hrv & _). destruct Hacc2 as [Hlo Hoff Hm].
  assert (Hwm : watermark (set_watermark sr2 (Key f) (ReleaseThrough v)) (Key f) = ReleaseThrough v).
  { unfold watermark. cbn. by rewrite lookup_insert_eq. }
  assert (Hrok : forall n, (enforcing action = true -> n <= ReleaseThrough v) ->
    rule_ok text n (Key f) (set_watermark sr2 (Key f) (ReleaseThrough v))).
  { intros n Hn. unfold rule_ok. cbn [session set_watermark]. destruct Hsess as [? ->]. rewrite Hwm. split; [done|].
    change (rule_enforcing (set_watermark sr2 (Key f) (ReleaseThrough v))) with (rule_enforcing sr2). by rewrite Henf. }
  split; [eapply same_trans; [done|apply same_watermark]|].
  split; [apply Hrok; intros He; specialize (Hw He); change (watermark (set_session sr s1) (Key f)) with (watermark sr (Key f)) in Hwr; lia|].
  change (watermark (set_session sr s1) (Key f)) with (watermark sr (Key f)) in Hwr.
  destruct (enforcing action) eqn:He; cbn [andb acRelease].
  - specialize (Hw He). split; [split; cbn; [|by case_match|done]|split; [|intros _; apply Hrok]];
      destruct (Z.ltb_spec (ReleaseThrough v) (acRelease acc2)); lia.
  - split; [by split|]. split; [done|]. intros _. by apply Hrok.
Qed.

Lemma rule_ok_weaken text r r' k sr : r' <= r -> rule_ok text r k sr -> rule_ok text r' k sr.
Proof. unfold rule_ok. intros Hle. destruct (session sr); [intros [? Hw]; split; [done|]; intros Ha; specialize (Hw Ha)|intros Hw Ha; specialize (Hw Ha)]; lia. Qed.

Lemma rule_ok_app text rest r k sr : ValidString rest = true -> rule_ok text r k sr -> rule_ok (text ++ rest) r k sr.
Proof. unfold rule_ok. destruct (session sr); [|done]. intros Hv [? ?]. split; [by apply offset_app|done]. Qed.

Lemma rule_ok_same text r k k' a b : same_rule k a b -> k' <> k -> rule_ok text r k' a -> rule_ok text r k' b.
Proof.
  intros Hs Hk. pose proof (same_enforcing _ _ _ Hs) as He. destruct Hs as [Hr Ho Hc Hss Hw]. unfold rule_ok.
  rewrite <- (Hw k' Hk), He. unfold ruleEnforces. rewrite Hr, Ho, Hc.
  destruct (session a), (session b); try done.
  - destruct (proj1 Hss); eauto; discriminate.
  - destruct (proj2 Hss); eauto; discriminate.
Qed.

(** The loop over the rules. *)
Lemma push_rules_ok ctx f text r pre i rules acc rules' acc' err :
  push_rules logOnly ctx f text r i rules acc = (rules', acc', err) -> 0 <= r -> ValidString text = true ->
  Forall (rule_ok text r (Key f)) rules -> acc_ok text r pre acc ->
  Forall2 (same_rule (Key f)) rules rules' /\ Forall (rule_ok text r (Key f)) rules' /\ acc_ok text r pre acc'
  /\ acRelease acc' <= acRelease acc /\ (err = None -> Forall (rule_ok text (acRelease acc') (Key f)) rules').
Proof.
  intros Hp Hr Htext Hrules. revert i acc rules' acc' err Hp.
  induction Hrules as [|sr rules Hsr Hrules IH]; intros i acc rules' acc' err Hp Hacc; cbn [push_rules] in Hp.
  { inversion Hp; subst. split; [constructor|]. split; [constructor|]. split; [done|]. by split. }
  destruct (push_rule _ _ _ _ _ _ _) as [[sr1 acc1] err1] eqn:H1.
  destruct (push_rule_ok _ _ _ _ _ _ _ _ _ _ H1 Hr Htext Hsr Hacc) as (Hs1 & Hok1 & Hacc1 & Hle1 & Hnew1).
  destruct err1 as [e|].
  { inversion Hp; subst. split; [constructor; [done|]; clear; induction rules; constructor; auto using same_refl|].
    split; [by constructor|]. by split; [done|split]. }
  destruct (push_rules _ _ _ _ _ _ _ _) as [[rules2 acc2] err2] eqn:H2. inversion Hp; subst.
  destruct (IH _ _ _ _ _ H2 Hacc1) as (Hs2 & Hok2 & Hacc2 & Hle2 & Hnew2).
  split; [by constructor|]. split; [by constructor|]. split; [done|]. split; [lia|].
  intros He. constructor; [|by apply Hnew2]. eapply rule_ok_weaken; [|by apply Hnew1]. lia.
Qed.
End StreamInvariant.

Record stream_inv {S} `{StreamSession S} (r : ResponseStream S) : Prop := mkStreamInv {
  si_text : forall k, ValidString (text_of r k) = true;
  si_released : forall k, validStreamOffset (text_of r k) (released_of r k) = true;
  si_masks : forall k, exists pre, masks_ok (text_of r k) (released_of r k) pre (masks_of r k);
  si_rules : forall k, Forall (rule_ok (rsLogOnly r) (text_of r k) (released_of r k) k) (rsRules r)
}.

(** What a later state keeps of an earlier one: the text grows, the released position moves on
    and what was released is rendered as before. *)
Record stream_extends {S} `{StreamSession S} (r r' : ResponseStream S) : Prop := mkExtends {
  ex_text : forall k, exists more, text_of r' k = text_of r k ++ more;
  ex_released : forall k, released_of r k <= released_of r' k;
  ex_rendered : forall k a b, 0 <= a <= b -> b <= released_of r k ->
    rendered (text_of r' k) a b (masks_of r' k) = rendered (text_of r k) a b (masks_of r k)
}.

Lemma split_masks n masks :
  sorted_spans masks -> Forall (fun sp => Stop sp <= n \/ n <= Start sp) masks ->
  exists pre post, masks = pre ++ post /\ Forall (ends_by n) pre /\ Forall (starts_from n) post.
Proof.
  intros [Hs Hn] Hf. induction Hs as [|sp masks Hs IH Hsp]; [by exists [], []|].
  inversion Hf as [|?? Hside Hf']; subst. inversion Hn as [|?? Hne Hn']; subst. unfold nonempty in Hne.
  destruct (decide (Stop sp <= n)) as [Hle|Hgt].
  - destruct (IH Hn' Hf') as (pre & post & -> & Hp & Hq). exists (sp :: pre), post. by repeat constructor.
  - exists [], (sp :: masks). repeat split; [constructor|]. constructor; [unfold starts_from; lia|].
    eapply Forall_impl; [exact Hsp|]. intros x. unfold disjoint_spans, starts_from. lia.
Qed.

Lemma masks_rendered text rest r pre masks masks' a b :
  masks_ok text r pre masks -> masks_ok (text ++ rest) r pre masks' ->
  0 <= a <= b -> b <= r -> r <= Z.of_nat (length text) ->
  rendered (text ++ rest) a b masks' = rendered text a b masks.
Proof.
  intros [_ Hs (post & -> & _ & Hpost)] [_ Hs' (post' & -> & _ & Hpost')] Ha Hb Hr.
  rewrite rendered_text_app by (done || lia). apply rendered_prefix; [lia|..]; eapply starts_weaken; done.
Qed.

Section Push.
Context {S : Type} `{StreamSession S}.

(** A state that differs from [r] in the field [k] only. *)
Record updates (r : ResponseStream S) (k : string) (r' : ResponseStream S) : Prop := mkUpdates {
  up_log : rsLogOnly r' = rsLogOnly r;
  up_text : forall k', k' <> k -> text_of r' k' = text_of r k';
  up_released : forall k', k' <> k -> released_of r' k' = released_of r k';
  up_masks : forall k', k' <> k -> masks_of r' k' = masks_of r k';
  up_rules : Forall2 (same_rule k) (rsRules r) (rsRules r')
}.

Lemma inv_update r k r' pre pre' more :
  stream_inv r -> updates r k r' -> ValidString more = true -> text_of r' k = text_of r k ++ more ->
  released_of r k <= released_of r' k ->
  validStreamOffset (text_of r' k) (released_of r' k) = true ->
  masks_ok (text_of r k) (released_of r k) pre (masks_of r k) ->
  masks_ok (text_of r' k) (released_of r k) pre (masks_of r' k) ->
  masks_ok (text_of r' k) (released_of r' k) pre' (masks_of r' k) ->
  Forall (rule_ok (rsLogOnly r) (text_of r' k) (released_of r' k) k) (rsRules r') ->
  stream_inv r' /\ stream_extends r r' /\ updates r k r'.
Proof.
  intros Hinv Hup Hv Htext Hmono Hoff Hm0 Hm1 Hm2 Hrules. pose proof Hup as [Hl Ht Hrl Hm Hru]. split; [|split; [|done]].
  - split; intros k'; destruct (decide (k' = k)) as [->|Hk]; rewrite ?Hl, ?Ht, ?Hrl, ?Hm by done; try apply Hinv; eauto.
    + rewrite Htext, valid_app; [done|apply Hinv].
    + pose proof (si_rules _ Hinv k') as Hr. clear -Hk Hru Hr.
      induction Hru as [|a b la lb Hab Hru IH]; [constructor|]. inversion Hr; subst.
      constructor; [by eapply rule_ok_same|by apply IH].
  - split; intros k'; destruct (decide (k' = k)) as [->|Hk]; rewrite ?Ht, ?Hrl, ?Hm by done; eauto; try done.
    + exists []. by rewrite app_nil_r.
    + intros a b Ha Hb. rewrite Htext. rewrite Htext in Hm1.
      eapply masks_rendered; [exact Hm0|exact Hm1|done|done|]. by apply offset_range, Hinv.
Qed.

Lemma same_rules_refl k (rules : list (streamRule S)) : Forall2 (same_rule k) rules rules.
Proof. induction rules; constructor; auto using same_refl. Qed.

Lemma extends_refl (r : ResponseStream S) : stream_extends r r.
Proof. split; intros; [exists []; by rewrite app_nil_r|lia|done]. Qed.

Lemma updates_refl k (r : ResponseStream S) : updates r k r.
Proof. split; try done. apply same_rules_refl. Qed.

(** Every [Push] keeps the invariant and what was released, whether it succeeds or fails. *)
Lemma push_updates r ctx f r' res :
  Push r ctx f = (r', res) -> stream_inv r -> stream_inv r' /\ stream_extends r r' /\ updates r (Key f) r'.
Proof.
  intros Hp Hinv. unfold Push in Hp.
  destruct (rsClosed r || rsFinished r); [inversion Hp; subst; by split; [|split; [apply extends_refl|apply updates_refl]]|].
  destruct (ctx 0%nat); [inversion Hp; subst; by split; [|split; [apply extends_refl|apply updates_refl]]|].
  destruct (ValidString (Text f)) eqn:Hv; cbn [negb] in Hp;
    [|inversion Hp; subst; by split; [|split; [apply extends_refl|apply updates_refl]]].
  destruct (si_masks _ Hinv (Key f)) as [pre Hm]. pose proof (si_released _ Hinv (Key f)) as Hoff.
  pose proof (offset_range _ _ Hoff) as Hr. pose proof (si_rules _ Hinv (Key f)) as Hrules.
  destruct (rsMaxRunes r <? _).
  { inversion Hp; subst. eapply (inv_update r (Key f) _ pre pre []); try done.
    - split; try done; [|apply same_rules_refl]. intros k' Hk. unfold text_of. cbn. by rewrite lookup_insert_ne.
    - unfold text_of at 1. cbn. by rewrite lookup_insert_eq, app_nil_r.
    - unfold text_of at 1. cbn. by rewrite lookup_insert_eq.
    - unfold text_of at 1. cbn. by rewrite lookup_insert_eq.
    - unfold text_of at 1. cbn. by rewrite lookup_insert_eq.
    - unfold text_of at 1. cbn. by rewrite lookup_insert_eq. }
  destruct (push_rules _ _ _ _ _ _ _ _) as [[rules acc] err] eqn:Hpr.
  assert (Hacc0 : acc_ok (text_of r (Key f) ++ Text f) (released_of r (Key f)) pre
    (mkAcc (Z.of_nat (length (text_of r (Key f) ++ Text f))) None (masks_of r (Key f)) (rsEvents r))).
  { split; cbn [acRelease acMasks]; [rewrite length_app; lia|apply offset_end|by apply masks_ok_app]. }
  destruct (push_rules_ok (rsLogOnly r) _ _ _ _ pre _ _ _ _ _ _ Hpr)
    as (Hsame & Hok & Hacc & Hle & Hnew); [lia|rewrite valid_app; [done|apply Hinv]| |done|].
  { eapply Forall_impl; [exact Hrules|]. intros. by apply rule_ok_app. }
  destruct Hacc as [Hlo Haoff Hamasks].
  assert (Hup : forall released events rn, (forall k', k' <> Key f -> released !! k' = rsReleased r !! k') ->
    updates r (Key f) (mkResponseStream _ (rsMaxRunes r) rules (<[Key f := text_of r (Key f) ++ Text f]> (rsText r))
      (match rsText r !! Key f with Some _ => rsOrder r | None => rsOrder r ++ [Key f] end) released rn
      (rsClosed r) (rsLogOnly r) (<[Key f := acMasks acc]> (rsMasks r)) (rsFinished r) events)).
  { intros released events rn Hrel. split; try done; intros k' Hk; unfold text_of, released_of, masks_of; cbn.
    - by rewrite lookup_insert_ne. - by rewrite Hrel. - by rewrite lookup_insert_ne. }
  destruct err as [e|]; inversion Hp; subst; clear Hp.
  - eapply (inv_update r (Key f) _ pre pre (Text f)); try done; [by apply Hup|..];
      unfold text_of at 1, masks_of, released_of; cbn; rewrite ?lookup_insert_eq; try done.
    by apply offset_app.
  - destruct (before_masks_spec _ _ _ _ _ Hamasks Hlo Haoff) as ([Hbl Hbu] & Hbo & Hside).
    destruct (split_masks _ _ (mo_sorted _ _ _ _ Hamasks) Hside) as (pre' & post' & Heq & Hpre' & Hpost').
    eapply (inv_update r (Key f) _ pre pre' (Text f)); try done; [apply Hup; intros; by rewrite lookup_insert_ne|..];
      unfold text_of at 1, masks_of, released_of; cbn; rewrite ?lookup_insert_eq; try done.
    + split; [apply Hamasks|apply Hamasks|]. by exists post'.
    + eapply Forall_impl; [by apply Hnew|]. intros. by eapply rule_ok_weaken.
Qed.

Lemma push_ok r ctx f r' res : Push r ctx f = (r', res) -> stream_inv r -> stream_inv r' /\ stream_extends r r'.
Proof. intros Hp Hinv. by destruct (push_updates _ _ _ _ _ Hp Hinv) as (? & ? & _). Qed.

(** *** What one verdict does to the outcome of the loop *)

Definition covered (masks : list Span) (sp : Span) : Prop := exists m, m ∈ masks /\ covers m sp.

Definition keeps (acc acc' : push_acc) : Prop :=
  (forall sp, covered (acMasks acc) sp -> covered (acMasks acc') sp) /\ (is_Some (acBlocked acc) -> is_Some (acBlocked acc')).

Lemma keeps_refl acc : keeps acc acc.
Proof. by split. Qed.

Lemma keeps_trans a b c : keeps a b -> keeps b c -> keeps a c.
Proof. intros [H1 H2] [G1 G2]. split; auto. Qed.

Lemma covered_merge masks new_ sp : covered (masks ++ new_) sp -> covered (mergeStreamSpans (masks ++ new_)) sp.
Proof.
  intros (m & Hm & Hc). destruct (merge_covers _ _ Hm) as (m' & Hm' & Hc'). exists m'. split; [done|].
  unfold covers in *. lia.
Qed.

Lemma covers_refl sp : covers sp sp.
Proof. unfold covers. lia. Qed.

(** What the loop owes to the verdict [v] of a rule with watermark [w]. *)
Record obeyed (action : string) (w : Z) (v : StreamVerdict) (acc : push_acc) : Prop := mkObeyed {
  ob_mask : action = "mask" -> Forall (covered (acMasks acc)) (VSpans v);
  ob_block : action = "block" -> verdict_matched v = true -> acRelease acc <= block_start w v /\ is_Some (acBlocked acc);
  ob_hold : enforcing action = true -> acRelease acc <= ReleaseThrough v
}.

Lemma obeyed_keeps action w v acc acc' :
  obeyed action w v acc -> keeps acc acc' -> acRelease acc' <= acRelease acc -> obeyed action w v acc'.
Proof.
  intros [H1 H2 H3] [G1 G2] Hle. split.
  - intros Ha. eapply Forall_impl; [by apply H1|]. done.
  - intros Ha Hm. destruct (H2 Ha Hm). split; [lia|auto].
  - intros Ha. specialize (H3 Ha). lia.
Qed.

Lemma keeps_masks rel blocked masks masks' events acc :
  acBlocked acc = blocked -> acMasks acc = masks -> (forall sp, covered masks sp -> covered masks' sp) ->
  keeps acc (mkAcc rel blocked masks' events).
Proof. intros <- <- Hc. by split. Qed.

Lemma decide_keeps lo k action v (sr : streamRule S) acc sr' acc' :
  decide_verdict lo k action v sr acc = (sr', acc', None) ->
  keeps acc acc'
  /\ (action = "mask" -> Forall (covered (acMasks acc')) (VSpans v))
  /\ (action = "block" -> verdict_matched v = true -> acRelease acc' <= block_start (watermark sr k) v /\ is_Some (acBlocked acc')).
Proof.
  unfold decide_verdict. intros Hd. destruct (verdict_matched v || _) eqn:Hany.
  2: { inversion Hd; subst. apply orb_false_iff in Hany as [Hm Hv%negb_false_iff%bool_decide_eq_true]. rewrite Hv.
       split; [apply keeps_refl|]. split; [done|]. by rewrite Hm. }
  destruct (if _ || _ then observe sr _ else emit lo sr _ _) as [sr1 events] eqn:Hev.
  assert (Hw : watermark sr1 k = watermark sr k).
  { change sr1 with (sr1, events).1. rewrite <- Hev. clear. case_match; [apply watermark_observe|apply watermark_emit]. }
  clear Hev Hany. destruct (String.eqb_spec action "block") as [->|Hnb]; cbn [andb] in Hd.
  - split; [|split; [done|]].
    + destruct (verdict_matched v); cbn in Hd; inversion Hd; subst; [|by apply (keeps_masks _ _ (acMasks acc))].
      split; [done|]. by intros [b ->].
    + intros _ Hm. rewrite Hm in Hd. inversion Hd; subst. cbn [acRelease acBlocked]. rewrite Hw.
      split; [destruct (Z.ltb_spec (block_start (watermark sr k) v) (acRelease acc)); lia|]. destruct (acBlocked acc); eauto.
  - split; [|split; [|done]].
    + destruct (String.eqb_spec action "mask"); [destruct (VSpans v)|]; inversion Hd; subst; apply (keeps_masks _ _ (acMasks acc)); try done.
      intros sp (m & Hm & Hc). apply covered_merge. exists m. split; [by apply elem_of_app; left|done].
    + intros ->. cbn in Hd. destruct (VSpans v) as [|x l] eqn:Hvs; [constructor|]. inversion Hd; subst. cbn [acMasks].
      apply Forall_forall. intros sp Hsp. apply covered_merge. exists sp. split; [by apply elem_of_app; right|apply covers_refl].
Qed.

Lemma push_rule_keeps lo c f text r (sr : streamRule S) acc sr' acc' :
  push_rule lo c f text r sr acc = (sr', acc', None) ->
  keeps acc acc' /\
  forall s s1 v, session sr = Some s -> session_push s c f = (s1, inr v) ->
    obeyed (effectiveStreamAction (rule_action lo (rule sr)) (Result v) lo) (watermark sr (Key f)) v acc'.
Proof.
  unfold push_rule. destruct (session sr) as [s|] eqn:Hs; [|intros Hp; by inversion Hp].
  destruct (session_push s c f) as [s1 [e|v]] eqn:Hpush; [done|].
  destruct (verdict_error _ _ _ _ v); [done|]. destruct (decide_verdict _ _ _ _ _ _) as [[sr2 acc2] [e|]] eqn:Hd; [done|].
  intros Hp. inversion Hp; subst. destruct (decide_keeps _ _ _ _ _ _ _ _ Hd) as (Hk & Hmask & Hblock).
  split; [eapply keeps_trans; [exact Hk|by apply (keeps_masks _ _ (acMasks acc2))]|].
  intros s' s1' v' [= <-] Hpush'. rewrite Hpush in Hpush'. inversion Hpush'; subst. split; cbn [acRelease acMasks acBlocked].
  - done.
  - intros Ha Hm. destruct (Hblock Ha Hm) as [Hb1 Hb2]. change (watermark (set_session sr s1') (Key f)) with (watermark sr (Key f)) in Hb1.
    split; [|done]. destruct (enforcing _); cbn [andb]; [|done]. destruct (Z.ltb_spec (ReleaseThrough v') (acRelease acc2)); lia.
  - intros Ha. change (rule (set_session sr s1')) with (rule sr). rewrite Ha. cbn [andb].
    destruct (Z.ltb_spec (ReleaseThrough v') (acRelease acc2)); lia.
Qed.

Lemma push_rules_keeps lo ctx f text r pre i (rules : list (streamRule S)) acc rules' acc' :
  push_rules lo ctx f text r i rules acc = (rules', acc', None) -> 0 <= r -> ValidString text = true ->
  Forall (rule_ok lo text r (Key f)) rules -> acc_ok text r pre acc ->
  keeps acc acc' /\
  forall j sr s s1 v, rules !! j = Some sr -> session sr = Some s -> session_push s (ctx (Datatypes.S (i + j))) f = (s1, inr v) ->
    obeyed (effectiveStreamAction (rule_action lo (rule sr)) (Result v) lo) (watermark sr (Key f)) v acc'.
Proof.
  intros Hp Hr Ht Hrules. revert i acc rules' acc' Hp.
  induction Hrules as [|sr0 rules Hsr Hrules IH]; intros i acc rules' acc' Hp Hacc; cbn [push_rules] in Hp.
  { inversion Hp; subst. split; [apply keeps_refl|]. intros j ????. by rewrite lookup_nil. }
  destruct (push_rule _ _ _ _ _ _ _) as [[sr1 acc1] [e|]] eqn:H1; [done|].
  destruct (push_rule_ok _ _ _ _ _ pre _ _ _ _ _ H1 Hr Ht Hsr Hacc) as (_ & _ & Hacc1 & _).
  destruct (push_rules _ _ _ _ _ _ _ _) as [[rules2 acc2] err2] eqn:H2. inversion Hp; subst.
  destruct (push_rules_ok _ _ _ _ _ pre _ _ _ _ _ _ H2 Hr Ht Hrules Hacc1) as (_ & _ & _ & Hle & _).
  destruct (push_rule_keeps _ _ _ _ _ _ _ _ _ H1) as [Hk1 Ho1]. destruct (IH _ _ _ _ H2 Hacc1) as [Hk2 Ho2].
  split; [by eapply keeps_trans|]. intros j sr s s1 v Hj Hs Hv. destruct j as [|j]; cbn in Hj.
  - inversion Hj; subst. rewrite Nat.add_0_r in Hv. eapply obeyed_keeps; [by eapply Ho1|done|done].
  - replace (i + Datatypes.S j)%nat with (Datatypes.S i + j)%nat in Hv by lia. by eapply Ho2.
Qed.

(** The state a successful [Push] leaves and its answer, in terms of the loop. *)
Lemma push_success (r : ResponseStream S) ctx f r' rel b :
  Push r ctx f = (r', inr (rel, b)) -> stream_inv r ->
  exists acc,
    rel = before_masks (acMasks acc) (acRelease acc) /\ b = acBlocked acc /\ masks_of r' (Key f) = acMasks acc
    /\ released_of r' (Key f) = rel /\ rel <= acRelease acc
    /\ (forall sp, covered (masks_of r (Key f)) sp -> covered (acMasks acc) sp)
    /\ forall i sr s s1 v, rsRules r !! i = Some sr -> session sr = Some s -> session_push s (ctx (Datatypes.S i)) f = (s1, inr v) ->
        obeyed (effectiveStreamAction (rule_action (rsLogOnly r) (rule sr)) (Result v) (rsLogOnly r)) (watermark sr (Key f)) v acc.
Proof.
  intros Hp Hinv. unfold Push in Hp.
  destruct (rsClosed r || rsFinished r); [done|]. destruct (ctx 0%nat); [done|].
  destruct (ValidString (Text f)) eqn:Hv; cbn [negb] in Hp; [|done]. destruct (rsMaxRunes r <? _); [done|].
  destruct (push_rules _ _ _ _ _ _ _ _) as [[rules acc] [e|]] eqn:Hpr; [done|]. inversion Hp; subst. exists acc.
  destruct (si_masks _ Hinv (Key f)) as [pre Hm]. pose proof (si_released _ Hinv (Key f)) as Hoff.
  pose proof (offset_range _ _ Hoff) as Hr.
  assert (Hacc0 : acc_ok (text_of r (Key f) ++ Text f) (released_of r (Key f)) pre
    (mkAcc (Z.of_nat (length (text_of r (Key f) ++ Text f))) None (masks_of r (Key f)) (rsEvents r))).
  { split; cbn [acRelease acMasks]; [rewrite length_app; lia|apply offset_end|by apply masks_ok_app]. }
  assert (Hrules : Forall (rule_ok (rsLogOnly r) (text_of r (Key f) ++ Text f) (released_of r (Key f)) (Key f)) (rsRules r)).
  { eapply Forall_impl; [apply (si_rules _ Hinv)|]. intros. by apply rule_ok_app. }
  assert (Ht : ValidString (text_of r (Key f) ++ Text f) = true) by (rewrite valid_app; [done|apply Hinv]).
  destruct (push_rules_ok (rsLogOnly r) _ _ _ _ pre _ _ _ _ _ _ Hpr (proj1 Hr) Ht Hrules Hacc0) as (_ & _ & [Hlo Ho Hms] & _).
  destruct (push_rules_keeps (rsLogOnly r) _ _ _ _ pre _ _ _ _ _ Hpr (proj1 Hr) Ht Hrules Hacc0) as [[Hk _] Hob].
  destruct (before_masks_spec _ _ _ _ _ Hms Hlo Ho) as ([_ Hle] & _).
  split; [done|]. split; [done|]. split; [unfold masks_of; cbn; by rewrite lookup_insert_eq|].
  split; [unfold released_of; cbn; by rewrite lookup_insert_eq|]. split; [done|]. split; [done|]. exact Hob.
Qed.
End Push.

(** ** Properties *)

Section Runs.
Context {S : Type} `{StreamSession S}.

(** The pushes of a response, each with the cancellation its readers see. *)
Definition pushes : Type := list ((nat -> bool) * StreamFragment).

Fixpoint run_stream (r : ResponseStream S) (ps : pushes) : ResponseStream S :=
  match ps with [] => r | (ctx, f) :: ps => run_stream (Push r ctx f).1 ps end.

(** A stream as [NewResponseStream] creates it. *)
Definition fresh (r : ResponseStream S) : Prop :=
  rsText r = ∅ /\ rsReleased r = ∅ /\ rsMasks r = ∅ /\ Forall (fun sr => watermarks sr = ∅) (rsRules r).

Lemma fresh_inv r : fresh r -> stream_inv r.
Proof.
  intros (Ht & Hr & Hm & Hw). split; intros k; unfold text_of, released_of, masks_of; rewrite ?Ht, ?Hr, ?Hm, ?lookup_empty; cbn [default].
  - done.
  - done.
  - exists []. split; [constructor|by split; constructor|]. exists []. by repeat split.
  - eapply Forall_impl; [exact Hw|]. intros sr Hsr. unfold rule_ok, watermark. rewrite Hsr, lookup_empty.
    destruct (session sr); [|lia]. by split.
Qed.

Lemma stream_extends_trans (a b c : ResponseStream S) : stream_extends a b -> stream_extends b c -> stream_extends a c.
Proof.
  intros [H1 H2 H3] [G1 G2 G3]. split; intros k.
  - destruct (H1 k) as [x Hx], (G1 k) as [y Hy]. exists (x ++ y). by rewrite Hy, Hx, app_assoc.
  - specialize (H2 k). specialize (G2 k). lia.
  - intros x y Hxy Hy. specialize (H2 k). rewrite G3, H3 by lia. done.
Qed.

Lemma run_ok r ps : stream_inv r -> stream_inv (run_stream r ps) /\ stream_extends r (run_stream r ps).
Proof.
  revert r. induction ps as [|[ctx f] ps IH]; intros r Hinv; cbn [run_stream]; [by split; [|apply extends_refl]|].
  destruct (Push r ctx f) as [r1 res] eqn:Hp. destruct (push_ok _ _ _ _ _ Hp Hinv) as [Hinv1 Hex]. cbn [fst].
  destruct (IH r1 Hinv1) as [Hinv2 Hex2]. split; [done|]. by eapply stream_extends_trans.
Qed.

Lemma run_stream_app r ps qs : run_stream r (ps ++ qs) = run_stream (run_stream r ps) qs.
Proof. revert r. induction ps as [|[ctx f] ps IH]; intros r; cbn [app run_stream]; [done|]. apply IH. Qed.

(** [Render] on a range it accepts. *)
Lemma render_inr r k a b out :
  stream_inv r -> Render r k a b = inr out ->
  0 <= a <= b /\ b <= Z.of_nat (length (text_of r k)) /\ out = rendered (text_of r k) a b (masks_of r k)
  /\ validStreamOffset (text_of r k) a = true /\ validStreamOffset (text_of r k) b = true /\ is_Some (rsText r !! k).
Proof.
  intros Hinv. unfold Render. destruct (rsText r !! k) as [text|] eqn:Ht; [|done].
  assert (Htx : text_of r k = text) by (unfold text_of; by rewrite Ht). rewrite Htx.
  destruct ((b <? a) || _) eqn:Hr; [done|]. destruct (negb (validStreamOffset text b)) eqn:Hb; [done|].
  apply orb_false_iff in Hr as [Hab Ha]. apply negb_false_iff in Ha, Hb.
  pose proof (offset_range _ _ Ha). pose proof (offset_range _ _ Hb). intros [= <-].
  split; [lia|]. split; [lia|]. split; [|by repeat split; eauto].
  destruct (si_masks _ Hinv k) as [pre [_ Hs _]]. apply render_from_rendered; [done|lia|by left].
Qed.

Lemma render_known r k a b text :
  stream_inv r -> rsText r !! k = Some text -> a <= b -> validStreamOffset text a = true -> validStreamOffset text b = true ->
  Render r k a b = inr (rendered text a b (masks_of r k)).
Proof.
  intros Hinv Ht Hab Ha Hb. unfold Render. rewrite Ht, Ha, Hb. destruct (Z.ltb_spec b a); [lia|]. cbn [orb negb].
  f_equal. pose proof (offset_range _ _ Ha). destruct (si_masks _ Hinv k) as [pre [_ Hs _]]. apply render_from_rendered; [done|lia|by left].
Qed.

Lemma push_known (r : ResponseStream S) ctx f k : is_Some (rsText r !! k) -> is_Some (rsText (Push r ctx f).1 !! k).
Proof.
  intros Hk. unfold Push. repeat (case_match; try done).
  all: cbn [fst rsText]; destruct (decide (k = Key f)) as [->|Hne]; rewrite ?lookup_insert_eq, ?lookup_insert_ne by done; eauto.
Qed.

Lemma run_known (r : ResponseStream S) ps k : is_Some (rsText r !! k) -> is_Some (rsText (run_stream r ps) !! k).
Proof. revert r. induction ps as [|[ctx f] ps IH]; intros r Hk; cbn [run_stream]; [done|]. by apply IH, push_known. Qed.

(** A released position is still a rune boundary later. *)
Lemma offset_extends (r r' : ResponseStream S) k n :
  stream_inv r -> stream_inv r' -> stream_extends r r' -> validStreamOffset (text_of r k) n = true ->
  validStreamOffset (text_of r' k) n = true.
Proof.
  intros Hinv Hinv' Hex Hn. destruct (ex_text _ _ Hex k) as [more Hmore]. rewrite Hmore.
  apply offset_app; [|done]. pose proof (si_text _ Hinv' k) as Hv. rewrite Hmore, valid_app in Hv; [done|apply Hinv].
Qed.

(** The bytes that a writer which renders every newly released range has sent. *)
Fixpoint emitted (r : ResponseStream S) (ps : pushes) (k : string) : bytes :=
  match ps with
  | [] => []
  | (ctx, f) :: ps =>
      let r1 := (Push r ctx f).1 in
      match Render r1 k (released_of r k) (released_of r1 k) with inr piece => piece | inl _ => [] end ++ emitted r1 ps k
  end.

Lemma emitted_rendered r ps k :
  stream_inv r ->
  emitted r ps k
  = rendered (text_of (run_stream r ps) k) (released_of r k) (released_of (run_stream r ps) k) (masks_of (run_stream r ps) k).
Proof.
  revert r. induction ps as [|[ctx f] ps IH]; intros r Hinv; cbn [emitted run_stream].
  { destruct (si_masks _ Hinv k) as [pre Hm]. symmetry. by apply rendered_empty, Hm. }
  destruct (Push r ctx f) as [r1 res] eqn:Hp. cbn [fst].
  destruct (push_ok _ _ _ _ _ Hp Hinv) as [Hinv1 Hex]. rewrite (IH r1 Hinv1).
  destruct (run_ok r1 ps Hinv1) as [Hinv2 Hex2]. set (r2 := run_stream r1 ps) in *.
  pose proof (ex_released _ _ Hex k) as Hle1. pose proof (ex_released _ _ Hex2 k) as Hle2.
  pose proof (offset_range _ _ (si_released _ Hinv k)) as Hr0. pose proof (offset_range _ _ (si_released _ Hinv1 k)) as Hr1.
  destruct (si_masks _ Hinv1 k) as [pre1 Hm1]. destruct (si_masks _ Hinv2 k) as [pre2 Hm2].
  rewrite <- (rendered_app (text_of r2 k) (released_of r k) (released_of r1 k)) by (apply Hm2 || lia). f_equal.
  rewrite (ex_rendered _ _ Hex2) by lia. destruct (ex_text _ _ Hex k) as [more Hmore].
  destruct (rsText r1 !! k) as [text|] eqn:Ht.
  - assert (Htx : text_of r1 k = text) by (unfold text_of; by rewrite Ht).
    assert (Hold : validStreamOffset text (released_of r k) = true).
    { rewrite <- Htx. apply (offset_extends r r1); try done. apply Hinv. }
    rewrite (render_known r1 k _ _ text Hinv1 Ht Hle1 Hold) by (rewrite <- Htx; apply Hinv1).
    by rewrite Htx.
  - assert (Htx : text_of r1 k = []) by (unfold text_of; by rewrite Ht). rewrite Htx in Hr1. cbn in Hr1.
    unfold Render. rewrite Ht, Htx. replace (released_of r k) with 0 by lia. replace (released_of r1 k) with 0 by lia.
    symmetry. by apply rendered_empty, Hm1.
Qed.
End Runs.

(** C11: Whatever was released stays as it was: after any further pushes, failed ones included, the
    released position of every field has not moved back, it is a rune boundary, and every range up
    to it that could be rendered renders to the same bytes. *)
Theorem released_text_is_final {S} `{StreamSession S} (r : ResponseStream S) ps qs k a b out :
  fresh r ->
  let r1 := run_stream r ps in
  let r2 := run_stream r1 qs in
  Render r1 k a b = inr out -> b <= released_of r1 k ->
  Render r2 k a b = inr out /\ released_of r1 k <= released_of r2 k
  /\ validStreamOffset (text_of r2 k) (released_of r2 k) = true.
Proof.
  intros Hf r1 r2 Hr Hb. destruct (run_ok r ps (fresh_inv r Hf)) as [Hinv1 _].
  destruct (run_ok r1 qs Hinv1) as [Hinv2 Hex].
  destruct (render_inr _ _ _ _ _ Hinv1 Hr) as (Hab & Hbl & -> & Ha & Hbv & Hk).
  destruct (run_known r1 qs k Hk) as [text Ht].
  assert (Htx : text_of (run_stream r1 qs) k = text) by (unfold text_of; by rewrite Ht).
  split; [|split; [apply (ex_released _ _ Hex)|apply (si_released _ Hinv2)]].
  unfold r2. rewrite (render_known _ _ _ _ text Hinv2 Ht); [|lia|rewrite <- Htx; by apply (offset_extends r1)..].
  rewrite <- Htx. f_equal. by apply (ex_rendered _ _ Hex).
Qed.

(** The output does not depend on how the response was cut: the pieces rendered one release at a
    time join to the rendering of the whole released range under the final masks. *)
Theorem emitted_pieces_join {S} `{StreamSession S} (r : ResponseStream S) ps k :
  fresh r ->
  let r1 := run_stream r ps in
  is_Some (rsText r1 !! k) -> Render r1 k 0 (released_of r1 k) = inr (emitted r ps k).
Proof.
  intros Hf r1 [text Ht]. pose proof (fresh_inv r Hf) as Hinv. destruct (run_ok r ps Hinv) as [Hinv1 _].
  assert (Htx : text_of r1 k = text) by (unfold text_of; by rewrite Ht).
  pose proof (offset_range _ _ (si_released _ Hinv1 k)).
  rewrite (render_known r1 k _ _ text Hinv1 Ht); [| |rewrite <- Htx; apply offset_zero, Hinv1|rewrite <- Htx; apply Hinv1].
  - f_equal. rewrite (emitted_rendered r ps k Hinv). fold r1. rewrite Htx. do 2 f_equal.
    unfold released_of. destruct Hf as (_ & -> & _). by rewrite lookup_empty.
  - fold r1 in H0. lia.
Qed.

(** C21: A verdict is obeyed by the answer of its [Push] and by every later state: the spans of a
    masking rule lie inside masks, a match of a blocking rule blocks and nothing at or past its
    position is released, and no rule that enforces is overtaken. *)
Theorem verdicts_are_obeyed {S} `{StreamSession S} (r : ResponseStream S) ps ctx f r' rel blocked i sr s s1 v :
  fresh r ->
  let r1 := run_stream r ps in
  Push r1 ctx f = (r', inr (rel, blocked)) ->
  rsRules r1 !! i = Some sr -> session sr = Some s -> session_push s (ctx (Datatypes.S i)) f = (s1, inr v) ->
  let action := effectiveStreamAction (rule_action (rsLogOnly r1) (rule sr)) (Result v) (rsLogOnly r1) in
  (action = "mask" -> forall sp, sp ∈ VSpans v -> exists m, m ∈ masks_of r' (Key f) /\ covers m sp)
  /\ (action = "block" -> verdict_matched v = true -> rel <= block_start (watermark sr (Key f)) v /\ is_Some blocked)
  /\ (enforcing action = true -> rel <= ReleaseThrough v)
  /\ Forall (fun sp => Stop sp <= rel \/ rel <= Start sp) (masks_of r' (Key f)).
Proof.
  intros Hf r1 Hp Hi Hs Hv action. destruct (run_ok r ps (fresh_inv r Hf)) as [Hinv _].
  destruct (push_success _ _ _ _ _ _ Hp Hinv) as (acc & Hrel & -> & Hm & Hrl & Hle & _ & Hob).
  destruct (Hob i sr s s1 v Hi Hs Hv) as [H1 H2 H3]. fold action in H1, H2, H3. split; [|split; [|split]].
  - intros Ha sp Hsp. rewrite Hm. specialize (H1 Ha). rewrite Forall_forall in H1. by apply H1.
  - intros Ha Hmt. destruct (H2 Ha Hmt). split; [lia|done].
  - intros Ha. specialize (H3 Ha). lia.
  - destruct (push_ok _ _ _ _ _ Hp Hinv) as [Hinv' _]. destruct (si_masks _ Hinv' (Key f)) as [pre [_ _ (post & Heq & He & Hst)]].
    rewrite Hrl in He, Hst. rewrite Heq. apply Forall_app. split; (eapply Forall_impl; [done|]); intros x Hx; unfold ends_by, starts_from in Hx; lia.
Qed.
