(* ===== verification/KeywordGate.v ===== *)
(** * The keyword rule behind the response stream

    The composition of [Keyword.v] and [ResponseStream.v]: a stream whose only
    rule is a keyword rule with the action [mask].  Every verdict of the session
    passes the checks of the stream, and the bytes sent for a field are the
    field's complete text with exactly the spans replaced that the check of the
    complete text masks. *)

From S2P Require Import Prelude Utf8 Spans Keyword KeywordSpec ResponseStream ResponseStreamSpec.

(** ** Spans on rune boundaries *)

Definition boundary (text : bytes) (p : Z) : Prop :=
  0 <= p <= Z.of_nat (length text) /\ ValidString (drop (Z.to_nat p) text) = true.

Lemma boundary_offset text p : boundary text p -> validStreamOffset text p = true.
Proof.
  intros [Hr Hv]. apply offset_spec. split; [done|]. unfold rune_at.
  destruct (text !! Z.to_nat p) as [c|] eqn:Hc.
  - right. rewrite (drop_S _ _ _ Hc) in Hv. by apply valid_start in Hv.
  - left. apply lookup_ge_None in Hc. lia.
Qed.

Lemma boundary_shift pre text p :
  boundary text p -> boundary (pre ++ text) (Z.of_nat (length pre) + p).
Proof.
  intros [Hr Hv]. split; [rewrite length_app; lia|].
  replace (Z.to_nat (Z.of_nat (length pre) + p)) with (length pre + Z.to_nat p)%nat by lia.
  by rewrite drop_app_add.
Qed.

Section Boundaries.
Context (lower_rune : bytes -> bytes) {regexp : Type} (FindAll : regexp -> bytes -> list (Z * Z)).
Context (lower_wf : forall r, well_formed r = true -> well_formed (lower_rune r) = true).
Context (e : KeywordEngine (regexp := regexp)) (no_regex : useRegex e = false).
Context (words_ok : Forall (fun w => ValidString w = true) (blocklist e)).

Notation keys := (keys_of lower_rune e).
Notation units := (chunks e).
Notation low := (nu lower_rune e).

Lemma suffix_boundary text ta tb :
  caseSensitive e = false -> ValidString text = true -> units text = ta ++ tb -> boundary text (Z.of_nat (length (concat ta))).
Proof.
  unfold chunks. intros -> Hv Hu. pose proof (runes_concat text) as Ht. rewrite Hu, concat_app in Ht.
  split; [rewrite <- Ht, length_app; lia|]. rewrite Nat2Z.id, <- Ht, drop_app_length.
  apply valid_concat. apply valid_well_formed in Hv. rewrite Hu in Hv. by apply Forall_app in Hv as [_ ?].
Qed.

(** A key found in a valid text, case sensitively, starts and ends at rune boundaries. *)
Lemma exact_boundary text k i :
  caseSensitive e = true -> ValidString text = true -> k ∈ keys -> match_at k text i = true ->
  boundary text (Z.of_nat i) /\ boundary text (Z.of_nat (i + length k)).
Proof.
  intros Hcs Hv Hk Hm. pose proof (keys_nonempty _ _ _ Hk) as Hne.
  pose proof (match_at_bound _ _ _ Hne Hm) as Hb. unfold match_at in Hm. rewrite bool_decide_eq_true in Hm.
  assert (Hkv : ValidString k = true).
  { unfold keys_of in Hk. apply list_elem_of_omap in Hk as (w & Hw & Hwk). unfold word_key in Hwk. rewrite Hcs in Hwk.
    rewrite Forall_forall in words_ok. specialize (words_ok w Hw). destruct w as [|c w]; [done|].
    case_bool_decide; [done|]. by inversion Hwk; subst. }
  assert (Hdrop : drop i text = k ++ drop (i + length k) text).
  { rewrite <- Hm at 1. rewrite <- drop_drop. by rewrite take_drop. }
  assert (Hi : ValidString (drop i text) = true).
  { destruct k as [|c k]; [done|]. rewrite <- (take_drop i text), Hdrop in Hv. cbn [app] in Hv.
    apply valid_split in Hv as [_ Hv]; [|by apply (valid_start c k)]. by rewrite Hdrop. }
  split; (split; [lia|]); rewrite Nat2Z.id; [done|]. rewrite Hdrop, valid_app in Hi by done. done.
Qed.

Lemma pos_exact text i : caseSensitive e = true -> (i <= length text)%nat -> pos low (units text) i = i.
Proof.
  intros Hcs Hi. unfold chunks. rewrite Hcs. rewrite (pos_ext _ (fun u => u)); [by apply pos_singletons|].
  intros u. unfold nu. by rewrite Hcs.
Qed.

Lemma norm_exact text : caseSensitive e = true -> norm low (units text) = text.
Proof.
  intros Hcs. unfold chunks. rewrite Hcs. rewrite (norm_ext _ (fun u => u)); [|intros u; unfold nu; by rewrite Hcs].
  unfold norm. by rewrite map_id, concat_singletons.
Qed.

Lemma raw_boundary text sp :
  ValidString text = true -> sp ∈ all_spans low keys (units text) -> boundary text (Start sp) /\ boundary text (Stop sp).
Proof.
  intros Hv Hsp. unfold all_spans in Hsp. apply list_elem_of_In in Hsp. apply in_concat in Hsp as (l & Hl & Hsp).
  apply in_map_iff in Hl as (k & <- & Hk). apply in_map_iff in Hsp as (i & <- & Hi). apply list_elem_of_In in Hk.
  pose proof (match_in_range _ _ _ _ _ Hk Hi) as Hr. unfold span_at, plain. cbn [Start Stop fst snd].
  destruct (caseSensitive e) eqn:Hcs.
  - rewrite norm_exact in Hr, Hi by done. rewrite !pos_exact by (done || lia).
    apply exact_boundary; [done..|]. unfold word_matches in Hi. by apply filter_In in Hi as [_ ?].
  - assert (Hp : forall j, boundary text (Z.of_nat (pos low (units text) j))).
    { intros j. destruct (pos_boundary low (units text) j) as (ta & tb & Hu & ->). by eapply suffix_boundary. }
    split; apply Hp.
Qed.

(** The spans of a valid text lie on rune boundaries. *)
Lemma spans_boundary text :
  ValidString text = true ->
  Forall (fun sp => boundary text (Start sp) /\ boundary text (Stop sp)) (spans_of lower_rune e text).
Proof.
  intros Hv. apply compose_forall.
  - intros o sp [Ho1 Ho2] [Hs1 Hs2]. cbn. split; [done|]. by case_match.
  - apply Forall_forall. intros sp Hsp. by apply raw_boundary.
Qed.

(** The release position is one too. *)
Lemma release_valid text final : ValidString text = true -> boundary text (release_of lower_rune e text final).
Proof.
  intros Hv. assert (Hal : aligned e text) by (by right).
  destruct (caseSensitive e) eqn:Hcs.
  2: { destruct (release_boundary lower_rune e text final Hal) as (ta & tb & Hu & -> & _). by eapply suffix_boundary. }
  unfold release_of. destruct (hold_spans_spec (all_spans low keys (units text))
    (if final then Z.of_nat (length text) else
      let '(normal, positions) := normalizedText lower_rune e text in hold_back normal positions keys (Z.of_nat (length text)))) as (_ & _ & Hst).
  destruct Hst as [->|(sp & Hsp & <-)]; [|by apply (raw_boundary text sp)].
  assert (Hend : boundary text (Z.of_nat (length text))).
  { split; [lia|]. by rewrite Nat2Z.id, drop_all. }
  destruct final; [done|]. unfold normalizedText. rewrite Hcs.
  destruct (hold_back_spec text None keys (Z.of_nat (length text))) as (_ & _ & [->|(i & c & Hi & Hc & ->)]); [done|].
  cbn [at_position]. pose proof (lookup_lt_Some _ _ _ Hi). split; [lia|]. rewrite Nat2Z.id, (drop_S _ _ _ Hi).
  rewrite <- (take_drop_middle _ _ _ Hi) in Hv. by apply valid_split in Hv as [_ ?].
Qed.

(** ** One push *)

Notation kstream := (keywordStream (regexp := regexp)).
#[local] Instance kw_session_inst : StreamSession kstream := keyword_session lower_rune FindAll.

Definition live : nat -> bool := fun _ => false.

(** A stream whose only rule is a keyword rule that masks. *)
Record keyword_gate (r : ResponseStream kstream) (sr : streamRule kstream) (s : kstream) : Prop := mkGateState {
  kg_inv : stream_inv r;
  kg_open : rsClosed r || rsFinished r = false;
  kg_rules : rsRules r = [sr];
  kg_session : session sr = Some s;
  kg_action : rAction (rule sr) = "mask";
  kg_engine : kw_session lower_rune e s
}.

(** The stream and the session agree on field [k], which is still open. *)
Record field_gate (k : string) (r : ResponseStream kstream) (sr : streamRule kstream) (s : kstream) : Prop := mkFieldGate {
  fg_final : kwFinal (field_at k s) = false;
  fg_bytes : kwBytes (field_at k s) = length (text_of r k);
  fg_base : 0 <= field_base (field_at k s);
  fg_tail : tail (field_at k s) = drop (Z.to_nat (field_base (field_at k s))) (text_of r k);
  fg_valid : ValidString (tail (field_at k s)) = true;
  fg_watermark : watermark sr k = field_base (field_at k s);
  fg_released : released_of r k = field_base (field_at k s);
  fg_ends : Forall (ends_by (field_base (field_at k s))) (masks_of r k);
  fg_spans : forall rest, ValidString rest = true ->
    spans_of lower_rune e (text_of r k ++ rest)
    = masks_of r k ++ map (shift (field_base (field_at k s))) (spans_of lower_rune e (tail (field_at k s) ++ rest))
}.

Lemma mask_action lo (g : GuardrailRule) res : rAction g = "mask" -> effectiveStreamAction (rule_action lo g) res lo = "mask".
Proof. unfold rule_action, effectiveStreamAction, streamDecisionAction. intros ->. by destruct res, lo. Qed.

(** A verdict with spans on boundaries past the watermark passes the checks. *)
Lemma verdict_passes text w v :
  w <= ReleaseThrough v <= CheckedThrough v -> CheckedThrough v = Z.of_nat (length text) ->
  validStreamOffset text (ReleaseThrough v) = true ->
  (forall b, BlockStart v = Some b -> w <= b /\ validStreamOffset text b = true) ->
  Forall (fun sp => w <= Start sp /\ validStreamSpan text sp = true) (VSpans v) ->
  verdict_error text w w true v = None.
Proof.
  intros Hr Hc Hrv Hb Hs. pose proof (offset_range _ _ Hrv). apply offset_spec in Hrv as [_ Hrune]. unfold verdict_error.
  assert (((CheckedThrough v <? ReleaseThrough v) || (Z.of_nat (length text) <? CheckedThrough v) || (ReleaseThrough v <? w)
    || (ReleaseThrough v <? 0) || (ReleaseThrough v <? Z.of_nat (length text)) && negb (rune_at text (ReleaseThrough v))) = false) as ->.
  { rewrite !orb_false_iff, !Z.ltb_ge. split_and!; try lia. destruct Hrune as [->| ->]; [by rewrite Z.ltb_irrefl|by rewrite andb_false_r]. }
  assert (match BlockStart v with Some b => true && (b <? w) || negb (validStreamOffset text b) | None => false end = false) as ->.
  { destruct (BlockStart v) as [b|]; [|done]. destruct (Hb b eq_refl) as [Hwb ->]. cbn. rewrite orb_false_r. by apply Z.ltb_ge. }
  assert (existsb (fun sp => true && (Start sp <? w) || negb (validStreamSpan text sp)) (VSpans v) = false) as ->; [|done].
  clear -Hs. induction Hs as [|sp l [H1 H2] Hl IH]; [done|]. cbn [existsb]. rewrite H2, IH. cbn. rewrite !orb_false_r. by apply Z.ltb_ge.
Qed.

(** The body of the loop for the keyword rule, when the verdict passes. *)
Lemma mask_rule lo f text w (sr : streamRule kstream) s s1 v acc :
  session sr = Some s -> rAction (rule sr) = "mask" -> Keyword_Push lower_rune FindAll s false f = inr (v, s1) ->
  watermark sr (Key f) = w -> verdict_error text w w true v = None ->
  (verdict_matched v = true -> BlockStart v <> None) -> acRelease acc = CheckedThrough v -> ReleaseThrough v <= CheckedThrough v ->
  sorted_spans (acMasks acc ++ VSpans v) ->
  exists sr1 acc1, push_rule lo false f text w sr acc = (sr1, acc1, None)
    /\ session sr1 = Some s1 /\ rule sr1 = rule sr /\ watermark sr1 (Key f) = ReleaseThrough v
    /\ (forall k, k <> Key f -> watermark sr1 k = watermark sr k)
    /\ acRelease acc1 = ReleaseThrough v /\ acBlocked acc1 = acBlocked acc /\ acMasks acc1 = acMasks acc ++ VSpans v.
Proof.
  intros Hs Ha Hp Hw Hv Hbs Hrel Hle Hsort. unfold push_rule. rewrite Hs.
  assert (session_push s false f = (s1, inr v)) as ->.
  { unfold session_push, kw_session_inst, keyword_session. by rewrite Hp. }
  rewrite mask_action by done. change (enforcing "mask") with true.
  change (watermark (set_session sr s1) (Key f)) with (watermark sr (Key f)). rewrite Hw, Hv.
  destruct (decide_verdict lo (Key f) "mask" v (set_session sr s1) acc) as [[sr1 acc1] err] eqn:Hd.
  assert (Hd' : err = None /\ session sr1 = Some s1 /\ rule sr1 = rule sr /\ watermarks sr1 = watermarks sr
    /\ acRelease acc1 = acRelease acc /\ acBlocked acc1 = acBlocked acc /\ acMasks acc1 = acMasks acc ++ VSpans v).
  { unfold decide_verdict in Hd. destruct (verdict_matched v || _) eqn:Hm.
    - change (String.eqb "mask" "mask") with true in Hd. change (String.eqb "mask" "block") with false in Hd.
      change (String.eqb "mask" "pass") with false in Hd. cbn [negb andb orb] in Hd. rewrite andb_false_r in Hd. cbn [orb] in Hd.
      unfold emit in Hd. destruct (hit (set_session sr s1)); destruct (VSpans v) as [|x l] eqn:Hx; inversion Hd; subst; cbn [acMasks acRelease acBlocked];
        rewrite ?app_nil_r, ?(merge_sorted _ Hsort); split_and!; try done;
        destruct (verdict_matched v); try done; case_bool_decide as Hbd; try done; by specialize (Hbs eq_refl).
    - inversion Hd; subst. apply orb_false_iff in Hm as [_ Hm%negb_false_iff%bool_decide_eq_true]. by rewrite Hm, app_nil_r. }
  destruct Hd' as (-> & Hs1 & Hru & Hwm & Hr1 & Hb1 & Hm1). cbn [andb].
  eexists _, _. split; [reflexivity|]. cbn [session set_watermark rule acRelease acBlocked acMasks].
  split; [done|]. split; [done|]. unfold watermark. cbn [watermarks set_watermark]. rewrite lookup_insert_eq.
  split; [done|]. split; [intros k Hk; by rewrite lookup_insert_ne, Hwm by done|].
  split; [|done]. rewrite Hr1, Hrel. destruct (Z.ltb_spec (ReleaseThrough v) (CheckedThrough v)); lia.
Qed.

Lemma sorted_shift k l : sorted_spans l -> sorted_spans (map (shift k) l).
Proof.
  intros [Hs Hn]. split.
  - induction Hs as [|x l Hs IH Hx]; cbn [map]; [constructor|]. inversion Hn; subst. constructor; [by apply IH|].
    apply Forall_map. eapply Forall_impl; [exact Hx|]. intros y. unfold disjoint_spans. cbn. lia.
  - apply Forall_map. eapply Forall_impl; [exact Hn|]. intros y. unfold nonempty. cbn. lia.
Qed.

Lemma sorted_filter (g : Span -> bool) l : sorted_spans l -> sorted_spans (List.filter g l).
Proof. intros [Hs Hn]. split; [by apply StronglySorted_filter|by apply Forall_List_filter]. Qed.

Lemma spans_sorted text : sorted_spans (spans_of lower_rune e text).
Proof.
  apply compose_sorted, all_spans_nonneg.
Qed.

Lemma spans_nil : spans_of lower_rune e [] = [].
Proof.
  pose proof (spans_end lower_rune e []) as He. destruct (spans_sorted []) as [_ Hn].
  pose proof (spans_of_after lower_rune e []) as Ha. destruct (spans_of lower_rune e []) as [|sp l]; [done|].
  inversion He; inversion Hn; inversion Ha; subst. unfold ends_by, nonempty in *. cbn in *. lia.
Qed.

(** The spans of the kept text, moved to the position it starts at, are valid spans of the field. *)
Lemma shifted_valid pre text g :
  ValidString text = true ->
  Forall (fun sp => Z.of_nat (length pre) <= Start sp /\ validStreamSpan (pre ++ text) sp = true)
    (map (shift (Z.of_nat (length pre))) (List.filter g (spans_of lower_rune e text))).
Proof.
  intros Hv. apply Forall_map. apply Forall_List_filter.
  pose proof (spans_boundary text Hv) as Hb. destruct (spans_sorted text) as [_ Hn].
  rewrite List.Forall_forall in Hb, Hn |- *. intros sp Hsp. destruct (Hb sp Hsp) as [H1 H2]. specialize (Hn sp Hsp).
  unfold compose, nonempty in *. unfold shift. cbn [Start Stop].
  split; [destruct H1; lia|]. unfold validStreamSpan. cbn [Start Stop].
  rewrite !(Z.add_comm _ (Z.of_nat (length pre))). rewrite !boundary_offset by (by apply boundary_shift).
  rewrite !andb_true_r. apply Z.ltb_lt. lia.
Qed.

Lemma no_mask_ahead masks n : Forall (ends_by n) masks -> before_masks masks n = n.
Proof.
  unfold before_masks. induction 1 as [|sp masks Hsp H IH]; cbn [fold_left]; [done|]. unfold ends_by in Hsp.
  destruct (Z.ltb_spec n (Stop sp)); [lia|]. by rewrite andb_false_r.
Qed.

Record field_done (k : string) (r : ResponseStream kstream) : Prop := mkFieldDone {
  fd_masks : masks_of r k = spans_of lower_rune e (text_of r k);
  fd_released : released_of r k = Z.of_nat (length (text_of r k))
}.

(** What the session answers for a fragment of an open field whose masks so far are [masks] and
    whose text is [full] with the fragment: a verdict that the stream accepts. *)
Record answer (masks : list Span) (full : bytes) (base : Z) (v : StreamVerdict) : Prop := mkAnswer {
  an_checked : CheckedThrough v = Z.of_nat (length full);
  an_release : base <= ReleaseThrough v <= Z.of_nat (length full);
  an_passes : verdict_error full base base true v = None;
  an_block : verdict_matched v = true -> BlockStart v <> None;
  an_sorted : sorted_spans (masks ++ VSpans v);
  an_ends : Forall (ends_by (ReleaseThrough v)) (masks ++ VSpans v)
}.

(** The kept text is the end of the field's text. *)
Lemma kept_suffix k r sr s more :
  field_gate k r sr s ->
  exists pre, text_of r k ++ more = pre ++ tail (field_at k s) ++ more /\ Z.of_nat (length pre) = field_base (field_at k s).
Proof.
  intros [_ Gb Gba Gt _ _ _ _ _]. exists (take (Z.to_nat (field_base (field_at k s))) (text_of r k)). split.
  - rewrite Gt. by rewrite app_assoc, take_drop.
  - rewrite length_take. unfold field_base in *. rewrite Gb in *. lia.
Qed.

Lemma field_answer r sr s f v s1 :
  keyword_gate r sr s -> field_gate (Key f) r sr s -> ValidString (Text f) = true ->
  Keyword_Push lower_rune FindAll s false f = inr (v, s1) ->
  answer (masks_of r (Key f)) (text_of r (Key f) ++ Text f) (field_base (field_at (Key f) s)) v.
Proof.
  intros [Hinv _ _ _ _ Hen] G Hv Hp. destruct (kept_suffix _ _ _ _ (Text f) G) as (pre & Hfull & Hbz).
  destruct G as [Gf Gb Gba _ Gv _ _ Ge _].
  destruct (push_field lower_rune FindAll e no_regex s f Hen Hv Gf) as (v' & s1' & Hp' & _ & Hvs & Hrt & Hct & _ & _ & Hres & Hbs).
  rewrite Hp in Hp'. inversion Hp'; subst v' s1'. clear Hp'.
  set (fd := field_at (Key f) s) in *. set (base := field_base fd) in *. set (text := tail fd ++ Text f) in *.
  assert (Hvt : ValidString text = true) by (by unfold text; rewrite valid_app).
  pose proof (release_valid text (Final f) Hvt) as HR. set (R := release_of lower_rune e text (Final f)) in *.
  pose proof (proj1 HR) as HRr.
  assert (Hbl : base + Z.of_nat (length text) = Z.of_nat (length (text_of r (Key f) ++ Text f))) by (rewrite Hfull, length_app; lia).
  assert (Hct' : CheckedThrough v = Z.of_nat (length (text_of r (Key f) ++ Text f))) by (rewrite Hct, Gb; by rewrite length_app).
  split; [done|lia| | | |].
  - apply verdict_passes; [lia|done|..].
    + rewrite Hrt, Hfull, <- Hbz. by apply boundary_offset, boundary_shift.
    + intros b Hb. rewrite Hbs in Hb. pose proof (spans_boundary text Hvt) as Hsb.
      destruct (spans_of lower_rune e text) as [|sp l]; [done|]. inversion Hb; subst b.
      inversion Hsb as [|?? [H1 _] _]; subst. split; [destruct H1; lia|].
      rewrite Hfull, <- Hbz. by apply boundary_offset, boundary_shift.
    + rewrite Hvs, Hfull, <- Hbz. by apply shifted_valid.
  - unfold verdict_matched. destruct (Result v) as [g|]; [|done]. intros _. rewrite Hbs.
    destruct (spans_of lower_rune e text); [|done]. by pose proof (proj2 Hres eq_refl).
  - destruct (si_masks _ Hinv (Key f)) as [q Hq]. apply (sorted_spans_join base); [apply Hq| |done|].
    + rewrite Hvs. by apply sorted_shift, sorted_filter, spans_sorted.
    + rewrite Hvs, <- Hbz. eapply Forall_impl; [by apply shifted_valid|]. by intros sp [? _].
  - apply Forall_app. split.
    + eapply Forall_impl; [exact Ge|]. intros sp. unfold ends_by. lia.
    + rewrite Hvs. apply Forall_map, List.Forall_forall. intros sp Hsp. apply filter_In in Hsp as [_ Hsp].
      unfold compose, ends_by, shift. cbn. lia.
Qed.

(** What the session keeps: the spans of the whole text are those reported and those of the kept text. *)
Lemma field_keeps r sr s f v s1 :
  keyword_gate r sr s -> field_gate (Key f) r sr s -> ValidString (Text f) = true ->
  Keyword_Push lower_rune FindAll s false f = inr (v, s1) ->
  let full := text_of r (Key f) ++ Text f in
  let fd := field_at (Key f) s1 in
  kw_session lower_rune e s1 /\ kwFinal fd = Final f /\ kwBytes fd = length full /\ field_base fd = ReleaseThrough v
  /\ tail fd = drop (Z.to_nat (ReleaseThrough v)) full /\ ValidString (tail fd) = true
  /\ (Final f = true -> ReleaseThrough v = Z.of_nat (length full))
  /\ (forall rest, ValidString rest = true -> (Final f = true -> rest = []) ->
       spans_of lower_rune e (full ++ rest)
       = (masks_of r (Key f) ++ VSpans v) ++ map (shift (ReleaseThrough v)) (spans_of lower_rune e (tail fd ++ rest))).
Proof.
  intros Hg G Hv Hp. destruct (field_answer _ _ _ _ _ _ Hg G Hv Hp) as [_ Har _ _ _ _].
  destruct (kept_suffix _ _ _ _ (Text f) G) as (pre & Hfull & Hbz). destruct Hg as [_ _ _ _ _ Hen].
  destruct G as [Gf Gb Gba _ Gv _ _ _ Gs].
  destruct (push_field lower_rune FindAll e no_regex s f Hen Hv Gf) as (v' & s1' & Hp' & Hs1 & Hvs & Hrt & _ & Hfd & _).
  rewrite Hp in Hp'. inversion Hp'; subst v' s1'. clear Hp'. cbv zeta. rewrite Hfd. cbn [kwFinal kwBytes tail].
  set (fd := field_at (Key f) s) in *. set (base := field_base fd) in *. set (text := tail fd ++ Text f) in *.
  assert (Hvt : ValidString text = true) by (by unfold text; rewrite valid_app).
  pose proof (release_valid text (Final f) Hvt) as [HRr HRv]. set (R := release_of lower_rune e text (Final f)) in *.
  rewrite Hrt. split_and!; try done.
  - by rewrite Gb, length_app.
  - unfold field_base. cbn [kwBytes tail]. rewrite length_drop, Gb. rewrite Hfull, length_app in Har.
    fold text in Har. rewrite Hrt in Har. rewrite <- length_app, Hfull, length_app. fold text. lia.
  - rewrite Hfull. fold text. replace (Z.to_nat (base + R)) with (length pre + Z.to_nat R)%nat by lia. by rewrite drop_app_add.
  - intros Hfin. subst R. rewrite Hfin, release_final, Hfull, length_app. fold text. lia.
  - intros rest Hrest Hnil. rewrite <- app_assoc, Gs by (by rewrite valid_app). fold base. rewrite app_assoc. fold text.
    destruct (release_step lower_rune lower_wf e text rest (Final f)) as (_ & _ & Hst); try done; [by right|].
    unfold spans_of at 1. rewrite Hst, map_app, map_shift_shift, app_assoc, Hvs. done.
Qed.

(** A fragment of an open field: the push succeeds and the field stays in step with the session. *)
Lemma field_step r sr s f :
  keyword_gate r sr s -> field_gate (Key f) r sr s -> ValidString (Text f) = true ->
  rsRunes r + Z.of_nat (RuneCount (Text f)) <= rsMaxRunes r ->
  exists r' sr' s' rel, Push r live f = (r', inr (rel, None)) /\ keyword_gate r' sr' s'
    /\ rsMaxRunes r' = rsMaxRunes r /\ rsRunes r' = rsRunes r + Z.of_nat (RuneCount (Text f))
    /\ text_of r' (Key f) = text_of r (Key f) ++ Text f /\ is_Some (rsText r' !! Key f)
    /\ (Final f = false -> field_gate (Key f) r' sr' s') /\ (Final f = true -> field_done (Key f) r').
Proof.
  intros Hg G Hv Hmax. pose proof Hg as [Hinv Hop Hru Hse Hac Hen]. pose proof G as [Gf _ Gba _ _ Gw Gr _ _].
  destruct (push_field lower_rune FindAll e no_regex s f Hen Hv Gf) as (v & s1 & Hp & _).
  destruct (field_answer _ _ _ _ _ _ Hg G Hv Hp) as [Hct Har Hpass Hbs Hsort Hends].
  destruct (field_keeps _ _ _ _ _ _ Hg G Hv Hp) as (Hs1 & Kf & Kb & Kba & Kt & Kv & Kr & Ks).
  set (base := field_base (field_at (Key f) s)) in *. set (full := text_of r (Key f) ++ Text f) in *.
  destruct (mask_rule (rsLogOnly r) f full base sr s s1 v (mkAcc (Z.of_nat (length full)) None (masks_of r (Key f)) (rsEvents r)))
    as (sr1 & acc1 & Hpr & Hse1 & Hru1 & Hw1 & _ & Hrel1 & Hbl1 & Hm1); try done; [lia|].
  cbn [acBlocked acMasks] in Hbl1, Hm1. rewrite <- Hm1 in Hends.
  destruct (Push r live f) as [r' res] eqn:HP. destruct (push_ok r live f r' res HP Hinv) as [Hinv' _].
  unfold Push in HP. rewrite Hop, Hv in HP. cbn [live negb] in HP.
  destruct (Z.ltb_spec (rsMaxRunes r) (rsRunes r + Z.of_nat (RuneCount (Text f)))); [lia|].
  rewrite Hru in HP. fold full in HP. cbn [push_rules live] in HP. rewrite Gr in HP.
  change (live 1) with false in HP. rewrite Hpr, Hrel1, (no_mask_ahead _ _ Hends), Hbl1 in HP. inversion HP; subst r' res. clear HP.
  assert (Htext : forall a b c d g h i j l m n, text_of (mkResponseStream kstream a b (<[Key f := full]> c) d g h i j l m n) (Key f) = full).
  { intros. unfold text_of. cbn. by rewrite lookup_insert_eq. }
  eexists _, sr1, s1, (ReleaseThrough v). split; [reflexivity|].
  split; [split; try done; by rewrite Hru1|]. split; [done|]. split; [done|]. split; [apply Htext|].
  split; [cbn; rewrite lookup_insert_eq; eauto|]. split; intros Hfin.
  - split; rewrite ?Htext, ?Kba; unfold released_of, masks_of; cbn [rsReleased rsMasks];
      rewrite ?lookup_insert_eq; cbn [default from_option]; try done; [congruence|lia|].
    intros rest Hrest. rewrite Hm1. apply Ks; [done|congruence].
  - specialize (Kr Hfin). specialize (Ks [] eq_refl (fun _ => eq_refl)).
    rewrite Kt, Kr, Nat2Z.id, drop_all, !app_nil_r, spans_nil in Ks. cbn [map] in Ks. rewrite app_nil_r in Ks.
    split; rewrite ?Htext; unfold released_of, masks_of; cbn [rsReleased rsMasks]; rewrite lookup_insert_eq; cbn [from_option];
      [by rewrite Hm1, Ks|done].
Qed.

(** *** Fragments of other fields *)

Lemma decide_session lo k action v (sr : streamRule kstream) acc :
  session (decide_verdict lo k action v sr acc).1.1 = session sr.
Proof. unfold decide_verdict, observe, emit. repeat (case_match; simplify_eq; cbn in *; try done). Qed.

Lemma push_rule_session lo c f text w (sr : streamRule kstream) s acc :
  session sr = Some s -> session (push_rule lo c f text w sr acc).1.1 = Some (session_push s c f).1.
Proof.
  intros Hs. unfold push_rule. rewrite Hs. destruct (session_push s c f) as [s1 [err|v]]; [done|].
  destruct (verdict_error _ _ _ _ v); [done|].
  pose proof (decide_session lo (Key f) (effectiveStreamAction (rule_action lo (rule (set_session sr s1))) (Result v) lo) v (set_session sr s1) acc) as Hd.
  destruct (decide_verdict _ _ _ _ _ _) as [[sr2 acc2] [err|]]; exact Hd.
Qed.

Lemma push_static (r : ResponseStream kstream) ctx f :
  let r' := (Push r ctx f).1 in
  rsClosed r' = rsClosed r /\ rsFinished r' = rsFinished r /\ rsMaxRunes r' = rsMaxRunes r
  /\ rsRunes r' <= rsRunes r + Z.of_nat (RuneCount (Text f)).
Proof. unfold Push. repeat (case_match; cbn [fst]); split_and!; try done; cbn [rsRunes]; lia. Qed.

Lemma push_one_session (r : ResponseStream kstream) f sr s :
  rsRules r = [sr] -> session sr = Some s ->
  exists sr', rsRules (Push r live f).1 = [sr'] /\ (session sr' = Some s \/ session sr' = Some (session_push s false f).1).
Proof.
  intros Hr Hs. unfold Push. repeat (case_match; cbn [fst rsRules]; try (by exists sr; split; [|left])).
  all: rewrite Hr in *; cbn [push_rules] in *.
  all: pose proof (push_rule_session (rsLogOnly r) (live 1) f (text_of r (Key f) ++ Text f) (released_of r (Key f)) sr s
    (mkAcc (Z.of_nat (length (text_of r (Key f) ++ Text f))) None (masks_of r (Key f)) (rsEvents r)) Hs) as Hps.
  all: destruct (push_rule _ _ _ _ _ _ _) as [[sr1 acc1] [err1|]]; simplify_eq; exists sr1; split; [done|by right].
Qed.

Lemma other_step r sr s f k :
  keyword_gate r sr s -> field_gate k r sr s -> of_key k f = false ->
  exists sr' s', let r' := (Push r live f).1 in
    keyword_gate r' sr' s' /\ field_gate k r' sr' s' /\ rsMaxRunes r' = rsMaxRunes r
    /\ rsRunes r' <= rsRunes r + Z.of_nat (RuneCount (Text f)) /\ text_of r' k = text_of r k.
Proof.
  intros [Hinv Hop Hru Hse Hac Hen] G Hk.
  assert (Hne : k <> Key f) by (unfold of_key in Hk; by apply String.eqb_neq, not_eq_sym in Hk).
  destruct (push_static r live f) as (Hc & Hf & Hm & Hrn). destruct (push_one_session r f sr s Hru Hse) as (sr' & Hru' & Hse').
  destruct (Push r live f) as [r' res] eqn:HP. cbn [fst] in *.
  destruct (push_updates _ _ _ _ _ HP Hinv) as (Hinv' & _ & [_ Ut Ur Um Uru]).
  rewrite Hru, Hru' in Uru. inversion Uru as [|???? [Sr _ _ _ Sw] _]; subst.
  assert (Hses : exists s', session sr' = Some s' /\ kw_session lower_rune e s' /\ field_at k s' = field_at k s).
  { destruct Hse' as [Hse'|Hse']; [by exists s|]. eexists. split; [exact Hse'|].
    unfold session_push, kw_session_inst, keyword_session. pose proof (push_other lower_rune FindAll s f k Hk) as Ho.
    destruct (Keyword_Push lower_rune FindAll s false f) as [err|[v s1]]; [done|]. cbn [fst].
    destruct Ho as (Hfd & H1 & H2 & H3). split; [|done]. destruct Hen. split; congruence. }
  destruct Hses as (s' & Hs' & Hen' & Hfd). exists sr', s'. cbv zeta.
  split; [split; try done; [by rewrite Hc, Hf|by rewrite <- Sr]|].
  split; [|by rewrite Ut]. destruct G. split; rewrite ?Hfd, ?Ut, ?Ur, ?Um, <- ?Sw by done; done.
Qed.

(** ** The whole field *)

Definition rune_total (fs : list StreamFragment) : Z := Z.of_nat (list_sum (map (fun f => RuneCount (Text f)) fs)).

Lemma rune_total_cons f fs : rune_total (f :: fs) = Z.of_nat (RuneCount (Text f)) + rune_total fs.
Proof. unfold rune_total. rewrite map_cons, <- Nat2Z.inj_add. done. Qed.

Lemma run_field k fs r sr s :
  keyword_gate r sr s -> field_gate k r sr s -> open_field k fs -> rsRunes r + rune_total fs <= rsMaxRunes r ->
  exists sr' s', let r' := run_stream r (map (pair live) fs) in
    keyword_gate r' sr' s' /\ field_gate k r' sr' s' /\ rsMaxRunes r' = rsMaxRunes r
    /\ rsRunes r' <= rsRunes r + rune_total fs /\ text_of r' k = text_of r k ++ field_text k fs.
Proof.
  intros Hg G Hop. revert r sr s Hg G. induction Hop as [|f fs Hf Hop IH]; intros r sr s Hg G Hmax; cbn [map run_stream].
  { exists sr, s. cbv zeta. split_and!; try done; [unfold rune_total; cbn [map list_sum fold_right]; lia|unfold field_text; cbn; by rewrite app_nil_r]. }
  pose proof (rune_total_cons f fs) as Hsum.
  assert (Hpos : 0 <= rune_total fs) by (unfold rune_total; lia). unfold field_text. cbn [List.filter].
  destruct (of_key k f) eqn:Hk.
  - destruct (Hf eq_refl) as [Hv Hfin]. unfold of_key in Hk. apply String.eqb_eq in Hk. subst k.
    destruct (field_step r sr s f Hg G Hv) as (r1 & sr1 & s1 & rel & -> & Hg1 & Hm1 & Hr1 & Ht1 & _ & G1 & _); [lia|].
    destruct (IH r1 sr1 s1 Hg1 (G1 Hfin)) as (sr2 & s2 & Hg2 & G2 & Hm2 & Hr2 & Ht2); [lia|].
    exists sr2, s2. cbv zeta. cbn [fst map concat]. split_and!; try done; [congruence|lia|].
    rewrite Ht2, Ht1. fold (field_text (Key f) fs). by rewrite app_assoc.
  - destruct (other_step r sr s f k Hg G Hk) as (sr1 & s1 & Hg1 & G1 & Hm1 & Hr1 & Ht1).
    destruct (IH _ sr1 s1 Hg1 G1) as (sr2 & s2 & Hg2 & G2 & Hm2 & Hr2 & Ht2); [lia|].
    exists sr2, s2. cbv zeta. split_and!; try done; [congruence|lia|]. rewrite Ht2, Ht1. by unfold field_text.
Qed.

(** The gate as it is created. *)
Lemma fresh_gate r sr s k :
  fresh r -> rsClosed r || rsFinished r = false -> rsRules r = [sr] -> session sr = Some s -> rAction (rule sr) = "mask" ->
  Keyword_NewStream lower_rune e false = inr s -> keyword_gate r sr s /\ field_gate k r sr s.
Proof.
  intros Hf Hop Hru Hse Hac Hnew. destruct (new_session lower_rune e no_regex s Hnew) as [Hs Hfd].
  split; [split; try done; by apply fresh_inv|]. destruct Hf as (Ht & Hr & Hm & Hw). rewrite Hru in Hw. inversion Hw as [|?? Hw1 _]; subst.
  split; rewrite ?Hfd; unfold text_of, released_of, masks_of, watermark; rewrite ?Ht, ?Hr, ?Hm, ?Hw1, ?lookup_empty; try done.
  intros rest _. cbn. by rewrite shift_0.
Qed.
End Boundaries.

(** C7: The keyword rule and the response stream composed: whatever way a field is cut into fragments,
    interleaved with fragments of other fields, every byte of it is released with its last
    fragment and the bytes sent are its complete text with the spans replaced that the check of
    the complete text masks, no more and no less. *)
Theorem keyword_mask_end_to_end lower_rune {regexp} (FindAll : regexp -> bytes -> list (Z * Z)) e s
    (r : ResponseStream (keywordStream (regexp := regexp))) sr k fs last :
  (forall c, well_formed c = true -> well_formed (lower_rune c) = true) ->
  Forall (fun w => ValidString w = true) (blocklist e) ->
  Keyword_NewStream lower_rune e false = inr s ->
  fresh r -> rsClosed r || rsFinished r = false -> rsRules r = [sr] -> session sr = Some s -> rAction (rule sr) = "mask" ->
  open_field k fs -> Key last = k -> ValidString (Text last) = true -> Final last = true ->
  rsRunes r + rune_total (fs ++ [last]) <= rsMaxRunes r ->
  let ps := map (pair live) (fs ++ [last]) in
  let content := field_text k (fs ++ [last]) in
  let r' := run_stream (H := keyword_session lower_rune FindAll) r ps in
  emitted (H := keyword_session lower_rune FindAll) r ps k
  = applySpans content (MaskedSpans (Keyword_Check lower_rune FindAll e content))
  /\ released_of r' k = Z.of_nat (length content) /\ text_of r' k = content.
Proof.
  intros Hlow Hw Hnew Hf Hop Hru Hse Hac Hopen <- Hv Hfin Hmax.
  assert (Hre : useRegex e = false) by (unfold Keyword_NewStream in Hnew; by destruct (useRegex e)).
  destruct (fresh_gate lower_rune FindAll e Hre r sr s (Key last) Hf Hop Hru Hse Hac Hnew) as [Hg G].
  assert (Hsum : rune_total (fs ++ [last]) = rune_total fs + Z.of_nat (RuneCount (Text last))).
  { unfold rune_total. rewrite map_app, list_sum_app. cbn [map list_sum fold_right]. lia. }
  destruct (run_field lower_rune FindAll Hlow e Hre Hw (Key last) fs r sr s Hg G Hopen) as (sr1 & s1 & Hg1 & G1 & Hm1 & Hr1 & Ht1); [lia|].
  destruct (field_step lower_rune FindAll Hlow e Hre Hw _ sr1 s1 last Hg1 G1 Hv) as (r2 & sr2 & s2 & rel & Hp & Hg2 & _ & _ & Ht2 & Hk2 & _ & Hdone); [lia|].
  destruct (Hdone Hfin) as [Hmasks Hrel]. unfold kw_session_inst in *. cbv zeta. rewrite map_app, run_stream_app. cbn [map run_stream]. rewrite Hp. cbn [fst].
  assert (Htx : text_of r2 (Key last) = field_text (Key last) (fs ++ [last])).
  { rewrite Ht2, Ht1, field_text_app. unfold of_key. rewrite String.eqb_refl.
    unfold text_of at 1. destruct Hf as (-> & _). by rewrite lookup_empty. }
  split; [|split; [by rewrite Hrel, Htx|done]].
  rewrite emitted_rendered by (by apply fresh_inv). rewrite run_stream_app. cbn [run_stream]. rewrite Hp. cbn [fst].
  assert (Hr0 : released_of r (Key last) = 0) by (unfold released_of; destruct Hf as (_ & -> & _); by rewrite lookup_empty).
  rewrite Hr0, Hrel, Hmasks, Htx, checked_spans by done.
  rewrite rendered_apply; [|apply spans_sorted|apply spans_end|lia|].
  - by rewrite applySpans_from.
  - eapply Forall_impl; [apply spans_of_after|]. by intros sp [? _].
Qed.

Definition gate_rule : streamRule (keywordStream (regexp := unit)) :=
  mkStreamRule _ (mkGuardRule 1 None "words" "keyword_filter" "response" true "" "medium" "mask" None 1) false
    (Some sample_session) false false ∅ false.

Definition gate_stream : ResponseStream (keywordStream (regexp := unit)) :=
  mkResponseStream _ 1000 [gate_rule] ∅ [] ∅ 0 false false ∅ false [].

(** "my SECRetry!" is sent as "my [REDACTED]!", however it was cut. *)
Lemma keyword_mask_end_to_end_witness :
  let fs := sample_fragments ++ [mkFragment "a" (bytes_of "ry!") true false] in
  emitted (H := keyword_session ascii_lower_rune no_regexp) gate_stream (map (pair live) fs) "a" = bytes_of "my [REDACTED]!".
Proof.
  cbv zeta.
  destruct (keyword_mask_end_to_end ascii_lower_rune no_regexp keyword_engine sample_session gate_stream gate_rule "a" sample_fragments
              (mkFragment "a" (bytes_of "ry!") true false)) as [-> _].
  - exact ascii_lower_wf.
  - repeat constructor.
  - reflexivity.
  - repeat split; repeat constructor.
  - reflexivity.
  - reflexivity.
  - reflexivity.
  - reflexivity.
  - repeat constructor; intros; by vm_compute.
  - reflexivity.
  - reflexivity.
  - reflexivity.
  - vm_compute. discriminate.
  - vm_compute. reflexivity.
Defined.

Lemma gate_stream_fresh : fresh gate_stream.
Proof. repeat split; repeat constructor. Qed.

(** "my " is rendered the same after the word that follows it is masked. *)
Lemma released_text_is_final_witness :
  let H := keyword_session ascii_lower_rune no_regexp in
  let r1 := run_stream gate_stream (map (pair live) sample_fragments) in
  let r2 := run_stream r1 [(live, mkFragment "a" (bytes_of "ry!") true false)] in
  Render r2 "a" 0 3 = inr (bytes_of "my ") /\ released_of r1 "a" = 3 /\ released_of r2 "a" = 12.
Proof.
  cbv zeta.
  destruct (released_text_is_final (H := keyword_session ascii_lower_rune no_regexp) gate_stream (map (pair live) sample_fragments)
    [(live, mkFragment "a" (bytes_of "ry!") true false)] "a" 0 3 (bytes_of "my ")) as [-> _].
  - exact gate_stream_fresh.
  - vm_compute. reflexivity.
  - vm_compute. discriminate.
  - split; [reflexivity|split; vm_compute; reflexivity].
Defined.

Lemma emitted_pieces_join_witness :
  let H := keyword_session ascii_lower_rune no_regexp in
  let ps := map (pair live) (sample_fragments ++ [mkFragment "a" (bytes_of "ry! and on") false false]) in
  Render (run_stream gate_stream ps) "a" 0 (released_of (run_stream gate_stream ps) "a") = inr (bytes_of "my [REDACTED]! and on").
Proof.
  cbv zeta.
  rewrite (emitted_pieces_join (H := keyword_session ascii_lower_rune no_regexp) gate_stream
    (map (pair live) (sample_fragments ++ [mkFragment "a" (bytes_of "ry! and on") false false])) "a").
  - vm_compute. reflexivity.
  - exact gate_stream_fresh.
  - vm_compute. eauto.
Defined.

(** The verdict on the fragment that completes the word reports it, and the stream masks it. *)
Lemma verdicts_are_obeyed_witness :
  let H := keyword_session ascii_lower_rune no_regexp in
  let r1 := run_stream gate_stream (map (pair live) sample_fragments) in
  let f := mkFragment "a" (bytes_of "ry!") false false in
  exists m, m ∈ masks_of (Push r1 live f).1 "a" /\ covers m (mkSpan 3 11 redacted false).
Proof.
  cbv zeta.
  pose (H := keyword_session ascii_lower_rune no_regexp).
  pose (r1 := run_stream gate_stream (map (pair live) sample_fragments)).
  pose (f := mkFragment "a" (bytes_of "ry!") false false).
  pose (s := match session (default gate_rule (rsRules r1 !! O)) with Some s => s | None => sample_session end).
  pose (v := match (session_push s false f).2 with inr v => v | inl _ => mkVerdict 0 0 None [] None end).
  destruct (verdicts_are_obeyed (H := H) gate_stream (map (pair live) sample_fragments) live f (Push r1 live f).1 12 None 0
    (default gate_rule (rsRules r1 !! O)) s (session_push s false f).1 v) as [Hmask _].
  - exact gate_stream_fresh.
  - vm_compute. reflexivity.
  - vm_compute. reflexivity.
  - vm_compute. reflexivity.
  - vm_compute. reflexivity.
  - apply Hmask; [vm_compute; reflexivity|].
    assert (Hv : VSpans v = [mkSpan 3 11 redacted false]) by (vm_compute; reflexivity). rewrite Hv. left.
Defined.
