(* ===== verification/Length.v ===== *)
(** * The length guardrail: [internal/guardrail/length.go] and [length_stream.go]

    The engine counts the characters of a complete text; its streaming session
    keeps a running count over the fields of a response, one separator between
    two fields, and cuts the text at the last character that fits.  The lemmas
    relate the running count to the count of the joined text. *)

From stdpp Require Import pretty.
From S2P Require Import Prelude Utf8 Spans Keyword KeywordSpec ResponseStream.

Record lengthConfig := mkLengthConfig { cfgMaxInput : Z; cfgMaxOutput : Z }.

Record LengthEngine := mkLength { maxInputChars : Z; maxOutputChars : Z }.

Definition length_name : string := "content_length".

(** [NewLengthEngineFromConfig] on a decoded configuration *)
Definition NewLengthEngine (cfg : lengthConfig) : LengthEngine :=
  mkLength (if cfgMaxInput cfg =? 0 then 100000 else cfgMaxInput cfg) (if cfgMaxOutput cfg =? 0 then 50000 else cfgMaxOutput cfg).

Definition length_reason (what : string) (n max : Z) : bytes :=
  bytes_of (what +:+ " length " +:+ pretty n +:+ " exceeds max " +:+ pretty max +:+ " characters").

Definition output_exceeded (n max : Z) : GuardrailResult :=
  mkResult true length_name (length_reason "output" n max) "low" [] [] "[OUTPUT_LENGTH_EXCEEDED]".

Definition Length_Check (e : LengthEngine) (content : bytes) (direction : string) : GuardrailResult :=
  let length := Z.of_nat (RuneCount content) in
  let dir d := String.eqb direction d in
  if (dir "request" || dir "both") && (0 <? maxInputChars e) && (maxInputChars e <? length) then
    mkResult true length_name (length_reason "input" length (maxInputChars e)) "low" [] [] ""
  else if (dir "response" || dir "both") && (0 <? maxOutputChars e) && (maxOutputChars e <? length) then
    output_exceeded length (maxOutputChars e)
  else pass_result.

(** ** The streaming session *)

Record lengthStreamField := mkLengthField { lfBytes : Z; lfRunes : Z; lfFinal : bool; lfTool : bool }.

Record lengthStream := mkLengthStream {
  lsEngine : LengthEngine; lsFields : gmap string lengthStreamField; lsRunes : Z; lsClosed : bool
}.

Definition Length_NewStream (e : LengthEngine) (ctxErr : bool) : stream_error + lengthStream :=
  if ctxErr then inl CtxDone else inr (mkLengthStream e ∅ 0 false).

(** [lengthStream.check] *)
Definition length_check (e : LengthEngine) (runes : Z) : option GuardrailResult :=
  if (0 <? maxOutputChars e) && (maxOutputChars e <? runes) then Some (output_exceeded runes (maxOutputChars e)) else None.

(** The loop over the runes of the fragment: where the text that still fits ends. *)
Fixpoint cut_runes (rs : list bytes) (start off remaining : Z) (previous : Z) : Z :=
  match rs with
  | [] => start
  | r :: rs =>
      if remaining =? 0 then start
      else cut_runes rs (previous + off + Z.of_nat (length r)) (off + Z.of_nat (length r)) (remaining - 1) previous
  end.

Definition Length_Push (s : lengthStream) (ctxErr : bool) (f : StreamFragment) : stream_error + (StreamVerdict * lengthStream) :=
  if ctxErr then inl CtxDone
  else if lsClosed s then inl StreamClosed
  else if negb (ValidString (Text f)) then inl InvalidUtf8
  else
    let exists_ := bool_decide (is_Some (lsFields s !! Key f)) in
    let field := default (mkLengthField 0 0 false false) (lsFields s !! Key f) in
    if lfFinal field then inl FieldCompleted
    else
      let before := if negb exists_ && negb (bool_decide (lsFields s = ∅)) then lsRunes s + 1 else lsRunes s in
      let tool := if exists_ then lfTool field else Tool f in
      let previousBytes := lfBytes field in
      let added := if tool then 0 else Z.of_nat (RuneCount (Text f)) in
      let runes := before + added in
      let field := mkLengthField (lfBytes field + Z.of_nat (length (Text f))) (lfRunes field + added) (Final f) tool in
      let s := mkLengthStream (lsEngine s) (<[Key f := field]> (lsFields s)) runes (lsClosed s) in
      match length_check (lsEngine s) runes with
      | Some result =>
          let remaining := Z.max (maxOutputChars (lsEngine s) - before) 0 in
          let start := if tool then previousBytes else cut_runes (split_runes (Text f)) previousBytes 0 remaining previousBytes in
          inr (mkVerdict (lfBytes field) start (Some result) [] (Some start), s)
      | None => inr (mkVerdict (lfBytes field) (lfBytes field) None [] None, s)
      end.

Inductive replacement_error := RCtxDone | RClosed | RInvalid.

(** [CheckReplacements]: completed snapshots replace the text of fields already counted; the
    iteration order of the Go map does not show, every key is read before any is written. *)
Definition CheckReplacements (s : lengthStream) (ctxErr : bool) (texts : gmap string bytes)
    : replacement_error + (option GuardrailResult * lengthStream) :=
  if ctxErr then inl RCtxDone
  else if lsClosed s then inl RClosed
  else
    let entries := map_to_list texts in
    if existsb (fun '(k, text) => bool_decide (lsFields s !! k = None) || negb (ValidString text)) entries then inl RInvalid
    else
      let old k := default 0 (lfRunes <$> lsFields s !! k) in
      let delta := foldr (fun '(k, text) acc => acc + (Z.of_nat (RuneCount text) - old k)) 0 entries in
      let fields := foldr (fun '(k, text) fields =>
        alter (fun fd => mkLengthField (lfBytes fd) (Z.of_nat (RuneCount text)) (lfFinal fd) (lfTool fd)) k fields)
        (lsFields s) entries in
      let s := mkLengthStream (lsEngine s) fields (lsRunes s + delta) (lsClosed s) in
      inr (length_check (lsEngine s) (lsRunes s), s).

Definition CheckReplacement (s : lengthStream) (ctxErr : bool) (key : string) (text : bytes) :=
  CheckReplacements s ctxErr {[ key := text ]}.

Definition Length_Close (s : lengthStream) : lengthStream := mkLengthStream (lsEngine s) ∅ (lsRunes s) true.

#[export] Instance length_session : StreamSession lengthStream :=
  fun s ctxErr f =>
    match Length_Push s ctxErr f with
    | inl e => (s, inl e)
    | inr (v, s) => (s, inr v)
    end.

(** ** The running count *)

(** The keys of the fields in order of appearance. *)
Definition keys_in (fs : list StreamFragment) : list string :=
  fold_left (fun ks f => if bool_decide (Key f ∈ ks) then ks else ks ++ [Key f]) fs [].

(** The complete response as the whole-response check reads it: its fields, one per line. *)
Fixpoint join_fields (texts : list bytes) : bytes :=
  match texts with
  | [] => []
  | [text] => text
  | text :: texts => text ++ bytes_of (String "010" EmptyString) ++ join_fields texts
  end.

Definition joined (fs : list StreamFragment) : bytes := join_fields (map (fun k => field_text k fs) (keys_in fs)).

Definition sum_runes (texts : list bytes) : Z := foldr (fun text n => Z.of_nat (RuneCount text) + n) 0 texts.

(** The separators between [n] fields. *)
Definition separators (n : nat) : Z := Z.max (Z.of_nat n - 1) 0.

Lemma count_join texts :
  Forall (fun text => ValidString text = true) texts ->
  Z.of_nat (RuneCount (join_fields texts)) = sum_runes texts + separators (length texts).
Proof.
  unfold separators. induction 1 as [|text texts Hv Hvs IH]; [done|]. cbn [sum_runes foldr]. fold (sum_runes texts).
  destruct texts as [|text' texts]; [cbn [join_fields sum_runes foldr length]; lia|].
  change (join_fields (text :: text' :: texts)) with (text ++ bytes_of (String "010" EmptyString) ++ join_fields (text' :: texts)).
  rewrite RuneCount_app, RuneCount_app by done. change (RuneCount (bytes_of (String "010" EmptyString))) with 1%nat.
  cbn [length] in *. lia.
Qed.

Lemma keys_snoc fs f : keys_in (fs ++ [f]) = if bool_decide (Key f ∈ keys_in fs) then keys_in fs else keys_in fs ++ [Key f].
Proof. unfold keys_in. by rewrite fold_left_app. Qed.

Lemma keys_nodup fs : NoDup (keys_in fs).
Proof.
  induction fs as [|f fs IH] using rev_ind; [constructor|]. rewrite keys_snoc. case_bool_decide; [done|].
  apply NoDup_app. split; [done|]. split; [by intros x Hx ->%list_elem_of_singleton|apply NoDup_singleton].
Qed.

Lemma field_text_nil k fs : k ∉ keys_in fs -> field_text k fs = [].
Proof.
  induction fs as [|f fs IH] using rev_ind; intros Hk; [done|]. rewrite field_text_app. rewrite keys_snoc in Hk.
  unfold of_key. destruct (String.eqb_spec (Key f) k) as [<-|Hne].
  - exfalso. apply Hk. case_bool_decide; [done|]. set_solver.
  - rewrite app_nil_r. apply IH. case_bool_decide; set_solver.
Qed.

Lemma field_text_valid k fs : Forall (fun f => ValidString (Text f) = true) fs -> ValidString (field_text k fs) = true.
Proof.
  induction fs as [|f fs IH] using rev_ind; intros Hv; [done|]. apply Forall_app in Hv as [Hv Hf]. inversion Hf; subst.
  rewrite field_text_app, valid_app by auto. by destruct (of_key k f).
Qed.

Lemma sum_runes_map_app (g : string -> bytes) a b : sum_runes (map g (a ++ b)) = sum_runes (map g a) + sum_runes (map g b).
Proof. unfold sum_runes. induction a as [|x a IH]; cbn [app map foldr]; [lia|]. rewrite IH. lia. Qed.

(** A fragment adds its runes to the sum over the fields. *)
Lemma sum_extend ks fs f :
  NoDup ks -> Forall (fun f => ValidString (Text f) = true) fs ->
  sum_runes (map (fun k => field_text k (fs ++ [f])) ks)
  = sum_runes (map (fun k => field_text k fs) ks) + (if bool_decide (Key f ∈ ks) then Z.of_nat (RuneCount (Text f)) else 0).
Proof.
  intros Hnd Hv. induction Hnd as [|k ks Hk Hnd IH]; cbn [map]; [done|].
  unfold sum_runes in *. cbn [foldr]. rewrite IH, field_text_app. unfold of_key.
  destruct (String.eqb_spec (Key f) k) as [<-|Hne].
  - rewrite RuneCount_app by (by apply field_text_valid). rewrite (bool_decide_false _ Hk), bool_decide_true by set_solver. lia.
  - rewrite app_nil_r. case_bool_decide; case_bool_decide; try lia; set_solver.
Qed.

Lemma sum_fields fs :
  Forall (fun f => ValidString (Text f) = true) fs ->
  sum_runes (map (fun k => field_text k fs) (keys_in fs)) = sum_runes (map Text fs).
Proof.
  induction fs as [|f fs IH] using rev_ind; intros Hv; [done|]. apply Forall_app in Hv as [Hv Hf].
  assert (Hm : sum_runes (map Text (fs ++ [f])) = sum_runes (map Text fs) + Z.of_nat (RuneCount (Text f))).
  { clear. unfold sum_runes. induction fs as [|x fs IH]; cbn [app map foldr]; lia. }
  rewrite Hm, <- IH by done. clear Hm IH. rewrite keys_snoc. case_bool_decide as Hk.
  - rewrite sum_extend by (done || apply keys_nodup). by rewrite bool_decide_true.
  - rewrite sum_runes_map_app, sum_extend by (done || apply keys_nodup). rewrite bool_decide_false by done.
    cbn [map]. unfold sum_runes at 2. cbn [foldr]. rewrite field_text_app, (field_text_nil _ _ Hk). unfold of_key. rewrite String.eqb_refl.
    cbn [app]. lia.
Qed.

Lemma count_joined fs :
  Forall (fun f => ValidString (Text f) = true) fs ->
  Z.of_nat (RuneCount (joined fs)) = sum_runes (map Text fs) + separators (length (keys_in fs)).
Proof.
  intros Hv. unfold joined. rewrite count_join, sum_fields, length_map; [done|done|].
  apply Forall_map, Forall_true. intros k. by apply field_text_valid.
Qed.

(** A session that accepted the fragments [fs], none of them final and none of a tool call. *)
Record length_state (e : LengthEngine) (fs : list StreamFragment) (s : lengthStream) : Prop := mkLengthState {
  lt_engine : lsEngine s = e;
  lt_open : lsClosed s = false;
  lt_runes : lsRunes s = Z.of_nat (RuneCount (joined fs));
  lt_keys : forall k, is_Some (lsFields s !! k) <-> k ∈ keys_in fs;
  lt_fields : forall k fd, lsFields s !! k = Some fd ->
    fd = mkLengthField (Z.of_nat (length (field_text k fs))) (Z.of_nat (RuneCount (field_text k fs))) false false
}.

Definition text_fragment (f : StreamFragment) : Prop := ValidString (Text f) = true /\ Tool f = false.

Lemma cut_runes_spec rs start off remaining previous :
  0 <= remaining ->
  cut_runes rs start off remaining previous
  = match take (Z.to_nat remaining) rs with
    | [] => start
    | fit => previous + off + Z.of_nat (length (concat fit))
    end.
Proof.
  revert start off remaining. induction rs as [|r rs IH]; intros start off remaining Hr; cbn [cut_runes].
  { by rewrite take_nil. }
  destruct (Z.eqb_spec remaining 0) as [->|Hne]; [done|]. rewrite IH by lia.
  replace (Z.to_nat remaining) with (S (Z.to_nat (remaining - 1))) by lia. cbn [take concat]. rewrite length_app.
  destruct (take (Z.to_nat (remaining - 1)) rs) eqn:E; cbn [concat length]; lia.
Qed.

(** The characters that come before the fragment. *)
Definition before_runes (fs : list StreamFragment) (f : StreamFragment) : Z :=
  Z.of_nat (RuneCount (joined fs)) + (if bool_decide (Key f ∈ keys_in fs) then 0 else if bool_decide (fs = []) then 0 else 1).

Lemma joined_snoc fs f :
  Forall text_fragment fs -> text_fragment f ->
  Z.of_nat (RuneCount (joined (fs ++ [f]))) = before_runes fs f + Z.of_nat (RuneCount (Text f)).
Proof.
  intros Hfs [Hf _]. assert (Hv : Forall (fun f => ValidString (Text f) = true) fs) by (eapply Forall_impl; [exact Hfs|]; by intros x [? _]).
  unfold before_runes. rewrite !count_joined by (done || apply Forall_app; by repeat constructor). rewrite keys_snoc.
  assert (Hm : sum_runes (map Text (fs ++ [f])) = sum_runes (map Text fs) + Z.of_nat (RuneCount (Text f))).
  { clear. unfold sum_runes. induction fs as [|x fs IH]; cbn [app map foldr]; lia. }
  rewrite Hm. unfold separators. case_bool_decide as Hk; [lia|]. rewrite length_app. cbn [length].
  case_bool_decide as He; [subst; cbn; lia|].
  assert (length (keys_in fs) <> 0)%nat; [|lia]. clear -He. destruct fs as [|x fs] using rev_ind; [done|].
  rewrite keys_snoc. case_bool_decide; [|rewrite length_app; cbn; lia]. destruct (keys_in fs); [set_solver|done].
Qed.

Lemma fields_empty e fs s : length_state e fs s -> (lsFields s = ∅ <-> fs = []).
Proof.
  intros [_ _ _ Hk _]. split; [|intros ->; apply map_empty; intros k; apply eq_None_not_Some; rewrite Hk; apply not_elem_of_nil].
  intros He. destruct fs as [|x fs] using rev_ind; [done|]. exfalso.
  assert (Hin : Key x ∈ keys_in (fs ++ [x])) by (rewrite keys_snoc; case_bool_decide; [done|set_solver]).
  apply Hk in Hin as [? Hin]. by rewrite He, lookup_empty in Hin.
Qed.

(** The part of a fragment that still fits. *)
Definition fitting (e : LengthEngine) (fs : list StreamFragment) (f : StreamFragment) : list bytes :=
  match length_check e (Z.of_nat (RuneCount (joined (fs ++ [f])))) with
  | None => split_runes (Text f)
  | Some _ => take (Z.to_nat (maxOutputChars e - before_runes fs f)) (split_runes (Text f))
  end.

Lemma length_step e fs s f :
  length_state e fs s -> Forall text_fragment fs -> text_fragment f ->
  exists v s', Length_Push s false f = inr (v, s')
    /\ lsRunes s' = Z.of_nat (RuneCount (joined (fs ++ [f])))
    /\ Result v = length_check e (lsRunes s')
    /\ ReleaseThrough v = Z.of_nat (length (field_text (Key f) fs)) + Z.of_nat (length (concat (fitting e fs f)))
    /\ (Final f = false -> length_state e (fs ++ [f]) s').
Proof.
  intros Hs Hfs Hf. pose proof (joined_snoc fs f Hfs Hf) as Hj. pose proof (fields_empty _ _ _ Hs) as Hempty.
  destruct Hs as [He Ho Hr Hk Hfd]. destruct Hf as [Hv Ht]. unfold Length_Push. rewrite Ho, Hv. cbn [negb].
  assert (Hex : bool_decide (is_Some (lsFields s !! Key f)) = bool_decide (Key f ∈ keys_in fs)) by (apply bool_decide_ext, Hk).
  assert (Hfield : default (mkLengthField 0 0 false false) (lsFields s !! Key f)
    = mkLengthField (Z.of_nat (length (field_text (Key f) fs))) (Z.of_nat (RuneCount (field_text (Key f) fs))) false false).
  { destruct (lsFields s !! Key f) as [fd|] eqn:E; cbn; [by apply Hfd|]. rewrite field_text_nil; [done|]. rewrite <- Hk, E. by intros [? ?]. }
  rewrite Hex, Hfield, Ht. cbn [lfFinal lfBytes lfRunes lfTool].
  replace (if bool_decide (Key f ∈ keys_in fs) then false else false) with false by (by case_match).
  assert (Hbefore : (if negb (bool_decide (Key f ∈ keys_in fs)) && negb (bool_decide (lsFields s = ∅)) then lsRunes s + 1 else lsRunes s)
    = before_runes fs f).
  { unfold before_runes. rewrite Hr, (bool_decide_ext _ _ Hempty).
    destruct (bool_decide (Key f ∈ keys_in fs)), (bool_decide (fs = [])); cbn [negb andb]; lia. }
  rewrite Hbefore, <- Hj. cbn [lsEngine]. rewrite He. unfold fitting.
  assert (Hstate : Final f = false -> length_state e (fs ++ [f]) (mkLengthStream e (<[Key f := mkLengthField
      (Z.of_nat (length (field_text (Key f) fs)) + Z.of_nat (length (Text f)))
      (Z.of_nat (RuneCount (field_text (Key f) fs)) + Z.of_nat (RuneCount (Text f))) (Final f) false]> (lsFields s))
      (Z.of_nat (RuneCount (joined (fs ++ [f])))) false)).
  { intros Hfin. split; try done; cbn [lsFields].
    - intros k. rewrite keys_snoc, lookup_insert_is_Some, Hk.
      destruct (bool_decide_reflect (Key f ∈ keys_in fs)); [destruct (decide (Key f = k)); naive_solver|].
      rewrite elem_of_app, list_elem_of_singleton. destruct (decide (Key f = k)); naive_solver.
    - intros k fd. rewrite field_text_app. unfold of_key. destruct (String.eqb_spec (Key f) k) as [<-|Hne].
      + rewrite lookup_insert_eq. intros [= <-]. rewrite length_app, RuneCount_app, Hfin; [f_equal; lia|].
        apply field_text_valid. eapply Forall_impl; [exact Hfs|]. by intros x [? _].
      + rewrite lookup_insert_ne, app_nil_r by done. apply Hfd. }
  destruct (length_check e _) as [res|] eqn:Hc; eexists _, _; (split; [reflexivity|]); cbn [lsRunes Result ReleaseThrough];
    (split; [done|]); (split; [done|]); (split; [|exact Hstate]).
  - rewrite cut_runes_spec by lia.
    assert (Hmax : Z.to_nat (Z.max (maxOutputChars e - before_runes fs f) 0) = Z.to_nat (maxOutputChars e - before_runes fs f)) by lia.
    rewrite Hmax. destruct (take _ _); cbn [concat length]; lia.
  - by rewrite runes_concat.
Qed.

Fixpoint run_length_stream (s : lengthStream) (fs : list StreamFragment) : lengthStream :=
  match fs with
  | [] => s
  | f :: fs => match Length_Push s false f with inl _ => run_length_stream s fs | inr (_, s) => run_length_stream s fs end
  end.

Lemma run_length_app s fs gs : run_length_stream s (fs ++ gs) = run_length_stream (run_length_stream s fs) gs.
Proof. revert s. induction fs as [|f fs IH]; intros s; cbn [app run_length_stream]; [done|]. destruct (Length_Push s false f) as [|[v s1]]; apply IH. Qed.

Lemma run_length_state e fs s :
  Length_NewStream e false = inr s -> Forall text_fragment fs -> Forall (fun f => Final f = false) fs ->
  length_state e fs (run_length_stream s fs).
Proof.
  intros Hnew. induction fs as [|f fs IH] using rev_ind; intros Hfs Hfin.
  { inversion Hnew; subst. split; try done; cbn [run_length_stream lsFields].
    intros k. rewrite lookup_empty. split; [by intros [? ?]|by intros ?%not_elem_of_nil]. }
  apply Forall_app in Hfs as [Hfs Hf], Hfin as [Hfin Hff]. inversion Hf; inversion Hff; subst.
  rewrite run_length_app. destruct (length_step e fs _ f (IH Hfs Hfin)) as (v & s' & Hp & _ & _ & _ & Hst); [done..|].
  cbn [run_length_stream]. rewrite Hp. by apply Hst.
Qed.

(** The running count is the count of the complete response: after any fragments of any fields, the
    verdict on the next fragment carries exactly the result that the check of the joined fields
    gives, and the text it releases holds every character that fits and no more: the fragment is
    cut after the last character within the limit. *)
Theorem length_stream_equals_check e s fs f :
  Length_NewStream e false = inr s -> Forall text_fragment fs -> Forall (fun f => Final f = false) fs -> text_fragment f ->
  let c := Length_Check e (joined (fs ++ [f])) "response" in
  exists v s', Length_Push (run_length_stream s fs) false f = inr (v, s')
    /\ Result v = (if Blocked c then Some c else None)
    /\ ReleaseThrough v = Z.of_nat (length (field_text (Key f) fs)) + Z.of_nat (length (concat (fitting e fs f)))
    /\ (exists rest, split_runes (Text f) = fitting e fs f ++ rest)
    /\ (Blocked c = false -> concat (fitting e fs f) = Text f)
    /\ (Blocked c = true -> before_runes fs f <= maxOutputChars e ->
        before_runes fs f + Z.of_nat (length (fitting e fs f)) = maxOutputChars e).
Proof.
  intros Hnew Hfs Hfin Hf c. pose proof (run_length_state e fs s Hnew Hfs Hfin) as Hst.
  destruct (length_step e fs _ f Hst Hfs Hf) as (v & s' & Hp & Hr & Hres & Hrel & _).
  exists v, s'. split; [done|]. rewrite Hr in Hres.
  assert (Hc : length_check e (Z.of_nat (RuneCount (joined (fs ++ [f])))) = if Blocked c then Some c else None).
  { unfold c, Length_Check, length_check. cbn [String.eqb Ascii.eqb Bool.eqb andb orb].
    destruct ((0 <? maxOutputChars e) && _); done. }
  rewrite Hc in Hres. split; [done|]. split; [done|]. unfold fitting. rewrite Hc. destruct (Blocked c) eqn:Hb.
  - split; [exists (drop (Z.to_nat (maxOutputChars e - before_runes fs f)) (split_runes (Text f))); by rewrite take_drop|].
    split; [done|]. intros _ Hle. rewrite length_take. pose proof (joined_snoc fs f Hfs Hf) as Hj.
    unfold length_check in Hc. destruct ((0 <? maxOutputChars e) && _) eqn:Hlim; [|done].
    apply andb_prop in Hlim as [_ Hlim%Z.ltb_lt]. rewrite Hj in Hlim.
    change (RuneCount (Text f)) with (length (split_runes (Text f))) in Hlim. lia.
  - split; [exists []; by rewrite app_nil_r|]. split; [intros _; apply runes_concat|done].
Qed.

(** A limit of 5: "ab", newline, "cdé" has 6 characters, so the last one is cut. *)
Lemma length_stream_equals_check_witness :
  let e := mkLength 100 5 in
  let f := mkFragment "y" (bytes_of "cd" ++ [ascii_of_nat 195; ascii_of_nat 169]) false false in
  let fs := [mkFragment "x" (bytes_of "ab") false false] in
  exists v s', Length_Push (run_length_stream (mkLengthStream e ∅ 0 false) fs) false f = inr (v, s')
    /\ (Result v <> None) /\ ReleaseThrough v = 2.
Proof.
  cbv zeta. set (e := mkLength 100 5). set (fs := [mkFragment "x" (bytes_of "ab") false false]).
  set (f := mkFragment "y" (bytes_of "cd" ++ [ascii_of_nat 195; ascii_of_nat 169]) false false).
  destruct (length_stream_equals_check e (mkLengthStream e ∅ 0 false) fs f) as (v & s' & Hp & Hres & Hrel & _).
  - reflexivity.
  - repeat constructor.
  - repeat constructor.
  - split; reflexivity.
  - exists v, s'. split; [exact Hp|]. split.
    + rewrite Hres. vm_compute. discriminate.
    + rewrite Hrel. vm_compute. reflexivity.
Defined.

(** ** Tool calls and snapshots *)

Definition total_runes (fields : gmap string lengthStreamField) : Z := map_fold (fun _ fd n => lfRunes fd + n) 0 fields.

Lemma total_insert_new k fd m : m !! k = None -> total_runes (<[k := fd]> m) = lfRunes fd + total_runes m.
Proof. intros Hk. unfold total_runes. apply (map_fold_insert_L (fun _ fd n => lfRunes fd + n) 0 k fd m); [intros; lia|done]. Qed.

Lemma total_insert k fd old m : m !! k = Some old -> total_runes (<[k := fd]> m) = total_runes m - lfRunes old + lfRunes fd.
Proof.
  intros Hk. rewrite <- (insert_delete_id m k old Hk) at 2. rewrite <- insert_delete_eq.
  rewrite !total_insert_new by apply lookup_delete_eq. lia.
Qed.

Lemma total_alter k (g : lengthStreamField -> lengthStreamField) old m :
  m !! k = Some old -> total_runes (alter g k m) = total_runes m - lfRunes old + lfRunes (g old).
Proof.
  intros Hk. assert (alter g k m = <[k := g old]> m) as ->; [|by apply total_insert].
  apply map_eq. intros j. destruct (decide (j = k)) as [->|Hne].
  - by rewrite lookup_alter_eq, lookup_insert_eq, Hk.
  - by rewrite lookup_alter_ne, lookup_insert_ne.
Qed.

(** The counter of a session is what its fields hold and a separator between two of them. *)
Definition length_inv (s : lengthStream) : Prop := lsRunes s = total_runes (lsFields s) + separators (size (lsFields s)).

Lemma length_inv_push s ctxErr f v s' : length_inv s -> Length_Push s ctxErr f = inr (v, s') -> length_inv s'.
Proof.
  unfold length_inv, Length_Push. intros Hinv Hp. destruct ctxErr; [done|]. destruct (lsClosed s); [done|].
  destruct (negb (ValidString (Text f))); [done|]. destruct (lfFinal _); [done|].
  set (before := if _ && _ then lsRunes s + 1 else lsRunes s) in Hp.
  set (tool := if bool_decide _ then _ else Tool f) in Hp. set (added := if tool then 0 else _) in Hp.
  set (field := mkLengthField _ _ _ tool) in Hp.
  assert (Hs' : lsRunes s' = before + added /\ lsFields s' = <[Key f := field]> (lsFields s)).
  { cbn [lsEngine] in Hp. destruct (length_check _ _); inversion Hp; by subst. }
  destruct Hs' as [-> ->]. unfold before, separators in *.
  destruct (lsFields s !! Key f) as [old|] eqn:Hold.
  - rewrite (total_insert _ _ _ _ Hold), map_size_insert_Some by eauto. rewrite bool_decide_true by eauto.
    cbn [negb andb field lfRunes default from_option]. unfold field. cbn [lfRunes]. unfold default, from_option, id. lia.
  - rewrite total_insert_new, map_size_insert_None by done.
    rewrite (bool_decide_false (is_Some None)) by (by intros [? ?]). unfold field. cbn [lfRunes negb andb]. unfold default, from_option, id. cbn [lfRunes].
    destruct (bool_decide_reflect (lsFields s = ∅)) as [He|Hne]; cbn [negb].
    + rewrite He, map_size_empty in *. cbn [Z.of_nat] in *. lia.
    + apply map_size_non_empty_iff in Hne. lia.
Qed.

Lemma replace_entries (entries : list (string * bytes)) (m : gmap string lengthStreamField) :
  NoDup entries.*1 -> Forall (fun '(k, _) => is_Some (m !! k)) entries ->
  let fields := foldr (fun '(k, text) fields =>
    alter (fun fd => mkLengthField (lfBytes fd) (Z.of_nat (RuneCount text)) (lfFinal fd) (lfTool fd)) k fields) m entries in
  (forall k, k ∉ entries.*1 -> fields !! k = m !! k)
  /\ (forall k text fd, (k, text) ∈ entries -> fields !! k = Some fd -> lfRunes fd = Z.of_nat (RuneCount text))
  /\ dom fields = dom m
  /\ total_runes fields
     = total_runes m + foldr (fun '(k, text) acc => acc + (Z.of_nat (RuneCount text) - default 0 (lfRunes <$> m !! k))) 0 entries.
Proof.
  intros Hnd Hk. cbv zeta. induction entries as [|[k text] entries IH]; cbn [foldr].
  { split_and!; try done; [by intros ??? ?%not_elem_of_nil|lia]. }
  rewrite fmap_cons in *. inversion Hnd as [|?? Hni Hnd']; subst. apply Forall_cons in Hk as [Hok Hk'].
  assert (exists old, m !! k = Some old) as [old Hold] by exact Hok. clear Hok.
  destruct (IH Hnd' Hk') as (I1 & I4 & I2 & I3). rewrite dom_alter_L. split_and!; [| |done|].
  - intros j Hj. cbn in Hj. rewrite lookup_alter_ne by set_solver. apply I1. set_solver.
  - intros j text' fd [[= -> ->]|Hin]%elem_of_cons.
    { rewrite lookup_alter_eq. intros Hfd. by apply fmap_Some in Hfd as (x & _ & ->). }
    rewrite lookup_alter_ne; [by apply I4|]. intros ->. apply Hni. apply list_elem_of_fmap. by exists (j, text').
  - rewrite (total_alter _ _ old) by (rewrite I1 by done; done). cbn [lfRunes]. rewrite I3, Hold. cbn. lia.
Qed.

(** The counter of a session is exactly what its fields hold: every push, of a tool call too, and
    every replacement of completed fields by their snapshots keeps it the sum over the fields and
    the separators, so a snapshot is neither counted twice nor lost; a rejected call changes nothing. *)
Theorem length_count_exact s texts ctxErr f :
  length_inv s ->
  length_inv (length_session s ctxErr f).1
  /\ match CheckReplacements s ctxErr texts with
     | inl _ => True
     | inr (result, s') =>
         length_inv s' /\ result = length_check (lsEngine s) (lsRunes s')
         /\ forall k fd, lsFields s' !! k = Some fd -> lfRunes fd = match texts !! k with
              Some text => Z.of_nat (RuneCount text) | None => default 0 (lfRunes <$> lsFields s !! k) end
     end.
Proof.
  intros Hinv. split.
  { unfold length_session. destruct (Length_Push s ctxErr f) as [err|[v s']] eqn:Hp; [done|]. by eapply length_inv_push. }
  unfold CheckReplacements. destruct ctxErr; [done|]. destruct (lsClosed s); [done|].
  destruct (existsb _ _) eqn:Hbad; [done|]. cbn [lsRunes lsEngine].
  assert (Hknown : Forall (fun '(k, _) => is_Some (lsFields s !! k)) (map_to_list texts)).
  { apply List.Forall_forall. intros [k text] Hin. apply not_true_iff_false in Hbad.
    destruct (lsFields s !! k) as [fd|] eqn:E; [eauto|]. exfalso. apply Hbad. apply existsb_exists. exists (k, text).
    split; [done|]. by rewrite E, bool_decide_true. }
  destruct (replace_entries _ (lsFields s) (NoDup_fst_map_to_list texts) Hknown) as (Hother & Hnew & Hdom & Htotal).
  split; [|split; [done|]].
  - unfold length_inv in *. cbn [lsRunes lsFields]. rewrite Htotal, <- !size_dom, Hdom, size_dom. lia.
  - cbn [lsFields]. intros k fd Hfd. destruct (texts !! k) as [text|] eqn:Ht.
    + eapply Hnew; [|exact Hfd]. by apply elem_of_map_to_list.
    + rewrite Hother in Hfd; [by rewrite Hfd|]. intros ([j text] & -> & Hin%elem_of_map_to_list)%list_elem_of_fmap. cbn in Ht. congruence.
Qed.

(** A tool call streams 4 characters that count for nothing until its canonical form of 9 replaces them. *)
Lemma length_count_exact_witness :
  let s := run_length_stream (mkLengthStream (mkLength 100 10) ∅ 0 false)
             [mkFragment "x" (bytes_of "ab") false false; mkFragment "t" (bytes_of "{  }") false true] in
  lsRunes s = 3 /\
  match CheckReplacements s false {[ "t" := bytes_of "123456789" ]} with
  | inr (Some _, s') => length_inv s' /\ lsRunes s' = 12
  | _ => False
  end.
Proof.
  cbv zeta. set (s := run_length_stream _ _).
  destruct (length_count_exact s {[ "t" := bytes_of "123456789" ]} false (mkFragment "x" (bytes_of "c") false false)) as [_ H].
  - vm_compute. reflexivity.
  - split; [vm_compute; reflexivity|].
    destruct (CheckReplacements s false {[ "t" := bytes_of "123456789" ]}) as [err|[res s']] eqn:E.
    + vm_compute in E. discriminate.
    + destruct H as (Hinv & Hres & _). vm_compute in E. inversion E. subst res s'. split; [exact Hinv|reflexivity].
Defined.
