(* ===== verification/Vault.v ===== *)
(** * The PII vault: [internal/guardrail/pii_vault.go]

    A request-scoped vault replaces the reversible masks of a request by tokens
    and puts the originals back into the answer, delta by delta.  [iterate] is
    the order in which Go iterates over a map; the maps [values] and [tokens],
    the cached replacer and the sorted token list are the fields of the struct. *)

From stdpp Require Import pretty.
From S2P Require Import Prelude Utf8 Spans.

(** ** [strings.Replacer] and the order of strings *)

(** [strings.NewReplacer(pairs...).Replace]: at every position the first pair, in argument order,
    whose old string starts there; replaced text is not searched again.  No old string is empty. *)
Fixpoint replace_upto (fuel : nat) (pairs : list (bytes * bytes)) (text : bytes) : bytes :=
  match fuel, text with
  | S fuel, c :: rest =>
      match List.find (fun p => bool_decide (p.1 `prefix_of` text)) pairs with
      | Some (old, new_) => new_ ++ replace_upto fuel pairs (drop (length old) text)
      | None => c :: replace_upto fuel pairs rest
      end
  | _, _ => []
  end.

Definition Replace (pairs : list (bytes * bytes)) (text : bytes) : bytes := replace_upto (length text) pairs text.

Fixpoint bytes_less (a b : bytes) : bool :=
  match a, b with
  | _, [] => false
  | [], _ :: _ => true
  | x :: a, y :: b => if Ascii.eqb x y then bytes_less a b else (nat_of_ascii x <? nat_of_ascii y)%nat
  end.

(** [strings.LastIndexByte(text, '<')] *)
Fixpoint last_lt (text : bytes) : option nat :=
  match text with
  | [] => None
  | c :: text =>
      match last_lt text with
      | Some i => Some (S i)
      | None => if Ascii.eqb c "<" then Some O else None
      end
  end.

Definition is_bracket (c : ascii) : bool := Ascii.eqb c "[" || Ascii.eqb c "]".

Fixpoint trim_left (s : bytes) : bytes :=
  match s with [] => [] | c :: s' => if is_bracket c then trim_left s' else s end.

(** [strings.Trim(s, "[]")] *)
Definition trim_brackets (s : bytes) : bytes := rev (trim_left (rev (trim_left s))).

(** ** The vault *)

Record PIIVault := mkVault {
  namespace : bytes; values : gmap bytes bytes; tokens : gmap bytes bytes;
  replacer : option (list (bytes * bytes)); ordered_tokens : list bytes
}.

(** The two letters of a nonce byte. *)
Definition nonce_letters (b : ascii) : bytes :=
  let n := nat_of_ascii b in [ascii_of_nat (97 + n / 16); ascii_of_nat (97 + n mod 16)].

Definition WithPIIVault (nonce : list ascii) : PIIVault := mkVault (concat (map nonce_letters nonce)) ∅ ∅ None [].

Definition Active (v : PIIVault) : bool := negb (bool_decide (values v = ∅)).

Definition Clear (v : PIIVault) : PIIVault := mkVault (namespace v) ∅ ∅ None [].

Definition token_of (ns label : bytes) (n : nat) : bytes :=
  bytes_of "<CL_PII_" ++ ns ++ bytes_of "_" ++ label ++ bytes_of "_" ++ bytes_of (pretty n) ++ bytes_of ">".

Definition vault_key (replacement original : bytes) : bytes := replacement ++ "000"%char :: original.

(** The body of the loop of [maskSpans]. *)
Definition mask_span (content : bytes) (v : PIIVault) (sp : Span) : PIIVault * Span :=
  if negb (Reversible sp) || (Start sp <? 0) || (Z.of_nat (length content) <? Stop sp) || (Stop sp <=? Start sp) then (v, sp)
  else
    let original := slice (Start sp) (Stop sp) content in
    let key := vault_key (Replacement sp) original in
    let found := default [] (tokens v !! key) in
    let '(v, token) :=
      if bool_decide (found = []) then
        let token := token_of (namespace v) (trim_brackets (Replacement sp)) (size (values v) + 1) in
        (mkVault (namespace v) (<[token := original]> (values v)) (<[key := token]> (tokens v)) None (ordered_tokens v), token)
      else (v, found) in
    (v, mkSpan (Start sp) (Stop sp) token (Reversible sp)).

Fixpoint maskSpans (content : bytes) (v : PIIVault) (spans : list Span) : PIIVault * list Span :=
  match spans with
  | [] => (v, [])
  | sp :: spans =>
      let '(v, sp) := mask_span content v sp in
      let '(v, spans) := maskSpans content v spans in (v, sp :: spans)
  end.

Section Restore.
Context (iterate : list (bytes * bytes) -> list (bytes * bytes)).

(** The replacer and the sorted tokens, built when a token was added since. *)
Definition with_replacer (v : PIIVault) : PIIVault * list (bytes * bytes) :=
  match replacer v with
  | Some pairs => (v, pairs)
  | None =>
      let pairs := iterate (map_to_list (values v)) in
      (mkVault (namespace v) (values v) (tokens v) (Some pairs) (stable_sort bytes_less pairs.*1), pairs)
  end.

(** Whether the text ends in what may become a token: [sort.SearchStrings] finds the first token
    that is not less than the candidate. *)
Definition held_suffix (sorted : list bytes) (candidate : bytes) : bool :=
  match List.find (fun t => negb (bytes_less t candidate)) sorted with
  | Some t => negb (bool_decide (candidate = t)) && bool_decide (candidate `prefix_of` t)
  | None => false
  end.

Definition RestorePrefix (v : PIIVault) (text : bytes) (final : bool) : PIIVault * (bytes * bytes) :=
  let '(v, pairs) := with_replacer v in
  let cut :=
    if final then length text
    else match last_lt text with
         | Some start => if held_suffix (ordered_tokens v) (drop start text) then start else length text
         | None => length text
         end in
  (v, (Replace pairs (take cut text), drop cut text)).

Definition Restore (v : PIIVault) (text : bytes) : PIIVault * bytes :=
  let '(v, (out, _)) := RestorePrefix v text true in (v, out).

(** ** A field restored delta by delta *)

(** [PIIRestoreSSE.delta] for the deltas of one field and [finish] at its end: what was held back
    precedes the next delta. *)
Fixpoint restore_deltas (v : PIIVault) (held : bytes) (deltas : list bytes) : bytes :=
  match deltas with
  | [] => (Restore v held).2
  | d :: deltas => let '(v, (visible, tail)) := RestorePrefix v (held ++ d) false in visible ++ restore_deltas v tail deltas
  end.
End Restore.

(** ** Tokens *)

Definition lt_char : ascii := "<"%char.
Definition gt_char : ascii := ">"%char.

Record token_ok (t : bytes) : Prop := mkTokenOk {
  tk_body : exists body, t = lt_char :: body ++ [gt_char] /\ lt_char ∉ body /\ gt_char ∉ body
}.

(** Tokens carry their delimiters at the ends only, so none is a prefix of another. *)
Lemma token_prefix t1 t2 : token_ok t1 -> token_ok t2 -> t1 `prefix_of` t2 -> t1 = t2.
Proof.
  intros [(b1 & -> & _ & H1)] [(b2 & -> & _ & H2)] Hp.
  assert (Hb : b1 ++ [gt_char] `prefix_of` b2 ++ [gt_char]) by (by apply prefix_cons_inv_2 in Hp).
  f_equal. apply prefix_length_eq; [done|]. destruct (decide (length b2 <= length b1)%nat) as [|Hlt]; [rewrite !length_app; cbn; lia|].
  exfalso. apply H2. assert (Hg : (b1 ++ [gt_char]) !! length b1 = Some gt_char) by (by rewrite lookup_app_r, Nat.sub_diag).
  apply (prefix_lookup_Some _ (b2 ++ [gt_char])) in Hg; [|done]. rewrite lookup_app_l in Hg by lia. by eapply list_elem_of_lookup_2.
Qed.

Lemma token_head_only t i : token_ok t -> t !! i = Some lt_char -> i = O.
Proof.
  intros [(b & -> & H1 & _)]. destruct i as [|i]; [done|]. cbn. intros Hi. exfalso.
  apply list_elem_of_lookup_2, elem_of_app in Hi as [?|Hi%list_elem_of_singleton]; done.
Qed.

Lemma token_nonempty t : token_ok t -> t <> [].
Proof. by intros [(b & -> & _)]. Qed.

(** ** Replacing *)

Lemma prefix_of_app_le {A} (t x b : list A) : t `prefix_of` x ++ b -> (length t <= length x)%nat -> t `prefix_of` x.
Proof.
  intros Ht Hl. destruct (prefix_weak_total t x (x ++ b)) as [|Hx]; [done|by apply prefix_app_r|done|].
  by rewrite (prefix_length_eq _ _ Hx Hl).
Qed.

Section Replacing.
Context (pairs : list (bytes * bytes)).
Context (pairs_ok : forall p, p ∈ pairs -> token_ok p.1).

Notation found text := (List.find (fun p => bool_decide (p.1 `prefix_of` text)) pairs).

Lemma found_nonempty text old new_ : found text = Some (old, new_) -> old <> [] /\ (length old <= length text)%nat.
Proof.
  intros Hf. apply find_some in Hf as [Hin Hp]. apply list_elem_of_In in Hin. apply bool_decide_eq_true in Hp.
  split; [apply (token_nonempty old), (pairs_ok _ Hin)|by apply prefix_length].
Qed.

Lemma replace_enough n m text : (length text <= n)%nat -> (length text <= m)%nat -> replace_upto n pairs text = replace_upto m pairs text.
Proof.
  revert m text. induction n as [|n IH]; intros m [|c text] Hn Hm; cbn [length] in *; try (by destruct m); [lia|].
  destruct m as [|m]; [lia|]. cbn [replace_upto]. destruct (found (c :: text)) as [[old new_]|] eqn:Hf.
  - f_equal. apply found_nonempty in Hf as [Hne _]. destruct old; [done|]. apply IH; rewrite length_drop; cbn [length]; lia.
  - f_equal. apply IH; lia.
Qed.

Lemma Replace_cons c text :
  Replace pairs (c :: text)
  = match found (c :: text) with
    | Some (old, new_) => new_ ++ Replace pairs (drop (length old) (c :: text))
    | None => c :: Replace pairs text
    end.
Proof.
  unfold Replace. cbn [length replace_upto]. destruct (found (c :: text)) as [[old new_]|] eqn:Hf; [|done].
  f_equal. apply found_nonempty in Hf as [Hne _]. destruct old; [done|]. apply replace_enough; rewrite ?length_drop; cbn [length]; lia.
Qed.

(** No token starts in [a] and ends past it. *)
Definition no_straddle (a b : bytes) : Prop :=
  forall i p, (i < length a)%nat -> p ∈ pairs -> p.1 `prefix_of` drop i a ++ b -> p.1 `prefix_of` drop i a.

Lemma no_straddle_drop a b n : no_straddle a b -> no_straddle (drop n a) b.
Proof.
  intros H i p Hi Hp. rewrite drop_drop. apply H; [|done]. rewrite length_drop in Hi. lia.
Qed.

(** A text cut where no token is split is replaced part by part. *)
Lemma Replace_app a b : no_straddle a b -> Replace pairs (a ++ b) = Replace pairs a ++ Replace pairs b.
Proof.
  remember (length a) as n eqn:Hn. revert a Hn. induction (lt_wf n) as [n _ IH]. intros [|c a] Hn Hs; [done|].
  cbn [app]. rewrite !Replace_cons.
  assert (Hfind : found (c :: a ++ b) = found (c :: a)).
  { assert (Hp : forall p, p ∈ pairs -> bool_decide (p.1 `prefix_of` c :: a ++ b) = bool_decide (p.1 `prefix_of` c :: a)).
    { intros p Hp. apply bool_decide_ext. split; [|intros; by apply (prefix_app_r _ (c :: a))].
      apply (Hs O p); [cbn; lia|done]. }
    clear -Hp. induction pairs as [|p ps IHp]; [done|]. cbn [List.find]. rewrite Hp by left.
    case_match; [done|]. apply IHp. intros q Hq. apply Hp. by right. }
  rewrite Hfind. destruct (found (c :: a)) as [[old new_]|] eqn:Hf.
  - destruct (found_nonempty _ _ _ Hf) as [Hne Hle]. change (c :: a ++ b) with ((c :: a) ++ b). rewrite drop_app_le by done.
    rewrite <- app_assoc. f_equal. destruct old as [|o old]; [done|].
    eapply IH; [|reflexivity|by apply no_straddle_drop]. subst n. rewrite length_drop. cbn [length]. lia.
  - cbn [app]. f_equal. eapply IH; [|reflexivity|apply (no_straddle_drop _ _ 1 Hs)]. subst n. cbn. lia.
Qed.

(** A cut before a delimiter splits no token. *)
Lemma no_straddle_lt a b : no_straddle a (lt_char :: b).
Proof.
  intros i [t o] Hi Hp Hpre. cbn [fst] in *. destruct (decide (length t <= length (drop i a))%nat) as [Hle|Hgt].
  - by eapply prefix_of_app_le.
  - exfalso. specialize (pairs_ok _ Hp). cbn in pairs_ok.
    assert (Hl : (drop i a ++ lt_char :: b) !! length (drop i a) = Some lt_char) by (by rewrite lookup_app_r, Nat.sub_diag).
    assert (Hlt : (length (drop i a) < length t)%nat) by lia.
    rewrite <- (prefix_lookup_lt _ _ _ Hlt Hpre) in Hl.
    apply (token_head_only _ _ pairs_ok) in Hl. rewrite length_drop in Hl. lia.
Qed.
End Replacing.

(** ** Order *)

Lemma bytes_less_irrefl a : bytes_less a a = false.
Proof. induction a as [|x a IH]; [done|]. cbn. by rewrite Ascii.eqb_refl. Qed.

Lemma ascii_nat_inj x y : nat_of_ascii x = nat_of_ascii y -> x = y.
Proof. intros H. by rewrite <- (ascii_nat_embedding x), H, ascii_nat_embedding. Qed.

Lemma bytes_less_asym a b : bytes_less a b = true -> bytes_less b a = false.
Proof.
  revert b. induction a as [|x a IH]; intros [|y b]; cbn [bytes_less]; try done. rewrite (Ascii.eqb_sym y x).
  destruct (Ascii.eqb x y); [apply IH|]. rewrite Nat.ltb_lt, Nat.ltb_ge. lia.
Qed.

Lemma bytes_le_trans a b c : bytes_less b a = false -> bytes_less c b = false -> bytes_less c a = false.
Proof.
  revert b c. induction a as [|x a IH]; intros [|y b] [|z c]; cbn [bytes_less]; try done.
  destruct (Ascii.eqb_spec y x) as [->|Hyx], (Ascii.eqb_spec z x) as [->|Hzx]; try done; [apply IH| |].
  - rewrite (Ascii.eqb_sym x y). destruct (Ascii.eqb_spec y x) as [->|_]; [done|].
    rewrite !Nat.ltb_ge. intros H1 H2. exfalso. apply Hyx, ascii_nat_inj. lia.
  - destruct (Ascii.eqb_spec z y) as [->|_]; [done|]. rewrite !Nat.ltb_ge. lia.
Qed.

(** What lies between a string and one that it starts also starts with it. *)
Lemma prefix_between c x t : c `prefix_of` t -> bytes_less x c = false -> bytes_less t x = false -> c `prefix_of` x.
Proof.
  revert x t. induction c as [|a c IH]; intros x t Hp Hx Ht; [apply prefix_nil|].
  destruct t as [|b t]; [by apply prefix_nil_not in Hp|]. pose proof (prefix_cons_inv_1 _ _ _ _ Hp) as <-.
  apply prefix_cons_inv_2 in Hp. destruct x as [|d x]; [done|]. cbn [bytes_less] in Hx, Ht. rewrite (Ascii.eqb_sym a d) in Ht.
  destruct (Ascii.eqb_spec d a) as [->|Hne]; [apply prefix_cons; by eapply IH|].
  rewrite Nat.ltb_ge in Hx, Ht. exfalso. apply Hne, ascii_nat_inj. lia.
Qed.

Lemma tokens_sorted l : StronglySorted (ordered bytes_less) (stable_sort bytes_less l).
Proof.
  apply (stable_sort_sorted bytes_less (fun _ => True)); [|intros x y z _ _ _; apply bytes_le_trans|by apply List.Forall_forall].
  intros x y _ _. apply bytes_less_asym.
Qed.

(** A proper prefix of a token is held back. *)
Lemma held_proper_prefix l c t :
  Forall token_ok l -> t ∈ l -> c `prefix_of` t -> c <> t -> held_suffix (stable_sort bytes_less l) c = true.
Proof.
  intros Hl Ht Hp Hne. unfold held_suffix.
  assert (Htc : bytes_less t c = false).
  { clear -Hp. revert t Hp. induction c as [|a c IH]; intros [|b t] Hp; try done; [by apply prefix_nil_not in Hp|].
    cbn [bytes_less]. rewrite <- (prefix_cons_inv_1 _ _ _ _ Hp), Ascii.eqb_refl. apply IH. by apply prefix_cons_inv_2 in Hp. }
  destruct (List.find _ _) as [x|] eqn:Hf.
  - pose proof (tokens_sorted l) as Hs.
    assert (Hx : x ∈ l). { apply find_some in Hf as [Hin _]. apply list_elem_of_In in Hin. by rewrite stable_sort_perm in Hin. }
    destruct (find_sorted_minimal _ _ _ _ t Hs Hf) as [<-|Hle]; [by rewrite stable_sort_perm|by rewrite Htc| |].
    + rewrite bool_decide_false, bool_decide_true by done. done.
    + apply find_some in Hf as [_ Hxc%negb_true_iff]. pose proof (prefix_between c x t Hp Hxc Hle) as Hcx.
      rewrite (bool_decide_true _ Hcx), andb_true_r. apply negb_true_iff, bool_decide_eq_false. intros ->.
      rewrite Forall_forall in Hl. apply Hne, token_prefix; [by apply Hl|by apply Hl|done].
  - exfalso. assert (Hin : In t (stable_sort bytes_less l)) by (apply list_elem_of_In; by rewrite stable_sort_perm).
    pose proof (find_none _ _ Hf t Hin) as Hn. cbn in Hn. by rewrite Htc in Hn.
Qed.

(** ** Restoring delta by delta *)

Lemma last_lt_some text i : last_lt text = Some i -> text !! i = Some lt_char /\ lt_char ∉ drop (S i) text.
Proof.
  revert i. induction text as [|c text IH]; intros i; cbn [last_lt]; [done|].
  destruct (last_lt text) as [j|] eqn:Hj; [intros [= <-]; by apply IH|].
  destruct (Ascii.eqb_spec c "<") as [->|]; [|done]. intros [= <-]. split; [done|]. cbn [drop].
  clear IH. revert Hj. induction text as [|d text IH]; [intros _; apply not_elem_of_nil|]. cbn [last_lt].
  destruct (last_lt text); [done|]. destruct (Ascii.eqb_spec d "<") as [|Hd]; [done|]. intros _.
  apply not_elem_of_cons. split; [unfold lt_char; congruence|by apply IH].
Qed.

Lemma last_lt_none text : last_lt text = None -> lt_char ∉ text.
Proof.
  induction text as [|d text IH]; [intros _; apply not_elem_of_nil|]. cbn [last_lt].
  destruct (last_lt text); [done|]. destruct (Ascii.eqb_spec d "<") as [|Hd]; [done|]. intros _.
  apply not_elem_of_cons. split; [unfold lt_char; congruence|by apply IH].
Qed.

(** The replacer of a vault is built from its values. *)
Record vault_cache (v : PIIVault) : Prop := mkVaultCache {
  vc_tokens : forall t, is_Some (values v !! t) -> token_ok t;
  vc_replacer : forall pairs, replacer v = Some pairs ->
    pairs ≡ₚ map_to_list (values v) /\ ordered_tokens v = stable_sort bytes_less pairs.*1
}.

Section Deltas.
Context (iterate : list (bytes * bytes) -> list (bytes * bytes)) (iterate_perm : forall l, iterate l ≡ₚ l).

(** What the replacer of [v] replaces. *)
Definition pairs_of (v : PIIVault) : list (bytes * bytes) := (with_replacer iterate v).2.

Lemma with_replacer_ok v :
  vault_cache v ->
  let v' := (with_replacer iterate v).1 in
  vault_cache v' /\ replacer v' = Some (pairs_of v) /\ values v' = values v
  /\ pairs_of v ≡ₚ map_to_list (values v) /\ ordered_tokens v' = stable_sort bytes_less (pairs_of v).*1.
Proof.
  intros [Ht Hr]. unfold pairs_of, with_replacer. destruct (replacer v) as [ps|] eqn:E; cbn [fst snd replacer values ordered_tokens].
  - destruct (Hr ps eq_refl). split_and!; try done. split; [done|]. by rewrite E.
  - split_and!; try done. split; [done|]. cbn [replacer]. by intros ? [= <-].
Qed.

Lemma pairs_ok v : vault_cache v -> forall p, p ∈ pairs_of v -> token_ok p.1.
Proof.
  intros Hv [t o] Hp. destruct (with_replacer_ok v Hv) as (_ & _ & _ & Hperm & _). rewrite Hperm in Hp.
  apply elem_of_map_to_list in Hp. apply (vc_tokens _ Hv). eauto.
Qed.

Lemma pairs_with_replacer v : vault_cache v -> pairs_of (with_replacer iterate v).1 = pairs_of v.
Proof.
  intros Hv. destruct (with_replacer_ok v Hv) as (_ & Hr & _). unfold pairs_of at 1, with_replacer at 1. by rewrite Hr.
Qed.

(** Text that does not end in a proper prefix of a token can be restored at once. *)
Lemma no_straddle_end v text rest :
  vault_cache v ->
  match last_lt text with
  | Some start => held_suffix (stable_sort bytes_less (pairs_of v).*1) (drop start text) = false
  | None => True
  end -> no_straddle (pairs_of v) text rest.
Proof.
  intros Hv Hend i [t o] Hi Hp Hpre. cbn [fst] in *. pose proof (pairs_ok v Hv _ Hp) as Htok. cbn [fst] in Htok.
  destruct (decide (length t <= length (drop i text))%nat) as [Hle|Hgt]; [by eapply prefix_of_app_le|]. exfalso.
  assert (Hd : drop i text `prefix_of` t).
  { destruct (prefix_weak_total t (drop i text) (drop i text ++ rest)) as [Ht|?]; [done|by apply prefix_app_r| |done].
    apply prefix_length in Ht. lia. }
  assert (Hne : drop i text <> t) by (intros Heq; rewrite Heq in Hgt; lia).
  assert (Hhead : text !! i = Some lt_char).
  { destruct (drop i text) as [|c d] eqn:Hdr; [apply (f_equal length) in Hdr; rewrite length_drop in Hdr; cbn in Hdr; lia|].
    destruct Htok as [(body & -> & _)]. apply prefix_cons_inv_1 in Hd as ->.
    rewrite <- (Nat.add_0_r i), <- lookup_drop, Hdr. done. }
  destruct (last_lt text) as [start|] eqn:Hl.
  - apply last_lt_some in Hl as [Hs Hnone].
    assert (i = start) as ->.
    { destruct (Nat.lt_trichotomy i start) as [Hlt|[->|Hgt']]; [|done|].
      - exfalso. assert (Hin : t !! (start - i)%nat = Some lt_char).
        { apply (prefix_lookup_Some (drop i text)); [|done]. rewrite lookup_drop. by replace (i + (start - i))%nat with start by lia. }
        apply (token_head_only _ _ Htok) in Hin. lia.
      - exfalso. apply Hnone. apply (list_elem_of_lookup_2 _ (i - S start)). rewrite lookup_drop.
        by replace (S start + (i - S start))%nat with i by lia. }
    rewrite (held_proper_prefix _ _ t) in Hend; [done| | |done|done].
    + apply Forall_forall. intros x Hx. apply list_elem_of_fmap in Hx as (p & -> & Hp'). by apply (pairs_ok v).
    + apply list_elem_of_fmap. by exists (t, o).
  - apply last_lt_none in Hl. apply Hl. by eapply list_elem_of_lookup_2.
Qed.

Lemma restore_deltas_replace v held deltas :
  vault_cache v -> restore_deltas iterate v held deltas = Replace (pairs_of v) (held ++ concat deltas).
Proof.
  revert v held. induction deltas as [|d deltas IH]; intros v held Hv; cbn [restore_deltas concat].
  { rewrite app_nil_r. unfold Restore, RestorePrefix. destruct (with_replacer iterate v) as [v1 ps] eqn:E. cbn.
    unfold pairs_of. by rewrite E, take_ge. }
  pose proof (with_replacer_ok v Hv) as (Hv1 & _ & _ & _ & Hord). pose proof (pairs_with_replacer v Hv) as Hps.
  unfold RestorePrefix. destruct (with_replacer iterate v) as [v1 ps] eqn:E. cbn [fst] in *.
  assert (Hpv : ps = pairs_of v) by (unfold pairs_of; by rewrite E). subst ps.
  set (text := held ++ d). rewrite app_assoc. fold text. rewrite IH, Hps by done. rewrite Hord.
  set (cut := match last_lt text with Some _ => _ | None => _ end).
  rewrite <- Replace_app; [by rewrite app_assoc, take_drop|by apply pairs_ok|].
  unfold cut. pose proof (no_straddle_end v text (concat deltas) Hv) as Hns.
  destruct (last_lt text) as [start|] eqn:Hl.
  - destruct (held_suffix _ (drop start text)).
    + apply last_lt_some in Hl as [Hs _]. rewrite (drop_S _ _ _ Hs). cbn [app]. apply no_straddle_lt. by apply pairs_ok.
    + rewrite take_ge, drop_all by done. by apply Hns.
  - rewrite take_ge, drop_all by done. by apply Hns.
Qed.
End Deltas.

(** ** Tokens of a vault *)

Lemma pretty_N_go_digits (x : N) s :
  Forall (fun c => c ∈ bytes_of "0123456789") (bytes_of s) -> Forall (fun c => c ∈ bytes_of "0123456789") (bytes_of (pretty_N_go x s)).
Proof.
  revert s. induction (N.lt_wf_0 x) as [x _ IH]. intros s Hs. destruct (decide (0 < x)%N) as [Hx|Hx].
  - rewrite pretty_N_go_step by done. apply IH; [apply N.div_lt; lia|]. constructor; [|done].
    unfold pretty_N_char. repeat case_match; vm_compute; set_solver.
  - by replace x with 0%N by lia.
Qed.

Lemma pretty_digits (n : nat) : Forall (fun c => c ∈ bytes_of "0123456789") (bytes_of (pretty n)).
Proof.
  unfold pretty, pretty_nat, pretty, pretty_N. case_decide; [|by apply pretty_N_go_digits]. constructor; [|constructor]. vm_compute. set_solver.
Qed.

Lemma not_digit c (n : nat) : c ∉ bytes_of "0123456789" -> c ∉ bytes_of (pretty n).
Proof. intros Hc Hin. pose proof (pretty_digits n) as Hd. rewrite Forall_forall in Hd. by apply Hc, Hd. Qed.

Lemma split_first {A} (c : A) x y (l1 l2 : list A) : c ∉ x -> c ∉ y -> x ++ c :: l1 = y ++ c :: l2 -> x = y /\ l1 = l2.
Proof.
  revert y. induction x as [|a x IH]; intros [|b y] Hx Hy H; cbn in H; simplify_eq; try done; try set_solver.
  destruct (IH y) as [-> ->]; set_solver.
Qed.

Lemma bytes_of_inj s1 s2 : bytes_of s1 = bytes_of s2 -> s1 = s2.
Proof.
  intros H. rewrite <- (String.string_of_list_ascii_of_string s1), <- (String.string_of_list_ascii_of_string s2).
  unfold bytes_of in H. by rewrite H.
Qed.

(** The number of a token can be read off it. *)
Lemma token_number ns l1 l2 n1 n2 : token_of ns l1 n1 = token_of ns l2 n2 -> n1 = n2.
Proof.
  unfold token_of. intros H. apply app_inv_head, app_inv_head, app_inv_head in H.
  apply (f_equal (@rev ascii)) in H. rewrite !rev_app_distr, <- !app_assoc in H. apply app_inv_head in H.
  change (rev (bytes_of "_")) with ["_"%char] in H. cbn [app] in H.
  assert (Hnd : forall n : nat, "_"%char ∉ rev (bytes_of (pretty n))).
  { intros n Hin%(proj1 (in_rev_iff _ _)). revert Hin. apply not_digit. vm_compute. set_solver. }
  apply split_first in H as [H _]; [|apply Hnd..]. apply (f_equal (@rev ascii)) in H. rewrite !rev_involutive in H.
  apply bytes_of_inj in H. by apply (inj pretty) in H.
Qed.

(** What starts every token of a vault. *)
Definition token_prefix_of (ns : bytes) : bytes := bytes_of "<CL_PII_" ++ ns ++ bytes_of "_".

Definition plain_bytes (s : bytes) : Prop := lt_char ∉ s /\ gt_char ∉ s.

Lemma token_of_ok ns label n : plain_bytes ns -> plain_bytes label -> token_ok (token_of ns label n).
Proof.
  intros [Hn1 Hn2] [Hl1 Hl2]. split.
  exists (bytes_of "CL_PII_" ++ ns ++ bytes_of "_" ++ label ++ bytes_of "_" ++ bytes_of (pretty n)).
  assert (Hlit : lt_char ∉ bytes_of "CL_PII_" /\ gt_char ∉ bytes_of "CL_PII_" /\ lt_char ∉ bytes_of "_" /\ gt_char ∉ bytes_of "_").
  { vm_compute. set_solver. }
  assert (Hd : lt_char ∉ bytes_of (pretty n) /\ gt_char ∉ bytes_of (pretty n)) by (split; apply not_digit; vm_compute; set_solver).
  split; [unfold token_of; rewrite <- !app_assoc; done|]. rewrite !not_elem_of_app. tauto.
Qed.

Lemma token_of_prefix ns label n : token_prefix_of ns `prefix_of` token_of ns label n.
Proof. unfold token_prefix_of, token_of. apply prefix_app, prefix_app. by exists (label ++ bytes_of "_" ++ bytes_of (pretty n) ++ bytes_of ">"). Qed.

Lemma trim_left_sub s c : c ∈ trim_left s -> c ∈ s.
Proof. induction s as [|x s IH]; cbn [trim_left]; [done|]. case_match; [|done]. intros H'. right. auto. Qed.

Lemma trim_sub s c : c ∈ trim_brackets s -> c ∈ s.
Proof.
  unfold trim_brackets. intros H%(proj1 (in_rev_iff _ _))%trim_left_sub. apply (proj1 (in_rev_iff _ _)) in H.
  by apply trim_left_sub.
Qed.

(** ** Masking *)

Record vault_ok (v : PIIVault) : Prop := mkVaultOk {
  vo_cache : vault_cache v;
  vo_namespace : plain_bytes (namespace v);
  vo_numbers : forall t, is_Some (values v !! t) ->
    exists label n, t = token_of (namespace v) label n /\ (n <= size (values v))%nat;
  vo_keys : forall key t, tokens v !! key = Some t ->
    exists replacement original, key = vault_key replacement original /\ "000"%char ∉ replacement /\ values v !! t = Some original
}.

(** A replacement that can label a token. *)
Definition label_ok (replacement : bytes) : Prop := plain_bytes replacement /\ "000"%char ∉ replacement.

(** A span that [maskSpans] gives a token. *)
Definition tokenised (content : bytes) (sp : Span) : bool :=
  Reversible sp && (0 <=? Start sp) && (Stop sp <=? Z.of_nat (length content)) && (Start sp <? Stop sp).

(** The span as masked: its token stands for the text it covers. *)
Definition masked_as (v : PIIVault) (content : bytes) (sp sp' : Span) : Prop :=
  Start sp' = Start sp /\ Stop sp' = Stop sp
  /\ if tokenised content sp then values v !! Replacement sp' = Some (slice (Start sp) (Stop sp) content) else sp' = sp.

Definition grows (v v' : PIIVault) : Prop := namespace v' = namespace v /\ values v ⊆ values v'.

Lemma masked_as_grows v v' content sp sp' : grows v v' -> masked_as v content sp sp' -> masked_as v' content sp sp'.
Proof.
  intros [_ Hsub] (H1 & H2 & H3). split_and!; [done..|]. case_match; [|done]. by eapply lookup_weaken.
Qed.

(** A new token is not in use. *)
Lemma fresh_token v label : vault_ok v -> values v !! token_of (namespace v) label (size (values v) + 1) = None.
Proof.
  intros [_ _ Hn _]. apply eq_None_not_Some. intros Hs. apply Hn in Hs as (l & n & Heq & Hle). apply token_number in Heq. lia.
Qed.

Lemma plain_trim s : plain_bytes s -> plain_bytes (trim_brackets s).
Proof. intros [H1 H2]. split; intros H%trim_sub; auto. Qed.

Lemma mask_span_ok content v sp v' sp' :
  vault_ok v -> (Reversible sp = true -> label_ok (Replacement sp)) -> mask_span content v sp = (v', sp') ->
  vault_ok v' /\ grows v v' /\ masked_as v' content sp sp'.
Proof.
  intros Hv Hlab Hm. unfold mask_span in Hm. unfold masked_as.
  assert (Ht : negb (tokenised content sp)
    = negb (Reversible sp) || (Start sp <? 0) || (Z.of_nat (length content) <? Stop sp) || (Stop sp <=? Start sp)).
  { unfold tokenised. rewrite !negb_andb, !Z.leb_antisym, !Z.ltb_antisym, !negb_involutive. done. }
  rewrite <- Ht in Hm. destruct (tokenised content sp) eqn:Htok; cbn [negb] in Hm.
  2: { inversion Hm; subst. split; [done|]. by split. }
  assert (Hrev : Reversible sp = true) by (unfold tokenised in Htok; by destruct (Reversible sp)). specialize (Hlab Hrev) as [Hpl Hnul].
  set (original := slice (Start sp) (Stop sp) content) in *. set (key := vault_key (Replacement sp) original) in *.
  pose proof Hv as [[Hct Hcr] Hns Hnum Hkeys].
  destruct (bool_decide_reflect (default [] (tokens v !! key) = [])) as [Hnone|Hsome].
  - inversion Hm; subst; clear Hm. set (token := token_of (namespace v) (trim_brackets (Replacement sp)) (size (values v) + 1)).
    pose proof (fresh_token v (trim_brackets (Replacement sp)) Hv) as Hfresh. fold token in Hfresh.
    assert (Hsub : values v ⊆ <[token := original]> (values v)) by (by apply insert_subseteq).
    split; [|split; [done|]; cbn; by rewrite lookup_insert_eq].
    split; cbn [values tokens namespace replacer ordered_tokens].
    + split; [|done]. cbn [values]. intros t. rewrite lookup_insert_is_Some. intros [<-|[_ H]]; [|by apply Hct].
      apply token_of_ok; [done|by apply plain_trim].
    + done.
    + intros t. rewrite lookup_insert_is_Some, map_size_insert_None by done. intros [<-|[_ H]]; [eexists _, _; split; [reflexivity|lia]|].
      destruct (Hnum t H) as (l & n & -> & Hle). exists l, n. split; [done|lia].
    + intros k t. rewrite lookup_insert_Some. intros [[<- <-]|[_ H]].
      * exists (Replacement sp), original. split_and!; [done..|]. by rewrite lookup_insert_eq.
      * destruct (Hkeys k t H) as (r & o & -> & Hr & Ho). exists r, o. split_and!; [done..|]. by eapply lookup_weaken.
  - inversion Hm; subst; clear Hm. destruct (tokens v' !! key) as [t|] eqn:Hk; [|done]. cbn [default].
    split; [done|]. split; [done|]. cbn [Start Stop Replacement]. split_and!; [done..|]. unfold default, id.
    destruct (Hkeys key t Hk) as (r & o & Heq & Hr & Ho). unfold key, vault_key in Heq.
    apply split_first in Heq as [_ ->]; done.
Qed.

Lemma maskSpans_ok content spans v v' spans' :
  vault_ok v -> Forall (fun sp => Reversible sp = true -> label_ok (Replacement sp)) spans ->
  maskSpans content v spans = (v', spans') ->
  vault_ok v' /\ grows v v' /\ Forall2 (masked_as v' content) spans spans'.
Proof.
  intros Hv Hl. revert v v' spans' Hv. induction Hl as [|sp spans Hsp Hl IH]; intros v v' spans' Hv Hm; cbn [maskSpans] in Hm.
  { inversion Hm; subst. by split_and!. }
  destruct (mask_span content v sp) as [v1 sp1] eqn:H1. destruct (maskSpans content v1 spans) as [v2 spans2] eqn:H2.
  inversion Hm; subst. destruct (mask_span_ok _ _ _ _ _ Hv Hsp H1) as (Hv1 & Hg1 & Hm1).
  destruct (IH _ _ _ Hv1 H2) as (Hv2 & Hg2 & Hm2). split; [done|]. split.
  - destruct Hg1, Hg2. split; [congruence|by etrans].
  - constructor; [|done]. by eapply masked_as_grows.
Qed.

Lemma new_vault_ok nonce : vault_ok (WithPIIVault nonce).
Proof.
  assert (Hc : forall n, (n < 16)%nat -> ascii_of_nat (97 + n) <> "<"%char /\ ascii_of_nat (97 + n) <> ">"%char).
  { intros n Hn. do 16 (destruct n as [|n]; [done|]). lia. }
  split; unfold WithPIIVault; cbn [values tokens namespace].
  - split; [|done]. cbn [values]. intros t. rewrite lookup_empty. by intros [? ?].
  - assert (Hp : forall b, plain_bytes (nonce_letters b)).
    { intros b. unfold nonce_letters. set (n := nat_of_ascii b).
      assert (n < 256)%nat by apply nat_ascii_bounded.
      destruct (Hc (n / 16)%nat) as [? ?]; [apply Nat.Div0.div_lt_upper_bound; lia|].
      destruct (Hc (n mod 16)%nat) as [? ?]; [apply Nat.mod_upper_bound; lia|].
      unfold plain_bytes, lt_char, gt_char. set_solver. }
    induction nonce as [|b nonce [I1 I2]]; [split; apply not_elem_of_nil|]. cbn [map concat]. destruct (Hp b).
    split; apply not_elem_of_app; done.
  - intros t. rewrite lookup_empty. by intros [? ?].
  - intros key t. by rewrite lookup_empty.
Qed.

(** ** Round trip *)

(** No position of the text starts a token of the namespace. *)
Definition clean (ns text : bytes) : Prop := forall i, ~ token_prefix_of ns `prefix_of` drop i text.

Lemma clean_app ns a b : clean ns (a ++ b) -> clean ns a /\ clean ns b.
Proof.
  intros H. split; intros i Hi.
  - destruct (decide (i <= length a)%nat).
    + apply (H i). rewrite drop_app_le by done. by apply prefix_app_r.
    + rewrite drop_ge in Hi by lia. by apply prefix_nil_inv in Hi.
  - apply (H (length a + i)%nat). by rewrite drop_app_add.
Qed.

Section RoundTrip.
Context (iterate : list (bytes * bytes) -> list (bytes * bytes)) (iterate_perm : forall l, iterate l ≡ₚ l).
Context (v : PIIVault) (v_ok : vault_ok v).

Notation pairs := (pairs_of iterate v).

Lemma pairs_values t o : (t, o) ∈ pairs <-> values v !! t = Some o.
Proof.
  destruct (with_replacer_ok iterate iterate_perm v (vo_cache _ v_ok)) as (_ & _ & _ & Hp & _). rewrite Hp. apply elem_of_map_to_list.
Qed.

Lemma vault_pairs_ok : forall p, p ∈ pairs -> token_ok p.1.
Proof. apply pairs_ok; [done|apply v_ok]. Qed.

(** Text without tokens is left alone. *)
Lemma Replace_clean g : clean (namespace v) g -> Replace pairs g = g.
Proof.
  induction g as [|c g IH]; intros Hc; [done|]. rewrite Replace_cons by apply vault_pairs_ok.
  destruct (List.find _ pairs) as [[t o]|] eqn:Hf.
  - exfalso. apply find_some in Hf as [Hin Hp]. apply list_elem_of_In, pairs_values in Hin. apply bool_decide_eq_true in Hp. cbn in Hp.
    destruct (vo_numbers _ v_ok t) as (l & n & -> & _); [eauto|]. apply (Hc O). etrans; [apply token_of_prefix|done].
  - f_equal. apply IH. change (c :: g) with ([c] ++ g) in Hc. by apply clean_app in Hc as [_ ?].
Qed.

(** A token is replaced by its original. *)
Lemma Replace_token t o rest : values v !! t = Some o -> Replace pairs (t ++ rest) = o ++ Replace pairs rest.
Proof.
  intros Ht. assert (Htok : token_ok t) by (apply (vc_tokens _ (vo_cache _ v_ok)); eauto).
  destruct t as [|c t]; [by apply token_nonempty in Htok|]. cbn [app]. rewrite Replace_cons by apply vault_pairs_ok.
  change (c :: t ++ rest) with ((c :: t) ++ rest).
  destruct (List.find _ pairs) as [[t' o']|] eqn:Hf.
  - apply find_some in Hf as [Hin Hp]. apply list_elem_of_In in Hin. apply bool_decide_eq_true in Hp. cbn [fst] in Hp.
    assert (t' = c :: t) as ->.
    { pose proof (vault_pairs_ok _ Hin) as Htok'. cbn in Htok'.
      destruct (prefix_weak_total t' (c :: t) ((c :: t) ++ rest)) as [H|H]; [done|by apply prefix_app_r| |].
      - by apply token_prefix. - symmetry. by apply token_prefix. }
    apply pairs_values in Hin. rewrite Ht in Hin. inversion Hin; subst. by rewrite drop_app_length.
  - exfalso. apply pairs_values in Ht. apply list_elem_of_In in Ht. pose proof (find_none _ _ Hf _ Ht) as Hn. cbn [fst] in Hn.
    rewrite bool_decide_true in Hn; [done|]. by apply prefix_app_r.
Qed.

Lemma Replace_gap_token g t o rest :
  clean (namespace v) g -> values v !! t = Some o -> Replace pairs (g ++ t ++ rest) = g ++ o ++ Replace pairs rest.
Proof.
  intros Hg Ht. assert (Htok : token_ok t) by (apply (vc_tokens _ (vo_cache _ v_ok)); eauto).
  rewrite Replace_app; [|apply vault_pairs_ok|].
  - by rewrite Replace_clean, (Replace_token _ _ _ Ht).
  - destruct Htok as [(b & -> & _)]. cbn [app]. apply no_straddle_lt. apply vault_pairs_ok.
Qed.

(** Text before the spans comes out as it is. *)
Lemma apply_from_gap content last m spans :
  0 <= last <= m -> m <= Z.of_nat (length content) -> Forall (fun sp => m <= Start sp /\ Start sp < Stop sp /\ Stop sp <= Z.of_nat (length content)) spans ->
  apply_from content last spans = slice last m content ++ apply_from content m spans.
Proof.
  intros Hm Hl Hs.
  destruct Hs as [|sp spans (H1 & H2 & H3) Hs]; cbn [apply_from].
  - assert (Hdrop : forall x, 0 <= x <= Z.of_nat (length content) ->
      (if x <? Z.of_nat (length content) then drop (Z.to_nat x) content else []) = slice x (Z.of_nat (length content)) content).
    { intros x Hx. unfold slice. destruct (Z.ltb_spec x (Z.of_nat (length content))).
      - rewrite take_ge; [done|]. rewrite length_drop. lia.
      - by replace (Z.to_nat (Z.of_nat (length content) - x)) with O by lia. }
    rewrite !Hdrop by lia. symmetry. apply slice_app; lia.
  - destruct (Z.ltb_spec (Start sp) last), (Z.ltb_spec (Start sp) m), (Z.ltb_spec (Z.of_nat (length content)) (Stop sp)),
      (Z.leb_spec (Stop sp) (Start sp)); try lia. cbn [orb]. rewrite <- (slice_app last m (Start sp)) by lia. by rewrite <- app_assoc.
Qed.

Definition irreversible (sp : Span) : bool := negb (Reversible sp).

Lemma restore_spans content spans spans' last g :
  sorted_spans spans -> Forall (fun sp => last <= Start sp /\ Stop sp <= Z.of_nat (length content)) spans ->
  0 <= last <= Z.of_nat (length content) ->
  Forall2 (masked_as v content) spans spans' -> clean (namespace v) (g ++ apply_from content last (List.filter irreversible spans)) ->
  Replace pairs (g ++ apply_from content last spans') = g ++ apply_from content last (List.filter irreversible spans).
Proof.
  intros [Hs Hn] Hr Hlast Hm. revert last g Hr Hlast. induction Hm as [|sp sp' spans spans' (Hst & Hsp & Hrep) Hm IH]; intros last g Hr Hlast Hc.
  { by apply Replace_clean. }
  inversion Hs as [|?? Hs' Hd]; subst. inversion Hn as [|?? Hne Hn']; subst. inversion Hr as [|?? [Hl Hlen] Hr']; subst.
  unfold nonempty in Hne. specialize (IH Hs' Hn').
  assert (Hnext : Forall (fun x => Stop sp <= Start x /\ Stop x <= Z.of_nat (length content)) spans).
  { rewrite Forall_forall in Hd, Hr' |- *. intros x Hx. split; [by apply Hd|by apply Hr']. }
  assert (Hnext' : Forall (fun x => Stop sp <= Start x /\ Start x < Stop x /\ Stop x <= Z.of_nat (length content)) (List.filter irreversible spans)).
  { apply Forall_List_filter. rewrite Forall_forall in Hnext, Hn' |- *. intros x Hx. destruct (Hnext x Hx). by specialize (Hn' x Hx). }
  assert (Hskip : forall last', last' = last -> (Start sp' <? last') || (Z.of_nat (length content) <? Stop sp') || (Stop sp' <=? Start sp') = false).
  { intros ? ->. rewrite !orb_false_iff, !Z.ltb_ge, Z.leb_gt. lia. }
  cbn [apply_from]. rewrite (Hskip last eq_refl), Hst, Hsp. cbn [List.filter] in *. unfold irreversible at 1 in Hc. unfold irreversible at 1.
  unfold tokenised in Hrep. destruct (Reversible sp) eqn:Hrev; cbn [negb andb] in *.
  - assert (Hb : (0 <=? Start sp) && (Stop sp <=? Z.of_nat (length content)) && (Start sp <? Stop sp) = true).
    { rewrite !andb_true_iff, !Z.leb_le, Z.ltb_lt. lia. }
    rewrite Hb in Hrep. rewrite (apply_from_gap content last (Stop sp)) in Hc |- * by (done || lia).
    rewrite <- (slice_app last (Start sp) (Stop sp)), <- !app_assoc in Hc |- * by lia. rewrite !app_assoc in Hc. destruct (clean_app _ _ _ Hc) as [Hc1 Hc2]. apply clean_app in Hc1 as [Hc1 _].
    rewrite app_assoc, (Replace_gap_token _ _ _ _ Hc1 Hrep), <- app_assoc. do 3 f_equal. apply (IH (Stop sp) []); [done|lia|done].
  - subst sp'. cbn [apply_from] in Hc |- *. rewrite (Hskip last eq_refl) in Hc |- *.
    replace (g ++ slice last (Start sp) content ++ Replacement sp ++ apply_from content (Stop sp) spans')
      with ((g ++ slice last (Start sp) content ++ Replacement sp) ++ apply_from content (Stop sp) spans') by (by rewrite <- !app_assoc).
    rewrite IH; [by rewrite <- !app_assoc|done|lia|]. by rewrite <- !app_assoc.
Qed.
End RoundTrip.

(** ** Properties *)

(** The vault of a request after some texts were masked, each with the spans its rules reported. *)
Definition masked_vault (nonce : list ascii) (texts : list (bytes * list Span)) : PIIVault :=
  fold_left (fun v '(content, raw) => (maskSpans content v (composeSpans raw)).1) texts (WithPIIVault nonce).

(** The reports of the rules: in range, and with a usable label where they are reversible. *)
Definition report_ok (content : bytes) (sp : Span) : Prop :=
  0 <= Start sp /\ Stop sp <= Z.of_nat (length content) /\ (Reversible sp = true -> label_ok (Replacement sp)).

Lemma absorb_report content o sp : report_ok content o -> report_ok content sp -> report_ok content (absorb o sp).
Proof.
  intros (H1 & H2 & H3) (G1 & G2 & G3). unfold report_ok. cbn. split; [done|].
  split; [by case_match|]. case_match; [done|]. done.
Qed.

Lemma masked_vault_ok nonce texts :
  Forall (fun '(content, raw) => Forall (report_ok content) raw) texts -> vault_ok (masked_vault nonce texts).
Proof.
  intros Ht. unfold masked_vault. pose proof (new_vault_ok nonce) as Hv. revert Hv. generalize (WithPIIVault nonce).
  induction Ht as [|[content raw] texts Hraw Ht IH]; intros v Hv; cbn [fold_left]; [done|]. apply IH.
  destruct (maskSpans content v (composeSpans raw)) as [v' spans'] eqn:Hm. cbn [fst].
  eapply maskSpans_ok; [exact Hv| |exact Hm].
  eapply Forall_impl; [apply compose_forall; [apply absorb_report|exact Hraw]|]. by intros sp (_ & _ & ?).
Qed.

(** C23: Masking and restoring are inverse on the reversible masks: after the spans that the rules report
    are merged and given tokens, restoring the masked text gives the text with only the
    irreversible masks applied; where every mask is reversible that is the original.  The text must
    not contain the random namespace of the request. *)
Theorem restore_undoes_reversible_masks iterate nonce texts content raw :
  (forall l, iterate l ≡ₚ l) ->
  Forall (fun '(content, raw) => Forall (report_ok content) raw) texts -> Forall (report_ok content) raw ->
  let v := masked_vault nonce texts in
  let spans := composeSpans raw in
  let kept := applySpans content (List.filter irreversible spans) in
  clean (namespace v) kept ->
  (Restore iterate (maskSpans content v spans).1 (applySpans content (maskSpans content v spans).2)).2 = kept.
Proof.
  intros Hit Htexts Hraw v spans kept Hclean. pose proof (masked_vault_ok nonce texts Htexts) as Hv. fold v in Hv.
  destruct (maskSpans content v spans) as [v' spans'] eqn:Hm. cbn [fst snd].
  assert (Hrep : Forall (report_ok content) spans) by (apply compose_forall; [apply absorb_report|done]).
  destruct (maskSpans_ok content spans v v' spans') as (Hv' & [Hns _] & Has); [done| |done|].
  { eapply Forall_impl; [exact Hrep|]. by intros sp (_ & _ & ?). }
  assert (Hres : (Restore iterate v' (applySpans content spans')).2 = Replace (pairs_of iterate v') (applySpans content spans')).
  { pose proof (restore_deltas_replace iterate Hit v' (applySpans content spans') [] (vo_cache _ Hv')) as H.
    cbn [restore_deltas concat] in H. by rewrite app_nil_r in H. }
  rewrite Hres. unfold kept in *. rewrite !applySpans_from in *.
  apply (restore_spans iterate Hit v' Hv' content spans spans' 0 []).
  - apply compose_sorted. eapply Forall_impl; [exact Hraw|]. by intros sp (? & _).
  - eapply Forall_impl; [exact Hrep|]. intros sp (? & ? & _). lia.
  - lia.
  - done.
  - by rewrite Hns.
Qed.

Definition phone (a b : Z) : Span := mkSpan a b (bytes_of "[PHONE]") true.

Lemma phone_ok content a b : 0 <= a -> b <= Z.of_nat (length content) -> report_ok content (phone a b).
Proof.
  intros Ha Hb. split; [done|]. split; [done|]. intros _.
  assert (Hl : forall c, c ∈ bytes_of "[PHONE]" -> c <> lt_char /\ c <> gt_char /\ c <> "000"%char).
  { intros c Hc. apply list_elem_of_In in Hc. vm_compute in Hc. repeat destruct Hc as [<-|Hc]; done. }
  split; [split|]; intros Hc; by destruct (Hl _ Hc) as (? & ? & ?).
Qed.

(** Two numbers, one masked by a second rule as well, whose mask cannot be undone. *)
Lemma restore_undoes_reversible_masks_witness :
  let content := bytes_of "call 13800138000 or 13900139000" in
  let raw := [phone 5 16; phone 20 31; mkSpan 20 31 (bytes_of "[SECRET]") false] in
  let v := masked_vault (bytes_of "abc") [] in
  let out := maskSpans content v (composeSpans raw) in
  (Restore (fun l => l) out.1 (applySpans content out.2)).2 = bytes_of "call 13800138000 or [PHONE]".
Proof.
  cbv zeta.
  rewrite (restore_undoes_reversible_masks (fun l => l) (bytes_of "abc") []
    (bytes_of "call 13800138000 or 13900139000") [phone 5 16; phone 20 31; mkSpan 20 31 (bytes_of "[SECRET]") false]).
  - vm_compute. reflexivity.
  - intros l. reflexivity.
  - constructor.
  - apply Forall_cons; split; [apply phone_ok; vm_compute; discriminate|].
    apply Forall_cons; split; [apply phone_ok; vm_compute; discriminate|].
    apply Forall_singleton. split; [discriminate|]. split; [vm_compute; discriminate|discriminate].
  - intros i. rewrite <- (bool_decide_eq_false (token_prefix_of _ `prefix_of` drop i _)).
    do 40 (destruct i as [|i]; [vm_compute; reflexivity|]). vm_compute. reflexivity.
Defined.

(** The answer may arrive in any deltas: restoring a field delta by delta, holding back only a
    suffix that may be the start of a token, gives the bytes that restoring the whole field gives,
    for every way of cutting it. *)
Theorem restored_deltas_join iterate nonce texts deltas :
  (forall l, iterate l ≡ₚ l) -> Forall (fun '(content, raw) => Forall (report_ok content) raw) texts ->
  let v := masked_vault nonce texts in
  restore_deltas iterate v [] deltas = (Restore iterate v (concat deltas)).2.
Proof.
  intros Hit Ht v. pose proof (vo_cache _ (masked_vault_ok nonce texts Ht)) as Hc. fold v in Hc.
  rewrite restore_deltas_replace by done. symmetry.
  pose proof (restore_deltas_replace iterate Hit v (concat deltas) [] Hc) as H. cbn [restore_deltas concat] in H.
  by rewrite app_nil_r in H.
Qed.

(** A token cut into single bytes. *)
Lemma restored_deltas_join_witness :
  let texts := [(bytes_of "13800138000", [phone 0 11])] in
  let v := masked_vault (bytes_of "abc") texts in
  restore_deltas (fun l => l) v [] (map (fun c => [c]) (bytes_of "is it <CL_PII_gbgcgd_PHONE_1>?")) = bytes_of "is it 13800138000?".
Proof.
  cbv zeta.
  rewrite (restored_deltas_join (fun l => l) (bytes_of "abc") [(bytes_of "13800138000", [phone 0 11])]).
  - vm_compute. reflexivity.
  - intros l. reflexivity.
  - apply Forall_singleton. apply Forall_singleton. apply phone_ok; vm_compute; discriminate.
Defined.
