(* ===== verification/Guardrail.v ===== *)
(** * The guardrail service: [internal/guardrail/service.go], [stream_engine_cache.go]

    The whole-text check: which rules apply, in which order, what happens when
    an engine fails, and how the matches of several rules become one answer.
    The rule cache and the two engine caches are the state of the service.
    Engines are a parameter ([E], with [createEngine] for the registry and
    [engineCheck] for [GuardrailEngine.Check]); the rows the database returns,
    the model's configuration, the clock and the cancellation of the request are
    arguments.  Locks are held per operation, so every operation is one step. *)

From S2P Require Import Prelude Utf8 Spans Keyword ResponseStream Vault.

Definition severityOrder (s : string) : Z :=
  if String.eqb s "critical" then 4 else if String.eqb s "high" then 3
  else if String.eqb s "medium" then 2 else if String.eqb s "low" then 1 else 0.

Record CheckRequest := mkCheckRequest {
  cqContent : bytes; cqDirection : string; cqModel : string; cqAPIKeyID : Z; cqTeamID : Z; cqOrgID : Z
}.

Record ModelGuardrailConfig := mkModelConfig { mgEnabled : bool; mgRequestChecks : list string; mgResponseChecks : list string }.

Record GuardrailEvent := mkGuardEvent {
  geRuleID : Z; geRuleName : string; geEngineType : string; geAction : string; geReason : bytes; geVersion : Z;
  geMatched : list MatchedRule
}.

(** The switches of the service ([system_settings]). *)
Record guard_settings := mkSettings {
  gsLogOnly : bool; gsFailOpen : bool; gsOversizeAction : string; gsEngineErrorAction : string; gsStrictCoverage : bool
}.

Section Service.
Context {E : Type}.
Context (createEngine : string -> string -> option E).
Context (engineCheck : E -> bytes -> string -> string -> option (option GuardrailResult)).

Record GuardrailService := mkService {
  gvRules : list GuardrailRule; gvLoadedAt : option Z; gvTtl : Z; gvEngines : gmap Z E; gvSettings : guard_settings
}.

(** ** Rules and engines *)

Definition find_rule (id : Z) (rules : list GuardrailRule) : option GuardrailRule :=
  List.find (fun r => rID r =? id) (rev rules).

(** [LoadRules] on the enabled rows, in id order: engines of removed rules and of rules whose
    configuration changed are dropped. *)
Definition LoadRules (s : GuardrailService) (now : Z) (rows : list GuardrailRule) : GuardrailService :=
  let active id := existsb (fun r => rID r =? id) rows in
  let kept := filter (fun '(id, _) => active id = true) (gvEngines s) in
  let drop_stale engines r :=
    match find_rule (rID r) (gvRules s) with
    | Some old => if String.eqb (rConfig old) (rConfig r) then engines else delete (rID r) engines
    | None => engines
    end in
  mkService rows (Some now) (gvTtl s) (fold_left drop_stale rows kept) (gvSettings s).

(** [ensureRules]: [refreshed] is what [RefreshSettings] leaves, [rows] the answer of the database. *)
Definition ensureRules (s : GuardrailService) (now : Z) (refreshed : guard_settings) (rows : option (list GuardrailRule))
    : GuardrailService * bool :=
  let fresh := match gvLoadedAt s with Some t => now - t <? gvTtl s | None => false end in
  if fresh then (s, true)
  else
    let s := mkService (gvRules s) (gvLoadedAt s) (gvTtl s) (gvEngines s) refreshed in
    match rows with
    | Some rows => (LoadRules s now rows, true)
    | None => (s, negb (bool_decide (gvRules s = [])))
    end.

Definition InvalidateCache (s : GuardrailService) : GuardrailService :=
  mkService (gvRules s) None (gvTtl s) (gvEngines s) (gvSettings s).

Definition getEngine (s : GuardrailService) (rule : GuardrailRule) : GuardrailService * option E :=
  match gvEngines s !! rID rule with
  | Some eng => (s, Some eng)
  | None =>
      match createEngine (rType rule) (rConfig rule) with
      | None => (s, None)
      | Some eng => (mkService (gvRules s) (gvLoadedAt s) (gvTtl s) (<[rID rule := eng]> (gvEngines s)) (gvSettings s), Some eng)
      end
  end.

(** ** Which rules apply *)

Definition modelInFilter (model filter : string) : bool :=
  existsb (fun m => String.eqb (TrimSpace m) model) (split_on "," filter).

Definition rule_applies (req : CheckRequest) (r : GuardrailRule) : bool :=
  (String.eqb (rDirection r) (cqDirection req) || String.eqb (rDirection r) "both")
  && match rModelFilter r with None => true | Some f => modelInFilter (cqModel req) f end
  && match rOrgID r with None => true | Some o => o =? cqOrgID req end.

Definition checks_of (mc : ModelGuardrailConfig) (direction : string) : list string :=
  if String.eqb direction "request" then mgRequestChecks mc else mgResponseChecks mc.

Definition more_severe (a b : GuardrailRule) : bool := severityOrder (rSeverity b) <? severityOrder (rSeverity a).

(** The rules of a check, the most severe first. *)
Definition selected_rules (rules : list GuardrailRule) (mc : option ModelGuardrailConfig) (req : CheckRequest) : list GuardrailRule :=
  let rules := List.filter (rule_applies req) rules in
  let rules :=
    match mc with
    | Some mc =>
        let checks := checks_of mc (cqDirection req) in
        if bool_decide (checks = []) then rules else List.filter (fun r => bool_decide (rType r ∈ checks)) rules
    | None => rules
    end in
  stable_sort more_severe rules.

(** ** The check *)

Definition maxCheckContent : nat := N.to_nat 500000.

(** [string([]rune(s)[:n])]: an invalid byte becomes the replacement character. *)
Definition encode_rune (r : bytes) : bytes :=
  if well_formed r then r else map ascii_of_nat [239; 191; 189]%nat.

Definition rune_prefix (n : nat) (s : bytes) : bytes := concat (map encode_rune (take n (split_runes s))).

Inductive check_error := ServiceUnavailable | CheckCtxDone | CriticalEngineFailure (engine : string) | EngineFailureBlocks (engine : string).

(** What the loop over the rules carries. *)
Record check_acc := mkCheckAcc {
  kaMaskedContent : bytes; kaMaskedRuleName : string; kaLogRuleName : string; kaSpans : list Span;
  kaMatched : list MatchedRule; kaEvents : list GuardrailEvent
}.

Definition add_event (acc : check_acc) (e : GuardrailEvent) : check_acc :=
  mkCheckAcc (kaMaskedContent acc) (kaMaskedRuleName acc) (kaLogRuleName acc) (kaSpans acc) (kaMatched acc) (kaEvents acc ++ [e]).

Definition rule_event (r : GuardrailRule) (action : string) (reason : bytes) (matched : list MatchedRule) : GuardrailEvent :=
  mkGuardEvent (rID r) (rName r) (rType r) action reason (rVersion r) matched.

(** An engine that cannot be created or fails: skipped, unless policy or severity forbids. *)
Definition engine_failure (cfg : guard_settings) (r : GuardrailRule) : option check_error :=
  if String.eqb (gsEngineErrorAction cfg) "block" && negb (gsFailOpen cfg) then Some (EngineFailureBlocks (rType r))
  else if (severityOrder "high" <=? severityOrder (rSeverity r)) && negb (gsFailOpen cfg) then Some (CriticalEngineFailure (rType r))
  else None.

Definition matched_action (logOnly : bool) (r : GuardrailRule) : string :=
  let action := if String.eqb (rAction r) "" then "block" else rAction r in
  if logOnly && String.eqb action "block" then "log" else action.

Inductive rule_outcome := Continue (acc : check_acc) | Fail (e : check_error) (acc : check_acc) | Block (resp : CheckResponse) (acc : check_acc).

(** The body of the loop on the answer of an engine that worked. *)
Definition judge (logOnly : bool) (r : GuardrailRule) (result : option GuardrailResult) (acc : check_acc) : rule_outcome :=
  match result with
  | Some res =>
      if Blocked res then
        let action := matched_action logOnly r in
        let matched := kaMatched acc ++ [mkMatched (rID r) (rVersion r) action] in
        let with_ content name logName spans :=
          mkCheckAcc content name logName spans matched (kaEvents acc ++ [rule_event r action (Reason res) matched]) in
        if String.eqb action "log" then Continue (with_ (kaMaskedContent acc) (kaMaskedRuleName acc) (rName r) (kaSpans acc))
        else if String.eqb action "mask" then
          match MaskedSpans res with
          | _ :: _ => Continue (with_ (kaMaskedContent acc) (rName r) (kaLogRuleName acc) (kaSpans acc ++ MaskedSpans res))
          | [] =>
              if bool_decide (MaskedContent res = []) then
                Continue (with_ (kaMaskedContent acc) (kaMaskedRuleName acc) (kaLogRuleName acc) (kaSpans acc))
              else Continue (with_ (MaskedContent res) (rName r) (kaLogRuleName acc) (kaSpans acc))
          end
        else
          Block (mkResponse true (rName r) (Reason res) (kaMaskedContent acc) action [] false matched)
            (with_ (kaMaskedContent acc) (kaMaskedRuleName acc) (kaLogRuleName acc) (kaSpans acc))
      else
        let noted := negb (bool_decide (Reason res = [])) in
        let action := if noted then (if String.eqb (rAction r) "" then "log" else rAction r) else "pass" in
        let acc := add_event acc (rule_event r action (Reason res) []) in
        Continue (if String.eqb action "log"
                  then mkCheckAcc (kaMaskedContent acc) (kaMaskedRuleName acc) (rName r) (kaSpans acc) (kaMatched acc) (kaEvents acc)
                  else acc)
  | None => Continue (add_event acc (rule_event r "pass" [] []))
  end.

Definition failed (cfg : guard_settings) (r : GuardrailRule) (reason : string) (acc : check_acc) : rule_outcome :=
  let acc := add_event acc (rule_event r "error" (bytes_of reason) []) in
  match engine_failure cfg r with Some e => Fail e acc | None => Continue acc end.

(** One rule: [before] and [after] are the cancellation of the request before the rule and after its engine ran. *)
Definition check_rule (s : GuardrailService) (before after : bool) (req : CheckRequest) (content : bytes) (r : GuardrailRule) (acc : check_acc)
    : GuardrailService * rule_outcome :=
  if before then (s, Fail CheckCtxDone acc)
  else
    let '(s, eng) := getEngine s r in
    match eng with
    | None => (s, failed (gvSettings s) r "engine creation failed" acc)
    | Some eng =>
        match (if after then None else engineCheck eng content (cqDirection req) (cqModel req)) with
        | None => (s, failed (gvSettings s) r "engine check failed" acc)
        | Some result => (s, judge (gsLogOnly (gvSettings s)) r result acc)
        end
    end.

Fixpoint check_rules (s : GuardrailService) (ctx : nat -> bool * bool) (i : nat) (req : CheckRequest) (content : bytes)
    (rules : list GuardrailRule) (acc : check_acc) : GuardrailService * rule_outcome :=
  match rules with
  | [] => (s, Continue acc)
  | r :: rules =>
      match check_rule s (ctx i).1 (ctx i).2 req content r acc with
      | (s, Continue acc) => check_rules s ctx (S i) req content rules acc
      | stop => stop
      end
  end.

(** The answer when no rule blocks; a request's reversible masks get tokens of its vault. *)
Definition check_answer (req : CheckRequest) (content : bytes) (truncated : bool) (vault : option PIIVault) (acc : check_acc)
    : option PIIVault * CheckResponse :=
  if bool_decide (kaSpans acc = []) then
    (vault,
     if negb (bool_decide (kaMaskedContent acc = [])) then
       mkResponse false (kaMaskedRuleName acc) [] (kaMaskedContent acc) "mask" [] truncated (kaMatched acc)
     else if negb (String.eqb (kaLogRuleName acc) "") then
       mkResponse false (kaLogRuleName acc) [] [] "log" [] truncated (kaMatched acc)
     else mkResponse false "" [] [] "" [] truncated [])
  else
    let composed := composeSpans (kaSpans acc) in
    let '(vault, composed) :=
      match vault with
      | Some v => if String.eqb (cqDirection req) "request" then let '(v, c) := maskSpans content v composed in (Some v, c) else (vault, composed)
      | None => (None, composed)
      end in
    (vault, mkResponse false (kaMaskedRuleName acc) [] (applySpans content composed) "mask" composed truncated (kaMatched acc)).

Definition oversize_response : CheckResponse :=
  mkResponse true "guardrail_oversize"
    (bytes_of "content exceeds guardrail inspection limit (500000 runes) and oversize policy is reject") [] "block" [] false [].

Definition plain_pass (truncated : bool) : CheckResponse := mkResponse false "" [] [] "" [] truncated [].

(** [Check] after the rules were loaded; [streamMode] is [StreamModeFor]. *)
Definition check_loaded (s : GuardrailService) (mc : option ModelGuardrailConfig) (streamMode : string) (ctx : nat -> bool * bool)
    (vault : option PIIVault) (req : CheckRequest)
    : GuardrailService * option PIIVault * list GuardrailEvent * (check_error + CheckResponse) :=
  let cfg := gvSettings s in
  let oversize := (maxCheckContent <? RuneCount (cqContent req))%nat in
  let reject :=
    oversize && (String.eqb (gsOversizeAction cfg) "reject" || gsStrictCoverage cfg
                 || (String.eqb streamMode "strict" && String.eqb (cqDirection req) "response")) in
  if reject then
    (s, vault, [mkGuardEvent 0 "" "guardrail_service" "blocked"
                  (bytes_of "content exceeds guardrail inspection limit (500000 runes); oversize policy=reject") 0 []],
     inr oversize_response)
  else
    let content := if oversize then rune_prefix maxCheckContent (cqContent req) else cqContent req in
    let events :=
      if oversize then [mkGuardEvent 0 "guardrail_partial_coverage" "guardrail_service" "log"
                          (bytes_of "partial coverage: only the content prefix was inspected") 0 []]
      else [] in
    if match mc with Some mc => negb (mgEnabled mc) | None => false end then (s, vault, events, inr (plain_pass false))
    else
      match check_rules s ctx 0 req content (selected_rules (gvRules s) mc req) (mkCheckAcc [] "" "" [] [] events) with
      | (s, Fail e acc) => (s, vault, kaEvents acc, inl e)
      | (s, Block resp acc) => (s, vault, kaEvents acc, inr resp)
      | (s, Continue acc) =>
          let '(vault, resp) := check_answer req content oversize vault acc in (s, vault, kaEvents acc, inr resp)
      end.

Definition Check (s : GuardrailService) (now : Z) (refreshed : guard_settings) (rows : option (list GuardrailRule))
    (mc : option ModelGuardrailConfig) (streamMode : string) (ctx : nat -> bool * bool) (vault : option PIIVault) (req : CheckRequest)
    : GuardrailService * option PIIVault * list GuardrailEvent * (check_error + CheckResponse) :=
  let '(s, ok) := ensureRules s now refreshed rows in
  if ok then check_loaded s mc streamMode ctx vault req
  else (s, vault, [], if gsFailOpen (gvSettings s) then inr (plain_pass false) else inl ServiceUnavailable).
End Service.

(** ** The loop over the rules *)

Section Loop.
Context {E : Type} (createEngine : string -> string -> option E).
Context (engineCheck : E -> bytes -> string -> string -> option (option GuardrailResult)).
Context (req : CheckRequest) (content : bytes).

Notation service := (GuardrailService (E := E)).
Notation run_rule := (check_rule createEngine engineCheck).
Notation run_rules := (check_rules createEngine engineCheck).

(** What a check leaves of the service: its rules and settings, and every engine it had. *)
Record service_grows (s s' : service) : Prop := mkServiceGrows {
  sg_rules : gvRules s' = gvRules s; sg_settings : gvSettings s' = gvSettings s; sg_engines : gvEngines s ⊆ gvEngines s'
}.

Record acc_grows (a a' : check_acc) : Prop := mkAccGrows {
  ag_spans : kaSpans a ⊆ kaSpans a'; ag_matched : kaMatched a ⊆ kaMatched a'
}.

Lemma service_grows_refl s : service_grows s s.
Proof. by split. Qed.

Lemma service_grows_trans a b c : service_grows a b -> service_grows b c -> service_grows a c.
Proof. intros [] []. split; [congruence..|]. by etrans. Qed.

Lemma getEngine_grows s r : service_grows s (getEngine createEngine s r).1.
Proof.
  unfold getEngine. destruct (gvEngines s !! rID r) eqn:He; [apply service_grows_refl|].
  destruct (createEngine _ _); [|apply service_grows_refl]. split; [done..|]. by apply insert_subseteq.
Qed.

Lemma getEngine_cached s r eng : (getEngine createEngine s r).2 = Some eng -> gvEngines (getEngine createEngine s r).1 !! rID r = Some eng.
Proof.
  unfold getEngine. destruct (gvEngines s !! rID r) eqn:He; [by intros [= <-]|].
  destruct (createEngine _ _); [|done]. intros [= <-]. cbn [fst gvEngines]. by rewrite lookup_insert_eq.
Qed.

(** The engine of [r] worked and answered [result]. *)
Definition worked (s : service) (ctx : bool * bool) (r : GuardrailRule) (result : option GuardrailResult) : Prop :=
  ctx = (false, false) /\
  exists eng, gvEngines s !! rID r = Some eng /\ engineCheck eng content (cqDirection req) (cqModel req) = Some result.

Lemma worked_grows s s' ctx r result : service_grows s s' -> worked s ctx r result -> worked s' ctx r result.
Proof. intros [_ _ Hsub] (Hc & eng & He & Hr). split; [done|]. exists eng. split; [by eapply lookup_weaken|done]. Qed.

(** A rule that let the check go on: an engine of high severity worked, and a match is recorded
    and only logged or masked. *)
Record passed (s : service) (ctx : bool * bool) (r : GuardrailRule) (acc : check_acc) : Prop := mkPassed {
  pa_high : gsFailOpen (gvSettings s) = false -> severityOrder "high" <= severityOrder (rSeverity r) -> exists result, worked s ctx r result;
  pa_match : forall res, worked s ctx r (Some res) -> Blocked res = true ->
    let action := matched_action (gsLogOnly (gvSettings s)) r in
    mkMatched (rID r) (rVersion r) action ∈ kaMatched acc /\ (action = "log" \/ action = "mask" /\ MaskedSpans res ⊆ kaSpans acc)
}.

Lemma judge_continue lo r result acc acc' :
  judge lo r result acc = Continue acc' ->
  acc_grows acc acc' /\
  forall res, result = Some res -> Blocked res = true ->
    mkMatched (rID r) (rVersion r) (matched_action lo r) ∈ kaMatched acc'
    /\ (matched_action lo r = "log" \/ matched_action lo r = "mask" /\ MaskedSpans res ⊆ kaSpans acc').
Proof.
  unfold judge. destruct result as [res|]; [|intros [= <-]; by split; [split|]].
  destruct (Blocked res) eqn:Hb.
  2: { intros [= <-]. split; [destruct (String.eqb _ _); by split|]. intros res' [= <-]. by rewrite Hb. }
  destruct (String.eqb_spec (matched_action lo r) "log") as [Hl|Hl].
  { intros [= <-]. split; [split; cbn; set_solver|]. intros res' [= <-] _. cbn. split; [set_solver|by left]. }
  destruct (String.eqb_spec (matched_action lo r) "mask") as [Hm|Hm]; [|done].
  destruct (MaskedSpans res) as [|sp spans] eqn:Hs.
  - intros H. assert (Ha : acc_grows acc acc' /\ mkMatched (rID r) (rVersion r) (matched_action lo r) ∈ kaMatched acc').
    { destruct (bool_decide _); inversion H; (split; [split|]; cbn; set_solver). }
    destruct Ha as [Ha Hin]. split; [done|]. intros res' [= <-] _. split; [done|]. right. rewrite Hs. set_solver.
  - intros [= <-]. split; [split; cbn; set_solver|]. intros res' [= <-] _. cbn [kaMatched kaSpans]. rewrite Hs. split; [set_solver|]. right. set_solver.
Qed.

Lemma failed_continue cfg r reason acc acc' :
  failed cfg r reason acc = Continue acc' ->
  acc_grows acc acc' /\ (gsFailOpen cfg = false -> severityOrder (rSeverity r) < severityOrder "high").
Proof.
  unfold failed, engine_failure. intros H. destruct (gsFailOpen cfg); cbn [negb] in H; rewrite ?andb_false_r, ?andb_true_r in H.
  - inversion H. by split; [split|].
  - destruct (String.eqb _ _); [done|]. destruct (Z.leb_spec (severityOrder "high") (severityOrder (rSeverity r))); [done|].
    inversion H. by split; [split|].
Qed.

Lemma check_rule_continue s b a r acc s' acc' :
  run_rule s b a req content r acc = (s', Continue acc') -> service_grows s s' /\ acc_grows acc acc' /\ passed s' (b, a) r acc'.
Proof.
  unfold check_rule. destruct b; [done|]. pose proof (getEngine_grows s r) as Hg. pose proof (getEngine_cached s r) as Hc.
  destruct (getEngine createEngine s r) as [s1 [eng|]] eqn:Heng; cbn [fst snd] in *.
  - specialize (Hc eng eq_refl).
    destruct (if a then None else engineCheck eng content (cqDirection req) (cqModel req)) as [result|] eqn:Hres.
    + intros [= -> Hj]. destruct a; [done|]. destruct (judge_continue _ _ _ _ _ Hj) as [Ha Hm]. split; [done|]. split; [done|].
      assert (Hw : worked s' (false, false) r result) by (split; [done|by exists eng]).
      split; [by eauto|]. intros res (_ & eng' & He' & Hr') Hb. rewrite Hc in He'. inversion He'; subst eng'.
      rewrite Hres in Hr'. inversion Hr'; subst. by apply Hm.
    + intros [= -> Hf]. destruct (failed_continue _ _ _ _ _ Hf) as [Ha Hlow]. split; [done|]. split; [done|]. split.
      * intros Hfo Hhigh. specialize (Hlow Hfo). lia.
      * intros res ([= ->] & eng' & He' & Hr'). rewrite Hc in He'. inversion He'; subst. by rewrite Hres in Hr'.
  - intros [= -> Hf]. destruct (failed_continue _ _ _ _ _ Hf) as [Ha Hlow]. split; [done|]. split; [done|]. split.
    + intros Hfo Hhigh. specialize (Hlow Hfo). lia.
    + intros res (_ & eng' & He' & Hr'). exfalso. unfold getEngine in Heng. destruct (gvEngines s !! rID r) eqn:Hs; [by inversion Heng|].
      destruct (createEngine _ _); inversion Heng; subst. congruence.
Qed.

Lemma check_rule_other s b a r acc id :
  id <> rID r -> gvEngines (run_rule s b a req content r acc).1 !! id = gvEngines s !! id.
Proof.
  intros Hid. unfold check_rule. destruct b; [done|]. unfold getEngine.
  destruct (gvEngines s !! rID r); [by destruct (if a then None else _)|].
  destruct (createEngine _ _); [|done]. destruct (if a then None else _); cbn [fst gvEngines]; by rewrite lookup_insert_ne.
Qed.

Lemma check_rules_other s ctx i rules acc id :
  id ∉ map rID rules -> gvEngines (run_rules s ctx i req content rules acc).1 !! id = gvEngines s !! id.
Proof.
  revert s i acc. induction rules as [|r rules IH]; intros s i acc Hid; cbn [check_rules]; [done|].
  cbn [map] in Hid. apply not_elem_of_cons in Hid as [Hne Hid]. pose proof (check_rule_other s (ctx i).1 (ctx i).2 r acc id Hne) as Ho.
  destruct (run_rule s _ _ req content r acc) as [s1 [acc1|e acc1|resp acc1]]; cbn [fst] in *; [|done|done].
  by rewrite IH.
Qed.

Lemma acc_grows_trans a b c : acc_grows a b -> acc_grows b c -> acc_grows a c.
Proof. intros [] []. split; by etrans. Qed.

Lemma passed_later s s' ctx r acc acc' :
  gvSettings s' = gvSettings s -> gvEngines s' !! rID r = gvEngines s !! rID r -> acc_grows acc acc' ->
  passed s ctx r acc -> passed s' ctx r acc'.
Proof.
  intros Hset Heng [Hsp Hma] [Hh Hm].
  assert (Hw : forall result, worked s' ctx r result <-> worked s ctx r result) by (intros; unfold worked; by rewrite Heng).
  split; rewrite Hset.
  - intros Hf Hs. destruct (Hh Hf Hs) as [result Hr]. exists result. by apply Hw.
  - intros res Hr%Hw Hb. destruct (Hm res Hr Hb) as [Hin [?|[? ?]]]; (split; [set_solver|]); [by left|right; split; [done|set_solver]].
Qed.

Lemma check_rules_continue s ctx i rules acc s' acc' :
  run_rules s ctx i req content rules acc = (s', Continue acc') -> NoDup (map rID rules) ->
  service_grows s s' /\ acc_grows acc acc' /\ forall j r, rules !! j = Some r -> passed s' (ctx (i + j)%nat) r acc'.
Proof.
  revert s i acc. induction rules as [|r rules IH]; intros s i acc H Hnd; cbn [check_rules] in H.
  { inversion H; subst. split; [apply service_grows_refl|]. split; [by split|]. intros j r. by rewrite lookup_nil. }
  destruct (run_rule s (ctx i).1 (ctx i).2 req content r acc) as [s1 [acc1|e acc1|resp acc1]] eqn:H1; [|done|done].
  cbn [map] in Hnd. apply NoDup_cons in Hnd as [Hni Hnd].
  destruct (check_rule_continue _ _ _ _ _ _ _ H1) as (Hg1 & Ha1 & Hp1). destruct (IH _ _ _ H Hnd) as (Hg2 & Ha2 & Hp2).
  pose proof (check_rules_other s1 ctx (S i) rules acc1 (rID r) Hni) as Ho. rewrite H in Ho. cbn [fst] in Ho.
  split; [by eapply service_grows_trans|]. split; [by eapply acc_grows_trans|]. intros j r' Hj. destruct j as [|j]; cbn in Hj.
  - inversion Hj; subst. rewrite Nat.add_0_r. replace (ctx i) with ((ctx i).1, (ctx i).2) by (by destruct (ctx i)).
    eapply passed_later; [apply Hg2|exact Ho|exact Ha2|exact Hp1].
  - replace (i + S j)%nat with (S i + j)%nat by lia. by apply Hp2.
Qed.
End Loop.

(** ** Properties of the check *)

Lemma filter_sublist {A} (f : A -> bool) l : List.filter f l `sublist_of` l.
Proof. induction l as [|x l IH]; cbn [List.filter]; [constructor|]. case_match; by constructor. Qed.

Lemma selected_nodup rules mc req : NoDup (map rID rules) -> NoDup (map rID (selected_rules rules mc req)).
Proof.
  intros Hnd. unfold selected_rules. rewrite stable_sort_perm.
  assert (Hsub : forall f (l : list GuardrailRule), NoDup (map rID l) -> NoDup (map rID (List.filter f l))).
  { intros f l Hl. eapply sublist_NoDup; [exact Hl|]. apply (fmap_sublist rID), filter_sublist. }
  destruct mc as [mc|]; [|auto]. case_bool_decide; auto.
Qed.

Lemma maskSpans_bounds content v spans :
  Forall2 (fun a b => Start a = Start b /\ Stop a = Stop b) spans (maskSpans content v spans).2.
Proof.
  revert v. induction spans as [|sp spans IH]; intros v; cbn [maskSpans]; [constructor|].
  destruct (mask_span content v sp) as [v1 sp1] eqn:H1. specialize (IH v1).
  destruct (maskSpans content v1 spans) as [v2 spans2]. cbn [snd] in *. constructor; [|done].
  unfold mask_span in H1. repeat case_match; by simplify_eq.
Qed.

(** The content that is inspected. *)
Definition inspected (req : CheckRequest) : bytes :=
  if (maxCheckContent <? RuneCount (cqContent req))%nat then rune_prefix maxCheckContent (cqContent req) else cqContent req.

Lemma inspected_prefix req : ValidString (cqContent req) = true -> inspected req `prefix_of` cqContent req.
Proof.
  intros Hv. unfold inspected. case_match; [|done]. unfold rune_prefix.
  apply valid_well_formed in Hv. generalize maxCheckContent as n. intros n.
  assert (Hid : map encode_rune (take n (split_runes (cqContent req))) = take n (split_runes (cqContent req))).
  { rewrite <- (map_id (take n _)) at 2. apply map_ext_in. intros r Hr. unfold encode_rune.
    rewrite List.Forall_forall in Hv. rewrite Hv; [done|]. apply list_elem_of_In, elem_of_take in Hr as (i & Hi & _). apply list_elem_of_In. by eapply list_elem_of_lookup_2. }
  rewrite Hid. rewrite <- (runes_concat (cqContent req)) at 2. rewrite <- (take_drop n (split_runes (cqContent req))) at 2.
  rewrite concat_app. by apply prefix_app_r.
Qed.

Lemma answer_covers req content truncated vault acc sp :
  sp ∈ kaSpans acc -> span_ok sp = true ->
  let resp := (check_answer req content truncated vault acc).2 in
  crAction resp = "mask" /\ exists c, c ∈ crMaskedSpans resp /\ covers c sp.
Proof.
  intros Hsp Hok. unfold check_answer. rewrite bool_decide_false by (intros He; rewrite He in Hsp; by apply not_elem_of_nil in Hsp).
  destruct (compose_covers (kaSpans acc) sp Hsp Hok) as (c & Hc & Hcov).
  assert (Hplain : exists c, c ∈ composeSpans (kaSpans acc) /\ covers c sp) by eauto.
  destruct vault as [v|]; [|by split]. destruct (String.eqb _ _); [|by split].
  pose proof (maskSpans_bounds content v (composeSpans (kaSpans acc))) as Hb.
  destruct (maskSpans content v _) as [v' c']. cbn [snd] in *. split; [done|].
  apply list_elem_of_lookup in Hc as [n Hn]. destruct (Forall2_lookup_l _ _ _ _ _ Hb Hn) as (d & Hd & Hs & He).
  exists d. split; [by eapply list_elem_of_lookup_2|]. unfold covers in *. lia.
Qed.

Lemma answer_passes req content truncated vault acc :
  crBlocked (check_answer req content truncated vault acc).2 = false /\ crTruncated (check_answer req content truncated vault acc).2 = truncated.
Proof. unfold check_answer. repeat (case_match; cbn; simplify_eq; try done). Qed.

(** A rule that stops the check blocks. *)
Lemma check_rules_block {E} createEngine engineCheck req content (s : GuardrailService (E := E)) ctx i rules acc s' resp acc' :
  check_rules createEngine engineCheck s ctx i req content rules acc = (s', Block resp acc') -> crBlocked resp = true.
Proof.
  revert s i acc. induction rules as [|g rules IH]; intros s i acc; cbn [check_rules]; [done|].
  destruct (check_rule _ _ s _ _ req _ g acc) as [s2 [a|?|p a]] eqn:Hr; [by apply IH|done|].
  intros [= -> -> ->]. unfold check_rule in Hr. repeat (case_match; simplify_eq; try done);
    unfold failed, judge in *; repeat (case_match; simplify_eq; try done).
Qed.

(** C22: Nothing passes unexamined: when a check answers without blocking, every applicable rule of high
    or critical severity was evaluated by a working engine (unless the service is set to fail
    open), no match of a blocking rule was ignored, every span that a masking rule reported lies
    inside a mask of the answer, and an answer on a prefix of the content says so. *)
Theorem unblocked_content_was_examined {E} createEngine engineCheck (s : GuardrailService (E := E)) mc mode ctx vault req s' vault' events resp :
  NoDup (map rID (gvRules s)) ->
  check_loaded createEngine engineCheck s mc mode ctx vault req = (s', vault', events, inr resp) ->
  crBlocked resp = false -> match mc with Some c => mgEnabled c = true | None => True end ->
  crTruncated resp = (maxCheckContent <? RuneCount (cqContent req))%nat /\
  forall i r, selected_rules (gvRules s) mc req !! i = Some r ->
    (gsFailOpen (gvSettings s) = false -> severityOrder "high" <= severityOrder (rSeverity r) ->
       exists result, worked engineCheck req (inspected req) s' (ctx i) r result)
    /\ forall res, worked engineCheck req (inspected req) s' (ctx i) r (Some res) -> Blocked res = true ->
       let action := matched_action (gsLogOnly (gvSettings s)) r in
       (action = "log" \/ action = "mask")
       /\ (action = "mask" -> forall sp, sp ∈ MaskedSpans res -> span_ok sp = true ->
           crAction resp = "mask" /\ exists c, c ∈ crMaskedSpans resp /\ covers c sp).
Proof.
  intros Hnd Hcheck Hnb Hmc. unfold check_loaded in Hcheck. fold (inspected req) in Hcheck.
  destruct ((maxCheckContent <? _)%nat && _); [inversion Hcheck; subst; done|].
  assert (Hen : match mc with Some mc => negb (mgEnabled mc) | None => false end = false) by (destruct mc; [by rewrite Hmc|done]).
  rewrite Hen in Hcheck.
  destruct (check_rules _ _ _ _ _ _ _ _ _) as [s1 [acc|e acc|r acc]] eqn:Hloop.
  2: { inversion Hcheck. }
  2: { inversion Hcheck; subst. by rewrite (check_rules_block _ _ _ _ _ _ _ _ _ _ _ _ Hloop) in Hnb. }
  destruct (check_rules_continue _ _ _ _ _ _ _ _ _ _ _ Hloop (selected_nodup _ _ _ Hnd)) as ([_ Hset _] & _ & Hp).
  pose proof (answer_passes req (inspected req) (maxCheckContent <? RuneCount (cqContent req))%nat vault acc) as [_ Htr].
  pose proof (answer_covers req (inspected req) (maxCheckContent <? RuneCount (cqContent req))%nat vault acc) as Hcov.
  destruct (check_answer _ _ _ _ _) as [vault1 resp1]. cbn [snd] in *. inversion Hcheck; subst. split; [done|].
  intros i r Hi. destruct (Hp i r Hi) as [Hhigh Hmatch]. rewrite Hset in Hhigh, Hmatch. split; [done|].
  intros res Hw Hb. destruct (Hmatch res Hw Hb) as [_ [Hl|[Hm Hsub]]].
  - split; [by left|]. rewrite Hl. done.
  - split; [by right|]. intros _ sp Hsp Hok. apply Hcov; [set_solver|done].
Qed.

(** ** The engine cache *)

Section Cache.
Context {E : Type} (createEngine : string -> string -> option E).
Notation service := (GuardrailService (E := E)).

(** Every cached engine was built from the type and configuration of the rule it is cached for. *)
Definition coherent (s : service) : Prop :=
  forall id eng r, gvEngines s !! id = Some eng -> find_rule id (gvRules s) = Some r -> createEngine (rType r) (rConfig r) = Some eng.

(** No engine is cached for a rule that is not loaded. *)
Definition no_orphans (s : service) : Prop := forall id, is_Some (gvEngines s !! id) -> is_Some (find_rule id (gvRules s)).

(** A rule keeps its type unless its configuration changes too. *)
Definition types_stable (old rows : list GuardrailRule) : Prop :=
  forall id a b, find_rule id old = Some a -> find_rule id rows = Some b -> rConfig a = rConfig b -> rType a = rType b.

Lemma find_rule_in id rules r : find_rule id rules = Some r -> r ∈ rules /\ rID r = id.
Proof.
  unfold find_rule. intros [Hin Hid%Z.eqb_eq]%find_some. split; [|done]. apply list_elem_of_In. by apply in_rev.
Qed.

Lemma find_rule_some id rules : is_Some (find_rule id rules) <-> existsb (fun r => rID r =? id) rules = true.
Proof.
  unfold find_rule. split.
  - intros [r [Hin Hid]%find_some]. apply existsb_exists. exists r. split; [by apply in_rev|done].
  - intros (r & Hin & Hid)%existsb_exists. destruct (List.find _ (rev rules)) eqn:Hf; [eauto|].
    exfalso. apply in_rev in Hin. pose proof (find_none _ _ Hf r Hin) as Hn. cbn in Hn. by rewrite Hid in Hn.
Qed.

(** What reloading keeps of the cache: the engines of rules whose configuration is unchanged. *)
Lemma load_engines (s : service) now rows id eng :
  gvEngines (LoadRules s now rows) !! id = Some eng ->
  gvEngines s !! id = Some eng /\ existsb (fun r => rID r =? id) rows = true
  /\ forall r old, r ∈ rows -> rID r = id -> find_rule id (gvRules s) = Some old -> rConfig old = rConfig r.
Proof.
  unfold LoadRules. cbn [gvEngines]. set (kept := filter _ (gvEngines s)).
  set (step := fun engines r => _).
  assert (H : forall rows' engines, fold_left step rows' engines !! id = Some eng ->
    engines !! id = Some eng /\ forall r old, r ∈ rows' -> rID r = id -> find_rule id (gvRules s) = Some old -> rConfig old = rConfig r).
  { induction rows' as [|r rows' IH]; intros engines Hl; cbn [fold_left] in Hl; [split; [done|]; by intros ? ? ?%not_elem_of_nil|].
    destruct (IH _ Hl) as [Hs Hr]. unfold step in Hs. split.
    - destruct (find_rule (rID r) (gvRules s)); [|done]. destruct (String.eqb _ _); [done|]. by apply lookup_delete_Some in Hs as [_ ?].
    - intros r' old [->|Hin]%elem_of_cons Hid Hf; [|by eapply Hr]. rewrite Hid, Hf in Hs.
      destruct (String.eqb_spec (rConfig old) (rConfig r)); [done|]. by rewrite lookup_delete_eq in Hs. }
  intros [Hk Hr]%H. apply map_lookup_filter_Some in Hk as [Hk Ha]. done.
Qed.

Lemma coherent_load s now rows :
  coherent s -> no_orphans s -> types_stable (gvRules s) rows -> coherent (LoadRules s now rows) /\ no_orphans (LoadRules s now rows).
Proof.
  intros Hc Ho Ht. split.
  - intros id eng r Heng Hr. destruct (load_engines _ _ _ _ _ Heng) as (Hold & _ & Hcfg). cbn [gvRules LoadRules] in Hr.
    destruct (Ho id) as [old Hf]; [eauto|]. destruct (find_rule_in _ _ _ Hr) as [Hin Hid].
    pose proof (Hcfg r old Hin Hid Hf) as Heq. rewrite <- (Ht id old r Hf Hr Heq), <- Heq. by eapply Hc.
  - intros id [eng Heng]. destruct (load_engines _ _ _ _ _ Heng) as (_ & Hact & _). by apply find_rule_some.
Qed.

Lemma coherent_get s r :
  coherent s -> no_orphans s -> find_rule (rID r) (gvRules s) = Some r ->
  coherent (getEngine createEngine s r).1 /\ no_orphans (getEngine createEngine s r).1.
Proof.
  intros Hc Ho Hr. unfold getEngine. destruct (gvEngines s !! rID r) eqn:He; [done|].
  destruct (createEngine (rType r) (rConfig r)) as [eng|] eqn:Hcr; [|done]. cbn [fst]. split; intros id; cbn [gvEngines gvRules].
  - intros eng' r' [[<- <-]|[_ Hl]]%lookup_insert_Some Hf; [congruence|]. by eapply Hc.
  - rewrite lookup_insert_is_Some. intros [<-|[_ Hs]]; [by rewrite Hr|by apply Ho].
Qed.

(** The cache as reloads and checks use it: a check asks for the engine of a rule as it is loaded. *)
Inductive cache_step : service -> service -> Prop :=
| step_load s now rows : types_stable (gvRules s) rows -> cache_step s (LoadRules s now rows)
| step_get s r : find_rule (rID r) (gvRules s) = Some r -> cache_step s (getEngine createEngine s r).1
| step_invalidate s : cache_step s (InvalidateCache s).

Lemma reachable_coherent s s' : rtc cache_step s s' -> coherent s -> no_orphans s -> coherent s' /\ no_orphans s'.
Proof.
  induction 1 as [|s s1 s2 Hstep _ IH]; intros Hc Ho; [done|]. destruct Hstep as [s now rows Ht|s r Hr|s].
  - destruct (coherent_load s now rows Hc Ho Ht). auto.
  - destruct (coherent_get s r Hc Ho Hr). auto.
  - by apply IH.
Qed.
End Cache.

(** The engine of a rule is the engine of its current type and configuration, however reloads and
    checks interleave, as long as checks ask with a rule as it is loaded and no reload changes the
    type of a rule without its configuration. *)
Theorem engine_is_current {E} createEngine (s : GuardrailService (E := E)) ttl cfg r :
  rtc (cache_step createEngine) (mkService [] None ttl ∅ cfg) s ->
  find_rule (rID r) (gvRules s) = Some r ->
  (getEngine createEngine s r).2 = createEngine (rType r) (rConfig r).
Proof.
  intros Hs Hr. destruct (reachable_coherent createEngine _ _ Hs) as [Hc _].
  - intros id eng r'. cbn [gvEngines]. by rewrite lookup_empty.
  - intros id. cbn [gvEngines]. rewrite lookup_empty. by intros [? ?].
  - unfold getEngine. destruct (gvEngines s !! rID r) as [eng|] eqn:He; [cbn; symmetry; by eapply Hc|].
    by destruct (createEngine _ _).
Qed.

(** A reload that changes only the type of a rule keeps the engine of the old type: [LoadRules]
    compares configurations alone, so every later check of the rule runs the old engine. *)
Theorem type_change_keeps_old_engine {E} createEngine (s : GuardrailService (E := E)) now rows r old eng :
  gvEngines s !! rID r = Some eng -> find_rule (rID r) (gvRules s) = Some old ->
  r ∈ rows -> NoDup (map rID rows) -> rConfig old = rConfig r ->
  (getEngine createEngine (LoadRules s now rows) r).2 = Some eng.
Proof.
  intros He Hold Hin Hnd Hcfg. unfold getEngine.
  assert (gvEngines (LoadRules s now rows) !! rID r = Some eng) as ->; [|done]. unfold LoadRules. cbn [gvEngines].
  set (kept := filter _ (gvEngines s)).
  assert (Hk : kept !! rID r = Some eng).
  { apply map_lookup_filter_Some. split; [done|]. apply existsb_exists. exists r. split; [by apply list_elem_of_In|by apply Z.eqb_refl]. }
  assert (Hsame : forall r', r' ∈ rows -> rID r' = rID r -> r' = r).
  { clear -Hin Hnd. intros r' Hin' Heq. apply list_elem_of_lookup in Hin as [i Hi], Hin' as [j Hj].
    assert (j = i) as ->; [|congruence]. eapply (NoDup_lookup (map rID rows)); [done|..]; rewrite list_lookup_fmap, ?Hi, ?Hj; cbn; [done|congruence]. }
  generalize dependent kept. clear Hin Hnd. revert Hsame. induction rows as [|x rows IH]; intros Hsame kept Hk; cbn [fold_left]; [done|].
  apply IH; [intros r' Hr'; apply Hsame; by right|].
  destruct (find_rule (rID x) (gvRules s)) as [o|] eqn:Hf; [|done]. destruct (String.eqb_spec (rConfig o) (rConfig x)) as [|Hne]; [done|].
  destruct (decide (rID x = rID r)) as [Heq|Hneq]; [|by rewrite lookup_delete_ne].
  exfalso. assert (x = r) as -> by (apply Hsame; [left|done]). congruence.
Qed.

(** A check that copied its rules before a reload can put back the engine of the old configuration:
    the reload drops the engine, the check builds and caches it from its copy, and every later
    check of the new rule runs the old engine. *)
Theorem stale_copy_revives_old_engine {E} createEngine (s : GuardrailService (E := E)) now rows (copy r : GuardrailRule) eng :
  rID copy = rID r -> gvEngines (LoadRules s now rows) !! rID r = None ->
  createEngine (rType copy) (rConfig copy) = Some eng ->
  let s1 := (getEngine createEngine (LoadRules s now rows) copy).1 in
  (getEngine createEngine s1 r).2 = Some eng.
Proof.
  intros Hid Hnone Hcr. cbv zeta. unfold getEngine at 2. rewrite Hid, Hnone, Hcr. cbn [fst].
  unfold getEngine. cbn [gvEngines]. by rewrite lookup_insert_eq.
Qed.

(** ** Examples *)

Definition demo_rule (id : Z) (type config severity action : string) : GuardrailRule :=
  mkGuardRule id None "rule" type "both" true config severity action None 1.

Definition demo_settings : guard_settings := mkSettings false false "truncate" "skip" false.

(** Engines that are their type and configuration. *)
Definition demo_create (type config : string) : option (string * string) := if String.eqb type "broken" then None else Some (type, config).

Lemma engine_is_current_witness :
  let r := demo_rule 7 "keyword_filter" "b" "low" "block" in
  let s := LoadRules (mkService [] None 30 ∅ demo_settings) 0 [r] in
  (getEngine demo_create (getEngine demo_create s r).1 r).2 = Some ("keyword_filter", "b").
Proof.
  cbv zeta. set (r := demo_rule 7 "keyword_filter" "b" "low" "block"). set (s := LoadRules (mkService [] None 30 ∅ demo_settings) 0 [r]).
  rewrite (engine_is_current demo_create (getEngine demo_create s r).1 30 demo_settings r).
  - reflexivity.
  - apply (rtc_l _ _ s); [apply step_load; intros id a b H; discriminate H|].
    apply (rtc_l _ _ (getEngine demo_create s r).1); [apply step_get; reflexivity|apply rtc_refl].
  - reflexivity.
Defined.

Lemma type_change_keeps_old_engine_witness :
  let old := demo_rule 7 "keyword_filter" "b" "low" "block" in
  let r := demo_rule 7 "content_length" "b" "low" "block" in
  let s := mkService [old] (Some 0) 30 {[ 7 := ("keyword_filter", "b") ]} demo_settings in
  (getEngine demo_create (LoadRules s 40 [r]) r).2 = Some ("keyword_filter", "b").
Proof.
  cbv zeta. apply (type_change_keeps_old_engine demo_create) with (old := demo_rule 7 "keyword_filter" "b" "low" "block").
  - reflexivity.
  - reflexivity.
  - left.
  - apply NoDup_singleton.
  - reflexivity.
Defined.

Lemma stale_copy_revives_old_engine_witness :
  let copy := demo_rule 7 "keyword_filter" "old" "low" "block" in
  let r := demo_rule 7 "keyword_filter" "new" "low" "block" in
  let s := mkService [copy] (Some 0) 30 ∅ demo_settings in
  (getEngine demo_create (getEngine demo_create (LoadRules s 40 [r]) copy).1 r).2 = Some ("keyword_filter", "old").
Proof. cbv zeta. apply stale_copy_revives_old_engine; reflexivity. Defined.

Definition demo_engine_check (eng : string * string) (content : bytes) (direction model : string) : option (option GuardrailResult) :=
  Some (Some (mkResult true "rule" (bytes_of "hit") "low" [mkSpan 0 3 redacted false] [] "")).

(** A critical rule and a masking one. *)
Lemma unblocked_content_was_examined_witness :
  let rules := [demo_rule 1 "keyword_filter" "a" "low" "mask"; demo_rule 2 "keyword_filter" "b" "critical" "log"] in
  let s := mkService rules (Some 0) 30 ∅ demo_settings in
  let req := mkCheckRequest (bytes_of "secret") "request" "m" 1 1 1 in
  exists s' events resp,
    check_loaded demo_create demo_engine_check s None "window" (fun _ => (false, false)) None req = (s', None, events, inr resp)
    /\ crMaskedContent resp = bytes_of "[REDACTED]ret"
    /\ exists result, worked demo_engine_check req (inspected req) s' (false, false) (demo_rule 2 "keyword_filter" "b" "critical" "log") result.
Proof.
  cbv zeta. set (rules := [demo_rule 1 "keyword_filter" "a" "low" "mask"; demo_rule 2 "keyword_filter" "b" "critical" "log"]).
  set (s := mkService rules (Some 0) 30 ∅ demo_settings). set (req := mkCheckRequest (bytes_of "secret") "request" "m" 1 1 1).
  destruct (check_loaded demo_create demo_engine_check s None "window" (fun _ => (false, false)) None req) as [[[s' v'] events] [e|resp]] eqn:Hc.
  { vm_compute in Hc. discriminate Hc. }
  assert (Hf : v' = None /\ crBlocked resp = false /\ crMaskedContent resp = bytes_of "[REDACTED]ret").
  { vm_compute in Hc. inversion Hc. repeat split; reflexivity. }
  destruct Hf as (-> & Hb & Hm). exists s', events, resp. split; [reflexivity|]. split; [exact Hm|].
  destruct (unblocked_content_was_examined demo_create demo_engine_check s None "window" (fun _ => (false, false)) None req s' None events resp) as [_ H].
  - repeat constructor; vm_compute; intros Hin; inversion Hin as [|? ? ? Hin']; inversion Hin'.
  - exact Hc.
  - exact Hb.
  - exact I.
  - destruct (H 0%nat (demo_rule 2 "keyword_filter" "b" "critical" "log")) as [Hh _]; [reflexivity|].
    apply Hh; [reflexivity|vm_compute; discriminate].
Defined.
