(* ===== verification/EngineLease.v ===== *)
(** * Leased stream engines: [internal/guardrail/stream_engine_cache.go]

    Streams lease the engine of a rule version and give it back when they close;
    a reload retires engines whose rule version is gone.  The entries live on a
    heap ([lcHeap]), as the release closure of a lease keeps its pointer; every
    operation runs under one lock and is one step.  [lcLeases] is a ghost: the
    leases handed out and not given back. *)

From S2P Require Import Prelude Utf8 Spans Keyword ResponseStream.

Notation streamEngineKey := (Z * Z * string * string)%type.

Definition streamKey (r : GuardrailRule) : streamEngineKey := (rID r, rVersion r, rType r, rConfig r).

Section Lease.
Context {E : Type} (createEngine : string -> string -> option E).

Record streamEngineEntry := mkEntry { enKey : streamEngineKey; enEngine : E; enUsers : Z; enRetired : bool; enClosed : bool }.

Record lease_cache := mkLeaseCache {
  lcIndex : gmap streamEngineKey nat; lcHeap : gmap nat streamEngineEntry; lcNext : nat; lcLeases : list nat
}.

Definition lease_empty : lease_cache := mkLeaseCache ∅ ∅ 0 [].

Definition set_users (e : streamEngineEntry) (n : Z) : streamEngineEntry := mkEntry (enKey e) (enEngine e) n (enRetired e) (enClosed e).

(** [leaseStreamEngine]: the pointer of the entry, or the error of the factory. *)
Definition leaseStreamEngine (c : lease_cache) (r : GuardrailRule) : lease_cache * option nat :=
  let key := streamKey r in
  match lcIndex c !! key with
  | Some p =>
      (mkLeaseCache (lcIndex c) (alter (fun e => set_users e (enUsers e + 1)) p (lcHeap c)) (lcNext c) (lcLeases c ++ [p]), Some p)
  | None =>
      match createEngine (rType r) (rConfig r) with
      | None => (c, None)
      | Some eng =>
          let p := lcNext c in
          (mkLeaseCache (<[key := p]> (lcIndex c)) (<[p := mkEntry key eng 1 false false]> (lcHeap c)) (S p) (lcLeases c ++ [p]), Some p)
      end
  end.

(** [closeStreamEngine] *)
Definition closeStreamEngine (c : lease_cache) (p : nat) (e : streamEngineEntry) : lease_cache :=
  mkLeaseCache (delete (enKey e) (lcIndex c)) (<[p := mkEntry (enKey e) (enEngine e) (enUsers e) (enRetired e) true]> (lcHeap c))
    (lcNext c) (lcLeases c).

(** One occurrence of [p] less. *)
Fixpoint remove_one (p : nat) (l : list nat) : list nat :=
  match l with [] => [] | q :: l => if (p =? q)%nat then l else q :: remove_one p l end.

(** The release closure of a lease. *)
Definition release_lease (c : lease_cache) (p : nat) : lease_cache :=
  match lcHeap c !! p with
  | None => c
  | Some e =>
      let e := set_users e (enUsers e - 1) in
      let c := mkLeaseCache (lcIndex c) (<[p := e]> (lcHeap c)) (lcNext c) (remove_one p (lcLeases c)) in
      if (enUsers e =? 0) && enRetired e then closeStreamEngine c p e else c
  end.

(** The body of the loop of [pruneStreamEngines] for one entry of the map. *)
Definition prune_one (active : streamEngineKey -> bool) (c : lease_cache) (entry : streamEngineKey * nat) : lease_cache :=
  let '(key, p) := entry in
  if active key then c
  else
    match lcHeap c !! p with
    | None => c
    | Some e =>
        let e := mkEntry (enKey e) (enEngine e) (enUsers e) true (enClosed e) in
        let c := mkLeaseCache (lcIndex c) (<[p := e]> (lcHeap c)) (lcNext c) (lcLeases c) in
        if enUsers e =? 0 then closeStreamEngine c p e else c
    end.

Definition pruneStreamEngines (c : lease_cache) (rules : list GuardrailRule) : lease_cache :=
  let active key := bool_decide (key ∈ map streamKey rules) in
  fold_left (prune_one active) (map_to_list (lcIndex c)) c.

(** ** The invariant *)

Definition leases_of (c : lease_cache) (p : nat) : Z := Z.of_nat (count_occ Nat.eq_dec (lcLeases c) p).

Record lease_inv (c : lease_cache) : Prop := mkLeaseInv {
  li_index : forall k p, lcIndex c !! k = Some p -> exists e, lcHeap c !! p = Some e /\ enKey e = k /\ enClosed e = false;
  li_live : forall p e, lcHeap c !! p = Some e -> enClosed e = false -> lcIndex c !! enKey e = Some p;
  li_users : forall p e, lcHeap c !! p = Some e -> enUsers e = leases_of c p;
  li_closed : forall p e, lcHeap c !! p = Some e -> enClosed e = true -> enUsers e = 0;
  li_retired : forall p e, lcHeap c !! p = Some e -> enRetired e = true -> enUsers e = 0 -> enClosed e = true;
  li_next : forall p, is_Some (lcHeap c !! p) -> (p < lcNext c)%nat;
  li_leases : forall p, p ∈ lcLeases c -> is_Some (lcHeap c !! p)
}.

Lemma lease_inv_empty : lease_inv lease_empty.
Proof. split; cbn; intros *; rewrite ?lookup_empty; try done. by intros ?%not_elem_of_nil. Qed.

Lemma count_occ_snoc l p q : count_occ Nat.eq_dec (l ++ [p]) q = (count_occ Nat.eq_dec l q + (if decide (p = q) then 1 else 0))%nat.
Proof. rewrite count_occ_app. cbn. destruct (Nat.eq_dec p q), (decide (p = q)); lia. Qed.

Lemma count_remove p l q :
  p ∈ l -> count_occ Nat.eq_dec (remove_one p l) q = (count_occ Nat.eq_dec l q - (if decide (p = q) then 1 else 0))%nat.
Proof.
  induction l as [|x l IH]; [by intros ?%not_elem_of_nil|]. intros Hp. cbn [remove_one].
  destruct (Nat.eqb_spec p x) as [<-|Hne].
  - cbn [count_occ]. destruct (Nat.eq_dec p q), (decide (p = q)); lia.
  - apply elem_of_cons in Hp as [?|Hp]; [done|]. cbn [count_occ]. rewrite IH by done.
    assert (Hc : (0 < count_occ Nat.eq_dec l p)%nat) by (apply count_occ_In; by apply list_elem_of_In).
    destruct (Nat.eq_dec x q), (decide (p = q)); subst; try lia.
Qed.

Lemma remove_sub p l q : q ∈ remove_one p l -> q ∈ l.
Proof.
  induction l as [|x l IH]; cbn [remove_one]; [done|]. destruct (p =? x)%nat; [by right|].
  intros [->|Hq]%elem_of_cons; [left|right; auto].
Qed.

Lemma lease_inv_lease c r : lease_inv c -> lease_inv (leaseStreamEngine c r).1.
Proof.
  intros [Hi Hl Hu Hc Hr Hn Hls]. unfold leaseStreamEngine. destruct (lcIndex c !! streamKey r) as [p|] eqn:Hk; cbn [fst].
  - destruct (Hi _ _ Hk) as (e & He & Hke & Hce).
    assert (Hlook : forall q e', alter (fun e => set_users e (enUsers e + 1)) p (lcHeap c) !! q = Some e' ->
      (q = p /\ e' = set_users e (enUsers e + 1)) \/ (q <> p /\ lcHeap c !! q = Some e')).
    { intros q e'. destruct (decide (q = p)) as [->|Hne]; [rewrite lookup_alter_eq, He; intros [= <-]; by left|].
      rewrite lookup_alter_ne by done. by right. }
    split; cbn [fst lcIndex lcHeap lcNext lcLeases]; unfold leases_of in *; cbn [fst lcLeases].
    + intros k q Hq. destruct (Hi _ _ Hq) as (e' & He' & Hke' & Hce'). destruct (decide (q = p)) as [->|Hne].
      * rewrite lookup_alter_eq, He'. cbn. eexists; split; [done|]. by split.
      * rewrite lookup_alter_ne by done. eauto.
    + intros q e' [[-> ->]|[Hne Hq]]%Hlook Hcl; cbn in *; [by rewrite Hke|by apply Hl].
    + intros q e' Hq. rewrite count_occ_snoc. apply Hlook in Hq as [[-> ->]|[Hne Hq]]; cbn [enUsers set_users].
      * rewrite (Hu _ _ He). destruct (decide (p = p)); [lia|done].
      * rewrite (Hu _ _ Hq). destruct (decide (p = q)); [congruence|lia].
    + intros q e' [[-> ->]|[Hne Hq]]%Hlook Hcl; cbn in *; [congruence|by eapply Hc].
    + intros q e' [[-> ->]|[Hne Hq]]%Hlook Hre Hz; cbn in *; [rewrite (Hu _ _ He) in Hz; unfold leases_of in Hz; lia|by eapply Hr].
    + intros q [e' Hq]. apply Hlook in Hq as [[-> _]|[_ Hq]]; apply Hn; eauto.
    + intros q [Hq|Hq%list_elem_of_singleton]%elem_of_app; [|subst q]; rewrite lookup_alter_is_Some; [by apply Hls|eauto].
  - destruct (createEngine (rType r) (rConfig r)) as [eng|]; [|by split].
    assert (Hfresh : lcHeap c !! lcNext c = None) by (apply eq_None_not_Some; intros ?%Hn; lia).
    assert (Hzero : count_occ Nat.eq_dec (lcLeases c) (lcNext c) = 0%nat).
    { apply count_occ_not_In. intros Hin%list_elem_of_In. apply Hls in Hin. rewrite Hfresh in Hin. by destruct Hin. }
    split; cbn [fst lcIndex lcHeap lcNext lcLeases]; unfold leases_of in *; cbn [fst lcLeases].
    + intros k q [[<- <-]|[Hne Hq]]%lookup_insert_Some; [rewrite lookup_insert_eq; by eexists|].
      destruct (Hi _ _ Hq) as (e' & He' & ?). exists e'. rewrite lookup_insert_ne; [done|congruence].
    + intros q e' [[<- <-]|[Hne Hq]]%lookup_insert_Some Hcl; cbn; [by rewrite lookup_insert_eq|].
      rewrite lookup_insert_ne; [by apply Hl|]. intros Heq. specialize (Hl _ _ Hq Hcl). rewrite <- Heq in Hl. congruence.
    + intros q e' [[<- <-]|[Hne Hq]]%lookup_insert_Some; rewrite count_occ_snoc; cbn [enUsers].
      * rewrite Hzero. by destruct (decide (lcNext c = lcNext c)).
      * rewrite (Hu _ _ Hq). destruct (decide (lcNext c = q)); [congruence|lia].
    + intros q e' [[<- <-]|[Hne Hq]]%lookup_insert_Some Hcl; [done|by eapply Hc].
    + intros q e' [[<- <-]|[Hne Hq]]%lookup_insert_Some; [done|by eapply Hr].
    + intros q. rewrite lookup_insert_is_Some. intros [<-|[_ ?%Hn]]; lia.
    + intros q [Hq|Hq%list_elem_of_singleton]%elem_of_app; [|subst q]; rewrite lookup_insert_is_Some; [|by left].
      destruct (decide (lcNext c = q)); [by left|right]. split; [done|by apply Hls].
Qed.

(** Changing a live entry in place: its users, or its retirement, with the leases to match. *)
Lemma lease_inv_update c p e e' leases :
  lease_inv c -> lcHeap c !! p = Some e -> enClosed e = false ->
  enKey e' = enKey e -> enClosed e' = false -> enUsers e' = Z.of_nat (count_occ Nat.eq_dec leases p) ->
  (forall q, q <> p -> count_occ Nat.eq_dec leases q = count_occ Nat.eq_dec (lcLeases c) q) -> (forall q, q ∈ leases -> q ∈ lcLeases c) ->
  let c' := mkLeaseCache (lcIndex c) (<[p := e']> (lcHeap c)) (lcNext c) leases in
  (enRetired e' = true -> enUsers e' <> 0) -> lease_inv c'.
Proof.
  intros [Hi Hl Hu Hc Hr Hn Hls] He Hce Hk Hce' Hus Hcnt Hsub c' Hret.
  split; cbn [c' lcIndex lcHeap lcNext lcLeases]; unfold leases_of in *; cbn [c' lcLeases].
  - intros k q Hq. destruct (Hi _ _ Hq) as (e0 & He0 & Hk0 & Hc0). destruct (decide (p = q)) as [<-|Hne].
    + rewrite lookup_insert_eq. exists e'. split_and!; [done|congruence|done].
    + rewrite lookup_insert_ne by done. eauto.
  - intros q e0 [[<- <-]|[Hne Hq]]%lookup_insert_Some Hcl; [rewrite Hk; by apply Hl|by apply Hl].
  - intros q e0 [[<- <-]|[Hne Hq]]%lookup_insert_Some; [done|]. rewrite Hcnt by done. by apply Hu.
  - intros q e0 [[<- <-]|[Hne Hq]]%lookup_insert_Some Hcl; [congruence|by eapply Hc].
  - intros q e0 [[<- <-]|[Hne Hq]]%lookup_insert_Some Hre Hz; [by specialize (Hret Hre)|by eapply Hr].
  - intros q. rewrite lookup_insert_is_Some. intros [<-|[_ ?]]; apply Hn; eauto.
  - intros q Hq%Hsub%Hls. rewrite lookup_insert_is_Some. destruct (decide (p = q)); [by left|by right].
Qed.

(** Closing a live entry that has no users. *)
Lemma lease_inv_close c p e e' leases :
  lease_inv c -> lcHeap c !! p = Some e -> enClosed e = false ->
  enKey e' = enKey e -> enUsers e' = 0 -> count_occ Nat.eq_dec leases p = 0%nat ->
  (forall q, q <> p -> count_occ Nat.eq_dec leases q = count_occ Nat.eq_dec (lcLeases c) q) -> (forall q, q ∈ leases -> q ∈ lcLeases c) ->
  lease_inv (closeStreamEngine (mkLeaseCache (lcIndex c) (<[p := e']> (lcHeap c)) (lcNext c) leases) p e').
Proof.
  intros [Hi Hl Hu Hc Hr Hn Hls] He Hce Hk Hus Hzero Hcnt Hsub. unfold closeStreamEngine.
  split; cbn [lcIndex lcHeap lcNext lcLeases]; unfold leases_of in *; cbn [lcLeases]; rewrite ?insert_insert_eq.
  - intros k q [Hne Hq]%lookup_delete_Some. destruct (Hi _ _ Hq) as (e0 & He0 & Hk0 & Hc0). exists e0.
    rewrite lookup_insert_ne; [done|]. intros <-. congruence.
  - intros q e0 [[<- <-]|[Hne Hq]]%lookup_insert_Some Hcl; [done|]. rewrite lookup_delete_ne; [by apply Hl|].
    intros Heq. pose proof (Hl _ _ Hq Hcl) as H1. pose proof (Hl _ _ He Hce) as H2. congruence.
  - intros q e0 [[<- <-]|[Hne Hq]]%lookup_insert_Some; cbn [enUsers]; [rewrite Hzero; lia|]. rewrite Hcnt by done. by apply Hu.
  - intros q e0 [[<- <-]|[Hne Hq]]%lookup_insert_Some Hcl; [done|by eapply Hc].
  - intros q e0 [[<- <-]|[Hne Hq]]%lookup_insert_Some Hre Hz; [done|by eapply Hr].
  - intros q. rewrite lookup_insert_is_Some. intros [<-|[_ ?]]; apply Hn; eauto.
  - intros q Hq%Hsub%Hls. rewrite lookup_insert_is_Some. destruct (decide (p = q)); [by left|by right].
Qed.

(** A lease that is out keeps its engine open. *)
Lemma leased_open c p e : lease_inv c -> p ∈ lcLeases c -> lcHeap c !! p = Some e -> enClosed e = false /\ 0 < enUsers e.
Proof.
  intros Hinv Hp He. assert (Hpos : 0 < enUsers e).
  { rewrite (li_users _ Hinv _ _ He). unfold leases_of. apply list_elem_of_In, (count_occ_In Nat.eq_dec) in Hp. lia. }
  split; [|done]. destruct (enClosed e) eqn:Hc; [|done]. rewrite (li_closed _ Hinv _ _ He Hc) in Hpos. lia.
Qed.

Lemma lease_inv_release c p : lease_inv c -> p ∈ lcLeases c -> lease_inv (release_lease c p).
Proof.
  intros Hinv Hp. unfold release_lease. destruct (lcHeap c !! p) as [e|] eqn:He; [|done].
  destruct (leased_open c p e Hinv Hp He) as [Hopen Hpos]. pose proof (li_users _ Hinv _ _ He) as Hu. unfold leases_of in Hu.
  assert (Hcnt : forall q, q <> p -> count_occ Nat.eq_dec (remove_one p (lcLeases c)) q = count_occ Nat.eq_dec (lcLeases c) q).
  { intros q Hq. rewrite count_remove by done. destruct (decide (p = q)); [congruence|lia]. }
  assert (Hself : count_occ Nat.eq_dec (remove_one p (lcLeases c)) p = (count_occ Nat.eq_dec (lcLeases c) p - 1)%nat).
  { rewrite count_remove by done. by destruct (decide (p = p)). }
  cbn [enUsers set_users enRetired]. destruct (Z.eqb_spec (enUsers e - 1) 0) as [Hz|Hnz]; cbn [andb]; [destruct (enRetired e) eqn:Hret|].
  - eapply lease_inv_close; try done; [lia|by intros q ?%remove_sub].
  - eapply lease_inv_update; try done; [cbn [enUsers set_users]; lia|by intros q ?%remove_sub|cbn; congruence].
  - eapply lease_inv_update; try done; [cbn [enUsers set_users]; lia|by intros q ?%remove_sub].
Qed.

Lemma lease_inv_prune_one active c k p : lease_inv c -> lcIndex c !! k = Some p -> lease_inv (prune_one active c (k, p)).
Proof.
  intros Hinv Hk. unfold prune_one. destruct (active k); [done|]. destruct (li_index _ Hinv _ _ Hk) as (e & He & Hke & Hce). rewrite He.
  pose proof (li_users _ Hinv _ _ He) as Hu. unfold leases_of in Hu. cbn [enUsers]. destruct (Z.eqb_spec (enUsers e) 0) as [Hz|Hnz].
  - eapply lease_inv_close; try done. lia.
  - eapply lease_inv_update; try done.
Qed.

(** Pruning one entry leaves the other entries of the index. *)
Lemma prune_one_index active c k p k' : lease_inv c -> lcIndex c !! k = Some p -> k' <> k -> lcIndex (prune_one active c (k, p)) !! k' = lcIndex c !! k'.
Proof.
  intros Hinv Hk Hne. unfold prune_one. destruct (active k); [done|]. destruct (li_index _ Hinv _ _ Hk) as (e & He & Hke & Hce). rewrite He.
  cbn [enUsers]. destruct (enUsers e =? 0); [|done]. cbn [closeStreamEngine lcIndex enKey]. rewrite lookup_delete_ne by congruence. done.
Qed.

Lemma lease_inv_prune c rules : lease_inv c -> lease_inv (pruneStreamEngines c rules).
Proof.
  intros Hinv. unfold pruneStreamEngines. set (active := fun key => _).
  assert (H : forall entries c, lease_inv c -> NoDup entries.*1 -> Forall (fun '(k, p) => lcIndex c !! k = Some p) entries ->
    lease_inv (fold_left (prune_one active) entries c)).
  { clear c Hinv. induction entries as [|[k p] entries IH]; intros c Hinv Hnd Hall; cbn [fold_left]; [done|].
    apply Forall_cons in Hall as [Hk Hall]. apply NoDup_cons in Hnd as [Hni Hnd].
    apply IH; [by apply lease_inv_prune_one|done|]. rewrite Forall_forall in Hall |- *. intros [k' p'] Hin. specialize (Hall _ Hin). cbn in Hall.
    rewrite prune_one_index; [done|done|done|]. intros ->. apply Hni. apply list_elem_of_fmap. by exists (k, p'). }
  apply H; [done|apply NoDup_fst_map_to_list|]. apply Forall_forall. intros [k p] Hin. by apply elem_of_map_to_list.
Qed.

(** ** Steps *)

Inductive lease_step : lease_cache -> lease_cache -> Prop :=
| step_lease c r : lease_step c (leaseStreamEngine c r).1
| step_release c p : p ∈ lcLeases c -> lease_step c (release_lease c p)
| step_prune c rules : lease_step c (pruneStreamEngines c rules).

Lemma lease_reachable c : rtc lease_step lease_empty c -> lease_inv c.
Proof.
  intros H. pose proof lease_inv_empty as Hinv. induction H as [|c c1 c2 Hstep _ IH]; [done|]. apply IH.
  destruct Hstep; [by apply lease_inv_lease|by apply lease_inv_release|by apply lease_inv_prune].
Qed.

(** Every outstanding lease is given back. *)
Fixpoint release_all (fuel : nat) (c : lease_cache) : lease_cache :=
  match fuel, lcLeases c with
  | S fuel, p :: _ => release_all fuel (release_lease c p)
  | _, _ => c
  end.

Lemma release_heap c p q e' :
  lcHeap (release_lease c p) !! q = Some e' ->
  exists e, lcHeap c !! q = Some e /\ enKey e = enKey e' /\ enRetired e = enRetired e' /\ (enClosed e = true -> enClosed e' = true).
Proof.
  unfold release_lease. destruct (lcHeap c !! p) as [e|] eqn:He; [|eauto].
  destruct (_ && _); cbn [closeStreamEngine lcHeap]; rewrite ?insert_insert_eq; intros [[<- <-]|[_ Hq]]%lookup_insert_Some; eauto.
Qed.

Lemma release_leases c p : is_Some (lcHeap c !! p) -> lcLeases (release_lease c p) = remove_one p (lcLeases c).
Proof. unfold release_lease. intros [e ->]. by destruct (_ && _). Qed.

Lemma release_all_ok n c :
  lease_inv c -> length (lcLeases c) = n ->
  let c' := release_all n c in
  lease_inv c' /\ lcLeases c' = [] /\
  forall q e', lcHeap c' !! q = Some e' -> exists e, lcHeap c !! q = Some e /\ enKey e = enKey e' /\ enRetired e = enRetired e' /\ (enClosed e = true -> enClosed e' = true).
Proof.
  revert c. induction n as [|n IH]; intros c Hinv Hlen; cbn [release_all].
  { apply length_zero_iff_nil in Hlen. split; [done|]. split; [done|]. eauto. }
  destruct (lcLeases c) as [|p l] eqn:Hl; [done|].
  assert (Hp : p ∈ lcLeases c) by (rewrite Hl; left). pose proof (li_leases _ Hinv p Hp) as Hs.
  destruct (IH (release_lease c p)) as (H1 & H2 & H3); [by apply lease_inv_release| |].
  { rewrite release_leases, Hl by done. cbn [remove_one]. rewrite Nat.eqb_refl. cbn in Hlen. lia. }
  split; [done|]. split; [done|]. intros q e' Hq. destruct (H3 q e' Hq) as (e1 & He1 & Hk1 & Hr1 & Hc1).
  destruct (release_heap _ _ _ _ He1) as (e0 & He0 & Hk0 & Hr0 & Hc0). exists e0. split; [done|]. split_and!; [congruence..|auto].
Qed.

(** A key whose entries are all retired or closed. *)
Definition retired_key (c : lease_cache) (k : streamEngineKey) : Prop :=
  forall q e, lcHeap c !! q = Some e -> enKey e = k -> enClosed e = true \/ enRetired e = true.

Lemma prune_one_retires active c k p :
  lease_inv c -> lcIndex c !! k = Some p ->
  (active k = false -> retired_key (prune_one active c (k, p)) k)
  /\ (forall k', retired_key c k' -> retired_key (prune_one active c (k, p)) k')
  /\ (forall k' q, lcIndex (prune_one active c (k, p)) !! k' = Some q -> lcIndex c !! k' = Some q).
Proof.
  intros Hinv Hk. destruct (li_index _ Hinv _ _ Hk) as (e & He & Hke & Hce). unfold prune_one.
  destruct (active k) eqn:Ha; [by split_and!|]. rewrite He. cbn [enUsers].
  assert (Hupd : forall k' q e0 cl, <[p := mkEntry (enKey e) (enEngine e) (enUsers e) true cl]> (lcHeap c) !! q = Some e0 -> enKey e0 = k' ->
    (k' = k \/ retired_key c k') -> enClosed e0 = true \/ enRetired e0 = true).
  { intros k' q e0 cl [[<- <-]|[Hne Hq]]%lookup_insert_Some Hk0 Hor; [by right|]. destruct Hor as [->|Hr]; [|by eapply Hr].
    left. destruct (enClosed e0) eqn:Hc0; [done|]. pose proof (li_live _ Hinv _ _ Hq Hc0) as Hl. rewrite Hk0, Hk in Hl. congruence. }
  destruct (enUsers e =? 0); cbn [closeStreamEngine lcHeap lcIndex enKey enEngine enUsers enRetired]; unfold retired_key;
    cbn [closeStreamEngine lcHeap lcIndex enKey enEngine enUsers enRetired]; rewrite ?insert_insert_eq; split_and!.
  - intros _ q e0 Hq Hk0. eapply Hupd; eauto.
  - intros k' Hr q e0 Hq Hk0. eapply Hupd; eauto.
  - by intros k' q [_ ?]%lookup_delete_Some.
  - intros _ q e0 Hq Hk0. eapply Hupd; eauto.
  - intros k' Hr q e0 Hq Hk0. eapply Hupd; eauto.
  - done.
Qed.

Lemma prune_retires c rules k :
  lease_inv c -> k ∉ map streamKey rules -> retired_key (pruneStreamEngines c rules) k.
Proof.
  intros Hinv Hk. unfold pruneStreamEngines. set (active := fun key => _).
  assert (Ha : active k = false) by (by apply bool_decide_eq_false).
  assert (H : forall entries c', lease_inv c' -> NoDup entries.*1 -> Forall (fun '(k, p) => lcIndex c' !! k = Some p) entries ->
    (k ∈ entries.*1 \/ retired_key c' k) -> retired_key (fold_left (prune_one active) entries c') k).
  { induction entries as [|[k0 p] entries IH]; intros c' Hinv' Hnd Hall Hor; cbn [fold_left]; [destruct Hor as [[]%not_elem_of_nil|]; done|].
    apply Forall_cons in Hall as [Hk0 Hall]. apply NoDup_cons in Hnd as [Hni Hnd].
    destruct (prune_one_retires active c' k0 p Hinv' Hk0) as (R1 & R2 & _).
    apply IH; [by apply lease_inv_prune_one|done| |].
    - rewrite Forall_forall in Hall |- *. intros [k' p'] Hin. specialize (Hall _ Hin). cbn in Hall.
      rewrite prune_one_index; [done|done|done|]. intros ->. apply Hni. apply list_elem_of_fmap. by exists (k0, p').
    - destruct Hor as [[->|Hin]%elem_of_cons|Hr]; [right; by apply R1|by left|right; by apply R2]. }
  apply H; [done|apply NoDup_fst_map_to_list|apply Forall_forall; intros [k' p] Hin; by apply elem_of_map_to_list|].
  destruct (lcIndex c !! k) as [p|] eqn:Hi.
  - left. apply list_elem_of_fmap. exists (k, p). split; [done|]. by apply elem_of_map_to_list.
  - right. intros q e Hq Hke. left. destruct (enClosed e) eqn:Hc; [done|]. pose proof (li_live _ Hinv _ _ Hq Hc). congruence.
Qed.
End Lease.

(** A reload never closes an engine under a live stream: however leases, releases and reloads
    interleave, the engine of every lease that is out is open, and it is the engine of the rule
    version that was leased. *)
Theorem leased_engine_stays_open {E} createEngine (c : lease_cache (E := E)) p :
  rtc (lease_step createEngine) lease_empty c -> p ∈ lcLeases c ->
  exists e, lcHeap c !! p = Some e /\ enClosed e = false /\ 0 < enUsers e /\ lcIndex c !! enKey e = Some p.
Proof.
  intros Hc%lease_reachable Hp. destruct (li_leases _ Hc p Hp) as [e He]. exists e.
  destruct (leased_open c p e Hc Hp He) as [Ho Hu]. split_and!; try done. by apply (li_live _ Hc).
Qed.

(** A retired engine is closed in the end: from any reachable state, once a reload has retired the
    rule versions that are gone and the streams give their leases back, every engine of a version
    that is gone is closed and none is left in the cache. *)
Theorem retired_engines_get_closed {E} createEngine (c : lease_cache (E := E)) rules :
  rtc (lease_step createEngine) lease_empty c ->
  let c1 := pruneStreamEngines c rules in
  let c2 := release_all (length (lcLeases c1)) c1 in
  lcLeases c2 = [] /\
  forall p e, lcHeap c2 !! p = Some e -> enKey e ∉ map streamKey rules -> enClosed e = true /\ lcIndex c2 !! enKey e = None.
Proof.
  intros Hc%lease_reachable c1 c2. pose proof (lease_inv_prune c rules Hc) as Hc1. fold c1 in Hc1.
  destruct (release_all_ok (length (lcLeases c1)) c1 Hc1 eq_refl) as (Hc2 & Hl2 & Hheap). fold c2 in Hc2, Hl2, Hheap. split; [done|].
  assert (Hall : forall p e, lcHeap c2 !! p = Some e -> enKey e ∉ map streamKey rules -> enClosed e = true).
  { intros p e He Hk. destruct (enClosed e) eqn:Hcl; [done|]. exfalso.
    destruct (Hheap p e He) as (e0 & He0 & Hk0 & Hr0 & Hc0).
    assert (Hu : enUsers e = 0) by (rewrite (li_users _ Hc2 _ _ He); unfold leases_of; by rewrite Hl2).
    destruct (prune_retires c rules (enKey e) Hc Hk p e0 He0 Hk0) as [Hcl0|Hret].
    - rewrite Hc0 in Hcl; done.
    - rewrite (li_retired _ Hc2 _ _ He) in Hcl; [done|congruence|done]. }
  intros p e He Hk. split; [by eapply Hall|]. apply eq_None_not_Some. intros [q Hq].
  destruct (li_index _ Hc2 _ _ Hq) as (e' & He' & Hk' & Hc'). rewrite (Hall q e' He') in Hc'; [done|]. congruence.
Qed.

Definition lease_rule (version : Z) : GuardrailRule :=
  mkGuardRule 3 None "words" "keyword_filter" "response" true "c" "medium" "mask" None version.

Definition lease_engine (type config : string) : option unit := Some tt.

(** Two streams on version 1, a reload to version 2, a stream on it. *)
Definition lease_demo : lease_cache (E := unit) :=
  (leaseStreamEngine lease_engine
    (pruneStreamEngines (leaseStreamEngine lease_engine (leaseStreamEngine lease_engine lease_empty (lease_rule 1)).1 (lease_rule 1)).1
       [lease_rule 2]) (lease_rule 2)).1.

Lemma lease_demo_reachable : rtc (lease_step lease_engine) lease_empty lease_demo.
Proof.
  eapply rtc_l; [apply (step_lease _ _ (lease_rule 1))|]. eapply rtc_l; [apply (step_lease _ _ (lease_rule 1))|].
  eapply rtc_l; [apply (step_prune _ _ [lease_rule 2])|]. eapply rtc_l; [apply (step_lease _ _ (lease_rule 2))|]. apply rtc_refl.
Qed.

Lemma leased_engine_stays_open_witness :
  exists e, lcHeap lease_demo !! O = Some e /\ enClosed e = false /\ enRetired e = true.
Proof.
  destruct (leased_engine_stays_open lease_engine lease_demo O) as (e & He & Hc & _).
  - exact lease_demo_reachable.
  - vm_compute. left.
  - exists e. split; [exact He|]. split; [exact Hc|]. vm_compute in He. inversion He. reflexivity.
Defined.

Lemma retired_engines_get_closed_witness :
  let c1 := pruneStreamEngines lease_demo [lease_rule 2] in
  exists e, lcHeap (release_all 3 c1) !! O = Some e /\ enClosed e = true.
Proof.
  cbv zeta. destruct (retired_engines_get_closed lease_engine lease_demo [lease_rule 2]) as [_ H].
  - exact lease_demo_reachable.
  - eexists. split; [vm_compute; reflexivity|].
    eapply (H O); [vm_compute; reflexivity|]. intros Hin. apply list_elem_of_singleton in Hin. vm_compute in Hin. discriminate Hin.
Defined.
