(* ===== verification/Responses.v ===== *)
(** * The Responses API: [translator/responses.go] and [responses_stream.go]

    Requests of the Responses API as OpenAI requests, OpenAI responses as
    Responses, and the stream builder that turns OpenAI chunks into Responses
    events, with the JSON payloads of the events.  [generateMessageID] draws from
    [ids], a random source; the iteration order of a Go map, a new one for every
    range, is [iterate]. *)

From Stdlib Require Import SpecFloat.
From S2P Require Import Prelude Json Sse Messages.

(** ** Data ([domain/responses.go]) *)

Record ResponsesTool := mkRTool { rtType : string; rtFunction : OpenAIFunctionDef }.

Record ResponsesRequest := mkRRequest {
  rrModel : string; rrInput : string; rrInstructions : string; rrMaxOutputTokens : option Z; rrStream : bool;
  rrTools : list ResponsesTool; rrToolChoice : json; rrTemperature : option spec_float; rrTopP : option spec_float;
  rrReasoning : string; rrUser : string
}.

Record ResponsesInputItem := mkItem {
  riType : string; riRole : string; riContent : string; riCallID : string; riName : string; riArguments : string; riOutput : string
}.

Record ResponsesOutputItem := mkOutput {
  roType : string; roID : string; roRole : string; roStatus : string; roContent : list (string * string);
  roCallID : string; roName : string; roArguments : string
}.

Record ResponsesUsage := mkRUsage {
  ruInput : Z; ruOutput : Z; ruTotal : Z; ruCached : option Z; ruReasoning : option Z
}.

Record ResponsesResponse := mkRResponse {
  rpID : string; rpObject : string; rpStatus : string; rpModel : string; rpOutput : list ResponsesOutputItem; rpUsage : ResponsesUsage
}.

(** ** Requests *)

Section Requests.
Context (parse : string -> option json) (marshal : json -> string).

Definition SupportsResponses (raw : string) : bool :=
  if String.eqb raw "" then false
  else match parse raw ≫= as_struct with
       | Some o => match member "supports_responses" o with JBool b => b | _ => false end
       | None => false
       end.

(** The array of parts of a message content. *)
Definition decode_part (j : json) : option (string * string) :=
  o ← as_struct j; ty ← as_string (member "type" o); tx ← as_string (member "text" o); Some (ty, tx).

Definition rawContentToAny (raw : string) : json :=
  if String.eqb raw "" then JStr ""
  else match parse raw with
       | Some (JStr s) => JStr s
       | Some j => match as_slice decode_part j with Some _ => JStr (byte_dump raw) | None => JStr raw end
       | None => JStr raw
       end.

Definition decode_input_item (j : json) : option ResponsesInputItem :=
  o ← as_struct j;
  ty ← as_string (member "type" o); role ← as_string (member "role" o); call ← as_string (member "call_id" o);
  nm ← as_string (member "name" o); args ← as_string (member "arguments" o); out ← as_string (member "output" o);
  _ ← as_string (member "id" o);
  Some (mkItem ty role (raw_member marshal "content" o) call nm args out).

(** One input item: a message, a call, the output of a call; anything else is dropped. *)
Definition item_message (it : ResponsesInputItem) : option OpenAIMessage :=
  if String.eqb (riType it) "message" then
    Some (mkMsg (if String.eqb (riRole it) "" then "user" else riRole it) (rawContentToAny (riContent it)) "" [] "")
  else if String.eqb (riType it) "function_call" then
    Some (mkMsg "assistant" JNull "" [mkToolCall (riCallID it) "function" (mkFn (riName it) (riArguments it))] "")
  else if String.eqb (riType it) "function_call_output" then
    Some (mkMsg "tool" (JStr (riOutput it)) "" [] (riCallID it))
  else None.

Definition input_messages (j : json) : option (list OpenAIMessage) :=
  match as_slice decode_input_item j with
  | Some items => Some (omap item_message items)
  | None => None
  end.

(** [None]: the input is neither a string nor an array of items. *)
Definition responsesInputToMessages (raw : string) : option (list OpenAIMessage) :=
  if String.eqb raw "" then Some []
  else match parse raw with
       | Some (JStr s) => Some [mkMsg "user" (JStr s) "" [] ""]
       | Some j => input_messages j
       | None => None
       end.

Definition responses_tool (t : ResponsesTool) : option OpenAITool :=
  if negb (String.eqb (rtType t) "function") && negb (String.eqb (rtType t) "") then None
  else Some (mkTool' "function" (rtFunction t)).

Definition responses_effort (raw : string) : string :=
  if String.eqb raw "" then ""
  else match parse raw ≫= as_struct with
       | Some o => default "" (as_string (member "effort" o))
       | None => ""
       end.

Definition ResponsesToOpenAI (req : ResponsesRequest) : option OpenAIRequest :=
  msgs ← responsesInputToMessages (rrInput req);
  let system := if String.eqb (rrInstructions req) "" then [] else [mkMsg "system" (JStr (rrInstructions req)) "" [] ""] in
  Some (mkORequest (rrModel req) (system ++ msgs) (rrMaxOutputTokens req) None None (rrStream req) (rrTemperature req) (rrTopP req)
          StopNil (rrUser req) None (omap responses_tool (rrTools req)) (rrToolChoice req) (responses_effort (rrReasoning req)) "").
End Requests.

(** ** Responses *)

Definition finishReasonToResponsesStatus (reason : string) : option string :=
  if bool_decide (reason ∈ ["stop"; "tool_calls"]) then Some "completed"
  else if bool_decide (reason ∈ ["length"; "content_filter"]) then Some "incomplete"
  else None.

Definition ResponsesUsageFromOpenAI (u : OpenAIUsage) : ResponsesUsage :=
  mkRUsage (PromptTokens u) (CompletionTokens u) (TotalTokens u) (PromptTokensDetails u) (CompletionTokensDetails u).

Definition message_item (id text : string) : ResponsesOutputItem :=
  mkOutput "message" id "assistant" "completed" [("output_text", text)] "" "" "".

Definition call_item (id callID name args : string) : ResponsesOutputItem :=
  mkOutput "function_call" id "" "completed" [] callID name args.

Section NonStream.
Context (sprint : json -> string) (ids : nat -> string).

(** One item per tool call, with the ids drawn from [n] on. *)
Fixpoint call_items (n : nat) (calls : list OpenAIToolCall) : list ResponsesOutputItem :=
  match calls with
  | [] => []
  | tc :: calls => call_item (ids n) (otID tc) (fnName (otFunction tc)) (fnArguments (otFunction tc)) :: call_items (S n) calls
  end.

Definition OpenAIToResponses (respID : string) (resp : OpenAIResponse) (model : string) : ResponsesResponse :=
  let usage := ResponsesUsageFromOpenAI (opUsage resp) in
  match opChoices resp with
  | [] => mkRResponse respID "response" "completed" model [] usage
  | ch :: _ =>
      let text := ContentText sprint (omContent (ocMessage ch)) in
      let status := default "completed" (finishReasonToResponsesStatus (ocFinishReason ch)) in
      let calls := omToolCalls (ocMessage ch) in
      mkRResponse respID "response" status model
        (if String.eqb text "" then call_items 0 calls else message_item (ids 0%nat) text :: call_items 1 calls) usage
  end.
End NonStream.

(** ** The stream builder *)

Record toolItem := mkToolItem {
  tiID : string; tiOutIndex : Z; tiArgs : string; tiAdded : bool; tiName : string; tiCallID : string
}.

(** [rbDrawn] counts the ids drawn so far. *)
Record ResponsesStreamBuilder := mkBuilder {
  rbRespID : string; rbModel : string; rbStarted : bool; rbItemID : string; rbTextAdded : bool; rbText : string;
  rbTools : gmap Z toolItem; rbMessageEmitted : bool; rbNextOut : Z; rbDrawn : nat
}.

Definition NewResponsesStreamBuilder (drawn : string) (respID model : string) : ResponsesStreamBuilder :=
  mkBuilder (if String.eqb respID "" then drawn else respID) model false "" false "" ∅ false 0 0.

(** *** Events *)

Record ResponsesEvent := mkREvent { reType : string; rePayload : json }.

Definition rev_event (ty : string) (fields : list (string * json)) : ResponsesEvent :=
  mkREvent ty (JObj (("type", JStr ty) :: fields)).

Definition outputItemAdded (itemID : string) (outIndex : Z) (itemType : string) : ResponsesEvent :=
  rev_event "response.output_item.added"
    [("output_index", JNum outIndex);
     ("item", JObj [("type", JStr itemType); ("id", JStr itemID); ("role", JStr "assistant"); ("status", JStr "in_progress");
                    ("content", JArr [])])].

Definition contentPartAdded (itemID : string) (outIndex : Z) : ResponsesEvent :=
  rev_event "response.content_part.added"
    [("item_id", JStr itemID); ("output_index", JNum outIndex); ("content_index", JNum 0);
     ("part", JObj [("type", JStr "output_text"); ("text", JStr "")])].

Definition functionCallItemAdded (ti : toolItem) : ResponsesEvent :=
  rev_event "response.output_item.added"
    [("output_index", JNum (tiOutIndex ti));
     ("item", JObj [("type", JStr "function_call"); ("id", JStr (tiID ti)); ("status", JStr "in_progress");
                    ("call_id", JStr (tiCallID ti)); ("name", JStr (tiName ti)); ("arguments", JStr "")])].

Definition textDelta (itemID delta : string) : ResponsesEvent :=
  rev_event "response.output_text.delta"
    [("item_id", JStr itemID); ("output_index", JNum 0); ("content_index", JNum 0); ("delta", JStr delta)].

Definition argumentsDelta (ti : toolItem) (delta : string) : ResponsesEvent :=
  rev_event "response.function_call_arguments.delta"
    [("item_id", JStr (tiID ti)); ("output_index", JNum (tiOutIndex ti)); ("delta", JStr delta)].

Definition message_json (id text : string) : json :=
  JObj [("type", JStr "message"); ("id", JStr id); ("role", JStr "assistant"); ("status", JStr "completed");
        ("content", JArr [JObj [("type", JStr "output_text"); ("text", JStr text)]])].

Definition call_json (ti : toolItem) : json :=
  JObj [("type", JStr "function_call"); ("id", JStr (tiID ti)); ("status", JStr "completed"); ("call_id", JStr (tiCallID ti));
        ("name", JStr (tiName ti)); ("arguments", JStr (tiArgs ti))].

Definition messageItemDone (b : ResponsesStreamBuilder) : ResponsesEvent :=
  rev_event "response.output_item.done" [("output_index", JNum 0); ("item", message_json (rbItemID b) (rbText b))].

(** *** Chunks *)

Section Builder.
Context (ids : nat -> string) (iterate : nat -> list (Z * toolItem) -> list (Z * toolItem)).

Definition Start (b : ResponsesStreamBuilder) : list ResponsesEvent * ResponsesStreamBuilder :=
  if rbStarted b then ([], b)
  else
    ([rev_event "response.created"
        [("response", JObj [("id", JStr (rbRespID b)); ("object", JStr "response"); ("status", JStr "in_progress");
                            ("model", JStr (rbModel b)); ("output", JArr [])])]],
     mkBuilder (rbRespID b) (rbModel b) true (rbItemID b) (rbTextAdded b) (rbText b) (rbTools b) (rbMessageEmitted b)
       (rbNextOut b) (rbDrawn b)).

(** The text of a delta. *)
Definition next_text (text : string) (b : ResponsesStreamBuilder) : list ResponsesEvent * ResponsesStreamBuilder :=
  if String.eqb text "" then ([], b)
  else
    let '(events, b) :=
      if rbMessageEmitted b then ([], b)
      else
        let id := ids (rbDrawn b) in
        ([outputItemAdded id 0 "message"; contentPartAdded id 0],
         mkBuilder (rbRespID b) (rbModel b) (rbStarted b) id true (rbText b) (rbTools b) true 1 (S (rbDrawn b))) in
    (events ++ [textDelta (rbItemID b) text],
     mkBuilder (rbRespID b) (rbModel b) (rbStarted b) (rbItemID b) (rbTextAdded b) (rbText b +:+ text) (rbTools b)
       (rbMessageEmitted b) (rbNextOut b) (rbDrawn b)).

Definition nonempty_or (new old : string) : string := if String.eqb new "" then old else new.

(** One tool call of a delta. *)
Definition next_tool (tc : OpenAIChunkToolCall) (b : ResponsesStreamBuilder) : list ResponsesEvent * ResponsesStreamBuilder :=
  let name := cfName (tcFunction tc) in
  let args := cfArguments (tcFunction tc) in
  let '(ti, next, drawn) :=
    match rbTools b !! tcIndex tc with
    | Some ti => (ti, rbNextOut b, rbDrawn b)
    | None => (mkToolItem (ids (rbDrawn b)) (rbNextOut b) "" false name (tcID tc), rbNextOut b + 1, S (rbDrawn b))
    end in
  let ti := mkToolItem (tiID ti) (tiOutIndex ti) (tiArgs ti) (tiAdded ti) (nonempty_or name (tiName ti)) (nonempty_or (tcID tc) (tiCallID ti)) in
  let events := if tiAdded ti then [] else [functionCallItemAdded ti] in
  let delta := if String.eqb args "" then [] else [argumentsDelta ti args] in
  let ti := mkToolItem (tiID ti) (tiOutIndex ti) (tiArgs ti +:+ args) true (tiName ti) (tiCallID ti) in
  (events ++ delta,
   mkBuilder (rbRespID b) (rbModel b) (rbStarted b) (rbItemID b) (rbTextAdded b) (rbText b) (<[tcIndex tc := ti]> (rbTools b))
     (rbMessageEmitted b) next drawn).

Fixpoint next_tools (tcs : list OpenAIChunkToolCall) (b : ResponsesStreamBuilder) : list ResponsesEvent * ResponsesStreamBuilder :=
  match tcs with
  | [] => ([], b)
  | tc :: tcs =>
      let '(e1, b) := next_tool tc b in
      let '(e2, b) := next_tools tcs b in
      (e1 ++ e2, b)
  end.

(** The code returns no event for a nil chunk too. *)
Definition Next (chunk : OpenAIChunk) (b : ResponsesStreamBuilder) : list ResponsesEvent * ResponsesStreamBuilder :=
  match chChoices chunk with
  | [] => ([], b)
  | ch :: _ =>
      let '(e1, b) := next_text (dContent (ccDelta ch)) b in
      let '(e2, b) := next_tools (dToolCalls (ccDelta ch)) b in
      (e1 ++ e2, b)
  end.

(** *** The end *)

(** The [oi]-th pass over the map visits its items in the order [iterate oi]; an
    item has one index, so the code's [seen] set never excludes one. *)
Definition orderedToolItems (b : ResponsesStreamBuilder) : list toolItem :=
  flat_map (fun oi => map snd (List.filter (fun p => tiOutIndex (snd p) =? Z.of_nat oi) (iterate oi (map_to_list (rbTools b)))))
    (seq 0 (Z.to_nat (rbNextOut b))).

Definition final_items (b : ResponsesStreamBuilder) : list json :=
  (if rbMessageEmitted b then [message_json (rbItemID b) (rbText b)] else []) ++ map call_json (orderedToolItems b).

(** The slice starts nil, and stays nil when nothing is appended: JSON [null]. *)
Definition finalOutput (b : ResponsesStreamBuilder) : json :=
  match final_items b with [] => JNull | items => JArr items end.

Definition usage_json (u : ResponsesUsage) : json :=
  JObj ([("input_tokens", JNum (ruInput u)); ("output_tokens", JNum (ruOutput u)); ("total_tokens", JNum (ruTotal u))]
        ++ match ruCached u with Some n => [("input_tokens_details", JObj [("cached_tokens", JNum n)])] | None => [] end
        ++ match ruReasoning u with Some n => [("output_tokens_details", JObj [("reasoning_tokens", JNum n)])] | None => [] end).

Definition tool_done (ti : toolItem) : list ResponsesEvent :=
  [rev_event "response.function_call_arguments.done"
     [("item_id", JStr (tiID ti)); ("output_index", JNum (tiOutIndex ti)); ("arguments", JStr (tiArgs ti))];
   rev_event "response.output_item.done" [("output_index", JNum (tiOutIndex ti)); ("item", call_json ti)]].

Definition Finish (usage : OpenAIUsage) (finishReason model : string) (b : ResponsesStreamBuilder) : list ResponsesEvent :=
  let model := if String.eqb model "" then rbModel b else model in
  let status := if bool_decide (finishReason ∈ ["length"; "content_filter"]) then "incomplete" else "completed" in
  (if rbTextAdded b then
     [rev_event "response.output_text.done"
        [("item_id", JStr (rbItemID b)); ("output_index", JNum 0); ("content_index", JNum 0); ("text", JStr (rbText b))];
      rev_event "response.content_part.done"
        [("item_id", JStr (rbItemID b)); ("output_index", JNum 0); ("content_index", JNum 0);
         ("part", JObj [("type", JStr "output_text"); ("text", JStr (rbText b))])]]
   else [])
  ++ (if rbMessageEmitted b then [messageItemDone b] else [])
  ++ flat_map tool_done (orderedToolItems b)
  ++ [rev_event "response.completed"
        [("response", JObj [("id", JStr (rbRespID b)); ("object", JStr "response"); ("status", JStr status);
                            ("model", JStr model); ("output", finalOutput b);
                            ("usage", usage_json (ResponsesUsageFromOpenAI usage))])]].

(** *** A whole stream *)

Fixpoint next_all (chunks : list OpenAIChunk) (b : ResponsesStreamBuilder) : list ResponsesEvent * ResponsesStreamBuilder :=
  match chunks with
  | [] => ([], b)
  | c :: chunks =>
      let '(e1, b) := Next c b in
      let '(e2, b) := next_all chunks b in
      (e1 ++ e2, b)
  end.

Definition responses_stream (drawn respID model : string) (chunks : list OpenAIChunk) (usage : OpenAIUsage) (finishReason model' : string)
  : list ResponsesEvent :=
  let '(e0, b) := Start (NewResponsesStreamBuilder drawn respID model) in
  let '(e1, b) := next_all chunks b in
  e0 ++ e1 ++ Finish usage finishReason model' b.
End Builder.
