(* ===== verification/ResponsesSpec.v ===== *)
(** * What a Responses client reads from the translated stream

    A reader of the Responses event protocol that looks only at the payloads of
    the events, a specification of the output an OpenAI chunk sequence carries,
    and the refinement theorem between the two through the stream builder. *)

From S2P Require Import Prelude Json Sse Messages Responses.

(** ** The reader *)

(** An item of the final output, without its id. *)
Inductive VItem :=
  | VMessage (text : string)
  | VCall (callID name args : string).

#[global] Instance VItem_eq_dec : EqDecision VItem.
Proof. solve_decision. Defined.

(** An item being received: its id, whether it is a call, what its deltas add up
    to and, once [output_item.done] arrived, the item. *)
Record open_item := mkOpen { oiID : string; oiCall : bool; oiBuf : string; oiFinal : option VItem }.

Inductive reader :=
  | RBefore
  | ROpen (id : string) (items : list open_item)
  | RDone (id status model : string) (output : list VItem).

Definition get_str (k : string) (j : json) : option string := match member k j with JStr s => Some s | _ => None end.

Definition get_num (k : string) (j : json) : option Z := match member k j with JNum z => Some z | _ => None end.

(** A completed item as it is on the wire: its id and its content. *)
Definition view_item (j : json) : option (string * VItem) :=
  id ← get_str "id" j;
  match member "type" j with
  | JStr "message" =>
      match member "content" j with
      | JArr [p] => t ← get_str "text" p; Some (id, VMessage t)
      | _ => None
      end
  | JStr "function_call" =>
      c ← get_str "call_id" j; n ← get_str "name" j; a ← get_str "arguments" j; Some (id, VCall c n a)
  | _ => None
  end.

Definition output_index (j : json) : option nat :=
  i ← get_num "output_index" j; if 0 <=? i then Some (Z.to_nat i) else None.

(** The item an event names by its index; its [item_id] has to agree, and it is
    still open. *)
Definition named_item (call : bool) (items : list open_item) (j : json) : option (nat * open_item) :=
  i ← output_index j; id ← get_str "item_id" j; it ← items !! i;
  if String.eqb id (oiID it) && Bool.eqb call (oiCall it) && negb (bool_decide (is_Some (oiFinal it)))
  then Some (i, it) else None.

Definition grow (items : list open_item) (i : nat) (it : open_item) (d : string) : list open_item :=
  <[i := mkOpen (oiID it) (oiCall it) (oiBuf it +:+ d) (oiFinal it)]> items.

(** The buffer of a finished item is its content. *)
Definition agrees (it : open_item) (v : VItem) : bool :=
  match v with
  | VMessage t => negb (oiCall it) && String.eqb t (oiBuf it)
  | VCall _ _ a => oiCall it && String.eqb a (oiBuf it)
  end.

Definition read_added (items : list open_item) (j : json) : option (list open_item) :=
  i ← output_index j; id ← get_str "id" (member "item" j); ty ← get_str "type" (member "item" j);
  if Nat.eqb i (length items) then Some (items ++ [mkOpen id (String.eqb ty "function_call") "" None]) else None.

Definition read_done (items : list open_item) (j : json) : option (list open_item) :=
  i ← output_index j; '(id, v) ← view_item (member "item" j); it ← items !! i;
  if String.eqb id (oiID it) && agrees it v && negb (bool_decide (is_Some (oiFinal it)))
  then Some (<[i := mkOpen id (oiCall it) (oiBuf it) (Some v)]> items) else None.

(** The whole output of the last event: the finished items, in order. *)
Definition read_output (items : list open_item) (j : json) : option (list VItem) :=
  match member "output" j with
  | JArr js =>
      vs ← mapM view_item js;
      if bool_decide (vs.*1 = map oiID items) && bool_decide (map Some (vs.*2) = map oiFinal items) then Some (vs.*2) else None
  | _ => None
  end.

Definition read_text (call : bool) (key : string) (items : list open_item) (j : json) : option (list open_item) :=
  '(i, it) ← named_item call items j; t ← get_str key j; if String.eqb t (oiBuf it) then Some items else None.

(** The part an event carries is the item's text so far. *)
Definition read_part (items : list open_item) (j : json) : option (list open_item) :=
  '(i, it) ← named_item false items j; t ← get_str "text" (member "part" j); if String.eqb t (oiBuf it) then Some items else None.

Definition read_delta (call : bool) (items : list open_item) (j : json) : option (list open_item) :=
  '(i, it) ← named_item call items j; d ← get_str "delta" j; Some (grow items i it d).

Definition read_items (items : list open_item) (ty : string) (j : json) : option (list open_item) :=
  match ty with
  | "response.output_item.added" => read_added items j
  | "response.content_part.added" | "response.content_part.done" => read_part items j
  | "response.output_text.delta" => read_delta false items j
  | "response.function_call_arguments.delta" => read_delta true items j
  | "response.output_text.done" => read_text false "text" items j
  | "response.function_call_arguments.done" => read_text true "arguments" items j
  | "response.output_item.done" => read_done items j
  | _ => None
  end.

Definition read_revent (r : reader) (e : ResponsesEvent) : option reader :=
  let j := rePayload e in
  match r, reType e with
  | RBefore, "response.created" => (fun id => ROpen id []) <$> get_str "id" (member "response" j)
  | ROpen id items, "response.completed" =>
      let resp := member "response" j in
      id' ← get_str "id" resp; st ← get_str "status" resp; m ← get_str "model" resp; out ← read_output items resp;
      if String.eqb id id' then Some (RDone id st m out) else None
  | ROpen id items, ty => ROpen id <$> read_items items ty j
  | _, _ => None
  end.

Fixpoint read_stream (r : reader) (es : list ResponsesEvent) : option reader :=
  match es with
  | [] => Some r
  | e :: es => match read_revent r e with Some r => read_stream r es | None => None end
  end.

(** ** The output of a chunk sequence *)

Definition chunk_text (c : OpenAIChunk) : string :=
  match chChoices c with ch :: _ => dContent (ccDelta ch) | [] => "" end.

Definition chunk_tools (c : OpenAIChunk) : list OpenAIChunkToolCall :=
  match chChoices c with ch :: _ => dToolCalls (ccDelta ch) | [] => [] end.

(** The calls by index, in order of first appearance: the last id and name that
    are not empty, and all the arguments. *)
Definition call_of (tc : OpenAIChunkToolCall) : VItem := VCall (tcID tc) (cfName (tcFunction tc)) (cfArguments (tcFunction tc)).

Definition merge_call (tc : OpenAIChunkToolCall) (v : VItem) : VItem :=
  match v with
  | VCall c n a => VCall (nonempty_or (tcID tc) c) (nonempty_or (cfName (tcFunction tc)) n) (a +:+ cfArguments (tcFunction tc))
  | v => v
  end.

Fixpoint add_call (tc : OpenAIChunkToolCall) (cs : list (Z * VItem)) : list (Z * VItem) :=
  match cs with
  | [] => [(tcIndex tc, call_of tc)]
  | (i, v) :: cs => if i =? tcIndex tc then (i, merge_call tc v) :: cs else (i, v) :: add_call tc cs
  end.

Definition spec_calls (chunks : list OpenAIChunk) : list (Z * VItem) :=
  fold_left (fun cs tc => add_call tc cs) (flat_map chunk_tools chunks) [].

Definition spec_text (chunks : list OpenAIChunk) : string := foldr String.append "" (map chunk_text chunks).

Definition spec_output (chunks : list OpenAIChunk) : list VItem :=
  (if String.eqb (spec_text chunks) "" then [] else [VMessage (spec_text chunks)]) ++ (spec_calls chunks).*2.

(** No tool call in a chunk before the first text. *)
Fixpoint text_first (chunks : list OpenAIChunk) : bool :=
  match chunks with
  | [] => true
  | c :: chunks =>
      if String.eqb (chunk_text c) "" then
        match chunk_tools c with
        | [] => text_first chunks
        | _ => String.eqb (spec_text chunks) ""
        end
      else true
  end.

(** ** The reader on the builder's events *)

Lemma read_stream_app r es es' : read_stream r (es ++ es') = match read_stream r es with Some r => read_stream r es' | None => None end.
Proof. revert r; induction es as [|e es IH]; intros r; [done|]; simpl; destruct (read_revent r e); auto. Qed.

Lemma output_index_at j (n : nat) : get_num "output_index" j = Some (Z.of_nat n) -> output_index j = Some n.
Proof.
  intros E; unfold output_index; rewrite E; simpl.
  destruct (Z.leb_spec 0 (Z.of_nat n)) as [_|H]; [rewrite Nat2Z.id; done | lia].
Qed.

Lemma named_item_mid A it B j :
  get_num "output_index" j = Some (Z.of_nat (length A)) -> get_str "item_id" j = Some (oiID it) -> oiFinal it = None ->
  named_item (oiCall it) (A ++ it :: B) j = Some (length A, it).
Proof.
  intros Ei Eid Ef; unfold named_item; rewrite (output_index_at _ _ Ei), Eid; simpl.
  rewrite list_lookup_middle by done; simpl.
  rewrite String.eqb_refl, Bool.eqb_reflx, Ef, bool_decide_eq_false_2 by (intros [? ?]; done); done.
Qed.

Definition grown (it : open_item) (d : string) : open_item := mkOpen (oiID it) (oiCall it) (oiBuf it +:+ d) (oiFinal it).

Definition closed (it : open_item) (v : VItem) : open_item := mkOpen (oiID it) (oiCall it) (oiBuf it) (Some v).

Lemma read_delta_mid A it B j d :
  get_num "output_index" j = Some (Z.of_nat (length A)) -> get_str "item_id" j = Some (oiID it) -> oiFinal it = None ->
  get_str "delta" j = Some d -> read_delta (oiCall it) (A ++ it :: B) j = Some (A ++ grown it d :: B).
Proof.
  intros Ei Eid Ef Ed; unfold read_delta; rewrite (named_item_mid _ _ _ _ Ei Eid Ef); simpl; rewrite Ed; simpl.
  unfold grow; rewrite insert_app_r_alt, Nat.sub_diag by lia; done.
Qed.

Lemma read_text_mid key A it B j :
  get_num "output_index" j = Some (Z.of_nat (length A)) -> get_str "item_id" j = Some (oiID it) -> oiFinal it = None ->
  get_str key j = Some (oiBuf it) -> read_text (oiCall it) key (A ++ it :: B) j = Some (A ++ it :: B).
Proof.
  intros Ei Eid Ef Et; unfold read_text; rewrite (named_item_mid _ _ _ _ Ei Eid Ef); simpl; rewrite Et; simpl.
  rewrite String.eqb_refl; done.
Qed.

Lemma read_part_mid A it B j :
  get_num "output_index" j = Some (Z.of_nat (length A)) -> get_str "item_id" j = Some (oiID it) -> oiFinal it = None ->
  oiCall it = false -> get_str "text" (member "part" j) = Some (oiBuf it) -> read_part (A ++ it :: B) j = Some (A ++ it :: B).
Proof.
  intros Ei Eid Ef Ec Et; pose proof (named_item_mid A it B j Ei Eid Ef) as H; rewrite Ec in H.
  unfold read_part; rewrite H; cbn [mbind option_bind].
  rewrite Et; cbn [mbind option_bind].
  rewrite String.eqb_refl; done.
Qed.

Lemma read_done_mid A it B j v :
  get_num "output_index" j = Some (Z.of_nat (length A)) -> view_item (member "item" j) = Some (oiID it, v) -> oiFinal it = None ->
  agrees it v = true -> read_done (A ++ it :: B) j = Some (A ++ closed it v :: B).
Proof.
  intros Ei Ev Ef Ea; unfold read_done; rewrite (output_index_at _ _ Ei); cbn [mbind option_bind]; rewrite Ev; cbn [mbind option_bind].
  rewrite list_lookup_middle by done; cbn [mbind option_bind].
  rewrite String.eqb_refl, Ea, Ef, bool_decide_eq_false_2 by (intros [? ?]; done); simpl.
  rewrite insert_app_r_alt, Nat.sub_diag by lia; done.
Qed.

Lemma read_added_end items j id ty :
  get_num "output_index" j = Some (Z.of_nat (length items)) -> get_str "id" (member "item" j) = Some id ->
  get_str "type" (member "item" j) = Some ty -> read_added items j = Some (items ++ [mkOpen id (String.eqb ty "function_call") "" None]).
Proof.
  intros Ei Eid Et; unfold read_added; rewrite (output_index_at _ _ Ei), Eid, Et; simpl; rewrite Nat.eqb_refl; done.
Qed.

(** ** The state of the builder

    [L] lists the tool items in the order of their first chunk. *)

Definition call_open (p : Z * toolItem) : open_item := mkOpen (tiID (snd p)) true (tiArgs (snd p)) None.

Definition call_view (p : Z * toolItem) : Z * VItem := (fst p, VCall (tiCallID (snd p)) (tiName (snd p)) (tiArgs (snd p))).

Definition msg_items (b : ResponsesStreamBuilder) : list open_item :=
  if rbMessageEmitted b then [mkOpen (rbItemID b) false (rbText b) None] else [].

Definition open_items (b : ResponsesStreamBuilder) (L : list (Z * toolItem)) : list open_item := msg_items b ++ map call_open L.

Record builder_ok (b : ResponsesStreamBuilder) (L : list (Z * toolItem)) : Prop := mkOk {
  bo_keys : NoDup L.*1;
  bo_tools : rbTools b = list_to_map L;
  bo_index : forall p k ti, L !! p = Some (k, ti) -> tiOutIndex ti = Z.of_nat (length (msg_items b) + p) /\ tiAdded ti = true;
  bo_next : rbNextOut b = Z.of_nat (length (msg_items b) + length L);
  bo_text : rbTextAdded b = rbMessageEmitted b;
  bo_emitted : rbMessageEmitted b = negb (String.eqb (rbText b) "")
}.

Section Reads.
Context (ids : nat -> string) (iterate : nat -> list (Z * toolItem) -> list (Z * toolItem)).

(** One event of an open stream. *)
Definition item_event (ty : string) : Prop :=
  forall id items j, read_stream (ROpen id items) [mkREvent ty j] = match read_items items ty j with Some items => Some (ROpen id items) | None => None end.

Lemma read_one id items ty j items' :
  item_event ty -> read_items items ty j = Some items' -> read_stream (ROpen id items) [mkREvent ty j] = Some (ROpen id items').
Proof. intros H E; rewrite H, E; done. Qed.

Lemma read_cons id items e es items' :
  read_stream (ROpen id items) [e] = Some (ROpen id items') -> read_stream (ROpen id items) (e :: es) = read_stream (ROpen id items') es.
Proof. intros H; change (e :: es) with ([e] ++ es); rewrite read_stream_app, H; done. Qed.

Ltac item_event := intros ???; cbn [read_stream read_revent reType rePayload fmap option_fmap option_map]; destruct (read_items _ _ _); reflexivity.

Lemma eqb_app_nonempty a t : t <> "" -> String.eqb (a +:+ t) "" = false.
Proof. intros H; destruct a; [apply String.eqb_neq; exact H | reflexivity]. Qed.

Lemma next_text_reads id text b L :
  builder_ok b L -> rbMessageEmitted b = true \/ L = [] \/ text = "" ->
  let '(es, b') := next_text ids text b in
  read_stream (ROpen id (open_items b L)) es = Some (ROpen id (open_items b' L)) /\ builder_ok b' L
  /\ rbText b' = rbText b +:+ text /\ rbRespID b' = rbRespID b /\ rbModel b' = rbModel b.
Proof.
  intros Hok Hfirst; unfold next_text.
  destruct (String.eqb_spec text "") as [->|Hne]; [rewrite string_app_empty_r; done|].
  destruct Hok as [Hk Ht Hi Hn Ha He]. unfold msg_items in *.
  destruct (rbMessageEmitted b) eqn:Em.
  - split; [|split; [|done]].
    + unfold open_items, msg_items; rewrite Em; simpl app.
      apply read_one; [item_event|].
      apply (read_delta_mid [] (mkOpen (rbItemID b) false (rbText b) None)); reflexivity.
    + split; unfold msg_items; cbn; rewrite ?Em; try done. rewrite eqb_app_nonempty; done.
  - destruct Hfirst as [?|[->|?]]; [done| |done].
    assert (Htext : rbText b = "") by (destruct (rbText b); [done | discriminate]).
    split; [|split; [|done]].
    + unfold open_items, msg_items; rewrite Em, Htext; cbn [rbMessageEmitted rbItemID rbText map app].
      erewrite read_cons; [|apply read_one; [item_event|]; apply (read_added_end []); reflexivity].
      erewrite read_cons; [|apply read_one; [item_event|]; apply (read_part_mid [] (mkOpen (ids (rbDrawn b)) false "" None)); reflexivity].
      apply read_one; [item_event|].
      apply (read_delta_mid [] (mkOpen (ids (rbDrawn b)) false "" None)); reflexivity.
    + split; unfold msg_items; cbn; try done.
      rewrite eqb_app_nonempty; done.
Qed.

Lemma add_call_new tc cs : tcIndex tc ∉ cs.*1 -> add_call tc cs = cs ++ [(tcIndex tc, call_of tc)].
Proof.
  induction cs as [|[i v] cs IH]; simpl; intros H; [done|].
  apply not_elem_of_cons in H as [Hne H]. destruct (Z.eqb_spec i (tcIndex tc)) as [->|_]; [done|]. by rewrite IH.
Qed.

Lemma add_call_old tc cs v cs' :
  tcIndex tc ∉ cs.*1 -> add_call tc (cs ++ (tcIndex tc, v) :: cs') = cs ++ (tcIndex tc, merge_call tc v) :: cs'.
Proof.
  induction cs as [|[i w] cs IH]; simpl; intros H; [by rewrite Z.eqb_refl|].
  apply not_elem_of_cons in H as [Hne H]. destruct (Z.eqb_spec i (tcIndex tc)) as [->|_]; [done|]. by rewrite IH.
Qed.

Lemma update_middle {V} (L1 L2 : list (Z * V)) k x y :
  NoDup (L1 ++ (k, x) :: L2).*1 -> <[k := y]> (list_to_map (L1 ++ (k, x) :: L2) : gmap Z V) = list_to_map (L1 ++ (k, y) :: L2).
Proof.
  intros H. assert (H' : NoDup (L1 ++ (k, y) :: L2).*1) by (rewrite fmap_app in *; exact H).
  rewrite (list_to_map_proper _ ((k, x) :: L1 ++ L2) H), (list_to_map_proper _ ((k, y) :: L1 ++ L2) H')
    by (symmetry; apply Permutation_middle).
  simpl; apply insert_insert_eq.
Qed.

(** The item of a call after one more chunk of it. *)
Definition merged (tc : OpenAIChunkToolCall) (ti : toolItem) : toolItem :=
  mkToolItem (tiID ti) (tiOutIndex ti) (tiArgs ti +:+ cfArguments (tcFunction tc)) true
    (nonempty_or (cfName (tcFunction tc)) (tiName ti)) (nonempty_or (tcID tc) (tiCallID ti)).

Lemma call_view_merged tc ti : call_view (tcIndex tc, merged tc ti) = (tcIndex tc, merge_call tc (snd (call_view (tcIndex tc, ti)))).
Proof. done. Qed.

(** The arguments of one chunk, if it has any. *)
Lemma arguments_read id A B tc ti k :
  tiOutIndex ti = Z.of_nat (length A) ->
  read_stream (ROpen id (A ++ call_open (k, ti) :: B))
    (if String.eqb (cfArguments (tcFunction tc)) "" then [] else [argumentsDelta (merged tc ti) (cfArguments (tcFunction tc))])
  = Some (ROpen id (A ++ call_open (k, merged tc ti) :: B)).
Proof.
  intros Hi; unfold call_open; simpl.
  destruct (String.eqb_spec (cfArguments (tcFunction tc)) "") as [->|Hne]; [by rewrite string_app_empty_r|].
  apply read_one; [item_event|].
  apply (read_delta_mid A (mkOpen (tiID ti) true (tiArgs ti) None)); [|reflexivity..].
  unfold get_num; simpl; by rewrite Hi.
Qed.

Definition put_tool (b : ResponsesStreamBuilder) (k : Z) (ti : toolItem) (next : Z) (drawn : nat) : ResponsesStreamBuilder :=
  mkBuilder (rbRespID b) (rbModel b) (rbStarted b) (rbItemID b) (rbTextAdded b) (rbText b) (<[k := ti]> (rbTools b))
    (rbMessageEmitted b) next drawn.

Lemma open_items_middle b b' L1 x L2 :
  msg_items b' = msg_items b ->
  open_items b' (L1 ++ x :: L2) = (msg_items b ++ map call_open L1) ++ call_open x :: map call_open L2.
Proof. intros E; unfold open_items; rewrite E, map_app, <- app_assoc; done. Qed.

Lemma builder_ok_put_old b L1 ti L2 tc :
  builder_ok b (L1 ++ (tcIndex tc, ti) :: L2) ->
  builder_ok (put_tool b (tcIndex tc) (merged tc ti) (rbNextOut b) (rbDrawn b)) (L1 ++ (tcIndex tc, merged tc ti) :: L2).
Proof.
  intros [Hk Ht Hi Hn Ha He]; split; try done.
  - rewrite fmap_app in *; exact Hk.
  - simpl; rewrite Ht; apply update_middle; done.
  - intros p k ti' E. change (msg_items (put_tool _ _ _ _ _)) with (msg_items b).
    destruct (decide (p = length L1)) as [->|Hne].
    + rewrite list_lookup_middle in E by done; injection E as <- <-; simpl.
      destruct (Hi (length L1) (tcIndex tc) ti) as [? _]; [by rewrite list_lookup_middle|done].
    + apply (Hi p k ti'). rewrite <- E.
      destruct (decide (p < length L1)%nat); [rewrite !lookup_app_l by lia; done|].
      rewrite !lookup_app_r by lia. destruct (p - length L1)%nat eqn:Ep; [lia|done].
  - change (msg_items (put_tool _ _ _ _ _)) with (msg_items b). rewrite length_app in *; exact Hn.
Qed.

(** The item a new index gets. *)
Definition fresh_item (b : ResponsesStreamBuilder) (tc : OpenAIChunkToolCall) : toolItem :=
  mkToolItem (ids (rbDrawn b)) (rbNextOut b) "" false (cfName (tcFunction tc)) (tcID tc).

Lemma builder_ok_put_new b L tc :
  builder_ok b L -> tcIndex tc ∉ L.*1 ->
  builder_ok (put_tool b (tcIndex tc) (merged tc (fresh_item b tc)) (rbNextOut b + 1) (S (rbDrawn b)))
    (L ++ [(tcIndex tc, merged tc (fresh_item b tc))]).
Proof.
  intros [Hk Ht Hi Hn Ha He] Hnew; split; try done.
  - rewrite fmap_app; apply NoDup_app; split; [done|]; split; [|apply NoDup_singleton].
    intros k Hin Hin'; apply list_elem_of_singleton in Hin'; simpl in Hin'; subst; done.
  - simpl; rewrite Ht, list_to_map_snoc by done; done.
  - intros p k ti' E. change (msg_items (put_tool _ _ _ _ _)) with (msg_items b).
    apply lookup_snoc_Some in E as [[_ E]|[-> E]]; [by apply (Hi p k ti')|].
    injection E as <- <-; simpl; rewrite Hn; done.
  - change (msg_items (put_tool _ _ _ _ _)) with (msg_items b). simpl. rewrite Hn, length_app; simpl; lia.
Qed.

Lemma call_view_keys L : (map call_view L).*1 = L.*1.
Proof. induction L as [|[k ti] L IH]; simpl; [done|]. f_equal; exact IH. Qed.

Lemma nonempty_or_same s : nonempty_or s s = s.
Proof. unfold nonempty_or; destruct (String.eqb s ""); done. Qed.

Lemma next_tool_reads id tc b L :
  builder_ok b L ->
  let '(es, b') := next_tool ids tc b in
  exists L', read_stream (ROpen id (open_items b L)) es = Some (ROpen id (open_items b' L')) /\ builder_ok b' L'
  /\ map call_view L' = add_call tc (map call_view L)
  /\ rbText b' = rbText b /\ rbRespID b' = rbRespID b /\ rbModel b' = rbModel b.
Proof.
  intros Hok; unfold next_tool; destruct (rbTools b !! tcIndex tc) as [ti|] eqn:El.
  - rewrite (bo_tools _ _ Hok) in El. apply elem_of_list_to_map in El; [|apply (bo_keys _ _ Hok)].
    apply list_elem_of_split in El as (L1 & L2 & ->).
    destruct (bo_index _ _ Hok (length L1) (tcIndex tc) ti) as [Hidx Hadd]; [by rewrite list_lookup_middle|].
    exists (L1 ++ (tcIndex tc, merged tc ti) :: L2). cbn [tiAdded]. rewrite Hadd; simpl app.
    split; [|split; [exact (builder_ok_put_old b L1 ti L2 tc Hok)|split; [|done]]].
    + rewrite !(open_items_middle b) by done.
      apply (arguments_read id (msg_items b ++ map call_open L1) (map call_open L2) tc ti (tcIndex tc)).
      rewrite length_app, length_map; exact Hidx.
    + rewrite !map_app; symmetry.
      apply (add_call_old tc (map call_view L1) (snd (call_view (tcIndex tc, ti))) (map call_view L2)).
      rewrite call_view_keys. pose proof (bo_keys _ _ Hok) as Hk. rewrite fmap_app in Hk; simpl in Hk.
      apply NoDup_app in Hk as (_ & Hk & _). intros Hin; apply (Hk _ Hin); left.
  - rewrite (bo_tools _ _ Hok) in El. apply not_elem_of_list_to_map in El.
    exists (L ++ [(tcIndex tc, merged tc (fresh_item b tc))]).
    split; [|split; [exact (builder_ok_put_new b L tc Hok El)|split; [|done]]].
    + rewrite (open_items_middle b) by done. simpl map. cbn [tiAdded app].
      erewrite read_cons.
      2:{ apply read_one; [item_event|]. apply read_added_end; [|reflexivity..].
          unfold get_num; simpl. rewrite (bo_next _ _ Hok). unfold open_items; by rewrite length_app, length_map. }
      apply (arguments_read id (open_items b L) [] tc (fresh_item b tc) (tcIndex tc)).
      simpl. rewrite (bo_next _ _ Hok). unfold open_items; by rewrite length_app, length_map.
    + rewrite map_app, add_call_new by (rewrite call_view_keys; done).
      unfold call_view, call_of; simpl. rewrite !nonempty_or_same; done.
Qed.

Lemma next_tools_reads id tcs b L :
  builder_ok b L ->
  let '(es, b') := next_tools ids tcs b in
  exists L', read_stream (ROpen id (open_items b L)) es = Some (ROpen id (open_items b' L')) /\ builder_ok b' L'
  /\ map call_view L' = fold_left (fun cs tc => add_call tc cs) tcs (map call_view L)
  /\ rbText b' = rbText b /\ rbRespID b' = rbRespID b /\ rbModel b' = rbModel b.
Proof.
  revert b L; induction tcs as [|tc tcs IH]; intros b L Hok; simpl; [exists L; done|].
  pose proof (next_tool_reads id tc b L Hok) as H. destruct (next_tool ids tc b) as [e1 b1].
  destruct H as (L1 & Hr & Hok1 & Hv & Et & Ei & Em). specialize (IH b1 L1 Hok1).
  destruct (next_tools ids tcs b1) as [e2 b2]. destruct IH as (L2 & Hr2 & Hok2 & Hv2 & Et2 & Ei2 & Em2).
  exists L2. rewrite read_stream_app, Hr, Hr2, Hv2, Hv; split_and!; try done; congruence.
Qed.

Definition add_calls (tcs : list OpenAIChunkToolCall) (cs : list (Z * VItem)) : list (Z * VItem) :=
  fold_left (fun cs tc => add_call tc cs) tcs cs.

Lemma Next_reads id c b L :
  builder_ok b L -> rbMessageEmitted b = true \/ L = [] \/ chunk_text c = "" ->
  let '(es, b') := Next ids c b in
  exists L', read_stream (ROpen id (open_items b L)) es = Some (ROpen id (open_items b' L')) /\ builder_ok b' L'
  /\ map call_view L' = add_calls (chunk_tools c) (map call_view L)
  /\ rbText b' = rbText b +:+ chunk_text c /\ rbRespID b' = rbRespID b /\ rbModel b' = rbModel b.
Proof.
  intros Hok Hc; unfold Next, chunk_text, chunk_tools in *.
  destruct (chChoices c) as [|ch chs]; [exists L; rewrite string_app_empty_r; done|].
  pose proof (next_text_reads id _ b L Hok Hc) as H. destruct (next_text ids (dContent (ccDelta ch)) b) as [e1 b1].
  destruct H as (Hr & Hok1 & Et & Ei & Em). pose proof (next_tools_reads id (dToolCalls (ccDelta ch)) b1 L Hok1) as H.
  destruct (next_tools ids (dToolCalls (ccDelta ch)) b1) as [e2 b2]. destruct H as (L2 & Hr2 & Hok2 & Hv2 & Et2 & Ei2 & Em2).
  exists L2. rewrite read_stream_app, Hr, Hr2, Hv2; split_and!; try done; congruence.
Qed.

Lemma app_empty a b : a +:+ b = "" -> a = "" /\ b = "".
Proof. destruct a; [done|discriminate]. Qed.

(** What the rest of the stream may carry: the message is open, nothing was sent
    and text comes first, or no text follows. *)
Definition text_ok (b : ResponsesStreamBuilder) (L : list (Z * toolItem)) (chunks : list OpenAIChunk) : Prop :=
  rbMessageEmitted b = true \/ (L = [] /\ text_first chunks = true) \/ spec_text chunks = "".

Lemma text_ok_head b L c chunks :
  text_ok b L (c :: chunks) -> rbMessageEmitted b = true \/ L = [] \/ chunk_text c = "".
Proof. intros [?|[[? _]|H]]; [by left|by right; left|]. apply app_empty in H as [H _]; by right; right. Qed.

Lemma text_ok_next b L b' L' c chunks :
  text_ok b L (c :: chunks) -> builder_ok b L -> builder_ok b' L' -> rbText b' = rbText b +:+ chunk_text c ->
  map call_view L' = add_calls (chunk_tools c) (map call_view L) -> text_ok b' L' chunks.
Proof.
  intros Ht Hok Hok' Et Hv. destruct (String.eqb_spec (chunk_text c) "") as [Ee|Hne].
  2:{ left. rewrite (bo_emitted _ _ Hok'), Et, eqb_app_nonempty; done. }
  destruct Ht as [H|[[-> H]|H]].
  - left. rewrite (bo_emitted _ _ Hok'), Et, Ee, string_app_empty_r, <- (bo_emitted _ _ Hok); done.
  - simpl in H. rewrite (proj2 (String.eqb_eq _ _) Ee) in H. right.
    destruct (chunk_tools c); [left; simpl in Hv; split; [|done]; by destruct L'|right; by apply String.eqb_eq].
  - right; right. by apply app_empty in H as [_ H].
Qed.

Lemma next_all_reads id chunks b L :
  builder_ok b L -> text_ok b L chunks ->
  let '(es, b') := next_all ids chunks b in
  exists L', read_stream (ROpen id (open_items b L)) es = Some (ROpen id (open_items b' L')) /\ builder_ok b' L'
  /\ map call_view L' = add_calls (flat_map chunk_tools chunks) (map call_view L)
  /\ rbText b' = rbText b +:+ spec_text chunks /\ rbRespID b' = rbRespID b /\ rbModel b' = rbModel b.
Proof.
  revert b L; induction chunks as [|c chunks IH]; intros b L Hok Ht; simpl.
  { exists L. unfold spec_text; simpl; rewrite string_app_empty_r; done. }
  pose proof (Next_reads id c b L Hok (text_ok_head _ _ _ _ Ht)) as H. destruct (Next ids c b) as [e1 b1].
  destruct H as (L1 & Hr & Hok1 & Hv & Et & Ei & Em).
  specialize (IH b1 L1 Hok1 (text_ok_next _ _ _ _ _ _ Ht Hok Hok1 Et Hv)).
  destruct (next_all ids chunks b1) as [e2 b2]. destruct IH as (L2 & Hr2 & Hok2 & Hv2 & Et2 & Ei2 & Em2).
  exists L2. rewrite read_stream_app, Hr, Hr2, Hv2, Hv. split_and!; try done; try congruence.
  - unfold add_calls; by rewrite fold_left_app.
  - rewrite Et2, Et, <- string_app_assoc; done.
Qed.

(** ** The tool items in order *)

Hypothesis iterate_perm : forall n l, iterate n l ≡ₚ l.

Lemma filter_index (n : nat) (L : list (Z * toolItem)) (oi : nat) :
  (forall p x, L !! p = Some x -> tiOutIndex (snd x) = Z.of_nat (n + p)) ->
  List.filter (fun p => tiOutIndex (snd p) =? Z.of_nat oi) L
  = if (oi <? n)%nat then [] else match L !! (oi - n)%nat with Some x => [x] | None => [] end.
Proof.
  revert n; induction L as [|x L IH]; intros n H; [by destruct (oi <? n)%nat|].
  cbn [List.filter]. rewrite (IH (S n)) by (intros p y E; rewrite (H (S p) y E); f_equal; lia).
  rewrite (H 0%nat x eq_refl), Nat.add_0_r.
  destruct (Z.eqb_spec (Z.of_nat n) (Z.of_nat oi)) as [E|E].
  - apply Nat2Z.inj in E as ->. rewrite Nat.ltb_irrefl, Nat.sub_diag, (proj2 (Nat.ltb_lt oi (S oi))) by lia; done.
  - destruct (Nat.ltb_spec oi n), (Nat.ltb_spec oi (S n)); try lia; [done|].
    replace (oi - n)%nat with (S (oi - S n)) by lia; done.
Qed.

Lemma flat_map_nth {A} (f : nat -> list A) (n : nat) (l : list A) :
  (forall p x, l !! p = Some x -> f (n + p)%nat = [x]) -> flat_map f (seq n (length l)) = l.
Proof.
  revert n; induction l as [|x l IH]; intros n H; [done|]. simpl.
  rewrite <- (Nat.add_0_r n) at 1. rewrite (H 0%nat x eq_refl); simpl; f_equal. apply IH.
  intros p y E. rewrite <- (H (S p) y E); f_equal; lia.
Qed.

Lemma flat_map_none {A B} (f : A -> list B) l : (forall x, x ∈ l -> f x = []) -> flat_map f l = [].
Proof. induction l as [|x l IH]; intros H; simpl; [done|]. rewrite H by left. apply IH; intros; apply H; by right. Qed.

Lemma filter_perm {A} (f : A -> bool) l l' : l ≡ₚ l' -> List.filter f l ≡ₚ List.filter f l'.
Proof. induction 1; simpl; repeat case_match; by econstructor || done || (etrans; eassumption) || eauto. Qed.

Lemma orderedToolItems_ok b L : builder_ok b L -> orderedToolItems iterate b = L.*2.
Proof.
  intros [Hk Ht Hi Hn _ _]; unfold orderedToolItems. rewrite Hn, Nat2Z.id, seq_app, flat_map_app; simpl.
  set (f := fun oi : nat => _).
  assert (Hf : forall oi, f oi = map snd (if (oi <? length (msg_items b))%nat then []
                       else match L !! (oi - length (msg_items b))%nat with Some x => [x] | None => [] end)).
  { intros oi; unfold f; f_equal.
    assert (Hp : iterate oi (map_to_list (rbTools b)) ≡ₚ L) by (rewrite iterate_perm, Ht; by apply map_to_list_to_map).
    pose proof (filter_perm (fun p => tiOutIndex (snd p) =? Z.of_nat oi) _ _ Hp) as Hfil.
    rewrite (filter_index (length (msg_items b)) L) in Hfil by (intros p [k ti] E; apply (Hi p k ti E)).
    destruct (oi <? _)%nat; [by apply Permutation_nil_r in Hfil|].
    destruct (L !! _); [by apply Permutation_singleton_r in Hfil|by apply Permutation_nil_r in Hfil]. }
  rewrite flat_map_none.
  2:{ intros x Hx; rewrite Hf. apply elem_of_seq in Hx. by rewrite (proj2 (Nat.ltb_lt _ _)) by lia. }
  rewrite <- (length_fmap snd L). apply flat_map_nth. intros p x E.
  rewrite Hf, (proj2 (Nat.ltb_ge _ _)) by lia. rewrite Nat.add_comm, Nat.add_sub.
  rewrite list_lookup_fmap in E. destruct (L !! p) as [y|]; [simpl in E; injection E as <-; done|done].
Qed.

(** ** The end of the stream *)

Definition call_closed (p : Z * toolItem) : open_item := closed (call_open p) (snd (call_view p)).

Lemma view_call_json ti : view_item (call_json ti) = Some (tiID ti, VCall (tiCallID ti) (tiName ti) (tiArgs ti)).
Proof. reflexivity. Qed.

Lemma view_message_json id t : view_item (message_json id t) = Some (id, VMessage t).
Proof. reflexivity. Qed.

Lemma tools_done_read id L : forall A B,
  (forall p k ti, L !! p = Some (k, ti) -> tiOutIndex ti = Z.of_nat (length A + p)) ->
  read_stream (ROpen id (A ++ map call_open L ++ B)) (flat_map tool_done L.*2) = Some (ROpen id (A ++ map call_closed L ++ B)).
Proof.
  induction L as [|[k ti] L IH]; intros A B Hi; [done|].
  assert (H0 : tiOutIndex ti = Z.of_nat (length A)) by (rewrite (Hi 0%nat k ti eq_refl); f_equal; lia).
  cbn [map app fmap list_fmap flat_map snd tool_done].
  erewrite read_cons.
  2:{ apply read_one; [item_event|]. apply (read_text_mid "arguments" A (call_open (k, ti))); try reflexivity.
      unfold get_num; simpl; by rewrite H0. }
  erewrite read_cons.
  2:{ apply read_one; [item_event|]. apply (read_done_mid A (call_open (k, ti)) _ _ (snd (call_view (k, ti)))); try reflexivity.
      - unfold get_num; simpl; by rewrite H0.
      - simpl; apply String.eqb_refl. }
  change (closed (call_open (k, ti)) (snd (call_view (k, ti))) :: map call_open L ++ B)
    with ([call_closed (k, ti)] ++ map call_open L ++ B).
  rewrite app_assoc, (IH (A ++ [call_closed (k, ti)])); [by rewrite <- app_assoc|].
  intros p k' ti' E. rewrite (Hi (S p) k' ti' E), length_app; simpl; f_equal; lia.
Qed.

(** The completed items: the message, then the calls. *)
Definition msg_closed (b : ResponsesStreamBuilder) : list open_item :=
  if rbMessageEmitted b then [closed (mkOpen (rbItemID b) false (rbText b) None) (VMessage (rbText b))] else [].

Definition finish_text (b : ResponsesStreamBuilder) : list ResponsesEvent :=
  (if rbTextAdded b then
     [rev_event "response.output_text.done"
        [("item_id", JStr (rbItemID b)); ("output_index", JNum 0); ("content_index", JNum 0); ("text", JStr (rbText b))];
      rev_event "response.content_part.done"
        [("item_id", JStr (rbItemID b)); ("output_index", JNum 0); ("content_index", JNum 0);
         ("part", JObj [("type", JStr "output_text"); ("text", JStr (rbText b))])]]
   else []) ++ (if rbMessageEmitted b then [messageItemDone b] else []).

Lemma finish_text_read id b L :
  builder_ok b L ->
  read_stream (ROpen id (open_items b L)) (finish_text b) = Some (ROpen id (msg_closed b ++ map call_open L)).
Proof.
  intros Hok; unfold finish_text, open_items, msg_items, msg_closed; rewrite (bo_text _ _ Hok).
  destruct (rbMessageEmitted b); [|done]. cbn [app].
  set (it := mkOpen (rbItemID b) false (rbText b) None).
  erewrite read_cons; [|apply read_one; [item_event|]; apply (read_text_mid "text" [] it); reflexivity].
  erewrite read_cons; [|apply read_one; [item_event|]; apply (read_part_mid [] it); reflexivity].
  apply read_one; [item_event|]. apply (read_done_mid [] it _ _ (VMessage (rbText b))); try reflexivity.
  simpl; apply String.eqb_refl.
Qed.

Definition output_views (b : ResponsesStreamBuilder) (L : list (Z * toolItem)) : list (string * VItem) :=
  (if rbMessageEmitted b then [(rbItemID b, VMessage (rbText b))] else [])
  ++ map (fun p => (tiID (snd p), snd (call_view p))) L.

Lemma final_items_views b L : builder_ok b L -> mapM view_item (final_items iterate b) = Some (output_views b L).
Proof.
  intros Hok; unfold final_items, output_views; rewrite (orderedToolItems_ok _ _ Hok).
  apply mapM_Some, Forall2_app; [by destruct (rbMessageEmitted b); constructor|].
  clear Hok. induction L as [|[k ti] L IH]; constructor; done.
Qed.

(** A nil slice only when there is nothing to say. *)
Lemma finalOutput_array b L : builder_ok b L -> output_views b L <> [] -> finalOutput iterate b = JArr (final_items iterate b).
Proof.
  intros Hok Hne. unfold finalOutput. pose proof (final_items_views b L Hok) as Hv.
  destruct (final_items iterate b) as [|x l] eqn:E; [|done]. destruct (output_views b L); [done|discriminate Hv].
Qed.

Lemma read_output_ok b L resp :
  builder_ok b L -> member "output" resp = JArr (final_items iterate b) ->
  read_output (msg_closed b ++ map call_closed L) resp = Some (output_views b L).*2.
Proof.
  intros Hok E; unfold read_output; rewrite E, (final_items_views _ _ Hok); cbn [mbind option_bind].
  rewrite bool_decide_eq_true_2, bool_decide_eq_true_2; [done|..]; unfold output_views, msg_closed;
    destruct (rbMessageEmitted b); rewrite !fmap_app || rewrite app_nil_l; rewrite ?map_app, !map_map; simpl;
    try f_equal; rewrite <- ?list_fmap_compose; rewrite ?map_map; done.
Qed.

Definition final_status (finishReason : string) : string :=
  if bool_decide (finishReason ∈ ["length"; "content_filter"]) then "incomplete" else "completed".

Lemma Finish_reads usage reason model b L :
  builder_ok b L -> output_views b L <> [] ->
  read_stream (ROpen (rbRespID b) (open_items b L)) (Finish iterate usage reason model b)
  = Some (RDone (rbRespID b) (final_status reason) (nonempty_or model (rbModel b)) (output_views b L).*2).
Proof.
  intros Hok Hne; unfold Finish. rewrite app_assoc, (finalOutput_array b L Hok Hne). fold (finish_text b).
  rewrite read_stream_app, (finish_text_read _ _ _ Hok), read_stream_app, (orderedToolItems_ok _ _ Hok).
  rewrite <- (app_nil_r (map call_open L)), (tools_done_read _ L (msg_closed b) []).
  2:{ intros p k ti E. rewrite (proj1 (bo_index _ _ Hok p k ti E)). unfold msg_items, msg_closed. by destruct (rbMessageEmitted b). }
  rewrite app_nil_r.
  cbn [read_stream read_revent rev_event reType rePayload].
  set (resp := member "response" _).
  change (get_str "id" resp) with (Some (rbRespID b)).
  change (get_str "status" resp) with (Some (final_status reason)).
  change (get_str "model" resp) with (Some (nonempty_or model (rbModel b))).
  cbn [mbind option_bind]. rewrite (read_output_ok b L resp Hok eq_refl); cbn [mbind option_bind].
  rewrite String.eqb_refl; done.
Qed.

(** A whole stream: its events up to [Finish], then the last ones. *)
Lemma stream_reads drawn respID model chunks usage reason model' :
  text_first chunks = true -> spec_output chunks <> [] ->
  read_stream RBefore (responses_stream ids iterate drawn respID model chunks usage reason model')
  = Some (RDone (nonempty_or respID drawn) (final_status reason) (nonempty_or model' model) (spec_output chunks)).
Proof.
  intros Ht Hne; unfold responses_stream, Start; cbn [NewResponsesStreamBuilder rbStarted].
  set (b0 := mkBuilder _ _ _ _ _ _ _ _ _ _). set (e0 := rev_event _ _).
  assert (Hid : rbRespID b0 = nonempty_or respID drawn) by (unfold b0, nonempty_or; simpl; by destruct (String.eqb respID "")).
  assert (H0 : builder_ok b0 []) by (split; try done; constructor).
  pose proof (next_all_reads (rbRespID b0) chunks b0 [] H0 (or_intror (or_introl (conj eq_refl Ht)))) as H.
  destruct (next_all ids chunks b0) as [e1 b1]. destruct H as (L & Hr & Hok & Hv & Et & Ei & Em).
  assert (Hout : (output_views b1 L).*2 = spec_output chunks).
  { unfold output_views, spec_output. rewrite (bo_emitted _ _ Hok), Et; simpl app.
    change ("" +:+ spec_text chunks) with (spec_text chunks). rewrite fmap_app. f_equal; [by destruct (String.eqb (spec_text chunks) "")|].
    change (spec_calls chunks) with (add_calls (flat_map chunk_tools chunks) (map call_view [])). rewrite <- Hv.
    rewrite <- !list_fmap_compose; done. }
  change ([e0] ++ e1 ++ Finish iterate usage reason model' b1) with (e0 :: e1 ++ Finish iterate usage reason model' b1).
  cbn [read_stream]. change (read_revent RBefore e0) with (Some (ROpen (rbRespID b0) (open_items b0 []))); cbv iota beta.
  rewrite read_stream_app, Hr, <- Ei, (Finish_reads _ _ _ _ _ Hok) by (intros E; apply Hne; by rewrite <- Hout, E).
  by rewrite Ei, Hid, Em, Hout.
Qed.
End Reads.

(** ** A client of the stream *)

(** C4: A streamed response, read by a client of the Responses protocol: when the chunks
    carry some text or a tool call and no tool call comes before the first text, every event is in place
    (indices in order, ids that agree, deltas that add up to the done events, every item done before
    the end) and the output is the text of the chunks followed by the calls in
    the order of their first appearance, each with its last id and name and all
    of its arguments, whatever order the map of the tool items is visited in.  The text and the
    calls are those of the first choice of each chunk; reasoning is not part of the output.
    Both conditions are needed: [calls_before_text_lost], [empty_output_is_null]. *)
Theorem responses_stream_read ids iterate (Hp : forall n l, iterate n l ≡ₚ l) drawn respID model chunks usage reason model' :
  text_first chunks = true -> spec_output chunks <> [] ->
  read_stream RBefore (responses_stream ids iterate drawn respID model chunks usage reason model')
  = Some (RDone (nonempty_or respID drawn) (final_status reason) (nonempty_or model' model) (spec_output chunks)).
Proof. apply stream_reads; exact Hp. Qed.

Definition plain_chunk (content : string) (tools : list OpenAIChunkToolCall) : OpenAIChunk :=
  mkChunk "c" "chat.completion.chunk" "gpt" [mkChoice 0 (mkDelta "" content "" tools) None] None.

Definition tool_chunk (i : Z) (id name args : string) : OpenAIChunkToolCall := mkChunkTool i id "function" (mkChunkFn name args).

Definition zero_usage : OpenAIUsage := mkUsage 0 0 0 None None 0.

Lemma responses_stream_read_witness :
  read_stream RBefore
    (responses_stream (fun _ => "msg") (fun _ l => rev l) "r0" "" "gpt"
       [plain_chunk "let me " []; plain_chunk "look" [tool_chunk 1 "call_b" "ls" "{"; tool_chunk 0 "call_a" "cat" "{}"];
        plain_chunk "" [tool_chunk 1 "" "" "}"]] zero_usage "tool_calls" "")
  = Some (RDone "r0" "completed" "gpt" [VMessage "let me look"; VCall "call_b" "ls" "{}"; VCall "call_a" "cat" "{}"]).
Proof. apply (responses_stream_read (fun _ => "msg") (fun _ l => rev l)); [intros n l; symmetry; apply Permutation_rev | reflexivity | discriminate]. Defined.

(** *** The stream and the plain response *)

Definition output_view (it : ResponsesOutputItem) : VItem :=
  if String.eqb (roType it) "message" then VMessage (foldr String.append "" (map snd (roContent it)))
  else VCall (roCallID it) (roName it) (roArguments it).

(** The calls of the assembled message. *)
Definition assembled_call (p : Z * VItem) : option OpenAIToolCall :=
  match snd p with VCall c n a => Some (mkToolCall c "function" (mkFn n a)) | VMessage _ => None end.

Definition assembled (chunks : list OpenAIChunk) (reason : string) (usage : OpenAIUsage) : OpenAIResponse :=
  mkOResponse "c" "chat.completion" "gpt"
    [mkOChoice 0 (mkMsg "assistant" (JStr (spec_text chunks)) "" (omap assembled_call (spec_calls chunks)) "") reason] usage.

Lemma call_items_views ids n calls :
  map output_view (call_items ids n calls) = map (fun tc => VCall (otID tc) (fnName (otFunction tc)) (fnArguments (otFunction tc))) calls.
Proof. revert n; induction calls as [|tc calls IH]; intros n; simpl; [done|]. by rewrite IH. Qed.

Definition is_call (v : VItem) : Prop := match v with VCall _ _ _ => True | VMessage _ => False end.

Lemma add_call_calls tc cs : Forall is_call cs.*2 -> Forall is_call (add_call tc cs).*2.
Proof.
  induction cs as [|[i v] cs IH]; simpl; intros H; [repeat constructor|].
  inversion_clear H. destruct (i =? tcIndex tc); constructor; simpl; auto. by destruct v.
Qed.

Lemma spec_calls_calls chunks : Forall is_call (spec_calls chunks).*2.
Proof.
  unfold spec_calls. generalize (flat_map chunk_tools chunks) as tcs. intros tcs.
  assert (H : forall cs, Forall is_call cs.*2 -> Forall is_call (fold_left (fun cs tc => add_call tc cs) tcs cs).*2).
  { induction tcs as [|tc tcs IH]; intros cs Hc; simpl; [done|]. apply IH, add_call_calls, Hc. }
  apply H; constructor.
Qed.

Lemma assembled_views cs :
  Forall is_call cs.*2 ->
  map (fun tc => VCall (otID tc) (fnName (otFunction tc)) (fnArguments (otFunction tc))) (omap assembled_call cs) = cs.*2.
Proof.
  induction cs as [|[i v] cs IH]; simpl; intros H; [done|]. inversion_clear H as [|? ? Hv H'].
  destruct v as [t|c n a]; [done|]. simpl. f_equal. apply IH, H'.
Qed.

Lemma final_status_agrees reason : final_status reason = default "completed" (finishReasonToResponsesStatus reason).
Proof.
  unfold final_status, finishReasonToResponsesStatus.
  destruct (bool_decide (reason ∈ ["length"; "content_filter"])) eqn:E.
  - apply bool_decide_eq_true in E. rewrite bool_decide_eq_false_2; [done|]. set_solver.
  - by destruct (bool_decide (reason ∈ ["stop"; "tool_calls"])).
Qed.

(** Streaming does not change the answer: what a client reads from the stream of a
    chunk sequence has the status and the items (message, then calls) that
    [OpenAIToResponses] gives for the message those chunks add up to, unless that is empty. *)
Theorem stream_agrees_with_response sprint ids ids' iterate (Hp : forall n l, iterate n l ≡ₚ l) drawn respID model chunks usage reason :
  text_first chunks = true -> spec_output chunks <> [] ->
  let plain := OpenAIToResponses sprint ids' (nonempty_or respID drawn) (assembled chunks reason usage) model in
  read_stream RBefore (responses_stream ids iterate drawn respID model chunks usage reason "")
  = Some (RDone (rpID plain) (rpStatus plain) (rpModel plain) (map output_view (rpOutput plain))).
Proof.
  intros Ht Hne plain. rewrite (stream_reads ids iterate Hp) by done. unfold plain, OpenAIToResponses; cbn.
  rewrite <- final_status_agrees. do 2 f_equal. unfold spec_output.
  pose proof (assembled_views _ (spec_calls_calls chunks)) as Hc.
  destruct (String.eqb (spec_text chunks) ""); simpl; rewrite call_items_views, Hc; [done|].
  unfold output_view; simpl. by rewrite string_app_empty_r.
Qed.

Lemma stream_agrees_with_response_witness :
  read_stream RBefore
    (responses_stream (fun _ => "msg") (fun _ l => l) "r0" "" "gpt"
       [plain_chunk "hi" [tool_chunk 0 "call_a" "cat" "{}"]] zero_usage "length" "")
  = Some (RDone "r0" "incomplete" "gpt" [VMessage "hi"; VCall "call_a" "cat" "{}"]).
Proof.
  apply (stream_agrees_with_response (fun _ => "") (fun _ => "msg") (fun _ => "m") (fun _ l => l) (fun _ _ => Permutation_refl _)
           "r0" "" "gpt" [plain_chunk "hi" [tool_chunk 0 "call_a" "cat" "{}"]] zero_usage "length"); [reflexivity|discriminate].
Defined.

(** *** Findings *)

(** Text after tool calls: the message takes output index 0 although the first
    call has it, the next index starts again at 1, and every call from the second
    on has no done events and is missing from the final output. *)
Example calls_before_text_lost :
  let chunks := [plain_chunk "" [tool_chunk 0 "call_a" "cat" "{}"; tool_chunk 1 "call_b" "ls" "{}"]; plain_chunk "done" []] in
  let b := snd (next_all (fun _ => "msg") chunks (NewResponsesStreamBuilder "r0" "" "gpt")) in
  spec_output chunks = [VMessage "done"; VCall "call_a" "cat" "{}"; VCall "call_b" "ls" "{}"]
  /\ map view_item (final_items (fun _ l => l) b)
     = [Some ("msg", VMessage "done"); Some ("msg", VCall "call_a" "cat" "{}")]
  /\ read_stream RBefore (responses_stream (fun _ => "msg") (fun _ l => l) "r0" "" "gpt" chunks zero_usage "tool_calls" "") = None.
Proof. vm_compute; auto. Qed.

(** A response without text and calls (an empty completion) ends with an output that is [null]
    and not an empty array, which a client that expects the array refuses. *)
Theorem empty_output_is_null :
  let es := responses_stream (fun _ => "msg") (fun _ l => l) "r0" "" "gpt" [plain_chunk "" []] zero_usage "stop" "" in
  (fun e => (reType e, member "output" (member "response" (rePayload e)))) <$> last es = Some ("response.completed", JNull) /\
  read_stream RBefore es = None.
Proof. vm_compute. by split. Qed.

(** A message whose content is an array of parts reaches the model as the decimal
    bytes of the array, whatever text the parts have. *)
Lemma array_content_is_dumped parse raw parts :
  raw <> "" -> parse raw = Some (JArr parts) -> is_Some (as_slice decode_part (JArr parts)) ->
  rawContentToAny parse raw = JStr (byte_dump raw).
Proof.
  intros Hne Hp [v Hv]; unfold rawContentToAny. rewrite (proj2 (String.eqb_neq _ _) Hne), Hp, Hv; done.
Qed.

Example empty_array_content : rawContentToAny (fun _ => Some (JArr [])) "[]" = JStr "[91 93]".
Proof. rewrite (array_content_is_dumped _ _ []); [vm_compute; reflexivity | done | done | by eexists]. Qed.
