(* ===== verification/Pool.v ===== *)
(** * The worker pool: [internal/worker/pool.go]

    Goroutines interleave, so the pool is a transition system: one step per
    operation of a goroutine on a shared object (the closed flag, the queue
    channel, the overflow channel).  [submitters] are the calls of [TrySubmit] that
    have not returned; a worker is idle, running a task or gone; a detached
    goroutine runs its task and, when it is tracked, then takes a token from
    [overflow].  [exec] computes one step; a schedule is a list of actions. *)

From S2P Require Import Prelude.

Section Pool.
Context {task : Type}.

(** ** State *)

(** A [TrySubmit] after its check of the closed flag, and after a full queue;
    [submit]: the caller is [Submit], which drops a task it gets back. *)
Inductive submitter :=
  | Sending (submit : bool) (t : task)
  | Overflowing (submit : bool) (t : task).

Inductive goroutine :=
  | Detached (t : task)
  | Tracked (t : task)
  | Releasing.

Record Pool := mkPool {
  pWorkers : nat; pBuffer : nat; pOverflowCap : nat;
  queue : list task; running : list task; overflow : nat;
  closed : bool; chClosed : bool; exited : nat;
  submitters : list submitter; goroutines : list goroutine;
  dropped : Z; spilled : Z;
  finished : list task; returned : list task; lost : list task
}.

(** The sizes are Go ints; a pool has at least one worker and one queue slot. *)
Definition NewPool (workerCount bufferSize overflowCap : Z) : Pool :=
  let workerCount := if workerCount <=? 0 then 1 else workerCount in
  let bufferSize := if bufferSize <=? 0 then 1 else bufferSize in
  let overflowCap := if overflowCap <? 0 then 0 else overflowCap in
  mkPool (Z.to_nat workerCount) (Z.to_nat bufferSize) (Z.to_nat overflowCap) [] [] 0 false false 0 [] [] 0 0 [] [] [].

Definition Dropped (p : Pool) : Z := dropped p.
Definition Spilled (p : Pool) : Z := spilled p.
Definition Depth (p : Pool) : nat := (length (queue p) + overflow p)%nat.

(** ** Updates *)

Definition set_queue (q : list task) (p : Pool) : Pool :=
  mkPool (pWorkers p) (pBuffer p) (pOverflowCap p) q (running p) (overflow p) (closed p) (chClosed p) (exited p)
    (submitters p) (goroutines p) (dropped p) (spilled p) (finished p) (returned p) (lost p).

Definition set_running (r : list task) (p : Pool) : Pool :=
  mkPool (pWorkers p) (pBuffer p) (pOverflowCap p) (queue p) r (overflow p) (closed p) (chClosed p) (exited p)
    (submitters p) (goroutines p) (dropped p) (spilled p) (finished p) (returned p) (lost p).

Definition set_overflow (n : nat) (p : Pool) : Pool :=
  mkPool (pWorkers p) (pBuffer p) (pOverflowCap p) (queue p) (running p) n (closed p) (chClosed p) (exited p)
    (submitters p) (goroutines p) (dropped p) (spilled p) (finished p) (returned p) (lost p).

Definition set_submitters (l : list submitter) (p : Pool) : Pool :=
  mkPool (pWorkers p) (pBuffer p) (pOverflowCap p) (queue p) (running p) (overflow p) (closed p) (chClosed p) (exited p)
    l (goroutines p) (dropped p) (spilled p) (finished p) (returned p) (lost p).

Definition set_goroutines (l : list goroutine) (p : Pool) : Pool :=
  mkPool (pWorkers p) (pBuffer p) (pOverflowCap p) (queue p) (running p) (overflow p) (closed p) (chClosed p) (exited p)
    (submitters p) l (dropped p) (spilled p) (finished p) (returned p) (lost p).

Definition finish (t : task) (p : Pool) : Pool :=
  mkPool (pWorkers p) (pBuffer p) (pOverflowCap p) (queue p) (running p) (overflow p) (closed p) (chClosed p) (exited p)
    (submitters p) (goroutines p) (dropped p) (spilled p) (t :: finished p) (returned p) (lost p).

(** [TrySubmit] answers false: the task is the caller's again, and [Submit] drops it. *)
Definition hand_back (submit : bool) (t : task) (p : Pool) : Pool :=
  mkPool (pWorkers p) (pBuffer p) (pOverflowCap p) (queue p) (running p) (overflow p) (closed p) (chClosed p) (exited p)
    (submitters p) (goroutines p) (if submit then dropped p + 1 else dropped p) (spilled p + 1) (finished p)
    (if submit then returned p else t :: returned p) (if submit then t :: lost p else lost p).

Definition set_closed (p : Pool) : Pool :=
  mkPool (pWorkers p) (pBuffer p) (pOverflowCap p) (queue p) (running p) (overflow p) true (chClosed p) (exited p)
    (submitters p) (goroutines p) (dropped p) (spilled p) (finished p) (returned p) (lost p).

Definition close_ch (p : Pool) : Pool :=
  mkPool (pWorkers p) (pBuffer p) (pOverflowCap p) (queue p) (running p) (overflow p) (closed p) true (exited p)
    (submitters p) (goroutines p) (dropped p) (spilled p) (finished p) (returned p) (lost p).

Definition exit_worker (p : Pool) : Pool :=
  mkPool (pWorkers p) (pBuffer p) (pOverflowCap p) (queue p) (running p) (overflow p) (closed p) (chClosed p) (S (exited p))
    (submitters p) (goroutines p) (dropped p) (spilled p) (finished p) (returned p) (lost p).

(** A new goroutine. *)
Definition go (g : goroutine) (p : Pool) : Pool := set_goroutines (goroutines p ++ [g]) p.

Definition runDetached (t : task) (p : Pool) : Pool := go (Detached t) p.
Definition runDetachedTracked (t : task) (p : Pool) : Pool := go (Tracked t) p.

(** ** Operations *)

(** [TrySubmit] and [Submit] up to the check of the closed flag. *)
Definition TrySubmit (submit : bool) (t : task) (p : Pool) : Pool :=
  if closed p then runDetached t p else set_submitters (submitters p ++ [Sending submit t]) p.

(** [send]: on a closed channel it panics and recovers. *)
Definition send (t : task) (p : Pool) : option Pool :=
  if chClosed p then Some (runDetachedTracked t p)
  else if (length (queue p) <? pBuffer p)%nat then Some (set_queue (queue p ++ [t]) p)
  else None.

(** The rest of [TrySubmit] after a full queue: the send on [overflow] goes into its buffer when
    there is room; without, it is handed to a goroutine that waits to receive, which an
    unbuffered channel ([overflowCap] 0) can have ([rendezvous]), or the task goes back.
    A buffered channel has no waiting receiver when its buffer is full. *)
Definition try_overflow (submit : bool) (t : task) (p : Pool) : Pool :=
  if (overflow p <? pOverflowCap p)%nat then runDetachedTracked t (set_overflow (S (overflow p)) p)
  else hand_back submit t p.

(** The send of submitter [i] meets the receive that goroutine [j] waits in. *)
Definition rendezvous (i j : nat) (p : Pool) : option Pool :=
  match submitters p !! i, goroutines p !! j, pOverflowCap p with
  | Some (Overflowing _ t), Some Releasing, O =>
      Some (runDetachedTracked t (set_submitters (delete i (submitters p)) (set_goroutines (delete j (goroutines p)) p)))
  | _, _, _ => None
  end.

Inductive action :=
  | ASubmit (submit : bool) (t : task)
  | AAdvance (i : nat)
  | ARendezvous (i j : nat)
  | ATake
  | AFinish (i : nat)
  | AExit
  | AGoroutine (i : nat)
  | AClose
  | ACloseCh.

(** An idle worker. *)
Definition idle (p : Pool) : bool := (length (running p) + exited p <? pWorkers p)%nat.

Definition exec (a : action) (p : Pool) : option Pool :=
  match a with
  | ASubmit submit t => Some (TrySubmit submit t p)
  | AAdvance i =>
      match submitters p !! i with
      | Some (Sending submit t) =>
          match send t p with
          | Some p' => Some (set_submitters (delete i (submitters p)) p')
          | None => Some (set_submitters (<[i := Overflowing submit t]> (submitters p)) p)
          end
      | Some (Overflowing submit t) => Some (set_submitters (delete i (submitters p)) (try_overflow submit t p))
      | None => None
      end
  | ARendezvous i j => rendezvous i j p
  | ATake =>
      match queue p with
      | t :: q => if idle p then Some (set_running (t :: running p) (set_queue q p)) else None
      | [] => None
      end
  | AFinish i =>
      match running p !! i with
      | Some t => Some (finish t (set_running (delete i (running p)) p))
      | None => None
      end
  | AExit => match queue p with [] => if chClosed p && idle p then Some (exit_worker p) else None | _ => None end
  | AGoroutine i =>
      match goroutines p !! i with
      | Some (Detached t) => Some (finish t (set_goroutines (delete i (goroutines p)) p))
      | Some (Tracked t) => Some (finish t (set_goroutines (<[i := Releasing]> (goroutines p)) p))
      | Some Releasing =>
          if (0 <? overflow p)%nat then Some (set_overflow (overflow p - 1) (set_goroutines (delete i (goroutines p)) p)) else None
      | None => None
      end
  | AClose => if closed p then None else Some (set_closed p)
  | ACloseCh => if closed p && negb (chClosed p) then Some (close_ch p) else None
  end.

Fixpoint run (as_ : list action) (p : Pool) : option Pool :=
  match as_ with
  | [] => Some p
  | a :: as_ => match exec a p with Some p => run as_ p | None => None end
  end.

(** ** Where the tasks are *)

Definition submitter_task (s : submitter) : task := match s with Sending _ t | Overflowing _ t => t end.

Definition goroutine_task (g : goroutine) : option task := match g with Detached t | Tracked t => Some t | Releasing => None end.

Definition places (p : Pool) : list task :=
  map submitter_task (submitters p) ++ queue p ++ running p ++ omap goroutine_task (goroutines p)
  ++ finished p ++ returned p ++ lost p.

Definition action_task (a : action) : option task := match a with ASubmit _ t => Some t | _ => None end.

Definition submitted (as_ : list action) : list task := omap action_task as_.

(** The tasks of a list of goroutines when one of them moves on. *)
Lemma omap_delete {A B} (f : A -> option B) l i x :
  l !! i = Some x -> omap f l ≡ₚ option_list (f x) ++ omap f (delete i l).
Proof. intros E. rewrite (delete_Permutation l i x E) at 1. cbn. by destruct (f x). Qed.

Lemma omap_insert {A B} (f : A -> option B) l i x y :
  l !! i = Some x -> omap f (<[i := y]> l) ≡ₚ option_list (f y) ++ omap f (delete i l).
Proof.
  intros E. pose proof (lookup_lt_Some _ _ _ E) as Hi.
  rewrite insert_take_drop, delete_take_drop by done. rewrite !omap_app. cbn. destruct (f y); cbn; [|done].
  symmetry; apply Permutation_middle.
Qed.

Lemma map_omap {A B} (f : A -> B) l : map f l = omap (fun x => Some (f x)) l.
Proof. induction l as [|x l IH]; cbn; [done|]. by rewrite IH. Qed.

Ltac places_perm := unfold places, hand_back, runDetachedTracked, runDetached, go; cbn; rewrite ?map_omap, ?omap_app; cbn.

Lemma places_step a p p' : exec a p = Some p' -> places p' ≡ₚ option_list (action_task a) ++ places p.
Proof.
  destruct a as [submit t|i|i j| |i| |i| |]; cbn [exec]; intros H.
  - injection H as <-. unfold TrySubmit. destruct (closed p); places_perm; solve_Permutation.
  - destruct (submitters p !! i) as [[submit t|submit t]|] eqn:E; [| |done];
      pose proof (omap_delete (fun s => Some (submitter_task s)) _ _ _ E) as Hd; cbn in Hd.
    + unfold send in H. destruct (chClosed p); [|destruct (length (queue p) <? pBuffer p)%nat]; injection H as <-; places_perm.
      * rewrite Hd; solve_Permutation.
      * rewrite Hd; solve_Permutation.
      * rewrite (omap_insert (fun s => Some (submitter_task s)) _ _ _ _ E), Hd; done.
    + unfold try_overflow in H. destruct (overflow p <? pOverflowCap p)%nat; injection H as <-; places_perm; rewrite Hd;
        [|destruct submit]; solve_Permutation.
  - unfold rendezvous in H. destruct (submitters p !! i) as [[submit t|submit t]|] eqn:E; [done| |done].
    destruct (goroutines p !! j) as [[t'|t'|]|] eqn:Eg; [done|done| |done]. destruct (pOverflowCap p); [|done]. injection H as <-.
    pose proof (omap_delete (fun s => Some (submitter_task s)) _ _ _ E) as Hd. pose proof (omap_delete goroutine_task _ _ _ Eg) as Hg. cbn in Hd, Hg.
    places_perm. rewrite Hd, Hg. solve_Permutation.
  - destruct (queue p) as [|t q] eqn:Eq; [done|]. destruct (idle p); [|done]. injection H as <-. places_perm. rewrite Eq. solve_Permutation.
  - destruct (running p !! i) as [t|] eqn:E; [|done]. injection H as <-. places_perm.
    rewrite (delete_Permutation _ _ _ E) at 2. solve_Permutation.
  - destruct (queue p); [|done]. destruct (chClosed p && idle p); [|done]. injection H as <-. done.
  - destruct (goroutines p !! i) as [[t|t|]|] eqn:E; [| | |done];
      pose proof (omap_delete goroutine_task _ _ _ E) as Hd; cbn in Hd.
    + injection H as <-. places_perm. rewrite Hd. solve_Permutation.
    + injection H as <-. places_perm. rewrite (omap_insert goroutine_task _ _ _ _ E), Hd. solve_Permutation.
    + destruct (0 <? overflow p)%nat; [|done]. injection H as <-. places_perm. rewrite Hd. done.
  - destruct (closed p); [done|]. injection H as <-. done.
  - destruct (closed p && negb (chClosed p)); [|done]. injection H as <-. done.
Qed.

Lemma places_run as_ p p' : run as_ p = Some p' -> places p' ≡ₚ submitted as_ ++ places p.
Proof.
  revert p; induction as_ as [|a as_ IH]; intros p H; [injection H as <-; done|].
  cbn [run] in H. destruct (exec a p) as [p1|] eqn:E; [|done].
  rewrite (IH _ H), (places_step _ _ _ E). unfold submitted; cbn. destruct (action_task a); cbn; [|done].
  rewrite <- Permutation_middle. done.
Qed.

(** ** Bounds *)

Definition holds_slot (g : goroutine) : option unit := match g with Detached _ => None | Tracked _ | Releasing => Some tt end.

Definition slots (p : Pool) : nat := length (omap holds_slot (goroutines p)).

Definition detached (p : Pool) : nat := length (goroutines p).

Record pool_ok (p : Pool) : Prop := mkPoolOk {
  ok_workers : (0 < pWorkers p)%nat;
  ok_queue : (length (queue p) <= pBuffer p)%nat;
  ok_running : (length (running p) + exited p <= pWorkers p)%nat;
  ok_overflow : (overflow p <= pOverflowCap p)%nat;
  ok_dropped : dropped p = Z.of_nat (length (lost p));
  ok_spilled : spilled p = Z.of_nat (length (returned p) + length (lost p));
  ok_closed : chClosed p = true -> closed p = true;
  ok_slots : chClosed p = false -> slots p = overflow p;
  ok_detached : closed p = false -> slots p = detached p;
  ok_exited : (0 < exited p)%nat -> chClosed p = true /\ queue p = []
}.

Lemma NewPool_ok w b o : pool_ok (NewPool w b o).
Proof. split; cbn; try done; try lia. destruct (Z.leb_spec w 0); lia. Qed.

Lemma length_omap_le {A B} (f : A -> option B) l : (length (omap f l) <= length l)%nat.
Proof. induction l as [|x l IH]; cbn; [lia|]. destruct (f x); cbn; lia. Qed.

Lemma slots_delete l i g :
  l !! i = Some g -> length (omap holds_slot l) = (length (option_list (holds_slot g)) + length (omap holds_slot (delete i l)))%nat.
Proof. intros E. rewrite (omap_delete holds_slot _ _ _ E), length_app. done. Qed.

Lemma slots_insert l i g g' :
  l !! i = Some g ->
  length (omap holds_slot (<[i := g']> l)) = (length (option_list (holds_slot g')) + length (omap holds_slot (delete i l)))%nat.
Proof. intros E. rewrite (omap_insert holds_slot _ _ _ _ E), length_app. done. Qed.

Ltac pool_ok := split; unfold slots, detached, hand_back, runDetachedTracked, runDetached, go in *; cbn in *;
  rewrite ?omap_app, ?length_app; cbn; try done; try lia; try (intros; lia);
  try (intros Hx; match goal with H : (0 < exited _)%nat -> _ |- _ => destruct (H Hx) end; first [split; congruence | exfalso; congruence]).

Lemma pool_ok_advance i p p' : pool_ok p -> exec (AAdvance i) p = Some p' -> pool_ok p'.
Proof.
  intros [] H; cbn [exec] in H. destruct (submitters p !! i) as [[submit t|submit t]|]; [| |done].
  - unfold send in H. destruct (chClosed p) eqn:Ec; [injection H as <-; pool_ok; rewrite ?Ec; try done|].
    { intros Hc; by rewrite ok_closed0 in Hc. }
    destruct (Nat.ltb_spec (length (queue p)) (pBuffer p)); injection H as <-; pool_ok; rewrite ?Ec; done.
  - unfold try_overflow in H. destruct (Nat.ltb_spec (overflow p) (pOverflowCap p)) as [Hlt|Hge]; injection H as <-.
    + pool_ok; intros Hc; [rewrite ok_slots0 by done | rewrite ok_detached0 by done]; lia.
    + destruct submit; pool_ok.
Qed.

Lemma pool_ok_rendezvous i j p p' : pool_ok p -> exec (ARendezvous i j) p = Some p' -> pool_ok p'.
Proof.
  intros [] H; cbn [exec] in H; unfold rendezvous in H. destruct (submitters p !! i) as [[submit t|submit t]|]; [done| |done].
  destruct (goroutines p !! j) as [[t'|t'|]|] eqn:E; [done|done| |done]. destruct (pOverflowCap p) eqn:Ec; [|done]. injection H as <-.
  pose proof (slots_delete _ _ _ E) as Hs. pose proof (length_delete (goroutines p) j (ex_intro _ Releasing E)) as Hl.
  pose proof (lookup_lt_Some _ _ _ E) as Hi. cbn in Hs.
  pool_ok; intros Hc; [rewrite <- ok_slots0 by done; lia|specialize (ok_detached0 Hc); lia].
Qed.

Lemma pool_ok_goroutine i p p' : pool_ok p -> exec (AGoroutine i) p = Some p' -> pool_ok p'.
Proof.
  intros [] H; cbn [exec] in H. destruct (goroutines p !! i) as [g|] eqn:E; [|done].
  pose proof (slots_delete _ _ _ E) as Hs. pose proof (length_delete (goroutines p) i (ex_intro _ g E)) as Hl.
  pose proof (lookup_lt_Some _ _ _ E) as Hi.
  destruct g as [t|t|]; cbn in Hs.
  - injection H as <-. pool_ok; intros Hc; [rewrite <- Hs; auto | specialize (ok_detached0 Hc)].
    pose proof (length_omap_le holds_slot (delete i (goroutines p))). lia.
  - injection H as <-. pool_ok; rewrite (slots_insert _ _ _ _ E); cbn; intros Hc; [rewrite <- Hs; auto | rewrite length_insert, <- Hs; auto].
  - destruct (Nat.ltb_spec 0 (overflow p)) as [Ho|Ho]; [|done]. injection H as <-.
    pool_ok; intros Hc; [specialize (ok_slots0 Hc); lia | specialize (ok_detached0 Hc); lia].
Qed.

Lemma pool_ok_step a p p' : pool_ok p -> exec a p = Some p' -> pool_ok p'.
Proof.
  intros Hok H; destruct a as [submit t|i|i j| |i| |i| |].
  2: by eapply pool_ok_advance. 2: by eapply pool_ok_rendezvous. 5: by eapply pool_ok_goroutine.
  all: destruct Hok; cbn [exec] in H.
  - injection H as <-. unfold TrySubmit. destruct (closed p) eqn:Ec; pool_ok; rewrite ?Ec; try done.
    intros Hc; rewrite ok_slots0 by done; lia.
  - destruct (queue p) as [|t q] eqn:Eq; [done|]. unfold idle in H.
    destruct (Nat.ltb_spec (length (running p) + exited p) (pWorkers p)); [|done]. injection H as <-. rewrite ?Eq in *. pool_ok.
  - destruct (running p !! i) as [t|] eqn:E; [|done]. pose proof (length_delete (running p) i (ex_intro _ t E)) as Hl.
    pose proof (lookup_lt_Some _ _ _ E). injection H as <-. pool_ok.
  - destruct (queue p) eqn:Eq; [|done]. unfold idle in H.
    destruct (Nat.ltb_spec (length (running p) + exited p) (pWorkers p)); [|by rewrite andb_false_r in H].
    destruct (chClosed p) eqn:Ec; [|done]. injection H as <-. pool_ok; rewrite ?Eq, ?Ec; cbn; try done; lia.
  - destruct (closed p) eqn:Ec; [done|]. injection H as <-. pool_ok.
  - destruct (closed p) eqn:Ec; [|done]. destruct (chClosed p) eqn:Ech; [done|]. injection H as <-. pool_ok; rewrite ?Ec; try done.
Qed.

Lemma pool_ok_run as_ p p' : pool_ok p -> run as_ p = Some p' -> pool_ok p'.
Proof.
  revert p; induction as_ as [|a as_ IH]; intros p Hok H; [injection H as <-; done|].
  cbn [run] in H. destruct (exec a p) as [p1|] eqn:E; [|done]. eapply IH; [|done]. by eapply pool_ok_step.
Qed.

(** ** Shutdown *)

Definition worker_action (a : action) : bool := match a with ATake | AFinish _ | AExit => true | _ => false end.

(** What the workers still have to do. *)
Definition todo (p : Pool) : nat := (2 * length (queue p) + length (running p) + (pWorkers p - exited p))%nat.

Lemma todo_step a p p' :
  pool_ok p -> chClosed p = true -> exec a p = Some p' ->
  chClosed p' = true /\ todo p = (todo p' + if worker_action a then 1 else 0)%nat
  /\ queue p ++ running p ++ finished p ⊆+ queue p' ++ running p' ++ finished p'.
Proof.
  intros Hok Hc H. pose proof (ok_closed _ Hok Hc) as Hcl.
  destruct a as [submit t|i|i j| |i| |i| |]; cbn [exec] in H; unfold todo.
  - injection H as <-. unfold TrySubmit. rewrite Hcl. cbn. split_and!; [done|lia|done].
  - destruct (submitters p !! i) as [[submit t|submit t]|]; [| |done].
    + unfold send in H. rewrite Hc in H. injection H as <-. cbn. split_and!; [done|lia|done].
    + unfold try_overflow in H. destruct (overflow p <? pOverflowCap p)%nat; injection H as <-; cbn; split_and!; (done || lia).
  - unfold rendezvous in H. repeat case_match; try done. injection H as <-. cbn. split_and!; (done || lia).
  - destruct (queue p) as [|t q] eqn:Eq; [done|]. destruct (idle p) eqn:Ei; [|done]. injection H as <-. cbn.
    split_and!; [done|lia|]. solve_submseteq.
  - destruct (running p !! i) as [t|] eqn:E; [|done]. injection H as <-. cbn.
    pose proof (length_delete (running p) i (ex_intro _ t E)) as Hl. pose proof (lookup_lt_Some _ _ _ E).
    split_and!; [done|lia|]. rewrite (delete_Permutation _ _ _ E) at 1. solve_submseteq.
  - destruct (queue p) eqn:Eq; [|done]. unfold idle in H.
    destruct (Nat.ltb_spec (length (running p) + exited p) (pWorkers p)); [|by rewrite andb_false_r in H].
    rewrite Hc in H. injection H as <-. cbn. rewrite Eq. split_and!; [done|cbn; lia|done].
  - destruct (goroutines p !! i) as [[t|t|]|]; [| | |done]; [injection H as <-..|].
    + cbn. split_and!; [done|lia|solve_submseteq].
    + cbn. split_and!; [done|lia|solve_submseteq].
    + destruct (0 <? overflow p)%nat; [|done]. injection H as <-. cbn. split_and!; [done|lia|done].
  - by rewrite Hcl in H.
  - by rewrite Hc, andb_false_r in H.
Qed.

Lemma todo_run as_ p p' :
  pool_ok p -> chClosed p = true -> run as_ p = Some p' ->
  chClosed p' = true /\ todo p = (todo p' + length (List.filter worker_action as_))%nat
  /\ queue p ++ running p ++ finished p ⊆+ queue p' ++ running p' ++ finished p'.
Proof.
  revert p; induction as_ as [|a as_ IH]; intros p Hok Hc H; [injection H as <-; cbn; split_and!; [done|lia|done]|].
  cbn [run] in H. destruct (exec a p) as [p1|] eqn:E; [|done].
  destruct (todo_step _ _ _ Hok Hc E) as (Hc1 & Ht1 & Hs1).
  destruct (IH p1 (pool_ok_step _ _ _ Hok E) Hc1 H) as (Hc2 & Ht2 & Hs2).
  split_and!; [done| |by etrans]. cbn [List.filter]. destruct (worker_action a); cbn [length]; lia.
Qed.

Lemma workers_stuck p :
  pool_ok p -> chClosed p = true -> (forall a, worker_action a = true -> exec a p = None) ->
  queue p = [] /\ running p = [] /\ exited p = pWorkers p.
Proof.
  intros Hok Hc Hstuck.
  assert (Hr : running p = []).
  { destruct (running p) as [|t r] eqn:E; [done|]. specialize (Hstuck (AFinish 0) eq_refl). cbn in Hstuck. by rewrite E in Hstuck. }
  pose proof (Hstuck ATake eq_refl) as Ht. pose proof (Hstuck AExit eq_refl) as He. cbn [exec] in Ht, He. unfold idle in Ht, He.
  rewrite Hr, Hc in *. cbn [length Nat.add andb] in Ht, He. pose proof (ok_running _ Hok) as Hw. rewrite Hr in Hw; cbn in Hw. pose proof (ok_workers _ Hok).
  destruct (queue p) as [|t q] eqn:Eq; destruct (Nat.ltb_spec (exited p) (pWorkers p)); try done; [split_and!; (done || lia)|].
  destruct (ok_exited _ Hok) as [_ Hq]; [lia|]. congruence.
Qed.
End Pool.

(** ** The contract of the pool *)

(** C19: Every task is in exactly one place, on every schedule: the tasks given to
    [Submit] and [TrySubmit] are those of calls in progress, of the queue, of the
    workers, of the detached goroutines, those that ran, those handed back to the
    caller of [TrySubmit] and those [Submit] dropped, each as often as it was given.
    [Dropped] counts exactly the dropped ones; [Spilled] counts all that were not accepted, the
    dropped ones included, although its comments say it does not ([drop_counts_as_spill]). *)
Theorem tasks_conserved {task} w b o (as_ : list (@action task)) p :
  run as_ (NewPool w b o) = Some p ->
  submitted as_ ≡ₚ places p /\ Dropped p = Z.of_nat (length (lost p))
  /\ Spilled p = Z.of_nat (length (returned p) + length (lost p)).
Proof.
  intros H. pose proof (places_run _ _ _ H) as Hp. cbn in Hp. rewrite app_nil_r in Hp.
  pose proof (pool_ok_run _ _ _ (NewPool_ok w b o) H) as []. done.
Qed.

(** Overload is bounded: on every schedule the queue holds at most its buffer, at
    most as many tasks run on workers as there are workers, and until the shutdown
    starts every detached goroutine holds an overflow slot, of which there are at
    most [overflowCap]. *)
Theorem concurrency_bounded {task} w b o (as_ : list (@action task)) p :
  run as_ (NewPool w b o) = Some p ->
  (length (queue p) <= pBuffer p)%nat /\ (length (running p) <= pWorkers p)%nat /\ (overflow p <= pOverflowCap p)%nat
  /\ (closed p = false -> length (goroutines p) = overflow p).
Proof.
  intros H. pose proof (pool_ok_run _ _ _ (NewPool_ok w b o) H) as []. split_and!; try done; [lia|].
  intros Hc. unfold detached in *. rewrite <- ok_detached0 by done. apply ok_slots0.
  destruct (chClosed p); [|done]. by rewrite ok_closed0 in Hc.
Qed.

(** A shutdown drains the queue: once the channel is closed, on every further
    schedule the workers take at most [todo] steps; when none of them can move any
    more, all have exited, and every task that was queued or running has run. *)
Theorem shutdown_drains {task} w b o (as1 as2 : list (@action task)) p p' :
  run as1 (NewPool w b o) = Some p -> chClosed p = true -> run as2 p = Some p' ->
  (length (List.filter worker_action as2) <= todo p)%nat
  /\ ((forall a, worker_action a = true -> exec a p' = None) ->
      exited p' = pWorkers p' /\ queue p ++ running p ⊆+ finished p').
Proof.
  intros H Hc H2. pose proof (pool_ok_run _ _ _ (NewPool_ok w b o) H) as Hok.
  destruct (todo_run _ _ _ Hok Hc H2) as (Hc2 & Ht & Hs). split; [lia|]. intros Hst.
  destruct (workers_stuck p' (pool_ok_run _ _ _ Hok H2) Hc2 Hst) as (Hq & Hr & He). split; [done|].
  rewrite Hq, Hr in Hs; cbn in Hs. etrans; [|exact Hs]. rewrite app_assoc. apply submseteq_inserts_r. done.
Qed.

(** *** Witnesses: one worker, one queue slot, one overflow slot *)

(** Task 1 runs, 2 is queued, 3 overflows, 4 is handed back, 5 is dropped. *)
Definition busy : list (@action nat) :=
  [ASubmit false 1%nat; AAdvance 0; ATake; ASubmit false 2%nat; AAdvance 0; ASubmit false 3%nat; AAdvance 0; AAdvance 0;
   ASubmit false 4%nat; AAdvance 0; AAdvance 0; ASubmit true 5%nat; AAdvance 0; AAdvance 0].

Definition busy_pool : @Pool nat :=
  mkPool 1 1 1 [2%nat] [1%nat] 1 false false 0 [] [Tracked 3%nat] 1 2 [] [4%nat] [5%nat].

Lemma tasks_conserved_witness :
  run busy (NewPool 1 1 1) = Some busy_pool /\ [1; 2; 3; 4; 5]%nat ≡ₚ [2; 1; 3; 4; 5]%nat /\ Dropped busy_pool = 1 /\ Spilled busy_pool = 2.
Proof. split; [reflexivity|]. apply (tasks_conserved 1 1 1 busy busy_pool). reflexivity. Defined.

Lemma concurrency_bounded_witness :
  (1 <= 1)%nat /\ (1 <= 1)%nat /\ (1 <= 1)%nat /\ (false = false -> 1%nat = 1%nat).
Proof. apply (concurrency_bounded 1 1 1 busy busy_pool). reflexivity. Defined.

Definition closing_pool : @Pool nat := close_ch (set_closed busy_pool).

Definition drained_pool : @Pool nat :=
  mkPool 1 1 1 [] [] 1 true true 1 [] [Tracked 3%nat] 1 2 [2; 1]%nat [4%nat] [5%nat].

Lemma shutdown_drains_witness :
  (4 <= 4)%nat /\ ((forall a, worker_action a = true -> exec a drained_pool = None) -> 1%nat = 1%nat /\ [2; 1]%nat ⊆+ [2; 1]%nat).
Proof.
  apply (shutdown_drains 1 1 1 (busy ++ [AClose; ACloseCh]) [AFinish 0; ATake; AFinish 0; AExit] closing_pool drained_pool);
    reflexivity.
Defined.

(** *** The counter of spilled tasks *)

(** A task that [Submit] drops is counted as handed to a spill fallback too. *)
Example drop_counts_as_spill :
  match run [ASubmit true 1%nat; AAdvance 0; ASubmit true 2%nat; AAdvance 0; AAdvance 0] (NewPool 1 1 0) with
  | Some p => lost p = [2%nat] /\ returned p = [] /\ Dropped p = 1 /\ Spilled p = 1
  | None => False
  end.
Proof. vm_compute; auto. Qed.

(** *** A send that loses the race with the shutdown *)

(** [send] recovers from the closed channel by starting a tracked goroutine although
    no overflow slot was taken: after its task it waits for a slot for ever. *)
Example late_send_leaks_goroutine :
  match run [ASubmit false 1%nat; AClose; ACloseCh; AAdvance 0; AGoroutine 0; AExit] (NewPool 1 1 1) with
  | Some p => goroutines p = [Releasing] /\ overflow p = 0%nat /\ exited p = pWorkers p /\ exec (AGoroutine 0) p = None
  | None => False
  end.
Proof. vm_compute; auto. Qed.

(** Without an overflow allowance, such a goroutine takes the task of a later overflow. *)
Example late_send_grants_overflow :
  match run [ASubmit false 1%nat; AAdvance 0; ASubmit false 2%nat; AAdvance 0; ASubmit false 3%nat; AClose; ACloseCh; AAdvance 1; AGoroutine 0; ARendezvous 0 0]
          (NewPool 1 1 0) with
  | Some p => goroutines p = [Tracked 2%nat] /\ pOverflowCap p = 0%nat
  | None => False
  end.
Proof. vm_compute; auto. Qed.

(** When a slot is taken, it releases the slot of another task, so more tasks than
    [overflowCap] run under the overflow allowance. *)
Example late_send_steals_slot :
  match run (busy ++ [ASubmit false 6%nat; ASubmit false 7%nat; AAdvance 0; AClose; ACloseCh; AAdvance 1; AGoroutine 1; AGoroutine 1; AAdvance 0])
          (NewPool 1 1 1) with
  | Some p => goroutines p = [Tracked 3%nat; Tracked 6%nat] /\ pOverflowCap p = 1%nat
  | None => False
  end.
Proof. vm_compute; auto. Qed.
