(* ===== verification/Spool.v ===== *)
(** * The usage write-ahead log: [internal/handler/usage_spool.go]

    Billing rows go to a log file before anything else keeps them.  The file is
    modelled as bytes: its text and the part of it that is on stable storage; a
    crash keeps any prefix of the text that contains the stable part.  Methods
    are functions on the [UsageSpool]; what a goroutine does without the mutex is
    a separate step, so that [spool_step] interleaves writers, the group-commit
    goroutine, acknowledgements, compactions and replays.

    The JSON of a row, its [EventID] and the digest of a legacy line are the
    operations of the class [RowCodec]. *)

From S2P Require Import Prelude.

(** ** Rows and lines *)

Class RowCodec (Row : Type) := {
  EventID : Row -> string;
  row_marshal : Row -> option string;
  row_unmarshal : string -> option Row;
  probe_id : string -> option string;
  legacy_digest : string -> string
}.

(** What the code relies on: the JSON of a row is one line, reads back as a row with
    the same id, and the id alone can be read from it. *)
Class LawfulRowCodec (Row : Type) `{RowCodec Row} := {
  marshal_one_line : forall e d, row_marshal e = Some d -> string_has (Ascii.ascii_of_nat 10) d = false;
  marshal_reads_back : forall e d, row_marshal e = Some d -> exists e', row_unmarshal d = Some e' /\ EventID e' = EventID e;
  probe_agrees : forall d e, row_unmarshal d = Some e -> probe_id d = Some (EventID e)
}.

Definition newline : Ascii.ascii := Ascii.ascii_of_nat 10.

(** The complete lines of a text and the torn tail after them ([ReadBytes]). *)
Fixpoint read_lines (s : string) : list string * string :=
  match s with
  | EmptyString => ([], "")
  | String c s =>
      let '(ls, t) := read_lines s in
      if Ascii.eqb c newline then ("" :: ls, t)
      else match ls with [] => ([], String c t) | l :: ls => (String c l :: ls, t) end
  end.

Definition lines (s : string) : list string := fst (read_lines s).

Definition terminated (l : string) : string := l +:+ String newline "".

Definition join_terminated (ls : list string) : string := foldr (fun l s => terminated l +:+ s) "" ls.

(** ** State *)

Record wal_file := mkFile { fText : string; fStable : string }.

(** The group-commit goroutine: between wakes; with the handle and the watermark it
    captured; inside the fsync that started on a file with this text; after it. *)
Inductive syncer :=
  | SyncIdle
  | SyncCaptured (handle : nat) (target : Z)
  | SyncRunning (inode : nat) (text : string) (target : Z)
  | SyncDone (target : Z).

(** [usInode] is the identity of the file at [path], [usApp] the open append handle
    (a new number each time it is opened). *)
Record UsageSpool := mkSpool {
  usMax : Z; usFile : option wal_file; usInode : nat; usApp : option nat; usHandles : nat;
  usAppSeq : Z; usSyncedSeq : Z; usClosed : bool; usSyncer : syncer;
  usPending : Z; usAcked : gset string; usLastCompact : option Z; usCursor : Z;
  usCorrupt : list string; usCorruptTotal : Z; usDroppedTotal : Z
}.

Definition file_text (f : option wal_file) : string := match f with Some f => fText f | None => "" end.

Definition stable_text (f : option wal_file) : string := match f with Some f => fStable f | None => "" end.

Definition spool_text (s : UsageSpool) : string := file_text (usFile s).

Definition text_size (s : string) : Z := Z.of_nat (String.length s).

(** Updates of single fields. *)
Definition set_file (f : option wal_file) (s : UsageSpool) : UsageSpool :=
  mkSpool (usMax s) f (usInode s) (usApp s) (usHandles s) (usAppSeq s) (usSyncedSeq s) (usClosed s) (usSyncer s)
    (usPending s) (usAcked s) (usLastCompact s) (usCursor s) (usCorrupt s) (usCorruptTotal s) (usDroppedTotal s).

Definition set_app (h : option nat) (s : UsageSpool) : UsageSpool :=
  mkSpool (usMax s) (usFile s) (usInode s) h (usHandles s) (usAppSeq s) (usSyncedSeq s) (usClosed s) (usSyncer s)
    (usPending s) (usAcked s) (usLastCompact s) (usCursor s) (usCorrupt s) (usCorruptTotal s) (usDroppedTotal s).

Definition set_seq (n : Z) (s : UsageSpool) : UsageSpool :=
  mkSpool (usMax s) (usFile s) (usInode s) (usApp s) (usHandles s) n (usSyncedSeq s) (usClosed s) (usSyncer s)
    (usPending s) (usAcked s) (usLastCompact s) (usCursor s) (usCorrupt s) (usCorruptTotal s) (usDroppedTotal s).

Definition set_synced (n : Z) (s : UsageSpool) : UsageSpool :=
  mkSpool (usMax s) (usFile s) (usInode s) (usApp s) (usHandles s) (usAppSeq s) n (usClosed s) (usSyncer s)
    (usPending s) (usAcked s) (usLastCompact s) (usCursor s) (usCorrupt s) (usCorruptTotal s) (usDroppedTotal s).

Definition set_syncer (y : syncer) (s : UsageSpool) : UsageSpool :=
  mkSpool (usMax s) (usFile s) (usInode s) (usApp s) (usHandles s) (usAppSeq s) (usSyncedSeq s) (usClosed s) y
    (usPending s) (usAcked s) (usLastCompact s) (usCursor s) (usCorrupt s) (usCorruptTotal s) (usDroppedTotal s).

Definition set_pending (n : Z) (s : UsageSpool) : UsageSpool :=
  mkSpool (usMax s) (usFile s) (usInode s) (usApp s) (usHandles s) (usAppSeq s) (usSyncedSeq s) (usClosed s) (usSyncer s)
    n (usAcked s) (usLastCompact s) (usCursor s) (usCorrupt s) (usCorruptTotal s) (usDroppedTotal s).

Definition set_acked (a : gset string) (s : UsageSpool) : UsageSpool :=
  mkSpool (usMax s) (usFile s) (usInode s) (usApp s) (usHandles s) (usAppSeq s) (usSyncedSeq s) (usClosed s) (usSyncer s)
    (usPending s) a (usLastCompact s) (usCursor s) (usCorrupt s) (usCorruptTotal s) (usDroppedTotal s).

Definition set_last_compact (t : option Z) (s : UsageSpool) : UsageSpool :=
  mkSpool (usMax s) (usFile s) (usInode s) (usApp s) (usHandles s) (usAppSeq s) (usSyncedSeq s) (usClosed s) (usSyncer s)
    (usPending s) (usAcked s) t (usCursor s) (usCorrupt s) (usCorruptTotal s) (usDroppedTotal s).

Definition set_cursor (c : Z) (s : UsageSpool) : UsageSpool :=
  mkSpool (usMax s) (usFile s) (usInode s) (usApp s) (usHandles s) (usAppSeq s) (usSyncedSeq s) (usClosed s) (usSyncer s)
    (usPending s) (usAcked s) (usLastCompact s) c (usCorrupt s) (usCorruptTotal s) (usDroppedTotal s).

Definition count_dropped (s : UsageSpool) : UsageSpool :=
  mkSpool (usMax s) (usFile s) (usInode s) (usApp s) (usHandles s) (usAppSeq s) (usSyncedSeq s) (usClosed s) (usSyncer s)
    (usPending s) (usAcked s) (usLastCompact s) (usCursor s) (usCorrupt s) (usCorruptTotal s) (usDroppedTotal s + 1).

(** [quarantine] of some raw lines: counted, and written to the sidecar file unless
    that fails. *)
Definition quarantine (stored : bool) (ls : list string) (s : UsageSpool) : UsageSpool :=
  mkSpool (usMax s) (usFile s) (usInode s) (usApp s) (usHandles s) (usAppSeq s) (usSyncedSeq s) (usClosed s) (usSyncer s)
    (usPending s) (usAcked s) (usLastCompact s) (usCursor s) (if stored then usCorrupt s ++ ls else usCorrupt s)
    (usCorruptTotal s + Z.of_nat (length ls)) (usDroppedTotal s).

(** The file at [path] is replaced by another one. *)
Definition swap_file (f : wal_file) (s : UsageSpool) : UsageSpool :=
  mkSpool (usMax s) (Some f) (S (usInode s)) (usApp s) (usHandles s) (usAppSeq s) (usSyncedSeq s) (usClosed s) (usSyncer s)
    (usPending s) (usAcked s) (usLastCompact s) (usCursor s) (usCorrupt s) (usCorruptTotal s) (usDroppedTotal s).

(** [openAppend]: creates the file when there is none. *)
Definition openAppend (ok : bool) (s : UsageSpool) : UsageSpool :=
  if ok then
    mkSpool (usMax s) (Some (default (mkFile "" "") (usFile s))) (usInode s) (Some (usHandles s)) (S (usHandles s)) (usAppSeq s)
      (usSyncedSeq s) (usClosed s) (usSyncer s) (usPending s) (usAcked s) (usLastCompact s) (usCursor s) (usCorrupt s)
      (usCorruptTotal s) (usDroppedTotal s)
  else s.

(** ** The end of a file *)

(** [sanitizeTail]: drops what follows the last newline. *)
Definition sanitizeTail (f : option wal_file) : option wal_file :=
  match f with
  | Some f => Some (mkFile (join_terminated (lines (fText f))) (join_terminated (lines (fStable f))))
  | None => None
  end.

Definition refreshEventCount (s : UsageSpool) : UsageSpool :=
  set_pending (Z.of_nat (length (lines (spool_text s)))) s.

(** [newUsageSpool] on the file a previous run left; [None]: spooling is disabled. *)
Definition newUsageSpool (dir : string) (maxBytes : Z) (mkdir opened : bool) (f : option wal_file) : option UsageSpool :=
  if String.eqb dir "" then None
  else
    let maxBytes := if maxBytes <=? 0 then 104857600 else maxBytes in
    if negb mkdir then None
    else if negb opened then None
    else
      let s := mkSpool maxBytes (sanitizeTail f) 0 None 0 0 0 false SyncIdle 0 ∅ None 0 [] 0 0 in
      Some (refreshEventCount (openAppend true s)).

Definition Close (s : UsageSpool) : UsageSpool :=
  mkSpool (usMax s) (usFile s) (usInode s) None (usHandles s) (usAppSeq s) (usAppSeq s) true (usSyncer s)
    (usPending s) (usAcked s) (usLastCompact s) (usCursor s) (usCorrupt s) (usCorruptTotal s) (usDroppedTotal s).

(** ** Group commit *)

(** [confirmSynced] never moves the watermark back. *)
Definition confirmSynced (target : Z) (s : UsageSpool) : UsageSpool :=
  if usSyncedSeq s <? target then set_synced target s else s.

(** The steps of one round of [syncLoop]. *)
Definition sync_capture (s : UsageSpool) : UsageSpool :=
  match usSyncer s, usApp s with
  | SyncIdle, Some h => if usClosed s then s else set_syncer (SyncCaptured h (usAppSeq s)) s
  | _, _ => s
  end.

Definition sync_start (s : UsageSpool) : UsageSpool :=
  match usSyncer s with
  | SyncCaptured h target =>
      if bool_decide (usApp s = Some h) then set_syncer (SyncRunning (usInode s) (spool_text s) target) s
      else set_syncer SyncIdle s
  | _ => s
  end.

(** The fsync ends: what the file had when it started is stable. *)
Definition sync_end (ok : bool) (s : UsageSpool) : UsageSpool :=
  match usSyncer s with
  | SyncRunning inode text target =>
      if ok then
        let f := match usFile s with
                 | Some f => if Nat.eqb inode (usInode s) && (String.length (fStable f) <? String.length text)%nat
                             then Some (mkFile (fText f) text) else Some f
                 | None => None
                 end in
        set_syncer (SyncDone target) (set_file f s)
      else set_syncer SyncIdle s
  | _ => s
  end.

Definition sync_confirm (s : UsageSpool) : UsageSpool :=
  match usSyncer s with
  | SyncDone target => set_syncer SyncIdle (confirmSynced target s)
  | _ => s
  end.

Definition waitSynced (seq : Z) (s : UsageSpool) : bool := seq <=? usSyncedSeq s.

(** ** Rows *)

Section Rows.
Context {Row : Type} `{RowCodec Row}.

(** What the write call does with the bytes. *)
Inductive write_fate := WAll | WShort (n : nat).

Fixpoint take_bytes (n : nat) (s : string) : string :=
  match n, s with S n, String c s => String c (take_bytes n s) | _, _ => "" end.

Fixpoint drop_bytes (n : nat) (s : string) : string :=
  match n, s with S n, String _ s => drop_bytes n s | _, _ => s end.

Definition append_text (t : string) (s : UsageSpool) : UsageSpool :=
  set_file (match usFile s with Some f => Some (mkFile (fText f +:+ t) (fStable f)) | None => None end) s.

(** [Write] up to the wait: the sequence number of the event, or [None] when it was
    not taken; [stat]: the size can be read. *)
Definition write_row (stat : bool) (w : write_fate) (e : Row) (s : UsageSpool) : option Z * UsageSpool :=
  match row_marshal e with
  | None => (None, s)
  | Some data =>
      match usApp s with
      | None => (None, s)
      | Some _ =>
          if negb stat then (None, s)
          else if usMax s <? text_size (spool_text s) + text_size data + 1 then (None, count_dropped s)
          else match w with
               | WShort n => (None, append_text (take_bytes n (terminated data)) s)
               | WAll => (Some (usAppSeq s + 1), set_seq (usAppSeq s + 1) (append_text (terminated data) s))
               end
      end
  end.

(** The end of [Write]: true when an fsync that covers the event completed in time. *)
Definition write_end (seq : Z) (in_time : bool) (s : UsageSpool) : bool * UsageSpool :=
  if in_time && waitSynced seq s then (true, set_pending (usPending s + 1) s) else (false, s).

Definition Ack (eventID : string) (s : UsageSpool) : UsageSpool :=
  if String.eqb eventID "" then s else set_acked ({[eventID]} ∪ usAcked s) s.

(** ** Compaction *)

Definition legacy_key (payload : string) : string := "legacy:" +:+ legacy_digest payload.

Definition walLineKey (payload : string) : option string :=
  match probe_id payload with
  | None => None
  | Some id => Some (if String.eqb id "" then legacy_key payload else id)
  end.

(** [rewriteStream] over some complete lines: kept, removed, quarantined. *)
Fixpoint rewrite_lines (ackSet : gset string) (ls : list string) : list string * (nat * list string) :=
  match ls with
  | [] => ([], (0%nat, []))
  | l :: ls =>
      let '(kept, (removed, bad)) := rewrite_lines ackSet ls in
      match walLineKey l with
      | None => (kept, (removed, l :: bad))
      | Some key => if bool_decide (key ∈ ackSet) then (kept, (S removed, bad)) else (l :: kept, (removed, bad))
      end
  end.

(** [rewriteStream] of a whole file: a torn tail is quarantined. *)
Definition rewriteStream (ackSet : gset string) (text : string) : list string * (nat * list string) :=
  let '(ls, tail) := read_lines text in
  let '(kept, (removed, bad)) := rewrite_lines ackSet ls in
  (kept, (removed, if String.eqb tail "" then bad else bad ++ [tail])).

(** What fails during the file part of a compaction; [FailRewrite n]: after [n]
    lines. *)
Inductive compact_fate := COpenFails | CTmpFails | CRewriteFails (n : nat) | CSyncFails | CRenameFails | CDone.

Definition consumeAcks (snapshot : gset string) (s : UsageSpool) : UsageSpool := set_acked (usAcked s ∖ snapshot) s.

(** [Compact] under the file lock, with the snapshot of the acknowledgements it took
    before; [reopened]: the append handle can be opened again. *)
Definition Compact (fate : compact_fate) (stored reopened : bool) (ackSet : gset string) (s : UsageSpool) : nat * UsageSpool :=
  let s := set_app None s in
  let reopen := openAppend reopened in
  match usFile s with
  | None => (size ackSet, reopen (consumeAcks ackSet s))
  | Some f =>
      let '(kept, (removed, bad)) := rewriteStream ackSet (fText f) in
      match fate with
      | COpenFails | CTmpFails => (0%nat, reopen s)
      | CRewriteFails n =>
          let bad := snd (snd (rewrite_lines ackSet (take n (lines (fText f))))) in
          (0%nat, reopen (quarantine stored bad s))
      | CSyncFails | CRenameFails => (0%nat, reopen (quarantine stored bad s))
      | CDone =>
          let text := join_terminated kept in
          let s := consumeAcks ackSet (swap_file (mkFile text text) (quarantine stored bad s)) in
          let s := reopen (set_cursor 0 s) in
          let s := confirmSynced (usAppSeq s) s in
          (removed, set_pending (Z.of_nat (length kept)) s)
      end
  end.

(** The decision of [CompactIfWorthwhile] at time [now]. *)
Definition worthwhile (now : Z) (s : UsageSpool) : bool :=
  let n := Z.of_nat (size (usAcked s)) in
  let stale := match usLastCompact s with None => true | Some t => 30 * Second <? now - t end in
  negb (n =? 0) && ((usPending s <=? 4096) || (usPending s `quot` 2 <=? n) || stale).

Definition CompactIfWorthwhile (now : Z) (fate : compact_fate) (stored reopened : bool) (s : UsageSpool) : UsageSpool :=
  if worthwhile now s then
    let s := set_last_compact (Some now) s in
    snd (Compact fate stored reopened (usAcked s) s)
  else s.

(** ** Replay *)

Record replay_item := mkReplayItem { riID : string; riEntry : Row; riOff : Z }.

Definition replay_key (e : Row) (payload : string) : string :=
  if String.eqb (EventID e) "" then legacy_key payload else EventID e.

(** Rows of the lines from offset [off] on, at most [n] of them, and the offset where
    the reading stopped. *)
Fixpoint read_batch (acked : gset string) (n : nat) (off : Z) (ls : list string) : list replay_item * Z :=
  match n, ls with
  | O, _ | _, [] => ([], off)
  | S n', l :: ls =>
      let next := off + text_size l + 1 in
      match row_unmarshal l with
      | None => read_batch acked n next ls
      | Some e =>
          let id := replay_key e l in
          if bool_decide (id ∈ acked) then read_batch acked n next ls
          else let '(batch, cur) := read_batch acked n' next ls in (mkReplayItem id e off :: batch, cur)
      end
  end.

(** The snapshot of [Replay] under the lock: [None] when the file cannot be opened;
    [seek]: the cursor can be reached; [avail]: the lines that can be read before an
    error, if there is one. *)
Definition replay_read (opened seek : bool) (avail : option nat) (max : Z) (s : UsageSpool) : list replay_item * UsageSpool :=
  let max := if max <=? 0 then 200 else max in
  if negb opened || negb (bool_decide (is_Some (usFile s))) then ([], s)
  else
    let cursor := if seek then usCursor s else 0 in
    let ls := lines (drop_bytes (Z.to_nat cursor) (spool_text s)) in
    let ls := match avail with Some k => take k ls | None => ls end in
    let '(batch, off) := read_batch (usAcked s) (Z.to_nat max) cursor ls in
    (batch, set_cursor off s).

(** The rest of [Replay] with the answer of the database; the count of rows is the
    progress of the round. *)
Definition replay_end (batch : list replay_item) (ok : bool) (now : Z) (fate : compact_fate) (stored reopened : bool) (s : UsageSpool)
  : nat * UsageSpool :=
  match batch with
  | [] => (0%nat, s)
  | it :: _ =>
      if ok then (length batch, CompactIfWorthwhile now fate stored reopened (foldl (fun s it => Ack (riID it) s) s batch))
      else (0%nat, set_cursor (riOff it) s)
  end.
End Rows.

(** ** Lines of a text *)

Lemma read_lines_terminated l s :
  string_has newline l = false -> read_lines (terminated l +:+ s) = (l :: fst (read_lines s), snd (read_lines s)).
Proof.
  induction l as [|c l IH]; intros H.
  - change (read_lines (String newline s) = ("" :: fst (read_lines s), snd (read_lines s))). cbn. destruct (read_lines s); done.
  - cbn in H. apply orb_false_iff in H as [Hc Hl]. specialize (IH Hl).
    change (read_lines (String c (terminated l +:+ s)) = (String c l :: fst (read_lines s), snd (read_lines s))).
    cbn [read_lines]. rewrite IH. destruct (Ascii.eqb_spec c newline) as [->|]; [by rewrite Ascii.eqb_refl in Hc|done].
Qed.

Lemma lines_terminated l s : string_has newline l = false -> lines (terminated l +:+ s) = l :: lines s.
Proof. intros Hl. unfold lines. by rewrite read_lines_terminated. Qed.

(** The lines of a prefix are the first lines of the text. *)
Lemma lines_prefix a b : exists ls, lines (a +:+ b) = lines a ++ ls.
Proof.
  unfold lines. induction a as [|c a [ls IH]]; [by eexists|].
  change (exists ls, fst (read_lines (String c (a +:+ b))) = fst (read_lines (String c a)) ++ ls). cbn [read_lines].
  destruct (read_lines (a +:+ b)) as [l1 t1], (read_lines a) as [l2 t2]. cbn in IH. subst l1.
  destruct (Ascii.eqb c newline); [by exists ls|]. destruct l2 as [|x l2]; cbn; [|by exists ls].
  destruct ls as [|y ls]; cbn; eauto.
Qed.

(** Texts that consist of complete lines. *)
Definition whole_text (s : string) : Prop := snd (read_lines s) = "".

Lemma lines_app a b : whole_text a -> lines (a +:+ b) = lines a ++ lines b.
Proof.
  unfold whole_text, lines. induction a as [|c a IH]; [done|].
  change (snd (read_lines (String c a)) = "" -> fst (read_lines (String c (a +:+ b))) = fst (read_lines (String c a)) ++ fst (read_lines b)).
  cbn [read_lines]. destruct (read_lines (a +:+ b)) as [l1 t1], (read_lines a) as [l2 t2]. cbn in IH.
  destruct (Ascii.eqb c newline); cbn; [intros Ht; by rewrite IH|].
  destruct l2 as [|x l2]; cbn; [done|]. intros Ht. by rewrite (IH Ht).
Qed.

Lemma whole_app a b : whole_text a -> whole_text b -> whole_text (a +:+ b).
Proof.
  unfold whole_text. intros Ha Hb. revert Ha. induction a as [|c a IH]; [done|].
  change (snd (read_lines (String c a)) = "" -> snd (read_lines (String c (a +:+ b))) = "").
  cbn [read_lines]. destruct (read_lines (a +:+ b)) as [l1 t1] eqn:E, (read_lines a) as [l2 t2] eqn:E2. cbn in IH.
  destruct (Ascii.eqb c newline); cbn; [auto|].
  destruct l2 as [|x l2]; cbn; [done|]. intros Ht. specialize (IH Ht). subst t1.
  destruct l1 as [|y l1]; cbn; [|done].
  exfalso. pose proof (lines_prefix a b) as [ls Hl]. unfold lines in Hl. rewrite E, E2 in Hl. done.
Qed.

Lemma whole_terminated l : string_has newline l = false -> whole_text (terminated l).
Proof. intros H. unfold whole_text. rewrite <- (string_app_empty_r (terminated l)), read_lines_terminated by done. done. Qed.

Lemma lines_one_line s l : l ∈ lines s -> string_has newline l = false.
Proof.
  unfold lines. revert l. induction s as [|c s IH]; intros l; cbn; [by intros ?%elem_of_nil|].
  destruct (read_lines s) as [ls t]. cbn in IH. destruct (Ascii.eqb_spec c newline) as [->|Hne]; cbn.
  - intros [->|Hl]%elem_of_cons; [done|auto].
  - destruct ls as [|x ls]; cbn; [by intros ?%elem_of_nil|]. intros [->|Hl]%elem_of_cons; [|apply IH; by right].
    cbn. rewrite (IH x) by left. apply orb_false_iff; split; [|done]. by apply Ascii.eqb_neq; intros <-.
Qed.

Lemma join_lines ls : Forall (fun l => string_has newline l = false) ls -> read_lines (join_terminated ls) = (ls, "").
Proof. induction 1 as [|l ls Hl _ IH]; [done|]. cbn [join_terminated foldr]. fold (join_terminated ls). by rewrite read_lines_terminated, IH. Qed.

Lemma lines_join ls : Forall (fun l => string_has newline l = false) ls -> lines (join_terminated ls) = ls.
Proof. intros Hf. unfold lines. by rewrite join_lines. Qed.

Lemma whole_join ls : Forall (fun l => string_has newline l = false) ls -> whole_text (join_terminated ls).
Proof. intros Hf. unfold whole_text. by rewrite join_lines. Qed.

Lemma lines_all_one_line s : Forall (fun l => string_has newline l = false) (lines s).
Proof. apply Forall_forall. intros l Hl. by eapply lines_one_line. Qed.

(** ** Executions *)

Section Executions.
Context {Row : Type} `{LawfulRowCodec Row}.

(** The steps of the goroutines that share a spool. *)
Inductive spool_op :=
  | OWrite (stat : bool) (w : write_fate) (e : Row)
  | OWriteEnd (seq : Z) (in_time : bool)
  | OCapture
  | OSyncStart
  | OSyncEnd (ok : bool)
  | OConfirm
  | OAck (id : string)
  | OStamp (now : Z)
  | OCompact (fate : compact_fate) (stored reopened : bool) (ackSet : gset string)
  | OReplayRead (opened seek : bool) (avail : option nat) (max : Z)
  | OReplayFail (off : Z).

Definition spool_step (s : UsageSpool) (o : spool_op) : UsageSpool :=
  match o with
  | OWrite stat w e => snd (write_row stat w e s)
  | OWriteEnd seq t => snd (write_end seq t s)
  | OCapture => sync_capture s
  | OSyncStart => sync_start s
  | OSyncEnd ok => sync_end ok s
  | OConfirm => sync_confirm s
  | OAck id => Ack id s
  | OStamp now => set_last_compact (Some now) s
  | OCompact fate stored reopened ackSet => snd (Compact fate stored reopened ackSet s)
  | OReplayRead opened seek avail max => snd (replay_read opened seek avail max s)
  | OReplayFail off => set_cursor off s
  end.

Definition run_spool (os : list spool_op) (s : UsageSpool) : UsageSpool := foldl spool_step s os.

(** The acknowledgements of an execution. *)
Definition acks (os : list spool_op) : gset string :=
  list_to_set (omap (fun o => match o with OAck id => Some id | _ => None end) os).

(** A compaction works on acknowledgements made before ([ever]); no write is torn. *)
Definition fair_op (ever : gset string) (o : spool_op) : Prop :=
  match o with
  | OCompact _ _ _ ackSet => ackSet ⊆ ever
  | OWrite _ (WShort n) _ => n = 0%nat
  | _ => True
  end.

Fixpoint fair_run (ever : gset string) (os : list spool_op) : Prop :=
  match os with
  | [] => True
  | o :: os => fair_op ever o /\ fair_run (ever ∪ acks [o]) os
  end.

(** [W]: the sequence numbers and lines of the rows taken so far. *)
Definition safe (W : list (Z * string)) (ever : gset string) (upto : Z) (text : string) : Prop :=
  forall q l, (q, l) ∈ W -> q <= upto -> l ∈ lines text \/ (exists k, walLineKey l = Some k /\ k ∈ ever).

Definition syncer_ok (W : list (Z * string)) (ever : gset string) (s : UsageSpool) : Prop :=
  match usSyncer s with
  | SyncIdle => True
  | SyncCaptured h target => target <= usAppSeq s /\ (h < usHandles s)%nat
  | SyncRunning inode t target =>
      target <= usAppSeq s /\ (inode <= usInode s)%nat
      /\ (inode = usInode s -> whole_text t /\ safe W ever target t /\ exists r, spool_text s = t +:+ r)
      /\ ((inode < usInode s)%nat -> safe W ever target (stable_text (usFile s)))
  | SyncDone target => target <= usAppSeq s /\ safe W ever target (stable_text (usFile s))
  end.

Record wal_ok (W : list (Z * string)) (ever : gset string) (s : UsageSpool) : Prop := mkWalOk {
  wo_lines : Forall (fun p => string_has newline (snd p) = false /\ is_Some (walLineKey (snd p)) /\ fst p <= usAppSeq s) W;
  wo_app : is_Some (usApp s) -> is_Some (usFile s);
  wo_handle : forall h, usApp s = Some h -> (h < usHandles s)%nat;
  wo_whole : whole_text (spool_text s);
  wo_stable : whole_text (stable_text (usFile s)) /\ exists r, spool_text s = stable_text (usFile s) +:+ r;
  wo_text : safe W ever (usAppSeq s) (spool_text s);
  wo_synced : usSyncedSeq s <= usAppSeq s /\ safe W ever (usSyncedSeq s) (stable_text (usFile s));
  wo_syncer : syncer_ok W ever s
}.

Lemma safe_mono W ever ever' upto upto' text text' :
  safe W ever upto text -> upto' <= upto -> ever ⊆ ever' -> (forall l, l ∈ lines text -> l ∈ lines text') ->
  safe W ever' upto' text'.
Proof. intros Hs Hu He Ht q l Hin Hq. destruct (Hs q l Hin ltac:(lia)) as [Hl|(k & Hk & Hke)]; [auto|]. right. exists k. set_solver. Qed.

Lemma safe_same W ever text upto upto' :
  safe W ever upto text -> upto' <= upto -> safe W ever upto' text.
Proof. intros Hs Hu. by eapply safe_mono. Qed.

Lemma safe_cons W ever upto text q l : safe W ever upto text -> upto < q -> safe ((q, l) :: W) ever upto text.
Proof. intros Hs Hq q' l' [[= -> ->]|Hin]%elem_of_cons Hle; [lia|by eapply Hs]. Qed.

(** The invariant looks at these fields only. *)
Definition core (s : UsageSpool) :=
  (usFile s, usInode s, usApp s, usHandles s, usAppSeq s, usSyncedSeq s, usSyncer s).

Lemma wal_ok_core W ever s s' : core s = core s' -> wal_ok W ever s -> wal_ok W ever s'.
Proof.
  destruct s, s'; unfold core; cbn. intros E Hok. simplify_eq. destruct Hok; by split.
Qed.

Lemma wal_ok_mono W ever ever' s : ever ⊆ ever' -> wal_ok W ever s -> wal_ok W ever' s.
Proof.
  intros He []. assert (Hm : forall upto t, safe W ever upto t -> safe W ever' upto t)
    by (intros upto t Hs; eapply safe_mono; eauto; lia).
  split; try done; [by apply Hm|destruct wo_synced0; split; [done|by apply Hm]|].
  unfold syncer_ok in *. destruct (usSyncer s); [done|done| |naive_solver].
  destruct wo_syncer0 as (? & ? & H1 & H2). split_and!; try done; [|naive_solver].
  intros Hi. destruct (H1 Hi) as (? & ? & ?). split_and!; auto.
Qed.

Definition taken (s : UsageSpool) (o : spool_op) : list (Z * string) :=
  match o with
  | OWrite stat w e =>
      match fst (write_row stat w e s), row_marshal e with Some q, Some d => [(q, d)] | _, _ => [] end
  | _ => []
  end.

Lemma marshal_key e d : row_marshal e = Some d -> exists k, walLineKey d = Some k /\ (EventID e <> "" -> k = EventID e).
Proof.
  intros E. destruct (marshal_reads_back e d E) as (e' & Eu & Eid). pose proof (probe_agrees _ _ Eu) as Ep.
  unfold walLineKey. rewrite Ep, Eid. eexists; split; [done|]. intros Hne. by rewrite (proj2 (String.eqb_neq _ _) Hne).
Qed.

Lemma wal_ok_append W ever s e d :
  wal_ok W ever s -> is_Some (usApp s) -> row_marshal e = Some d ->
  wal_ok ((usAppSeq s + 1, d) :: W) ever (set_seq (usAppSeq s + 1) (append_text (terminated d) s)).
Proof.
  intros [] Ha Hm. destruct (wo_app0 Ha) as [f Ef]. destruct (marshal_key e d Hm) as (k & Hk & _).
  pose proof (marshal_one_line e d Hm) as Hd. unfold append_text. rewrite Ef.
  unfold spool_text, file_text, stable_text in *. rewrite Ef in *.
  assert (Hl : lines (fText f +:+ terminated d) = lines (fText f) ++ [d]).
  { rewrite lines_app by done. f_equal. rewrite <- (string_app_empty_r (terminated d)), lines_terminated; done. }
  split; cbn.
  - constructor; [cbn; split_and!; [done|by eexists|lia]|]. eapply Forall_impl; [exact wo_lines0|]. cbn. intros p (? & ? & ?). split_and!; [done..|lia].
  - intros _; by eexists.
  - done.
  - unfold spool_text; cbn. apply whole_app; [done|by apply whole_terminated].
  - destruct wo_stable0 as [? [r Hr]]. split; [done|]. exists (r +:+ terminated d). unfold spool_text; cbn. by rewrite Hr, string_app_assoc.
  - unfold spool_text; cbn. intros q l [[= -> ->]|Hin]%elem_of_cons Hq.
    + left. rewrite Hl. set_solver.
    + rewrite Forall_forall in wo_lines0. destruct (wo_lines0 _ Hin) as (_ & _ & Hle).
      destruct (wo_text0 q l Hin Hle) as [?|?]; [left; rewrite Hl; set_solver|by right].
  - destruct wo_synced0. split; [lia|]. apply safe_cons; [done|lia].
  - unfold syncer_ok in *. cbn. unfold spool_text, stable_text in *. rewrite Ef in wo_syncer0. cbn.
    destruct (usSyncer s) as [|h t|i t tg|tg]; [done|destruct wo_syncer0; split; [lia|done]| |].
    + destruct wo_syncer0 as (? & ? & H1 & H2). split_and!; [lia|done| |].
      * intros Hi. destruct (H1 Hi) as (? & ? & r & Hr). split_and!; [done|apply safe_cons; [done|lia]|].
        exists (r +:+ terminated d). cbn in Hr. by rewrite Hr, string_app_assoc.
      * intros Hi. apply safe_cons; [auto|lia].
    + destruct wo_syncer0. split; [lia|]. apply safe_cons; [done|lia].
Qed.

(** A step that only moves the group-commit goroutine. *)
Lemma wal_ok_syncer W ever s y : wal_ok W ever s -> syncer_ok W ever (set_syncer y s) -> wal_ok W ever (set_syncer y s).
Proof. intros [] Hy. by split. Qed.

Lemma wal_ok_capture W ever s : wal_ok W ever s -> wal_ok W ever (sync_capture s).
Proof.
  intros Hok. unfold sync_capture. destruct (usSyncer s); try done. destruct (usApp s) as [h|] eqn:Ea; [|done].
  destruct (usClosed s); [done|]. apply wal_ok_syncer; [done|]. split; cbn; [lia|by apply (wo_handle _ _ _ Hok)].
Qed.

Lemma wal_ok_start W ever s : wal_ok W ever s -> wal_ok W ever (sync_start s).
Proof.
  intros Hok. unfold sync_start. pose proof (wo_syncer _ _ _ Hok) as Hs. unfold syncer_ok in Hs.
  destruct (usSyncer s) as [|h target| |] eqn:Es; try done. destruct Hs as [Ht Hh].
  destruct (bool_decide (usApp s = Some h)); [|by apply wal_ok_syncer].
  apply wal_ok_syncer; [done|]. unfold syncer_ok; cbn. split_and!; [lia|lia| |lia].
  intros _. split_and!; [apply (wo_whole _ _ _ Hok)|eapply safe_same; [apply (wo_text _ _ _ Hok)|done]|].
  exists "". by rewrite string_app_empty_r.
Qed.

Lemma prefix_longer a b r r' : a +:+ r = b +:+ r' -> (String.length a <= String.length b)%nat -> exists m, b = a +:+ m.
Proof.
  revert b. induction a as [|c a IH]; intros b Hb Hl; [by exists b|].
  destruct b as [|c' b]; [cbn in Hl; lia|]. change (String c (a +:+ r) = String c' (b +:+ r')) in Hb. injection Hb as -> Hb.
  cbn in Hl. destruct (IH b Hb ltac:(lia)) as [m ->]. by exists m.
Qed.

Lemma prefix_lines a m l : l ∈ lines a -> l ∈ lines (a +:+ m).
Proof. intros Hl. destruct (lines_prefix a m) as [ls ->]. set_solver. Qed.

(** More of the file becomes stable. *)
Lemma wal_ok_stable W ever s f t :
  wal_ok W ever s -> usFile s = Some f -> whole_text t -> (exists m, t = fStable f +:+ m) -> (exists r, fText f = t +:+ r) ->
  wal_ok W ever (set_file (Some (mkFile (fText f) t)) s).
Proof.
  intros [] Ef Hw [m Hm] [r Hr]. unfold spool_text, file_text, stable_text in *. rewrite Ef in *.
  assert (Hsafe : forall upto, safe W ever upto (fStable f) -> safe W ever upto t).
  { intros upto Hs. eapply safe_mono; [exact Hs|lia|done|]. rewrite Hm. intros l. apply prefix_lines. }
  split; cbn; try done.
  - split; [done|]. by exists r.
  - destruct wo_synced0. split; [done|by apply Hsafe].
  - unfold syncer_ok in *; cbn. unfold spool_text, stable_text in *; rewrite Ef in wo_syncer0; cbn.
    destruct (usSyncer s); [done|done| |].
    + destruct wo_syncer0 as (? & ? & H1 & H2). split_and!; try done. intros Hi. apply Hsafe, H2, Hi.
    + destruct wo_syncer0. split; [done|by apply Hsafe].
Qed.

Lemma wal_ok_end W ever ok s : wal_ok W ever s -> wal_ok W ever (sync_end ok s).
Proof.
  intros Hok. unfold sync_end. pose proof (wo_syncer _ _ _ Hok) as Hs. unfold syncer_ok in Hs.
  destruct (usSyncer s) as [| |inode t target|] eqn:Es; try done. destruct ok; [|by apply wal_ok_syncer].
  destruct Hs as (Ht & Hi & Hsame & Hold).
  destruct (usFile s) as [f|] eqn:Ef.
  - destruct (Nat.eqb_spec inode (usInode s)) as [->|Hne]; cbn [andb].
    + destruct (Hsame eq_refl) as (Hw & Hsafe & r & Hr). unfold spool_text, file_text in Hr. rewrite Ef in Hr.
      destruct (wo_stable _ _ _ Hok) as [_ [r' Hr']]. unfold spool_text, file_text, stable_text in Hr'. rewrite Ef in Hr'.
      destruct (Nat.ltb_spec (String.length (fStable f)) (String.length t)) as [Hlt|Hge].
      * apply wal_ok_syncer; [|split; cbn; [done|exact Hsafe]].
        apply wal_ok_stable; [done|done|done| |by exists r]. eapply prefix_longer; [|lia]. by rewrite <- Hr', Hr.
      * apply wal_ok_syncer; [by rewrite <- Ef; destruct s; apply Hok|]. split; cbn; [done|].
        destruct (prefix_longer t (fStable f) r r') as [m ->]; [by rewrite <- Hr, Hr'|done|].
        eapply safe_mono; [exact Hsafe|lia|done|]. intros l; apply prefix_lines.
    + apply wal_ok_syncer; [by rewrite <- Ef; destruct s; apply Hok|]. split; cbn; [done|].
      apply Hold. lia.
  - apply wal_ok_syncer; [by rewrite <- Ef; destruct s; apply Hok|]. split; cbn; [done|].
    destruct (decide (inode = usInode s)) as [He|Hne]; [|apply Hold; lia].
    destruct (Hsame He) as (_ & Hsafe & r & Hr). unfold spool_text in Hr. rewrite Ef in Hr. by destruct t.
Qed.

Lemma wal_ok_confirm W ever target s :
  wal_ok W ever s -> target <= usAppSeq s -> safe W ever target (stable_text (usFile s)) -> wal_ok W ever (confirmSynced target s).
Proof.
  intros Hok Ht Hs. unfold confirmSynced. destruct (usSyncedSeq s <? target); [|done].
  destruct Hok; split; try done.
Qed.

Lemma wal_ok_confirm_step W ever s : wal_ok W ever s -> wal_ok W ever (sync_confirm s).
Proof.
  intros Hok. unfold sync_confirm. pose proof (wo_syncer _ _ _ Hok) as Hs. unfold syncer_ok in Hs.
  destruct (usSyncer s); try done. destruct Hs. by apply wal_ok_syncer; [apply wal_ok_confirm|].
Qed.

(** *** Compaction *)

Lemma rewrite_lines_kept ackSet ls l k :
  l ∈ ls -> walLineKey l = Some k -> l ∈ fst (rewrite_lines ackSet ls) \/ k ∈ ackSet.
Proof.
  induction ls as [|x ls IH]; [by intros ?%elem_of_nil|]. cbn. destruct (rewrite_lines ackSet ls) as [kept [removed bad]]. cbn in IH.
  intros [->|Hin]%elem_of_cons Hk.
  - rewrite Hk. destruct (bool_decide_reflect (k ∈ ackSet)); [by right|]. left; cbn; left.
  - destruct (IH Hin Hk) as [Hl|?]; [|by right]. left. destruct (walLineKey x); [|done]. case_bool_decide; cbn; [done|by right].
Qed.

Lemma rewrite_lines_sub ackSet ls l : l ∈ fst (rewrite_lines ackSet ls) -> l ∈ ls.
Proof.
  induction ls as [|x ls IH]; cbn; [done|]. destruct (rewrite_lines ackSet ls) as [kept [removed bad]]. cbn in IH.
  destruct (walLineKey x); [case_bool_decide|]; cbn; rewrite ?elem_of_cons; naive_solver.
Qed.

Lemma rewriteStream_kept ackSet text : fst (rewriteStream ackSet text) = fst (rewrite_lines ackSet (lines text)).
Proof. unfold rewriteStream, lines. destruct (read_lines text) as [ls t]. cbn. by destruct (rewrite_lines ackSet ls) as [kept [removed bad]]. Qed.

Lemma kept_one_line ackSet text : Forall (fun l => string_has newline l = false) (fst (rewriteStream ackSet text)).
Proof.
  rewrite rewriteStream_kept. apply Forall_forall. intros l Hl. apply rewrite_lines_sub in Hl. by eapply lines_one_line.
Qed.

(** The append handle is closed, opened again or not. *)
Lemma wal_ok_close W ever s : wal_ok W ever s -> wal_ok W ever (set_app None s).
Proof. intros []. split; try done. by intros [? ?]. Qed.

Lemma wal_ok_open W ever ok s : wal_ok W ever s -> wal_ok W ever (openAppend ok s).
Proof.
  intros []. unfold openAppend. destruct ok; [|by split]. unfold spool_text, file_text, stable_text in *.
  assert (Ht : forall f, fText (default (mkFile "" "") f) = match f with Some f => fText f | None => "" end) by (by intros [?|]).
  assert (Hst : forall f, fStable (default (mkFile "" "") f) = match f with Some f => fStable f | None => "" end) by (by intros [?|]).
  split; cbn; unfold spool_text, syncer_ok in *; cbn; rewrite ?Ht, ?Hst; try done.
  - intros h [= <-]. lia.
  - destruct (usSyncer s); try done. destruct wo_syncer0; split; [done|lia].
Qed.

Lemma wal_ok_swap W ever s f ackSet :
  wal_ok W ever s -> usFile s = Some f -> ackSet ⊆ ever ->
  let t := join_terminated (fst (rewriteStream ackSet (fText f))) in
  safe W ever (usAppSeq s) t /\ wal_ok W ever (swap_file (mkFile t t) s).
Proof.
  intros Hok Ef Hack t. pose proof (kept_one_line ackSet (fText f)) as Hone.
  assert (Hs : safe W ever (usAppSeq s) t).
  { intros q l Hin Hq. pose proof (proj1 (Forall_forall _ _) (wo_lines _ _ _ Hok) _ Hin) as (_ & [k Hk] & _). cbn in Hk.
    destruct (wo_text _ _ _ Hok q l Hin Hq) as [Hl|?]; [|by right]. unfold spool_text, file_text in Hl. rewrite Ef in Hl.
    destruct (rewrite_lines_kept ackSet _ l k Hl Hk) as [Hkept|Hka]; [|right; exists k; split; [done|set_solver]].
    left. unfold t. by rewrite lines_join, rewriteStream_kept. }
  split; [done|]. destruct Hok. split; cbn; try done.
  - by apply whole_join.
  - split; [by apply whole_join|]. exists "". unfold spool_text; cbn. by rewrite string_app_empty_r.
  - destruct wo_synced0. split; [done|]. by eapply safe_same.
  - unfold syncer_ok in *; cbn. destruct (usSyncer s); [done|done| |].
    + destruct wo_syncer0 as (? & ? & _ & _). split_and!; [done|lia|lia|]. intros _. by eapply safe_same.
    + destruct wo_syncer0. split; [done|by eapply safe_same].
Qed.

Lemma wal_ok_compact W ever fate stored reopened ackSet s :
  wal_ok W ever s -> ackSet ⊆ ever -> wal_ok W ever (snd (Compact fate stored reopened ackSet s)).
Proof.
  intros Hok Hack. unfold Compact. apply wal_ok_close in Hok. set (s0 := set_app None s) in *.
  assert (Hq : forall ls, wal_ok W ever (quarantine stored ls s0)) by (intros ls; by apply (wal_ok_core _ _ s0)).
  destruct (usFile s0) as [f|] eqn:Ef; [|apply wal_ok_open; by apply (wal_ok_core _ _ s0)].
  pose proof (fun bad => wal_ok_swap W ever (quarantine stored bad s0) f ackSet (Hq bad) Ef Hack) as Hswap.
  destruct (rewriteStream ackSet (fText f)) as [kept [removed bad]] eqn:Er. cbn in Hswap.
  destruct fate; cbn [snd]; [by apply wal_ok_open..|].
  destruct (Hswap bad) as [Hsafe Hsw]. set (s1 := swap_file _ _) in *.
  apply (wal_ok_core _ _ (confirmSynced (usAppSeq s1) (openAppend reopened s1))).
  { unfold core, confirmSynced, openAppend. destruct reopened; cbn; destruct (_ <? _); done. }
  apply wal_ok_confirm; [by apply wal_ok_open|destruct reopened; cbn; lia|].
  destruct reopened; exact Hsafe.
Qed.

Lemma wal_ok_step W ever s o : wal_ok W ever s -> fair_op ever o -> wal_ok (taken s o ++ W) (ever ∪ acks [o]) (spool_step s o).
Proof.
  intros Hok Hfair. apply (wal_ok_mono _ ever); [set_solver|].
  destruct o as [stat w e|seq t| | |ok| |id|now|fate stored reopened ackSet|opened seek avail max|off]; cbn [spool_step taken app].
  - unfold write_row. destruct (row_marshal e) as [d|] eqn:Em; [|done]. destruct (usApp s) as [h|] eqn:Ea; [|done].
    destruct (negb stat); [done|]. destruct (usMax s <? _); [by apply (wal_ok_core _ _ s)|].
    destruct w as [|n]; cbn [fst snd].
    + by eapply wal_ok_append; [|rewrite Ea; eexists|].
    + cbn in Hfair. subst n. cbn [take_bytes]. unfold append_text. destruct (usFile s) as [f|] eqn:Ef; [|by apply (wal_ok_core _ _ s); [unfold core; cbn; rewrite Ef|]].
      apply (wal_ok_core _ _ s); [|done]. unfold core; cbn. rewrite string_app_empty_r, Ef. by destruct f.
  - unfold write_end. destruct (t && waitSynced seq s); by apply (wal_ok_core _ _ s).
  - by apply wal_ok_capture.
  - by apply wal_ok_start.
  - by apply wal_ok_end.
  - by apply wal_ok_confirm_step.
  - unfold Ack. destruct (String.eqb id ""); by apply (wal_ok_core _ _ s).
  - by apply (wal_ok_core _ _ s).
  - by apply wal_ok_compact.
  - unfold replay_read. destruct (negb opened || _); [done|]. destruct (read_batch _ _ _ _). by apply (wal_ok_core _ _ s).
  - by apply (wal_ok_core _ _ s).
Qed.

Lemma wal_ok_run os : forall W ever s,
  wal_ok W ever s -> fair_run ever os -> exists W', (forall p, p ∈ W -> p ∈ W') /\ wal_ok W' (ever ∪ acks os) (run_spool os s).
Proof.
  induction os as [|o os IH]; intros W ever s Hok Hf.
  - exists W. split; [done|]. eapply wal_ok_mono; [|exact Hok]. set_solver.
  - destruct Hf as [Hf Hfs]. destruct (IH _ _ _ (wal_ok_step _ _ _ _ Hok Hf) Hfs) as (W' & Hsub & Hok').
    exists W'. split; [set_solver|]. eapply wal_ok_mono; [|exact Hok'].
    unfold acks. cbn. destruct o; cbn; set_solver.
Qed.

Lemma acks_app os os' : acks (os ++ os') = acks os ∪ acks os'.
Proof. unfold acks. by rewrite omap_app, list_to_set_app_L. Qed.

Lemma fair_run_app ever os os' : fair_run ever (os ++ os') <-> fair_run ever os /\ fair_run (ever ∪ acks os) os'.
Proof.
  revert ever; induction os as [|o os IH]; intros ever; cbn [fair_run app].
  - replace (ever ∪ acks []) with ever by set_solver. tauto.
  - rewrite IH. change (o :: os) with ([o] ++ os). rewrite acks_app, (assoc_L (∪)). tauto.
Qed.

Lemma synced_mono os s : usSyncedSeq s <= usSyncedSeq (run_spool os s).
Proof.
  revert s; induction os as [|o os IH]; intros s; [cbn; lia|]. etrans; [|apply IH].
  assert (Hc : forall t s, usSyncedSeq s <= usSyncedSeq (confirmSynced t s)).
  { intros t s'. unfold confirmSynced. destruct (Z.ltb_spec (usSyncedSeq s') t); cbn; lia. }
  destruct o as [stat w e|seq t| | |ok| |id|now|fate stored reopened ackSet|opened seek avail max|off]; cbn [spool_step].
  - unfold write_row. repeat case_match; cbn; lia.
  - unfold write_end. case_match; cbn; lia.
  - unfold sync_capture. repeat case_match; cbn; lia.
  - unfold sync_start. repeat case_match; cbn; lia.
  - unfold sync_end. repeat case_match; cbn; lia.
  - unfold sync_confirm. case_match; cbn; try lia. apply Hc.
  - unfold Ack. case_match; cbn; lia.
  - cbn; lia.
  - unfold Compact. cbn. destruct (usFile s); [|destruct reopened; cbn; lia].
    destruct (rewriteStream _ _) as [kept [removed bad]]. destruct fate; [destruct reopened; cbn; lia..|].
    cbn [snd]. etrans; [|apply Hc]. destruct reopened; cbn; lia.
  - unfold replay_read. case_match; cbn; [lia|]. destruct (read_batch _ _ _ _); cbn; lia.
  - cbn; lia.
Qed.

(** ** Crashes *)

(** After a crash the file has its stable part and some more of its text. *)
Definition crash_file (f : option wal_file) (f' : option wal_file) : Prop :=
  match f, f' with
  | Some f, Some f' => fStable f' = fStable f /\ (exists a, fText f' = fStable f +:+ a) /\ exists b, fText f = fText f' +:+ b
  | None, None => True
  | _, _ => False
  end.

Lemma reboot_lines dir max f s l :
  newUsageSpool dir max true true f = Some s -> l ∈ lines (stable_text f) ->
  (exists a, file_text f = stable_text f +:+ a) -> l ∈ lines (spool_text s).
Proof.
  unfold newUsageSpool. destruct (String.eqb dir ""); [done|]. intros [= <-] Hl [a Ha]. unfold spool_text; cbn.
  destruct f as [f|]; cbn in *; [|done]. rewrite lines_join by apply lines_all_one_line. rewrite Ha. by apply prefix_lines.
Qed.

Lemma newUsageSpool_ok dir max f s : newUsageSpool dir max true true f = Some s ->
  (exists a, file_text f = stable_text f +:+ a) -> wal_ok [] ∅ s.
Proof.
  unfold newUsageSpool. destruct (String.eqb dir ""); [done|]. intros [= <-] [a Ha].
  assert (Hsafe : forall u t, safe [] ∅ u t) by (intros u t q l Hin; by apply elem_of_nil in Hin).
  split; cbn; try done.
  - intros h [= <-]; lia.
  - unfold spool_text; cbn. destruct f as [f|]; cbn; [|done]. apply whole_join, lines_all_one_line.
  - unfold spool_text; cbn. destruct f as [f|]; cbn in *; [|by split; [done|exists ""]].
    split; [apply whole_join, lines_all_one_line|]. rewrite Ha. destruct (lines_prefix (fStable f) a) as [ls ->].
    unfold join_terminated. rewrite foldr_app. generalize (foldr (λ (l : string) (s : string), terminated l +:+ s) "" ls) as r. intros r.
    exists r. induction (lines (fStable f)) as [|l l' IH]; cbn; [done|]. by rewrite IH, string_app_assoc.
Qed.

(** A write that was confirmed is never lost: the row of a [Write] that returned true,
    whatever writers, fsyncs, compactions (failing at any point) and replays run
    before and after it, is in the log that the next process opens after a crash,
    or its event was acknowledged as stored. *)
Lemma confirmed_write_survives dir max f0 s0 os1 stat e q s2 os2 os3 dir' max' f s' :
  (exists a, file_text f0 = stable_text f0 +:+ a) ->
  newUsageSpool dir max true true f0 = Some s0 ->
  EventID e <> "" -> write_row stat WAll e (run_spool os1 s0) = (Some q, s2) ->
  fst (write_end q true (run_spool os2 s2)) = true ->
  fair_run ∅ (os1 ++ OWrite stat WAll e :: os2 ++ os3) ->
  crash_file (usFile (run_spool os3 (run_spool os2 s2))) f -> newUsageSpool dir' max' true true f = Some s' ->
  (exists d, row_marshal e = Some d /\ d ∈ lines (spool_text s')) \/ EventID e ∈ acks (os1 ++ os2 ++ os3).
Proof.
  intros Hp0 Hnew He Hw Hend Hfair Hcrash Hboot.
  pose proof (newUsageSpool_ok _ _ _ _ Hnew Hp0) as Hok0.
  assert (Hm : exists d, row_marshal e = Some d) by (unfold write_row in Hw; destruct (row_marshal e); [by eexists|done]).
  destruct Hm as [d Hm]. destruct (marshal_key e d Hm) as (k & Hk & Hkid). specialize (Hkid He). subst k.
  apply fair_run_app in Hfair as [Hf1 [Hfw Hf23]].
  destruct (wal_ok_run os1 _ _ _ Hok0 Hf1) as (W1 & _ & Hok1).
  pose proof (wal_ok_step _ _ _ (OWrite stat WAll e) Hok1 Hfw) as Hok2. cbn [spool_step taken] in Hok2. rewrite Hw, Hm in Hok2. cbn [fst snd app] in Hok2.
  apply fair_run_app in Hf23 as [Hf2 Hf3].
  destruct (wal_ok_run os2 _ _ _ Hok2 Hf2) as (W3 & Hsub3 & Hok3).
  assert (Hsync : q <= usSyncedSeq (run_spool os2 s2)).
  { unfold write_end, waitSynced in Hend. destruct (Z.leb_spec q (usSyncedSeq (run_spool os2 s2))); [done|discriminate]. }
  destruct (wal_ok_run os3 _ _ _ Hok3 Hf3) as (W4 & Hsub4 & Hok4).
  pose proof (synced_mono os3 (run_spool os2 s2)) as Hmono.
  destruct (proj2 (wo_synced _ _ _ Hok4) q d) as [Hl|(k & Hk' & Hin)]; [apply Hsub4, Hsub3; left|lia| |].
  - left. exists d. split; [done|]. eapply reboot_lines; [exact Hboot| |].
    + destruct (usFile (run_spool os3 (run_spool os2 s2))), f; try done. cbn in Hcrash |- *. by rewrite (proj1 Hcrash).
    + destruct (usFile (run_spool os3 (run_spool os2 s2))), f; try done; [|by exists ""]. cbn in Hcrash |- *.
      destruct Hcrash as (-> & ? & _). done.
  - right. rewrite Hk in Hk'. injection Hk' as <-. rewrite !acks_app. set_solver.
Qed.
End Executions.

(** ** Replay rounds *)

Section Rounds.
Context {Row : Type} `{LawfulRowCodec Row}.

(** What a round meets: whether the file opens and seeks, how many lines can be read,
    whether the database takes the batch, and the compaction at its end. *)
Record round_env := mkRound {
  reOpened : bool; reSeek : bool; reAvail : option nat; reOk : bool; reNow : Z; reFate : compact_fate; reStored : bool; reReopened : bool
}.

(** [Replay] with the database as the set of the keys it has stored; a row whose key
    is stored already is left as it is. *)
Definition Replay (max : Z) (r : round_env) (st : gset string * UsageSpool) : nat * (gset string * UsageSpool) :=
  let '(db, s) := st in
  let '(batch, s) := replay_read (reOpened r) (reSeek r) (reAvail r) max s in
  let db := if reOk r then db ∪ list_to_set (map riID batch) else db in
  let '(n, s) := replay_end batch (reOk r) (reNow r) (reFate r) (reStored r) (reReopened r) s in
  (n, (db, s)).

Definition Pending (s : UsageSpool) : Z := usPending s.

(** One replay tick of [RunUsageSpoolReplay]: rounds of 200 rows while there is
    progress, at most 200 of them. *)
Fixpoint drain (rs : list round_env) (st : gset string * UsageSpool) : gset string * UsageSpool :=
  match rs with
  | [] => st
  | r :: rs =>
      let '(n, st) := Replay 200 r st in
      if Nat.eqb n 0 || (Pending (snd st) =? 0) then st else drain rs st
  end.

Definition replay_tick (rs : list round_env) : gset string * UsageSpool -> gset string * UsageSpool := drain (take 200 rs).

(** *** The cursor *)

Definition line_done (acked : gset string) (l : string) : Prop :=
  match row_unmarshal l with Some e => replay_key e l ∈ acked | None => True end.

#[global] Instance line_done_dec acked l : Decision (line_done acked l).
Proof. unfold line_done. destruct (row_unmarshal l); apply _. Defined.

(** The lines that a replay still has to hand to the database. *)
Definition open_lines (s : UsageSpool) : list string := filter (fun l => ~ line_done (usAcked s) l) (lines (spool_text s)).

Record replay_ok (db : gset string) (s : UsageSpool) : Prop := mkReplayOk {
  ro_whole : whole_text (spool_text s);
  ro_acked : usAcked s ⊆ db;
  ro_cursor : exists ls1 ls2, lines (spool_text s) = ls1 ++ ls2 /\ usCursor s = text_size (join_terminated ls1)
                              /\ Forall (line_done (usAcked s)) ls1
}.

Lemma read_lines_join s : s = join_terminated (lines s) +:+ snd (read_lines s).
Proof.
  unfold lines. induction s as [|c s IH]; [done|]. cbn [read_lines].
  destruct (read_lines s) as [ls t]. cbn in IH. destruct (Ascii.eqb_spec c newline) as [->|Hne].
  - change (String newline s = String newline (join_terminated ls +:+ t)). by f_equal.
  - destruct ls as [|l ls]; cbn in IH |- *; [by rewrite IH|].
    change (String c s = String c ((terminated l +:+ join_terminated ls) +:+ t)). by f_equal.
Qed.

Lemma whole_is_join s : whole_text s -> s = join_terminated (lines s).
Proof. intros Hw. rewrite (read_lines_join s) at 1. unfold whole_text in Hw. rewrite Hw. apply string_app_empty_r. Qed.

Lemma join_app ls ls' : join_terminated (ls ++ ls') = join_terminated ls +:+ join_terminated ls'.
Proof. induction ls as [|l ls IH]; [done|]. cbn [app join_terminated foldr]. fold (join_terminated (ls ++ ls')) (join_terminated ls). by rewrite IH, string_app_assoc. Qed.

Lemma drop_bytes_app a b : drop_bytes (String.length a) (a +:+ b) = b.
Proof. induction a as [|c a IH]; [by destruct b|]. exact IH. Qed.

Lemma text_size_app a b : text_size (a +:+ b) = text_size a + text_size b.
Proof. unfold text_size. rewrite string_length_app. lia. Qed.

Lemma text_size_line l ls : text_size (join_terminated (l :: ls)) = text_size l + 1 + text_size (join_terminated ls).
Proof. cbn [join_terminated foldr]. fold (join_terminated ls). unfold terminated. rewrite !text_size_app. unfold text_size at 2. cbn. lia. Qed.

Lemma text_size_nil : text_size (join_terminated []) = 0.
Proof. done. Qed.

(** What a snapshot contains. *)
Lemma read_batch_spec acked n off ls batch cur :
  read_batch acked n off ls = (batch, cur) ->
  exists la lb, ls = la ++ lb /\ cur = off + text_size (join_terminated la)
  /\ Forall (line_done (acked ∪ list_to_set (map riID batch))) la
  /\ (forall it, it ∈ batch -> exists l, l ∈ la /\ ~ line_done acked l)
  /\ (batch = [] -> n = 0%nat \/ lb = [])
  /\ (forall it rest, batch = it :: rest -> exists ls1 ls2, la = ls1 ++ ls2 /\ riOff it = off + text_size (join_terminated ls1) /\ Forall (line_done acked) ls1).
Proof.
  revert n off batch cur. induction ls as [|l ls IH]; intros n off batch cur E.
  - assert (E' : (@nil (@replay_item Row), off) = (batch, cur)) by (by destruct n). injection E' as <- <-.
    exists [], []. split_and!; try done; [rewrite text_size_nil; lia|set_solver|by right].
  - destruct n as [|n]; cbn [read_batch] in E.
    { injection E as <- <-. exists [], (l :: ls). split_and!; try done; [rewrite text_size_nil; lia|set_solver|by left]. }
    destruct (row_unmarshal l) as [e|] eqn:Eu.
    2:{ destruct (IH _ _ _ _ E) as (la & lb & -> & -> & Hd & Hb & Hn & Hf). exists (l :: la), lb.
        split_and!; [done|rewrite text_size_line; lia| | |done|].
        - constructor; [unfold line_done; by rewrite Eu|done].
        - intros it Hit. destruct (Hb it Hit) as (l' & ? & ?). exists l'. split; [by right|done].
        - intros it rest Hbr. destruct (Hf it rest Hbr) as (ls1 & ls2 & -> & -> & Hd1). exists (l :: ls1), ls2.
          split_and!; [done|rewrite text_size_line; lia|]. constructor; [unfold line_done; by rewrite Eu|done]. }
    case_bool_decide as Hk.
    + destruct (IH _ _ _ _ E) as (la & lb & -> & -> & Hd & Hb & Hn & Hf). exists (l :: la), lb.
      assert (Hl : forall a, acked ⊆ a -> line_done a l) by (intros a Ha; unfold line_done; rewrite Eu; set_solver).
      split_and!; [done|rewrite text_size_line; lia| | |done|].
      * constructor; [apply Hl; set_solver|done].
      * intros it Hit. destruct (Hb it Hit) as (l' & ? & ?). exists l'. split; [by right|done].
      * intros it rest Hbr. destruct (Hf it rest Hbr) as (ls1 & ls2 & -> & -> & Hd1). exists (l :: ls1), ls2.
        split_and!; [done|rewrite text_size_line; lia|]. constructor; [by apply Hl|done].
    + destruct (read_batch acked n (off + text_size l + 1) ls) as [b c] eqn:Eb. injection E as <- <-.
      destruct (IH _ _ _ _ Eb) as (la & lb & -> & -> & Hd & Hb & Hn & Hf). exists (l :: la), lb.
      split_and!; [done|rewrite text_size_line; lia| | |done|].
      * constructor; [unfold line_done; rewrite Eu; set_solver|]. eapply Forall_impl; [exact Hd|].
        intros x. unfold line_done. destruct (row_unmarshal x); [set_solver|done].
      * intros it [->|Hit]%elem_of_cons.
        -- exists l. split; [left|]. unfold line_done. by rewrite Eu.
        -- destruct (Hb it Hit) as (l' & ? & ?). exists l'. split; [by right|done].
      * intros it rest [= <- _]. exists [], (l :: la). split_and!; [done|cbn [riOff]; rewrite text_size_nil; lia|constructor].
Qed.

Lemma line_done_mono a a' l : a ⊆ a' -> line_done a l -> line_done a' l.
Proof. unfold line_done. destruct (row_unmarshal l); [set_solver|done]. Qed.

Lemma unmarshal_key l e : row_unmarshal l = Some e -> walLineKey l = Some (replay_key e l).
Proof. intros E. unfold walLineKey, replay_key. by rewrite (probe_agrees _ _ E). Qed.

Lemma rewrite_open ackSet ls :
  filter (fun l => ~ line_done ∅ l) (fst (rewrite_lines ackSet ls)) = filter (fun l => ~ line_done ackSet l) ls.
Proof.
  induction ls as [|l ls IH]; [done|]. cbn [rewrite_lines]. destruct (rewrite_lines ackSet ls) as [kept [removed bad]]. cbn [fst] in IH.
  rewrite filter_cons. destruct (row_unmarshal l) as [e|] eqn:Eu.
  - rewrite (unmarshal_key _ _ Eu). case_bool_decide as Hk; cbn [fst].
    + rewrite decide_False; [done|]. unfold line_done; rewrite Eu. tauto.
    + rewrite filter_cons, !decide_True, IH; [done|..]; unfold line_done; rewrite Eu; set_solver.
  - rewrite (decide_False (P := ~ line_done ackSet l)) by (unfold line_done; rewrite Eu; tauto).
    destruct (walLineKey l); [case_bool_decide|]; cbn [fst]; [done| |done].
    rewrite filter_cons, decide_False, IH; [done|]. unfold line_done; rewrite Eu; tauto.
Qed.

Definition row_safe (db : gset string) (s : UsageSpool) (l : string) : Prop :=
  l ∈ lines (spool_text s) \/ (forall e, row_unmarshal l = Some e -> replay_key e l ∈ db).

Lemma reopen_text ok s : spool_text (openAppend ok s) = spool_text s.
Proof. unfold openAppend, spool_text. destruct ok; [|done]. cbn. by destruct (usFile s). Qed.

Lemma replay_ok_reopen db ok s : replay_ok db s -> replay_ok db (openAppend ok s).
Proof. intros []. split; rewrite ?reopen_text; by destruct ok. Qed.

(** A compaction keeps what is still open. *)
Lemma compact_replay_ok db fate stored reopened s :
  replay_ok db s ->
  let s' := snd (Compact fate stored reopened (usAcked s) s) in
  replay_ok db s' /\ open_lines s' = open_lines s /\ (forall l, l ∈ lines (spool_text s) -> row_safe db s' l).
Proof.
  intros Hok s'. unfold s', Compact. clear s'. set (s0 := set_app None s).
  assert (Hsame : forall s1, spool_text s1 = spool_text s -> usAcked s1 = usAcked s -> usCursor s1 = usCursor s ->
    let s' := openAppend reopened s1 in
    replay_ok db s' /\ open_lines s' = open_lines s /\ (forall l, l ∈ lines (spool_text s) -> row_safe db s' l)).
  { intros s1 Et Ea Ec s'. assert (H1 : replay_ok db s1) by (destruct Hok; split; rewrite ?Et, ?Ea, ?Ec; done).
    unfold s'. split_and!; [by apply replay_ok_reopen| |].
    - unfold open_lines. rewrite reopen_text, Et. destruct reopened; cbn; by rewrite Ea.
    - intros l Hl. left. by rewrite reopen_text, Et. }
  change (usFile s0) with (usFile s). destruct (usFile s) as [f|] eqn:Ef.
  - assert (Htext : spool_text s = fText f) by (unfold spool_text; by rewrite Ef).
    pose proof (rewriteStream_kept (usAcked s) (fText f)) as Hk. pose proof (kept_one_line (usAcked s) (fText f)) as Hone.
    destruct (rewriteStream (usAcked s) (fText f)) as [kept [removed bad]]. cbn [fst] in Hk, Hone.
    destruct fate; cbn [snd]; [by apply Hsame..|].
    set (s1 := set_pending _ _).
    assert (E1 : spool_text s1 = join_terminated kept /\ usAcked s1 = usAcked s ∖ usAcked s /\ usCursor s1 = 0)
      by (unfold s1, confirmSynced, spool_text; destruct reopened; cbn; destruct (_ <? _); done).
    destruct E1 as (Et & Ea & Ec). assert (Ea' : usAcked s1 = ∅) by (rewrite Ea; set_solver). clearbody s1.
    split_and!.
    + split; [rewrite Et; by apply whole_join|rewrite Ea'; set_solver|]. exists [], kept. rewrite Et, lines_join, Ec by done. done.
    + unfold open_lines. rewrite Et, Ea', lines_join, Hk, Htext by done. apply rewrite_open.
    + intros l Hl. rewrite Htext in Hl. unfold row_safe. rewrite Et, lines_join, Hk by done.
      destruct (row_unmarshal l) as [e|] eqn:Eu; [|by right; intros].
      destruct (rewrite_lines_kept (usAcked s) _ l _ Hl (unmarshal_key _ _ Eu)) as [?|Hd]; [by left|].
      right. intros e' [= <-]. by apply (ro_acked _ _ Hok).
  - assert (Htext : spool_text s = "") by (unfold spool_text; by rewrite Ef).
    assert (Ht' : spool_text (consumeAcks (usAcked s) s0) = "") by (unfold spool_text; cbn; by rewrite Ef).
    assert (Hc : usCursor s = 0).
    { destruct (ro_cursor _ _ Hok) as (ls1 & ls2 & Hl & Hc & _). rewrite Htext in Hl.
      assert (ls1 = []) as -> by (by destruct ls1). exact Hc. }
    cbn [snd]. split_and!.
    + apply replay_ok_reopen. split; rewrite ?Ht'; [done|cbn; set_solver|]. exists [], []. cbn. by rewrite Hc.
    + unfold open_lines. by rewrite reopen_text, Ht', Htext.
    + intros l Hl. rewrite Htext in Hl. by apply elem_of_nil in Hl.
Qed.

Lemma replay_key_nonempty e l : replay_key e l <> "".
Proof. unfold replay_key. destruct (String.eqb_spec (EventID e) ""); [done|done]. Qed.

Lemma read_batch_named acked n off ls : Forall (fun it => riID it <> "") (fst (read_batch acked n off ls)).
Proof.
  revert n off; induction ls as [|l ls IH]; intros n off; [by destruct n; constructor|].
  destruct n as [|n]; cbn [read_batch]; [constructor|]. destruct (row_unmarshal l) as [e|]; [|apply IH].
  case_bool_decide; [apply IH|]. specialize (IH n (off + text_size l + 1)). destruct (read_batch _ _ _ _); cbn in *.
  constructor; [apply replay_key_nonempty|done].
Qed.

(** The acknowledgements of a stored batch. *)
Definition ack_batch (batch : list (@replay_item Row)) (s : UsageSpool) : UsageSpool :=
  set_acked (usAcked s ∪ list_to_set (map riID batch)) s.

Lemma ack_batch_fold (batch : list (@replay_item Row)) s :
  Forall (fun it => riID it <> "") batch -> foldl (fun s it => Ack (riID it) s) s batch = ack_batch batch s.
Proof.
  intros Hb; revert s; induction Hb as [|it batch Hit Hb IH]; intros s; cbn [foldl map list_to_set].
  - unfold ack_batch. cbn [map list_to_set]. rewrite (right_id_L ∅ (∪)). by destruct s.
  - rewrite IH. unfold Ack, ack_batch. rewrite (proj2 (String.eqb_neq _ _) Hit). cbn [map list_to_set].
    change (usAcked (set_acked ?a s)) with a. rewrite (assoc_L (∪)), (comm_L (∪) {[riID it]} (usAcked s)). done.
Qed.

Lemma worthwhile_replay_ok db now fate stored reopened s :
  replay_ok db s ->
  let s' := CompactIfWorthwhile now fate stored reopened s in
  replay_ok db s' /\ open_lines s' = open_lines s /\ (forall l, l ∈ lines (spool_text s) -> row_safe db s' l).
Proof.
  intros Hok s'. unfold s', CompactIfWorthwhile. destruct (worthwhile now s).
  - apply (compact_replay_ok db fate stored reopened (set_last_compact (Some now) s)). destruct Hok; by split.
  - split_and!; [done..|]. intros l Hl; by left.
Qed.

Lemma filter_fewer (P Q : string -> Prop) `{!forall l, Decision (P l), !forall l, Decision (Q l)} ls :
  (forall l, Q l -> P l) -> (length (filter Q ls) <= length (filter P ls))%nat.
Proof.
  intros HQP. induction ls as [|l ls IH]; [done|]. rewrite !filter_cons.
  destruct (decide (Q l)), (decide (P l)); cbn; try lia. naive_solver.
Qed.

Lemma filter_less (P Q : string -> Prop) `{!forall l, Decision (P l), !forall l, Decision (Q l)} ls l :
  (forall l, Q l -> P l) -> l ∈ ls -> P l -> ~ Q l -> (length (filter Q ls) < length (filter P ls))%nat.
Proof.
  intros HQP. induction ls as [|x ls IH]; [by intros ?%elem_of_nil|]. rewrite !filter_cons. intros [->|Hin]%elem_of_cons HP HQ.
  - rewrite (decide_False (P := Q x)), (decide_True (P := P x)) by done. pose proof (filter_fewer P Q ls HQP). cbn; lia.
  - specialize (IH Hin HP HQ). destruct (decide (Q x)), (decide (P x)); cbn; try lia. naive_solver.
Qed.

Lemma none_open acked ls : Forall (line_done acked) ls -> filter (fun l => ~ line_done acked l) ls = [].
Proof. induction 1 as [|l ls Hl _ IH]; [done|]. rewrite filter_cons, decide_False; tauto. Qed.

Definition good_round (r : round_env) : bool :=
  reOpened r && reOk r && match reAvail r with None => true | Some _ => false end.

Lemma snapshot_lines db s cursor ls1 ls2 :
  replay_ok db s -> lines (spool_text s) = ls1 ++ ls2 -> cursor = text_size (join_terminated ls1) ->
  lines (drop_bytes (Z.to_nat cursor) (spool_text s)) = ls2.
Proof.
  intros Hok Hl ->. rewrite (whole_is_join _ (ro_whole _ _ Hok)), Hl, join_app. unfold text_size. rewrite Nat2Z.id, drop_bytes_app.
  apply lines_join. pose proof (lines_all_one_line (spool_text s)) as Hone. rewrite Hl in Hone. by apply Forall_app in Hone as [_ ?].
Qed.

(** The snapshot of a round: it moves the cursor past lines that are done once its
    batch is stored, and parks it before them otherwise. *)
Lemma replay_read_spec opened seek avail max db s batch s1 :
  replay_ok db s -> replay_read opened seek avail max s = (batch, s1) ->
  s1 = set_cursor (usCursor s1) s /\ Forall (fun it => riID it <> "") batch
  /\ (exists la lb, lines (spool_text s) = la ++ lb /\ usCursor s1 = text_size (join_terminated la)
       /\ Forall (line_done (usAcked s ∪ list_to_set (map riID batch))) la
       /\ (batch <> [] -> exists l, l ∈ la /\ ~ line_done (usAcked s) l)
       /\ (batch = [] -> opened = true -> avail = None -> open_lines s = []))
  /\ (forall it rest, batch = it :: rest ->
      exists la lb, lines (spool_text s) = la ++ lb /\ riOff it = text_size (join_terminated la) /\ Forall (line_done (usAcked s)) la).
Proof.
  intros Hok E. unfold replay_read in E. destruct (ro_cursor _ _ Hok) as (l1 & l2 & Hl & Hc & Hd).
  assert (Hnil : forall A : gset string, A ∪ list_to_set (map riID (@nil (@replay_item Row))) = A) by set_solver.
  destruct (negb opened || negb (bool_decide (is_Some (usFile s)))) eqn:Eo.
  { injection E as <- <-. split_and!; [by destruct s|constructor| |done].
    exists l1, l2. rewrite Hnil. split_and!; try done. intros _ -> _. cbn in Eo. unfold open_lines, spool_text.
    destruct (usFile s); [discriminate Eo|done]. }
  set (cursor := if seek then usCursor s else 0) in E. set (m := Z.to_nat (if max <=? 0 then 200 else max)) in E.
  assert (Hm : m <> 0%nat) by (unfold m; destruct (Z.leb_spec max 0); lia).
  assert (Hcur : exists c1 c2, lines (spool_text s) = c1 ++ c2 /\ cursor = text_size (join_terminated c1) /\ Forall (line_done (usAcked s)) c1).
  { unfold cursor. destruct seek; [by exists l1, l2|]. exists [], (lines (spool_text s)). by repeat split. }
  clearbody cursor m. destruct Hcur as (c1 & c2 & Hlc & Hcc & Hdc).
  rewrite (snapshot_lines db s cursor c1 c2 Hok Hlc Hcc) in E.
  set (got := match avail with Some k => take k c2 | None => c2 end) in E.
  assert (Hgot : exists more, c2 = got ++ more /\ (avail = None -> more = [])).
  { unfold got. destruct avail as [k|]; [exists (drop k c2); by rewrite take_drop|exists []; by rewrite app_nil_r]. }
  clearbody got. destruct Hgot as (more & -> & Hmore).
  pose proof (read_batch_named (usAcked s) m cursor got) as Hnamed.
  destruct (read_batch (usAcked s) m cursor got) as [b off] eqn:Eb. injection E as <- <-. cbn [fst] in Hnamed.
  destruct (read_batch_spec _ _ _ _ _ _ Eb) as (la & lb & -> & -> & Hdone & Hopen & Hempty & Hfirst).
  split_and!; [by destruct s|done| |].
  - exists (c1 ++ la), (lb ++ more). cbn [usCursor set_cursor]. rewrite Hlc, join_app, text_size_app, Hcc. split_and!; [by rewrite <- !app_assoc|done| | |].
    + apply Forall_app; split; [|done]. eapply Forall_impl; [exact Hdc|]. intros l. apply line_done_mono. set_solver.
    + intros Hne. destruct b as [|it b]; [done|]. destruct (Hopen it ltac:(left)) as (l & ? & ?). exists l. split; [set_solver|done].
    + intros -> _ Hav. destruct (Hempty eq_refl) as [?|Hlb]; [done|subst lb]. rewrite (Hmore Hav) in Hlc. rewrite Hnil in Hdone.
      unfold open_lines. rewrite Hlc, !app_nil_r. apply none_open. by apply Forall_app.
  - intros it rest Hbr. destruct (Hfirst it rest Hbr) as (f1 & f2 & -> & -> & Hd1). exists (c1 ++ f1), (f2 ++ lb ++ more).
    rewrite Hlc, join_app, text_size_app, Hcc. split_and!; [by rewrite <- !app_assoc|done|]. by apply Forall_app.
Qed.

Lemma Replay_round max r db s n db' s' :
  replay_ok db s -> Replay max r (db, s) = (n, (db', s')) ->
  db ⊆ db' /\ replay_ok db' s' /\ (length (open_lines s') <= length (open_lines s))%nat
  /\ (good_round r = true -> open_lines s <> [] -> (length (open_lines s') < length (open_lines s))%nat)
  /\ (forall l, l ∈ lines (spool_text s) -> row_safe db' s' l).
Proof.
  intros Hok E. unfold Replay in E. destruct (replay_read (reOpened r) (reSeek r) (reAvail r) max s) as [batch s1] eqn:Er.
  destruct (replay_read_spec _ _ _ _ db s batch s1 Hok Er) as (Es1 & Hnamed & (la & lb & Hl & Hc & Hd & Hopen & Hnone) & Hfirst).
  assert (Ht1 : spool_text s1 = spool_text s) by (by rewrite Es1). assert (Ha1 : usAcked s1 = usAcked s) by (by rewrite Es1).
  assert (Ho1 : open_lines s1 = open_lines s) by (unfold open_lines; by rewrite Ht1, Ha1).
  destruct batch as [|it rest] eqn:Eb; cbn [replay_end] in E.
  - injection E as <- <- <-. rewrite Ho1.
    assert (Hn : forall A : gset string, A ∪ list_to_set (map riID (@nil (@replay_item Row))) = A) by set_solver. rewrite Hn in *.
    split_and!; [destruct (reOk r); done| |done| |].
    + assert (Hok1 : replay_ok db s1) by (destruct Hok; split; rewrite ?Ht1, ?Ha1; [done..|by exists la, lb]).
      destruct (reOk r); done.
    + unfold good_round. intros [[Ho Hk]%andb_true_iff Hav]%andb_true_iff. destruct (reAvail r); [done|]. intros []. by apply Hnone.
    + intros l Hin. left. by rewrite Ht1.
  - rewrite <- Eb in *. assert (Hne : batch <> []) by (by rewrite Eb). destruct (reOk r) eqn:Eok; injection E as <- <- <-.
    + rewrite (ack_batch_fold batch s1 Hnamed). set (s2 := ack_batch batch s1). set (db2 := db ∪ _).
      assert (Ea2 : usAcked s2 = usAcked s ∪ list_to_set (map riID batch)) by (unfold s2; cbn; by rewrite Ha1).
      assert (Hok2 : replay_ok db2 s2).
      { split; change (spool_text s2) with (spool_text s1); rewrite ?Ht1, ?Ea2; [apply (ro_whole _ _ Hok)| |by exists la, lb].
        unfold db2. pose proof (ro_acked _ _ Hok). set_solver. }
      destruct (worthwhile_replay_ok db2 (reNow r) (reFate r) (reStored r) (reReopened r) s2 Hok2) as (Hok3 & Ho3 & Hsafe3).
      assert (Hless : (length (open_lines s2) < length (open_lines s))%nat).
      { destruct (Hopen Hne) as (l & Hin & Hnd). unfold open_lines. change (spool_text s2) with (spool_text s1). rewrite Ht1, Ea2.
        eapply (filter_less _ _ _ l).
        - intros l' Hn' Hd'. apply Hn'. eapply line_done_mono; [|exact Hd']. set_solver.
        - rewrite Hl. set_solver.
        - done.
        - intros Hn'. apply Hn'. by eapply (proj1 (Forall_forall _ _) Hd). }
      rewrite Ho3. split_and!; [unfold db2; set_solver|done|lia|by intros|].
      intros l Hin. apply Hsafe3. change (spool_text s2) with (spool_text s1). by rewrite Ht1.
    + destruct (Hfirst it rest Eb) as (f1 & f2 & Hlf & Hof & Hdf). set (s2 := set_cursor (riOff it) s1).
      assert (Ho2 : open_lines s2 = open_lines s) by exact Ho1.
      rewrite Ho2. split_and!; [done| |done| |].
      * destruct Hok; split; change (spool_text s2) with (spool_text s1); change (usAcked s2) with (usAcked s1);
          rewrite ?Ht1, ?Ha1; [done..|by exists f1, f2].
      * unfold good_round. rewrite Eok, andb_false_r. done.
      * intros l Hin. left. change (spool_text s2) with (spool_text s1). by rewrite Ht1.
Qed.

(** Any number of rounds. *)
Fixpoint rounds (max : Z) (rs : list round_env) (st : gset string * UsageSpool) : gset string * UsageSpool :=
  match rs with [] => st | r :: rs => rounds max rs (snd (Replay max r st)) end.

Lemma rounds_spec max rs : forall db s db' s',
  replay_ok db s -> rounds max rs (db, s) = (db', s') ->
  db ⊆ db' /\ replay_ok db' s' /\ (forall l, l ∈ lines (spool_text s) -> row_safe db' s' l)
  /\ (open_lines s' = [] \/ (length (open_lines s') + length (List.filter good_round rs) <= length (open_lines s))%nat).
Proof.
  induction rs as [|r rs IH]; intros db s db' s' Hok E; cbn [rounds] in E.
  - injection E as <- <-. split_and!; [done..| |right; cbn; lia]. intros l Hl; by left.
  - destruct (Replay max r (db, s)) as [n [db1 s1]] eqn:Er. cbn [snd] in E.
    destruct (Replay_round _ _ _ _ _ _ _ Hok Er) as (Hdb & Hok1 & Hle & Hgood & Hs1).
    destruct (IH _ _ _ _ Hok1 E) as (Hdb' & Hok' & Hs' & Hm). split_and!; [set_solver|done| |].
    + intros l Hl. destruct (Hs1 l Hl) as [Hl1|Hd]; [by apply Hs'|]. right. intros e Ee. set_solver.
    + destruct Hm as [Hm|Hm]; [by left|]. cbn [List.filter]. destruct (good_round r) eqn:Eg; [|right; lia].
      destruct (decide (open_lines s = [])) as [Hn|Hn].
      * left. apply nil_length_inv. rewrite Hn in Hle. cbn in Hle. lia.
      * specialize (Hgood eq_refl Hn). right. cbn [length]. lia.
Qed.

(** A tick runs some of its rounds, the first one at least. *)
Lemma drain_is_rounds rs st : exists k, drain rs st = rounds 200 (take k rs) st /\ (rs <> [] -> 1 <= k)%nat.
Proof.
  revert st; induction rs as [|r rs IH]; intros st; [by exists 0%nat|]. cbn [drain].
  destruct (Replay 200 r st) as [n st1] eqn:Er. destruct (Nat.eqb n 0 || (Pending (snd st1) =? 0)).
  - exists 1%nat. cbn [take rounds]. rewrite Er. by rewrite take_0.
  - destruct (IH st1) as (k & -> & _). exists (S k). cbn [take rounds]. rewrite Er. split; [done|lia].
Qed.

Lemma replay_ok_start dir max f s db : newUsageSpool dir max true true f = Some s -> replay_ok db s.
Proof.
  unfold newUsageSpool. destruct (String.eqb dir ""); [done|]. intros [= <-]. split; unfold spool_text; cbn.
  - destruct f as [f|]; cbn; [|done]. apply whole_join, lines_all_one_line.
  - set_solver.
  - exists [], (lines (file_text (Some (default (mkFile "" "") (sanitizeTail f))))). by repeat split.
Qed.
End Rounds.

(** ** Theorems *)

Section Theorems.
Context {Row : Type} `{LawfulRowCodec Row}.

Lemma recovered_rows_stored dir max f s db rs db' s' l e :
  newUsageSpool dir max true true f = Some s -> rounds 200 rs (db, s) = (db', s') ->
  (length (lines (spool_text s)) <= length (List.filter good_round rs))%nat ->
  l ∈ lines (spool_text s) -> row_unmarshal l = Some e -> replay_key e l ∈ db'.
Proof.
  intros Hnew Hr Hn Hl He. destruct (rounds_spec _ _ _ _ _ _ (replay_ok_start _ _ _ _ db Hnew) Hr) as (_ & Hok & Hsafe & Hm).
  assert (Ho : open_lines s' = []).
  { destruct Hm as [|Hm]; [done|]. apply nil_length_inv. unfold open_lines at 2 in Hm.
    pose proof (length_filter (fun l => ~ line_done (usAcked s) l) (lines (spool_text s))). lia. }
  destruct (Hsafe l Hl) as [Hl'|Hd]; [|by apply Hd].
  destruct (decide (line_done (usAcked s') l)) as [Hd|Hd].
  - unfold line_done in Hd. rewrite He in Hd. by apply (ro_acked _ _ Hok).
  - exfalso. assert (Hin : l ∈ open_lines s') by (by apply list_elem_of_filter). rewrite Ho in Hin. by apply elem_of_nil in Hin.
Qed.

(** C3: The protocol of a confirmed row, end to end. The row has an event id and was written whole, the
    log began with its stable prefix, no write of the run is torn and compactions work on rows
    acknowledged before ([fair_run]; a torn write can lose a confirmed row,
    [torn_write_loses_confirmed_row]). When [Write] returned true for it, whatever other goroutines ran
    before, between and after (group commits, failing compactions, replays, other writers), wherever a
    crash then cut the file past its stable part and whatever the rounds of the next process meet, the
    row is stored as soon as as many rounds were good as the log has lines; [db] are the rows the
    database had, among them those acknowledged before the crash. *)
Theorem confirmed_row_reaches_ledger dir max f0 s0 os1 stat e q s2 os2 os3 dir' max' f s' db rs db' s'' :
  (exists a, file_text f0 = stable_text f0 +:+ a) ->
  newUsageSpool dir max true true f0 = Some s0 ->
  EventID e <> "" -> write_row stat WAll e (run_spool os1 s0) = (Some q, s2) ->
  fst (write_end q true (run_spool os2 s2)) = true ->
  fair_run ∅ (os1 ++ OWrite stat WAll e :: os2 ++ os3) -> acks (os1 ++ os2 ++ os3) ⊆ db ->
  crash_file (usFile (run_spool os3 (run_spool os2 s2))) f -> newUsageSpool dir' max' true true f = Some s' ->
  rounds 200 rs (db, s') = (db', s'') -> (length (lines (spool_text s')) <= length (List.filter good_round rs))%nat ->
  EventID e ∈ db'.
Proof.
  intros Hp0 Hnew He Hw Hend Hfair Hdb Hcrash Hboot Hr Hn.
  destruct (rounds_spec _ _ _ _ _ _ (replay_ok_start _ _ _ _ db Hboot) Hr) as (Hsub & _).
  destruct (confirmed_write_survives _ _ _ _ _ _ _ _ _ _ _ _ _ _ _ Hp0 Hnew He Hw Hend Hfair Hcrash Hboot) as [(d & Hm & Hd)|Ha];
    [|set_solver].
  destruct (marshal_reads_back e d Hm) as (e' & Hu & Hid).
  pose proof (recovered_rows_stored _ _ _ _ _ _ _ _ _ _ Hboot Hr Hn Hd Hu) as Hk.
  unfold replay_key in Hk. rewrite Hid, (proj2 (String.eqb_neq _ _) He) in Hk. done.
Qed.

(** C33: An outage ends: a process that opens any log stores every readable row of it, in
    as many good rounds as there are lines, however many rounds fail in between
    and whatever the compactions do. *)
Theorem replay_recovers_all dir max f s db rs db' s' :
  newUsageSpool dir max true true f = Some s -> rounds 200 rs (db, s) = (db', s') ->
  (length (lines (spool_text s)) <= length (List.filter good_round rs))%nat ->
  forall l e, l ∈ lines (spool_text s) -> row_unmarshal l = Some e -> replay_key e l ∈ db'.
Proof. intros Hnew Hr Hn l e Hl He. by eapply recovered_rows_stored. Qed.
End Theorems.

(** *** A small codec: rows [A] and [B], and a line that only shows an id *)

Inductive demo_row := RowA | RowB.

Definition demo_text (r : demo_row) : string := match r with RowA => "[a]" | RowB => "[b]" end.

#[global] Instance demo_codec : RowCodec demo_row := {
  EventID r := match r with RowA => "a" | RowB => "b" end;
  row_marshal r := Some (demo_text r);
  row_unmarshal s := if String.eqb s "[a]" then Some RowA else if String.eqb s "[b]" then Some RowB else None;
  probe_id s := if String.eqb s "[a]" then Some "a" else if String.eqb s "[b]" then Some "b"
                else if String.eqb s "[c]" then Some "c" else None;
  legacy_digest s := s
}.

#[global] Instance demo_lawful : LawfulRowCodec demo_row.
Proof.
  split.
  - intros [] d [= <-]; reflexivity.
  - intros [] d [= <-]; eexists; split; reflexivity.
  - cbn. intros d e. destruct (String.eqb d "[a]"); [intros [= <-]; done|]. destruct (String.eqb d "[b]"); [intros [= <-]; done|done].
Qed.

Definition demo_spool : UsageSpool := default (mkSpool 0 None 0 None 0 0 0 false SyncIdle 0 ∅ None 0 [] 0 0) (newUsageSpool "d" 0 true true None).

Definition good : round_env := mkRound true true None true 0 CDone true true.

Definition bad_round : round_env := mkRound true true None false 0 CDone true true.

Definition written_line : string := terminated "[a]".

(** Row [A] is written while an fsync that does not cover it runs, then one that
    does; a second write is not synced when the crash cuts it in half. *)
Definition crashed_file : option wal_file := Some (mkFile (written_line +:+ "[b") written_line).

Definition rebooted : UsageSpool := default demo_spool (newUsageSpool "d" 0 true true crashed_file).

Definition recovered : gset string * UsageSpool := rounds 200 [bad_round; good] (∅, rebooted).

Lemma confirmed_row_reaches_ledger_witness : "a" ∈ fst recovered.
Proof.
  refine (confirmed_row_reaches_ledger "d" 0 None demo_spool [OCapture; OSyncStart] true RowA 1
            (snd (write_row true WAll RowA (run_spool [OCapture; OSyncStart] demo_spool)))
            [OSyncEnd true; OConfirm; OCapture; OSyncStart; OSyncEnd true; OConfirm] [OWrite true WAll RowB]
            "d" 0 crashed_file rebooted ∅ [bad_round; good] (fst recovered) (snd recovered)
            (ex_intro _ "" eq_refl) eq_refl _ eq_refl eq_refl _ _ _ eq_refl _ _).
  - done.
  - repeat split.
  - done.
  - split; [reflexivity|]. split; [by exists "[b"|]. by exists ("]" +:+ String newline "").
  - apply surjective_pairing.
  - vm_compute; lia.
Defined.

Lemma replay_recovers_all_witness : replay_key RowA "[a]" ∈ fst recovered.
Proof.
  apply (replay_recovers_all "d" 0 crashed_file rebooted ∅ [bad_round; good] (fst recovered) (snd recovered)).
  - reflexivity.
  - apply surjective_pairing.
  - vm_compute; lia.
  - vm_compute. left.
  - reflexivity.
Defined.

(** *** Findings *)

(** A torn write is not undone: the next row is appended to the fragment, its [Write]
    returns true, and no replay can read it. *)
Example torn_write_loses_confirmed_row :
  let s1 := run_spool [OWrite true (WShort 2) RowA] demo_spool in
  let s2 := run_spool [OWrite true WAll RowB; OCapture; OSyncStart; OSyncEnd true; OConfirm] s1 in
  let end_state := rounds 200 [good; good; good] (∅, s2) in
  fst (write_end 1 true s2) = true /\ spool_text s2 = "[a[b]" +:+ String newline "" /\ bool_decide ("b" ∈ fst end_state) = false.
Proof. vm_compute; auto. Qed.

(** A compaction that fails at the end has quarantined the corrupt line already and
    the next one does it again. *)
Example corrupt_line_counted_twice :
  let s := set_file (Some (mkFile (terminated "?") (terminated "?"))) demo_spool in
  let s1 := snd (Compact CRenameFails true true {["x"]} s) in
  let s2 := snd (Compact CDone true true {["x"]} s1) in
  usCorruptTotal s2 = 2 /\ usCorrupt s2 = ["?"; "?"].
Proof. vm_compute; auto. Qed.

(** A line that has an id but does not decode as a row is neither replayed nor
    quarantined: it stays in the log for ever. *)
Example undecodable_row_stays :
  let s := set_file (Some (mkFile (terminated "[c]") (terminated "[c]"))) demo_spool in
  let '(db, s1) := rounds 200 [good; good] (∅, s) in
  let s2 := snd (Compact CDone true true {["x"]} s1) in
  db = ∅ /\ spool_text s2 = terminated "[c]" /\ usCorruptTotal s2 = 0.
Proof. vm_compute; auto. Qed.

(** [Pending] misses a row whose fsync was not confirmed in time. *)
Example unconfirmed_row_not_pending :
  let s := snd (write_end 1 true (run_spool [OWrite true WAll RowA] demo_spool)) in
  Pending s = 0 /\ lines (spool_text s) = ["[a]"].
Proof. vm_compute; auto. Qed.
