(* ===== verification/Integrity.v ===== *)
(** * The billing integrity block: [internal/billingintegrity/integrity.go]

    The gate that stops new billable requests after a ledger row could be stored
    nowhere.  The package has no lock: a report is a [call] that goes through its
    operations on the atomics and the state file one at a time ([call_step]), next to
    the calls of other goroutines ([gate_step]).  A call that no other one interrupts has
    the effect of [loss_alone], [engage_alone] or [success_alone].  Clock readings (in
    nanoseconds) and whether a file operation works are arguments. *)

From S2P Require Import Prelude.

Definition PolicyCount : string := "count".
Definition PolicyBlock : string := "block".
Definition recoveryConsecutive : Z := 5.
Definition recoveryMinAge : Z := 30 * Second.

Record blockState := mkBlockState { bsReason : string; bsSince : Z }.

(** [igFile]: the content of the state file, [Some None] when it does not parse. *)
Record integrity := mkIntegrity {
  igMode : option string; igBlocked : bool; igSince : Z; igReason : string; igConsec : Z;
  igStatePath : string; igFile : option (option blockState)
}.

Definition fresh_process (path : string) (file : option (option blockState)) : integrity :=
  mkIntegrity None false 0 "" 0 path file.

Definition SetStateFile (path : string) (g : integrity) : integrity :=
  mkIntegrity (igMode g) (igBlocked g) (igSince g) (igReason g) (igConsec g) path (igFile g).

Definition currentMode (g : integrity) : string := default PolicyBlock (igMode g).

Definition persistState (now : Z) (written : bool) (reason : string) (g : integrity) : integrity :=
  if String.eqb (igStatePath g) "" then g
  else if written then
    mkIntegrity (igMode g) (igBlocked g) (igSince g) (igReason g) (igConsec g) (igStatePath g) (Some (Some (mkBlockState reason now)))
  else g.

Definition clearStateFile (removed : bool) (g : integrity) : integrity :=
  if String.eqb (igStatePath g) "" then g
  else if removed then mkIntegrity (igMode g) (igBlocked g) (igSince g) (igReason g) (igConsec g) (igStatePath g) None
  else g.

Definition restoreFromStateFile (now : Z) (readable : bool) (g : integrity) : integrity :=
  if String.eqb (igStatePath g) "" then g
  else match igFile g with
       | Some (Some st) =>
           if negb readable then g
           else if igBlocked g then g
           else mkIntegrity (igMode g) true now (bsReason st +:+ " (restored after restart)") 0 (igStatePath g) (igFile g)
       | _ => g
       end.

Definition Configure (policy : string) (now : Z) (readable : bool) (g : integrity) : integrity :=
  let mode := if String.eqb policy PolicyCount then PolicyCount else PolicyBlock in
  restoreFromStateFile now readable
    (mkIntegrity (Some mode) (igBlocked g) (igSince g) (igReason g) (igConsec g) (igStatePath g) (igFile g)).

Definition set_consec (n : Z) (g : integrity) : integrity :=
  mkIntegrity (igMode g) (igBlocked g) (igSince g) (igReason g) n (igStatePath g) (igFile g).

Definition set_blocked (b : bool) (g : integrity) : integrity :=
  mkIntegrity (igMode g) b (igSince g) (igReason g) (igConsec g) (igStatePath g) (igFile g).

Definition set_since (t : Z) (g : integrity) : integrity :=
  mkIntegrity (igMode g) (igBlocked g) t (igReason g) (igConsec g) (igStatePath g) (igFile g).

Definition set_reason (r : string) (g : integrity) : integrity :=
  mkIntegrity (igMode g) (igBlocked g) (igSince g) r (igConsec g) (igStatePath g) (igFile g).

(** *** Calls *)

(** The operation a call does next: in [ReportLoss], the reset of the counter; in [engage], the
    swap of [blocked], the stores of [blockedSince] and [blockedReason], the write of the state
    file; in [ReportDurableSuccess], after its load of [blocked], the increment, the age check,
    the swap, the reset of the counter, the removal of the state file; in the probe loop, the
    end of the probe. *)
Inductive call :=
  | LossReset (reason : string)
  | EngageSwap (reason : string)
  | EngageSince (reason : string)
  | EngageReason (reason : string)
  | EngagePersist (reason : string)
  | SuccessAdd
  | SuccessAge
  | SuccessSwap
  | ReleaseReset
  | ReleaseClear
  | ProbeRunning.

(** The start of a call up to its first operation of [call]; [None]: it returns. *)
Definition ReportLoss (reason : string) (g : integrity) : option call :=
  if String.eqb (currentMode g) PolicyBlock then Some (LossReset reason) else None.

Definition Engage (reason : string) (g : integrity) : option call :=
  if String.eqb (currentMode g) PolicyBlock then Some (EngageSwap reason) else None.

Definition ReportDurableSuccess (g : integrity) : option call := if igBlocked g then Some SuccessAdd else None.

(** One firing of the probe ticker, with a probe installed or not. *)
Definition probe_tick (installed : bool) (g : integrity) : option call := if igBlocked g && installed then Some ProbeRunning else None.

(** The clock in nanoseconds, and whether the file operation works or the probe succeeds. *)
Record io := mkIO { ioNow : Z; ioOk : bool }.

(** [engage] *)
Definition engage_step (o : io) (c : call) (g : integrity) : option call * integrity :=
  match c with
  | EngageSwap r => if igBlocked g then (None, g) else (Some (EngageSince r), set_blocked true g)
  | EngageSince r => (Some (EngageReason r), set_since (ioNow o / Second) g)
  | EngageReason r => (Some (EngagePersist r), set_reason r g)
  | EngagePersist r => (None, persistState (ioNow o / Second) (ioOk o) r g)
  | _ => (None, g)
  end.

(** [ReportDurableSuccess] *)
Definition success_step (o : io) (c : call) (g : integrity) : option call * integrity :=
  match c with
  | SuccessAdd =>
      let g := set_consec (igConsec g + 1) g in (if recoveryConsecutive <=? igConsec g then Some SuccessAge else None, g)
  | SuccessAge => (if recoveryMinAge <=? ioNow o - igSince g * Second then Some SuccessSwap else None, g)
  | SuccessSwap => if igBlocked g then (Some ReleaseReset, set_blocked false g) else (None, g)
  | ReleaseReset => (Some ReleaseClear, set_consec 0 g)
  | ReleaseClear => (None, clearStateFile (ioOk o) g)
  | _ => (None, g)
  end.

(** One operation of a call, and what the call does next. *)
Definition call_step (o : io) (c : call) (g : integrity) : option call * integrity :=
  match c with
  | LossReset r => (Some (EngageSwap r), set_consec 0 g)
  | ProbeRunning => if ioOk o then (ReportDurableSuccess g, g) else (None, set_consec 0 g)
  | EngageSwap _ | EngageSince _ | EngageReason _ | EngagePersist _ => engage_step o c g
  | _ => success_step o c g
  end.

Definition Blocked (g : integrity) : bool := igBlocked g.

(** [BillingIntegrityGate]: 503, or the request goes on. *)
Definition BillingIntegrityGate (g : integrity) : option Z := if Blocked g then Some 503 else None.

(** ** Concurrent calls *)

(** The process state and the calls that have not returned. *)
Record gate := mkGate { gtState : integrity; gtCalls : list call }.

Definition open_gate (g : integrity) : gate := mkGate g [].

(** A goroutine enters a call. *)
Definition start (f : integrity -> option call) (s : gate) : gate := mkGate (gtState s) (gtCalls s ++ option_list (f (gtState s))).

(** Call [i] does its next operation. *)
Definition advance_call (i : nat) (o : io) (s : gate) : option gate :=
  match gtCalls s !! i with
  | Some c =>
      let '(next, g) := call_step o c (gtState s) in
      Some (mkGate g (match next with Some c => <[i := c]> (gtCalls s) | None => delete i (gtCalls s) end))
  | None => None
  end.

Inductive gate_action :=
  | GLoss (reason : string)
  | GEngage (reason : string)
  | GSuccess
  | GProbe (installed : bool)
  | GAdvance (i : nat) (o : io).

Definition gate_step (a : gate_action) (s : gate) : option gate :=
  match a with
  | GLoss r => Some (start (ReportLoss r) s)
  | GEngage r => Some (start (Engage r) s)
  | GSuccess => Some (start ReportDurableSuccess s)
  | GProbe installed => Some (start (probe_tick installed) s)
  | GAdvance i o => advance_call i o s
  end.

Fixpoint gate_run (as_ : list gate_action) (s : gate) : option gate :=
  match as_ with
  | [] => Some s
  | a :: as_ => match gate_step a s with Some s => gate_run as_ s | None => None end
  end.

(** The successes counted by a step. *)
Definition step_adds (a : gate_action) (s : gate) : Z :=
  match a with
  | GAdvance i _ => match gtCalls s !! i with Some SuccessAdd => 1 | _ => 0 end
  | _ => 0
  end.

(** A success that has been counted may still lift the block. *)
Definition may_release (c : call) : bool := match c with SuccessAge | SuccessSwap => true | _ => false end.

Definition engaging (c : call) : bool := match c with EngageSwap _ => true | _ => false end.

(** After the reset of a loss, with [n] successes counted since: the counter does not exceed
    [n], only [n] of five or more lets a success go on to the release, and the gate is closed, or about to be
    closed by a swap under way, or [n] is five or more. *)
Record since_loss (n : Z) (s : gate) : Prop := mkSinceLoss {
  sl_consec : igConsec (gtState s) <= n;
  sl_nonneg : 0 <= n;
  sl_release : forall c, c ∈ gtCalls s -> may_release c = true -> recoveryConsecutive <= n;
  sl_closed : igBlocked (gtState s) = true \/ (exists c, c ∈ gtCalls s /\ engaging c = true) \/ recoveryConsecutive <= n
}.

Lemma since_loss_start n f s : (forall c, f (gtState s) = Some c -> may_release c = false) -> since_loss n s -> since_loss n (start f s).
Proof.
  intros Hf []. unfold start. split; cbn [gtState gtCalls]; [done|done| |].
  - intros c [Hc|Hc]%elem_of_app Hr; [by eapply sl_release0|]. destruct (f (gtState s)) as [c'|] eqn:E; cbn in Hc; [|by apply not_elem_of_nil in Hc].
    apply list_elem_of_singleton in Hc as ->. rewrite Hf in Hr by done. done.
  - destruct sl_closed0 as [?|[(c & Hc & He)|?]]; auto. right; left. exists c. split; [|done]. set_solver.
Qed.

Lemma call_step_next o c g n next g' :
  call_step o c g = (next, g') -> igConsec g <= n -> 0 <= n -> (may_release c = true -> recoveryConsecutive <= n) ->
  let m := n + match c with SuccessAdd => 1 | _ => 0 end in
  igConsec g' <= m /\ (forall c', next = Some c' -> may_release c' = true -> recoveryConsecutive <= m) /\
  (igBlocked g' = true \/ (igBlocked g' = igBlocked g /\ engaging c = false) \/ recoveryConsecutive <= m) /\
  (forall c', next = Some c' -> engaging c = true -> igBlocked g' = true).
Proof.
  intros E Hc Hn Hr m. subst m. destruct c; cbn in E, Hr |- *; unfold persistState, clearStateFile, ReportDurableSuccess in E;
    repeat (case_match; simplify_eq/=); simplify_eq/=; split_and!; try (intros; simplify_eq/=; done); try lia; auto;
    try (intros; simplify_eq/=; lia).
Qed.

Lemma since_loss_advance n i o s s' :
  since_loss n s -> advance_call i o s = Some s' -> since_loss (n + step_adds (GAdvance i o) s) s'.
Proof.
  intros [] E. unfold advance_call in E. cbn [step_adds]. destruct (gtCalls s !! i) as [c|] eqn:Ec; [|done].
  destruct (call_step o c (gtState s)) as [next g'] eqn:Es. injection E as <-.
  assert (Hc : c ∈ gtCalls s) by (by eapply list_elem_of_lookup_2).
  destruct (call_step_next o c (gtState s) n next g' Es sl_consec0 sl_nonneg0 (sl_release0 c Hc)) as (H1 & H2 & H3 & H4).
  set (m := n + _) in *. assert (Hm : n <= m) by (unfold m; destruct c; lia).
  assert (Hin : forall x, x ∈ match next with Some c' => <[i := c']> (gtCalls s) | None => delete i (gtCalls s) end ->
    x ∈ gtCalls s \/ next = Some x).
  { intros x Hx. destruct next as [c'|].
    - apply list_elem_of_lookup in Hx as [j Hj]. apply list_lookup_insert_Some in Hj as [(_ & -> & _)|(_ & Hj)]; [by right|left].
      by eapply list_elem_of_lookup_2.
    - left. rewrite delete_take_drop in Hx. apply elem_of_app in Hx as [Hx|Hx]; [eapply subseteq_take|eapply subseteq_drop]; exact Hx. }
  assert (Hkeep : forall x, x ∈ gtCalls s -> x <> c -> x ∈ match next with Some c' => <[i := c']> (gtCalls s) | None => delete i (gtCalls s) end).
  { intros x Hx Hne. apply list_elem_of_lookup in Hx as [j Hj]. assert (j <> i) by congruence. destruct next as [c'|].
    - apply list_elem_of_lookup. exists j. by rewrite list_lookup_insert_ne.
    - rewrite delete_take_drop. apply elem_of_app. destruct (decide (j < i)%nat).
      + left. apply list_elem_of_lookup. exists j. by rewrite lookup_take_lt.
      + right. apply list_elem_of_lookup. exists (j - S i)%nat. rewrite lookup_drop. rewrite <- Hj. f_equal. lia. }
  split; cbn [gtState gtCalls]; [done|lia| |].
  - intros x Hx Hr. destruct (Hin x Hx) as [Hx'|Hx']; [specialize (sl_release0 x Hx' Hr); lia|by apply (H2 x)].
  - destruct H3 as [?|[[Hb He]|?]]; auto. rewrite Hb. destruct sl_closed0 as [?|[(x & Hx & Hex)|?]]; [by left| |right; right; lia].
    right; left. exists x. split; [|done]. apply Hkeep; [done|]. intros ->. congruence.
Qed.

Lemma since_loss_step n a s s' : since_loss n s -> gate_step a s = Some s' -> since_loss (n + step_adds a s) s'.
Proof.
  intros Hs E. destruct a; cbn [gate_step] in E; [injection E as <-..|by apply since_loss_advance]; cbn [step_adds]; rewrite Z.add_0_r;
    (apply since_loss_start; [|done]); intros c; unfold ReportLoss, Engage, ReportDurableSuccess, probe_tick; case_match; by intros [= <-].
Qed.

(** The reset of a loss, when no success is past its count. *)
Lemma since_loss_reset i o s s' reason :
  gtCalls s !! i = Some (LossReset reason) -> Forall (fun c => may_release c = false) (gtCalls s) ->
  gate_step (GAdvance i o) s = Some s' -> since_loss 0 s'.
Proof.
  intros Ec Hf E. cbn [gate_step] in E. unfold advance_call in E. rewrite Ec in E. cbn in E. injection E as <-.
  assert (Hi : (i < length (gtCalls s))%nat) by (by eapply lookup_lt_Some).
  split; cbn [gtState gtCalls set_consec igConsec]; [lia|lia| |].
  - intros c Hc Hr. apply list_elem_of_lookup in Hc as [j Hj]. apply list_lookup_insert_Some in Hj as [(_ & <- & _)|(_ & Hj)]; [done|].
    rewrite Forall_forall in Hf. rewrite (Hf c) in Hr by (by eapply list_elem_of_lookup_2). done.
  - right; left. exists (EngageSwap reason). split; [|done]. apply list_elem_of_lookup. exists i. by apply list_lookup_insert_eq.
Qed.

(** *** Calls that overlap *)

Definition started : integrity := Configure "block" 0 true (fresh_process "state" None).

Definition at_second (t : Z) : io := mkIO (t * Second) true.

(** A loss at second 100, and five successes from second 140 on; the fifth has passed its
    checks and is about to lift the block. *)
Definition recovering : list gate_action :=
  [GLoss "disk"; GAdvance 0 (at_second 100); GAdvance 0 (at_second 100); GAdvance 0 (at_second 100); GAdvance 0 (at_second 100); GAdvance 0 (at_second 100);
   GSuccess; GAdvance 0 (at_second 140); GSuccess; GAdvance 0 (at_second 141); GSuccess; GAdvance 0 (at_second 142); GSuccess; GAdvance 0 (at_second 143);
   GSuccess; GAdvance 0 (at_second 144); GAdvance 0 (at_second 144)].

(** Another row is lost and its report ends; then the success lifts the block: the gate is open
    although a row was lost after every counted success. *)
Example late_release_reopens_gate :
  match gate_run (recovering ++ [GLoss "disk"; GAdvance 1 (at_second 145); GAdvance 1 (at_second 145)]) (open_gate started) with
  | Some s =>
      gtCalls s = [SuccessSwap] /\ BillingIntegrityGate (gtState s) = Some 503 /\ igConsec (gtState s) = 0 /\
      match gate_run [GAdvance 0 (at_second 145)] s with Some s' => BillingIntegrityGate (gtState s') = None | None => False end
  | None => False
  end.
Proof. vm_compute. by split_and!. Qed.

(** The success lifts the block, and before it removes the state file another loss sets the
    block again and writes the file: the gate is closed without a state file, and the next
    process opens it. *)
Example late_clear_loses_block :
  match gate_run (recovering ++ [GAdvance 0 (at_second 144); GAdvance 0 (at_second 144); GLoss "disk"; GAdvance 1 (at_second 145); GAdvance 1 (at_second 145);
                                 GAdvance 1 (at_second 145); GAdvance 1 (at_second 145); GAdvance 1 (at_second 145); GAdvance 0 (at_second 145)]) (open_gate started) with
  | Some s =>
      gtCalls s = [] /\ Blocked (gtState s) = true /\ igFile (gtState s) = None /\
      Blocked (Configure "block" 200 true (fresh_process "state" (igFile (gtState s)))) = false
  | None => False
  end.
Proof. vm_compute. by split_and!. Qed.

(** ** Calls that do not overlap *)

(** A call up to its end; every call has at most eight operations. *)
Fixpoint finish_call (fuel : nat) (o : io) (c : option call) (g : integrity) : integrity :=
  match fuel, c with
  | S fuel, Some c => let '(next, g) := call_step o c g in finish_call fuel o next g
  | _, _ => g
  end.

Definition run_alone (o : io) (c : option call) (g : integrity) : integrity := finish_call 8 o c g.

Definition engage_alone (reason : string) (o : io) (g : integrity) : integrity :=
  if igBlocked g then g
  else persistState (ioNow o / Second) (ioOk o) reason
         (mkIntegrity (igMode g) true (ioNow o / Second) reason (igConsec g) (igStatePath g) (igFile g)).

Definition loss_alone (reason : string) (o : io) (g : integrity) : integrity :=
  if String.eqb (currentMode g) PolicyBlock then engage_alone reason o (set_consec 0 g) else g.

Definition release (removed : bool) (g : integrity) : integrity :=
  clearStateFile removed (mkIntegrity (igMode g) false (igSince g) (igReason g) 0 (igStatePath g) (igFile g)).

Definition success_alone (o : io) (g : integrity) : integrity :=
  if negb (igBlocked g) then g
  else
    let g := set_consec (igConsec g + 1) g in
    if (recoveryConsecutive <=? igConsec g) && (recoveryMinAge <=? ioNow o - igSince g * Second) then release (ioOk o) g else g.

(** A probe with its result. *)
Definition probe_alone (result : option bool) (o : io) (g : integrity) : integrity :=
  if negb (igBlocked g) then g
  else match result with
       | None => g
       | Some false => set_consec 0 g
       | Some true => success_alone o g
       end.

Lemma loss_runs_alone reason o g : run_alone o (ReportLoss reason g) g = loss_alone reason o g.
Proof.
  unfold run_alone, ReportLoss, loss_alone, engage_alone. destruct (String.eqb _ _); [|done]. cbn. destruct (igBlocked g); done.
Qed.

Lemma engage_runs_alone reason o g :
  run_alone o (Engage reason g) g = if String.eqb (currentMode g) PolicyBlock then engage_alone reason o g else g.
Proof. unfold run_alone, Engage, engage_alone. destruct (String.eqb _ _); [|done]. cbn. destruct (igBlocked g); done. Qed.

Lemma success_runs_alone o g : run_alone o (ReportDurableSuccess g) g = success_alone o g.
Proof.
  unfold run_alone, ReportDurableSuccess, success_alone. destruct (igBlocked g) eqn:Eb; [|done]. cbn.
  destruct (recoveryConsecutive <=? igConsec g + 1); [|done]. cbn. destruct (recoveryMinAge <=? _); [|done]. cbn. rewrite Eb. done.
Qed.

(** *** Executions *)

Inductive ig_event :=
  | ELoss (reason : string) (o : io)
  | EEngage (reason : string) (o : io)
  | ESuccess (o : io)
  | EProbe (result : option bool) (o : io).

Definition ig_step (g : integrity) (e : ig_event) : integrity :=
  match e with
  | ELoss reason o => run_alone o (ReportLoss reason g) g
  | EEngage reason o => run_alone o (Engage reason g) g
  | ESuccess o => run_alone o (ReportDurableSuccess g) g
  | EProbe result o => probe_alone result o g
  end.

Definition ig_run (es : list ig_event) (g : integrity) : integrity := foldl ig_step g es.

Definition is_success (e : ig_event) : bool :=
  match e with ESuccess _ | EProbe (Some true) _ => true | _ => false end.

(** A loss or a failed probe. *)
Definition is_setback (e : ig_event) : bool :=
  match e with ELoss _ _ | EProbe (Some false) _ => true | _ => false end.

Definition event_time (e : ig_event) : Z := match e with ESuccess o | EProbe _ o => ioNow o | _ => 0 end.

(** Successes since the last setback, newest event first. *)
Fixpoint streak_rev (es : list ig_event) : Z :=
  match es with
  | [] => 0
  | e :: es => if is_setback e then 0 else if is_success e then streak_rev es + 1 else streak_rev es
  end.

Definition streak (es : list ig_event) : Z := streak_rev (rev es).

Lemma streak_snoc es e : streak (es ++ [e]) = if is_setback e then 0 else if is_success e then streak es + 1 else streak es.
Proof. unfold streak. rewrite rev_app_distr. reflexivity. Qed.

Lemma streak_nonneg es : 0 <= streak es.
Proof. unfold streak. induction (rev es) as [|e l IH]; cbn; [lia|]. destruct (is_setback e), (is_success e); lia. Qed.

Lemma ig_run_snoc es e g : ig_run (es ++ [e]) g = ig_step (ig_run es g) e.
Proof. unfold ig_run. by rewrite foldl_snoc. Qed.

(** The steps, by what a call does alone. *)
Definition alone_step (g : integrity) (e : ig_event) : integrity :=
  match e with
  | ELoss r o => loss_alone r o g
  | EEngage r o => if String.eqb (currentMode g) PolicyBlock then engage_alone r o g else g
  | ESuccess o => success_alone o g
  | EProbe result o => probe_alone result o g
  end.

Lemma ig_step_alone g e : ig_step g e = alone_step g e.
Proof. destruct e; cbn [ig_step alone_step]; auto using loss_runs_alone, engage_runs_alone, success_runs_alone. Qed.

Lemma mode_step e g : igMode (ig_step g e) = igMode g.
Proof.
  rewrite ig_step_alone. destruct e as [r o|r o|o|[[]|] o]; cbn; unfold loss_alone, probe_alone, engage_alone, persistState,
    success_alone, release, clearStateFile; repeat case_match; cbn; done.
Qed.

(** The counter never exceeds the successes since the last setback, and it is 0
    while nothing is blocked. *)
Record counting (g0 : integrity) (es : list ig_event) : Prop := mkCounting {
  ct_mode : currentMode (ig_run es g0) = PolicyBlock;
  ct_range : 0 <= igConsec (ig_run es g0) <= streak es;
  ct_idle : igBlocked (ig_run es g0) = false -> igConsec (ig_run es g0) = 0
}.

Lemma engage_consec r o g : igConsec (engage_alone r o g) = igConsec g /\ igBlocked (engage_alone r o g) = true.
Proof. unfold engage_alone, persistState. destruct (igBlocked g) eqn:E; [done|]. destruct (String.eqb _ ""), (ioOk o); done. Qed.

Lemma release_consec rm g : igConsec (release rm g) = 0 /\ igBlocked (release rm g) = false.
Proof. unfold release, clearStateFile. cbn. destruct (String.eqb _ ""), rm; done. Qed.

Lemma success_consec o g :
  let g' := success_alone o g in
  0 <= igConsec g -> 0 <= igConsec g' <= igConsec g + 1 /\ (igBlocked g' = false -> igBlocked g = false -> igConsec g' = igConsec g)
  /\ (igBlocked g = true -> igBlocked g' = false -> igConsec g' = 0 /\ recoveryConsecutive <= igConsec g + 1 /\ recoveryMinAge <= ioNow o - igSince g * Second).
Proof.
  intros g' Hc. unfold g', success_alone. destruct (igBlocked g) eqn:Eb; cbn [negb]; [|split_and!; try done; lia].
  cbn [set_consec igConsec igSince]. destruct (Z.leb_spec recoveryConsecutive (igConsec g + 1)); cbn [andb].
  - destruct (Z.leb_spec recoveryMinAge (ioNow o - igSince g * Second)).
    + destruct (release_consec (ioOk o) (set_consec (igConsec g + 1) g)) as [-> ->]. split_and!; try done; lia.
    + cbn. rewrite Eb. split_and!; try done; lia.
  - cbn. rewrite Eb. split_and!; try done; lia.
Qed.

Lemma counting_step g0 es e : counting g0 es -> counting g0 (es ++ [e]).
Proof.
  intros [Hm Hr Hi]. assert (Hm' : currentMode (ig_run (es ++ [e]) g0) = PolicyBlock)
    by (rewrite ig_run_snoc; unfold currentMode in *; by rewrite mode_step).
  split; [done|..]; rewrite ig_run_snoc, ig_step_alone, ?streak_snoc; set (g := ig_run es g0) in *;
    pose proof (streak_nonneg es) as Hs; destruct e as [r o|r o|o|[[]|] o]; cbn [alone_step is_setback is_success].
  - unfold loss_alone. rewrite Hm, String.eqb_refl. destruct (engage_consec r o (set_consec 0 g)) as [-> _]. cbn; lia.
  - rewrite Hm, String.eqb_refl. destruct (engage_consec r o g) as [-> _]. lia.
  - destruct (success_consec o g ltac:(lia)) as (? & _). lia.
  - unfold probe_alone. destruct (igBlocked g) eqn:Eb; cbn [negb]; [|lia]. destruct (success_consec o g ltac:(lia)) as (? & _). lia.
  - unfold probe_alone. destruct (igBlocked g) eqn:Eb; cbn [negb]; [cbn; lia|]. rewrite Hi by done. lia.
  - unfold probe_alone. destruct (negb _); lia.
  - unfold loss_alone. rewrite Hm, String.eqb_refl. destruct (engage_consec r o (set_consec 0 g)) as [_ ->]. done.
  - rewrite Hm, String.eqb_refl. destruct (engage_consec r o g) as [_ ->]. done.
  - intros Hb. destruct (success_consec o g ltac:(lia)) as (_ & H1 & H2). destruct (igBlocked g) eqn:Eb; [by apply H2|]. rewrite H1; auto.
  - unfold probe_alone. destruct (igBlocked g) eqn:Eb; cbn [negb]; [|by intros; apply Hi]. intros Hb.
    destruct (success_consec o g ltac:(lia)) as (_ & _ & H2). by apply H2.
  - unfold probe_alone. destruct (igBlocked g) eqn:Eb; cbn [negb]; [by cbn|auto].
  - unfold probe_alone. destruct (igBlocked g) eqn:Eb; cbn [negb]; [congruence|auto].
Qed.

Lemma counting_run g0 es : currentMode g0 = PolicyBlock -> igConsec g0 = 0 -> counting g0 es.
Proof.
  intros Hm Hc. induction es as [|e es IH] using rev_ind; [split; cbn; [done|lia|done]|]. by apply counting_step.
Qed.

(** When calls do not overlap, a block is lifted only by demonstrated recovery: the event that lifts it is a
    stored row or a successful probe, at least the fifth since the last loss or
    failed probe, and at least thirty seconds after the block began. *)
Theorem release_needs_recovery g0 es e :
  currentMode g0 = PolicyBlock -> igConsec g0 = 0 ->
  Blocked (ig_run es g0) = true -> Blocked (ig_run (es ++ [e]) g0) = false ->
  is_success e = true /\ recoveryConsecutive <= streak (es ++ [e])
  /\ recoveryMinAge <= event_time e - igSince (ig_run es g0) * Second.
Proof.
  intros Hm Hc Hb Hb'. destruct (counting_run g0 es Hm Hc) as [Hm' Hr _]. rewrite ig_run_snoc, ig_step_alone in Hb'. rewrite streak_snoc.
  unfold Blocked in *. set (g := ig_run es g0) in *.
  assert (Hsucc : forall o, igBlocked (success_alone o g) = false ->
    recoveryConsecutive <= streak es + 1 /\ recoveryMinAge <= ioNow o - igSince g * Second).
  { intros o H. destruct (success_consec o g ltac:(lia)) as (_ & _ & H2). destruct (H2 Hb H) as (_ & ? & ?). lia. }
  destruct e as [r o|r o|o|[[]|] o]; cbn [alone_step is_setback is_success event_time] in *.
  - unfold loss_alone in Hb'. rewrite Hm', String.eqb_refl in Hb'. destruct (engage_consec r o (set_consec 0 g)). congruence.
  - rewrite Hm', String.eqb_refl in Hb'. destruct (engage_consec r o g). congruence.
  - split; [done|]. by eapply Hsucc.
  - unfold probe_alone in Hb'. rewrite Hb in Hb'; cbn [negb] in Hb'. split; [done|]. by eapply Hsucc.
  - unfold probe_alone in Hb'. rewrite Hb in Hb'. cbn in Hb'. congruence.
  - unfold probe_alone in Hb'. rewrite Hb in Hb'. cbn in Hb'. congruence.
Qed.

Definition outage : list ig_event :=
  [ELoss "disk" (at_second 100); ESuccess (at_second 131); EProbe (Some false) (at_second 132); ESuccess (at_second 133);
   ESuccess (at_second 134); EProbe (Some true) (at_second 135); ESuccess (at_second 136)].

Lemma release_needs_recovery_witness :
  is_success (ESuccess (at_second 137)) = true /\ recoveryConsecutive <= 5 /\ recoveryMinAge <= 137 * Second - 100 * Second.
Proof.
  apply (release_needs_recovery started outage (ESuccess (at_second 137))); reflexivity.
Defined.

(** *** Restarts *)

(** The state file tells whether the gate is closed, as long as it can be written. *)
Definition files_work (e : ig_event) : bool :=
  match e with ELoss _ o | EEngage _ o | ESuccess o | EProbe _ o => ioOk o end.

Definition filed (g : integrity) : Prop :=
  igStatePath g <> "" /\ (if igBlocked g then exists st, igFile g = Some (Some st) else igFile g = None).

Lemma filed_step g e : filed g -> files_work e = true -> filed (ig_step g e).
Proof.
  intros [Hp Hf] Hw. rewrite ig_step_alone. assert (Heng : forall r o g, ioOk o = true -> filed g -> filed (engage_alone r o g)).
  { intros r o g' Ho [Hp' Hf']. unfold engage_alone. rewrite Ho. destruct (igBlocked g') eqn:Eb; [by split; [|rewrite Eb]|].
    unfold persistState; cbn. rewrite (proj2 (String.eqb_neq _ _) Hp'). split; [done|]. cbn. by eexists. }
  assert (Hsuc : forall o, ioOk o = true -> filed (success_alone o g)).
  { intros o Ho. unfold success_alone. rewrite Ho. destruct (igBlocked g) eqn:Eb; cbn [negb]; [|by split; [|rewrite Eb]].
    destruct (_ && _); [|by split; cbn; rewrite ?Eb]. unfold release, clearStateFile; cbn.
    rewrite (proj2 (String.eqb_neq _ _) Hp). by split. }
  destruct e as [r o|r o|o|[[]|] o]; cbn in Hw |- *.
  - unfold loss_alone. destruct (String.eqb _ _); [|done]. by apply Heng.
  - destruct (String.eqb _ _); [|done]. by apply Heng.
  - by apply Hsuc.
  - unfold probe_alone. destruct (negb _); [done|by apply Hsuc].
  - unfold probe_alone. destruct (negb _); done.
  - unfold probe_alone. destruct (negb _); done.
Qed.

Lemma filed_run g es : filed g -> Forall (fun e => files_work e = true) es -> filed (ig_run es g).
Proof. intros Hg Hes. revert g Hg; induction Hes as [|e es He _ IH]; intros g Hg; [done|]. apply IH. by apply filed_step. Qed.

(** A restart neither clears nor sets the block: whatever happened in calls that do not overlap, the process that
    starts from the state file has its gate closed exactly when the previous one
    had, as long as the file could be written and removed. *)
Theorem block_survives_restart path policy es policy' now :
  path <> "" -> Forall (fun e => files_work e = true) es ->
  let before := ig_run es (Configure policy 0 true (fresh_process path None)) in
  Blocked (Configure policy' now true (fresh_process path (igFile before))) = Blocked before.
Proof.
  intros Hp Hes before.
  assert (H0 : filed (Configure policy 0 true (fresh_process path None))).
  { unfold Configure, restoreFromStateFile; cbn. rewrite (proj2 (String.eqb_neq _ _) Hp). by split. }
  destruct (filed_run _ _ H0 Hes) as [_ Hf]. fold before in Hf. unfold Blocked, Configure, restoreFromStateFile; cbn.
  rewrite (proj2 (String.eqb_neq _ _) Hp). destruct (igBlocked before); [destruct Hf as [st ->]; done|by rewrite Hf].
Qed.

Lemma block_survives_restart_witness :
  Blocked (Configure "block" 200 true (fresh_process "state" (igFile (ig_run [ELoss "disk" (at_second 100)] started)))) = true.
Proof.
  apply (block_survives_restart "state" "block" [ELoss "disk" (at_second 100)] "block" 200); [done|repeat constructor].
Defined.

(** *** The counting policy *)

(** With the policy that only counts losses, a state file left by another policy
    closes the gate, and losses do not interrupt the successes that open it again. *)
Example count_policy_blocks :
  let g := Configure "count" 0 true (fresh_process "state" (Some (Some (mkBlockState "disk" 0)))) in
  BillingIntegrityGate g = Some 503 /\ currentMode g = PolicyCount
  /\ Blocked (ig_run [ESuccess (at_second 40); ESuccess (at_second 41); ELoss "disk" (at_second 42); ESuccess (at_second 43);
                      ESuccess (at_second 44); ELoss "disk" (at_second 45); ESuccess (at_second 46)] g) = false.
Proof. vm_compute; auto. Qed.
