(* ===== verification/Billing.v ===== *)
(** * The billing path of a usage row: [internal/handler/worker.go]

    A row goes through the main log, the worker pool and the database, and on
    failures through a synchronous write and the emergency log, or it is counted as
    lost.  Goroutines (the callers of [submitUsageEntry] and the tasks of the pool)
    are a list of the points where they wait; [bill_step] advances one of them, runs
    a step of a log's own goroutines, stores a replayed row, or crashes the process.
    A report to the integrity gate is a [call] of its own from the operation that makes it on:
    the row may return, and other goroutines may move, between the operations of the report.

    Whether the database takes a row, whether the pool takes a task, whether an
    fsync is confirmed in time and all file faults are arguments. *)

From S2P Require Import Prelude Integrity Spool.

(** ** The emergency log's high-water mark *)

Definition emergencyHighWaterReserve (cap : Z) : Z :=
  let r := 67108864 in
  if cap <=? 0 then 0 else if cap `quot` 2 <? r then cap `quot` 2 else r.

Definition Cap (s : UsageSpool) : Z := usMax s.

(** [Size], 0 when the file cannot be examined. *)
Definition Size (stat : bool) (s : UsageSpool) : Z := if stat then text_size (spool_text s) else 0.

Definition checkEmergencyHighWater (stat : bool) (s : UsageSpool) (g : gate) : gate :=
  let reserve := emergencyHighWaterReserve (Cap s) in
  if (reserve =? 0) || (Cap s <=? 0) then g
  else if Cap s - reserve <=? Size stat s then start (Engage "emergency WAL at high-water") g
  else g.

Section Billing.
Context {Row : Type} `{LawfulRowCodec Row}.

(** ** State *)

(** Where a goroutine waits: in [Write] of the main log, before the synchronous
    database write, before [TrySubmit], in [runUsageTask] before the database write,
    in [Write] of the emergency log. *)
Inductive point :=
  | PMainWait (e : Row) (seq : Z)
  | PSyncWrite (e : Row)
  | PEnqueue (e : Row) (walHeld : bool)
  | PTask (e : Row) (walHeld : bool)
  | PHold (e : Row) (seq : Z).

(** [blDB]: the keys of the rows stored; [blReturned]: the rows whose
    [submitUsageEntry] returned; [blLost]: the rows counted as lost. *)
Record billing := mkBilling {
  blMain : option UsageSpool; blEmergency : option UsageSpool; blDB : gset string; blGo : list point;
  blReturned : list Row; blLost : list string; blHeldTotal : Z; blGate : gate
}.

(** Faults of one step. *)
Record faults := mkFaults {
  fOk : bool; fStored : bool; fStat : bool; fWrite : write_fate; fInTime : bool; fAccepted : bool
}.

Definition set_go (l : list point) (b : billing) : billing :=
  mkBilling (blMain b) (blEmergency b) (blDB b) l (blReturned b) (blLost b) (blHeldTotal b) (blGate b).

Definition set_main (s : option UsageSpool) (b : billing) : billing :=
  mkBilling s (blEmergency b) (blDB b) (blGo b) (blReturned b) (blLost b) (blHeldTotal b) (blGate b).

Definition set_emergency (s : option UsageSpool) (b : billing) : billing :=
  mkBilling (blMain b) s (blDB b) (blGo b) (blReturned b) (blLost b) (blHeldTotal b) (blGate b).

Definition store (id : string) (b : billing) : billing :=
  mkBilling (blMain b) (blEmergency b) ({[id]} ∪ blDB b) (blGo b) (blReturned b) (blLost b) (blHeldTotal b) (blGate b).

Definition returns (e : Row) (b : billing) : billing :=
  mkBilling (blMain b) (blEmergency b) (blDB b) (blGo b) (e :: blReturned b) (blLost b) (blHeldTotal b) (blGate b).

Definition on_gate (f : gate -> gate) (b : billing) : billing :=
  mkBilling (blMain b) (blEmergency b) (blDB b) (blGo b) (blReturned b) (blLost b) (blHeldTotal b) (f (blGate b)).

Definition count_held (b : billing) : billing :=
  mkBilling (blMain b) (blEmergency b) (blDB b) (blGo b) (blReturned b) (blLost b) (blHeldTotal b + 1) (blGate b).

(** The row is in no store: counted and reported. *)
Definition lose (reason : string) (e : Row) (b : billing) : billing :=
  on_gate (start (ReportLoss reason))
    (mkBilling (blMain b) (blEmergency b) (blDB b) (blGo b) (blReturned b) (EventID e :: blLost b) (blHeldTotal b) (blGate b)).

(** [LogChecked]: an error may come after the row was stored. *)
Definition LogChecked (f : faults) (e : Row) (b : billing) : bool * billing :=
  (fOk f, if fOk f || fStored f then store (EventID e) b else b).

(** ** Operations *)

(** [emergencyHold] up to the wait of its [Write]: the point where the goroutine
    waits, or [None] when the row was not taken. *)
Definition emergency_write (f : faults) (e : Row) (b : billing) : option point * billing :=
  match blEmergency b with
  | None => (None, b)
  | Some s =>
      let '(seq, s) := write_row (fStat f) (fWrite f) e s in
      (match seq with Some q => Some (PHold e q) | None => None end, set_emergency (Some s) b)
  end.

(** A row whose database write failed and that no log holds. *)
Definition hold_or_lose (reason : string) (f : faults) (e : Row) (b : billing) : option point * billing :=
  match emergency_write f e b with
  | (Some p, b) => (Some p, b)
  | (None, b) => (None, lose reason e (returns e b))
  end.

Definition ack_main (id : string) (b : billing) : billing := set_main (option_map (Ack id) (blMain b)) b.

Definition report_success (b : billing) : billing := on_gate (start ReportDurableSuccess) b.

(** [submitUsageEntryFunc] up to the end of the append: its next point. *)
Definition submitUsageEntry (f : faults) (e : Row) (b : billing) : point * billing :=
  match blMain b with
  | None => (PEnqueue e false, b)
  | Some s =>
      let '(seq, s) := write_row (fStat f) (fWrite f) e s in
      (match seq with Some q => PMainWait e q | None => PSyncWrite e end, set_main (Some s) b)
  end.

(** One goroutine moves on from its point; [None]: it ends. *)
Definition advance (f : faults) (p : point) (b : billing) : option point * billing :=
  match p with
  | PMainWait e q =>
      match blMain b with
      | Some s =>
          let '(held, s) := write_end q (fInTime f) s in
          (Some (if held then PEnqueue e true else PSyncWrite e), set_main (Some s) b)
      | None => (Some (PSyncWrite e), b)
      end
  | PSyncWrite e =>
      let '(ok, b) := LogChecked f e b in
      if ok then (None, returns e (report_success b))
      else hold_or_lose "WAL unavailable; synchronous db write failed" f e b
  | PEnqueue e walHeld =>
      if fAccepted f then (Some (PTask e walHeld), returns e b)
      else if walHeld then (None, returns e b)
      else (Some (PTask e false), b)
  | PTask e walHeld =>
      let '(ok, b) := LogChecked f e b in
      if ok then (None, report_success (ack_main (EventID e) (if walHeld then b else returns e b)))
      else if walHeld then (None, b)
      else hold_or_lose "db write failed; event not WAL-backed" f e b
  | PHold e q =>
      match blEmergency b with
      | Some s =>
          let '(held, s) := write_end q (fInTime f) s in
          if held then
            (None, returns e (on_gate (checkEmergencyHighWater (fStat f) s) (count_held (set_emergency (Some s) b))))
          else (None, lose "db write failed" e (returns e (set_emergency (Some s) b)))
      | None => (None, lose "db write failed" e (returns e b))
      end
  end.

(** ** Executions *)

(** The steps of a log that are not those of a writer or of an acknowledgement; a
    compaction works on acknowledgements of the log. *)
Definition background (s : UsageSpool) (o : @spool_op Row) : bool :=
  match o with
  | OWrite _ _ _ | OWriteEnd _ _ | OAck _ => false
  | OCompact _ _ _ ackSet => bool_decide (ackSet ⊆ usAcked s)
  | _ => true
  end.

(** A crash keeps the stable part of a file and [n] bytes more. *)
Definition crash_cut (n : nat) (f : option wal_file) : option wal_file :=
  match f with
  | Some f => Some (mkFile (fStable f +:+ take_bytes n (drop_bytes (String.length (fStable f)) (fText f))) (fStable f))
  | None => None
  end.

Definition reboot (n : nat) (s : UsageSpool) : option UsageSpool := newUsageSpool "spool" (usMax s) true true (crash_cut n (usFile s)).

Inductive bill_action :=
  | BSubmit (f : faults) (e : Row)
  | BAdvance (i : nat) (f : faults)
  | BMain (o : @spool_op Row)
  | BEmergency (o : @spool_op Row)
  | BReplayed (main : bool) (id : string)
  | BGate (a : gate_action)
  | BCrash (n n' : nat) (now : Z).

Definition bill_step (a : bill_action) (b : billing) : option billing :=
  match a with
  | BSubmit f e =>
      if String.eqb (EventID e) "" then None
      else let '(p, b) := submitUsageEntry f e b in Some (set_go (blGo b ++ [p]) b)
  | BAdvance i f =>
      match blGo b !! i with
      | Some p =>
          let '(p', b) := advance f p b in
          Some (set_go (match p' with Some p => <[i := p]> (blGo b) | None => delete i (blGo b) end) b)
      | None => None
      end
  | BMain o =>
      match blMain b with
      | Some s => if background s o then Some (set_main (Some (spool_step s o)) b) else None
      | None => None
      end
  | BEmergency o =>
      match blEmergency b with
      | Some s => if background s o then Some (set_emergency (Some (spool_step s o)) b) else None
      | None => None
      end
  | BReplayed main id =>
      let b := report_success (store id b) in
      Some (if main then ack_main id b else set_emergency (option_map (Ack id) (blEmergency b)) b)
  | BGate a => match gate_step a (blGate b) with Some g => Some (on_gate (fun _ => g) b) | None => None end
  | BCrash n n' now =>
      Some (mkBilling (blMain b ≫= reboot n) (blEmergency b ≫= reboot n') (blDB b) [] (blReturned b) (blLost b) (blHeldTotal b)
              (open_gate (Configure "block" now true (fresh_process (igStatePath (gtState (blGate b))) (igFile (gtState (blGate b)))))))
  end.

Fixpoint bill_run (as_ : list bill_action) (b : billing) : option billing :=
  match as_ with
  | [] => Some b
  | a :: as_ => match bill_step a b with Some b => bill_run as_ b | None => None end
  end.

(** ** Rows that are held *)

(** No write to a log is torn. *)
Definition whole_write (f : faults) : Prop := fWrite f = WAll \/ fWrite f = WShort 0.

Definition whole_writes (a : bill_action) : Prop :=
  match a with BSubmit f _ | BAdvance _ f => whole_write f | _ => True end.

(** The row was taken by a log and an fsync that covers it completed. *)
Definition held (W : list (Z * string)) (s : UsageSpool) (e : Row) : Prop :=
  exists q d, row_marshal e = Some d /\ (q, d) ∈ W /\ q <= usSyncedSeq s.

Definition held_in (W : list (Z * string)) (o : option UsageSpool) (e : Row) : Prop := exists s, o = Some s /\ held W s e.

Definition log_ok (W : list (Z * string)) (db : gset string) (o : option UsageSpool) : Prop :=
  forall s, o = Some s -> wal_ok W db s /\ usAcked s ⊆ db.

Definition taken_in (W : list (Z * string)) (e : Row) (q : Z) : Prop := exists d, row_marshal e = Some d /\ (q, d) ∈ W.

Definition point_ok (Wm We : list (Z * string)) (b : billing) (p : point) : Prop :=
  match p with
  | PMainWait e q => taken_in Wm e q
  | PSyncWrite _ => True
  | PEnqueue e walHeld | PTask e walHeld => walHeld = true /\ held_in Wm (blMain b) e
  | PHold e q => taken_in We e q
  end.

Definition point_row (p : point) : Row := match p with PMainWait e _ | PSyncWrite e | PEnqueue e _ | PTask e _ | PHold e _ => e end.

Definition accounted (Wm We : list (Z * string)) (b : billing) (e : Row) : Prop :=
  EventID e <> "" /\ (EventID e ∈ blDB b \/ held_in Wm (blMain b) e \/ held_in We (blEmergency b) e \/ EventID e ∈ blLost b).

Record bill_ok (Wm We : list (Z * string)) (b : billing) : Prop := mkBillOk {
  bk_armed : is_Some (blMain b);
  bk_main : log_ok Wm (blDB b) (blMain b);
  bk_emergency : log_ok We (blDB b) (blEmergency b);
  bk_points : forall p, p ∈ blGo b -> EventID (point_row p) <> "" /\ point_ok Wm We b p;
  bk_returned : forall e, e ∈ blReturned b -> accounted Wm We b e
}.

(** A log that moved on with more rows taken and none forgotten. *)
Definition extends (W W' : list (Z * string)) (o o' : option UsageSpool) : Prop :=
  (forall p, p ∈ W -> p ∈ W') /\ (forall s, o = Some s -> exists s', o' = Some s' /\ usSyncedSeq s <= usSyncedSeq s').

Lemma log_extends_refl W o : extends W W o o.
Proof. split; [done|]. intros s ->. exists s. split; [done|lia]. Qed.

Lemma held_extends W W' o o' e : extends W W' o o' -> held_in W o e -> held_in W' o' e.
Proof.
  intros [Hw Hs] (s & -> & q & d & Hm & Hin & Hq). destruct (Hs s eq_refl) as (s' & -> & Hle).
  exists s'. split; [done|]. exists q, d. split_and!; [done|auto|lia].
Qed.

(** The parts of the invariant that a step keeps when it only extends the logs. *)
Lemma accounted_mono Wm We b Wm' We' b' e :
  extends Wm Wm' (blMain b) (blMain b') -> extends We We' (blEmergency b) (blEmergency b') -> blDB b ⊆ blDB b' ->
  (forall x, x ∈ blLost b -> x ∈ blLost b') -> accounted Wm We b e -> accounted Wm' We' b' e.
Proof.
  intros Hm He Hdb Hl [Hid Ha]. split; [done|]. destruct Ha as [Ha|[Ha|[Ha|Ha]]]; [left; set_solver|..].
  - right; left. by eapply held_extends.
  - right; right; left. by eapply held_extends.
  - right; right; right. auto.
Qed.

Lemma point_mono Wm We b Wm' We' b' p :
  extends Wm Wm' (blMain b) (blMain b') -> extends We We' (blEmergency b) (blEmergency b') ->
  point_ok Wm We b p -> point_ok Wm' We' b' p.
Proof.
  intros Hm He. destruct p; cbn; [| done | | |].
  - intros (d & ? & ?). exists d. split; [done|]. by apply (proj1 Hm).
  - intros [? ?]. split; [done|by eapply held_extends].
  - intros [? ?]. split; [done|by eapply held_extends].
  - intros (d & ? & ?). exists d. split; [done|]. by apply (proj1 He).
Qed.

Lemma bill_ok_mono Wm We b Wm' We' b' :
  bill_ok Wm We b -> extends Wm Wm' (blMain b) (blMain b') -> extends We We' (blEmergency b) (blEmergency b') ->
  blDB b ⊆ blDB b' -> (forall x, x ∈ blLost b -> x ∈ blLost b') ->
  log_ok Wm' (blDB b') (blMain b') -> log_ok We' (blDB b') (blEmergency b') ->
  (forall p, p ∈ blGo b' -> p ∈ blGo b \/ EventID (point_row p) <> "" /\ point_ok Wm' We' b' p) ->
  (forall e, e ∈ blReturned b' -> e ∈ blReturned b \/ accounted Wm' We' b' e) ->
  bill_ok Wm' We' b'.
Proof.
  intros [Ha Hm He Hp Hr] Xm Xe Hdb Hl Hm' He' Hp' Hr'. split; [|done|done|..].
  - destruct Ha as [s Es]. destruct (proj2 Xm s Es) as (s' & -> & _). by eexists.
  - intros p Hin. destruct (Hp' p Hin) as [Hin'|?]; [|done]. destruct (Hp p Hin'). split; [done|by eapply point_mono].
  - intros e Hin. destruct (Hr' e Hin) as [Hin'|?]; [|done]. by eapply accounted_mono; eauto.
Qed.

(** *** What a step does to a log *)

Lemma log_ok_mono W db db' o : db ⊆ db' -> log_ok W db o -> log_ok W db' o.
Proof. intros Hdb Hok s E. destruct (Hok s E). split; [by eapply wal_ok_mono|set_solver]. Qed.

Lemma log_ok_op W db s o :
  log_ok W db (Some s) -> fair_op db o -> acks [o] ⊆ db -> usAcked (spool_step s o) ⊆ db ->
  log_ok (taken s o ++ W) db (Some (spool_step s o)) /\ extends W (taken s o ++ W) (Some s) (Some (spool_step s o)).
Proof.
  intros Hok Hfair Hacks Ha. destruct (Hok s eq_refl) as [Hw _]. split.
  - intros s' [= <-]. split; [|done]. eapply wal_ok_mono; [|by apply wal_ok_step]. set_solver.
  - split; [set_solver|]. intros s' [= <-]. eexists. split; [done|]. apply (synced_mono [o] s).
Qed.

Lemma log_write W db s stat w e seq s' :
  log_ok W db (Some s) -> (w = WAll \/ w = WShort 0) -> write_row stat w e s = (seq, s') ->
  exists W', log_ok W' db (Some s') /\ extends W W' (Some s) (Some s') /\ (forall q, seq = Some q -> taken_in W' e q).
Proof.
  intros Hok Hw E. destruct (log_ok_op W db s (OWrite stat w e)) as [Hok' Hx].
  - done.
  - by destruct Hw as [->| ->].
  - set_solver.
  - cbn [spool_step]. rewrite <- (proj2 (Hok s eq_refl)). unfold write_row. repeat case_match; done.
  - cbn [spool_step] in *. rewrite E in *. cbn [snd] in *. eexists. split; [exact Hok'|]. split; [exact Hx|].
    intros q ->. unfold taken, taken_in. rewrite E. cbn [fst].
    destruct (row_marshal e) as [d|] eqn:Em; [exists d; split; [done|left]|]. unfold write_row in E. by rewrite Em in E.
Qed.

Lemma log_background W db s o : log_ok W db (Some s) -> background s o = true ->
  log_ok W db (Some (spool_step s o)) /\ extends W W (Some s) (Some (spool_step s o)).
Proof.
  intros Hok Hb. destruct (Hok s eq_refl) as [_ Ha].
  assert (Ht : taken s o = []) by (by destruct o).
  rewrite <- (app_nil_l W) at 1 3. rewrite <- Ht. apply log_ok_op; [done|..].
  - destruct o; try done. cbn in *. apply bool_decide_eq_true in Hb. set_solver.
  - destruct o; try done; unfold acks; cbn; set_solver.
  - destruct o as [| | | | | | | |fate stored reopened ackSet| |]; try done; cbn [spool_step].
    + unfold sync_capture. repeat case_match; done.
    + unfold sync_start. repeat case_match; done.
    + unfold sync_end. repeat case_match; done.
    + unfold sync_confirm, confirmSynced. repeat case_match; done.
    + unfold Compact. cbn. destruct (usFile s); [|destruct reopened; cbn; set_solver].
      destruct (rewriteStream _ _) as [kept [removed bad]]. destruct fate; [destruct reopened; done..|].
      cbn [snd]. unfold confirmSynced. destruct reopened; cbn; destruct (_ <? _); cbn; set_solver.
    + unfold replay_read. case_match; [done|]. by destruct (read_batch _ _ _ _).
Qed.

Lemma log_ack W db o id : log_ok W db o -> id ∈ db -> log_ok W db (option_map (Ack id) o) /\ extends W W o (option_map (Ack id) o).
Proof.
  intros Hok Hid. destruct o as [s|]; [|split; [done|apply log_extends_refl]].
  destruct (log_ok_op W db s (OAck id)) as [? ?]; [done|done|unfold acks; cbn; set_solver| |done].
  cbn. unfold Ack. destruct (String.eqb id ""); [|cbn]; pose proof (proj2 (Hok s eq_refl)); set_solver.
Qed.

Lemma log_end W db s q t h s' : log_ok W db (Some s) -> write_end q t s = (h, s') ->
  log_ok W db (Some s') /\ extends W W (Some s) (Some s') /\ (h = true -> q <= usSyncedSeq s').
Proof.
  intros Hok E. destruct (log_ok_op W db s (OWriteEnd q t)) as [Hok' Hx].
  - done.
  - done.
  - set_solver.
  - cbn. unfold write_end. pose proof (proj2 (Hok s eq_refl)). by case_match.
  - cbn [spool_step taken app] in *. rewrite E in *. split_and!; [done|done|]. intros ->.
    unfold write_end, waitSynced in E. destruct (Z.leb_spec q (usSyncedSeq s)); [|by rewrite andb_false_r in E].
    destruct t; [|done]. injection E as <-. cbn. lia.
Qed.

(** *** Crashes *)

Definition keyed (l : string) : bool := match walLineKey l with Some _ => true | None => false end.

(** What a new process finds in the stable part counts as taken and synced. *)
Definition recovered_rows (f : option wal_file) : list (Z * string) := map (fun l => (0, l)) (List.filter keyed (lines (stable_text f))).

Lemma reboot_ok dir max f s db :
  newUsageSpool dir max true true f = Some s -> (exists a, file_text f = stable_text f +:+ a) -> wal_ok (recovered_rows f) db s.
Proof.
  intros Hnew Hp. pose proof (newUsageSpool_ok _ _ _ _ Hnew Hp) as Hok. apply (wal_ok_mono _ _ db) in Hok; [|set_solver].
  assert (Est : lines (stable_text (usFile s)) = lines (stable_text f) /\ usAppSeq s = 0 /\ usSyncedSeq s = 0 /\ usSyncer s = SyncIdle).
  { unfold newUsageSpool in Hnew. destruct (String.eqb dir ""); [done|]. injection Hnew as <-. cbn.
    split; [|done]. destruct f as [f|]; cbn; [|done]. apply lines_join, lines_all_one_line. }
  destruct Est as (El & Eq & Es & Ey).
  assert (Hsafe : forall u t, (forall l, l ∈ lines (stable_text f) -> l ∈ lines t) -> safe (recovered_rows f) db u t).
  { intros u t Ht q l Hin _. left. apply Ht. unfold recovered_rows in Hin. apply list_elem_of_fmap in Hin as (l' & [= _ ->] & Hin).
    apply list_elem_of_In, filter_In in Hin as [Hin _]. by apply list_elem_of_In. }
  destruct Hok as [_ Hk1 Hk2 Hk3 Hk4 _ [Hk5 _] _]. split; try done.
  - apply Forall_forall. intros [q l] Hin. unfold recovered_rows in Hin. apply list_elem_of_fmap in Hin as (l' & [= -> ->] & Hin).
    apply list_elem_of_In, filter_In in Hin as [Hin Hkey]. apply list_elem_of_In in Hin. cbn. split_and!; [by eapply lines_one_line| |lia].
    unfold keyed in Hkey. destruct (walLineKey l'); [by eexists|done].
  - apply Hsafe. intros l Hl. rewrite <- El in Hl. destruct Hk4 as [_ [r ->]]. by apply prefix_lines.
  - split; [done|]. apply Hsafe. intros l Hl. by rewrite El.
  - unfold syncer_ok. by rewrite Ey.
Qed.

Lemma crash_cut_prefix n f : exists a, file_text (crash_cut n f) = stable_text (crash_cut n f) +:+ a.
Proof. destruct f as [f|]; cbn; by eexists. Qed.

Lemma log_reboot W db n o :
  log_ok W db o ->
  exists W', log_ok W' db (o ≫= reboot n) /\ (is_Some o -> is_Some (o ≫= reboot n))
  /\ (forall e, EventID e <> "" -> held_in W o e -> EventID e ∈ db \/ held_in W' (o ≫= reboot n) e).
Proof.
  intros Hok. destruct o as [s|]; cbn [mbind option_bind].
  2:{ exists []. split_and!; [done..|]. by intros e _ (s & ? & _). }
  destruct (Hok s eq_refl) as [Hw _]. exists (recovered_rows (crash_cut n (usFile s))).
  assert (Hr : exists s', reboot n s = Some s' /\ usSyncedSeq s' = 0 /\ usAcked s' = ∅).
  { unfold reboot, newUsageSpool. cbn. by eexists. }
  destruct Hr as (s' & Hr & Hsync & Hack). split_and!.
  - intros s1 E. rewrite Hr in E. injection E as <-. split; [|rewrite Hack; set_solver].
    eapply reboot_ok; [exact Hr|]. apply crash_cut_prefix.
  - intros _. by rewrite Hr.
  - intros e He (s1 & [= <-] & q & d & Hm & Hin & Hq).
    destruct (marshal_key e d Hm) as (k & Hk & Hkid). specialize (Hkid He). subst k.
    destruct (proj2 (wo_synced _ _ _ Hw) q d Hin Hq) as [Hl|(k & Hk' & Hdb)]; [|left; congruence].
    right. exists s'. split; [done|]. exists 0, d. split_and!; [done| |lia].
    unfold recovered_rows. apply list_elem_of_fmap. exists d. split; [done|]. apply list_elem_of_In, filter_In. split.
    + apply list_elem_of_In. destruct (usFile s); [exact Hl|done].
    + unfold keyed. by rewrite Hk.
Qed.

(** *** Steps of a goroutine *)

Record moves (Wm We : list (Z * string)) (b : billing) (Wm' We' : list (Z * string)) (b' : billing) : Prop := mkMoves {
  mv_main : extends Wm Wm' (blMain b) (blMain b');
  mv_emergency : extends We We' (blEmergency b) (blEmergency b');
  mv_db : blDB b ⊆ blDB b';
  mv_lost : forall x, x ∈ blLost b -> x ∈ blLost b';
  mv_okm : log_ok Wm' (blDB b') (blMain b');
  mv_oke : log_ok We' (blDB b') (blEmergency b');
  mv_go : blGo b' = blGo b;
  mv_returned : forall e, e ∈ blReturned b' -> e ∈ blReturned b \/ accounted Wm' We' b' e
}.

Lemma log_extends_trans W W' W'' o o' o'' : extends W W' o o' -> extends W' W'' o' o'' -> extends W W'' o o''.
Proof.
  intros [H1 H2] [H3 H4]. split; [auto|]. intros s E. destruct (H2 s E) as (s1 & E1 & ?). destruct (H4 s1 E1) as (s2 & E2 & ?).
  exists s2. split; [done|lia].
Qed.

Lemma moves_trans Wm We b Wm1 We1 b1 Wm2 We2 b2 :
  moves Wm We b Wm1 We1 b1 -> moves Wm1 We1 b1 Wm2 We2 b2 -> moves Wm We b Wm2 We2 b2.
Proof.
  intros [] []. split; try done.
  - by eapply log_extends_trans.
  - by eapply log_extends_trans.
  - set_solver.
  - auto.
  - congruence.
  - intros e He. destruct (mv_returned1 e He) as [He1|?]; [|by right]. destruct (mv_returned0 e He1) as [?|Ha]; [by left|].
    right. by eapply accounted_mono; eauto.
Qed.

Section Moves.
Context (Wm We : list (Z * string)) (b : billing) (Hm : log_ok Wm (blDB b) (blMain b)) (He : log_ok We (blDB b) (blEmergency b)).

Lemma moves_refl : moves Wm We b Wm We b.
Proof using Type*. split; try done; [apply log_extends_refl..|]. by left. Qed.

Lemma moves_gate g : moves Wm We b Wm We (on_gate g b).
Proof using Type*. destruct moves_refl. by split. Qed.

Lemma moves_store id : moves Wm We b Wm We (store id b).
Proof using Type*.
  assert (Hdb : blDB b ⊆ {[id]} ∪ blDB b) by set_solver.
  split; cbn; try done; [apply log_extends_refl..| | |by left]; by eapply log_ok_mono.
Qed.

Lemma moves_returns e : accounted Wm We b e -> moves Wm We b Wm We (returns e b).
Proof using Type*.
  intros Ha. split; cbn; try done; [apply log_extends_refl..|]. intros e' [->|?]%elem_of_cons; [by right|by left].
Qed.

Lemma moves_lose reason e : EventID e <> "" -> moves Wm We b Wm We (lose reason e (returns e b)).
Proof using Type*.
  intros Hid. split; cbn; try done; [apply log_extends_refl..|set_solver|]. intros e' [->|?]%elem_of_cons; [|by left].
  right. split; [done|]. right; right; right. cbn. left.
Qed.

Lemma moves_main Wm' o : log_ok Wm' (blDB b) o -> extends Wm Wm' (blMain b) o -> moves Wm We b Wm' We (set_main o b).
Proof using Type*. intros Ho Hx. split; cbn; try done; [apply log_extends_refl|]. by left. Qed.

Lemma moves_emergency We' o : log_ok We' (blDB b) o -> extends We We' (blEmergency b) o -> moves Wm We b Wm We' (set_emergency o b).
Proof using Type*. intros Ho Hx. split; cbn; try done; [apply log_extends_refl|]. by left. Qed.

End Moves.

Lemma moves_hold_or_lose Wm We b reason f e p b' :
  log_ok Wm (blDB b) (blMain b) -> log_ok We (blDB b) (blEmergency b) ->
  EventID e <> "" -> whole_write f -> hold_or_lose reason f e b = (p, b') ->
  exists We', moves Wm We b Wm We' b' /\ (forall x, p = Some x -> EventID (point_row x) <> "" /\ point_ok Wm We' b' x).
Proof.
  intros Hm He Hid Hw E. unfold hold_or_lose, emergency_write in E. destruct (blEmergency b) as [s|] eqn:Eb.
  2:{ injection E as <- <-. exists We. split; [apply moves_lose; [done|by rewrite Eb|done]|done]. }
  destruct (write_row (fStat f) (fWrite f) e s) as [seq s'] eqn:Ew.
  destruct (log_write We (blDB b) s _ _ _ _ _ He Hw Ew) as (We' & Hok' & Hx & Htk).
  assert (Hmv : moves Wm We b Wm We' (set_emergency (Some s') b)).
  { apply moves_emergency; [done|by rewrite Eb|done|by rewrite Eb]. }
  destruct seq as [q|]; injection E as <- <-; exists We'.
  - split; [done|]. intros x [= <-]. split; [done|]. cbn. by apply Htk.
  - split; [|done]. eapply moves_trans; [exact Hmv|].
    apply moves_lose; [apply (mv_okm _ _ _ _ _ _ Hmv)|apply (mv_oke _ _ _ _ _ _ Hmv)|done].
Qed.

Ltac mv H := first [apply (mv_okm _ _ _ _ _ _ H) | apply (mv_oke _ _ _ _ _ _ H)].

Lemma LogChecked_moves Wm We b f e ok b' :
  log_ok Wm (blDB b) (blMain b) -> log_ok We (blDB b) (blEmergency b) -> LogChecked f e b = (ok, b') ->
  moves Wm We b Wm We b' /\ blMain b' = blMain b /\ (ok = true -> EventID e ∈ blDB b').
Proof.
  intros Hm He E. unfold LogChecked in E. injection E as <- <-. destruct (fOk f); cbn [orb].
  - split_and!; [by apply moves_store|done|]. intros _. cbn. set_solver.
  - destruct (fStored f); split_and!; try done; [by apply moves_store|by apply moves_refl].
Qed.

(** A step of a goroutine that waits for its [Write] of the main log. *)
Lemma advance_main_wait Wm We b e q f p' b' :
  bill_ok Wm We b -> EventID e <> "" -> taken_in Wm e q -> advance f (PMainWait e q) b = (p', b') ->
  moves Wm We b Wm We b' /\ (forall x, p' = Some x -> EventID (point_row x) <> "" /\ point_ok Wm We b' x).
Proof.
  intros [[s Es] Hm He _ _] Hid (d & Hmar & Hin) E. cbn [advance] in E. rewrite Es in E.
  destruct (write_end q (fInTime f) s) as [h s'] eqn:Ew. injection E as <- <-. rewrite Es in Hm.
  destruct (log_end Wm (blDB b) s q _ h s' Hm Ew) as (Hok' & Hx & Hq). split.
  - apply moves_main; [by rewrite Es|done|done|by rewrite Es].
  - intros x [= <-]. split; [by destruct h|]. destruct h; [|done]. cbn. split; [done|].
    exists s'. split; [done|]. exists q, d. split_and!; [done..|auto].
Qed.

Lemma advance_sync_write Wm We b e f p' b' :
  bill_ok Wm We b -> EventID e <> "" -> whole_write f -> advance f (PSyncWrite e) b = (p', b') ->
  exists We', moves Wm We b Wm We' b' /\ (forall x, p' = Some x -> EventID (point_row x) <> "" /\ point_ok Wm We' b' x).
Proof.
  intros [_ Hm He _ _] Hid Hw E. cbn [advance] in E. destruct (LogChecked f e b) as [ok b1] eqn:El.
  destruct (LogChecked_moves Wm We b f e ok b1 Hm He El) as (Hmv & _ & Hdb). destruct ok.
  - injection E as <- <-. exists We. split; [|done]. eapply moves_trans; [exact Hmv|].
    assert (Hg : moves Wm We b1 Wm We (report_success b1)) by (apply moves_gate; mv Hmv).
    eapply moves_trans; [exact Hg|]. apply moves_returns; [mv Hg..|]. split; [done|]. left. apply (Hdb eq_refl).
  - destruct (moves_hold_or_lose Wm We b1 _ _ _ _ _ (mv_okm _ _ _ _ _ _ Hmv) (mv_oke _ _ _ _ _ _ Hmv) Hid Hw E) as (We' & Hmv' & Hp).
    exists We'. split; [by eapply moves_trans|done].
Qed.

Lemma advance_task Wm We b e f p' b' :
  bill_ok Wm We b -> EventID e <> "" -> held_in Wm (blMain b) e -> advance f (PTask e true) b = (p', b') ->
  moves Wm We b Wm We b' /\ p' = None.
Proof.
  intros [_ Hm He _ _] Hid Hheld E. cbn [advance] in E. destruct (LogChecked f e b) as [ok b1] eqn:El.
  destruct (LogChecked_moves Wm We b f e ok b1 Hm He El) as (Hmv & Emain & Hdb). destruct ok; injection E as <- <-; split; try done.
  eapply moves_trans; [exact Hmv|].
  destruct (log_ack Wm (blDB b1) (blMain b1) (EventID e)) as [Hok Hx]; [mv Hmv|auto|].
  assert (Ha : moves Wm We b1 Wm We (ack_main (EventID e) b1)) by (apply moves_main; [mv Hmv..|done|done]).
  eapply moves_trans; [exact Ha|]. apply moves_gate; mv Ha.
Qed.

Lemma advance_hold Wm We b e q f p' b' :
  bill_ok Wm We b -> EventID e <> "" -> taken_in We e q -> advance f (PHold e q) b = (p', b') ->
  moves Wm We b Wm We b' /\ p' = None.
Proof.
  intros [_ Hm He _ _] Hid (d & Hmar & Hin) E. cbn [advance] in E. destruct (blEmergency b) as [s|] eqn:Es.
  2:{ injection E as <- <-. split; [|done]. apply moves_lose; [done|by rewrite Es|done]. }
  destruct (write_end q (fInTime f) s) as [h s'] eqn:Ew.
  destruct (log_end We (blDB b) s q _ h s' He Ew) as (Hok' & Hx & Hq).
  assert (Hmv : moves Wm We b Wm We (set_emergency (Some s') b)) by (apply moves_emergency; [done|by rewrite Es|done|by rewrite Es]).
  destruct h; injection E as <- <-; (split; [|done]).
  - assert (Hc : moves Wm We b Wm We (count_held (set_emergency (Some s') b))) by (destruct Hmv; by split).
    set (b1 := count_held _) in *.
    assert (Hg : moves Wm We b Wm We (on_gate (checkEmergencyHighWater (fStat f) s') b1))
      by (eapply moves_trans; [exact Hc|apply moves_gate; mv Hc]).
    eapply moves_trans; [exact Hg|]. apply moves_returns; [mv Hg..|]. split; [done|]. right; right; left.
    exists s'. split; [done|]. exists q, d. split_and!; [done..|auto].
  - eapply moves_trans; [exact Hmv|]. apply moves_lose; [mv Hmv..|done].
Qed.

Lemma advance_ok Wm We b p f p' b' :
  bill_ok Wm We b -> EventID (point_row p) <> "" -> point_ok Wm We b p -> whole_write f -> advance f p b = (p', b') ->
  exists We', moves Wm We b Wm We' b' /\ (forall x, p' = Some x -> EventID (point_row x) <> "" /\ point_ok Wm We' b' x).
Proof.
  intros Hok Hid Hp Hw E. destruct p as [e q|e|e h|e h|e q]; cbn [point_row point_ok] in *.
  - exists We. by eapply advance_main_wait.
  - by eapply advance_sync_write.
  - destruct Hp as [-> Hheld]. exists We. cbn [advance] in E.
    assert (Hr : moves Wm We b Wm We (returns e b)).
    { apply moves_returns; [apply (bk_main _ _ _ Hok)|apply (bk_emergency _ _ _ Hok)|]. split; [done|]. by right; left. }
    destruct (fAccepted f); injection E as <- <-; (split; [done|]); [|done]. intros x [= <-]. done.
  - destruct Hp as [-> Hheld]. exists We. destruct (advance_task _ _ _ _ _ _ _ Hok Hid Hheld E) as [? ->]. done.
  - exists We. destruct (advance_hold _ _ _ _ _ _ _ _ Hok Hid Hp E) as [? ->]. done.
Qed.

(** ** Every step *)

Lemma bill_ok_moves Wm We b Wm' We' b' go :
  bill_ok Wm We b -> moves Wm We b Wm' We' b' ->
  (forall p, p ∈ go -> p ∈ blGo b \/ EventID (point_row p) <> "" /\ point_ok Wm' We' b' p) -> bill_ok Wm' We' (set_go go b').
Proof. intros Hok [] Hgo. eapply bill_ok_mono; [exact Hok|..]; try done. Qed.

Lemma bill_ok_step Wm We b a b' :
  bill_ok Wm We b -> whole_writes a -> bill_step a b = Some b' -> exists Wm' We', bill_ok Wm' We' b'.
Proof.
  intros Hok Hw E. pose proof (bk_main _ _ _ Hok) as Hm. pose proof (bk_emergency _ _ _ Hok) as He.
  destruct a as [f e|i f|o|o|main id|ga|n n' now]; cbn [bill_step] in E.
  - destruct (String.eqb_spec (EventID e) "") as [|Hid]; [done|]. unfold submitUsageEntry in E.
    destruct (bk_armed _ _ _ Hok) as [s Es]. rewrite Es in E, Hm.
    destruct (write_row (fStat f) (fWrite f) e s) as [seq s'] eqn:Ew. injection E as <-.
    destruct (log_write Wm (blDB b) s _ _ _ _ _ Hm Hw Ew) as (Wm' & Hok' & Hx & Htk). exists Wm', We.
    apply (bill_ok_moves Wm We b); [done|apply moves_main; [by rewrite Es|done|done|by rewrite Es]|].
    cbn. intros p [?|Hx1%list_elem_of_singleton]%elem_of_app; [by left|subst p]. right. destruct seq as [q|]; cbn; [|done].
    split; [done|]. by apply Htk.
  - destruct (blGo b !! i) as [p|] eqn:Ep; [|done]. destruct (advance f p b) as [p' b1] eqn:Ea. injection E as <-.
    destruct (bk_points _ _ _ Hok p ltac:(by eapply list_elem_of_lookup_2)) as [Hid Hp].
    destruct (advance_ok _ _ _ _ _ _ _ Hok Hid Hp Hw Ea) as (We' & Hmv & Hp'). exists Wm, We'.
    apply (bill_ok_moves Wm We b); [done|done|]. rewrite (mv_go _ _ _ _ _ _ Hmv). intros x Hx. destruct p' as [y|].
    + apply list_elem_of_lookup in Hx as [j Hj]. apply list_lookup_insert_Some in Hj as [(-> & <- & _)|(_ & Hj)].
      * right. by apply Hp'.
      * left. by eapply list_elem_of_lookup_2.
    + left. rewrite delete_take_drop in Hx. apply elem_of_app in Hx as [Hx|Hx]; [eapply subseteq_take|eapply subseteq_drop]; exact Hx.
  - destruct (blMain b) as [s|] eqn:Es; [|done]. destruct (background s o) eqn:Eb; [|done]. injection E as <-.
    destruct (log_background Wm (blDB b) s o Hm Eb) as [Hok' Hx]. exists Wm, We.
    apply (bill_ok_moves Wm We b _ _ (set_main (Some (spool_step s o)) b) (blGo b)); [done| |by left].
    apply moves_main; [by rewrite Es|done|done|by rewrite Es].
  - destruct (blEmergency b) as [s|] eqn:Es; [|done]. destruct (background s o) eqn:Eb; [|done]. injection E as <-.
    destruct (log_background We (blDB b) s o He Eb) as [Hok' Hx]. exists Wm, We.
    apply (bill_ok_moves Wm We b _ _ (set_emergency (Some (spool_step s o)) b) (blGo b)); [done| |by left].
    apply moves_emergency; [done|by rewrite Es|done|by rewrite Es].
  - injection E as <-. exists Wm, We. assert (Hs : moves Wm We b Wm We (store id b)) by (by apply moves_store).
    set (b1 := report_success (store id b)).
    assert (Hg : moves Wm We b Wm We b1) by (eapply moves_trans; [exact Hs|apply moves_gate; mv Hs]).
    assert (Hid : id ∈ blDB b1) by (unfold b1; cbn; set_solver).
    destruct main.
    + apply (bill_ok_moves Wm We b _ _ (ack_main id b1) (blGo b)); [done| |by left]. eapply moves_trans; [exact Hg|].
      destruct (log_ack Wm (blDB b1) (blMain b1) id) as [? ?]; [mv Hg|done|]. apply moves_main; [mv Hg..|done|done].
    + set (b2 := set_emergency _ _). apply (bill_ok_moves Wm We b _ _ b2 (blGo b)); [done| |by left]. eapply moves_trans; [exact Hg|].
      destruct (log_ack We (blDB b1) (blEmergency b1) id) as [? ?]; [mv Hg|done|]. apply moves_emergency; [mv Hg..|done|done].
  - destruct (gate_step ga (blGate b)) as [g|]; [|done]. injection E as <-. exists Wm, We.
    apply (bill_ok_moves Wm We b _ _ (on_gate (fun _ => g) b) (blGo b)); [done|by apply moves_gate|by left].
  - injection E as <-. destruct (log_reboot Wm (blDB b) n (blMain b) Hm) as (Wm' & Hm' & Hs & Hkm).
    destruct (log_reboot We (blDB b) n' (blEmergency b) He) as (We' & He' & _ & Hke). exists Wm', We'.
    split; cbn; [apply Hs, (bk_armed _ _ _ Hok)|done|done|by intros p ?%elem_of_nil|].
    intros e Hin. destruct (bk_returned _ _ _ Hok e Hin) as [Hid Ha]. split; [done|]. cbn.
    destruct Ha as [?|[Hh|[Hh|?]]]; [by left| | |by right; right; right].
    + destruct (Hkm e Hid Hh); [by left|by right; left].
    + destruct (Hke e Hid Hh); [by left|by right; right; left].
Qed.

Lemma bill_ok_run as_ : forall Wm We b b',
  bill_ok Wm We b -> Forall whole_writes as_ -> bill_run as_ b = Some b' -> exists Wm' We', bill_ok Wm' We' b'.
Proof.
  induction as_ as [|a as_ IH]; intros Wm We b b' Hok Hw E; cbn [bill_run] in E; [injection E as <-; by exists Wm, We|].
  inversion_clear Hw as [|? ? Ha Has]. destruct (bill_step a b) as [b1|] eqn:Es; [|done].
  destruct (bill_ok_step _ _ _ _ _ Hok Ha Es) as (Wm1 & We1 & Hok1). by eapply IH.
Qed.

(** A process with both logs, on the files it finds. *)
Definition boot (fm fe : option wal_file) (max maxE : Z) (g : gate) : billing :=
  mkBilling (newUsageSpool "spool" max true true fm) (newUsageSpool "spool/emergency" maxE true true fe) ∅ [] [] [] 0 g.

Lemma boot_ok fm fe max maxE g :
  (exists a, file_text fm = stable_text fm +:+ a) -> (exists a, file_text fe = stable_text fe +:+ a) -> bill_ok [] [] (boot fm fe max maxE g).
Proof.
  intros Hm He. split.
  - by eexists.
  - intros s E. split; [exact (newUsageSpool_ok _ _ _ _ E Hm)|]. injection E as <-; cbn; set_solver.
  - intros s E. split; [exact (newUsageSpool_ok _ _ _ _ E He)|]. injection E as <-; cbn; set_solver.
  - by intros p ?%elem_of_nil.
  - by intros p ?%elem_of_nil.
Qed.

Definition on_disk (o : option UsageSpool) (e : Row) : Prop :=
  exists s d, o = Some s /\ row_marshal e = Some d /\ d ∈ lines (stable_text (usFile s)).

Lemma held_on_disk W db o e : EventID e <> "" -> log_ok W db o -> held_in W o e -> EventID e ∈ db \/ on_disk o e.
Proof.
  intros Hid Hok (s & -> & q & d & Hmar & Hin & Hq). destruct (Hok s eq_refl) as [Hw _].
  destruct (marshal_key e d Hmar) as (k & Hk & Hkid). specialize (Hkid Hid). subst k.
  destruct (proj2 (wo_synced _ _ _ Hw) q d Hin Hq) as [Hl|(k & Hk' & Hdb)]; [|left; congruence]. right. by exists s, d.
Qed.

(** C2: No billing row disappears silently. For a process with the main log armed, from files that start
    with their stable prefix, and as long as no write to a log is torn ([whole_writes]: a failing write
    took nothing; a torn one can lose a confirmed row, [torn_write_loses_confirmed_row] of Spool.v): on
    every interleaving of the goroutines, whatever the database, the pool, fsync, the compactions and
    crashes of the process do, once [submitUsageEntry] returned for a row, the row is stored in the
    database, or its line is on stable storage in the main or the emergency log, or it was counted as
    lost. *)
Theorem returned_row_is_accounted fm fe max maxE g as_ b e :
  (exists a, file_text fm = stable_text fm +:+ a) -> (exists a, file_text fe = stable_text fe +:+ a) ->
  Forall whole_writes as_ -> bill_run as_ (boot fm fe max maxE g) = Some b -> e ∈ blReturned b ->
  EventID e ∈ blDB b \/ on_disk (blMain b) e \/ on_disk (blEmergency b) e \/ EventID e ∈ blLost b.
Proof.
  intros Hm He Hw Hr Hin. destruct (bill_ok_run _ _ _ _ _ (boot_ok fm fe max maxE g Hm He) Hw Hr) as (Wm & We & Hok).
  destruct (bk_returned _ _ _ Hok e Hin) as [Hid Ha]. destruct Ha as [?|[Hh|[Hh|?]]]; [by left| | |by right; right; right].
  - destruct (held_on_disk _ _ _ _ Hid (bk_main _ _ _ Hok) Hh); [by left|by right; left].
  - destruct (held_on_disk _ _ _ _ Hid (bk_emergency _ _ _ Hok) Hh); [by left|by right; right; left].
Qed.

(** ** Losses are loud *)

(** What the step of an action does to the gate. *)
Definition gate_effect (a : bill_action) (b b' : billing) : Prop :=
  match a with BGate a => gate_step a (blGate b) = Some (blGate b') | BCrash _ _ _ => True
  | _ => blGate b' = blGate b \/ exists ga, step_adds ga (blGate b) = 0 /\ gate_step ga (blGate b) = Some (blGate b') end.

(** A row is counted as lost exactly when the report of a loss starts. *)
Definition lost_reported (b b' : billing) : Prop :=
  blLost b' = blLost b \/
  exists reason id, blLost b' = id :: blLost b /\ blGate b' = start (ReportLoss reason) (blGate b).

Lemma hold_or_lose_gate reason f e b p b' :
  hold_or_lose reason f e b = (p, b') -> lost_reported b b' /\ (blGate b' = blGate b \/ blGate b' = start (ReportLoss reason) (blGate b)).
Proof.
  intros E. unfold hold_or_lose, emergency_write in E. unfold lost_reported.
  destruct (blEmergency b); [destruct (write_row _ _ _ _) as [[q|] s']|]; injection E as <- <-; cbn; eauto 10.
Qed.

Definition reports (f : integrity -> option call) : Prop :=
  (exists r, f = ReportLoss r) \/ (exists r, f = Engage r) \/ f = ReportDurableSuccess.

Lemma advance_gate f p b p' b' :
  advance f p b = (p', b') ->
  lost_reported b b' /\ (blGate b' = blGate b \/ exists g, reports g /\ blGate b' = start g (blGate b)).
Proof.
  intros E. assert (Hn : forall b1, blLost b1 = blLost b -> lost_reported b b1) by (by left).
  assert (Hh : forall r b1, blLost b1 = blLost b -> blGate b1 = blGate b -> hold_or_lose r f (point_row p) b1 = (p', b') ->
    lost_reported b b' /\ (blGate b' = blGate b \/ exists g, reports g /\ blGate b' = start g (blGate b))).
  { intros r b1 El Eg Eh. apply hold_or_lose_gate in Eh as [Hl Hg]. unfold lost_reported in *. rewrite El, Eg in *. split; [done|].
    destruct Hg as [?|?]; [by left|right]. eexists. split; [|done]. unfold reports; eauto. }
  destruct p as [e q|e|e h|e h|e q]; cbn [advance point_row] in *.
  - destruct (blMain b); [destruct (write_end _ _ _)|]; injection E as <- <-; by (split; [apply Hn|left]).
  - unfold LogChecked in E. destruct (fOk f); [injection E as <- <-; split; [by left|right; eexists; split; [by right; right|done]]|].
    apply Hh in E; [done|by destruct (fStored f)..].
  - destruct (fAccepted f), h; injection E as <- <-; by (split; [apply Hn|left]).
  - unfold LogChecked in E. destruct (fOk f).
    + injection E as <- <-. destruct h; (split; [by left|right; eexists; split; [by right; right|done]]).
    + destruct h; [injection E as <- <-; destruct (fStored f); split; by left|]. apply Hh in E; [done|by destruct (fStored f)..].
  - assert (Hl : forall b1, blLost b1 = blLost b -> blGate b1 = blGate b -> (None, lose "db write failed" e (returns e b1)) = (p', b') ->
      lost_reported b b' /\ (blGate b' = blGate b \/ exists g, reports g /\ blGate b' = start g (blGate b))).
    { intros b1 El Eg [= <- <-]. unfold lost_reported, reports. cbn. rewrite El, Eg. split; [right|right]; eauto 6. }
    destruct (blEmergency b) as [s|]; [destruct (write_end q (fInTime f) s) as [[] s']|]; [|by eapply Hl; [..|exact E]..].
    injection E as <- <-. split; [by left|]. cbn. unfold reports, checkEmergencyHighWater. repeat case_match; eauto 9.
Qed.

Lemma bill_step_gate a b b' : bill_step a b = Some b' -> lost_reported b b' /\ gate_effect a b b'.
Proof.
  intros E. destruct a as [f e|i f|o|o|main id|ga|n n' now]; cbn [bill_step gate_effect] in *.
  - destruct (String.eqb _ _); [done|]. unfold submitUsageEntry in E.
    destruct (blMain b); [destruct (write_row _ _ _ _)|]; injection E as <-; split; by left.
  - destruct (blGo b !! i) as [p|]; [|done]. destruct (advance f p b) as [p' b1] eqn:Ea. injection E as <-.
    apply advance_gate in Ea as [Hl Hg]. split; [exact Hl|]. cbn [blGate set_go].
    destruct Hg as [->|(g & Hr & ->)]; [by left|right]. destruct Hr as [[r ->]|[[r ->]| ->]]; [by exists (GLoss r)|by exists (GEngage r)|by exists GSuccess].
  - destruct (blMain b); [|done]. destruct (background _ _); [|done]. injection E as <-. split; by left.
  - destruct (blEmergency b); [|done]. destruct (background _ _); [|done]. injection E as <-. split; by left.
  - injection E as <-. split; [by destruct main; left|]. right. exists GSuccess. by destruct main.
  - destruct (gate_step ga (blGate b)) as [g|] eqn:Eg; [|done]. injection E as <-. split; [by left|done].
  - injection E as <-. split; [by left|done].
Qed.

(** The successes counted by the calls of a run. *)
Fixpoint adds (as_ : list bill_action) (b : billing) : Z :=
  match as_ with
  | [] => 0
  | a :: as_ =>
      match a with BGate a => step_adds a (blGate b) | _ => 0 end + match bill_step a b with Some b => adds as_ b | None => 0 end
  end.

Definition no_crash (a : bill_action) : Prop := match a with BCrash _ _ _ => False | _ => True end.

Lemma since_loss_run as_ : forall n b b',
  since_loss n (blGate b) -> Forall no_crash as_ -> bill_run as_ b = Some b' -> since_loss (n + adds as_ b) (blGate b').
Proof.
  induction as_ as [|a as_ IH]; intros n b b' Hs Hc E; cbn [bill_run adds] in *; [injection E as <-; by rewrite Z.add_0_r|].
  inversion_clear Hc as [|? ? Ha Has]. destruct (bill_step a b) as [b1|] eqn:Es; [|done].
  rewrite Z.add_assoc. apply IH; [|done|done]. destruct (bill_step_gate _ _ _ Es) as [_ Hg].
  destruct a; cbn in Ha, Hg; try done; rewrite ?Z.add_0_r; try (by eapply since_loss_step);
    (destruct Hg as [->|(ga & Hz & Hg)]; [done|]); rewrite <- (Z.add_0_r n), <- Hz; by eapply since_loss_step.
Qed.

(** C35: Losses are loud.  A step counts a row as lost only together with the start of the report of the
    loss, which under the blocking policy resets the count of successes and then closes the gate.  If no
    success is past its count when the report resets the counter, then at every later point of
    the process at which no report is about to swap the block, billable requests are rejected
    with 503, unless at least five more successes have been counted since the reset.  The
    reports run operation by operation next to those of other goroutines.  Without the condition the
    gate can be open right after the loss ([late_release_reopens_gate]), and the claim ends
    with the process ([late_clear_loses_block]). *)
Theorem loss_closes_gate :
  (forall a b b', bill_step a b = Some b' -> blLost b' <> blLost b -> currentMode (gtState (blGate b)) = PolicyBlock ->
     exists reason, gtCalls (blGate b') = gtCalls (blGate b) ++ [LossReset reason] /\ gtState (blGate b') = gtState (blGate b)) /\
  (forall b i reason o b1 as_ b2,
     gtCalls (blGate b) !! i = Some (LossReset reason) -> Forall (fun c => may_release c = false) (gtCalls (blGate b)) ->
     bill_step (BGate (GAdvance i o)) b = Some b1 -> Forall no_crash as_ -> bill_run as_ b1 = Some b2 ->
     Forall (fun c => engaging c = false) (gtCalls (blGate b2)) ->
     BillingIntegrityGate (gtState (blGate b2)) = Some 503 \/ recoveryConsecutive <= adds as_ b1).
Proof.
  split.
  - intros a b b' E Hl Hm. destruct (bill_step_gate _ _ _ E) as [[?|(reason & id & _ & ->)] _]; [done|].
    exists reason. unfold start, ReportLoss. by rewrite Hm.
  - intros b i reason o b1 as_ b2 Hi Hf E1 Hc E2 He. apply bill_step_gate in E1 as [_ Hg]. cbn [gate_effect] in Hg.
    destruct (since_loss_run as_ _ _ _ (since_loss_reset _ _ _ _ _ Hi Hf Hg) Hc E2) as [_ _ _ Hcl].
    destruct Hcl as [Hb|[(c & Hin & Hx)|?]]; [left|exfalso|by right].
    + unfold BillingIntegrityGate, Blocked. by rewrite Hb.
    + rewrite Forall_forall in He. rewrite (He c Hin) in Hx. done.
Qed.
End Billing.

(** ** Witnesses *)

Definition fine : faults := mkFaults true true true WAll true true.

(** The database fails and the write of a log takes nothing. *)
Definition outage_faults (w : write_fate) : faults := mkFaults false false true w true true.

Definition ready : gate := open_gate (Configure "block" 0 true (fresh_process "state" None)).

Definition empty_system : @billing demo_row := boot None None 0 0 ready.

(** Row [A] is synced and enqueued, the process dies before its task runs; row [B] is
    refused by the main log and the database and held by the emergency log. *)
Definition demo_run : list (@bill_action demo_row) :=
  [BSubmit fine RowA; BMain OCapture; BMain OSyncStart; BMain (OSyncEnd true); BMain OConfirm; BAdvance 0 fine; BAdvance 0 fine;
   BSubmit (outage_faults (WShort 0)) RowB; BAdvance 1 (outage_faults WAll);
   BEmergency OCapture; BEmergency OSyncStart; BEmergency (OSyncEnd true); BEmergency OConfirm; BAdvance 1 fine;
   BCrash 0 0 50].

Definition demo_end : @billing demo_row := default empty_system (bill_run demo_run empty_system).

Lemma returned_row_is_accounted_witness :
  (EventID RowB ∈ blDB demo_end \/ on_disk (blMain demo_end) RowB \/ on_disk (blEmergency demo_end) RowB \/ EventID RowB ∈ blLost demo_end)
  /\ lines (stable_text (blMain demo_end ≫= usFile)) = ["[a]"] /\ lines (stable_text (blEmergency demo_end ≫= usFile)) = ["[b]"].
Proof.
  split; [|split; vm_compute; reflexivity].
  apply (returned_row_is_accounted None None 0 0 ready demo_run demo_end RowB).
  - by exists "".
  - by exists "".
  - unfold demo_run. repeat (apply Forall_cons; split; [unfold whole_writes, whole_write; cbn; auto|]). constructor.
  - vm_compute; reflexivity.
  - vm_compute. left.
Defined.

Definition refused : @billing demo_row := default empty_system (bill_run [BSubmit (outage_faults (WShort 0)) RowA] empty_system).

(** The row is lost; its report resets the counter, and the swap closes the gate. *)
Definition lost_row : @billing demo_row := default empty_system (bill_step (BAdvance 0 (outage_faults (WShort 0))) refused).

Definition reset : @billing demo_row := default empty_system (bill_step (BGate (GAdvance 0 (at_second 100))) lost_row).

Definition after_reset : list (@bill_action demo_row) :=
  [BSubmit fine RowB; BGate (GAdvance 0 (at_second 100)); BReplayed false "b"; BGate (GAdvance 1 (at_second 101))].

Definition closed : @billing demo_row := default empty_system (bill_run after_reset reset).

Lemma loss_closes_gate_witness :
  (exists reason, gtCalls (blGate lost_row) = gtCalls (blGate refused) ++ [LossReset reason] /\ gtState (blGate lost_row) = gtState (blGate refused)) /\
  (BillingIntegrityGate (gtState (blGate closed)) = Some 503 \/ recoveryConsecutive <= adds after_reset reset) /\ adds after_reset reset = 1 /\ gtCalls (blGate closed) = [EngageSince "WAL unavailable; synchronous db write failed"].
Proof.
  split_and!; [|apply (proj2 loss_closes_gate lost_row 0%nat "WAL unavailable; synchronous db write failed" (at_second 100) reset after_reset closed)|vm_compute; reflexivity..].
  - apply (proj1 loss_closes_gate (BAdvance 0 (outage_faults (WShort 0))) refused lost_row); [vm_compute; reflexivity| |vm_compute; reflexivity].
    vm_compute. discriminate.
  - vm_compute; reflexivity.
  - vm_compute. repeat constructor.
  - vm_compute; reflexivity.
  - repeat constructor.
  - vm_compute; reflexivity.
  - vm_compute. repeat constructor.
Defined.
