(* ===== verification/Netip.v ===== *)
(** * Addresses of [net] and [net/netip]

    What the SSRF policy uses of Go's address packages: [net.IP] byte slices with
    their classes, [netip.Addr] and [netip.Prefix], their text forms in both
    directions, and the host and port of a dial address.  The theorems are the
    interval reading of prefixes and of the address classes, and the round trip of
    the text forms. *)

From S2P Require Import Prelude.

(** ** Texts

    Strings are compared and split byte by byte; the functions work on the list
    of the bytes. *)

Abbreviation chars := (list ascii).
Abbreviation chars_of := String.list_ascii_of_string.
Abbreviation string_of := String.string_of_list_ascii.

Definition has_char (c : ascii) (s : chars) : bool := existsb (Ascii.eqb c) s.

(** The text before and after the first [c]; [None] when there is none. *)
Fixpoint cut_first (c : ascii) (s : chars) : option (chars * chars) :=
  match s with
  | [] => None
  | d :: s' =>
      if Ascii.eqb c d then Some ([], s')
      else match cut_first c s' with Some (a, b) => Some (d :: a, b) | None => None end
  end.

(** The same at the last [c]. *)
Fixpoint cut_last (c : ascii) (s : chars) : option (chars * chars) :=
  match s with
  | [] => None
  | d :: s' =>
      match cut_last c s' with
      | Some (a, b) => Some (d :: a, b)
      | None => if Ascii.eqb c d then Some ([], s') else None
      end
  end.

(** ** [netip.Addr] *)

Record Addr := mkAddr { Is6 : bool; num : Z; Zone : chars }.

Definition BitLen (a : Addr) : Z := if Is6 a then 128 else 32.

(** The number that big-endian bytes denote. *)
Definition be (bytes : list Z) : Z := fold_left (fun n b => n * 256 + b) bytes 0.

Definition AddrFromSlice (ip : list Z) : option Addr :=
  match length ip with
  | 4%nat => Some (mkAddr false (be ip) [])
  | 16%nat => Some (mkAddr true (be ip) [])
  | _ => None
  end.

Definition Is4In6 (a : Addr) : bool := Is6 a && (Z.shiftr (num a) 32 =? 0xffff).

Definition Unmap (a : Addr) : Addr :=
  if Is4In6 a then mkAddr false (num a mod 2 ^ 32) [] else a.

(** ** [netip.Prefix] *)

Record Prefix := mkPrefix { PAddr : Addr; Bits : Z }.

Definition host_bits (p : Prefix) : Z := BitLen (PAddr p) - Bits p.

Definition Masked (p : Prefix) : Prefix :=
  mkPrefix (mkAddr (Is6 (PAddr p))
              (Z.shiftl (Z.shiftr (num (PAddr p)) (host_bits p)) (host_bits p)) [])
    (Bits p).

Definition PrefixContains (p : Prefix) (a : Addr) : bool :=
  bool_decide (Zone a = []) && Bool.eqb (Is6 (PAddr p)) (Is6 a)
  && (Z.shiftr (Z.lxor (num a) (num (PAddr p))) (host_bits p) =? 0).

Definition Overlaps (p o : Prefix) : bool :=
  let minBits := Z.min (Bits p) (Bits o) in
  let n := BitLen (PAddr p) - minBits in
  Bool.eqb (Is6 (PAddr p)) (Is6 (PAddr o))
  && (Z.shiftr (num (PAddr p)) n =? Z.shiftr (num (PAddr o)) n).

(** ** Parsing *)

Definition digit (c : ascii) : option Z :=
  let n := Z.of_nat (nat_of_ascii c) in
  if (48 <=? n) && (n <=? 57) then Some (n - 48) else None.

Definition hex_digit (c : ascii) : option Z :=
  let n := Z.of_nat (nat_of_ascii c) in
  if (48 <=? n) && (n <=? 57) then Some (n - 48)
  else if (97 <=? n) && (n <=? 102) then Some (n - 87)
  else if (65 <=? n) && (n <=? 70) then Some (n - 55)
  else None.

(** [parseIPv4Fields]: [prevdot] holds at the start and after a dot. *)
Fixpoint ipv4_loop (prevdot : bool) (s : chars) (val : Z) (digLen : nat) (fields : list Z)
    : option (list Z) :=
  match s with
  | [] => if (length fields <? 3)%nat then None else Some (fields ++ [val])
  | c :: s' =>
      match digit c with
      | Some d =>
          if (digLen =? 1)%nat && (val =? 0) then None
          else if 255 <? val * 10 + d then None
          else ipv4_loop false s' (val * 10 + d) (S digLen) fields
      | None =>
          if Ascii.eqb c "."%char then
            if prevdot || bool_decide (s' = []) then None
            else if (length fields =? 3)%nat then None
            else ipv4_loop true s' 0 0 (fields ++ [val])
          else None
      end
  end.

Definition parseIPv4Fields (s : chars) : option (list Z) := ipv4_loop true s 0 0 [].

Definition parseIPv4 (s : chars) : option Addr :=
  match parseIPv4Fields s with Some f => Some (mkAddr false (be f) []) | None => None end.

(** The hexadecimal digits at the start of a text: how many, their value, the
    rest; [None] when there are more than four. *)
Fixpoint hex_field (off : nat) (acc : Z) (s : chars) : option (nat * Z * chars) :=
  match s with
  | [] => Some (off, acc, [])
  | c :: s' =>
      match hex_digit c with
      | None => Some (off, acc, s)
      | Some d => if (3 <? off)%nat then None else hex_field (S off) (acc * 16 + d) s'
      end
  end.

(** The loop of [parseIPv6] with [n] fields of two bytes left to fill. *)
Fixpoint ipv6_loop (n : nat) (s : chars) (bytes : list Z) (ellipsis : option nat)
    : option (chars * list Z * option nat) :=
  match n with
  | O => Some (s, bytes, ellipsis)
  | S n' =>
      match hex_field 0 0 s with
      | None | Some (O, _, _) => None
      | Some (S _, acc, rest) =>
          let bytes' := bytes ++ [acc / 256; acc mod 256] in
          match rest with
          | [] => Some ([], bytes', ellipsis)
          | c :: rest' =>
              if Ascii.eqb c "."%char then
                if bool_decide (ellipsis = None) && negb (length bytes =? 12)%nat then None
                else if (16 <? length bytes + 4)%nat then None
                else match parseIPv4Fields s with
                     | Some f => Some ([], bytes ++ f, ellipsis)
                     | None => None
                     end
              else if Ascii.eqb c ":"%char then
                match rest' with
                | [] => None
                | d :: rest'' =>
                    if Ascii.eqb d ":"%char then
                      match ellipsis with
                      | Some _ => None
                      | None =>
                          match rest'' with
                          | [] => Some ([], bytes', Some (length bytes'))
                          | _ => ipv6_loop n' rest'' bytes' (Some (length bytes'))
                          end
                      end
                    else ipv6_loop n' rest' bytes' ellipsis
                end
              else None
          end
      end
  end.

(** The bytes with the ellipsis expanded. *)
Definition ipv6_expand (r : chars * list Z * option nat) : option (list Z) :=
  let '(s, bytes, ellipsis) := r in
  if bool_decide (s <> []) then None
  else if (length bytes <? 16)%nat then
    match ellipsis with
    | None => None
    | Some e => Some (take e bytes ++ replicate (16 - length bytes) 0 ++ drop e bytes)
    end
  else match ellipsis with Some _ => None | None => Some bytes end.

Definition parseIPv6Bytes (s : chars) : option (list Z) :=
  match s with
  | [] => match ipv6_loop 8 [] [] None with Some r => ipv6_expand r | None => None end
  | a :: b :: s' =>
      if Ascii.eqb a ":"%char && Ascii.eqb b ":"%char then
        match s' with
        | [] => Some (replicate 16 0)
        | _ => match ipv6_loop 8 s' [] (Some 0%nat) with Some r => ipv6_expand r | None => None end
        end
      else match ipv6_loop 8 s [] None with Some r => ipv6_expand r | None => None end
  | _ => match ipv6_loop 8 s [] None with Some r => ipv6_expand r | None => None end
  end.

Definition parseIPv6 (s : chars) : option Addr :=
  let '(s, zone, zone_ok) :=
    match cut_first "%"%char s with
    | Some (a, z) => (a, z, bool_decide (z <> []))
    | None => (s, [], true)
    end in
  if zone_ok then
    match parseIPv6Bytes s with Some b => Some (mkAddr true (be b) zone) | None => None end
  else None.

(** [netip.ParseAddr] *)
Fixpoint addr_form (s : chars) : option bool :=
  match s with
  | [] => None
  | c :: s' =>
      if Ascii.eqb c "."%char then Some false
      else if Ascii.eqb c ":"%char then Some true
      else if Ascii.eqb c "%"%char then None
      else addr_form s'
  end.

Definition ParseAddr (s : chars) : option Addr :=
  match addr_form s with
  | Some false => parseIPv4 s
  | Some true => parseIPv6 s
  | None => None
  end.

(** [strconv.Atoi] on the bits of a prefix: one digit, or several that start
    with none of a sign and a zero. *)
Definition parse_bits (s : chars) : option Z :=
  let fix go (s : chars) (n : Z) : option Z :=
    match s with
    | [] => Some n
    | c :: s' => match digit c with Some d => go s' (n * 10 + d) | None => None end
    end in
  match s with
  | [] => None
  | [c] => digit c
  | c :: _ => match digit c with Some 0 => None | Some _ => go s 0 | None => None end
  end.

Definition ParsePrefix (s : string) : option Prefix :=
  match cut_last "/"%char (chars_of s) with
  | None => None
  | Some (a, b) =>
      match ParseAddr a, parse_bits b with
      | Some ip, Some bits =>
          if bool_decide (Zone ip = []) && (bits <=? BitLen ip) then Some (mkPrefix ip bits) else None
      | _, _ => None
      end
  end.

(** [net.ParseIP]: sixteen bytes, whatever the family; a zone is refused. *)
Fixpoint bytes_be (k : nat) (n : Z) : list Z :=
  match k with O => [] | S k' => bytes_be k' (n / 256) ++ [n mod 256] end.

Definition v4InV6Prefix : list Z := replicate 10 0 ++ [255; 255].

Definition As16 (a : Addr) : list Z :=
  if Is6 a then bytes_be 16 (num a) else v4InV6Prefix ++ bytes_be 4 (num a).

Definition ParseIP (s : chars) : option (list Z) :=
  match ParseAddr s with
  | Some a => if bool_decide (Zone a = []) then Some (As16 a) else None
  | None => None
  end.

(** ** Printing *)

Definition hex_char (d : Z) : ascii :=
  ascii_of_nat (Z.to_nat (if d <? 10 then 48 + d else 87 + d)).

Definition appendDecimal (x : Z) : chars :=
  (if 100 <=? x then [hex_char (x / 100)] else []) ++
  (if 10 <=? x then [hex_char (x / 10 mod 10)] else []) ++ [hex_char (x mod 10)].

Definition appendHex (x : Z) : chars :=
  (if 0x1000 <=? x then [hex_char (x / 0x1000)] else []) ++
  (if 0x100 <=? x then [hex_char (x / 0x100 mod 16)] else []) ++
  (if 0x10 <=? x then [hex_char (x / 0x10 mod 16)] else []) ++ [hex_char (x mod 16)].

Fixpoint join (sep : chars) (l : list chars) : chars :=
  match l with [] => [] | [x] => x | x :: l' => x ++ sep ++ join sep l' end.

Definition string4 (bytes : list Z) : chars := join ["."%char] (map appendDecimal bytes).

Fixpoint zero_run (ws : list Z) : nat :=
  match ws with w :: ws' => if w =? 0 then S (zero_run ws') else O | [] => O end.

(** The first longest run of at least two zero fields: start and end. *)
Fixpoint longest_run (i : nat) (ws : list Z) (best : option (nat * nat)) : option (nat * nat) :=
  match ws with
  | [] => best
  | _ :: ws' =>
      let l := zero_run ws in
      let cur := match best with Some (a, b) => (b - a)%nat | None => O end in
      longest_run (S i) ws'
        (if (2 <=? l)%nat && (cur <? l)%nat then Some (i, i + l)%nat else best)
  end.

Definition string6 (ws : list Z) : chars :=
  match longest_run 0 ws None with
  | None => join [":"%char] (map appendHex ws)
  | Some (zs, ze) =>
      join [":"%char] (map appendHex (take zs ws)) ++ [":"%char; ":"%char]
        ++ join [":"%char] (map appendHex (drop ze ws))
  end.

Fixpoint words_be (k : nat) (n : Z) : list Z :=
  match k with O => [] | S k' => words_be k' (n / 65536) ++ [n mod 65536] end.

Definition AddrString (a : Addr) : chars :=
  let z := match Zone a with [] => [] | z => "%"%char :: z end in
  if negb (Is6 a) then string4 (bytes_be 4 (num a))
  else if Is4In6 a then chars_of "::ffff:" ++ string4 (bytes_be 4 (num a mod 2 ^ 32)) ++ z
  else string6 (words_be 8 (num a)) ++ z.

Definition PrefixString (p : Prefix) : string :=
  string_of (AddrString (PAddr p) ++ "/"%char :: appendDecimal (Bits p)).

(** ** [net.IP] *)

Abbreviation IP := (list Z).

Definition To4 (ip : IP) : option IP :=
  if (length ip =? 4)%nat then Some ip
  else if (length ip =? 16)%nat && bool_decide (take 12 ip = v4InV6Prefix) then Some (drop 12 ip)
  else None.

Definition byte (ip : IP) (i : nat) : Z := default 0 (ip !! i).

Definition IPEqual (a b : IP) : bool :=
  if (length a =? length b)%nat then bool_decide (a = b)
  else if (length a =? 4)%nat && (length b =? 16)%nat then bool_decide (b = v4InV6Prefix ++ a)
  else if (length a =? 16)%nat && (length b =? 4)%nat then bool_decide (a = v4InV6Prefix ++ b)
  else false.

Definition IPv4zero : IP := v4InV6Prefix ++ [0; 0; 0; 0].
Definition IPv6unspecified : IP := replicate 16 0.
Definition IPv6loopback : IP := replicate 15 0 ++ [1].

Definition IsUnspecified (ip : IP) : bool := IPEqual ip IPv4zero || IPEqual ip IPv6unspecified.

Definition IsLoopback (ip : IP) : bool :=
  match To4 ip with Some ip4 => byte ip4 0 =? 127 | None => IPEqual ip IPv6loopback end.

Definition IsPrivate (ip : IP) : bool :=
  match To4 ip with
  | Some ip4 =>
      (byte ip4 0 =? 10) || ((byte ip4 0 =? 172) && (Z.land (byte ip4 1) 0xf0 =? 16))
      || ((byte ip4 0 =? 192) && (byte ip4 1 =? 168))
  | None => (length ip =? 16)%nat && (Z.land (byte ip 0) 0xfe =? 0xfc)
  end.

Definition IsMulticast (ip : IP) : bool :=
  match To4 ip with
  | Some ip4 => Z.land (byte ip4 0) 0xf0 =? 0xe0
  | None => (length ip =? 16)%nat && (byte ip 0 =? 0xff)
  end.

Definition IsLinkLocalMulticast (ip : IP) : bool :=
  match To4 ip with
  | Some ip4 => (byte ip4 0 =? 224) && (byte ip4 1 =? 0) && (byte ip4 2 =? 0)
  | None => (length ip =? 16)%nat && (byte ip 0 =? 0xff) && (Z.land (byte ip 1) 0x0f =? 0x02)
  end.

Definition IsLinkLocalUnicast (ip : IP) : bool :=
  match To4 ip with
  | Some ip4 => (byte ip4 0 =? 169) && (byte ip4 1 =? 254)
  | None => (length ip =? 16)%nat && (byte ip 0 =? 0xfe) && (Z.land (byte ip 1) 0xc0 =? 0x80)
  end.

(** [IP.String] on slices of the two lengths *)
Definition IPString (ip : IP) : chars :=
  match To4 ip with
  | Some ip4 => string4 ip4
  | None => AddrString (mkAddr true (be ip) [])
  end.

(** ** Dial addresses *)

Definition JoinHostPort (host port : chars) : chars :=
  if has_char ":"%char host then "["%char :: host ++ "]"%char :: ":"%char :: port
  else host ++ ":"%char :: port.

(** The host is bracketed exactly when the first [']'] is followed by the last
    colon; no other bracket may occur. *)
Definition SplitHostPort (hostport : chars) : option (chars * chars) :=
  match cut_last ":"%char hostport with
  | None => None
  | Some (before, port) =>
      match hostport with
      | [] => None
      | c :: inner =>
          if Ascii.eqb c "["%char then
            match cut_first "]"%char inner with
            | Some (host, d :: port') =>
                if Ascii.eqb d ":"%char && bool_decide (before = "["%char :: host ++ ["]"%char])
                   && negb (has_char "["%char inner) && negb (has_char "]"%char port')
                then Some (host, port) else None
            | _ => None
            end
          else if has_char ":"%char before || has_char "["%char hostport || has_char "]"%char hostport then None
          else Some (before, port)
      end
  end.

Example parse_v4 : ParsePrefix "10.1.0.0/16" = Some (mkPrefix (mkAddr false (be [10; 1; 0; 0]) []) 16).
Proof. vm_compute. reflexivity. Qed.
Example parse_v6 : ParsePrefix "fd00:ec2::/32" = Some (mkPrefix (mkAddr true (0xfd000ec2 * 2 ^ 96) []) 32).
Proof. vm_compute. reflexivity. Qed.
Example print_v6 : option_map PrefixString (ParsePrefix "fc00:0:0:1:0:0:0:AB/64") = Some "fc00:0:0:1::ab/64".
Proof. vm_compute. reflexivity. Qed.
Example parse_bad : map ParsePrefix ["10.0.0.0"; "10.0.0/8"; "010.0.0.0/8"; "10.0.0.0/08"; "10.0.0.0/33"; "fe80::1%eth0/64"; "::1::/3"; "1:2:3:4:5:6:7:8:9/3"] = replicate 8 None.
Proof. vm_compute. reflexivity. Qed.
Example parse_ip : map (fun s => option_map IPString (ParseIP (chars_of s))) ["::ffff:127.0.0.1"; "::1"; "1.2.3.4"; "fe80::1%en0"]
  = [Some (chars_of "127.0.0.1"); Some (chars_of "::1"); Some (chars_of "1.2.3.4"); None].
Proof. vm_compute. reflexivity. Qed.
Example split_ports : map (fun s => SplitHostPort (chars_of s)) ["a:80"; "[::1]:443"; "::1:443"; "[::1]"; "a"; "[a]b:1"]
  = [Some (chars_of "a", chars_of "80"); Some (chars_of "::1", chars_of "443"); None; None; None; None].
Proof. vm_compute. reflexivity. Qed.

(** ** Bytes and numbers *)

Definition is_byte (b : Z) : Prop := 0 <= b < 256.

Lemma fold_be l n : fold_left (fun n b => n * 256 + b) l n = n * 256 ^ Z.of_nat (length l) + be l.
Proof.
  unfold be. revert n. induction l as [|b l IH]; intros n; cbn [fold_left length]; [cbn; lia|].
  rewrite IH, (IH (0 * 256 + b)), Nat2Z.inj_succ, Z.pow_succ_r by lia. ring.
Qed.

Lemma be_app a b : be (a ++ b) = be a * 256 ^ Z.of_nat (length b) + be b.
Proof. unfold be at 1. rewrite fold_left_app. by rewrite fold_be. Qed.

Lemma be_cons x l : be (x :: l) = x * 256 ^ Z.of_nat (length l) + be l.
Proof. change (x :: l) with ([x] ++ l). rewrite be_app. unfold be at 1. cbn [fold_left]. lia. Qed.

Lemma be_range l : Forall is_byte l -> 0 <= be l < 256 ^ Z.of_nat (length l).
Proof.
  induction 1 as [|b l Hb _ IH]; [cbn; lia|]. unfold is_byte in Hb.
  rewrite be_cons. cbn [length]. rewrite Nat2Z.inj_succ, Z.pow_succ_r by lia. nia.
Qed.

Lemma bytes_be_length k n : length (bytes_be k n) = k.
Proof. revert n. induction k as [|k IH]; intros n; [done|]. cbn. rewrite length_app, IH. cbn. lia. Qed.

Lemma bytes_be_bytes k n : Forall is_byte (bytes_be k n).
Proof.
  revert n. induction k as [|k IH]; intros n; [constructor|]. cbn. apply Forall_app. split; [done|].
  repeat constructor; apply Z.mod_pos_bound; lia.
Qed.

Lemma be_bytes_be k n : 0 <= n < 256 ^ Z.of_nat k -> be (bytes_be k n) = n.
Proof.
  revert n. induction k as [|k IH]; intros n; [cbn; lia|].
  rewrite Nat2Z.inj_succ, Z.pow_succ_r by lia. intros Hn. cbn [bytes_be].
  rewrite be_app, IH by (split; [apply Z.div_pos; lia | apply Z.div_lt_upper_bound; lia]).
  rewrite be_cons. cbn [length be fold_left]. change (256 ^ Z.of_nat 1) with 256.
  change (256 ^ Z.of_nat 0) with 1. pose proof (Z.div_mod n 256). lia.
Qed.

Lemma bytes_be_be l : Forall is_byte l -> bytes_be (length l) (be l) = l.
Proof.
  induction l as [|b l IH] using rev_ind; [done|]. intros [Hl Hb]%Forall_app.
  inversion Hb as [|? ? Hb' _]; subst. unfold is_byte in Hb'.
  rewrite length_app, Nat.add_comm, be_app. cbn [length Nat.add bytes_be].
  unfold be at 2 4. cbn [fold_left]. change (256 ^ Z.of_nat 1) with 256.
  replace ((be l * 256 + (0 * 256 + b)) / 256) with (be l) by div_lia.
  replace ((be l * 256 + (0 * 256 + b)) mod 256) with b by div_lia.
  by rewrite IH.
Qed.

(** ** Prefixes are intervals *)

Definition wf_addr (a : Addr) : Prop := 0 <= num a < 2 ^ BitLen a.
Definition wf_prefix (p : Prefix) : Prop := wf_addr (PAddr p) /\ 0 <= Bits p <= BitLen (PAddr p).

(** First address and number of addresses. *)
Definition first_num (p : Prefix) : Z := num (PAddr (Masked p)).
Definition size (p : Prefix) : Z := 2 ^ host_bits p.

Lemma shiftr_lxor_zero a b n : Z.shiftr (Z.lxor a b) n = 0 <-> Z.shiftr a n = Z.shiftr b n.
Proof. rewrite Z.shiftr_lxor. apply Z.lxor_eq_0_iff. Qed.

Lemma host_bits_nonneg p : wf_prefix p -> 0 <= host_bits p.
Proof. unfold wf_prefix, host_bits. lia. Qed.

Lemma first_num_eq p : wf_prefix p -> first_num p = num (PAddr p) / size p * size p.
Proof.
  intros H%host_bits_nonneg. unfold first_num, size, Masked. cbn [PAddr num].
  by rewrite Z.shiftl_mul_pow2, Z.shiftr_div_pow2 by done.
Qed.

Lemma size_pos p : wf_prefix p -> 0 < size p.
Proof. intros H%host_bits_nonneg. apply Z.pow_pos_nonneg; lia. Qed.

(** [Contains] is membership in the interval of the prefix. *)
Lemma contains_interval p a :
  wf_prefix p ->
  PrefixContains p a = true <->
  Zone a = [] /\ Is6 a = Is6 (PAddr p) /\ first_num p <= num a < first_num p + size p.
Proof.
  intros Hp. pose proof (size_pos p Hp) as Hs. pose proof (host_bits_nonneg p Hp) as Hh.
  unfold PrefixContains. rewrite !andb_true_iff, bool_decide_eq_true, Bool.eqb_true_iff, Z.eqb_eq.
  rewrite shiftr_lxor_zero, !Z.shiftr_div_pow2 by done. rewrite first_num_eq by done.
  fold (size p). set (q := num (PAddr p) / size p).
  assert (num a / size p = q <-> q * size p <= num a < q * size p + size p) as <-.
  { split.
    - intros <-. pose proof (Z.div_mod (num a) (size p)). pose proof (Z.mod_pos_bound (num a) (size p)). nia.
    - intros H. symmetry. apply (Z.div_unique _ _ _ (num a - q * size p)); nia. }
  intuition congruence.
Qed.

Lemma masked_addr_contained p : wf_prefix p -> PrefixContains p (PAddr (Masked p)) = true.
Proof. intros Hp. apply contains_interval; [done|]. pose proof (size_pos p Hp).
  change (num (PAddr (Masked p))) with (first_num p). split_and!; [done..|lia|lia].
Qed.

(** Two prefixes that share an address overlap. *)
Lemma shared_overlaps p o a :
  wf_prefix p -> wf_prefix o -> PrefixContains p a = true -> PrefixContains o a = true ->
  Overlaps p o = true.
Proof.
  unfold PrefixContains, Overlaps. intros Hp Ho.
  rewrite !andb_true_iff, !Bool.eqb_true_iff, !Z.eqb_eq, !shiftr_lxor_zero.
  intros [[_ F1] E1] [[_ F2] E2]. split; [congruence|].
  assert (BitLen (PAddr p) = BitLen (PAddr o)) as HB by (unfold BitLen; by rewrite F1, F2).
  unfold wf_prefix, host_bits in *.
  set (m := Z.min (Bits p) (Bits o)). rewrite HB in *. set (w := BitLen (PAddr o)) in *.
  assert (forall x y k, 0 <= k <= w - m -> Z.shiftr x k = Z.shiftr y k -> Z.shiftr x (w - m) = Z.shiftr y (w - m)) as Hmono.
  { intros x y k Hk E. replace (w - m) with (k + (w - m - k)) by lia.
    rewrite <- !Z.shiftr_shiftr by lia. by rewrite E. }
  rewrite <- (Hmono _ _ (w - Bits p) ltac:(lia) E1). by rewrite <- (Hmono _ _ (w - Bits o) ltac:(lia) E2).
Qed.

(** A prefix whose first address lies in [q] and that is at least as long lies in [q]. *)
Lemma subnet_contained p q a :
  wf_prefix p -> wf_prefix q -> Bits q <= Bits p ->
  PrefixContains q (PAddr (Masked p)) = true -> PrefixContains p a = true ->
  PrefixContains q a = true.
Proof.
  intros Hp Hq Hb Hm Ha. pose proof (masked_addr_contained p Hp) as Hpm. revert Hm Ha Hpm.
  unfold PrefixContains. rewrite !andb_true_iff, !Bool.eqb_true_iff, !Z.eqb_eq, !shiftr_lxor_zero.
  intros [[_ F1] E1] [[Hz F2] E2] [_ E3]. split; [split; [done|cbn in F1; congruence]|].
  rewrite <- E1. unfold wf_prefix, host_bits in *.
  assert (BitLen (PAddr p) = BitLen (PAddr q)) as HB by (unfold BitLen; by rewrite F1).
  set (w := BitLen (PAddr q)) in *. rewrite HB in *.
  replace (w - Bits q) with ((w - Bits p) + (Bits p - Bits q)) by lia.
  rewrite <- !Z.shiftr_shiftr by lia. by rewrite E2, E3.
Qed.

(** ** What is parsed is well formed *)

Lemma digit_range c d : digit c = Some d -> 0 <= d < 10.
Proof. unfold digit. case_match eqn:E; [|done]. intros [= <-]. apply andb_true_iff in E. lia. Qed.

Lemma hex_digit_range c d : hex_digit c = Some d -> 0 <= d < 16.
Proof.
  unfold hex_digit. intros H.
  repeat case_match; simplify_eq; repeat match goal with E : _ && _ = true |- _ => apply andb_true_iff in E end; lia.
Qed.

Lemma ipv4_loop_wf s prevdot val digLen fields f :
  (length fields <= 3)%nat -> Forall is_byte fields -> is_byte val ->
  ipv4_loop prevdot s val digLen fields = Some f -> length f = 4%nat /\ Forall is_byte f.
Proof.
  revert prevdot val digLen fields. induction s as [|c s IH]; intros prevdot val digLen fields Hl Hf Hv;
    cbn [ipv4_loop].
  - case_match eqn:E; [done|]. apply Nat.ltb_ge in E. intros [= <-]. rewrite length_app. cbn.
    split; [lia|]. apply Forall_app. auto.
  - destruct (digit c) as [d|] eqn:Ed.
    + apply digit_range in Ed. repeat case_match; try done. apply IH; [done..|].
      unfold is_byte in *. match goal with E : (255 <? _) = false |- _ => apply Z.ltb_ge in E end. lia.
    + repeat case_match; try done.
      match goal with E : (_ =? _)%nat = false |- _ => apply Nat.eqb_neq in E end.
      apply IH; [rewrite length_app; cbn; lia | apply Forall_app; auto | unfold is_byte; lia].
Qed.

Lemma parseIPv4Fields_wf s f : parseIPv4Fields s = Some f -> length f = 4%nat /\ Forall is_byte f.
Proof. apply ipv4_loop_wf; [cbn; lia | constructor | unfold is_byte; lia]. Qed.

Lemma hex_field_range s off acc k v rest :
  (off <= 4)%nat -> 0 <= acc < 16 ^ Z.of_nat off -> hex_field off acc s = Some (k, v, rest) -> 0 <= v < 65536.
Proof.
  revert off acc. induction s as [|c s IH]; intros off acc Ho Ha; cbn [hex_field].
  - intros [= <- <- <-]. assert (16 ^ Z.of_nat off <= 16 ^ 4) by (apply Z.pow_le_mono_r; lia). lia.
  - destruct (hex_digit c) as [d|] eqn:E.
    + apply hex_digit_range in E. case_match eqn:E3; [done|]. apply Nat.ltb_ge in E3. apply IH; [lia|].
      rewrite Nat2Z.inj_succ, Z.pow_succ_r by lia. lia.
    + intros [= <- <- <-]. assert (16 ^ Z.of_nat off <= 16 ^ 4) by (apply Z.pow_le_mono_r; lia). lia.
Qed.

Lemma word_bytes v : 0 <= v < 65536 -> Forall is_byte [v / 256; v mod 256].
Proof. intros H. repeat constructor; unfold is_byte; div_lia. Qed.

Definition loop_ok (r : chars * list Z * option nat) : Prop :=
  let '(_, bytes, ell) := r in
  Forall is_byte bytes /\ (length bytes <= 16)%nat /\ (default 0 ell <= length bytes)%nat.

Lemma ipv6_loop_wf n s bytes ell r :
  (length bytes + 2 * n = 16)%nat -> Forall is_byte bytes -> (default 0 ell <= length bytes)%nat ->
  ipv6_loop n s bytes ell = Some r -> loop_ok r.
Proof.
  revert s bytes ell. induction n as [|n IH]; intros s bytes ell Hl Hb He; cbn [ipv6_loop].
  - intros [= <-]. split_and!; [done|lia|lia].
  - destruct (hex_field 0 0 s) as [[[[|k] v] rest]|] eqn:E; [done| |done].
    apply hex_field_range in E; [|lia|cbn; lia]. pose proof (word_bytes v E) as Hw.
    assert (Forall is_byte (bytes ++ [v / 256; v mod 256])) as Hb' by (apply Forall_app; auto).
    assert (length (bytes ++ [v / 256; v mod 256]) = (length bytes + 2)%nat) as Hl' by (by rewrite length_app).
    destruct rest as [|c rest]; [intros [= <-]; split_and!; [done|lia|lia]|].
    destruct (Ascii.eqb c "."%char).
    + case_match; [done|]. case_match eqn:E16; [done|]. apply Nat.ltb_ge in E16.
      destruct (parseIPv4Fields s) as [f|] eqn:Ef; [|done]. apply parseIPv4Fields_wf in Ef as [Hf1 Hf2].
      intros [= <-]. unfold loop_ok. rewrite length_app. split_and!; [by apply Forall_app|lia|lia].
    + destruct (Ascii.eqb c ":"%char); [|done]. destruct rest as [|d rest]; [done|].
      destruct (Ascii.eqb d ":"%char); [|intros H; eapply IH; [..|exact H]; [lia|done|lia]].
      destruct ell; [done|]. destruct rest as [|e rest].
      * intros [= <-]. split_and!; [done|lia|cbn [default from_option id]; lia].
      * intros H. eapply IH; [..|exact H]; [lia|done|cbn; lia].
Qed.

Lemma ipv6_expand_wf r b : loop_ok r -> ipv6_expand r = Some b -> length b = 16%nat /\ Forall is_byte b.
Proof.
  destruct r as [[s bytes] ell]. intros (Hb & Hl & He). unfold ipv6_expand.
  case_match; [done|]. case_match eqn:El.
  - apply Nat.ltb_lt in El. destruct ell as [e|]; [|done]. intros [= <-]. cbn in He.
    rewrite !length_app, length_take, length_replicate, length_drop. split; [lia|].
    rewrite <- (take_drop e bytes) in Hb. apply Forall_app in Hb as [H1 H2].
    repeat (apply Forall_app; split); [done| |done]. apply Forall_replicate. unfold is_byte; lia.
  - apply Nat.ltb_ge in El. destruct ell; [done|]. intros [= <-]. split; [lia|done].
Qed.

Lemma ipv6_run_wf s ell b :
  (default 0 ell = 0)%nat ->
  match ipv6_loop 8 s [] ell with Some r => ipv6_expand r | None => None end = Some b ->
  length b = 16%nat /\ Forall is_byte b.
Proof.
  intros He. destruct (ipv6_loop 8 s [] ell) as [r|] eqn:E; [|done]. intros H.
  eapply ipv6_expand_wf; [|exact H]. eapply ipv6_loop_wf; [..|exact E]; [done|constructor|cbn [length]; lia].
Qed.

Lemma parseIPv6Bytes_wf s b : parseIPv6Bytes s = Some b -> length b = 16%nat /\ Forall is_byte b.
Proof.
  unfold parseIPv6Bytes. destruct s as [|x [|y s]].
  1,2: by apply ipv6_run_wf.
  case_match; [|by apply ipv6_run_wf]. destruct s as [|z s]; [|by apply ipv6_run_wf].
  intros [= <-]. split; [done|]. repeat constructor; unfold is_byte; lia.
Qed.

Lemma ParseAddr_wf s a : ParseAddr s = Some a -> wf_addr a.
Proof.
  unfold ParseAddr, parseIPv4, parseIPv6, wf_addr. intros H. repeat case_match; simplify_eq; cbn [num BitLen Is6].
  - match goal with E : parseIPv6Bytes _ = Some _ |- _ => apply parseIPv6Bytes_wf in E as [Hl Hb] end.
    apply be_range in Hb. by rewrite Hl in Hb.
  - match goal with E : parseIPv6Bytes _ = Some _ |- _ => apply parseIPv6Bytes_wf in E as [Hl Hb] end.
    apply be_range in Hb. by rewrite Hl in Hb.
  - match goal with E : parseIPv4Fields _ = Some _ |- _ => apply parseIPv4Fields_wf in E as [Hl Hb] end.
    apply be_range in Hb. by rewrite Hl in Hb.
Qed.

Lemma parse_bits_nonneg s n : parse_bits s = Some n -> 0 <= n.
Proof.
  unfold parse_bits. set (go := fix go (s : chars) (n : Z) : option Z := _).
  assert (forall s n v, 0 <= n -> go s n = Some v -> 0 <= v) as Hgo.
  { intros t. induction t as [|c t IH]; intros m v Hm; cbn; [by intros [= <-]|].
    destruct (digit c) as [d|] eqn:E; [|done]. apply digit_range in E. apply IH. lia. }
  destruct s as [|c [|c' s]]; [done|intros H%digit_range; lia|].
  destruct (digit c) as [[]|]; try done; intros H; by apply Hgo in H.
Qed.

Lemma ParsePrefix_wf s p : ParsePrefix s = Some p -> wf_prefix p /\ Zone (PAddr p) = [].
Proof.
  unfold ParsePrefix. intros H. repeat case_match; simplify_eq.
  match goal with E : ParseAddr _ = Some _ |- _ => apply ParseAddr_wf in E end.
  match goal with E : parse_bits _ = Some _ |- _ => apply parse_bits_nonneg in E end.
  match goal with E : _ && _ = true |- _ => apply andb_true_iff in E as [Ez Eb] end.
  apply bool_decide_eq_true in Ez. apply Z.leb_le in Eb. split; [|done]. unfold wf_prefix. cbn. auto.
Qed.

(** ** Printing and parsing again *)

Lemma digit_hex_char d : 0 <= d < 10 -> digit (hex_char d) = Some d.
Proof.
  intros H. assert (d = 0 \/ d = 1 \/ d = 2 \/ d = 3 \/ d = 4 \/ d = 5 \/ d = 6 \/ d = 7 \/ d = 8 \/ d = 9) as Hd by lia.
  repeat destruct Hd as [->|Hd]; try (subst d); reflexivity.
Qed.

Lemma hex_digit_hex_char d : 0 <= d < 16 -> hex_digit (hex_char d) = Some d.
Proof.
  intros H. destruct (decide (d < 10)) as [Hd|Hd].
  - assert (digit (hex_char d) = Some d) as E by (apply digit_hex_char; lia).
    unfold digit, hex_digit in *. by case_match.
  - assert (d = 10 \/ d = 11 \/ d = 12 \/ d = 13 \/ d = 14 \/ d = 15) as Hd' by lia.
    repeat destruct Hd' as [->|Hd']; try (subst d); reflexivity.
Qed.

(** A text that is empty or starts with the character [c]. *)
Definition ends_or (c : ascii) (s : chars) : Prop := s = [] \/ exists s', s = c :: s'.

Lemma ipv4_loop_step d s prev val digLen fields :
  0 <= d < 10 -> 0 <= val -> (digLen = 0%nat \/ 0 < val) -> val * 10 + d < 256 ->
  ipv4_loop prev (hex_char d :: s) val digLen fields = ipv4_loop false s (val * 10 + d) (S digLen) fields.
Proof.
  intros Hd Hv Hz Hb. cbn [ipv4_loop]. rewrite digit_hex_char by done.
  replace ((digLen =? 1)%nat && (val =? 0)) with false; [by replace (255 <? val * 10 + d) with false by lia|].
  symmetry. apply andb_false_iff. destruct Hz as [->|Hz]; [by left|]. right. lia.
Qed.

Lemma ipv4_loop_number x s prev fields :
  is_byte x ->
  exists k, ipv4_loop prev (appendDecimal x ++ s) 0 0 fields = ipv4_loop false s x (S k) fields.
Proof.
  unfold is_byte, appendDecimal. intros Hx.
  destruct (100 <=? x) eqn:E1; [|destruct (10 <=? x) eqn:E2].
  - replace (10 <=? x) with true by lia. cbn [app]. exists 2%nat.
    rewrite ipv4_loop_step by (first [left; done | div_lia]).
    rewrite ipv4_loop_step by (first [right; div_lia | div_lia]).
    rewrite ipv4_loop_step by (first [right; div_lia | div_lia]). f_equal. div_lia.
  - cbn [app]. exists 1%nat. replace (x / 10 mod 10) with (x / 10) by div_lia.
    rewrite ipv4_loop_step by (first [left; done | div_lia]).
    rewrite ipv4_loop_step by (first [right; div_lia | div_lia]). f_equal. div_lia.
  - cbn [app]. exists 0%nat.
    rewrite ipv4_loop_step by (first [left; done | div_lia]). f_equal. div_lia.
Qed.

Lemma appendDecimal_cons x : exists c s, appendDecimal x = c :: s.
Proof. unfold appendDecimal. repeat case_match; cbn; eauto. Qed.

Lemma ipv4_loop_fields bytes fields prev :
  Forall is_byte bytes -> bytes <> [] -> (length fields + length bytes = 4)%nat ->
  ipv4_loop prev (string4 bytes) 0 0 fields = Some (fields ++ bytes).
Proof.
  unfold string4. revert fields prev. induction bytes as [|x bytes IH]; intros fields prev Hb Hne Hl; [done|].
  inversion Hb as [|? ? Hx Hb']; subst. destruct bytes as [|y bytes].
  - cbn [map join]. rewrite <- (app_nil_r (appendDecimal x)).
    destruct (ipv4_loop_number x [] prev fields Hx) as [k ->]. cbn [ipv4_loop]. cbn in Hl.
    by replace (length fields <? 3)%nat with false by (symmetry; apply Nat.ltb_ge; lia).
  - change (join _ (map appendDecimal (x :: y :: bytes)))
      with (appendDecimal x ++ "."%char :: join ["."%char] (map appendDecimal (y :: bytes))).
    destruct (ipv4_loop_number x ("."%char :: join ["."%char] (map appendDecimal (y :: bytes))) prev fields Hx) as [k ->].
    cbn [ipv4_loop]. replace (digit "."%char) with (@None Z) by done. rewrite Ascii.eqb_refl.
    assert (join ["."%char] (map appendDecimal (y :: bytes)) <> []) as Hj.
    { destruct (appendDecimal_cons y) as (c & s & E). cbn [map join]. destruct (map appendDecimal bytes); by rewrite E. }
    rewrite bool_decide_eq_false_2 by done. cbn [orb]. cbn [length] in Hl.
    replace (length fields =? 3)%nat with false by (symmetry; apply Nat.eqb_neq; lia).
    rewrite IH; [by rewrite <- app_assoc|done|done|]. rewrite length_app. cbn [length]. lia.
Qed.

Lemma parse_string4 bytes :
  Forall is_byte bytes -> length bytes = 4%nat -> parseIPv4Fields (string4 bytes) = Some bytes.
Proof. intros Hb Hl. unfold parseIPv4Fields. rewrite ipv4_loop_fields; [done|done|by destruct bytes|done]. Qed.

Definition is_word (w : Z) : Prop := 0 <= w < 65536.

Lemma hex_field_step d s off acc :
  0 <= d < 16 -> (off <= 3)%nat -> hex_field off acc (hex_char d :: s) = hex_field (S off) (acc * 16 + d) s.
Proof.
  intros Hd Ho. cbn [hex_field]. rewrite hex_digit_hex_char by done.
  by replace (3 <? off)%nat with false by (symmetry; apply Nat.ltb_ge; lia).
Qed.

Lemma hex_field_word w s :
  is_word w -> ends_or ":"%char s -> exists k, hex_field 0 0 (appendHex w ++ s) = Some (S k, w, s).
Proof.
  unfold is_word, appendHex. intros Hw Hs.
  assert (forall k v, hex_field k v s = Some (k, v, s)) as Hend.
  { intros k v. by destruct Hs as [->|[s' ->]]. }
  destruct (0x1000 <=? w) eqn:E1; [|destruct (0x100 <=? w) eqn:E2; [|destruct (0x10 <=? w) eqn:E3]].
  - replace (0x100 <=? w) with true by lia. replace (0x10 <=? w) with true by lia. cbn [app]. exists 3%nat.
    rewrite !hex_field_step by (first [lia | div_lia]). rewrite Hend. do 3 f_equal. div_lia.
  - replace (0x10 <=? w) with true by lia. cbn [app]. exists 2%nat.
    rewrite !hex_field_step by (first [lia | div_lia]). rewrite Hend. do 3 f_equal. div_lia.
  - cbn [app]. exists 1%nat.
    rewrite !hex_field_step by (first [lia | div_lia]). rewrite Hend. do 3 f_equal. div_lia.
  - cbn [app]. exists 0%nat.
    rewrite !hex_field_step by (first [lia | div_lia]). rewrite Hend. do 3 f_equal. div_lia.
Qed.

(** The characters of printed addresses. *)
Definition addr_char (c : ascii) : Prop := is_Some (hex_digit c) \/ c = ":"%char \/ c = "."%char.

Lemma addr_char_not c d : addr_char c -> d ∈ ["%"%char; "/"%char; "["%char; "]"%char] -> Ascii.eqb d c = false.
Proof.
  intros Hc Hd. apply Ascii.eqb_neq. intros ->. rewrite !elem_of_cons in Hd.
  destruct Hd as [->|[->|[->|[->|?%not_elem_of_nil]]]]; [..|done];
    by destruct Hc as [[v E]|[E|E]].
Qed.

Lemma addr_chars_lack s d :
  Forall addr_char s -> d ∈ ["%"%char; "/"%char; "["%char; "]"%char] -> has_char d s = false.
Proof. intros Hs Hd. induction Hs as [|c s Hc _ IH]; [done|]. cbn. by rewrite (addr_char_not c d). Qed.

Lemma hex_char_addr d : 0 <= d < 16 -> addr_char (hex_char d).
Proof. intros H. left. rewrite hex_digit_hex_char by done. eauto. Qed.

Lemma appendDecimal_chars x : is_byte x -> Forall addr_char (appendDecimal x).
Proof.
  unfold is_byte, appendDecimal. intros Hx.
  rewrite !Forall_app. split_and!; repeat case_match; rewrite ?Forall_cons, ?Forall_nil; split_and?; try done;
    apply hex_char_addr; div_lia.
Qed.

Lemma appendHex_digits w : is_word w -> Forall (fun c => is_Some (hex_digit c)) (appendHex w).
Proof.
  unfold is_word, appendHex. intros Hx.
  rewrite !Forall_app. split_and!; repeat case_match; rewrite ?Forall_cons, ?Forall_nil; split_and?; try done;
    rewrite hex_digit_hex_char by div_lia; eauto.
Qed.

Lemma appendHex_cons w : is_word w -> exists c s, appendHex w = c :: s /\ is_Some (hex_digit c).
Proof.
  intros Hw. pose proof (appendHex_digits w Hw) as H. destruct (appendHex w) as [|c s] eqn:E.
  - unfold appendHex in E. apply app_nil in E as [_ E]. apply app_nil in E as [_ E]. by apply app_nil in E as [_ E].
  - inversion H; subst. eauto.
Qed.

Lemma join_chars (sep : ascii) l :
  addr_char sep -> Forall (Forall addr_char) l -> Forall addr_char (join [sep] l).
Proof.
  intros Hs. induction l as [|x l IH]; intros H; [constructor|]. inversion H; subst. cbn.
  destruct l; [done|]. apply Forall_app. split; [done|]. constructor; auto.
Qed.

Lemma string4_chars b : Forall is_byte b -> Forall addr_char (string4 b).
Proof.
  intros H. apply join_chars; [right; by right|]. apply Forall_map. eapply Forall_impl; [exact H|].
  apply appendDecimal_chars.
Qed.

Lemma join_hex_chars ws : Forall is_word ws -> Forall addr_char (join [":"%char] (map appendHex ws)).
Proof.
  intros H. apply join_chars; [right; by left|]. apply Forall_map. eapply Forall_impl; [exact H|].
  intros w Hw. eapply Forall_impl; [by apply appendHex_digits|]. intros c Hc. by left.
Qed.

Lemma string6_chars ws : Forall is_word ws -> Forall addr_char (string6 ws).
Proof.
  intros H. unfold string6. destruct (longest_run 0 ws None) as [[a b]|]; [|by apply join_hex_chars].
  repeat (apply Forall_app; split); [apply join_hex_chars; by apply Forall_take| |apply join_hex_chars; by apply Forall_drop].
  repeat constructor; right; by left.
Qed.

(** *** Fields of an IPv6 address *)

Definition word_list (ws : list Z) : list Z := concat (map (fun w => [w / 256; w mod 256]) ws).

Lemma word_list_app a b : word_list (a ++ b) = word_list a ++ word_list b.
Proof. unfold word_list. by rewrite map_app, concat_app. Qed.

Lemma word_list_length ws : length (word_list ws) = (2 * length ws)%nat.
Proof. induction ws as [|w ws IH]; [done|]. change (word_list (w :: ws)) with (w / 256 :: w mod 256 :: word_list ws). cbn [length]. lia. Qed.

Lemma word_list_zeros k : word_list (replicate k 0) = replicate (2 * k) 0.
Proof.
  induction k as [|k IH]; [done|]. replace (2 * S k)%nat with (S (S (2 * k))) by lia.
  change (word_list (replicate (S k) 0)) with (0 :: 0 :: word_list (replicate k 0)). by rewrite IH.
Qed.

Lemma word_list_words k n : word_list (words_be k n) = bytes_be (2 * k) n.
Proof.
  revert n. induction k as [|k IH]; intros n; [done|]. replace (2 * S k)%nat with (S (S (2 * k))) by lia.
  cbn [words_be bytes_be]. rewrite word_list_app, IH, <- app_assoc. f_equal; [f_equal; div_lia|].
  unfold word_list. cbn. f_equal; [div_lia|]. f_equal. div_lia.
Qed.

Lemma words_be_words k n : Forall is_word (words_be k n).
Proof.
  revert n. induction k as [|k IH]; intros n; [constructor|]. cbn. apply Forall_app. split; [done|].
  repeat constructor; apply Z.mod_pos_bound; lia.
Qed.

Lemma words_be_length k n : length (words_be k n) = k.
Proof. revert n. induction k as [|k IH]; intros n; [done|]. cbn. rewrite length_app, IH. cbn. lia. Qed.

(** A joined list of fields starts with a hexadecimal digit. *)
Lemma join_hex_head w ws :
  is_word w -> exists c s, join [":"%char] (map appendHex (w :: ws)) = c :: s /\ is_Some (hex_digit c).
Proof.
  intros Hw. destruct (appendHex_cons w Hw) as (c & s & E & Hc). cbn [map join].
  destruct (map appendHex ws); rewrite E; cbn; eauto.
Qed.

Lemma hex_not_colon c : is_Some (hex_digit c) -> Ascii.eqb c ":"%char = false.
Proof. intros [v E]. apply Ascii.eqb_neq. by intros ->. Qed.

(** Fields up to the end of the text. *)
Lemma ipv6_loop_tail ws n bytes ell :
  Forall is_word ws -> ws <> [] -> (length ws <= n)%nat ->
  ipv6_loop n (join [":"%char] (map appendHex ws)) bytes ell = Some ([], bytes ++ word_list ws, ell).
Proof.
  revert n bytes. induction ws as [|w ws IH]; intros n bytes Hw Hne Hl; [done|].
  inversion Hw as [|? ? Hw1 Hws]; subst. cbn [length] in Hl. destruct n as [|n]; [lia|]. destruct ws as [|w2 ws].
  - cbn [map join]. rewrite <- (app_nil_r (appendHex w)).
    destruct (hex_field_word w [] Hw1 (or_introl eq_refl)) as [k E]. cbn [ipv6_loop]. by rewrite E.
  - destruct (hex_field_word w (":"%char :: join [":"%char] (map appendHex (w2 :: ws))) Hw1
      (or_intror (ex_intro _ _ eq_refl))) as [k E].
    change (join [":"%char] (map appendHex (w :: w2 :: ws)))
      with (appendHex w ++ ":"%char :: join [":"%char] (map appendHex (w2 :: ws))).
    inversion Hws as [|? ? Hw2 _]; subst. destruct (join_hex_head w2 ws Hw2) as (c & s & Ej & Hc).
    cbn [ipv6_loop]. rewrite E. cbn [Ascii.eqb Bool.eqb]. rewrite Ej, (hex_not_colon c Hc), <- Ej.
    rewrite IH; [|done|done|lia]. by rewrite <- app_assoc.
Qed.

(** Fields up to the ellipsis. *)
Lemma ipv6_loop_ellipsis ws rest n bytes :
  Forall is_word ws -> ws <> [] -> (length ws <= n)%nat ->
  ipv6_loop n (join [":"%char] (map appendHex ws) ++ ":"%char :: ":"%char :: rest) bytes None
  = match rest with
    | [] => Some ([], bytes ++ word_list ws, Some (length (bytes ++ word_list ws)))
    | _ => ipv6_loop (n - length ws) rest (bytes ++ word_list ws) (Some (length (bytes ++ word_list ws)))
    end.
Proof.
  revert n bytes. induction ws as [|w ws IH]; intros n bytes Hw Hne Hl; [done|].
  inversion Hw as [|? ? Hw1 Hws]; subst. cbn [length] in Hl. destruct n as [|n]; [lia|]. destruct ws as [|w2 ws].
  - cbn [map join length]. replace (S n - 1)%nat with n by lia.
    destruct (hex_field_word w (":"%char :: ":"%char :: rest) Hw1 (or_intror (ex_intro _ _ eq_refl))) as [k E].
    cbn [ipv6_loop]. rewrite E. cbn [Ascii.eqb Bool.eqb]. by destruct rest.
  - change (join [":"%char] (map appendHex (w :: w2 :: ws)))
      with (appendHex w ++ ":"%char :: join [":"%char] (map appendHex (w2 :: ws))).
    rewrite <- app_assoc. cbn [app].
    destruct (hex_field_word w (":"%char :: join [":"%char] (map appendHex (w2 :: ws)) ++ ":"%char :: ":"%char :: rest) Hw1
      (or_intror (ex_intro _ _ eq_refl))) as [k E].
    inversion Hws as [|? ? Hw2 _]; subst. destruct (join_hex_head w2 ws Hw2) as (c & s & Ej & Hc).
    cbn [ipv6_loop]. rewrite E. cbn [Ascii.eqb Bool.eqb]. rewrite Ej. cbn [app]. rewrite (hex_not_colon c Hc).
    change (c :: s ++ ":"%char :: ":"%char :: rest) with ((c :: s) ++ ":"%char :: ":"%char :: rest). rewrite <- Ej.
    rewrite IH; [|done|done|lia]. rewrite <- !app_assoc. done.
Qed.

Lemma zero_run_spec ws :
  (zero_run ws <= length ws)%nat /\ take (zero_run ws) ws = replicate (zero_run ws) 0.
Proof.
  induction ws as [|w ws [IH1 IH2]]; [done|]. cbn [zero_run]. destruct (w =? 0) eqn:E; [|cbn; split; [lia|done]].
  apply Z.eqb_eq in E as ->. cbn [length take replicate]. split; [lia|]. by rewrite IH2.
Qed.

(** A run of zero fields between two positions of a field list. *)
Definition zero_between (ws : list Z) (a b : nat) : Prop :=
  (a + 2 <= b <= length ws)%nat /\ ws = take a ws ++ replicate (b - a) 0 ++ drop b ws.

Lemma longest_run_spec pre ws best a b :
  longest_run (length pre) ws best = Some (a, b) -> best = Some (a, b) \/ zero_between (pre ++ ws) a b.
Proof.
  revert pre best. induction ws as [|w ws IH]; intros pre best; cbn [longest_run]; [by left|].
  set (l := zero_run (w :: ws)). set (best' := if _ && _ then _ else best). intros H.
  replace (S (length pre)) with (length (pre ++ [w])) in H by (rewrite length_app; cbn; lia).
  apply IH in H as [H|H]; [|right; by rewrite <- app_assoc in H].
  subst best'. destruct ((2 <=? l)%nat && _) eqn:E; [|by left]. injection H as <- <-.
  apply andb_true_iff in E as [E%Nat.leb_le _]. destruct (zero_run_spec (w :: ws)) as [H1 H2]. fold l in H1, H2.
  right. unfold zero_between. rewrite length_app. split; [lia|].
  rewrite take_app_length. replace (length pre + l - length pre)%nat with l by lia.
  rewrite drop_app_add, <- H2. by rewrite take_drop.
Qed.

Lemma parse6_plain s c s' :
  s = c :: s' -> is_Some (hex_digit c) ->
  parseIPv6Bytes s = match ipv6_loop 8 s [] None with Some r => ipv6_expand r | None => None end.
Proof.
  intros -> Hc. unfold parseIPv6Bytes. destruct s' as [|d s']; [done|].
  by rewrite (hex_not_colon c Hc).
Qed.

Lemma parse_string6 ws :
  Forall is_word ws -> length ws = 8%nat -> parseIPv6Bytes (string6 ws) = Some (word_list ws).
Proof.
  intros Hw Hl. unfold string6. destruct (longest_run 0 ws None) as [[a b]|] eqn:E.
  - apply (longest_run_spec []) in E as [?|[Hab Hz]]; [done|]. cbn [app] in Hab, Hz.
    set (pre := take a ws) in *. set (post := drop b ws) in *.
    assert (length pre = a) as Ha by (subst pre; rewrite length_take; lia).
    assert (length post = 8 - b)%nat as Hb by (subst post; rewrite length_drop; lia).
    assert (Forall is_word pre) as Hpre by (by apply Forall_take).
    assert (Forall is_word post) as Hpost by (by apply Forall_drop).
    clearbody pre post.
    assert (word_list ws = word_list pre ++ replicate (16 - length (word_list pre ++ word_list post)) 0 ++ word_list post) as Hws.
    { rewrite Hz at 1. rewrite !word_list_app, word_list_zeros, length_app, !word_list_length.
      do 3 f_equal. lia. }
    assert (ipv6_expand ([], word_list pre ++ word_list post, Some (length (word_list pre))) = Some (word_list ws)) as Hexp.
    { unfold ipv6_expand. rewrite bool_decide_eq_false_2 by naive_solver.
      replace (length (word_list pre ++ word_list post) <? 16)%nat with true
        by (symmetry; apply Nat.ltb_lt; rewrite length_app, !word_list_length; lia).
      by rewrite take_app_length, drop_app_length, <- Hws. }
    destruct pre as [|w pre].
    + cbn [map join app]. destruct post as [|p post].
      * cbn in Hws. cbn [map join]. unfold parseIPv6Bytes. cbn [Ascii.eqb Bool.eqb andb]. by rewrite Hws.
      * unfold parseIPv6Bytes. cbn [Ascii.eqb Bool.eqb andb].
        inversion Hpost as [|? ? Hp _]; subst. destruct (join_hex_head p post Hp) as (c & s & Ej & _).
        rewrite Ej, <- Ej, ipv6_loop_tail; [exact Hexp|done|done|lia].
    + inversion Hpre as [|? ? Hp _]; subst. destruct (join_hex_head w pre Hp) as (c & s & Ej & Hc).
      rewrite (parse6_plain _ c (s ++ ":"%char :: ":"%char :: join [":"%char] (map appendHex post))); [|by rewrite Ej|done].
      cbn [app]. rewrite ipv6_loop_ellipsis; [|done|done|lia]. destruct post as [|p post].
      * change (word_list []) with (@nil Z) in Hexp. rewrite app_nil_r in Hexp. exact Hexp.
      * inversion Hpost as [|? ? Hp' _]; subst. destruct (join_hex_head p post Hp') as (d & t & Ej' & _).
        rewrite Ej', <- Ej', ipv6_loop_tail; [exact Hexp|done|done|lia].
  - destruct ws as [|w ws]; [done|]. inversion Hw as [|? ? Hw1 _]; subst.
    destruct (join_hex_head w ws Hw1) as (c & s & Ej & Hc).
    rewrite (parse6_plain _ c s Ej Hc), ipv6_loop_tail; [|done|done|lia].
    unfold ipv6_expand. rewrite bool_decide_eq_false_2 by naive_solver.
    by replace (length ([] ++ word_list (w :: ws)) <? 16)%nat with false
      by (symmetry; apply Nat.ltb_ge; cbn [app]; rewrite word_list_length; lia).
Qed.

(** *** Whole addresses and prefixes *)

Lemma addr_form_skip p c s :
  Forall (fun c => is_Some (hex_digit c)) p -> addr_form (p ++ c :: s) = addr_form (c :: s).
Proof.
  induction 1 as [|d p [v Hd] _ IH]; [done|]. rewrite <- IH. cbn [app addr_form].
  repeat (case_match eqn:E; [apply Ascii.eqb_eq in E; by subst|clear E]). done.
Qed.

Lemma appendDecimal_digits x : is_byte x -> Forall (fun c => is_Some (hex_digit c)) (appendDecimal x).
Proof.
  unfold is_byte, appendDecimal. intros Hx.
  rewrite !Forall_app. split_and!; repeat case_match; rewrite ?Forall_cons, ?Forall_nil; split_and?; try done;
    rewrite hex_digit_hex_char by div_lia; eauto.
Qed.

Lemma addr_form_string4 b : Forall is_byte b -> length b = 4%nat -> addr_form (string4 b) = Some false.
Proof.
  intros Hb Hl. destruct b as [|x [|y b]]; [done|done|]. inversion Hb; subst.
  change (string4 (x :: y :: b)) with (appendDecimal x ++ "."%char :: string4 (y :: b)).
  by rewrite addr_form_skip by (by apply appendDecimal_digits).
Qed.

Lemma addr_form_join w ws s :
  is_word w -> ws <> [] \/ (exists t, s = ":"%char :: t) ->
  addr_form (join [":"%char] (map appendHex (w :: ws)) ++ s) = Some true.
Proof.
  intros Hw H. destruct ws as [|w2 ws].
  - destruct H as [?|[t ->]]; [done|]. cbn [map join]. by rewrite addr_form_skip by (by apply appendHex_digits).
  - change (join [":"%char] (map appendHex (w :: w2 :: ws)))
      with (appendHex w ++ ":"%char :: join [":"%char] (map appendHex (w2 :: ws))).
    rewrite <- app_assoc. cbn [app]. by rewrite addr_form_skip by (by apply appendHex_digits).
Qed.

Lemma addr_form_string6 ws : Forall is_word ws -> length ws = 8%nat -> addr_form (string6 ws) = Some true.
Proof.
  intros Hw Hl. unfold string6. destruct (longest_run 0 ws None) as [[a b]|].
  - destruct (take a ws) as [|w pre] eqn:E; [done|].
    assert (Forall is_word (w :: pre)) as H by (rewrite <- E; by apply Forall_take). inversion H; subst.
    apply addr_form_join; [done|]. right. eexists. reflexivity.
  - destruct ws as [|w ws]; [done|]. inversion Hw; subst. rewrite <- (app_nil_r (join _ _)).
    apply addr_form_join; [done|]. left. by destruct ws.
Qed.

Lemma cut_first_none c s : has_char c s = false -> cut_first c s = None.
Proof. induction s as [|d s IH]; [done|]. cbn. rewrite orb_false_iff. intros [-> H]. by rewrite IH. Qed.

Lemma ParseAddr_string6 ws :
  Forall is_word ws -> length ws = 8%nat -> ParseAddr (string6 ws) = Some (mkAddr true (be (word_list ws)) []).
Proof.
  intros Hw Hl. unfold ParseAddr, parseIPv6. rewrite addr_form_string6 by done.
  rewrite cut_first_none by (apply addr_chars_lack; [by apply string6_chars|set_solver]).
  cbn match. by rewrite parse_string6.
Qed.

(** The text of an IPv4-mapped address. *)
Lemma parse_mapped b :
  Forall is_byte b -> length b = 4%nat ->
  ParseAddr (chars_of "::ffff:" ++ string4 b) = Some (mkAddr true (be (v4InV6Prefix ++ b)) []).
Proof.
  intros Hb Hl. unfold ParseAddr, parseIPv6.
  replace (addr_form (chars_of "::ffff:" ++ string4 b)) with (Some true) by done.
  rewrite cut_first_none.
  2:{ apply addr_chars_lack; [|set_solver]. apply Forall_app. split; [|by apply string4_chars].
      cbn [chars_of]. rewrite !Forall_cons, Forall_nil. split_and!; try done; first [right; by left | left; by eexists]. }
  cbn match. destruct b as [|x [|y b]]; [done|done|]. inversion Hb as [|? ? Hx _]; subst.
  assert (exists c s, string4 (x :: y :: b) = c :: s /\ is_Some (hex_digit c)) as (c & s & Es & Hc).
  { change (string4 (x :: y :: b)) with (appendDecimal x ++ "."%char :: string4 (y :: b)).
    pose proof (appendDecimal_digits x Hx) as Hd. destruct (appendDecimal_cons x) as (c & s & E). rewrite E in *.
    inversion Hd; subst. cbn. eauto. }
  assert (exists k v s', hex_field 0 0 (string4 (x :: y :: b)) = Some (S k, v, "."%char :: s')) as (k & v & s' & Eh).
  { change (string4 (x :: y :: b)) with (appendDecimal x ++ "."%char :: string4 (y :: b)).
    unfold appendDecimal, is_byte in *. repeat case_match; cbn [app];
      rewrite !hex_field_step by (first [lia | div_lia]); cbn [hex_field]; replace (hex_digit "."%char) with (@None Z) by done; eauto. }
  assert (ipv6_loop 8 (chars_of "ffff:" ++ string4 (x :: y :: b)) [] (Some 0%nat)
          = ipv6_loop 7 (string4 (x :: y :: b)) [255; 255] (Some 0%nat)) as E1.
  { cbn [ipv6_loop chars_of app]. rewrite Es. cbn [hex_field].
    change (hex_digit "f") with (Some 15). change (hex_digit ":") with (@None Z). cbn [Nat.ltb Nat.leb Ascii.eqb Bool.eqb].
    rewrite (hex_not_colon c Hc). done. }
  change (parseIPv6Bytes (chars_of "::ffff:" ++ string4 (x :: y :: b)))
    with (match ipv6_loop 8 (chars_of "ffff:" ++ string4 (x :: y :: b)) [] (Some 0%nat) with Some r => ipv6_expand r | None => None end).
  rewrite E1. cbn [ipv6_loop]. rewrite Eh. cbn [Ascii.eqb Bool.eqb]. rewrite bool_decide_eq_false_2 by done.
  cbn [andb]. rewrite parse_string4 by done. cbn in Hl. assert (length b = 2%nat) as Hl' by lia.
  destruct b as [|z [|u [|]]]; try done.
Qed.

Lemma mapped_num a :
  Is6 a = true -> Is4In6 a = true -> wf_addr a ->
  be (v4InV6Prefix ++ bytes_be 4 (num a mod 2 ^ 32)) = num a.
Proof.
  unfold Is4In6, wf_addr. intros -> H _. cbn [andb] in H. apply Z.eqb_eq in H.
  rewrite Z.shiftr_div_pow2 in H by lia.
  rewrite be_app, bytes_be_length, be_bytes_be by (apply Z.mod_pos_bound; lia).
  replace (be v4InV6Prefix) with 0xffff by (vm_compute; done).
  change (256 ^ Z.of_nat 4) with (2 ^ 32). pose proof (Z.div_mod (num a) (2 ^ 32)). lia.
Qed.

Lemma addr_roundtrip a : wf_addr a -> Zone a = [] -> ParseAddr (AddrString a) = Some a.
Proof.
  destruct a as [is6 n z]. intros Hwf Hz. cbn in Hz. subst z. unfold AddrString. cbn [Is6 Zone num].
  destruct is6; cbn [negb].
  - rewrite !app_nil_r. destruct (Is4In6 _) eqn:E.
    + rewrite parse_mapped by (first [apply bytes_be_bytes | apply bytes_be_length]).
      pose proof (mapped_num (mkAddr true n []) eq_refl E Hwf) as Hm. cbn [num] in Hm. by rewrite Hm.
    + rewrite ParseAddr_string6 by (first [apply words_be_words | apply words_be_length]).
      rewrite word_list_words, be_bytes_be; [done|exact Hwf].
  - unfold ParseAddr, parseIPv4. rewrite addr_form_string4, parse_string4
      by (first [apply bytes_be_bytes | apply bytes_be_length]).
    rewrite be_bytes_be; [done|exact Hwf].
Qed.

Lemma cut_last_app c a b : has_char c b = false -> cut_last c (a ++ c :: b) = Some (a, b).
Proof.
  intros Hb. assert (cut_last c b = None) as Hn.
  { revert Hb. induction b as [|d b IH]; [done|]. cbn. rewrite orb_false_iff. intros [-> H]. by rewrite IH. }
  induction a as [|d a IH]; cbn [app cut_last]; [by rewrite Hn, Ascii.eqb_refl|]. by rewrite IH.
Qed.

Lemma cut_last_spec c s a b : cut_last c s = Some (a, b) -> s = a ++ c :: b /\ has_char c b = false.
Proof.
  revert a b. induction s as [|d s IH]; intros a b; [done|]. cbn [cut_last].
  destruct (cut_last c s) as [[a' b']|] eqn:E.
  - intros [= <- <-]. destruct (IH a' b' eq_refl) as [-> ?]. done.
  - destruct (Ascii.eqb c d) eqn:Ec; [|done]. intros [= <- <-]. apply Ascii.eqb_eq in Ec as ->. split; [done|].
    clear IH. induction s as [|e s IH]; [done|]. cbn in E |- *. destruct (cut_last d s) as [[]|]; [done|].
    destruct (Ascii.eqb d e); [done|]. by apply IH.
Qed.

Lemma parse_bits_decimal x : is_byte x -> parse_bits (appendDecimal x) = Some x.
Proof.
  intros Hx. assert (forallb (fun x => bool_decide (parse_bits (appendDecimal x) = Some x)) (seqZ 0 256) = true) as H
    by (vm_compute; done).
  rewrite forallb_forall in H. specialize (H x). rewrite bool_decide_eq_true in H. apply H.
  apply list_elem_of_In, elem_of_seqZ. unfold is_byte in Hx. lia.
Qed.

(** The text of a prefix parses to the prefix. *)
Lemma prefix_roundtrip p : wf_prefix p -> Zone (PAddr p) = [] -> ParsePrefix (PrefixString p) = Some p.
Proof.
  destruct p as [a bits]. intros [Ha Hb] Hz. cbn in Ha, Hb, Hz.
  assert (is_byte bits) as Hbyte by (unfold is_byte, BitLen in *; destruct (Is6 a); lia).
  unfold ParsePrefix, PrefixString. rewrite String.list_ascii_of_string_of_list_ascii. cbn [PAddr Bits].
  rewrite cut_last_app by (apply addr_chars_lack; [by apply appendDecimal_chars|set_solver]).
  rewrite addr_roundtrip, parse_bits_decimal by done. rewrite bool_decide_eq_true_2 by done.
  by replace (bits <=? BitLen a) with true by lia.
Qed.

(** ** [net.IP] slices *)

(** What a resolver and [ParseIP] return: four or sixteen bytes. *)
Definition wf_ip (ip : IP) : Prop := Forall is_byte ip /\ (length ip = 4%nat \/ length ip = 16%nat).

(** The sixteen-byte form. *)
Definition To16 (ip : IP) : IP := if (length ip =? 4)%nat then v4InV6Prefix ++ ip else ip.

Lemma To4_cases ip :
  wf_ip ip ->
  (exists b, To4 ip = Some b /\ Forall is_byte b /\ length b = 4%nat /\ To16 ip = v4InV6Prefix ++ b)
  \/ (To4 ip = None /\ length ip = 16%nat /\ take 12 ip <> v4InV6Prefix).
Proof.
  intros [Hb [Hl|Hl]]; unfold To4, To16; rewrite Hl; cbn [Nat.eqb andb].
  - left. eauto 10.
  - destruct (bool_decide (take 12 ip = v4InV6Prefix)) eqn:E.
    + apply bool_decide_eq_true in E. left. exists (drop 12 ip). split_and!; [done|by apply Forall_drop|rewrite length_drop; lia|].
      by rewrite <- E, take_drop.
    + apply bool_decide_eq_false in E. by right.
Qed.

Lemma mapped_iff ip :
  Forall is_byte ip -> length ip = 16%nat ->
  Is4In6 (mkAddr true (be ip) []) = true <-> take 12 ip = v4InV6Prefix.
Proof.
  intros Hb Hl. unfold Is4In6. cbn [Is6 num andb]. rewrite Z.eqb_eq.
  rewrite <- (take_drop 12 ip) at 1. rewrite be_app.
  assert (Forall is_byte (take 12 ip)) as Ht by (by apply Forall_take).
  assert (Forall is_byte (drop 12 ip)) as Hd by (by apply Forall_drop).
  apply be_range in Hd. rewrite length_drop, Hl in *. cbn [Nat.sub] in *. change (256 ^ Z.of_nat 4) with (2 ^ 32) in *.
  rewrite Z.shiftr_div_pow2, Z.div_add_l, Z.div_small, Z.add_0_r by lia.
  split; [|by intros ->]. intros E.
  rewrite <- (bytes_be_be (take 12 ip)) by done. rewrite E, length_take, Hl. vm_compute. done.
Qed.

Lemma ParseIP_IPString ip : wf_ip ip -> ParseIP (IPString ip) = Some (To16 ip).
Proof.
  intros Hip. unfold ParseIP, IPString. destruct (To4_cases ip Hip) as [(b & -> & Hb & Hl & ->)|(-> & Hl & Hn)].
  - assert (ParseAddr (string4 b) = Some (mkAddr false (be b) [])) as ->.
    { unfold ParseAddr, parseIPv4. by rewrite addr_form_string4, parse_string4. }
    cbn [Zone]. rewrite bool_decide_eq_true_2 by done. unfold As16. cbn [Is6 num]. by rewrite <- Hl, bytes_be_be.
  - destruct Hip as [Hb _]. pose proof (be_range ip Hb) as Hr. rewrite Hl in Hr.
    rewrite addr_roundtrip by done. unfold As16, To16. cbn [Is6 Zone num]. rewrite Hl, bool_decide_eq_true_2 by done.
    cbn [Nat.eqb]. pose proof (bytes_be_be ip Hb) as E. rewrite Hl in E. by rewrite E.
Qed.

Lemma IPString_chars ip : wf_ip ip -> Forall addr_char (IPString ip).
Proof.
  intros Hip. unfold IPString. destruct (To4_cases ip Hip) as [(b & -> & Hb & Hl & _)|(-> & Hl & Hn)].
  - by apply string4_chars.
  - destruct Hip as [Hb _]. unfold AddrString. cbn [Is6 negb Zone num].
    destruct (Is4In6 _) eqn:E; [by apply mapped_iff in E|].
    rewrite app_nil_r. apply string6_chars, words_be_words.
Qed.

Lemma has_char_app c a b : has_char c (a ++ b) = has_char c a || has_char c b.
Proof. apply existsb_app. Qed.

Lemma cut_first_app c a b : has_char c a = false -> cut_first c (a ++ c :: b) = Some (a, b).
Proof.
  induction a as [|d a IH]; cbn; [by rewrite Ascii.eqb_refl|]. rewrite orb_false_iff. intros [-> H]. by rewrite IH.
Qed.

(** The port of a split address, and what may follow a joined host. *)
Definition port_text (p : chars) : Prop :=
  has_char ":"%char p = false /\ has_char "["%char p = false /\ has_char "]"%char p = false.

Lemma cut_first_spec c s a b : cut_first c s = Some (a, b) -> s = a ++ c :: b.
Proof.
  revert a. induction s as [|d s IH]; intros a; [done|]. cbn. destruct (Ascii.eqb c d) eqn:E.
  - apply Ascii.eqb_eq in E as ->. by intros [= <- <-].
  - destruct (cut_first c s) as [[a' b']|]; [|done]. intros [= <- <-]. cbn. by rewrite (IH a' eq_refl) at 1.
Qed.

Lemma SplitHostPort_port s h p : SplitHostPort s = Some (h, p) -> port_text p.
Proof.
  unfold SplitHostPort, port_text. destruct (cut_last ":"%char s) as [[before port]|] eqn:E; [|done].
  apply cut_last_spec in E as [-> Hc]. destruct (before ++ ":"%char :: port) as [|c inner] eqn:Eh; [done|].
  destruct (Ascii.eqb c "["%char) eqn:Ec.
  - destruct (cut_first _ _) as [[host [|d port']]|] eqn:Ef; [done| |done].
    destruct (_ && _ && _ && _) eqn:Eb; [|done]. intros [= <- <-].
    rewrite !andb_true_iff, !negb_true_iff, bool_decide_eq_true in Eb. destruct Eb as [[[Ed ->] Ei] Ep].
    apply Ascii.eqb_eq in Ed as ->. apply cut_first_spec in Ef. cbn [app] in Eh. injection Eh as <- Eh.
    rewrite <- app_assoc in Eh. cbn [app] in Eh. subst inner. apply app_inv_head in Ef. injection Ef as <-.
    rewrite !has_char_app, orb_false_iff in Ei. destruct Ei as [_ Ei]. done.
  - destruct (_ || _ || _) eqn:Eb; [done|]. intros [= <- <-]. rewrite !orb_false_iff, <- Eh, !has_char_app, !orb_false_iff in Eb.
    destruct Eb as [[_ [_ E1]] [_ E2]]. done.
Qed.

(** Joining a host without brackets to such a port and splitting again. *)
Lemma split_join h p :
  has_char "["%char h = false -> has_char "]"%char h = false -> port_text p ->
  SplitHostPort (JoinHostPort h p) = Some (h, p).
Proof.
  intros H1 H2 (P1 & P2 & P3). unfold JoinHostPort, SplitHostPort. destruct (has_char ":"%char h) eqn:Eh.
  - change ("["%char :: h ++ "]"%char :: ":"%char :: p) with (("["%char :: h) ++ ["]"%char] ++ ":"%char :: p).
    rewrite app_assoc, cut_last_app by done. rewrite <- app_assoc. cbn [app]. rewrite Ascii.eqb_refl.
    rewrite cut_first_app by done. rewrite Ascii.eqb_refl, bool_decide_eq_true_2 by done.
    change (has_char "["%char (h ++ "]"%char :: ":"%char :: p)) with (has_char "["%char (h ++ ["]"%char; ":"%char] ++ p)).
    by rewrite !has_char_app, H1, P2, P3.
  - rewrite cut_last_app by done. destruct (h ++ ":"%char :: p) as [|c s] eqn:E; [by destruct h|].
    assert (Ascii.eqb c "["%char = false) as ->.
    { destruct h as [|d h]; injection E as <- _; [done|]. cbn in H1. apply orb_false_iff in H1 as [H1 _].
      by rewrite Ascii.eqb_sym. }
    rewrite <- E. change (h ++ ":"%char :: p) with (h ++ [":"%char] ++ p). by rewrite !has_char_app, Eh, H1, H2, P2, P3.
Qed.

(** Masking a prefix keeps its interval. *)
Lemma first_num_masked p : wf_prefix p -> first_num (Masked p) = first_num p.
Proof.
  intros H%host_bits_nonneg. unfold first_num, Masked, host_bits, BitLen. cbn [PAddr num Is6 Bits].
  fold (BitLen (PAddr p)). fold (host_bits p). f_equal. rewrite Z.shiftr_shiftl_l, Z.sub_diag by done. apply Z.shiftl_0_r.
Qed.

Lemma masked_wf p : wf_prefix p -> wf_prefix (Masked p).
Proof.
  intros Hp. pose proof (first_num_eq p Hp) as E. pose proof (size_pos p Hp) as Hs. destruct Hp as [Ha Hb].
  split; [|exact Hb]. unfold wf_addr in *. change (BitLen (PAddr (Masked p))) with (BitLen (PAddr p)).
  change (num (PAddr (Masked p))) with (first_num p). rewrite E.
  pose proof (Z.div_mod (num (PAddr p)) (size p)). pose proof (Z.mod_pos_bound (num (PAddr p)) (size p)).
  pose proof (Z.div_pos (num (PAddr p)) (size p)). nia.
Qed.

Lemma contains_masked p a : wf_prefix p -> PrefixContains (Masked p) a = PrefixContains p a.
Proof.
  intros Hp. apply Bool.eq_iff_eq_true. rewrite !contains_interval by (try apply masked_wf; done).
  rewrite first_num_masked by done. done.
Qed.
