(* ===== verification/Ssrf.v ===== *)
(** * The outbound address policy

    [guardrail/ssrf.go], [guardrail/conntrack.go], [guardrail/redirect.go] and the
    admission of admin URLs ([admin/ssrf.go]): which addresses a connection may
    reach, the operator's allowlist of private ranges, the dialers and the
    revocation of connections when the allowlist narrows. *)

From S2P Require Import Prelude Netip.

(** ** The red line and the restricted classes *)

Definition MustParsePrefix (s : string) : Prefix := default (mkPrefix (mkAddr false 0 []) 0) (ParsePrefix s).

Definition cloudMetadataPrefixes : list Prefix :=
  map MustParsePrefix ["fd00:ec2::/32"; "100.100.100.200/32"].

Definition isCloudMetadataIP (ip : IP) : bool :=
  match AddrFromSlice ip with
  | None => false
  | Some addr => existsb (fun p => PrefixContains p (Unmap addr)) cloudMetadataPrefixes
  end.

Definition isHardDeniedIP (ip : IP) : bool :=
  let ip := default ip (To4 ip) in
  IsLoopback ip || IsLinkLocalUnicast ip || IsLinkLocalMulticast ip || IsUnspecified ip || IsMulticast ip
  || isCloudMetadataIP ip.

Definition isRestrictedIP (ip : IP) : bool :=
  let ip := default ip (To4 ip) in
  IsLoopback ip || IsPrivate ip || IsLinkLocalUnicast ip || IsLinkLocalMulticast ip || IsUnspecified ip
  || IsMulticast ip.

(** ** The allowlist *)

Definition privateSupernets : list Prefix :=
  map MustParsePrefix ["10.0.0.0/8"; "172.16.0.0/12"; "192.168.0.0/16"; "fc00::/7"].

Inductive allow_err :=
  | ErrParse (c : string)
  | ErrMapped (p : Prefix)
  | ErrMetadata (masked meta : Prefix)
  | ErrNotPrivate (p : Prefix).

(** [None] is the nil error. *)
Definition validateAllowlistPrefix (p : Prefix) : option allow_err :=
  if Is4In6 (PAddr p) then Some (ErrMapped p)
  else
    let masked := Masked p in
    match List.find (fun supernet => PrefixContains supernet (PAddr masked) && (Bits supernet <=? Bits p)) privateSupernets with
    | Some _ =>
        match List.find (fun meta => Overlaps meta masked) cloudMetadataPrefixes with
        | Some meta => Some (ErrMetadata masked meta)
        | None => None
        end
    | None => Some (ErrNotPrivate p)
    end.

Fixpoint ValidateInternalAllowlist (cidrs : list string) : allow_err + list Prefix :=
  match cidrs with
  | [] => inr []
  | c :: cidrs =>
      let c := TrimSpace c in
      if String.eqb c "" then ValidateInternalAllowlist cidrs
      else
        match ParsePrefix c with
        | None => inl (ErrParse c)
        | Some p =>
            match validateAllowlistPrefix p with
            | Some e => inl e
            | None =>
                match ValidateInternalAllowlist cidrs with
                | inl e => inl e
                | inr ps => inr (p :: ps)
                end
            end
        end
  end.

(** The published policy, [internalAllowlist]: nil is the strict default. *)
Definition policy := option (list Prefix).

Definition publish (prefixes : list Prefix) : policy :=
  match prefixes with [] => None | _ => Some prefixes end.

Definition InternalAllowlistSnapshot (pol : policy) : list Prefix := default [] pol.

Definition SetInternalAllowlist (pol : policy) (cidrs : list string) : option allow_err * policy :=
  match ValidateInternalAllowlist cidrs with
  | inl e => (Some e, pol)
  | inr prefixes => (None, publish prefixes)
  end.

Definition allowlistHitFor (pol : policy) (ip : IP) : option Prefix :=
  match pol with
  | None => None
  | Some prefixes =>
      match AddrFromSlice ip with
      | None => None
      | Some addr => List.find (fun p => PrefixContains p (Unmap addr)) prefixes
      end
  end.

Definition AllowedInternal (pol : policy) (ip : IP) : bool :=
  match allowlistHitFor pol ip with Some _ => true | None => false end.

Definition blockedIP (pol : policy) (ip : IP) : bool :=
  if isHardDeniedIP ip then true else isRestrictedIP ip && negb (AllowedInternal pol ip).

(** ** Checks *)

Inductive control_err := CtlAddress | CtlNonIP (h : chars) | CtlBlocked (ip : IP).

Definition ssrfControl (pol : policy) (address : chars) : option control_err :=
  match SplitHostPort address with
  | None => Some CtlAddress
  | Some (h, _) =>
      match ParseIP h with
      | None => Some (CtlNonIP h)
      | Some ip => if blockedIP pol ip then Some (CtlBlocked ip) else None
      end
  end.

(** An admission record: the address and the prefix that admitted it. *)
Record AllowlistHit := mkHit { HitIP : chars; HitCIDR : string }.

Definition auditAllowlistedDial (pol : policy) (ip : IP) : list AllowlistHit :=
  if isHardDeniedIP ip then []
  else match allowlistHitFor pol ip with
       | Some p => [mkHit (IPString ip) (PrefixString p)]
       | None => []
       end.

(** [outboundErr] without its wire message. *)
Inductive err_kind := Restricted | Unresolved | Invalid.
Record outboundErr := mkOutErr { kind : err_kind; host : chars }.

(** A resolver returns addresses or fails. *)
Definition resolver := chars -> option (list IP).

Definition resolveAndCheck (pol : policy) (lookupIPAddr : resolver) (h : chars) : outboundErr + list IP :=
  match ParseIP h with
  | Some ip => if blockedIP pol ip then inl (mkOutErr Restricted (IPString ip)) else inr [ip]
  | None =>
      match lookupIPAddr h with
      | None | Some [] => inl (mkOutErr Unresolved h)
      | Some ips =>
          match List.find (blockedIP pol) ips with
          | Some ip => inl (mkOutErr Restricted (IPString ip))
          | None => inr ips
          end
      end
  end.

(** What the policy uses of a parsed URL. *)
Record URL := mkURL { Scheme : string; Hostname : chars }.

Section Admission.
(** [url.Parse] and the resolver *)
Context (urlParse : string -> option URL) (lookupIPAddr : resolver).

Definition hit_of (pol : policy) (ip : IP) : option AllowlistHit :=
  if isHardDeniedIP ip then None
  else if isRestrictedIP ip then
    match allowlistHitFor pol ip with
    | Some p => Some (mkHit (IPString ip) (PrefixString p))
    | None => None
    end
  else None.

Fixpoint first_hit (pol : policy) (ips : list IP) : option AllowlistHit :=
  match ips with
  | [] => None
  | ip :: ips => match hit_of pol ip with Some h => Some h | None => first_hit pol ips end
  end.

Definition ValidateURLSafetyDetail (pol : policy) (rawURL : string) : outboundErr + option AllowlistHit :=
  match urlParse (TrimSpace rawURL) with
  | None => inl (mkOutErr Invalid [])
  | Some u =>
      if negb (String.eqb (Scheme u) "http") && negb (String.eqb (Scheme u) "https") then inl (mkOutErr Invalid [])
      else
        match Hostname u with
        | [] => inl (mkOutErr Invalid [])
        | h =>
            match resolveAndCheck pol lookupIPAddr h with
            | inl e => inl e
            | inr ips => inr (first_hit pol ips)
            end
        end
  end.

Definition ValidateURLSafety (pol : policy) (rawURL : string) : option outboundErr :=
  match ValidateURLSafetyDetail pol rawURL with inl e => Some e | inr _ => None end.

(** [ensureOutboundURLAllowed] with its admission records. *)
Definition ensureOutboundURLAllowed (pol : policy) (rawURL : string) : option outboundErr * list AllowlistHit :=
  if String.eqb rawURL "" then (None, [])
  else match ValidateURLSafetyDetail pol rawURL with
       | inl e => (Some e, [])
       | inr None => (None, [])
       | inr (Some hit) => (None, [hit])
       end.

Inductive admission :=
  | Accepted (url : string)
  | BadURL
  | BadScheme
  | Denied (e : outboundErr).

Definition validateOutboundURL (pol : policy) (rawURL : string) : admission :=
  if String.eqb rawURL "" then Accepted ""
  else
    let trimmed := TrimSpace rawURL in
    match urlParse trimmed with
    | None => BadURL
    | Some u =>
        let s := ToLower (Scheme u) in
        if negb (String.eqb s "http") && negb (String.eqb s "https") then BadScheme
        else match fst (ensureOutboundURLAllowed pol trimmed) with
             | Some e => Denied e
             | None => Accepted trimmed
             end
    end.

Inductive redirect_err := TooManyRedirects | RefusedRedirect (e : outboundErr).

Definition BlockInternalRedirect (pol : policy) (req : URL) (via : nat) : option redirect_err :=
  if (10 <=? via)%nat then Some TooManyRedirects
  else match Hostname req with
       | [] => None
       | h => match resolveAndCheck pol lookupIPAddr h with
              | inl e => Some (RefusedRedirect e)
              | inr _ => None
              end
       end.
End Admission.

(** ** The classes as address ranges *)

(** The address a slice denotes, IPv4-mapped forms included. *)
Definition addr_of (ip : IP) : Addr := Unmap (default (mkAddr true 0 []) (AddrFromSlice ip)).

Definition in_ranges (ranges : list string) (a : Addr) : bool :=
  existsb (fun r => PrefixContains (MustParsePrefix r) a) ranges.

(** The addresses no configuration may open, and those an allowlist may. *)
Definition red_line : list string :=
  ["0.0.0.0/32"; "127.0.0.0/8"; "169.254.0.0/16"; "224.0.0.0/4"; "100.100.100.200/32";
   "::/128"; "::1/128"; "fe80::/10"; "ff00::/8"; "fd00:ec2::/32"].

Definition private_ranges : list string := ["10.0.0.0/8"; "172.16.0.0/12"; "192.168.0.0/16"; "fc00::/7"].

(** A range given by its family, first and last address. *)
Lemma contains_range r six lo n a :
  (match ParsePrefix r with
   | Some p => (Is6 (PAddr p), first_num p, size p) = (six, lo, n)
   | None => False
   end) ->
  Zone a = [] ->
  PrefixContains (MustParsePrefix r) a = Bool.eqb (Is6 a) six && (lo <=? num a) && (num a <? lo + n).
Proof.
  intros Hr Hz. unfold MustParsePrefix. destruct (ParsePrefix r) as [p|] eqn:E; [|done]. cbn [default from_option id].
  apply ParsePrefix_wf in E as [Hwf _]. injection Hr as H1 H2 H3. apply Bool.eq_iff_eq_true.
  rewrite contains_interval by done. rewrite !andb_true_iff, Bool.eqb_true_iff, H1, H2, H3. intuition lia.
Qed.

Ltac range_table :=
  unfold in_ranges, red_line, private_ranges, cloudMetadataPrefixes, privateSupernets; cbn [existsb map];
  repeat match goal with
  | |- context [PrefixContains (MustParsePrefix ?r) ?a] =>
      let p := eval vm_compute in
        (match ParsePrefix r with Some p => (Is6 (PAddr p), first_num p, size p) | None => (false, 0, 0) end) in
      match p with (?six, ?lo, ?n) =>
        rewrite (contains_range r six lo n a) by (first [vm_compute; reflexivity | reflexivity])
      end
  end.

(** Bit tests on bytes are interval tests. *)
Lemma byte_tests b :
  is_byte b ->
  (Z.land b 0xf0 =? 16) = ((16 <=? b) && (b <? 32)) /\
  (Z.land b 0xf0 =? 0xe0) = ((224 <=? b) && (b <? 240)) /\
  (Z.land b 0xfe =? 0xfc) = ((252 <=? b) && (b <? 254)) /\
  (Z.land b 0xc0 =? 0x80) = ((128 <=? b) && (b <? 192)).
Proof.
  intros Hb.
  assert (forallb (fun b => Bool.eqb (Z.land b 0xf0 =? 16) ((16 <=? b) && (b <? 32))
     && Bool.eqb (Z.land b 0xf0 =? 0xe0) ((224 <=? b) && (b <? 240))
     && Bool.eqb (Z.land b 0xfe =? 0xfc) ((252 <=? b) && (b <? 254))
     && Bool.eqb (Z.land b 0xc0 =? 0x80) ((128 <=? b) && (b <? 192))) (seqZ 0 256) = true) as H by (vm_compute; done).
  rewrite forallb_forall in H. specialize (H b). rewrite !andb_true_iff, !Bool.eqb_true_iff in H.
  destruct H as [[[H1 H2] H3] H4]; [|done]. apply list_elem_of_In, elem_of_seqZ. unfold is_byte in Hb. lia.
Qed.

(** IPv4 addresses *)

Lemma addr_of_4 a b c d :
  is_byte a -> is_byte b -> is_byte c -> is_byte d ->
  addr_of [a; b; c; d] = mkAddr false (((a * 256 + b) * 256 + c) * 256 + d) [].
Proof. intros. unfold addr_of. cbn. f_equal. Qed.

Ltac bool_lia :=
  apply Bool.eq_iff_eq_true; rewrite ?andb_true_iff, ?orb_true_iff, ?negb_true_iff, ?Z.eqb_eq, ?Z.leb_le, ?Z.ltb_lt; lia.

Lemma unspecified_4 a b c d : IsUnspecified [a; b; c; d] = (a =? 0) && (b =? 0) && (c =? 0) && (d =? 0).
Proof.
  apply Bool.eq_iff_eq_true. unfold IsUnspecified, IPEqual. cbn [length Nat.eqb andb IPv4zero IPv6unspecified].
  rewrite orb_true_iff, !andb_true_iff, !Z.eqb_eq.
  change (length IPv4zero) with 16%nat. change (length IPv6unspecified) with 16%nat. cbn [Nat.eqb andb].
  rewrite !bool_decide_eq_true. split.
  - intros [H|H]; [unfold IPv4zero in H; apply app_inv_head in H; naive_solver|discriminate].
  - intros [[[-> ->] ->] ->]. by left.
Qed.

Lemma red_line_4 a b c d :
  is_byte a -> is_byte b -> is_byte c -> is_byte d ->
  isHardDeniedIP [a; b; c; d] = in_ranges red_line (addr_of [a; b; c; d]).
Proof.
  intros Ha Hb Hc Hd. rewrite addr_of_4 by done. unfold isHardDeniedIP. cbn [To4 length Nat.eqb default from_option id].
  rewrite unspecified_4. unfold isCloudMetadataIP, AddrFromSlice. cbn [length].
  change (Unmap (mkAddr false ?n [])) with (mkAddr false n []).
  unfold IsLoopback, IsLinkLocalUnicast, IsLinkLocalMulticast, IsMulticast, byte. cbn [To4 length Nat.eqb].
  cbn [lookup list_lookup default from_option id].
  destruct (byte_tests a Ha) as (_ & -> & _). range_table. cbn [Is6 num Bool.eqb andb].
  change (be [a; b; c; d]) with ((((0 * 256 + a) * 256 + b) * 256 + c) * 256 + d).
  unfold is_byte in *. rewrite ?orb_false_r, ?orb_false_l. bool_lia.
Qed.

Lemma private_4 a b c d :
  is_byte a -> is_byte b -> is_byte c -> is_byte d ->
  isRestrictedIP [a; b; c; d] || isCloudMetadataIP [a; b; c; d]
  = isHardDeniedIP [a; b; c; d] || in_ranges private_ranges (addr_of [a; b; c; d]).
Proof.
  intros Ha Hb Hc Hd. rewrite addr_of_4 by done. unfold isRestrictedIP, isHardDeniedIP.
  cbn [To4 length Nat.eqb default from_option id].
  assert (IsPrivate [a; b; c; d] = in_ranges private_ranges (mkAddr false (((a * 256 + b) * 256 + c) * 256 + d) [])) as ->.
  { unfold IsPrivate, byte. cbn [To4 length Nat.eqb lookup list_lookup default from_option id].
    destruct (byte_tests b Hb) as (-> & _). range_table. cbn [Is6 num Bool.eqb andb]. unfold is_byte in *.
    rewrite ?orb_false_r, ?orb_false_l. bool_lia. }
  destruct (in_ranges private_ranges _), (IsLoopback _), (IsLinkLocalUnicast _), (IsLinkLocalMulticast _),
    (IsUnspecified _), (IsMulticast _), (isCloudMetadataIP _); reflexivity.
Qed.

(** IPv6 addresses that are not IPv4-mapped *)

Definition plain6 (ip : IP) : Prop := Forall is_byte ip /\ length ip = 16%nat /\ take 12 ip <> v4InV6Prefix.

Lemma plain6_To4 ip : plain6 ip -> To4 ip = None.
Proof.
  intros (_ & Hl & Hn). unfold To4. rewrite Hl. cbn [Nat.eqb andb]. by rewrite bool_decide_eq_false_2.
Qed.

Lemma addr_of_6 ip : plain6 ip -> addr_of ip = mkAddr true (be ip) [].
Proof.
  intros (Hb & Hl & Hn). unfold addr_of, AddrFromSlice. rewrite Hl. cbn [default from_option id]. unfold Unmap.
  destruct (Is4In6 _) eqn:E; [by apply mapped_iff in E|done].
Qed.

Lemma be_inj a b : Forall is_byte a -> Forall is_byte b -> length a = length b -> be a = be b -> a = b.
Proof. intros Ha Hb Hl E. rewrite <- (bytes_be_be a), <- (bytes_be_be b) by done. by rewrite Hl, E. Qed.

(** Comparison with a constant address is comparison of the numbers. *)
Lemma IPEqual_16 ip c :
  plain6 ip -> length c = 16%nat -> Forall is_byte c -> IPEqual ip c = (be ip =? be c).
Proof.
  intros (Hb & Hl & _) Hc Hcb. unfold IPEqual. rewrite Hl, Hc, Nat.eqb_refl. apply Bool.eq_iff_eq_true.
  rewrite bool_decide_eq_true, Z.eqb_eq. split; [by intros ->|]. apply be_inj; [done|done|congruence].
Qed.

(** The first four bytes and the number of the rest. *)
Lemma plain6_head ip :
  plain6 ip ->
  exists a b c d r, is_byte a /\ is_byte b /\ is_byte c /\ is_byte d /\ 0 <= r < 256 ^ 12 /\
    byte ip 0 = a /\ byte ip 1 = b /\ be ip = (((a * 256 + b) * 256 + c) * 256 + d) * 256 ^ 12 + r.
Proof.
  intros (Hb & Hl & _). destruct ip as [|a [|b [|c [|d ip]]]]; try done. cbn in Hl.
  rewrite !Forall_cons in Hb. destruct Hb as (Ha & Hb & Hc & Hd & Hr). apply be_range in Hr.
  replace (length ip) with 12%nat in Hr by lia.
  exists a, b, c, d, (be ip). split_and!; try done; try lia.
  change (a :: b :: c :: d :: ip) with ([a; b; c; d] ++ ip). rewrite be_app. replace (length ip) with 12%nat by lia.
  reflexivity.
Qed.

Lemma unspecified_6 ip : plain6 ip -> IsUnspecified ip = (be ip =? 0).
Proof.
  intros Hp. assert (Forall is_byte IPv4zero /\ Forall is_byte IPv6unspecified) as [H4 H6].
  { split; (apply Forall_forall; intros b Hb; cbn in Hb; rewrite !elem_of_cons in Hb; unfold is_byte;
      repeat destruct Hb as [->|Hb]; try lia; by apply not_elem_of_nil in Hb). }
  unfold IsUnspecified. rewrite !IPEqual_16 by done. change (be IPv6unspecified) with 0.
  destruct (be ip =? be IPv4zero) eqn:E; [|done]. apply Z.eqb_eq, be_inj in E as ->; [|apply Hp|done|apply Hp].
  by destruct Hp as (_ & _ & []).
Qed.

Lemma red_line_6 ip : plain6 ip -> isHardDeniedIP ip = in_ranges red_line (addr_of ip).
Proof.
  intros Hp. pose proof (plain6_head ip Hp) as (a & b & c & d & r & Ha & Hb & Hc & Hd & Hr & E0 & E1 & En).
  rewrite addr_of_6 by done. unfold isHardDeniedIP. rewrite (plain6_To4 ip Hp). cbn [default from_option id].
  rewrite unspecified_6 by done. unfold isCloudMetadataIP, AddrFromSlice.
  unfold IsLoopback, IsLinkLocalUnicast, IsLinkLocalMulticast, IsMulticast. rewrite (plain6_To4 ip Hp).
  rewrite IPEqual_16 by (first [done | repeat constructor; unfold is_byte; lia]). change (be IPv6loopback) with 1.
  assert (Unmap (mkAddr true (be ip) []) = mkAddr true (be ip) []) as Hu.
  { unfold Unmap. destruct (Is4In6 _) eqn:E; [|done]. destruct Hp as (? & ? & []). by apply mapped_iff. }
  destruct Hp as (_ & -> & _). rewrite Hu. cbn [Nat.eqb andb]. range_table. cbn [Is6 num Bool.eqb andb].
  rewrite E0, E1, En. destruct (byte_tests b Hb) as (_ & _ & _ & ->). unfold is_byte in *.
  rewrite ?orb_false_r, ?orb_false_l. set (ll := Z.land b 0x0f =? 0x02).
  destruct (a =? 255) eqn:E255; [|bool_lia].
  apply Z.eqb_eq in E255. subst a. cbn [andb]. bool_lia.
Qed.

Lemma private_6 ip :
  plain6 ip ->
  isRestrictedIP ip || isCloudMetadataIP ip = isHardDeniedIP ip || in_ranges private_ranges (addr_of ip).
Proof.
  intros Hp. pose proof (plain6_head ip Hp) as (a & b & c & d & r & Ha & Hb & Hc & Hd & Hr & E0 & E1 & En).
  rewrite addr_of_6 by done. unfold isRestrictedIP, isHardDeniedIP. rewrite (plain6_To4 ip Hp). cbn [default from_option id].
  assert (IsPrivate ip = in_ranges private_ranges (mkAddr true (be ip) [])) as ->.
  { unfold IsPrivate. rewrite (plain6_To4 ip Hp). destruct Hp as (_ & -> & _). rewrite E0.
    destruct (byte_tests a Ha) as (_ & _ & -> & _). cbn [Nat.eqb andb]. range_table. cbn [Is6 num Bool.eqb andb].
    rewrite En. unfold is_byte in *. rewrite ?orb_false_r, ?orb_false_l. bool_lia. }
  destruct (in_ranges private_ranges _), (IsLoopback _), (IsLinkLocalUnicast _), (IsLinkLocalMulticast _),
    (IsUnspecified _), (IsMulticast _), (isCloudMetadataIP _); reflexivity.
Qed.

(** The policy normalises IPv4-mapped slices first. *)
Lemma normalised ip :
  wf_ip ip ->
  (exists a b c d, is_byte a /\ is_byte b /\ is_byte c /\ is_byte d /\
    isHardDeniedIP ip = isHardDeniedIP [a; b; c; d] /\ isRestrictedIP ip = isRestrictedIP [a; b; c; d] /\
    isCloudMetadataIP ip = isCloudMetadataIP [a; b; c; d] /\
    addr_of ip = addr_of [a; b; c; d]) \/ plain6 ip.
Proof.
  intros Hip. destruct (To4_cases ip Hip) as [(l & E4 & Hl & Hlen & E16)|(E4 & Hlen & Hn)]; [left|right; by destruct Hip].
  destruct l as [|a [|b [|c [|d [|]]]]]; try done. rewrite !Forall_cons in Hl. destruct Hl as (Ha & Hb & Hc & Hd & _).
  assert (addr_of ip = addr_of [a; b; c; d]) as Ead.
  { unfold addr_of, AddrFromSlice. destruct Hip as [Hb' [Hl'|Hl']]; rewrite Hl'.
    - unfold To4 in E4. rewrite Hl' in E4. by injection E4 as ->.
    - cbn [default from_option id length]. unfold To16 in E16. rewrite Hl' in E16. cbn [Nat.eqb] in E16. subst ip.
      unfold Unmap. rewrite (proj2 (mapped_iff _ Hb' Hl') eq_refl). cbn [Is4In6 Is6 num andb]. f_equal.
      rewrite be_app. change (length [a; b; c; d]) with 4%nat. change (256 ^ Z.of_nat 4) with (2 ^ 32).
      assert (0 <= be [a; b; c; d] < 2 ^ 32) as Hr by (apply (be_range [a; b; c; d]); by rewrite !Forall_cons).
      rewrite Z.add_comm, Z.mod_add by lia. rewrite Z.mod_small by exact Hr. reflexivity. }
  exists a, b, c, d. split_and!; try done.
  - unfold isHardDeniedIP at 1. rewrite E4. reflexivity.
  - unfold isRestrictedIP at 1. rewrite E4. reflexivity.
  - assert (forall x, isCloudMetadataIP x = match AddrFromSlice x with None => false | Some _ => existsb (fun p => PrefixContains p (addr_of x)) cloudMetadataPrefixes end) as Hm.
    { intros x. unfold isCloudMetadataIP, addr_of. by destruct (AddrFromSlice x). }
    rewrite !Hm, Ead. unfold AddrFromSlice. destruct Hip as [_ [-> | ->]]; reflexivity.
Qed.

Lemma red_line_spec ip : wf_ip ip -> isHardDeniedIP ip = in_ranges red_line (addr_of ip).
Proof.
  intros [(a & b & c & d & Ha & Hb & Hc & Hd & -> & _ & _ & ->)|Hp]%normalised; [by apply red_line_4|by apply red_line_6].
Qed.

Lemma metadata_hard ip : isCloudMetadataIP (default ip (To4 ip)) = true -> isHardDeniedIP ip = true.
Proof. unfold isHardDeniedIP. intros ->. by rewrite orb_true_r. Qed.

(** Outside the red line, restricted means private. *)
Lemma restricted_private ip :
  wf_ip ip -> isHardDeniedIP ip = false -> isRestrictedIP ip = in_ranges private_ranges (addr_of ip).
Proof.
  intros Hip Hh.
  assert (isRestrictedIP ip || isCloudMetadataIP ip = isHardDeniedIP ip || in_ranges private_ranges (addr_of ip)
    /\ isCloudMetadataIP ip = false) as [E Em].
  { destruct (normalised ip Hip) as [(a & b & c & d & Ha & Hb & Hc & Hd & E1 & E2 & E3 & E4)|Hp].
    - rewrite E1, E2, E3, E4. split; [by apply private_4|]. rewrite E1 in Hh.
      destruct (isCloudMetadataIP [a; b; c; d]) eqn:Em; [|done]. by rewrite (metadata_hard [a; b; c; d] Em) in Hh.
    - split; [by apply private_6|]. destruct (isCloudMetadataIP ip) eqn:Em; [|done].
      rewrite metadata_hard in Hh; [done|]. by rewrite (plain6_To4 ip Hp). }
  rewrite Em, Hh, orb_false_r in E. exact E.
Qed.

(** ** What a validated allowlist can do *)

(** A prefix the validator accepts holds private addresses only, none of the red line. *)
Definition safe_prefix (p : Prefix) : Prop :=
  wf_prefix p /\ Zone (PAddr p) = [] /\ Is4In6 (PAddr p) = false /\
  forall a, PrefixContains p a = true -> in_ranges private_ranges a = true /\ in_ranges red_line a = false.

Lemma must_wf r p : ParsePrefix r = Some p -> wf_prefix (MustParsePrefix r).
Proof. intros E. unfold MustParsePrefix. rewrite E. by apply ParsePrefix_wf in E as [? _]. Qed.

Lemma find_none_forall {A} (f : A -> bool) l x : List.find f l = None -> In x l -> f x = false.
Proof. intros H Hx. by apply (List.find_none f l). Qed.

(** Private ranges and the red line meet in the metadata block only. *)
Lemma red_line_private a :
  Zone a = [] -> in_ranges private_ranges a = true -> in_ranges red_line a = true ->
  existsb (fun m => PrefixContains m a) cloudMetadataPrefixes = true.
Proof.
  destruct a as [six n z]. intros Hz. cbn in Hz. subst z. range_table. cbn [Is6 num].
  destruct six; cbn [Bool.eqb andb]; rewrite ?orb_false_r, ?orb_false_l, ?andb_false_l;
    rewrite ?orb_true_iff, ?andb_true_iff, ?Z.leb_le, ?Z.ltb_lt; lia.
Qed.

Lemma validate_safe p :
  wf_prefix p -> Zone (PAddr p) = [] -> validateAllowlistPrefix p = None -> safe_prefix p.
Proof.
  intros Hwf Hz. unfold validateAllowlistPrefix. destruct (Is4In6 (PAddr p)) eqn:E46; [done|].
  destruct (List.find _ privateSupernets) as [s|] eqn:Es; [|done].
  destruct (List.find _ cloudMetadataPrefixes) eqn:Em; [done|]. intros _.
  apply List.find_some in Es as [Hs Ec]. apply andb_true_iff in Ec as [Ec Eb%Z.leb_le].
  split_and!; [done..|]. intros a Ha.
  assert (Zone a = []) as Hza by (apply contains_interval in Ha; [apply Ha|done]).
  assert (wf_prefix s) as Hws.
  { unfold privateSupernets in Hs. apply in_map_iff in Hs as (r & <- & Hr). cbn in Hr.
    destruct Hr as [<-|[<-|[<-|[<-|[]]]]]; eapply must_wf; reflexivity. }
  assert (in_ranges private_ranges a = true) as Hp.
  { unfold in_ranges. apply existsb_exists. unfold privateSupernets in Hs. apply in_map_iff in Hs as (r & <- & Hr).
    exists r. split; [exact Hr|]. eapply subnet_contained; [exact Hwf|exact Hws|exact Eb|exact Ec|exact Ha]. }
  split; [done|]. destruct (in_ranges red_line a) eqn:Er; [|done]. exfalso.
  apply red_line_private in Er; [|done|done]. apply existsb_exists in Er as (m & Hm & Hc).
  pose proof (find_none_forall _ _ m Em Hm) as Ho. cbv beta in Ho.
  assert (wf_prefix m) as Hwm.
  { unfold cloudMetadataPrefixes in Hm. apply in_map_iff in Hm as (r & <- & Hr). cbn in Hr.
    destruct Hr as [<-|[<-|[]]]; eapply must_wf; reflexivity. }
  rewrite (shared_overlaps m (Masked p) a) in Ho; [done|done|by apply masked_wf|done|by rewrite contains_masked].
Qed.

Lemma validated_safe cidrs ps : ValidateInternalAllowlist cidrs = inr ps -> Forall safe_prefix ps.
Proof.
  revert ps. induction cidrs as [|c cidrs IH]; intros ps; cbn [ValidateInternalAllowlist].
  - intros [= <-]. constructor.
  - destruct (String.eqb (TrimSpace c) ""); [apply IH|].
    destruct (ParsePrefix (TrimSpace c)) as [p|] eqn:Ep; [|done]. apply ParsePrefix_wf in Ep as [Hwf Hz].
    destruct (validateAllowlistPrefix p) eqn:Ev; [done|].
    destruct (ValidateInternalAllowlist cidrs) as [e|ps']; [done|]. intros [= <-].
    constructor; [by apply validate_safe|by apply IH].
Qed.

(** The policies that can be in force. *)
Definition safe_policy (pol : policy) : Prop := Forall safe_prefix (InternalAllowlistSnapshot pol).

Lemma publish_snapshot ps : InternalAllowlistSnapshot (publish ps) = ps.
Proof. by destruct ps. Qed.

Lemma hit_in_policy pol ip p :
  wf_ip ip -> allowlistHitFor pol ip = Some p ->
  p ∈ InternalAllowlistSnapshot pol /\ PrefixContains p (addr_of ip) = true.
Proof.
  intros Hip. unfold allowlistHitFor, addr_of. destruct pol as [ps|]; [|done].
  destruct (AddrFromSlice ip) as [a|] eqn:Ea; [|done]. intros [Hin Hc]%List.find_some. split; [by apply list_elem_of_In|done].
Qed.

Lemma allowed_iff pol ip :
  wf_ip ip ->
  AllowedInternal pol ip = existsb (fun p => PrefixContains p (addr_of ip)) (InternalAllowlistSnapshot pol).
Proof.
  intros [_ Hl]. unfold AllowedInternal, allowlistHitFor, addr_of. destruct pol as [ps|]; [|done].
  cbn [InternalAllowlistSnapshot default from_option id].
  assert (exists a, AddrFromSlice ip = Some a) as [a ->] by (unfold AddrFromSlice; destruct Hl as [-> | ->]; eauto).
  cbn [default from_option id]. induction ps as [|p ps IH]; [done|]. cbn [List.find existsb].
  destruct (PrefixContains p (Unmap a)); [done|]. exact IH.
Qed.

(** The connection policy as address ranges: the red line, and the private ranges
    without the allowlisted prefixes. *)
Lemma blocked_ranges pol ip :
  wf_ip ip ->
  blockedIP pol ip =
    (in_ranges red_line (addr_of ip) ||
     in_ranges private_ranges (addr_of ip) &&
     negb (existsb (fun p => PrefixContains p (addr_of ip)) (InternalAllowlistSnapshot pol))).
Proof.
  intros Hip. unfold blockedIP. rewrite <- red_line_spec, <- allowed_iff by done.
  destruct (isHardDeniedIP ip) eqn:Eh; [done|]. by rewrite (restricted_private ip Hip Eh).
Qed.

(** C17: under every allowlist that passes validation, a connection is admitted exactly
    when its address is public (neither private nor on the red line) or lies in an
    allowlisted prefix; no prefix can open loopback, link-local, metadata,
    unspecified or multicast addresses. *)
Theorem admitted_iff_public_or_allowlisted cidrs ps ip :
  ValidateInternalAllowlist cidrs = inr ps -> wf_ip ip ->
  blockedIP (publish ps) ip = false <->
  (in_ranges private_ranges (addr_of ip) = false /\ in_ranges red_line (addr_of ip) = false)
  \/ exists p, p ∈ ps /\ PrefixContains p (addr_of ip) = true.
Proof.
  intros Hv Hip. apply validated_safe in Hv as Hs. rewrite Forall_forall in Hs.
  rewrite blocked_ranges, publish_snapshot, orb_false_iff, andb_false_iff, negb_false_iff, existsb_exists by done.
  setoid_rewrite <- list_elem_of_In. split.
  - intros [H1 [H2|(p & Hp & Hc)]]; [by left|right; eauto].
  - intros [[H1 H2]|(p & Hp & Hc)]; [auto|]. destruct (Hs p Hp) as (_ & _ & _ & H). destruct (H _ Hc). split; [done|right; eauto].
Qed.

Lemma admitted_iff_public_or_allowlisted_witness : blockedIP (publish [MustParsePrefix "fd12::/16"]) (To16 [10; 1; 2; 3]) = true.
Proof.
  destruct (blockedIP (publish [MustParsePrefix "fd12::/16"]) (To16 [10; 1; 2; 3])) eqn:E; [reflexivity|exfalso].
  apply (admitted_iff_public_or_allowlisted ["fd12::/16"] [MustParsePrefix "fd12::/16"] (To16 [10; 1; 2; 3])) in E.
  - destruct E as [[E _]|(p & Hp & Hc)]; [vm_compute in E; discriminate|].
    apply list_elem_of_singleton in Hp as ->. vm_compute in Hc. discriminate.
  - vm_compute. reflexivity.
  - split; [repeat constructor; unfold is_byte; lia|by right].
Defined.

(** ** Stored allowlists validate again *)

Lemma trim_left_none l : Forall (fun c => is_space c = false) l -> trim_space_left l = l.
Proof. intros H. destruct H as [|c l Hc _]; [done|]. cbn. by rewrite Hc. Qed.

Lemma TrimSpace_none l : Forall (fun c => is_space c = false) l -> TrimSpace (string_of l) = string_of l.
Proof.
  intros H. unfold TrimSpace. rewrite String.list_ascii_of_string_of_list_ascii.
  rewrite (trim_left_none l H), (trim_left_none (rev l)) by (by apply List.Forall_rev). by rewrite rev_involutive.
Qed.

Lemma addr_char_not_space c : addr_char c -> is_space c = false.
Proof.
  intros [[v E]|[->| ->]]; [|done|done]. unfold is_space. apply bool_decide_eq_false. unfold hex_digit in E.
  intros H. rewrite !elem_of_cons in H.
  assert (Z.of_nat (nat_of_ascii c) <= 32) as Hc
    by (destruct H as [H|[H|[H|[H|[H|[H|H%not_elem_of_nil]]]]]]; [rewrite H; lia..|done]).
  repeat case_match; try done; rewrite ?andb_true_iff in *; lia.
Qed.

Lemma AddrString_chars a : wf_addr a -> Zone a = [] -> Forall addr_char (AddrString a).
Proof.
  intros Ha Hz. unfold AddrString. rewrite Hz. destruct (negb (Is6 a)); [apply string4_chars, bytes_be_bytes|].
  destruct (Is4In6 a); rewrite app_nil_r; [|apply string6_chars, words_be_words].
  apply Forall_app. split; [|apply string4_chars, bytes_be_bytes].
  cbn [chars_of]. rewrite !Forall_cons, Forall_nil. split_and!; try done; first [right; by left | left; by eexists].
Qed.

Lemma PrefixString_trim p :
  wf_prefix p -> Zone (PAddr p) = [] ->
  TrimSpace (PrefixString p) = PrefixString p /\ String.eqb (PrefixString p) "" = false.
Proof.
  intros [Ha Hb] Hz. unfold PrefixString. split.
  - apply TrimSpace_none, Forall_app. split; [|apply Forall_cons; split; [done|]].
    + eapply Forall_impl; [by apply AddrString_chars|]. apply addr_char_not_space.
    + eapply Forall_impl; [apply appendDecimal_chars|apply addr_char_not_space].
      unfold is_byte, BitLen in *. destruct (Is6 (PAddr p)); lia.
  - destruct (AddrString (PAddr p)); reflexivity.
Qed.

Definition valid_prefix (p : Prefix) : Prop :=
  wf_prefix p /\ Zone (PAddr p) = [] /\ validateAllowlistPrefix p = None.

Lemma validated_valid cidrs ps : ValidateInternalAllowlist cidrs = inr ps -> Forall valid_prefix ps.
Proof.
  revert ps. induction cidrs as [|c cidrs IH]; intros ps; cbn [ValidateInternalAllowlist].
  - intros [= <-]. constructor.
  - destruct (String.eqb (TrimSpace c) ""); [apply IH|].
    destruct (ParsePrefix (TrimSpace c)) as [p|] eqn:Ep; [|done]. apply ParsePrefix_wf in Ep as [Hwf Hz].
    destruct (validateAllowlistPrefix p) eqn:Ev; [done|].
    destruct (ValidateInternalAllowlist cidrs) as [e|ps']; [done|]. intros [= <-]. constructor; [done|by apply IH].
Qed.

(** The canonical texts of validated prefixes validate to the same prefixes. *)
Lemma canonical_validates ps :
  Forall valid_prefix ps -> ValidateInternalAllowlist (map PrefixString ps) = inr ps.
Proof.
  induction 1 as [|p ps (Hwf & Hz & Hv) _ IH]; [done|]. cbn [map ValidateInternalAllowlist].
  destruct (PrefixString_trim p Hwf Hz) as [-> ->]. rewrite prefix_roundtrip by done. by rewrite Hv, IH.
Qed.

(** whatever spelling an operator used, the canonical list that is stored in
    the database validates again, to the same prefixes. *)
Theorem stored_allowlist_revalidates cidrs ps :
  ValidateInternalAllowlist cidrs = inr ps -> ValidateInternalAllowlist (map PrefixString ps) = inr ps.
Proof. intros H%validated_valid. by apply canonical_validates. Qed.

Lemma stored_allowlist_revalidates_witness :
  ValidateInternalAllowlist ["fc00:0:0:1::/64"; "10.1.2.3/16"] = inr [MustParsePrefix "fc00:0:0:1::/64"; MustParsePrefix "10.1.2.3/16"].
Proof.
  apply (stored_allowlist_revalidates [" fc00:0:0:1:0:0::/64 "; ""; "10.1.2.3/16"]
    [MustParsePrefix "fc00:0:0:1::/64"; MustParsePrefix "10.1.2.3/16"]). vm_compute. reflexivity.
Defined.

(** ** Admission *)

Lemma resolve_checked pol lk h ips :
  resolveAndCheck pol lk h = inr ips -> ips <> [] /\ Forall (fun ip => blockedIP pol ip = false) ips.
Proof.
  unfold resolveAndCheck. destruct (ParseIP h) as [ip|].
  - destruct (blockedIP pol ip) eqn:E; [done|]. intros [= <-]. split; [done|by repeat constructor].
  - destruct (lk h) as [[|ip ips']|]; try done. destruct (List.find _ _) eqn:E; [done|]. intros [= <-].
    split; [done|]. apply Forall_forall. intros x Hx. apply (List.find_none _ _ E). by apply list_elem_of_In.
Qed.

(** What a resolver returns: four or sixteen bytes per address. *)
Definition wf_resolver (lk : resolver) : Prop := forall h ips, lk h = Some ips -> Forall wf_ip ips.

Lemma As16_wf a : wf_ip (As16 a).
Proof.
  unfold As16, wf_ip. destruct (Is6 a).
  - split; [apply bytes_be_bytes|right; apply bytes_be_length].
  - split; [|right; rewrite length_app, bytes_be_length; reflexivity]. apply Forall_app. split; [|apply bytes_be_bytes].
    repeat constructor; unfold is_byte; lia.
Qed.

Lemma ParseIP_wf h ip : ParseIP h = Some ip -> wf_ip ip.
Proof. unfold ParseIP. intros H. repeat case_match; simplify_eq. apply As16_wf. Qed.

Lemma resolve_wf pol lk h ips : wf_resolver lk -> resolveAndCheck pol lk h = inr ips -> Forall wf_ip ips.
Proof.
  intros Hlk. unfold resolveAndCheck. destruct (ParseIP h) as [ip|] eqn:Ep.
  - case_match; [done|]. intros [= <-]. constructor; [by eapply ParseIP_wf|constructor].
  - destruct (lk h) as [[|ip ips']|] eqn:E; try done. case_match; [done|]. intros [= <-]. by apply (Hlk h).
Qed.

(** The two lengths of an address are treated alike. *)
Lemma To16_wf ip : wf_ip ip -> wf_ip (To16 ip).
Proof.
  unfold wf_ip, To16. intros [Hb [Hl|Hl]]; rewrite Hl; cbn [Nat.eqb]; [|auto]. split.
  - apply Forall_app. split; [repeat constructor; unfold is_byte; lia|done].
  - right. rewrite length_app, Hl. reflexivity.
Qed.

Lemma addr_of_To16 ip : wf_ip ip -> addr_of (To16 ip) = addr_of ip.
Proof.
  intros Hip. unfold To16. destruct (length ip =? 4)%nat eqn:E; [|done]. apply Nat.eqb_eq in E.
  pose proof (To16_wf ip Hip) as H16. unfold To16 in H16. rewrite E in H16. cbn [Nat.eqb] in H16.
  destruct H16 as [Hb _]. assert (length (v4InV6Prefix ++ ip) = 16%nat) as Hl by (rewrite length_app, E; reflexivity).
  unfold addr_of, AddrFromSlice. rewrite E, Hl. cbn [default from_option id].
  unfold Unmap at 1. rewrite (proj2 (mapped_iff _ Hb Hl) eq_refl). cbn [num]. rewrite be_app, E.
  change (256 ^ Z.of_nat 4) with (2 ^ 32). destruct Hip as [Hi _]. apply be_range in Hi. rewrite E in Hi.
  change (256 ^ Z.of_nat 4) with (2 ^ 32) in Hi. rewrite Z.add_comm, Z.mod_add, Z.mod_small by lia. reflexivity.
Qed.

Lemma blocked_To16 pol ip : wf_ip ip -> blockedIP pol (To16 ip) = blockedIP pol ip.
Proof. intros H. rewrite !blocked_ranges by (try apply To16_wf; done). by rewrite addr_of_To16. Qed.

(** ** Dialers and revocation

    [DialContext] and [DialTLSContext] run concurrently with each other and with
    [ApplyInternalAllowlist].  A dial passes through the points where it reads the
    policy or touches shared state: the check of the resolved addresses, the
    control callback that guards the opening of the socket, and the registration
    in [tracked]; [ApplyInternalAllowlist] stores the policy and then closes what
    it revokes.  Each is a step; policies and resolver answers between them are
    arbitrary. *)

Module Conn.

Inductive dial_phase :=
  | Resolved (ip : IP) (port : chars)      (* resolveAndCheck passed *)
  | Connected (sock : nat) (ip : IP).      (* the socket is open, trackConn is to come *)

Record state := mkState {
  pol : policy;                            (* internalAllowlist *)
  tracked : gmap nat (nat * IP);           (* connection id -> socket and address *)
  nextConnID : nat;
  sockets : gmap nat IP;                   (* open sockets and their remote address *)
  dials : gmap nat dial_phase;             (* running calls of the dialers *)
  audit : list AllowlistHit;
  unrevoked : bool;                        (* a stored policy whose closeRevokedConns is to come *)
  raced : gset nat                         (* sockets open but not yet tracked during a revocation *)
}.

Definition init : state := mkState None ∅ 0 ∅ ∅ [] false ∅.

Definition set_dials (st : state) (d : gmap nat dial_phase) : state :=
  mkState (pol st) (tracked st) (nextConnID st) (sockets st) d (audit st) (unrevoked st) (raced st).

(** The first half of a dial: the address is split, resolved and checked. *)
Definition begin_dial (st : state) (lk : resolver) (addr : chars) : option dial_phase :=
  match SplitHostPort addr with
  | None => None
  | Some (h, port) =>
      match resolveAndCheck (pol st) lk h with
      | inr (ip :: _) => Some (Resolved ip port)
      | _ => None
      end
  end.

(** Opening the socket under the control callback, with the address the dialer
    passes on; the connection reaches the address in that text. *)
Definition connect (st : state) (ip : IP) (port : chars) : control_err + IP :=
  let address := JoinHostPort (IPString ip) port in
  match ssrfControl (pol st) address with
  | Some e => inl e
  | None =>
      match SplitHostPort address with
      | Some (h, _) => match ParseIP h with Some remote => inr remote | None => inl (CtlNonIP h) end
      | None => inl CtlAddress
      end
  end.

Definition open_socket (st : state) (g sock : nat) (ip remote : IP) : state :=
  mkState (pol st) (tracked st) (nextConnID st) (<[sock := remote]> (sockets st))
    (<[g := Connected sock ip]> (dials st)) (audit st) (unrevoked st) (raced st).

(** [auditAllowlistedDial] and [trackConn] *)
Definition trackConn (st : state) (g sock : nat) (ip : IP) : state :=
  mkState (pol st) (<[S (nextConnID st) := (sock, ip)]> (tracked st)) (S (nextConnID st)) (sockets st)
    (delete g (dials st)) (audit st ++ auditAllowlistedDial (pol st) ip) (unrevoked st) (raced st).

(** [trackedConn.Close]: by the client, by a failed TLS handshake, by the pool. *)
Definition Close (st : state) (c sock : nat) : state :=
  mkState (pol st) (delete c (tracked st)) (nextConnID st) (delete sock (sockets st)) (dials st) (audit st)
    (unrevoked st) (raced st).

(** [ApplyInternalAllowlist]: the store *)
Definition store (st : state) (prefixes : list Prefix) : state :=
  mkState (publish prefixes) (tracked st) (nextConnID st) (sockets st) (dials st) (audit st) true (raced st).

Definition doomed (st : state) (c : nat * (nat * IP)) : Prop := blockedIP (pol st) (snd (snd c)) = true.
#[global] Instance doomed_dec st c : Decision (doomed st c).
Proof. unfold doomed. apply _. Defined.

Definition connected_socks (st : state) : gset nat :=
  list_to_set (omap (fun d => match snd d with Connected s _ => Some s | Resolved _ _ => None end) (map_to_list (dials st))).

(** [closeRevokedConns] *)
Definition closeRevokedConns (st : state) : state :=
  let gone := filter (doomed st) (tracked st) in
  let socks := list_to_set (map (fun c => fst (snd c)) (map_to_list gone)) : gset nat in
  mkState (pol st) (tracked st ∖ gone) (nextConnID st) (filter (fun s => fst s ∉ socks) (sockets st)) (dials st)
    (audit st) false (raced st ∪ connected_socks st).

Definition ApplyInternalAllowlist (st : state) (prefixes : list Prefix) : state :=
  closeRevokedConns (store st prefixes).

(** The steps of all goroutines.  [g] names a dial, [sock] a new socket. *)
Inductive step : state -> state -> Prop :=
  | SBegin st g lk addr ph : dials st !! g = None -> wf_resolver lk -> begin_dial st lk addr = Some ph ->
      step st (set_dials st (<[g := ph]> (dials st)))
  | SConnect st g sock ip port remote : dials st !! g = Some (Resolved ip port) -> sockets st !! sock = None ->
      sock ∉ raced st -> connect st ip port = inr remote -> step st (open_socket st g sock ip remote)
  | SFail st g ip port : dials st !! g = Some (Resolved ip port) -> step st (set_dials st (delete g (dials st)))
  | STrack st g sock ip : dials st !! g = Some (Connected sock ip) -> step st (trackConn st g sock ip)
  | SClose st c sock ip : tracked st !! c = Some (sock, ip) -> step st (Close st c sock)
  | SStore st prefixes : Forall safe_prefix prefixes -> step st (store st prefixes)
  | SRevoke st : step st (closeRevokedConns st).

Inductive reachable : state -> Prop :=
  | reach_init : reachable init
  | reach_step st st' : reachable st -> step st st' -> reachable st'.

(** *** The control callback guards the socket *)

Lemma connect_guarded st ip port remote :
  wf_ip ip -> port_text port -> connect st ip port = inr remote ->
  remote = To16 ip /\ blockedIP (pol st) remote = false.
Proof.
  intros Hip Hport. unfold connect, ssrfControl.
  rewrite split_join by (first [done | apply addr_chars_lack; [by apply IPString_chars|set_solver]]).
  rewrite ParseIP_IPString by done. destruct (blockedIP (pol st) (To16 ip)) eqn:E; [done|]. by intros [= <-].
Qed.

(** *** Invariant *)

(** Who holds a socket: a tracked connection or a dial that has not registered it yet. *)
Definition holder (st : state) (o : nat + nat) (sock : nat) (ip : IP) : Prop :=
  match o with
  | inl c => tracked st !! c = Some (sock, ip)
  | inr g => dials st !! g = Some (Connected sock ip)
  end.

Record Inv (st : state) : Prop := {
  i_safe : safe_policy (pol st);
  i_resolved : forall g ip port, dials st !! g = Some (Resolved ip port) -> wf_ip ip /\ port_text port;
  i_held : forall o sock ip, holder st o sock ip -> wf_ip ip /\ sockets st !! sock = Some (To16 ip);
  i_unique : forall o o' sock ip ip', holder st o sock ip -> holder st o' sock ip' -> o = o';
  i_owned : forall sock r, sockets st !! sock = Some r -> exists o ip, holder st o sock ip;
  i_ids : forall c x, tracked st !! c = Some x -> (c <= nextConnID st)%nat;
  i_policy : forall sock r, sockets st !! sock = Some r -> blockedIP (pol st) r = true ->
    unrevoked st = true \/ sock ∈ raced st
}.

Lemma inv_init : Inv init.
Proof.
  split; [constructor|..].
  - intros g ip port [=].
  - intros [c|g] sock ip [=].
  - intros [c|g] o' sock ip ip' [=].
  - intros sock r [=].
  - intros c x [=].
  - intros sock r [=].
Qed.

(** Starting and giving up a dial change no holder. *)
Lemma inv_set_dials st g ph :
  (forall sock ip, dials st !! g <> Some (Connected sock ip)) ->
  match ph with
  | Some (Resolved ip port) => wf_ip ip /\ port_text port
  | Some (Connected _ _) => False
  | None => True
  end ->
  Inv st -> Inv (set_dials st (partial_alter (fun _ => ph) g (dials st))).
Proof.
  intros Hg Hph [H1 H2 H3 H4 H5 H6 H7].
  assert (forall o sock ip, holder (set_dials st (partial_alter (fun _ => ph) g (dials st))) o sock ip <-> holder st o sock ip) as Hh.
  { intros [c|g'] sock ip; cbn; [done|]. destruct (decide (g = g')) as [<-|Hne].
    - rewrite lookup_partial_alter_eq. split; [intros ->; done|intros E; by apply Hg in E].
    - by rewrite lookup_partial_alter_ne. }
  split; cbn; try done.
  - intros g' ip port. destruct (decide (g = g')) as [<-|Hne]; [rewrite lookup_partial_alter_eq; by intros ->|].
    rewrite lookup_partial_alter_ne by done. apply H2.
  - intros o sock ip E%Hh. by apply (H3 o).
  - intros o o' sock ip ip' E%Hh E'%Hh. by eapply H4.
  - intros sock r E. destruct (H5 sock r E) as (o & ip & Ho). exists o, ip. by apply Hh.
Qed.

Lemma begin_dial_ok st lk addr ph :
  wf_resolver lk -> begin_dial st lk addr = Some ph ->
  exists ip port, ph = Resolved ip port /\ wf_ip ip /\ port_text port /\ blockedIP (pol st) ip = false.
Proof.
  intros Hlk. unfold begin_dial. destruct (SplitHostPort addr) as [[h port]|] eqn:Es; [|done].
  destruct (resolveAndCheck (pol st) lk h) as [e|[|ip ips]] eqn:Er; [done..|]. intros [= <-]. exists ip, port.
  apply SplitHostPort_port in Es. pose proof (resolve_wf _ _ _ _ Hlk Er) as Hw.
  apply resolve_checked in Er as [_ Hb]. inversion Hw; inversion Hb; subst. done.
Qed.

Lemma inv_open st g sock ip port remote :
  dials st !! g = Some (Resolved ip port) -> sockets st !! sock = None -> connect st ip port = inr remote ->
  Inv st -> Inv (open_socket st g sock ip remote).
Proof.
  intros Hg Hs Hc [H1 H2 H3 H4 H5 H6 H7]. destruct (H2 _ _ _ Hg) as [Hip Hport].
  destruct (connect_guarded st ip port remote Hip Hport Hc) as [-> Hb].
  assert (forall o k i, holder (open_socket st g sock ip (To16 ip)) o k i ->
    (o = inr g /\ k = sock /\ i = ip) \/ (holder st o k i /\ k <> sock)) as Hh.
  { intros [c|g'] k i; cbn; intros E.
    - right. split; [done|]. intros ->. destruct (H3 (inl c) sock i E) as [_ E']. congruence.
    - destruct (decide (g = g')) as [<-|Hne]; simplify_map_eq; [by left|]. right. split; [done|].
      intros ->. destruct (H3 (inr g') sock i E) as [_ E']. congruence. }
  split; cbn; try done.
  - intros g' i p. destruct (decide (g = g')) as [<-|Hne]; simplify_map_eq; [done|]. apply H2.
  - intros o k i [(-> & -> & ->)|[E Hne]]%Hh; [by simplify_map_eq|]. rewrite lookup_insert_ne by done. by apply (H3 o).
  - intros o o' k i i' E E'. apply Hh in E as [(-> & -> & ->)|[E Hne]], E' as [(-> & Hk & ->)|[E' Hne']];
      [done|done|done|by eapply H4].
  - intros k r E. destruct (decide (sock = k)) as [<-|Hne].
    + exists (inr g), ip. cbn. by simplify_map_eq.
    + rewrite lookup_insert_ne in E by done. destruct (H5 k r E) as ([c|g'] & i & Ho); [by exists (inl c), i|].
      exists (inr g'), i. cbn in Ho |- *. rewrite lookup_insert_ne; [done|]. congruence.
  - intros k r E Hbl. destruct (decide (sock = k)) as [<-|Hne]; simplify_map_eq; [congruence|]. by eapply H7.
Qed.

Lemma inv_track st g sock ip :
  dials st !! g = Some (Connected sock ip) -> Inv st -> Inv (trackConn st g sock ip).
Proof.
  intros Hg [H1 H2 H3 H4 H5 H6 H7]. set (n := S (nextConnID st)).
  assert (forall o k i, holder (trackConn st g sock ip) o k i ->
    (o = inl n /\ k = sock /\ i = ip) \/ (holder st o k i /\ o <> inl n /\ o <> inr g)) as Hh.
  { intros [c|g'] k i; cbn; fold n; intros E.
    - destruct (decide (n = c)) as [<-|Hne]; simplify_map_eq; [by left|]. right. split; [done|]. naive_solver.
    - apply lookup_delete_Some in E as [Hne E]. right. split; [done|]. naive_solver. }
  assert (forall k i, holder st (inr g) k i -> k = sock /\ i = ip) as Hgg by (cbn; intros; simplify_eq; done).
  split; cbn; try done.
  - intros g' i p [_ E]%lookup_delete_Some. by eapply H2.
  - intros o k i [(-> & -> & ->)|[E _]]%Hh; [exact (H3 (inr g) sock ip Hg)|by apply (H3 o)].
  - intros o o' k i i' E E'. apply Hh in E as [(-> & -> & ->)|(E & N1 & N2)], E' as [(-> & Hk & ->)|(E' & N1' & N2')].
    + done.
    + destruct N2'. symmetry. by apply (H4 (inr g) o' sock ip i').
    + subst k. destruct N2. symmetry. by apply (H4 (inr g) o sock ip i).
    + by eapply H4.
  - intros k r E. destruct (H5 k r E) as (o & i & Ho). destruct (decide (o = inr g)) as [->|Hne].
    + destruct (Hgg k i Ho) as [-> ->]. exists (inl n), ip. cbn. by simplify_map_eq.
    + exists o, i. destruct o as [c|g']; cbn in *.
      * rewrite lookup_insert_ne; [done|]. intros <-. apply H6 in Ho. subst n. lia.
      * rewrite lookup_delete_ne; [done|congruence].
  - intros c x E. destruct (decide (n = c)) as [<-|Hne]; simplify_map_eq; [done|]. apply H6 in E. lia.
Qed.

(** Removing holders together with their sockets. *)
Lemma inv_remove st st' :
  pol st' = pol st -> dials st' = dials st -> nextConnID st' = nextConnID st ->
  tracked st' ⊆ tracked st -> sockets st' ⊆ sockets st ->
  (forall c sock ip, tracked st !! c = Some (sock, ip) ->
     (sockets st' !! sock = None <-> tracked st' !! c = None)) ->
  (forall g sock ip, dials st !! g = Some (Connected sock ip) -> sockets st' !! sock = sockets st !! sock) ->
  (forall sock r, sockets st' !! sock = Some r -> blockedIP (pol st) r = true -> unrevoked st' = true \/ sock ∈ raced st') ->
  Inv st -> Inv st'.
Proof.
  intros Ep Ed En Ht Hs Htr Hd Hpol [H1 H2 H3 H4 H5 H6 H7].
  assert (forall o k i, holder st' o k i -> holder st o k i) as Hh.
  { intros [c|g] k i; cbn; [intros E; by eapply lookup_weaken|by rewrite Ed]. }
  split; rewrite ?Ep, ?Ed, ?En; try done.
  - intros o k i E. pose proof (Hh o k i E) as E0. destruct (H3 o k i E0) as [Hi Hk]. split; [done|].
    destruct o as [c|g]; cbn in E, E0; [|by rewrite (Hd _ _ _ E0)].
    destruct (sockets st' !! k) as [r|] eqn:Er; [|apply (Htr c k i E0) in Er; congruence].
    pose proof (lookup_weaken _ _ _ _ Er Hs). congruence.
  - intros o o' k i i' E E'. eapply H4; by apply Hh.
  - intros k r E. destruct (H5 k r (lookup_weaken _ _ _ _ E Hs)) as ([c|g] & i & Ho).
    + exists (inl c), i. cbn in *. destruct (tracked st' !! c) as [x|] eqn:Ec.
      * pose proof (lookup_weaken _ _ _ _ Ec Ht). congruence.
      * apply (Htr c k i Ho) in Ec. congruence.
    + exists (inr g), i. cbn in *. by rewrite Ed.
  - intros c x E. apply (H6 c x). by eapply lookup_weaken.
Qed.

Lemma inv_close st c sock ip :
  tracked st !! c = Some (sock, ip) -> Inv st -> Inv (Close st c sock).
Proof.
  intros Hc HI. pose proof HI as [H1 H2 H3 H4 H5 H6 H7].
  apply (inv_remove st); try done; cbn; [apply delete_subseteq|apply delete_subseteq|..].
  - intros c' k i E. rewrite !lookup_delete_None. destruct (H3 (inl c') k i E) as [_ Hk]. split.
    + intros [<-|?]; [|congruence]. left. by injection (H4 (inl c) (inl c') sock ip i Hc E).
    + intros [<-|?]; [|congruence]. left. congruence.
  - intros g k i E. destruct (decide (sock = k)) as [<-|Hne]; [|by rewrite lookup_delete_ne].
    by pose proof (H4 (inl c) (inr g) sock ip i Hc E).
  - intros k r [_ E]%lookup_delete_Some. by apply H7.
Qed.

Lemma inv_store st prefixes : Forall safe_prefix prefixes -> Inv st -> Inv (store st prefixes).
Proof.
  intros Hp [H1 H2 H3 H4 H5 H6 H7]. split; try done; [|by left].
  unfold safe_policy. cbn [pol store]. by rewrite publish_snapshot.
Qed.

(** What a revocation closes. *)
Lemma revoked_iff st sock :
  sock ∈ (list_to_set (map (fun c => fst (snd c)) (map_to_list (filter (doomed st) (tracked st)))) : gset nat)
  <-> exists c ip, tracked st !! c = Some (sock, ip) /\ blockedIP (pol st) ip = true.
Proof.
  rewrite elem_of_list_to_set, list_elem_of_fmap. split.
  - intros ([c [s ip]] & -> & [Hc Hd]%elem_of_map_to_list%map_lookup_filter_Some). eauto.
  - intros (c & ip & Hc & Hd). exists (c, (sock, ip)). split; [done|].
    apply elem_of_map_to_list, map_lookup_filter_Some. done.
Qed.

Lemma connected_iff st sock : sock ∈ connected_socks st <-> exists g ip, dials st !! g = Some (Connected sock ip).
Proof.
  unfold connected_socks. rewrite elem_of_list_to_set, list_elem_of_omap. split.
  - intros ([g [ip port|s ip]] & Hg%elem_of_map_to_list & [= <-]). eauto.
  - intros (g & ip & Hg). exists (g, Connected sock ip). split; [by apply elem_of_map_to_list|done].
Qed.

Lemma inv_revoke st : Inv st -> Inv (closeRevokedConns st).
Proof.
  intros HI. pose proof HI as [H1 H2 H3 H4 H5 H6 H7].
  apply (inv_remove st); try done; cbn.
  - apply map_subseteq_difference_l. done.
  - apply map_filter_subseteq.
  - intros c k i E. destruct (H3 (inl c) k i E) as [Hi Hk].
    rewrite map_lookup_filter_None, lookup_difference_None. split.
    + intros [?|Hn]; [congruence|]. specialize (Hn _ Hk). cbn in Hn. right. apply dec_stable, revoked_iff in Hn as (c' & i' & E' & Hb).
      injection (H4 (inl c) (inl c') k i i' E E') as <-. exists (k, i'). apply map_lookup_filter_Some. done.
    + intros [?|[x [Hx Hd]%map_lookup_filter_Some]]; [congruence|]. rewrite E in Hx. injection Hx as <-.
      right. intros r Hr Hn. apply Hn, revoked_iff. eauto.
  - intros g k i E. destruct (H3 (inr g) k i E) as [Hi Hk]. rewrite Hk. apply map_lookup_filter_Some. split; [done|].
    cbn. intros (c & i' & E' & _)%revoked_iff. by pose proof (H4 (inr g) (inl c) k i i' E E').
  - intros k r [Hk Hn]%map_lookup_filter_Some Hb. cbn in Hn. right. apply elem_of_union. right. apply connected_iff.
    destruct (H5 k r Hk) as ([c|g] & i & Ho); [|eauto]. destruct Hn. apply revoked_iff. exists c, i. split; [done|].
    destruct (H3 (inl c) k i Ho) as [Hi Hk']. rewrite Hk in Hk'. injection Hk' as ->. by rewrite blocked_To16 in Hb.
Qed.

Lemma inv_step st st' : step st st' -> Inv st -> Inv st'.
Proof.
  destruct 1 as [st g lk addr ph Hg Hlk Hb|st g sock ip port remote Hg Hs Hr Hc|st g ip port Hg|st g sock ip Hg
    |st c sock ip Hc|st prefixes Hp|st]; intros HI.
  - destruct (begin_dial_ok st lk addr ph Hlk Hb) as (ip & port & -> & ? & ? & _).
    apply (inv_set_dials st g (Some (Resolved ip port))); [by rewrite Hg|done|done].
  - by eapply inv_open.
  - apply (inv_set_dials st g None); [by rewrite Hg|done|done].
  - by apply inv_track.
  - by eapply inv_close.
  - by apply inv_store.
  - by apply inv_revoke.
Qed.

Lemma reachable_inv st : reachable st -> Inv st.
Proof. induction 1; [apply inv_init|by eapply inv_step]. Qed.

(** Sockets appear only under the control callback. *)
Lemma step_sockets st st' sock r :
  Inv st -> step st st' -> sockets st' !! sock = Some r ->
  sockets st !! sock = Some r \/ (sockets st !! sock = None /\ pol st' = pol st /\ blockedIP (pol st) r = false).
Proof.
  intros [H1 H2 H3 H4 H5 H6 H7]. destruct 1 as [st g lk addr ph|st g k ip port remote Hg Hs _ Hc| | |st c k ip|st|st]; cbn;
    intros E; auto.
  - destruct (decide (k = sock)) as [<-|Hne]; [|rewrite lookup_insert_ne in E by done; auto].
    rewrite lookup_insert_eq in E. injection E as <-. right. destruct (H2 _ _ _ Hg) as [Hip Hport].
    by destruct (connect_guarded st ip port remote Hip Hport Hc).
  - apply lookup_delete_Some in E as [_ E]. auto.
  - apply map_lookup_filter_Some in E as [E _]. auto.
Qed.

(** a connection is opened only to an address that the policy in force at that
    moment admits, whatever the resolver answered before. *)
Theorem opened_socket_is_allowed st st' sock r :
  reachable st -> step st st' -> sockets st !! sock = None -> sockets st' !! sock = Some r ->
  blockedIP (pol st) r = false /\ pol st' = pol st.
Proof.
  intros Hr%reachable_inv Hs Hn E. destruct (step_sockets st st' sock r Hr Hs E) as [E'|(_ & ? & ?)]; [congruence|done].
Qed.

Lemma blocked_red_line pol ip : wf_ip ip -> blockedIP pol ip = false -> in_ranges red_line (addr_of ip) = false.
Proof. intros Hip. rewrite blocked_ranges by done. by intros [? _]%orb_false_iff. Qed.

Lemma socket_wf st sock r : Inv st -> sockets st !! sock = Some r -> wf_ip r.
Proof.
  intros HI E. destruct (i_owned st HI sock r E) as (o & ip & Ho). destruct (i_held st HI o sock ip Ho) as [Hi Hk].
  rewrite E in Hk. injection Hk as ->. by apply To16_wf.
Qed.

(** C5: no connection of the gateway ever reaches loopback, link-local, metadata,
    unspecified or multicast addresses, under no sequence of policies, resolver
    answers and interleavings. *)
Theorem no_red_line_connection st sock r :
  reachable st -> sockets st !! sock = Some r -> in_ranges red_line (addr_of r) = false.
Proof.
  intros Hr. revert sock r. induction Hr as [|st st' Hr IH Hs]; intros sock r E; [done|].
  pose proof (reachable_inv st Hr) as HI.
  destruct (step_sockets st st' sock r HI Hs E) as [E'|(_ & _ & Hb)]; [by eapply IH|].
  apply (blocked_red_line (pol st)); [|done]. eapply socket_wf; [|exact E]. by eapply inv_step.
Qed.

(** after [ApplyInternalAllowlist], every open connection is one the new policy
    admits, except those whose dial had opened the socket and not yet registered it. *)
Theorem live_connections_obey_policy st sock r :
  reachable st -> unrevoked st = false -> sockets st !! sock = Some r -> sock ∉ raced st ->
  blockedIP (pol st) r = false.
Proof.
  intros HI%reachable_inv Hu E Hn. destruct (blockedIP (pol st) r) eqn:Eb; [|done].
  destruct (i_policy st HI sock r E Eb) as [?|?]; [congruence|done].
Qed.

(** A run: the allowlist admits 10.0.0.0/8, a dial to 10.0.0.1 opens its socket. *)
Definition ten : list Prefix := [MustParsePrefix "10.0.0.0/8"].
Definition no_dns : resolver := fun _ => None.
Definition ip10 : IP := To16 [10; 0; 0; 1].

Definition run1 : state := closeRevokedConns (store init ten).
Definition run2 : state := set_dials run1 (<[0%nat := Resolved ip10 (chars_of "443")]> (dials run1)).
Definition run3 : state := open_socket run2 0 7 ip10 ip10.

Lemma ten_safe : Forall safe_prefix ten.
Proof. apply (validated_safe ["10.0.0.0/8"]). vm_compute. reflexivity. Qed.

Lemma run2_reachable : reachable run2.
Proof.
  eapply (reach_step run1); [|eapply (SBegin run1 0 no_dns (chars_of "10.0.0.1:443")); [reflexivity|done|vm_compute; reflexivity]].
  eapply reach_step; [|apply SRevoke]. eapply reach_step; [apply reach_init|]. apply SStore, ten_safe.
Qed.

Lemma run3_step : step run2 run3.
Proof.
  eapply SConnect; [reflexivity|reflexivity| |vm_compute; reflexivity].
  intros H. vm_compute in H. discriminate.
Qed.

Lemma run3_reachable : reachable run3.
Proof. exact (reach_step _ _ run2_reachable run3_step). Qed.

(** A policy change between the opening of a socket and its registration misses
    the connection: it is open, registered and blocked after the revocation. *)
Theorem late_track_escapes_revocation :
  let st := trackConn (ApplyInternalAllowlist run3 []) 0 7 ip10 in
  reachable st /\ unrevoked st = false /\ tracked st !! 1%nat = Some (7%nat, ip10) /\
  sockets st !! 7%nat = Some ip10 /\ blockedIP (pol st) ip10 = true.
Proof.
  split_and!; try (vm_compute; reflexivity).
  eapply reach_step; [|apply STrack; vm_compute; reflexivity]. eapply reach_step; [|apply SRevoke].
  eapply reach_step; [exact run3_reachable|]. apply SStore. constructor.
Qed.

Lemma opened_socket_is_allowed_witness : blockedIP (pol run2) ip10 = false.
Proof.
  apply (opened_socket_is_allowed run2 run3 7 ip10); [exact run2_reachable|exact run3_step|reflexivity|reflexivity].
Defined.

Lemma no_red_line_connection_witness : in_ranges red_line (addr_of ip10) = false.
Proof. apply (no_red_line_connection run3 7 ip10); [exact run3_reachable|reflexivity]. Defined.

Lemma live_connections_obey_policy_witness : blockedIP (pol run3) ip10 = false.
Proof.
  apply (live_connections_obey_policy run3 7 ip10); [exact run3_reachable|reflexivity|reflexivity|].
  intros H. vm_compute in H. discriminate.
Defined.

End Conn.

(** ** Admin URLs *)

Lemma hit_of_none pol ip :
  wf_ip ip -> blockedIP pol ip = false -> hit_of pol ip = None <-> in_ranges private_ranges (addr_of ip) = false.
Proof.
  intros Hip. unfold blockedIP, hit_of. destruct (isHardDeniedIP ip) eqn:Eh; [done|].
  rewrite (restricted_private ip Hip Eh). destruct (in_ranges private_ranges (addr_of ip)); [|done]. cbn [andb].
  unfold AllowedInternal. by destruct (allowlistHitFor pol ip).
Qed.

(** an admitted URL has an http scheme and a host all of whose addresses the
    policy admits, and the admission is audited exactly when one of them is private. *)
Theorem admitted_url_is_safe urlParse lk pol rawURL hit :
  wf_resolver lk -> ValidateURLSafetyDetail urlParse lk pol rawURL = inr hit ->
  exists u ips, urlParse (TrimSpace rawURL) = Some u /\ Scheme u ∈ ["http"; "https"] /\
    resolveAndCheck pol lk (Hostname u) = inr ips /\ ips <> [] /\ Forall (fun ip => blockedIP pol ip = false) ips /\
    (hit = None <-> Forall (fun ip => in_ranges private_ranges (addr_of ip) = false) ips).
Proof.
  intros Hlk. unfold ValidateURLSafetyDetail. destruct (urlParse (TrimSpace rawURL)) as [u|]; [|done].
  destruct (negb _ && negb _) eqn:Es; [done|]. destruct (Hostname u) as [|c h] eqn:Eh; [done|].
  destruct (resolveAndCheck pol lk (c :: h)) as [e|ips] eqn:Er; [done|]. intros [= <-]. exists u, ips.
  pose proof (resolve_wf _ _ _ _ Hlk Er) as Hw. pose proof (resolve_checked _ _ _ _ Er) as [Hne Hb].
  split_and!; [done| |by rewrite Eh|done|done|].
  - rewrite andb_false_iff, !negb_false_iff, !String.eqb_eq in Es. rewrite !elem_of_cons. tauto.
  - clear Er Hne. induction ips as [|ip ips IH]; [by rewrite Forall_nil|]. cbn [first_hit].
    inversion Hw as [|? ? Hw1 Hw2]; inversion Hb as [|? ? Hb1 Hb2]; subst.
    rewrite Forall_cons, <- IH by done. pose proof (hit_of_none pol ip Hw1 Hb1) as Hh.
    destruct (hit_of pol ip); [|tauto]. split; [done|]. intros [H _]. by apply Hh in H.
Qed.

Lemma admitted_url_is_safe_witness :
  let up := fun _ => Some (mkURL "https" (chars_of "10.1.2.3")) in
  ValidateURLSafetyDetail up Conn.no_dns (publish Conn.ten) "https://10.1.2.3" = inr (Some (mkHit (chars_of "10.1.2.3") "10.0.0.0/8")) /\
  exists ips : list IP, ips <> [].
Proof.
  set (up := fun _ => Some (mkURL "https" (chars_of "10.1.2.3"))). split; [vm_compute; reflexivity|].
  destruct (admitted_url_is_safe up Conn.no_dns (publish Conn.ten) "https://10.1.2.3"
    (Some (mkHit (chars_of "10.1.2.3") "10.0.0.0/8"))) as (u & ips & _ & _ & _ & H & _); [done|vm_compute; reflexivity|by exists ips].
Defined.
