(* ===== verification/SsrfAllowlist.v ===== *)
(** * The hot-reloadable SSRF allowlist

    [service/ssrf_allowlist_service.go]: the database row that overrides the static
    configuration, its compare-and-swap writes with their audit rows, and the
    publication of the policy into the memory of every instance.  Versions order
    everything: the system below interleaves the reads, transactions and
    publications of any number of instances, with failing reads and crashes. *)

From S2P Require Import Prelude Json Netip Ssrf.

(** ** Data *)

Inductive source := SourceDB | SourceEnv | SourceYAML | SourceStrict.
#[global] Instance source_eq_dec : EqDecision source.
Proof. solve_decision. Defined.

Record Actor := mkActor { UserID : Z; Username : string; ActorIP : string; UserAgent : string }.

(** [model.SsrfAllowlistConfig]; the text column holds a JSON document. *)
Record Row := mkRow {
  CIDRsJSON : json;
  Version : Z;
  Removed : bool;
  UpdatedBy : Actor;
  UpdatedAt : Z
}.

Inductive audit_action := UpdateAllowlist | ResetAllowlist.

Record AuditLog := mkAudit {
  aActor : Actor;
  aAction : audit_action;
  aFrom : list string;
  aTo : option (list string);
  aVersion : Z;
  aAt : Z
}.

Record DB := mkDB { row : option Row; auditlog : list AuditLog }.

(** [SsrfPublishedState]; the reason of a degradation is its class. *)
Inductive degraded_reason := ColdRead | ColdInvalid | RefreshRead | RefreshUnreadable | RefreshInvalid.

Record PublishedState := mkPublished {
  Source : source;
  StateVersion : Z;
  Degraded : option degraded_reason
}.

(** The service together with the policy it publishes to. *)
Record Service := mkService {
  staticCIDRs : list string;
  staticSource : source;
  lastAppliedDBVersion : Z;
  publishedAny : bool;
  published : PublishedState;
  memory : policy
}.

Definition NewSsrfAllowlistService (staticCIDRs : list string) (staticFromEnv : bool) : Service :=
  let src := match staticCIDRs with
             | [] => SourceStrict
             | _ => if staticFromEnv then SourceEnv else SourceYAML
             end in
  mkService staticCIDRs src 0 false (mkPublished SourceStrict 0 None) None.

(** [readRow]: absence and failure are distinguished. *)
Inductive read := ReadErr | NoRow | Found (r : Row).

Definition readRow (db : DB) : read := match row db with Some r => Found r | None => NoRow end.

(** [json.Unmarshal] into a slice of strings *)
Definition parseCIDRsJSON (j : json) : option (list string) :=
  match j with JNull => Some [] | JArr l => mapM as_string l | _ => None end.

(** ** Guarded publication *)

Definition publishDBGuarded (s : Service) (cidrs : list string) (version : Z) : Service * bool :=
  match ValidateInternalAllowlist cidrs with
  | inl _ => (s, false)
  | inr prefixes =>
      if publishedAny s && (version <=? lastAppliedDBVersion s) then (s, false)
      else (mkService (staticCIDRs s) (staticSource s) version true (mkPublished SourceDB version None) (publish prefixes), true)
  end.

Definition static_policy (s : Service) : policy :=
  match ValidateInternalAllowlist (staticCIDRs s) with inl _ => None | inr prefixes => publish prefixes end.

Definition publishStaticGuarded (s : Service) (observedVersion : Z) : Service * bool :=
  if publishedAny s && (observedVersion <=? lastAppliedDBVersion s) then (s, false)
  else (mkService (staticCIDRs s) (staticSource s) observedVersion true
          (mkPublished (staticSource s) observedVersion None) (static_policy s), true).

Definition set_published (s : Service) (p : PublishedState) : Service :=
  mkService (staticCIDRs s) (staticSource s) (lastAppliedDBVersion s) (publishedAny s) p (memory s).

Definition setDegraded (s : Service) (reason : degraded_reason) : Service :=
  set_published s (mkPublished (Source (published s)) (StateVersion (published s)) (Some reason)).

Definition clearDegraded (s : Service) : Service :=
  set_published s (mkPublished (Source (published s)) (StateVersion (published s)) None).

(** The strict policy of a failed start; the revision does not advance. *)
Definition strict_start (s : Service) (reason : degraded_reason) : Service :=
  mkService (staticCIDRs s) (staticSource s) (lastAppliedDBVersion s) (publishedAny s)
    (mkPublished SourceStrict 0 (Some reason)) None.

Definition LoadColdStart (s : Service) (r : read) : Service :=
  match r with
  | ReadErr => strict_start s ColdRead
  | Found row =>
      if Removed row then fst (publishStaticGuarded s (Version row))
      else
        match parseCIDRsJSON (CIDRsJSON row) with
        | None => strict_start s ColdInvalid
        | Some cidrs =>
            match ValidateInternalAllowlist cidrs with
            | inl _ => strict_start s ColdInvalid
            | inr _ => fst (publishDBGuarded s cidrs (Version row))
            end
        end
  | NoRow => fst (publishStaticGuarded s 0)
  end.

Definition Refresh (s : Service) (r : read) : Service * option degraded_reason :=
  match r with
  | ReadErr => (setDegraded s RefreshRead, Some RefreshRead)
  | Found row =>
      if Removed row then (fst (publishStaticGuarded (clearDegraded s) (Version row)), None)
      else
        match parseCIDRsJSON (CIDRsJSON row) with
        | None => (setDegraded s RefreshUnreadable, Some RefreshUnreadable)
        | Some cidrs =>
            match ValidateInternalAllowlist cidrs with
            | inl _ => (setDegraded s RefreshInvalid, Some RefreshInvalid)
            | inr _ => (fst (publishDBGuarded (clearDegraded s) cidrs (Version row)), None)
            end
        end
  | NoRow => (fst (publishStaticGuarded (clearDegraded s) 0), None)
  end.

(** The subscriber of [Start]: whether a broadcast of version [v] needs a refresh;
    [None] is a payload that is no number. *)
Definition on_message (s : Service) (v : option Z) : bool :=
  match v with
  | Some v => negb ((0 <? v) && bool_decide (Source (published s) = SourceDB) && (v <=? StateVersion (published s)))
  | None => true
  end.

(** ** Writes *)

Inductive tx_err :=
  | EInvalid (e : allow_err)
  | EConflict (current : option (Z * list string))
  | EInternal.

Definition stored_cidrs (r : Row) : list string := default [] (parseCIDRsJSON (CIDRsJSON r)).

Definition conflictErr (r : Row) : tx_err :=
  EConflict (Some (Version r, if Removed r then [] else stored_cidrs r)).

Definition canonical_json (canonical : list string) : json := JArr (map JStr canonical).

(** The row update [WHERE id = 1 AND version = expected]: [None] when no row matches. *)
Definition update_row (db : DB) (expected : Z) (new : Row) : option DB :=
  match row db with
  | Some r => if Version r =? expected then Some (mkDB (Some new) (auditlog db)) else None
  | None => None
  end.

Definition add_audit (db : DB) (a : AuditLog) : DB := mkDB (row db) (auditlog db ++ [a]).

(** [applyTx], whose first statement read [seen] and whose remaining statements run
    on [db]; [broken] is a failure of one of them, which rolls all of them back. *)
Definition applyTx (seen : read) (db : DB) (canonical : list string) (expected : Z) (actor : Actor) (now : Z) (broken : bool)
    : tx_err + (DB * Z) :=
  match seen with
  | ReadErr => inl EInternal
  | Found r =>
      if negb (Version r =? expected) then inl (conflictErr r)
      else if broken then inl EInternal
      else
        let v := Version r + 1 in
        match update_row db expected (mkRow (canonical_json canonical) v false actor now) with
        | None => inl (conflictErr r)
        | Some db' => inr (add_audit db' (mkAudit actor UpdateAllowlist (stored_cidrs r) (Some canonical) v now), v)
        end
  | NoRow =>
      if negb (expected =? 0) then inl (EConflict (Some (0, [])))
      else if broken then inl EInternal
      else match row db with
           | Some _ => inl EInternal
           | None =>
               inr (mkDB (Some (mkRow (canonical_json canonical) 1 false actor now))
                      (auditlog db ++ [mkAudit actor UpdateAllowlist [] (Some canonical) 1 now]), 1)
           end
  end.

(** The transaction of [Reset]: [None] is the idempotent success that writes nothing. *)
Definition resetTx (seen : read) (db : DB) (expected : Z) (actor : Actor) (now : Z) (broken : bool)
    : tx_err + (DB * option Z) :=
  match seen with
  | ReadErr => inl EInternal
  | NoRow => if expected =? 0 then inr (db, None) else inl (EConflict (Some (0, [])))
  | Found r =>
      if negb (Version r =? expected) then inl (conflictErr r)
      else if Removed r then inr (db, None)
      else if broken then inl EInternal
      else
        let v := Version r + 1 in
        match update_row db expected (mkRow (JArr []) v true actor now) with
        | None => inl (conflictErr r)
        | Some db' => inr (add_audit db' (mkAudit actor ResetAllowlist (stored_cidrs r) None v now), Some v)
        end
  end.

Inductive broadcast_kind := BroadcastRedis | BroadcastFailed | BroadcastTTLOnly.

Record ApplyResult := mkResult {
  rVersion : Z;
  EffectiveCIDRs : list string;
  rSource : source;
  Broadcast : broadcast_kind
}.

(** [broadcast]: no client, or whether the publish command succeeded. *)
Definition broadcast (rdb : option bool) : broadcast_kind :=
  match rdb with Some true => BroadcastRedis | Some false => BroadcastFailed | None => BroadcastTTLOnly end.

(** [Apply] from validation to commit, then the publication. *)
Definition Apply_commit (seen : read) (db : DB) (cidrs : list string) (expected : Z) (actor : Actor) (now : Z) (broken : bool)
    : tx_err + (DB * Z * list string) :=
  match ValidateInternalAllowlist cidrs with
  | inl e => inl (EInvalid e)
  | inr prefixes =>
      let canonical := map PrefixString prefixes in
      match applyTx seen db canonical expected actor now broken with
      | inl e => inl e
      | inr (db', v) => inr (db', v, canonical)
      end
  end.

Definition Apply_publish (s : Service) (rdb : option bool) (v : Z) (canonical : list string) : Service * ApplyResult :=
  (fst (publishDBGuarded s canonical v), mkResult v canonical SourceDB (broadcast rdb)).

Definition Reset_publish (s : Service) (rdb : option bool) (expected : Z) (v : option Z) : Service * ApplyResult :=
  match v with
  | None =>
      (s, mkResult expected (map PrefixString (InternalAllowlistSnapshot (memory s))) (Source (published s))
          BroadcastTTLOnly)
  | Some v => (fst (publishStaticGuarded s v), mkResult v (staticCIDRs s) (staticSource s) (broadcast rdb))
  end.

(** [Status] *)
Definition ssrfAllowlistRefreshTTL : Z := 30.

Record Status := mkStatus {
  stEffective : list string;
  stSource : source;
  stVersion : Z;
  OverrideActive : bool;
  stDegraded : option (option degraded_reason);  (* [Some None] is a failed status read *)
  FallbackCIDRs : list string;
  FallbackSource : source;
  ConsistencyBroadcast : broadcast_kind;
  WindowSeconds : Z
}.

Definition GetStatus (s : Service) (redis : bool) (r : read) : Status :=
  mkStatus (map PrefixString (InternalAllowlistSnapshot (memory s))) (Source (published s))
    (match r with Found r => Version r | _ => 0 end)
    (match r with Found r => negb (Removed r) | _ => false end)
    (match Degraded (published s), r with Some d, _ => Some (Some d) | None, ReadErr => Some None | None, _ => None end)
    (staticCIDRs s) (staticSource s) (if redis then BroadcastRedis else BroadcastTTLOnly) ssrfAllowlistRefreshTTL.

(** ** The system of instances *)

(** A write request. *)
Inductive request := ReqApply (cidrs : list string) | ReqReset.

(** Calls in progress: a refresh that has read, a transaction that has read, and a
    committed write that is still to be published. *)
Inductive job :=
  | JRefresh (i : nat) (seen : read)
  | JTx (i : nat) (q : request) (expected : Z) (actor : Actor) (seen : read)
  | JPublish (i : nat) (v : Z) (canonical : option (list string)).   (* [None]: a tombstone *)

Definition job_instance (j : job) : nat :=
  match j with JRefresh i _ | JTx i _ _ _ _ | JPublish i _ _ => i end.

Record System := mkSystem {
  db : DB;
  history : gmap Z Row;            (* every row that was ever committed, by version *)
  instances : gmap nat Service;
  jobs : gmap nat job
}.

Definition start (r : option Row) : System :=
  mkSystem (mkDB r []) (match r with Some r => {[ Version r := r ]} | None => ∅ end) ∅ ∅.

(** What a statement can read: the row, or an error. *)
Definition may_read (sys : System) (r : read) : Prop := r = ReadErr \/ r = readRow (db sys).

Definition record_row (h : gmap Z Row) (d : DB) : gmap Z Row :=
  match row d with Some r => <[Version r := r]> h | None => h end.

Definition commit (seen : read) (d : DB) (q : request) (expected : Z) (actor : Actor) (now : Z) (broken : bool)
    : tx_err + (DB * option (Z * option (list string))) :=
  match q with
  | ReqApply cidrs =>
      match Apply_commit seen d cidrs expected actor now broken with
      | inl e => inl e
      | inr (d', v, canonical) => inr (d', Some (v, Some canonical))
      end
  | ReqReset =>
      match resetTx seen d expected actor now broken with
      | inl e => inl e
      | inr (d', Some v) => inr (d', Some (v, None))
      | inr (d', None) => inr (d', None)
      end
  end.

Definition publish_job (s : Service) (v : Z) (canonical : option (list string)) : Service :=
  match canonical with
  | Some c => fst (Apply_publish s None v c)
  | None => fst (Reset_publish s None v (Some v))
  end.

Inductive step : System -> System -> Prop :=
  | SRead sys g i seen : jobs sys !! g = None -> is_Some (instances sys !! i) -> may_read sys seen ->
      step sys (mkSystem (db sys) (history sys) (instances sys) (<[g := JRefresh i seen]> (jobs sys)))
  | SRefresh sys g i seen s : jobs sys !! g = Some (JRefresh i seen) -> instances sys !! i = Some s ->
      step sys (mkSystem (db sys) (history sys) (<[i := fst (Refresh s seen)]> (instances sys)) (delete g (jobs sys)))
  | SBegin sys g i q expected actor seen : jobs sys !! g = None -> is_Some (instances sys !! i) -> may_read sys seen ->
      step sys (mkSystem (db sys) (history sys) (instances sys) (<[g := JTx i q expected actor seen]> (jobs sys)))
  | SCommit sys g i q expected actor seen now d v c : jobs sys !! g = Some (JTx i q expected actor seen) ->
      commit seen (db sys) q expected actor now false = inr (d, Some (v, c)) ->
      step sys (mkSystem d (record_row (history sys) d) (instances sys) (<[g := JPublish i v c]> (jobs sys)))
  | SRefuse sys g i q expected actor seen now broken e : jobs sys !! g = Some (JTx i q expected actor seen) ->
      commit seen (db sys) q expected actor now broken = inl e ->
      step sys (mkSystem (db sys) (history sys) (instances sys) (delete g (jobs sys)))
  | SNoop sys g i q expected actor seen now d : jobs sys !! g = Some (JTx i q expected actor seen) ->
      commit seen (db sys) q expected actor now false = inr (d, None) ->
      step sys (mkSystem d (history sys) (instances sys) (delete g (jobs sys)))
  | SPublish sys g i v c s : jobs sys !! g = Some (JPublish i v c) -> instances sys !! i = Some s ->
      step sys (mkSystem (db sys) (history sys) (<[i := publish_job s v c]> (instances sys)) (delete g (jobs sys)))
  | SRestart sys i cidrs env seen : may_read sys seen ->
      step sys (mkSystem (db sys) (history sys)
        (<[i := LoadColdStart (NewSsrfAllowlistService cidrs env) seen]> (instances sys))
        (filter (fun j => job_instance (snd j) <> i) (jobs sys))).

Inductive reachable (r0 : option Row) : System -> Prop :=
  | reach_start : reachable r0 (start r0)
  | reach_step sys sys' : reachable r0 sys -> step sys sys' -> reachable r0 sys'.

(** ** The policy of a version *)

(** The policy that a stored row stands for on an instance; [None] for a row that
    does not hold a valid list. *)
Definition row_policy (s : Service) (r : Row) : option policy :=
  if Removed r then Some (static_policy s)
  else match parseCIDRsJSON (CIDRsJSON r) with
       | None => None
       | Some cidrs => match ValidateInternalAllowlist cidrs with inl _ => None | inr ps => Some (publish ps) end
       end.

(** The policy of version [v] in a history; version 0 is the static configuration. *)
Definition version_policy (h : gmap Z Row) (s : Service) (v : Z) (p : policy) : Prop :=
  (v = 0 /\ p = static_policy s) \/ (exists r, h !! v = Some r /\ row_policy s r = Some p).

(** An instance holds the policy of the version it last applied, or the strict one. *)
Definition consistent (h : gmap Z Row) (s : Service) : Prop :=
  (if publishedAny s then version_policy h s (lastAppliedDBVersion s) (memory s) else memory s = None)
  /\ 0 <= lastAppliedDBVersion s
  /\ (Source (published s) = SourceDB -> StateVersion (published s) = lastAppliedDBVersion s /\ publishedAny s = true).

Definition seen_ok (h : gmap Z Row) (r : read) : Prop :=
  match r with Found r => h !! Version r = Some r | _ => True end.

Definition job_ok (h : gmap Z Row) (j : job) : Prop :=
  match j with
  | JRefresh _ seen | JTx _ _ _ _ seen => seen_ok h seen
  | JPublish _ v (Some c) => exists r ps, h !! v = Some r /\ Removed r = false /\ CIDRsJSON r = canonical_json c
      /\ c = map PrefixString ps /\ Forall valid_prefix ps
  | JPublish _ v None => exists r, h !! v = Some r /\ Removed r = true
  end.

Record Inv (sys : System) : Prop := {
  i_row : match row (db sys) with
          | Some r => history sys !! Version r = Some r /\ 1 <= Version r
          | None => history sys = ∅
          end;
  i_history : forall v r, history sys !! v = Some r -> Version r = v /\ 1 <= v /\
    exists r', row (db sys) = Some r' /\ v <= Version r';
  i_jobs : forall g j, jobs sys !! g = Some j -> job_ok (history sys) j;
  i_instances : forall i s, instances sys !! i = Some s -> consistent (history sys) s
}.

(** ** Writes are compare-and-swap *)

Definition db_version (d : DB) : Z := match row d with Some r => Version r | None => 0 end.

(** What a committed write did to the database. *)
Definition committed (d d' : DB) (seen : read) (expected v : Z) (c : option (list string)) : Prop :=
  db_version d = expected /\ v = expected + 1 /\
  (exists r', row d' = Some r' /\ Version r' = v /\ Removed r' = bool_decide (c = None) /\
     CIDRsJSON r' = canonical_json (default [] c)) /\
  (exists a, auditlog d' = auditlog d ++ [a] /\ aVersion a = v /\ aTo a = c /\
     aFrom a = match seen with Found r => stored_cidrs r | _ => [] end) /\
  match seen with Found r => Version r = expected /\ is_Some (row d) | NoRow => row d = None /\ expected = 0 | ReadErr => False end.

Lemma update_row_some d expected new d' :
  update_row d expected new = Some d' -> exists r, row d = Some r /\ Version r = expected /\ d' = mkDB (Some new) (auditlog d).
Proof. unfold update_row. destruct (row d) as [r|]; [|done]. destruct (Version r =? expected) eqn:E; [|done]. intros [= <-]. exists r. split_and!; [done|lia|done]. Qed.

Lemma applyTx_committed seen d canonical expected actor now broken d' v :
  applyTx seen d canonical expected actor now broken = inr (d', v) -> committed d d' seen expected v (Some canonical).
Proof.
  unfold applyTx. destruct seen as [| |r]; [done| |].
  - destruct (expected =? 0) eqn:E; [|done]. apply Z.eqb_eq in E as ->. destruct broken; [done|]. cbn [negb].
    destruct (row d) eqn:Er; [done|]. intros [= <- <-]. unfold committed, db_version. rewrite Er. split_and!; try done.
    + eexists. split; [reflexivity|done].
    + eexists. split; [reflexivity|done].
  - destruct (Version r =? expected) eqn:E; [|done]. apply Z.eqb_eq in E. destruct broken; [done|]. cbn [negb].
    destruct (update_row _ _ _) as [d1|] eqn:Eu; [|done]. intros [= <- <-].
    apply update_row_some in Eu as (r2 & Er & Ev & ->). unfold committed, db_version. rewrite Er. cbn [add_audit row auditlog].
    split_and!; try done; try lia.
    + eexists. split; [reflexivity|cbn]. split_and!; [lia|done|done].
    + eexists. split; [reflexivity|cbn]. split_and!; [lia|done|done].
Qed.

Lemma resetTx_committed seen d expected actor now broken d' v :
  resetTx seen d expected actor now broken = inr (d', Some v) -> committed d d' seen expected v None.
Proof.
  unfold resetTx. destruct seen as [| |r]; [done| |].
  - destruct (expected =? 0); done.
  - destruct (Version r =? expected) eqn:E; [|done]. apply Z.eqb_eq in E. destruct (Removed r); [done|]. destruct broken; [done|].
    cbn [negb]. destruct (update_row _ _ _) as [d1|] eqn:Eu; [|done]. intros [= <- <-].
    apply update_row_some in Eu as (r2 & Er & Ev & ->). unfold committed, db_version. rewrite Er. cbn [add_audit row auditlog].
    split_and!; try done; try lia.
    + eexists. split; [reflexivity|cbn]. split_and!; [lia|done|done].
    + eexists. split; [reflexivity|cbn]. split_and!; [lia|done|done].
Qed.

Lemma commit_committed seen d q expected actor now broken d' v c :
  commit seen d q expected actor now broken = inr (d', Some (v, c)) ->
  committed d d' seen expected v c /\ (forall l, c = Some l -> exists ps, l = map PrefixString ps /\ Forall valid_prefix ps).
Proof.
  unfold commit, Apply_commit. destruct q as [cidrs|].
  - destruct (ValidateInternalAllowlist cidrs) as [e|ps] eqn:Ev; [done|].
    destruct (applyTx _ _ _ _ _ _ _) as [e|[d1 v1]] eqn:Ea; [done|]. intros [= <- <- <-].
    split; [by eapply applyTx_committed|]. intros l [= <-]. exists ps. split; [done|by eapply validated_valid].
  - destruct (resetTx _ _ _ _ _ _) as [e|[d1 [v1|]]] eqn:Er; [done| |done]. intros [= <- <- <-].
    split; [by eapply resetTx_committed|done].
Qed.

Lemma commit_noop seen d q expected actor now broken d' :
  commit seen d q expected actor now broken = inr (d', None) -> d' = d.
Proof.
  unfold commit, resetTx. destruct q as [cidrs|]; [by repeat case_match|]. intros H. repeat case_match; simplify_eq; done.
Qed.

(** ** Publication *)

Lemma row_policy_ext s s' r : staticCIDRs s' = staticCIDRs s -> row_policy s' r = row_policy s r.
Proof. intros E. unfold row_policy, static_policy. by rewrite E. Qed.

Lemma version_policy_ext h s s' v p : staticCIDRs s' = staticCIDRs s -> version_policy h s' v p <-> version_policy h s v p.
Proof.
  intros E. unfold version_policy. assert (static_policy s' = static_policy s) as -> by (unfold static_policy; by rewrite E).
  by setoid_rewrite (row_policy_ext s s' _ E).
Qed.

Lemma version_policy_mono h h' s v p :
  (forall k r, h !! k = Some r -> h' !! k = Some r) -> version_policy h s v p -> version_policy h' s v p.
Proof. intros Hm [?|(r & ? & ?)]; [by left|right; eauto]. Qed.

Lemma consistent_mono h h' s :
  (forall k r, h !! k = Some r -> h' !! k = Some r) -> consistent h s -> consistent h' s.
Proof.
  intros Hm (H1 & H2 & H3). split_and!; [|done|done]. destruct (publishedAny s); [by eapply version_policy_mono|done].
Qed.

Lemma seen_ok_mono h h' r : (forall k r, h !! k = Some r -> h' !! k = Some r) -> seen_ok h r -> seen_ok h' r.
Proof. intros Hm. destruct r; cbn; auto. Qed.

Lemma job_ok_mono h h' j : (forall k r, h !! k = Some r -> h' !! k = Some r) -> job_ok h j -> job_ok h' j.
Proof.
  intros Hm. destruct j as [i r|i q e a r|i v [c|]]; cbn; try by apply seen_ok_mono.
  - intros (r & ps & ? & ?). exists r, ps. auto.
  - intros (r & ? & ?). exists r. auto.
Qed.

(** Publishing the policy of a version keeps an instance consistent. *)
Lemma db_publish_consistent h s cidrs v ps :
  ValidateInternalAllowlist cidrs = inr ps -> version_policy h s v (publish ps) -> 0 <= v ->
  consistent h s -> consistent h (fst (publishDBGuarded s cidrs v)).
Proof.
  intros Hv Hp H0 Hc. unfold publishDBGuarded. rewrite Hv. destruct (_ && _); [done|]. cbn [fst].
  split_and!; cbn; [|done|done]. by eapply version_policy_ext; [|exact Hp].
Qed.

Lemma static_publish_consistent h s v :
  version_policy h s v (static_policy s) -> 0 <= v -> consistent h s -> consistent h (fst (publishStaticGuarded s v)).
Proof.
  intros Hp H0 Hc. unfold publishStaticGuarded. destruct (_ && _); [done|]. cbn [fst].
  split_and!; cbn; [|done|done]. by eapply version_policy_ext; [|exact Hp].
Qed.

Lemma set_degraded_consistent h s d :
  consistent h s -> consistent h (set_published s (mkPublished (Source (published s)) (StateVersion (published s)) d)).
Proof. intros (H1 & H2 & H3). split_and!; cbn; [|done|done]. done. Qed.

(** Reads that the history explains give consistent instances. *)
Definition nonneg_read (r : read) : Prop := match r with Found r => 0 <= Version r | _ => True end.

Lemma refresh_consistent h s r :
  seen_ok h r -> nonneg_read r -> consistent h s -> consistent h (fst (Refresh s r)).
Proof.
  intros Hs Hn Hc. unfold Refresh. destruct r as [| |r]; cbn [fst]; [by apply set_degraded_consistent| |].
  - apply static_publish_consistent; [by left|done|by apply set_degraded_consistent].
  - cbn in Hs, Hn. destruct (Removed r) eqn:Er.
    + apply static_publish_consistent; [|done|by apply set_degraded_consistent]. right. exists r. split; [done|].
      unfold row_policy. by rewrite Er.
    + destruct (parseCIDRsJSON (CIDRsJSON r)) as [cidrs|] eqn:Ej; [|by apply set_degraded_consistent].
      destruct (ValidateInternalAllowlist cidrs) as [e|ps] eqn:Ev; [by apply set_degraded_consistent|].
      apply (db_publish_consistent h _ cidrs _ ps Ev); [|done|by apply set_degraded_consistent].
      right. exists r. split; [done|]. unfold row_policy. by rewrite Er, Ej, Ev.
Qed.

Lemma cold_start_consistent h cidrs env r :
  seen_ok h r -> nonneg_read r -> consistent h (LoadColdStart (NewSsrfAllowlistService cidrs env) r).
Proof.
  intros Hs Hn. set (s := NewSsrfAllowlistService cidrs env).
  assert (consistent h s) as Hc by (split_and!; done).
  assert (forall d, consistent h (strict_start s d)) as Hstrict by (intros d; split_and!; done).
  unfold LoadColdStart. destruct r as [| |r]; [done| |].
  - apply static_publish_consistent; [by left|done|done].
  - cbn in Hs, Hn. destruct (Removed r) eqn:Er.
    + apply static_publish_consistent; [|done|done]. right. exists r. split; [done|]. unfold row_policy. by rewrite Er.
    + destruct (parseCIDRsJSON (CIDRsJSON r)) as [l|] eqn:Ej; [|done].
      destruct (ValidateInternalAllowlist l) as [e|ps] eqn:Ev; [done|].
      apply (db_publish_consistent h _ l _ ps Ev); [|done|done].
      right. exists r. split; [done|]. unfold row_policy. by rewrite Er, Ej, Ev.
Qed.

Lemma parse_canonical c : parseCIDRsJSON (canonical_json c) = Some c.
Proof.
  unfold parseCIDRsJSON, canonical_json. induction c as [|x c IH]; [done|]. cbn. cbn in IH. by rewrite IH.
Qed.

Lemma publish_job_consistent h s i v c :
  job_ok h (JPublish i v c) -> 0 <= v -> consistent h s -> consistent h (publish_job s v c).
Proof.
  intros Hj H0 Hc. destruct c as [c|]; cbn in Hj; cbn [publish_job Apply_publish Reset_publish fst].
  - destruct Hj as (r & ps & Hr & Hrem & Hjson & -> & Hv). apply canonical_validates in Hv.
    apply (db_publish_consistent h s _ v ps Hv); [|done|done]. right. exists r. split; [done|].
    unfold row_policy. by rewrite Hrem, Hjson, parse_canonical, Hv.
  - destruct Hj as (r & Hr & Hrem). apply static_publish_consistent; [|done|done]. right. exists r. split; [done|].
    unfold row_policy. by rewrite Hrem.
Qed.

(** ** The invariant *)

Definition wf_start (r0 : option Row) : Prop := match r0 with Some r => 1 <= Version r | None => True end.

Lemma inv_start r0 : wf_start r0 -> Inv (start r0).
Proof.
  intros H. split.
  - destruct r0 as [r|]; cbn [start db row history]; [|done]. split; [apply lookup_singleton_eq|exact H].
  - destruct r0 as [r|]; cbn [start db row history]; [|intros v r [=]].
    intros v r' [<- <-]%lookup_singleton_Some. split_and!; [done|exact H|]. exists r. split; [done|lia].
  - intros g j [=].
  - intros i s [=].
Qed.

Lemma seen_current sys seen : Inv sys -> may_read sys seen -> seen_ok (history sys) seen /\ nonneg_read seen.
Proof.
  intros [H _ _ _] [->| ->]; [done|]. unfold readRow. destruct (row (db sys)) as [r|]; [|done]. cbn. destruct H. split; [done|lia].
Qed.

Lemma seen_nonneg sys seen : Inv sys -> seen_ok (history sys) seen -> nonneg_read seen.
Proof. intros HI. destruct seen as [| |r]; [done|done|]. cbn. intros H%(i_history sys HI). lia. Qed.

(** Steps that leave the database alone. *)
Lemma inv_frame sys insts js :
  Inv sys ->
  (forall i s, insts !! i = Some s -> instances sys !! i = Some s \/ consistent (history sys) s) ->
  (forall g j, js !! g = Some j -> jobs sys !! g = Some j \/ job_ok (history sys) j) ->
  Inv (mkSystem (db sys) (history sys) insts js).
Proof.
  intros [H1 H2 H3 H4] Hi Hj. split; cbn; try done.
  - intros g j E. destruct (Hj g j E); eauto.
  - intros i s E. destruct (Hi i s E); eauto.
Qed.

(** A commit extends the history by one version. *)
Lemma inv_commit sys g i d v c seen expected :
  Inv sys -> committed (db sys) d seen expected v c ->
  (forall l, c = Some l -> exists ps, l = map PrefixString ps /\ Forall valid_prefix ps) ->
  Inv (mkSystem d (record_row (history sys) d) (instances sys) (<[g := JPublish i v c]> (jobs sys))).
Proof.
  intros [H1 H2 H3 H4] (Hver & -> & (r' & Hr' & Hv' & Hrem & Hjson) & _ & _) Hc. unfold record_row. rewrite Hr'.
  assert (forall k r, history sys !! k = Some r -> k <= expected) as Hle.
  { intros k r E. destruct (H2 k r E) as (_ & _ & r2 & E2 & Hk). unfold db_version in Hver. rewrite E2 in Hver. lia. }
  assert (0 <= expected) as H0 by (unfold db_version in Hver; destruct (row (db sys)); [destruct H1; lia|lia]).
  assert (forall k r, history sys !! k = Some r -> <[Version r' := r']> (history sys) !! k = Some r) as Hm.
  { intros k r E. pose proof (Hle k r E). rewrite lookup_insert_ne; [done|lia]. }
  split; cbn; rewrite ?Hr'.
  - split; [by simplify_map_eq|lia].
  - intros k r E. destruct (decide (Version r' = k)) as [<-|Hne].
    + rewrite lookup_insert_eq in E. injection E as <-. split_and!; [done|lia|]. exists r'. split; [done|lia].
    + rewrite lookup_insert_ne in E by done. pose proof (Hle k r E). destruct (H2 k r E) as (? & ? & _).
      split_and!; [done|done|]. exists r'. split; [done|lia].
  - intros g' j E. destruct (decide (g = g')) as [<-|Hne].
    + rewrite lookup_insert_eq in E. injection E as <-. rewrite Hv' in *. destruct c as [c|]; cbn.
      * destruct (Hc c eq_refl) as (ps & -> & Hps). exists r', ps. split_and!; [by simplify_map_eq|done|done|done|done].
      * exists r'. split; [by simplify_map_eq|done].
    + rewrite lookup_insert_ne in E by done. eapply job_ok_mono; [exact Hm|by eapply H3].
  - intros k s E. eapply consistent_mono; [exact Hm|by eapply H4].
Qed.

Lemma publish_version_nonneg sys g i v c : Inv sys -> jobs sys !! g = Some (JPublish i v c) -> 0 <= v.
Proof.
  intros HI E. pose proof (i_jobs sys HI g _ E) as Hj. destruct c as [c|]; cbn in Hj.
  - destruct Hj as (r & ps & Hr & _). apply (i_history sys HI) in Hr. lia.
  - destruct Hj as (r & Hr & _). apply (i_history sys HI) in Hr. lia.
Qed.

Lemma insert_cases {A} (m : gmap nat A) k x (P : A -> Prop) :
  P x -> forall i y, <[k := x]> m !! i = Some y -> m !! i = Some y \/ P y.
Proof.
  intros Hx i y E. destruct (decide (k = i)) as [<-|Hne]; [rewrite lookup_insert_eq in E|rewrite lookup_insert_ne in E by done].
  - injection E as <-. by right.
  - by left.
Qed.

Lemma delete_cases {A} (m : gmap nat A) k (P : A -> Prop) i y : delete k m !! i = Some y -> m !! i = Some y \/ P y.
Proof. intros [_ E]%lookup_delete_Some. by left. Qed.

Lemma allowlist_inv_step sys sys' : step sys sys' -> Inv sys -> Inv sys'.
Proof.
  destruct 1 as [sys g i seen Hg Hi Hr|sys g i seen s Hg Hi|sys g i q e a seen Hg Hi Hr|sys g i q e a seen now d v c Hg Hcm
    |sys g i q e a seen now b er Hg Hcm|sys g i q e a seen now d Hg Hcm|sys g i v c s Hg Hi|sys i cidrs env seen Hr]; intros HI.
  - apply inv_frame; [done|by left|]. apply insert_cases. cbn. by apply seen_current.
  - pose proof (i_jobs sys HI g _ Hg) as Hs. apply inv_frame; [done| |apply delete_cases]. apply insert_cases.
    apply refresh_consistent; [done|by eapply seen_nonneg|by eapply i_instances].
  - apply inv_frame; [done|by left|]. apply insert_cases. cbn. by apply seen_current.
  - apply commit_committed in Hcm as [Hcm Hps]. by eapply inv_commit.
  - apply inv_frame; [done|by left|apply delete_cases].
  - apply commit_noop in Hcm as ->. apply inv_frame; [done|by left|apply delete_cases].
  - apply inv_frame; [done| |apply delete_cases]. apply insert_cases.
    eapply publish_job_consistent; [exact (i_jobs sys HI g _ Hg)|by eapply publish_version_nonneg|by eapply i_instances].
  - destruct (seen_current sys seen HI Hr). apply inv_frame; [done| |].
    + apply insert_cases. by apply cold_start_consistent.
    + intros g j [E _]%map_lookup_filter_Some. by left.
Qed.

Lemma allowlist_reachable_inv r0 sys : wf_start r0 -> reachable r0 sys -> Inv sys.
Proof. intros H0. induction 1; [by apply inv_start|by eapply allowlist_inv_step]. Qed.

(** ** What the service promises *)

(** C18: on every interleaving of reads, writes, publications and restarts of all
    instances, an instance that has published anything enforces exactly the policy
    of the row version it last applied. *)
Theorem memory_is_its_version r0 sys i s :
  wf_start r0 -> reachable r0 sys -> instances sys !! i = Some s -> publishedAny s = true ->
  version_policy (history sys) s (lastAppliedDBVersion s) (memory s).
Proof.
  intros H0 Hr Hi Hp. destruct (i_instances sys (allowlist_reachable_inv r0 sys H0 Hr) i s Hi) as (H & _). by rewrite Hp in H.
Qed.

(** The policy changes only together with a strictly newer version. *)
Definition advances (s s' : Service) : Prop :=
  (memory s' = memory s /\ lastAppliedDBVersion s' = lastAppliedDBVersion s /\ publishedAny s' = publishedAny s)
  \/ (publishedAny s' = true /\ (publishedAny s = true -> lastAppliedDBVersion s < lastAppliedDBVersion s')).

Lemma db_publish_advances s cidrs v : advances s (fst (publishDBGuarded s cidrs v)).
Proof.
  unfold publishDBGuarded. destruct (ValidateInternalAllowlist cidrs); [by left|].
  destruct (publishedAny s && _) eqn:E; [by left|]. right. split; [done|]. intros Hp. rewrite Hp in E. cbn in E |- *. lia.
Qed.

Lemma static_publish_advances s v : advances s (fst (publishStaticGuarded s v)).
Proof.
  unfold publishStaticGuarded. destruct (publishedAny s && _) eqn:E; [by left|]. right. split; [done|].
  intros Hp. rewrite Hp in E. cbn in E |- *. lia.
Qed.

Lemma refresh_advances s r : advances s (fst (Refresh s r)).
Proof.
  pose proof (static_publish_advances (clearDegraded s)) as Hs. pose proof (db_publish_advances (clearDegraded s)) as Hd.
  unfold Refresh. destruct r as [| |r]; [by left|apply Hs|]. destruct (Removed r); [apply Hs|].
  destruct (parseCIDRsJSON (CIDRsJSON r)) as [l|]; [|by left]. destruct (ValidateInternalAllowlist l); [by left|apply Hd].
Qed.

(** a slow refresh or a late publication never rolls the policy of a running
    instance back: memory changes only together with a strictly newer version. *)
Theorem memory_never_rolls_back sys sys' i s s' :
  step sys sys' -> instances sys !! i = Some s -> instances sys' !! i = Some s' ->
  advances s s' \/ exists cidrs env seen, may_read sys seen /\ s' = LoadColdStart (NewSsrfAllowlistService cidrs env) seen.
Proof.
  intros Hstep Hs Hs'.
  assert (forall j x, (j = i -> advances s x) -> <[j := x]> (instances sys) !! i = Some s' -> advances s s') as Hins.
  { intros j x Hx E. destruct (decide (j = i)) as [->|Hne]; [rewrite lookup_insert_eq in E|rewrite lookup_insert_ne in E by done].
    - injection E as <-. by apply Hx.
    - left. by simplify_eq. }
  destruct Hstep as [| sys g j seen x Hg Hj | | | | | sys g j v c x Hg Hj | sys j cidrs env seen Hr]; cbn in Hs'.
  1,3,4,5,6: left; left; by simplify_eq.
  - left. eapply Hins; [|exact Hs']. intros ->. simplify_eq. apply refresh_advances.
  - left. eapply Hins; [|exact Hs']. intros ->. simplify_eq. destruct c; [apply db_publish_advances|apply static_publish_advances].
  - destruct (decide (j = i)) as [->|Hne]; [|left; left; rewrite lookup_insert_ne in Hs' by done; by simplify_eq].
    right. rewrite lookup_insert_eq in Hs'. injection Hs' as <-. eauto.
Qed.

Lemma applied_at_most_current sys i s :
  Inv sys -> instances sys !! i = Some s -> publishedAny s = true -> lastAppliedDBVersion s <= db_version (db sys).
Proof.
  intros HI Hi Hp. destruct (i_instances sys HI i s Hi) as (H & _). rewrite Hp in H. pose proof (i_row sys HI) as Hrow.
  unfold db_version. destruct H as [[-> _]|(r & Hr & _)].
  - destruct (row (db sys)); [destruct Hrow; lia|lia].
  - destruct (i_history sys HI _ r Hr) as (_ & _ & r' & -> & ?). done.
Qed.

(** The policy the database asks of an instance, when its row is valid. *)
Definition wanted (d : DB) (s : Service) : option policy :=
  match row d with None => Some (static_policy s) | Some r => row_policy s r end.

(** one successful refresh brings an instance to the policy of the current
    row, whatever happened before. *)
Theorem refresh_converges r0 sys i s p :
  wf_start r0 -> reachable r0 sys -> instances sys !! i = Some s -> wanted (db sys) s = Some p ->
  memory (fst (Refresh s (readRow (db sys)))) = p /\ snd (Refresh s (readRow (db sys))) = None.
Proof.
  intros H0 Hr Hi. pose proof (allowlist_reachable_inv r0 sys H0 Hr) as HI. pose proof (i_row sys HI) as Hrow.
  destruct (i_instances sys HI i s Hi) as (Hc & Hnn & _). pose proof (applied_at_most_current sys i s HI Hi) as Hle.
  unfold wanted, readRow, db_version in *. destruct (row (db sys)) as [r|] eqn:Er.
  - destruct Hrow as [Hh Hv]. intros Hp.
    assert (publishedAny s = true -> Version r <= lastAppliedDBVersion s -> memory s = p) as Hsame.
    { intros Hpub Hge. rewrite Hpub in Hc. assert (lastAppliedDBVersion s = Version r) as Eq by (specialize (Hle Hpub); lia).
      rewrite Eq in Hc. destruct Hc as [[? _]|(r' & Hr' & Hp')]; [lia|]. congruence. }
    unfold Refresh. unfold row_policy in Hp. destruct (Removed r).
    + injection Hp as <-. split; [|done]. unfold publishStaticGuarded. cbn [publishedAny clearDegraded set_published lastAppliedDBVersion].
      destruct (publishedAny s && _) eqn:E; [|done]. apply andb_true_iff in E as [E1 E2%Z.leb_le]. exact (Hsame E1 E2).
    + destruct (parseCIDRsJSON (CIDRsJSON r)) as [l|]; [|done]. destruct (ValidateInternalAllowlist l) as [e|ps] eqn:Ev; [done|].
      injection Hp as <-. split; [|done]. unfold publishDBGuarded. rewrite Ev.
      cbn [publishedAny clearDegraded set_published lastAppliedDBVersion].
      destruct (publishedAny s && _) eqn:E; [|done]. apply andb_true_iff in E as [E1 E2%Z.leb_le]. exact (Hsame E1 E2).
  - intros [= <-]. unfold Refresh, publishStaticGuarded. cbn [publishedAny clearDegraded set_published lastAppliedDBVersion].
    split; [|done]. destruct (publishedAny s) eqn:Epub; [|done]. destruct (0 <=? _) eqn:E; [|specialize (Hle eq_refl); lia].
    destruct Hc as [[_ ?]|(r & Hr' & _)]; [done|]. rewrite Hrow in Hr'. by rewrite lookup_empty in Hr'.
Qed.

(** a committed write replaces exactly the row its transaction read, which is the
    only row that ever carried the expected version, and is audited with it. *)
Theorem no_lost_update r0 sys g i q expected actor seen now d v c :
  wf_start r0 -> reachable r0 sys -> jobs sys !! g = Some (JTx i q expected actor seen) ->
  commit seen (db sys) q expected actor now false = inr (d, Some (v, c)) ->
  readRow (db sys) = seen /\ v = expected + 1 /\ db_version d = v /\
  (forall r, history sys !! expected = Some r -> seen = Found r) /\
  exists a, auditlog d = auditlog (db sys) ++ [a] /\ aVersion a = v /\
    aFrom a = match row (db sys) with Some r => stored_cidrs r | None => [] end.
Proof.
  intros H0 Hr Hg Hcm. pose proof (allowlist_reachable_inv r0 sys H0 Hr) as HI. pose proof (i_jobs sys HI g _ Hg) as Hs. cbn in Hs.
  apply commit_committed in Hcm as [(Hver & Hv & (r' & Hr' & Hv' & _) & (a & Ha1 & Ha2 & _ & Ha3) & Hseen) _].
  assert (readRow (db sys) = seen) as Hread.
  { unfold readRow. destruct seen as [| |r]; [done|by destruct Hseen as [-> _]|]. destruct Hseen as [Ev [r2 Er2]]. rewrite Er2.
    f_equal. pose proof (i_row sys HI) as Hrow. unfold db_version in Hver. rewrite Er2 in Hrow, Hver. destruct Hrow as [Hrow _].
    cbn in Hs. rewrite Ev in Hs. rewrite Hver in Hrow. congruence. }
  split_and!; [done|done| | |].
  - unfold db_version. by rewrite Hr'.
  - intros r Hh. destruct seen as [| |r2]; [done| |].
    + destruct Hseen as [_ ->]. apply (i_history sys HI) in Hh. lia.
    + destruct Hseen as [Ev _]. cbn in Hs. rewrite Ev in Hs. congruence.
  - exists a. split_and!; [done|done|]. rewrite Ha3, <- Hread. unfold readRow. by destruct (row (db sys)).
Qed.

(** every version after the first has exactly one audit row, in order. *)
Theorem versions_are_audited r0 sys :
  wf_start r0 -> reachable r0 sys ->
  let v0 := db_version (mkDB r0 []) in
  v0 <= db_version (db sys) /\ map aVersion (auditlog (db sys)) = seqZ (v0 + 1) (db_version (db sys) - v0).
Proof.
  intros H0 Hr v0. induction Hr as [|sys sys' Hr IH Hs].
  - cbn [start db auditlog]. change (db_version (mkDB r0 [])) with v0. rewrite Z.sub_diag. split; [lia|done].
  - destruct Hs as [| | |sys g i q e a seen now d v c Hg Hcm| |sys g i q e a seen now d Hg Hcm| |]; try exact IH.
    + apply commit_committed in Hcm as [(Hver & -> & (r' & Hr' & Hv' & _) & (au & Ha1 & Ha2 & _) & _) _].
      cbn [db]. rewrite Ha1, map_app. cbn [map]. rewrite Ha2. destruct IH as [IH1 IH2]. rewrite IH2.
      assert (db_version d = e + 1) as -> by (unfold db_version; by rewrite Hr'). rewrite Hver in *. split; [lia|].
      replace (e + 1 - v0) with ((e - v0) + 1) by lia. rewrite seqZ_app by lia. f_equal.
      replace (v0 + 1 + (e - v0)) with (e + 1) by lia. reflexivity.
    + apply commit_noop in Hcm as ->. exact IH.
Qed.

(** a failing read or an invalid row never widens the policy: a running instance
    keeps what it enforces, a starting one enforces the strict default. *)
Theorem failure_never_widens s r reason :
  (snd (Refresh s r) = Some reason -> memory (fst (Refresh s r)) = memory s /\ Degraded (published (fst (Refresh s r))) = Some reason)
  /\ (Degraded (published (LoadColdStart (NewSsrfAllowlistService (staticCIDRs s) false) r)) = Some reason ->
      memory (LoadColdStart (NewSsrfAllowlistService (staticCIDRs s) false) r) = None).
Proof.
  split.
  - unfold Refresh. repeat case_match; cbn; intros; simplify_eq; done.
  - unfold LoadColdStart, publishStaticGuarded, publishDBGuarded. cbn [NewSsrfAllowlistService publishedAny andb].
    repeat case_match; cbn; intros; simplify_eq; done.
Qed.

(** a broadcast that the subscriber skips announces nothing new. *)
Theorem skipped_broadcast_is_applied r0 sys i s v :
  wf_start r0 -> reachable r0 sys -> instances sys !! i = Some s -> on_message s (Some v) = false ->
  publishedAny s = true /\ v <= lastAppliedDBVersion s.
Proof.
  intros H0 Hr Hi. destruct (i_instances sys (allowlist_reachable_inv r0 sys H0 Hr) i s Hi) as (_ & _ & Hst).
  unfold on_message. rewrite negb_false_iff, !andb_true_iff, bool_decide_eq_true, Z.leb_le. intros [[_ Hsrc] Hv].
  destruct (Hst Hsrc) as [E ?]. split; [done|lia].
Qed.

(** ** A run: an instance starts, an administrator allows 10.0.0.0/8 *)

Definition admin : Actor := mkActor 1 "root" "192.0.2.1" "curl".
Definition s0 : Service := LoadColdStart (NewSsrfAllowlistService [] false) NoRow.
Definition tx : job := JTx 0 (ReqApply ["10.0.0.0/8"]) 0 admin NoRow.

Definition started : System :=
  mkSystem (mkDB None []) ∅ (<[0%nat := s0]> ∅) (filter (fun j => job_instance (snd j) <> 0%nat) (∅ : gmap nat job)).
Definition writing : System := mkSystem (db started) (history started) (instances started) (<[0%nat := tx]> (jobs started)).
Definition written : DB :=
  mkDB (Some (mkRow (canonical_json ["10.0.0.0/8"]) 1 false admin 7))
    [mkAudit admin UpdateAllowlist [] (Some ["10.0.0.0/8"]) 1 7].
Definition committed_sys : System :=
  mkSystem written (record_row (history writing) written) (instances writing)
    (<[0%nat := JPublish 0 1 (Some ["10.0.0.0/8"])]> (jobs writing)).
Definition s1 : Service := publish_job s0 1 (Some ["10.0.0.0/8"]).
Definition published_sys : System :=
  mkSystem (db committed_sys) (history committed_sys) (<[0%nat := s1]> (instances committed_sys)) (delete 0%nat (jobs committed_sys)).

Lemma commit_run : commit NoRow (db writing) (ReqApply ["10.0.0.0/8"]) 0 admin 7 false = inr (written, Some (1, Some ["10.0.0.0/8"])).
Proof. vm_compute. reflexivity. Qed.

Lemma writing_reachable : reachable None writing.
Proof.
  eapply (reach_step None started); [eapply (reach_step None (start None)); [apply reach_start|]|].
  - apply (SRestart (start None) 0 [] false NoRow). by right.
  - apply (SBegin started 0 0 (ReqApply ["10.0.0.0/8"]) 0 admin NoRow); [reflexivity|eexists; reflexivity|by right].
Qed.

Lemma publish_step : step committed_sys published_sys.
Proof. apply (SPublish committed_sys 0 0 1 (Some ["10.0.0.0/8"]) s0); reflexivity. Qed.

Lemma published_reachable : reachable None published_sys.
Proof.
  eapply reach_step; [|exact publish_step]. eapply reach_step; [exact writing_reachable|].
  eapply (SCommit writing 0 0 (ReqApply ["10.0.0.0/8"]) 0 admin NoRow 7); [reflexivity|exact commit_run].
Qed.

Lemma memory_is_its_version_witness : version_policy (history published_sys) s1 1 (memory s1).
Proof. apply (memory_is_its_version None published_sys 0 s1); [done|exact published_reachable|reflexivity|reflexivity]. Defined.

Lemma memory_never_rolls_back_witness :
  advances s0 s1 \/ exists cidrs env seen, may_read committed_sys seen /\ s1 = LoadColdStart (NewSsrfAllowlistService cidrs env) seen.
Proof. apply (memory_never_rolls_back committed_sys published_sys 0 s0 s1); [exact publish_step|reflexivity|reflexivity]. Defined.

Lemma refresh_converges_witness : memory (fst (Refresh s1 (readRow written))) = publish [MustParsePrefix "10.0.0.0/8"].
Proof.
  apply (refresh_converges None published_sys 0 s1 (publish [MustParsePrefix "10.0.0.0/8"]));
    [done|exact published_reachable|reflexivity|vm_compute; reflexivity].
Defined.

Lemma no_lost_update_witness : readRow (db writing) = NoRow.
Proof.
  apply (no_lost_update None writing 0 0 (ReqApply ["10.0.0.0/8"]) 0 admin NoRow 7 written 1 (Some ["10.0.0.0/8"]));
    [done|exact writing_reachable|reflexivity|exact commit_run].
Defined.

Lemma versions_are_audited_witness : map aVersion (auditlog (db published_sys)) = seqZ 1 1.
Proof. apply (versions_are_audited None published_sys); [done|exact published_reachable]. Defined.

Lemma skipped_broadcast_is_applied_witness : 1 <= lastAppliedDBVersion s1.
Proof.
  apply (skipped_broadcast_is_applied None published_sys 0 s1 1); [done|exact published_reachable|reflexivity|reflexivity].
Defined.

(** A reset over an invalid static list reports that list as effective, with its
    source, while the strict default is in force. *)
Theorem reset_reports_invalid_static :
  let s := LoadColdStart (NewSsrfAllowlistService ["0.0.0.0/0"] true) (Found (mkRow (JArr []) 1 false admin 0)) in
  let '(s', res) := Reset_publish s (Some true) 1 (Some 2) in
  memory s' = None /\ EffectiveCIDRs res = ["0.0.0.0/0"] /\ rSource res = SourceEnv /\ Source (published s') = SourceEnv.
Proof. vm_compute. done. Qed.
