(* ===== verification/Calibration.v ===== *)
(** * Budget calibration: [internal/service/budget_calibration.go]

    Calibration rounds bring the Redis counters of [Budget] up to the usage ledger
    in the database.  A round runs next to the traffic: between any two of its
    commands other requests and replicas run their scripts and rows are committed,
    and any of its commands can fail or lose its answer.  Recent rows go through
    the settle script (the near segment), older ones through the far script, which
    counts a page of rows and leaves a certificate for each.

    Amounts are exact, in units of 1e-9, as in [Budget].  Certificates, watermarks
    and migration flags live for a budget period and do not expire here. *)

From stdpp Require Import pretty sorting.
From S2P Require Import Prelude Period Budget.

(** ** Data *)

(** The columns of [model.UsageLog] that the queries use. *)
Record usage_row := mkUsage {
  uID : Z;
  uTeam : Z;
  uOrg : Z;
  uKey : Z;
  uRequest : string;
  uCost : Z;
  uAt : Z
}.

(** A watermark: "v3|spent|cursor|guardID", or text of another version. *)
Inductive watermark := WmV3 (spent cursor guardID : Z) | WmOther.

Record calib_db := mkCalib {
  redis : budget_db;
  certs : gset (string * string * string);                 (* calibcert:... *)
  lock : option string;                                    (* budget:calibration:lock *)
  watermarks : gmap (string * string * string) watermark;  (* budgetaudit:... *)
  migrated : gset (string * string * string)               (* budgetmig:... *)
}.

Definition with_redis (st : calib_db) (r : budget_db) : calib_db :=
  mkCalib r (certs st) (lock st) (watermarks st) (migrated st).
Definition with_cert (st : calib_db) (k : rkey) : calib_db :=
  mkCalib (redis st) ({[k]} ∪ certs st) (lock st) (watermarks st) (migrated st).
Definition with_lock (st : calib_db) (l : option string) : calib_db :=
  mkCalib (redis st) (certs st) l (watermarks st) (migrated st).
Definition with_watermark (st : calib_db) (a : string * string * string) (w : watermark) : calib_db :=
  mkCalib (redis st) (certs st) (lock st) (<[a := w]> (watermarks st)) (migrated st).
Definition with_migrated (st : calib_db) (a : string * string * string) : calib_db :=
  mkCalib (redis st) (certs st) (lock st) (watermarks st) ({[a]} ∪ migrated st).

(** [SET] of a counter *)
Definition set_counter (k : bkey) (v : Z) (db : budget_db) : budget_db :=
  Budget.mkDB (<[k := v]> (counters db)) (resvmark db) (settledmark db) (shadowmark db) (resvexp db).

(** ** Scripts *)

(** The local [raise] of both scripts. *)
Definition raise (k : bkey) (target : Z) (db : budget_db) : budget_db :=
  match counters db !! k with
  | None => set_counter k target db
  | Some cur => if cur <? target then incr k (target - cur) db else db
  end.

(** A target of a round: scope, id text and period key. *)
Record target := mkTarget { tScope : string; tID : string; tPk : string }.
Definition tkey (kd : bkind) (t : target) : bkey := (kd, (tScope t, tID t, tPk t)).

(** The request part of a row's keys; rows without a request use their own id. *)
Definition row_request (r : usage_row) : string :=
  if String.eqb (uRequest r) "" then "row-" +:+ pretty (uID r) else uRequest r.
Definition row_key (t : target) (r : usage_row) : rkey := (tScope t, tID t, row_request r).

(** The release of a row's quarantine in [farConvergeScript]: the token goes, and
    its amount, unless the aggregate has fallen below it (1e-9 is one unit). *)
Definition net_shadow (t : target) (k : rkey) (db : budget_db) : budget_db :=
  match shadowmark db !! k with
  | None => db
  | Some (e2, _) =>
      let db := set_shadowmark k None db in
      match counters db !! tkey KShadow t with
      | Some shc => if e2 - 1 <=? shc then incr (tkey KBudget t) (- e2) (incr (tkey KShadow t) (- e2) db) else db
      | None => db
      end
  end.

(** One row of the script's loop, with the cost of the page's uncounted rows and their number. *)
Definition far_row (t : target) (acc : Z * Z * calib_db) (r : usage_row) : Z * Z * calib_db :=
  let '(inc, fresh, st) := acc in
  let k := row_key t r in
  let '(inc, fresh) :=
    if bool_decide (k ∈ certs st) || isSettled k (redis st) then (inc, fresh) else (inc + uCost r, fresh + 1) in
  let st := with_cert st k in
  (inc, fresh, with_redis st (net_shadow t k (set_settledmark k true (redis st)))).

Inductive far_mode := Inc | Abs (sum : Z).

(** [farConvergeScript] *)
Definition farConverge (token : string) (t : target) (mode : far_mode) (rows : list usage_row) (st : calib_db) : Z * calib_db :=
  if negb (bool_decide (lock st = Some token)) then (-1, st)
  else
    let '(inc, fresh, st) := fold_left (far_row t) rows (0, 0, st) in
    let s0 := get (tkey KSettled t) (redis st) in
    let rv := get (tkey KResv t) (redis st) in
    let sh := get (tkey KShadow t) (redis st) in
    let target := match mode with Inc => s0 + inc | Abs sum => sum end in
    if (s0 <? target) || (0 <? fresh) then
      (fresh, with_redis st (raise (tkey KSettled t) target (raise (tkey KBudget t) (target + rv + sh) (redis st))))
    else (fresh, st).

(** [calibratedWriteScript] without certification keys *)
Definition calibratedWrite (token : string) (t : target) (spent : Z) (st : calib_db) : Z * calib_db :=
  if negb (bool_decide (lock st = Some token)) then (-1, st)
  else
    let target := spent + get (tkey KResv t) (redis st) + get (tkey KShadow t) (redis st) in
    (match counters (redis st) !! tkey KBudget t with None => 1 | Some _ => 0 end,
     with_redis st (raise (tkey KBudget t) target (redis st))).

(** [lockRenewScript], without the lease's time *)
Definition lockRenew (token : string) (st : calib_db) : Z * calib_db :=
  (if bool_decide (lock st = Some token) then 1 else 0, st).

(** [calibrationUnlockScript] *)
Definition calibrationUnlock (token : string) (st : calib_db) : calib_db :=
  if bool_decide (lock st = Some token) then with_lock st None else st.

(** ** Queries *)

Definition scope_id (scope : string) (r : usage_row) : option Z :=
  if String.eqb scope "team" then Some (uTeam r)
  else if String.eqb scope "org" then Some (uOrg r)
  else if String.eqb scope "key" then Some (uKey r)
  else None.

(** [idCol = ? AND created_at >= ? AND created_at < ?] *)
Definition in_scope (scope : string) (id : Z) (lo hi : Z) (r : usage_row) : bool :=
  bool_decide (scope_id scope r = Some id) && (lo <=? uAt r) && (uAt r <? hi).

Definition by_id (a b : usage_row) : bool := uID a <? uID b.

(** [ORDER BY id LIMIT 5000] *)
Definition page_size : nat := 5000.
Definition page (sel : usage_row -> bool) (ledger : list usage_row) : list usage_row :=
  take page_size (stable_sort by_id (List.filter sel ledger)).

Definition max_id (sel : usage_row -> bool) (ledger : list usage_row) : Z :=
  fold_left (fun m r => Z.max m (uID r)) (List.filter sel ledger) 0.
Definition sum_cost (sel : usage_row -> bool) (ledger : list usage_row) : Z :=
  fold_left (fun s r => s + uCost r) (List.filter sel ledger) 0.

(** ** A round next to the traffic *)

(** What others do: scripts of requests, replicas and marker expiries; rows that
    are committed; the lock that is taken, released or expires; certificates,
    watermarks and pages of another holder of the lock. *)
Inductive event :=
  | EOp (o : budget_op)
  | EInsert (r : usage_row)
  | ELock (l : option string)
  | ECert (k : rkey)
  | EFar (token : string) (t : target) (mode : far_mode) (rows : list usage_row)
  | EWatermark (a : string * string * string) (w : watermark).

Record world := mkWorld { wSent : nat; wDB : calib_db; wLedger : list usage_row }.

Definition event_step (w : world) (e : event) : world :=
  match e with
  | EOp o => mkWorld (wSent w) (with_redis (wDB w) (budget_step (redis (wDB w)) o)) (wLedger w)
  | EInsert r => mkWorld (wSent w) (wDB w) (wLedger w ++ [r])
  | ELock l => mkWorld (wSent w) (with_lock (wDB w) l) (wLedger w)
  | ECert k => mkWorld (wSent w) (with_cert (wDB w) k) (wLedger w)
  | EFar token t mode rows => mkWorld (wSent w) (snd (farConverge token t mode rows (wDB w))) (wLedger w)
  | EWatermark a wm => mkWorld (wSent w) (with_watermark (wDB w) a wm) (wLedger w)
  end.

Inductive calib_err := LockLost | LockHeld | LockUnavailable | Failed.

Section Round.
(** The events before the n-th command, which may depend on everything so far, the
    fate of that command, the clock, and the live intents of the local journal. *)
Context (others : nat -> world -> list event) (net : nat -> fate) (clock : nat -> Z) (liveIntents : nat -> Z).
(** How many rows after the first of a page of an absolute round arrive before its
    connection breaks, when it does: [rowsQ.Err] is not consulted. *)
Context (cut : nat -> nat).
(** [journalGuard] with its default applied, and the token of the lease. *)
Context (guard : Z) (token : string).

Definition interfere (w : world) : world :=
  let w := fold_left event_step (others (wSent w) w) w in mkWorld (S (wSent w)) (wDB w) (wLedger w).

(** A Redis command: [None] when it fails or its answer is lost. *)
Definition call {A} (f : calib_db -> A * calib_db) (w : world) : option A * world :=
  let n := wSent w in
  let w := interfere w in
  match net n with
  | NotSent => (None, w)
  | Delivered => let '(a, st) := f (wDB w) in (Some a, mkWorld (wSent w) st (wLedger w))
  | ResponseLost => let '(_, st) := f (wDB w) in (None, mkWorld (wSent w) st (wLedger w))
  end.

(** A query on the committed rows. *)
Definition query {A} (f : list usage_row -> A) (w : world) : option A * world :=
  let n := wSent w in
  let w := interfere w in
  match net n with Delivered => (Some (f (wLedger w)), w) | _ => (None, w) end.

Definition read {A} (f : calib_db -> A) : calib_db -> A * calib_db := fun st => (f st, st).
Definition write (f : calib_db -> calib_db) : calib_db -> unit * calib_db := fun st => (tt, f st).

(** [Get(...).Float64()] with its error dropped *)
Definition get_or_zero (k : bkey) (w : world) : Z * world :=
  let '(v, w) := call (read (fun st => get k (redis st))) w in (default 0 v, w).

Section Target.
Context (t : target) (id : Z) (period : string) (start end_ : Z).

Definition settle_ref (r : usage_row) : scope_ref := mkScope (tScope t) (tID t) period (tPk t) (uRequest r).
Definition near_key (r : usage_row) : rkey := (tScope t, tID t, uRequest r).

(** The rows of a near page; the flags are the certificates read before. *)
Fixpoint near_rows (rows : list (usage_row * bool)) (w : world) : option calib_err * world :=
  match rows with
  | [] => (None, w)
  | (r, true) :: rows => near_rows rows w
  | (r, false) :: rows =>
      match call (fun st => let '(a, db) := budgetSettle (settle_ref r) (uCost r) (redis st) in (a, with_redis st db)) w with
      | (None, w) => (Some Failed, w)
      | (Some _, w) =>
          match call (write (fun st => with_cert st (near_key r))) w with
          | (None, w) => (Some Failed, w)
          | (Some _, w) => near_rows rows w
          end
      end
  end.

Definition near_sel (lastID guardID : Z) (r : usage_row) : bool :=
  in_scope (tScope t) id start end_ r && (0 <? uCost r) && negb (String.eqb (uRequest r) "")
  && (lastID <? uID r) && (guardID <? uID r).

Definition last_id (rows : list usage_row) (d : Z) : Z := default d (uID <$> last rows).

(** The near loop; the fuel is the number of pages the deadline of the round leaves time for. *)
Fixpoint near_loop (fuel : nat) (guardID lastID : Z) (w : world) : (calib_err + Z) * world :=
  match fuel with
  | O => (inl Failed, w)
  | S fuel =>
      match query (page (near_sel lastID guardID)) w with
      | (None, w) => (inl Failed, w)
      | (Some [], w) => (inr lastID, w)
      | (Some rows, w) =>
          match call (lockRenew token) w with
          | (Some 1, w) =>
              match call (read (fun st => map (fun r => bool_decide (near_key r ∈ certs st)) rows)) w with
              | (None, w) => (inl Failed, w)
              | (Some flags, w) =>
                  match near_rows (zip rows flags) w with
                  | (Some e, w) => (inl e, w)
                  | (None, w) =>
                      if (length rows <? page_size)%nat then (inr (last_id rows lastID), w)
                      else near_loop fuel guardID (last_id rows lastID) w
                  end
              end
          | (_, w) => (inl LockLost, w)
          end
      end
  end.

Definition far_sel (guardID farCursor : Z) (r : usage_row) : bool :=
  in_scope (tScope t) id start end_ r && (0 <? uCost r)
  && (String.eqb (uRequest r) "" || (uID r <=? guardID)) && (farCursor <? uID r).
Definition abs_sel (ceil farCursor : Z) (r : usage_row) : bool :=
  in_scope (tScope t) id start end_ r && (0 <? uCost r) && (uID r <=? ceil) && (farCursor <? uID r).

(** The rows of a far page. *)
Definition far_page (snapshot : option (list usage_row)) (sel : usage_row -> bool) (w : world) : option (list usage_row) * world :=
  match snapshot with
  | None => query (page sel) w
  | Some rows =>
      let n := wSent w in
      let w := interfere w in
      match net n with
      | Delivered => (Some (page sel rows), w)
      | ResponseLost => (Some (take (S (cut n)) (page sel rows)), w)
      | NotSent => (None, w)
      end
  end.

(** A far page is read from the current rows, or from the exported snapshot of an absolute round. *)
Fixpoint far_loop (fuel : nat) (mode : far_mode) (snapshot : option (list usage_row)) (sel : Z -> usage_row -> bool)
    (farCursor : Z) (w : world) : option calib_err * world :=
  match fuel with
  | O => (Some Failed, w)
  | S fuel =>
      match far_page snapshot (sel farCursor) w with
      | (None, w) => (Some Failed, w)
      | (Some [], w) => (None, w)
      | (Some rows, w) =>
          match call (lockRenew token) w with
          | (Some 1, w) =>
              match call (farConverge token t mode rows) w with
              | (None, w) => (Some Failed, w)
              | (Some (-1), w) => (Some LockLost, w)
              | (Some _, w) =>
                  if (length rows <? page_size)%nat then (None, w)
                  else far_loop fuel mode snapshot sel (last_id rows farCursor) w
              end
          | (_, w) => (Some LockLost, w)
          end
      end
  end.

(** The end of a successful target: the watermark; errors of both commands are dropped. *)
Definition finish_target (lastID guardID : Z) (w : world) : (calib_err + Z) * world :=
  let '(spent, w) := get_or_zero (tkey KSettled t) w in
  let '(_, w) := call (write (fun st => with_watermark st (tScope t, tID t, tPk t) (WmV3 spent lastID guardID))) w in
  (inr spent, w).

Definition read_watermark (st : calib_db) : option watermark := watermarks st !! (tScope t, tID t, tPk t).
Definition settled_exists (st : calib_db) : bool := bool_decide (is_Some (counters (redis st) !! tkey KSettled t)).

(** [calibrateTarget] on PostgreSQL *)
Definition calibrateTarget (fuel : nat) (w : world) : (calib_err + Z) * world :=
  if negb (bool_decide (tScope t ∈ ["team"; "org"; "key"])) then (inl Failed, w)
  else
    match call (read read_watermark) w with
    | (None, w) => (inl Failed, w)
    | (Some wm, w) =>
        let cursor := match wm with Some (WmV3 _ c _) => c | _ => 0 end in
        let '(b3Class, w) :=
          match wm with
          | Some (WmV3 _ _ _) => (false, w)
          | _ => let '(e, w) := call (read settled_exists) w in (default false e, w)
          end in
        let horizon := if b3Class then end_ else clock (wSent w) - (guard + 10 * Minute) in
        match query (max_id (in_scope (tScope t) id start horizon)) w with
        | (None, w) => (inl Failed, w)
        | (Some guardID, w) =>
            if 0 <? liveIntents (wSent w) then
              let '(spent, w) := get_or_zero (tkey KSettled t) w in (inr spent, w)
            else
              match near_loop fuel guardID cursor w with
              | (inl e, w) => (inl e, w)
              | (inr lastID, w) =>
                  let '(far, w) :=
                    if b3Class then
                      match query (fun ledger => ledger) w with
                      | (None, w) => (Some Failed, w)
                      | (Some snapshot, w) =>
                          let sel r := in_scope (tScope t) id start end_ r && (0 <? uCost r) && (uID r <=? guardID) in
                          far_loop fuel (Abs (sum_cost sel snapshot)) (Some snapshot) (abs_sel (max_id sel snapshot)) 0 w
                      end
                    else far_loop fuel Inc None (far_sel guardID) 0 w in
                  match far with
                  | Some e => (inl e, w)
                  | None => finish_target lastID guardID w
                  end
              end
        end
    end.

(** [migrateOrCheckInvariant] up to its log lines *)
Definition migrateOrCheckInvariant (spent : Z) (w : world) : world :=
  let a := (tScope t, tID t, tPk t) in
  match call (fun st => (negb (bool_decide (a ∈ migrated st)), with_migrated st a)) w with
  | (None, w) => w
  | (Some first, w) =>
      let '(seeded, w) :=
        if first then
          let '(r, w) := call (read (fun st => bool_decide (is_Some (counters (redis st) !! tkey KResv t)))) w in
          let '(s, w) := if default false r then (Some true, w) else call (read settled_exists) w in
          if default false r || default false s then (false, w)
          else
            let '(cur, w) := get_or_zero (tkey KBudget t) w in
            let '(_, w) := call (write (fun st => with_redis st (set_counter (tkey KSettled t) spent (redis st)))) w in
            let '(_, w) := call (write (fun st => with_redis st (set_counter (tkey KResv t) (Z.max 0 (cur - spent)) (redis st)))) w in
            (true, w)
        else (false, w) in
      if seeded then w
      else
        let '(stCur, w) := get_or_zero (tkey KSettled t) w in
        if stCur <? spent then
          snd (call (write (fun st => with_redis st (set_counter (tkey KSettled t) spent (redis st)))) w)
        else w
  end.
End Target.

(** [acquireCalibrationLock]: [SET NX] with the token. *)
Definition acquire (w : world) : option calib_err * world :=
  match call (fun st => match lock st with None => (true, with_lock st (Some token)) | Some _ => (false, st) end) w with
  | (None, w) => (Some LockUnavailable, w)
  | (Some true, w) => (None, w)
  | (Some false, w) => (Some LockHeld, w)
  end.

(** A target of the three scope loops. *)
Record job := mkJob { jTarget : target; jID : Z; jPeriod : string; jStart : Z; jEnd : Z }.

(** [calibrateTeams], [calibrateOrgs] and [calibrateKeys] on their targets: a lost
    lock ends the round, another failure skips the target. *)
Fixpoint calibrate_targets (fuel : nat) (jobs : list job) (w : world) : option calib_err * world :=
  match jobs with
  | [] => (None, w)
  | j :: jobs =>
      match calibrateTarget (jTarget j) (jID j) (jPeriod j) (jStart j) (jEnd j) fuel w with
      | (inl LockLost, w) => (Some LockLost, w)
      | (inl _, w) => calibrate_targets fuel jobs w
      | (inr spent, w) => calibrate_targets fuel jobs (migrateOrCheckInvariant (jTarget j) spent w)
      end
  end.

(** The members of the expiry set that [ReapExpiredReservations] visits. *)
Fixpoint reap_all (members : list (resv_member * Z)) (w : world) : world :=
  match members with
  | [] => w
  | (m, retryAt) :: members =>
      reap_all members (snd (call (write (fun st => with_redis st (reapMember m retryAt (redis st)))) w))
  end.

(** [calibrateOnceLocked] *)
Definition calibrateOnceLocked (fuel : nat) (expired : list (resv_member * Z)) (jobs : list job) (w : world)
    : option calib_err * world :=
  match acquire w with
  | (Some e, w) => (Some e, w)
  | (None, w) =>
      let w := reap_all expired w in
      let '(res, w) := calibrate_targets fuel jobs w in
      (res, snd (call (write (calibrationUnlock token)) w))
  end.
End Round.

(** ** Each request is counted once *)

(** Requests whose cost is in a settled counter: a settlement mark or a certificate says so. *)
Definition counted (st : calib_db) : gset rkey := settledmark (redis st) ∪ certs st.

Definition sum_set (f : rkey -> Z) (X : gset rkey) : Z := set_fold (fun k n => f k + n) 0 X.

Lemma sum_set_insert f k X : k ∉ X -> sum_set f ({[k]} ∪ X) = f k + sum_set f X.
Proof.
  intros Hk. unfold sum_set. rewrite (union_comm_L {[k]} X). rewrite (set_fold_disj_union_strong eq).
  - by rewrite set_fold_singleton.
  - apply _.
  - intros. lia.
  - set_solver.
Qed.

Lemma sum_set_ext f g X : (forall k, k ∈ X -> f k = g k) -> sum_set f X = sum_set g X.
Proof.
  induction X as [|k X Hk IH] using set_ind_L; [done|]. intros H. rewrite !sum_set_insert by done.
  rewrite H by set_solver. rewrite IH; [done|]. set_solver.
Qed.

Section Counting.
(** The cost of each request. *)
Context (cost : rkey -> Z).

(** What the requests credited by [w] to a period add to the counter of [a]. *)
Definition share (w : rkey -> string) (a : string * string * string) (k : rkey) : Z :=
  if bool_decide ((k.1.1, k.1.2, w k) = a) then cost k else 0.

(** Every settled counter is the sum of the costs of the counted requests, each
    credited to one period. *)
Definition Counted (st : calib_db) : Prop :=
  exists w, forall a, get (KSettled, a) (redis st) = sum_set (share w a) (counted st).

Lemma counted_same st st' :
  counted st' = counted st -> (forall a, get (KSettled, a) (redis st') = get (KSettled, a) (redis st)) ->
  Counted st -> Counted st'.
Proof. intros Hc Hg [w Hw]. exists w. intros a. by rewrite Hg, Hc. Qed.

(** A request that is counted now and was not before. *)
Lemma counted_one st st' k pk :
  k ∉ counted st -> counted st' = {[k]} ∪ counted st ->
  (forall a, get (KSettled, a) (redis st') = get (KSettled, a) (redis st) + (if bool_decide ((k.1.1, k.1.2, pk) = a) then cost k else 0)) ->
  Counted st -> Counted st'.
Proof.
  intros Hk Hc Hg [w Hw]. exists (fun k' => if bool_decide (k' = k) then pk else w k'). intros a.
  rewrite Hg, Hc, Hw, sum_set_insert by done. rewrite Z.add_comm. f_equal.
  - unfold share. by rewrite (bool_decide_true (k = k)).
  - apply sum_set_ext. intros k' Hk'. unfold share. rewrite (bool_decide_false (k' = k)); [done|]. by intros ->.
Qed.

(** *** Scripts of the traffic *)

Lemma get_set_counter x k v db : get x (set_counter k v db) = if bool_decide (x = k) then v else get x db.
Proof.
  unfold get, set_counter. cbn [counters]. case_bool_decide as E; [subst; by rewrite lookup_insert_eq|by rewrite lookup_insert_ne].
Qed.

Lemma settledmark_incr k d db : settledmark (incr k d db) = settledmark db.
Proof. done. Qed.

(** A settle script counts its request, once. *)
Lemma settle_settled s c db a :
  isSettled (mkey s) db = false ->
  get (KSettled, a) (snd (budgetSettle s c db))
  = get (KSettled, a) db + (if bool_decide ((sScope s, sTarget s, sPk s) = a) then c else 0)
  /\ settledmark (snd (budgetSettle s c db)) = {[mkey s]} ∪ settledmark db.
Proof.
  intros E. unfold budgetSettle. rewrite E. cbn [set_settledmark resvmark shadowmark].
  destruct (resvmark db !! mkey s) as [[e pk]|].
  - split; [|by destruct (String.eqb pk (sPk s))]. destruct (String.eqb pk (sPk s)); cbn [snd];
      unfold ckey, at_pk; rewrite !get_incr; cbn [kind_eqb andb sScope sTarget sPk]; rewrite get_zset, get_mark, get_settledmark;
      repeat case_bool_decide; simplify_eq; lia.
  - destruct (shadowmark db !! mkey s) as [[e pk]|]; [|split; [|done]].
    + split; [|by destruct (String.eqb pk (sPk s))]. destruct (String.eqb pk (sPk s)); cbn [snd];
        unfold ckey, at_pk; rewrite !get_incr; cbn [kind_eqb andb sScope sTarget sPk]; rewrite get_shadowmark, get_settledmark;
        repeat case_bool_decide; simplify_eq; lia.
    + cbn [snd]. unfold ckey. rewrite !get_incr. cbn [kind_eqb andb]. rewrite get_settledmark.
      repeat case_bool_decide; simplify_eq; lia.
Qed.

Lemma settle_again s c db a :
  isSettled (mkey s) db = true ->
  get (KSettled, a) (snd (budgetSettle s c db)) = get (KSettled, a) db /\ settledmark (snd (budgetSettle s c db)) = settledmark db.
Proof.
  intros E. unfold budgetSettle, release. rewrite E. cbn [snd].
  destruct (resvmark db !! mkey s) as [[e pk]|]; [|destruct (shadowmark db !! mkey s) as [[e pk]|]; [|done]];
    (split; [|done]); unfold ckey; rewrite !get_incr; cbn [kind_eqb andb]; rewrite ?get_zset, ?get_mark, ?get_shadowmark; lia.
Qed.

(** Reservations, reaping and the other expiries count nothing. *)
Lemma other_ops_count_nothing o db a :
  match o with OpSettle _ _ | OpSettledExpires _ => False | _ => True end ->
  get (KSettled, a) (budget_step db o) = get (KSettled, a) db /\ settledmark (budget_step db o) = settledmark db.
Proof.
  destruct o as [s e l ex| |m|m r|k| |k]; cbn [budget_step]; intros H; try done.
  - unfold budgetReserveMark. destruct (isSettled _ _); [done|]. destruct (resvmark db !! mkey s); [done|].
    destruct (l <? _); (split; [|done]); cbn [snd]; unfold ckey; rewrite ?get_mark, ?get_zset, !get_incr; cbn [kind_eqb andb];
      rewrite ?get_zset, ?get_incr; cbn [kind_eqb andb]; rewrite ?get_mark; lia.
  - unfold budgetReapOrphan. destruct (resvmark db !! _); [done|]. destruct (resvexp db !! m); [|done].
    cbn [zset shadowmark]. destruct (shadowmark db !! _); (split; [|done]); cbn [snd]; rewrite !get_incr; cbn [kind_eqb andb];
      rewrite ?get_shadowmark; unfold get; cbn; lia.
Qed.

(** The traffic is admissible when a request settles at its cost and not after its
    certified mark has expired, and when no mark expires without a certificate from before. *)
Definition op_ok (c0 : gset rkey) (st : calib_db) (o : budget_op) : Prop :=
  match o with
  | OpSettle s c => c = cost (mkey s) /\ (mkey s ∈ certs st -> mkey s ∈ settledmark (redis st))
  | OpSettledExpires k => k ∈ c0
  | _ => True
  end.

Lemma settle_counted s st :
  (mkey s ∈ certs st -> mkey s ∈ settledmark (redis st)) ->
  Counted st -> Counted (with_redis st (snd (budgetSettle s (cost (mkey s)) (redis st)))).
Proof.
  intros Hc. destruct (isSettled (mkey s) (redis st)) eqn:E.
  - apply counted_same; [|intros a; by apply settle_again]. unfold counted. cbn [redis with_redis certs].
    by rewrite (proj2 (settle_again s (cost (mkey s)) (redis st) ("", "", "") E)).
  - unfold isSettled in E. apply bool_decide_eq_false in E as Hn.
    assert (isSettled (mkey s) (redis st) = false) as E' by (unfold isSettled; by apply bool_decide_eq_false_2).
    apply (counted_one st _ (mkey s) (sPk s)).
    + unfold counted. set_solver.
    + unfold counted. cbn [redis with_redis certs].
      rewrite (proj2 (settle_settled s (cost (mkey s)) (redis st) ("", "", "") E')). set_solver.
    + intros a. exact (proj1 (settle_settled s (cost (mkey s)) (redis st) a E')).
Qed.

Lemma op_counted c0 st o :
  c0 ⊆ certs st -> op_ok c0 st o -> Counted st -> Counted (with_redis st (budget_step (redis st) o)).
Proof.
  intros Hc0 Hok HC.
  assert (match o with OpSettle _ _ | OpSettledExpires _ => False | _ => True end ->
    Counted (with_redis st (budget_step (redis st) o))) as Hother.
  { intros Ho. revert HC. apply counted_same; [|intros a; by apply other_ops_count_nothing].
    unfold counted. cbn [redis with_redis certs]. f_equal. by apply (other_ops_count_nothing o (redis st) ("", "", "")). }
  destruct o as [| s c| | | |k|]; try (by apply Hother).
  - destruct Hok as [-> Hc]. by apply settle_counted.
  - revert HC. cbn in Hok. apply counted_same; [|done]. unfold counted.
    change (settledmark (redis st) ∖ {[k]} ∪ certs st = settledmark (redis st) ∪ certs st). apply set_eq. intros x. rewrite !elem_of_union, elem_of_difference, elem_of_singleton.
    destruct (decide (x = k)) as [->|Hne]; [|tauto]. assert (k ∈ certs st) by set_solver. tauto.
Qed.

End Counting.

(** *** Far pages *)

Lemma get_raise x k v db :
  get x (raise k v db) = if bool_decide (x = k) then match counters db !! k with None => v | Some cur => Z.max cur v end else get x db.
Proof.
  unfold raise. destruct (counters db !! k) as [cur|] eqn:E; [|apply get_set_counter].
  case_bool_decide as Hx; [subst x|].
  - destruct (cur <? v) eqn:El.
    + unfold get, incr. cbn [counters]. rewrite lookup_insert_eq. cbn. unfold get. rewrite E. cbn. lia.
    + unfold get. rewrite E. cbn. lia.
  - destruct (cur <? v); [|done]. unfold get, incr. cbn [counters]. by rewrite lookup_insert_ne.
Qed.

Lemma raise_up k v db : get k db <= v -> get k (raise k v db) = v.
Proof.
  intros H. rewrite get_raise, bool_decide_true by done. unfold get in H.
  destruct (counters db !! k); cbn in H; lia.
Qed.

Lemma raise_other x k v db : x <> k -> get x (raise k v db) = get x db.
Proof. intros H. rewrite get_raise. by rewrite bool_decide_false. Qed.

Lemma raise_marks k v db : settledmark (raise k v db) = settledmark db /\ resvmark (raise k v db) = resvmark db /\ shadowmark (raise k v db) = shadowmark db.
Proof. unfold raise. by repeat case_match. Qed.

Lemma net_shadow_spec t k db :
  settledmark (net_shadow t k db) = settledmark db /\
  (forall a, get (KSettled, a) (net_shadow t k db) = get (KSettled, a) db) /\
  (forall a, get (KResv, a) (net_shadow t k db) = get (KResv, a) db) /\
  (forall a, excess a (net_shadow t k db) = excess a db).
Proof.
  unfold net_shadow. destruct (shadowmark db !! k) as [[e pk]|]; [|done].
  cbn [set_shadowmark counters]. destruct (counters db !! tkey KShadow t) as [shc|]; [|done].
  destruct (e - 1 <=? shc); [|done]. unfold tkey. split_and!; [done|..]; intros a.
  - rewrite !get_incr. cbn [kind_eqb andb]. rewrite get_shadowmark. lia.
  - rewrite !get_incr. cbn [kind_eqb andb]. rewrite get_shadowmark. lia.
  - rewrite !excess_incr, excess_shadowmark. cbn [sign]. case_bool_decide; lia.
Qed.

Lemma far_row_spec t inc fresh st r inc' fresh' st' :
  far_row t (inc, fresh, st) r = (inc', fresh', st') ->
  counted st' = {[row_key t r]} ∪ counted st /\
  certs st' = {[row_key t r]} ∪ certs st /\ settledmark (redis st') = {[row_key t r]} ∪ settledmark (redis st) /\
  lock st' = lock st /\
  (forall a, get (KSettled, a) (redis st') = get (KSettled, a) (redis st)) /\
  (forall a, excess a (redis st') = excess a (redis st)) /\
  (if bool_decide (row_key t r ∈ counted st) then inc' = inc /\ fresh' = fresh else inc' = inc + uCost r /\ fresh' = fresh + 1).
Proof.
  unfold far_row. set (k := row_key t r). intros H.
  destruct (net_shadow_spec t k (set_settledmark k true (redis st))) as (N1 & N2 & _ & N4).
  assert (bool_decide (k ∈ certs st) || isSettled k (redis st) = bool_decide (k ∈ counted st)) as E.
  { unfold isSettled, counted. destruct (decide (k ∈ certs st)) as [Hc|Hc].
    - rewrite (bool_decide_true (k ∈ certs st)), (bool_decide_true (k ∈ _ ∪ _)); [done|set_solver|done].
    - rewrite (bool_decide_false (k ∈ certs st)) by done. cbn [orb]. apply bool_decide_ext. set_solver. }
  rewrite E in H. destruct (bool_decide (k ∈ counted st)); injection H as <- <- <-;
    (split_and!; [unfold counted; cbn [redis with_redis with_cert certs]; rewrite N1; cbn [set_settledmark settledmark]; set_solver
      |done|exact N1|done|intros a; cbn [redis with_redis with_cert]; by rewrite N2|intros a; cbn [redis with_redis with_cert]; by rewrite N4|done|done]).
Qed.

Section FarCounting.
Context (cost : rkey -> Z).

Definition rows_ok (t : target) (rows : list usage_row) : Prop := Forall (fun r => uCost r = cost (row_key t r) /\ 0 < uCost r) rows.

(** The loop of a page adds up the cost of the requests it counts. *)
Lemma far_fold_spec t rows w inc fresh st inc' fresh' st' :
  rows_ok t rows -> (forall r, r ∈ rows -> row_key t r ∉ counted st -> w (row_key t r) = tPk t) ->
  fold_left (far_row t) rows (inc, fresh, st) = (inc', fresh', st') ->
  (forall k, k ∈ certs st' <-> k ∈ certs st \/ exists r, r ∈ rows /\ k = row_key t r) /\
  counted st ⊆ counted st' /\ lock st' = lock st /\
  (forall k, k ∈ settledmark (redis st) -> k ∈ settledmark (redis st')) /\
  (forall r, r ∈ rows -> row_key t r ∈ settledmark (redis st')) /\
  (forall a, get (KSettled, a) (redis st') = get (KSettled, a) (redis st)) /\
  (forall a, excess a (redis st') = excess a (redis st)) /\
  inc <= inc' /\ fresh <= fresh' /\ (fresh' = fresh -> inc' = inc) /\
  (forall a, sum_set (share cost w a) (counted st')
    = sum_set (share cost w a) (counted st) + (if bool_decide ((tScope t, tID t, tPk t) = a) then inc' - inc else 0)).
Proof.
  revert inc fresh st. induction rows as [|r rows IH]; intros inc fresh st Hok Hw; cbn [fold_left].
  - intros [= -> -> ->]. split_and!; try done; try lia; [intros k; split; [by left|intros [?|(r & Hr & _)]; [done|by apply not_elem_of_nil in Hr]]
      |intros r Hr; by apply not_elem_of_nil in Hr|intros a; case_bool_decide; lia].
  - inversion Hok as [|? ? [Hc Hpos] Hok']; subst. destruct (far_row t (inc, fresh, st) r) as [[inc1 fresh1] st1] eqn:E.
    apply far_row_spec in E as (C1 & C2 & C3 & C4 & C5 & C6 & C7). intros H.
    apply IH in H as (I1 & I2 & I3 & I4 & I5 & I6 & I7 & I8 & I9 & I10 & I11); [|done|].
    2:{ intros r' Hr' Hn. apply Hw; [by right|]. rewrite C1, not_elem_of_union in Hn. by destruct Hn. }
    assert (inc <= inc1 /\ fresh <= fresh1 /\ (fresh1 = fresh -> inc1 = inc)) as (D1 & D2 & D3)
      by (case_bool_decide; destruct C7 as [-> ->]; split_and!; lia).
    split_and!; try lia.
    + intros k. rewrite I1, C2. clear. set_solver.
    + rewrite C1 in I2. clear -I2. set_solver.
    + congruence.
    + intros k Hk. apply I4. rewrite C3. clear -Hk. set_solver.
    + intros r' Hr'. apply elem_of_cons in Hr' as [->|Hr']; [|auto]. apply I4. rewrite C3. clear. set_solver.
    + intros a. by rewrite I6, C5.
    + intros a. by rewrite I7, C6.
    + intros a. rewrite I11, C1. destruct (decide (row_key t r ∈ counted st)) as [Hin|Hin].
      * rewrite bool_decide_true in C7 by done. destruct C7 as [-> _].
        by replace ({[row_key t r]} ∪ counted st) with (counted st) by (clear -Hin; set_solver).
      * rewrite bool_decide_false in C7 by done. destruct C7 as [-> _]. rewrite sum_set_insert by done.
        unfold share at 1. rewrite (Hw r (list_elem_of_here _ _) Hin). cbn [row_key fst snd]. rewrite Hc.
        case_bool_decide; lia.
Qed.

Lemma far_counted token t rows st :
  rows_ok t rows -> Counted cost st -> Counted cost (snd (farConverge token t Inc rows st)).
Proof.
  intros Hok [w Hw]. unfold farConverge. destruct (negb _); [by exists w|].
  destruct (fold_left (far_row t) rows (0, 0, st)) as [[inc fresh] st'] eqn:E.
  set (w' := fun k => if bool_decide (k ∈ counted st) then w k else tPk t).
  assert (forall r, r ∈ rows -> row_key t r ∉ counted st -> w' (row_key t r) = tPk t) as Hpk
    by (intros r _ Hn; unfold w'; by rewrite bool_decide_false).
  destruct (far_fold_spec t rows w' 0 0 st inc fresh st' Hok Hpk E) as (_ & _ & _ & _ & _ & G & _ & P1 & P2 & P3 & S).
  assert (forall a, sum_set (share cost w' a) (counted st) = sum_set (share cost w a) (counted st)) as Hw'.
  { intros a. apply sum_set_ext. intros k Hk. unfold share, w'. by rewrite (bool_decide_true (k ∈ counted st)). }
  assert (forall a, get (KSettled, a) (redis st') + (if bool_decide ((tScope t, tID t, tPk t) = a) then inc else 0)
    = sum_set (share cost w' a) (counted st')) as Hsum.
  { intros a. rewrite S, Hw', G, Hw. case_bool_decide; lia. }
  destruct ((_ <? _) || (0 <? fresh)) eqn:Ec.
  - exists w'. intros a. cbn [snd redis with_redis]. unfold counted. cbn [redis with_redis certs].
    rewrite !(proj1 (raise_marks _ _ _)). fold (counted st'). rewrite <- Hsum.
    destruct (decide ((tScope t, tID t, tPk t) = a)) as [<-|Hne].
    + rewrite (bool_decide_true (_ = _)) by done. change (KSettled, (tScope t, tID t, tPk t)) with (tkey KSettled t).
      rewrite raise_up; [done|]. rewrite raise_other by done. lia.
    + rewrite (bool_decide_false (_ = _)) by done. rewrite raise_other by (unfold tkey; congruence).
      rewrite raise_other by (unfold tkey; congruence). lia.
  - exists w'. intros a. cbn [snd]. rewrite <- Hsum. apply orb_false_iff in Ec as [_ Ec]. rewrite P3 by lia. case_bool_decide; lia.
Qed.
End FarCounting.

(** ** Pages *)

Lemma page_elem sel ledger r : r ∈ page sel ledger -> r ∈ ledger /\ sel r = true.
Proof.
  unfold page. intros H. apply elem_of_take in H as (i & H & _). apply list_elem_of_lookup_2 in H.
  rewrite stable_sort_perm in H. apply list_elem_of_In, filter_In in H as [H1 H2]. split; [by apply list_elem_of_In|done].
Qed.

Lemma by_id_sorted l : StronglySorted (ordered by_id) (stable_sort by_id l).
Proof.
  apply (stable_sort_sorted by_id (fun _ => True)); unfold ordered, by_id.
  - intros x y _ _. lia.
  - intros x y z _ _ _. lia.
  - by apply Forall_true.
Qed.

Lemma sorted_last_max (l : list usage_row) d r :
  StronglySorted (ordered by_id) l -> r ∈ l -> uID r <= last_id l d.
Proof.
  unfold last_id. intros Hs. revert r. induction Hs as [|x l Hs IH Hx]; intros r Hr; [by apply not_elem_of_nil in Hr|].
  destruct l as [|y l].
  - apply list_elem_of_singleton in Hr as ->. done.
  - change (last (x :: y :: l)) with (last (y :: l)). apply elem_of_cons in Hr as [->|Hr]; [|by apply IH].
    inversion Hx; subst. assert (uID x <= uID y) by (unfold ordered, by_id in *; lia).
    pose proof (IH y ltac:(left)). lia.
Qed.

Lemma last_id_elem l d : l <> [] -> exists r, r ∈ l /\ uID r = last_id l d.
Proof.
  intros H. unfold last_id. destruct (last l) as [r|] eqn:E; [|by apply last_None in E].
  exists r. split; [|done]. by apply last_Some_elem_of.
Qed.

(** A selected row is on the page, or the page is full and the row comes after its last. *)
Lemma page_complete sel ledger r d :
  NoDup (map uID ledger) -> r ∈ ledger -> sel r = true ->
  r ∈ page sel ledger \/ (length (page sel ledger) = page_size /\ last_id (page sel ledger) d < uID r).
Proof.
  intros Hnd Hr Hsel. set (all := stable_sort by_id (List.filter sel ledger)).
  assert (r ∈ all) as Hall.
  { unfold all. rewrite stable_sort_perm. apply list_elem_of_In, filter_In. split; [by apply list_elem_of_In|done]. }
  assert (NoDup (map uID all)) as Hnd'.
  { unfold all. rewrite stable_sort_perm. clear -Hnd. induction ledger as [|x l IH]; [constructor|].
    cbn in *. inversion Hnd as [|? ? H1 H2]; subst. destruct (sel x); [|auto]. cbn. constructor; [|auto].
    intros Hx. apply H1. apply list_elem_of_fmap in Hx as (y & E & Hy). rewrite E. apply list_elem_of_fmap. exists y. split; [done|].
    apply list_elem_of_In, filter_In in Hy as [Hy _]. by apply list_elem_of_In. }
  pose proof (by_id_sorted (List.filter sel ledger)) as Hs. fold all in Hs.
  unfold page. fold all. rewrite <- (take_drop page_size all) in Hall, Hnd', Hs.
  apply elem_of_app in Hall as [Hall|Hall]; [by left|right].
  assert (length (take page_size all) = page_size) as Hlen.
  { rewrite length_take. assert (drop page_size all <> []) as Hd by (intros E; rewrite E in Hall; by apply not_elem_of_nil in Hall).
    destruct (decide (page_size <= length all)%nat) as [Hle|Hlt]; [by apply Nat.min_l|]. exfalso. apply Hd, drop_ge. lia. }
  split; [done|].
  destruct (last_id_elem (take page_size all) d) as (x & Hx & <-); [by intros E; rewrite E in Hlen|].
  rewrite map_app in Hnd'. apply NoDup_app in Hnd' as (_ & Hdis & _).
  assert (uID x <> uID r) as Hne.
  { intros E. apply (Hdis (uID x)); apply list_elem_of_fmap; eauto. }
  pose proof (StronglySorted_app_1_elem_of _ _ _ x r Hs Hx Hall) as Hle. unfold ordered, by_id in Hle. lia.
Qed.

(** ** A round keeps the count and certifies the ledger *)

Section RoundProofs.
Context (cost : rkey -> Z).
(** The certificates at the start of the round. *)
Context (c0 : gset rkey).

(** A row has an id from the sequence and carries the cost of its request. *)
Definition row_ok (r : usage_row) : Prop :=
  0 < uID r /\ forall scope id, scope_id scope r = Some id -> 0 < uCost r -> uCost r = cost (scope, pretty id, row_request r).

Definition is_v3 (w : watermark) : Prop := match w with WmV3 _ _ _ => True | WmOther => False end.

(** What others may do during the round. *)
Definition event_ok (w : world) (e : event) : Prop :=
  match e with
  | EOp o => op_ok cost c0 (wDB w) o
  | EInsert r => row_ok r /\ uID r ∉ map uID (wLedger w)
  | ELock _ => True
  | ECert k => k ∈ settledmark (redis (wDB w))
  | EFar _ t mode rows => mode = Inc /\ rows_ok cost t rows
  | EWatermark _ wm => is_v3 wm
  end.

Fixpoint events_ok (es : list event) (w : world) : Prop :=
  match es with [] => True | e :: es => event_ok w e /\ events_ok es (event_step w e) end.

(** The database invariant: what is counted adds up; certificates of this round
    come with a mark; watermarks are current. *)
Record db_ok (st : calib_db) : Prop := {
  d_counted : Counted cost st;
  d_c0 : c0 ⊆ certs st;
  d_marked : forall k, k ∉ c0 -> k ∈ certs st -> k ∈ settledmark (redis st);
  d_v3 : forall a wm, watermarks st !! a = Some wm -> is_v3 wm
}.

Record world_ok (w : world) : Prop := {
  w_db : db_ok (wDB w);
  w_rows : Forall row_ok (wLedger w);
  w_ids : NoDup (map uID (wLedger w))
}.

(** Certificates and rows stay. *)
Definition db_grows (st st' : calib_db) : Prop := certs st ⊆ certs st'
  /\ (forall a, is_Some (watermarks st !! a) -> is_Some (watermarks st' !! a))
  /\ (forall k, k ∉ c0 -> k ∈ settledmark (redis st) -> k ∈ settledmark (redis st')).
Definition grows (w w' : world) : Prop := db_grows (wDB w) (wDB w') /\ exists l, wLedger w' = wLedger w ++ l.

Lemma db_grows_refl st : db_grows st st.
Proof. by split. Qed.

Lemma grows_refl w : grows w w.
Proof. split; [apply db_grows_refl|]. exists []. by rewrite app_nil_r. Qed.

Lemma grows_trans a b c : grows a b -> grows b c -> grows a c.
Proof.
  intros [(H1 & H2 & H2') (l1 & E1)] [(H3 & H4 & H4') (l2 & E2)]. split; [split_and!; [set_solver|auto|auto]|]. exists (l1 ++ l2). by rewrite E2, E1, app_assoc.
Qed.

(** A step on the database that is safe in every state of the invariant. *)
Definition safe_step (f : calib_db -> calib_db) : Prop := forall st, db_ok st -> db_ok (f st) /\ db_grows st (f st).

Lemma settled_marks_kept st o k :
  op_ok cost c0 st o -> k ∉ c0 -> k ∈ settledmark (redis st) -> k ∈ settledmark (budget_step (redis st) o).
Proof.
  intros Hok Hk Hin. pose proof (other_ops_count_nothing o (redis st) ("", "", "")) as Hother.
  destruct o as [| s c| | | |k'|]; try (by rewrite (proj2 (Hother I))).
  - cbn [budget_step]. destruct (isSettled (mkey s) (redis st)) eqn:E.
    + by rewrite (proj2 (settle_again s c (redis st) ("", "", "") E)).
    + rewrite (proj2 (settle_settled s c (redis st) ("", "", "") E)). set_solver.
  - cbn in Hok. cbn [budget_step]. change (k ∈ settledmark (redis st) ∖ {[k']}). set_solver.
Qed.

Lemma op_db_ok st o : op_ok cost c0 st o -> db_ok st -> db_ok (with_redis st (budget_step (redis st) o)).
Proof.
  intros Hok [H1 H2 H3 H4]. split; [by eapply op_counted|done| |done].
  intros k Hk Hc. apply settled_marks_kept; [done|done|by apply H3].
Qed.

Lemma cert_db_ok st k : k ∈ settledmark (redis st) -> db_ok st -> db_ok (with_cert st k).
Proof.
  intros Hk [H1 H2 H3 H4]. split; [|cbn; set_solver| |done].
  - revert H1. apply counted_same; [|done]. unfold counted. cbn [redis with_cert certs]. set_solver.
  - intros k' Hn Hc. cbn in Hc |- *. apply elem_of_union in Hc as [->%elem_of_singleton|Hc]; [done|by apply H3].
Qed.

Lemma far_certs token t mode rows st :
  (snd (farConverge token t mode rows st) = st /\ fst (farConverge token t mode rows st) = -1) \/
  ((forall k, k ∈ certs (snd (farConverge token t mode rows st)) <-> k ∈ certs st \/ exists r, r ∈ rows /\ k = row_key t r) /\
   (forall k, k ∈ settledmark (redis st) -> k ∈ settledmark (redis (snd (farConverge token t mode rows st)))) /\
   (forall r, r ∈ rows -> row_key t r ∈ settledmark (redis (snd (farConverge token t mode rows st)))) /\
   watermarks (snd (farConverge token t mode rows st)) = watermarks st).
Proof.
  unfold farConverge. destruct (negb _); [by left|right].
  destruct (fold_left (far_row t) rows ((0, 0), st)) as [[inc fresh] st'] eqn:E.
  assert ((forall k, k ∈ certs st' <-> k ∈ certs st \/ exists r, r ∈ rows /\ k = row_key t r) /\
    (forall k, k ∈ settledmark (redis st) -> k ∈ settledmark (redis st')) /\
    (forall r, r ∈ rows -> row_key t r ∈ settledmark (redis st')) /\ watermarks st' = watermarks st) as H.
  { clear mode. revert E. generalize (0, 0) as acc. intros [i f]. revert st i f.
    induction rows as [|r rows IH]; intros st i f; cbn [fold_left].
    - intros [= -> -> ->]. split_and!; [intros k; split; [by left|intros [?|(r & Hr & _)]; [done|by apply not_elem_of_nil in Hr]]|done
        |intros r Hr; by apply not_elem_of_nil in Hr|done].
    - destruct (far_row t (i, f, st) r) as [[i1 f1] st1] eqn:E1. intros H. apply IH in H as (I1 & I2 & I3 & I4).
      assert (watermarks st1 = watermarks st) as Hw by (unfold far_row in E1; destruct (_ || _) in E1; by injection E1 as _ _ <-).
      apply far_row_spec in E1 as (_ & C2 & C3 & _). split_and!.
      + intros k. rewrite I1, C2. set_solver.
      + intros k Hk. apply I2. set_solver.
      + intros r' Hr'. apply elem_of_cons in Hr' as [->|Hr']; [|auto]. apply I2. set_solver.
      + congruence. }
  destruct (_ || _); cbn [snd]; [|exact H]. destruct H as (H1 & H2 & H3 & H4).
  cbn [certs redis with_redis watermarks]. rewrite !(proj1 (raise_marks _ _ _)). done.
Qed.

Lemma far_db_ok token t rows st :
  rows_ok cost t rows -> db_ok st -> db_ok (snd (farConverge token t Inc rows st)) /\ db_grows st (snd (farConverge token t Inc rows st)).
Proof.
  intros Hr HD. pose proof HD as [H1 H2 H3 H4]. destruct (far_certs token t Inc rows st) as [[-> _]|(F1 & F2 & F3 & F4)]; [by split|].
  split.
  - split; [by apply far_counted|intros k Hk; apply F1; left; by apply H2| |by rewrite F4].
    intros k Hn [Hc|(r & Hr' & ->)]%F1; [by apply F2, H3|by apply F3].
  - split_and!; [intros k Hk; apply F1; by left|by rewrite F4|intros k _; apply F2].
Qed.
Lemma event_world_ok w e : event_ok w e -> world_ok w -> world_ok (event_step w e) /\ grows w (event_step w e).
Proof.
  intros He [HD HR HI]. assert (forall st, db_ok st -> db_grows (wDB w) st ->
    world_ok (mkWorld (wSent w) st (wLedger w)) /\ grows w (mkWorld (wSent w) st (wLedger w))) as Hdb.
  { intros st H1 H2. split; [by split|]. split; [done|]. exists []. by rewrite app_nil_r. }
  destruct e as [o|r|l|k|token t mode rows|a wm]; cbn [event_step event_ok] in *.
  - apply Hdb; [by apply op_db_ok|]. split_and!; [done|done|]. intros k. by apply settled_marks_kept.
  - destruct He as [Hr Hid]. split; [|split; [apply db_grows_refl|by exists [r]]]. split; [done|..]; cbn [wLedger].
    + apply Forall_app. auto.
    + rewrite map_app. apply NoDup_app. split_and!; [done| |apply NoDup_singleton].
      intros x Hx ->%list_elem_of_singleton. done.
  - apply Hdb; [|by split]. destruct HD as [H1 H2 H3 H4]. by split.
  - apply Hdb; [by apply cert_db_ok|]. split_and!; [cbn; set_solver|done|done].
  - destruct He as [-> Hrows]. apply Hdb; by apply far_db_ok.
  - destruct HD as [H1 H2 H3 H4]. apply Hdb.
    + split; [done|done|done|]. intros b wm'. cbn. destruct (decide (a = b)) as [<-|Hne]; [rewrite lookup_insert_eq; by intros [= <-]|].
      rewrite lookup_insert_ne by done. apply H4.
    + split_and!; [done| |done]. intros b Hb. cbn. destruct (decide (a = b)) as [<-|Hne]; [rewrite lookup_insert_eq; eauto|].
      by rewrite lookup_insert_ne.
Qed.

Lemma events_world_ok es w : events_ok es w -> world_ok w -> world_ok (fold_left event_step es w) /\ grows w (fold_left event_step es w).
Proof.
  revert w. induction es as [|e es IH]; intros w Hes Hw; [split; [done|apply grows_refl]|]. destruct Hes as [He Hes].
  destruct (event_world_ok w e He Hw) as [H1 H2]. destruct (IH _ Hes H1) as [H3 H4]. split; [done|by eapply grows_trans].
Qed.

(** *** The commands of the round *)

Context (others : nat -> world -> list event) (net : nat -> fate) (clock : nat -> Z) (liveIntents : nat -> Z) (cut : nat -> nat).
Context (guard : Z) (token : string).
Context (others_ok : forall n w, world_ok w -> events_ok (others n w) w).

Lemma interfere_ok w : world_ok w -> world_ok (interfere others w) /\ grows w (interfere others w).
Proof using others_ok.
  intros Hw. destruct (events_world_ok _ w (others_ok (wSent w) w Hw) Hw) as [[H1 H2 H3] H4]. done.
Qed.

Lemma call_ok {A} (f : calib_db -> A * calib_db) w r w' :
  world_ok w -> (forall st, db_ok st -> db_grows (wDB w) st -> db_ok (snd (f st)) /\ db_grows st (snd (f st))) ->
  call others net f w = (r, w') ->
  world_ok w' /\ grows w w' /\
  (forall a, r = Some a -> exists st, db_ok st /\ db_grows (wDB w) st /\ f st = (a, wDB w')).
Proof using others_ok.
  intros Hw Hf. destruct (interfere_ok w Hw) as [Hi Hg]. unfold call.
  destruct (Hf _ (w_db _ Hi) (proj1 Hg)) as [Hd Hg2].
  assert (world_ok (mkWorld (wSent (interfere others w)) (snd (f (wDB (interfere others w)))) (wLedger (interfere others w)))
    /\ grows w (mkWorld (wSent (interfere others w)) (snd (f (wDB (interfere others w)))) (wLedger (interfere others w)))) as [H1 H2].
  { destruct Hi as [_ H2 H3]. split; [by split|]. eapply grows_trans; [exact Hg|]. split; [done|]. exists []. by rewrite app_nil_r. }
  destruct (f (wDB (interfere others w))) as [a st] eqn:Ef. cbn [snd] in *.
  destruct (net (wSent w)); intros [= <- <-]; split_and!; try done.
  intros a' [= <-]. exists (wDB (interfere others w)). split_and!; [apply Hi|apply Hg|done].
Qed.

Lemma query_ok {A} (f : list usage_row -> A) w r w' :
  world_ok w -> query others net f w = (r, w') ->
  world_ok w' /\ grows w w' /\ (forall a, r = Some a -> a = f (wLedger w')).
Proof using others_ok.
  intros Hw. destruct (interfere_ok w Hw) as [Hi Hg]. unfold query.
  destruct (net (wSent w)); intros [= <- <-]; split_and!; try done. by intros a [= <-].
Qed.

Lemma read_ok {A} (f : calib_db -> A) w r w' :
  world_ok w -> call others net (read f) w = (r, w') ->
  world_ok w' /\ grows w w' /\ (forall a, r = Some a -> a = f (wDB w')).
Proof using others_ok.
  intros Hw H. apply call_ok in H as (H1 & H2 & H3); [|done|]. 2:{ intros st Hst _. split; [done|apply db_grows_refl]. }
  split_and!; [done|done|]. intros a Ha. destruct (H3 a Ha) as (st & _ & _ & E). unfold read in E. by injection E as <- <-.
Qed.

Section TargetProofs.
Context (t : target) (id : Z) (period : string) (start end_ : Z).
Context (t_id : tID t = pretty id).

Lemma near_key_row r : uRequest r <> "" -> near_key t r = row_key t r.
Proof using. intros H. unfold near_key, row_key, row_request. by destruct (String.eqb_spec (uRequest r) ""). Qed.

Lemma scope_cost r : row_ok r -> scope_id (tScope t) r = Some id -> 0 < uCost r -> uCost r = cost (row_key t r).
Proof using t_id. intros Hr Hs Hc. unfold row_key. rewrite t_id. by apply (proj2 Hr). Qed.

(** A near row: the script of an uncertified request, then its certificate. *)
Lemma near_rows_ok rows w e w' :
  world_ok w -> near_rows others net t period rows w = (e, w') ->
  Forall (fun rb => row_ok (fst rb) /\ scope_id (tScope t) (fst rb) = Some id /\ 0 < uCost (fst rb) /\ uRequest (fst rb) <> ""
    /\ (snd rb = true -> row_key t (fst rb) ∈ certs (wDB w)) /\ (snd rb = false -> row_key t (fst rb) ∉ c0)) rows ->
  world_ok w' /\ grows w w' /\ (e = None -> forall rb, rb ∈ rows -> row_key t (fst rb) ∈ certs (wDB w')).
Proof using others_ok t_id.
  revert w. induction rows as [|[r b] rows IH]; intros w Hw; cbn [near_rows].
  { intros [= <- <-] _. split_and!; [done|apply grows_refl|]. intros _ rb Hrb. by apply not_elem_of_nil in Hrb. }
  intros H HF. inversion HF as [|? ? (Hr & Hs & Hc & Hq & Ht & Hf) HF']; subst. cbn [fst snd] in *.
  assert (forall w1, grows w w1 -> Forall (fun rb => row_ok (fst rb) /\ scope_id (tScope t) (fst rb) = Some id /\ 0 < uCost (fst rb)
    /\ uRequest (fst rb) <> "" /\ (snd rb = true -> row_key t (fst rb) ∈ certs (wDB w1)) /\ (snd rb = false -> row_key t (fst rb) ∉ c0)) rows) as Hlater.
  { intros w1 [(Hg & _ & _) _]. eapply Forall_impl; [exact HF'|]. intros rb (? & ? & ? & ? & H5 & ?). split_and!; try done. intros Hb. by apply Hg, H5. }
  destruct b.
  - apply IH in H as (H1 & H2 & H3); [|done|done]. split_and!; [done|done|]. intros He rb [->|Hrb]%elem_of_cons; [|auto].
    apply H2. by apply Ht.
  - assert (mkey (settle_ref t period r) = row_key t r) as Hk by (rewrite <- near_key_row by done; reflexivity).
    assert (row_key t r ∉ c0) as Hn by (by apply Hf).
    destruct (call others net _ w) as [[a|] w1] eqn:E1; apply call_ok in E1 as (W1 & G1 & S1); try done.
    2,4: intros st Hst _; destruct (budgetSettle (settle_ref t period r) (uCost r) (redis st)) as [x db] eqn:Eb; cbn [snd];
      replace db with (budget_step (redis st) (OpSettle (settle_ref t period r) (uCost r))) by (cbn; by rewrite Eb);
      (split; [|split_and!; [done|done|intros k; apply settled_marks_kept]]); [apply op_db_ok; [|done]|]; cbn [op_ok]; rewrite Hk; (split; [by apply scope_cost|by apply (d_marked st Hst)]).
    2:{ injection H as <- <-. split_and!; [done|done|done]. }
    assert (row_key t r ∈ settledmark (redis (wDB w1))) as Hmark.
    { destruct (S1 a eq_refl) as (st & Hst & _ & E). destruct (budgetSettle _ _ _) as [x db] eqn:Eb. injection E as _ <-. cbn [redis with_redis].
      replace db with (snd (budgetSettle (settle_ref t period r) (uCost r) (redis st))) by (by rewrite Eb). rewrite <- Hk.
      destruct (isSettled (mkey (settle_ref t period r)) (redis st)) eqn:Es.
      - rewrite (proj2 (settle_again _ _ _ ("", "", "") Es)). unfold isSettled in Es. by apply bool_decide_eq_true in Es.
      - rewrite (proj2 (settle_settled _ _ _ ("", "", "") Es)). set_solver. }
    destruct (call others net _ w1) as [[u|] w2] eqn:E2; apply call_ok in E2 as (W2 & G2 & S2); try done.
    2,4: intros st Hst (_ & _ & Hg); cbn [write snd]; rewrite near_key_row by done; (split; [apply cert_db_ok; [|done]; by apply Hg|]);
      split_and!; [cbn; set_solver|done|done].
    2:{ injection H as <- <-. split_and!; [done|by eapply grows_trans|done]. }
    apply IH in H as (H1 & H2 & H3); [|done|apply Hlater; by eapply grows_trans].
    split_and!; [done|eapply grows_trans; [exact G1|by eapply grows_trans]|].
    intros He rb [->|Hrb]%elem_of_cons; [|auto]. apply H2. destruct (S2 u eq_refl) as (st & _ & _ & E).
    assert (wDB w2 = with_cert st (near_key t r)) as -> by (unfold write in E; congruence). cbn [certs with_cert fst]. rewrite near_key_row by done. set_solver.
Qed.
Lemma in_scope_id lo hi r : in_scope (tScope t) id lo hi r = true -> scope_id (tScope t) r = Some id.
Proof using. unfold in_scope. rewrite !andb_true_iff, bool_decide_eq_true. tauto. Qed.

Lemma grows_elem w w' r : grows w w' -> r ∈ wLedger w -> r ∈ wLedger w'.
Proof using. intros [_ (l & ->)] Hr. apply elem_of_app. by left. Qed.

Lemma renew_ok w r w' :
  world_ok w -> call others net (lockRenew token) w = (r, w') -> world_ok w' /\ grows w w'.
Proof using others_ok.
  intros Hw H. apply call_ok in H as (H1 & H2 & _); [done|done|]. intros st Hst _. split; [done|apply db_grows_refl].
Qed.

(** What the near page hands to [near_rows]. *)
Lemma near_page_rows ledger lastID guardID w :
  Forall row_ok ledger -> c0 ⊆ certs (wDB w) ->
  let rows := page (near_sel t id start end_ lastID guardID) ledger in
  Forall (fun rb => row_ok (fst rb) /\ scope_id (tScope t) (fst rb) = Some id /\ 0 < uCost (fst rb) /\ uRequest (fst rb) <> ""
    /\ (snd rb = true -> row_key t (fst rb) ∈ certs (wDB w)) /\ (snd rb = false -> row_key t (fst rb) ∉ c0))
    (zip rows (map (fun r => bool_decide (near_key t r ∈ certs (wDB w))) rows)).
Proof using others_ok t_id.
  intros Hrows Hc0 rows. apply Forall_forall. intros [r b] Hrb. cbn [fst snd].
  assert (r ∈ rows /\ b = bool_decide (near_key t r ∈ certs (wDB w))) as [Hr ->].
  { apply list_elem_of_lookup in Hrb as [n Hn]. rewrite lookup_zip_with, list_lookup_fmap in Hn.
    destruct (rows !! n) as [r'|] eqn:E; [|done]. cbn in Hn. injection Hn as <- <-. split; [by apply list_elem_of_lookup_2 in E|done]. }
  apply page_elem in Hr as [Hr Hsel]. unfold near_sel in Hsel. rewrite !andb_true_iff, negb_true_iff in Hsel.
  destruct Hsel as ((((Hs & Hc) & Hq) & _) & _). assert (uRequest r <> "") as Hq' by (intros E; by rewrite E in Hq).
  rewrite Forall_forall in Hrows. split_and!; [by apply Hrows|by eapply in_scope_id|lia|done|..]; rewrite near_key_row by done.
  - by rewrite bool_decide_eq_true.
  - rewrite bool_decide_eq_false. set_solver.
Qed.

Lemma near_loop_ok fuel guardID lastID w res w' :
  world_ok w -> near_loop others net token t id period start end_ fuel guardID lastID w = (res, w') ->
  world_ok w' /\ grows w w' /\
  (forall l, res = inr l -> forall r, r ∈ wLedger w -> near_sel t id start end_ lastID guardID r = true -> row_key t r ∈ certs (wDB w')).
Proof using clock liveIntents cut others_ok t_id.
  revert lastID w. induction fuel as [|fuel IH]; intros lastID w Hw; cbn [near_loop].
  { intros [= <- <-]. split_and!; [done|apply grows_refl|done]. }
  set (sel := near_sel t id start end_ lastID guardID).
  destruct (query others net (page sel) w) as [[rows|] w1] eqn:E1; apply query_ok in E1 as (W1 & G1 & S1); try done.
  2:{ intros [= <- <-]. split_and!; done. }
  pose proof (S1 rows eq_refl) as Erows.
  assert (forall r, r ∈ wLedger w -> sel r = true -> r ∈ rows \/ (length rows = page_size /\ last_id rows lastID < uID r)) as Hpage.
  { intros r Hr Hsel. rewrite Erows. apply page_complete; [apply W1|by eapply grows_elem|done]. }
  destruct rows as [|r0 rows0] eqn:Er0.
  { intros [= <- <-]. split_and!; [done|done|]. intros l _ r Hr Hsel. destruct (Hpage r Hr Hsel) as [?%not_elem_of_nil|[? _]]; done. }
  rewrite <- Er0 in *. clear Er0 r0 rows0.
  destruct (call others net (lockRenew token) w1) as [[v|] w2] eqn:E2; apply renew_ok in E2 as [W2 G2]; try done.
  2:{ intros [= <- <-]. split_and!; [done|by eapply grows_trans|done]. }
  destruct (decide (v = 1)) as [->|Hv].
  2:{ intros H. assert ((inl LockLost, w2) = (res, w')) as [= <- <-] by (rewrite <- H; destruct v as [|[]|]; try done; by destruct Hv).
      split_and!; [done|by eapply grows_trans|done]. }
  destruct (call others net (read _) w2) as [[flags|] w3] eqn:E3; apply read_ok in E3 as (W3 & G3 & S3); try done.
  2:{ intros [= <- <-]. split_and!; [done|eapply grows_trans; [exact G1|by eapply grows_trans]|done]. }
  rewrite (S3 flags eq_refl). pose proof (near_page_rows (wLedger w1) lastID guardID w3 (w_rows _ W1) (d_c0 _ (w_db _ W3))) as HF.
  cbv zeta in HF. fold sel in HF. rewrite <- Erows in HF.
  assert (grows w w3) as G13 by (eapply grows_trans; [exact G1|by eapply grows_trans]).
  destruct (near_rows others net t period _ w3) as [e w4] eqn:E4. apply near_rows_ok in E4 as (W4 & G4 & S4); [|done|exact HF].
  destruct e as [e|]; [intros [= <- <-]; split_and!; [done|by eapply grows_trans|done]|].
  assert (forall r, r ∈ rows -> row_key t r ∈ certs (wDB w4)) as Hdone.
  { intros r Hr. apply list_elem_of_lookup in Hr as [n Hn].
    apply (S4 eq_refl (r, bool_decide (near_key t r ∈ certs (wDB w3)))). apply (list_elem_of_lookup_2 _ n).
    rewrite lookup_zip_with, list_lookup_fmap, Hn. done. }
  destruct (length rows <? page_size)%nat eqn:El.
  - intros [= <- <-]. split_and!; [done|by eapply grows_trans|]. intros l _ r Hr Hsel. apply Nat.ltb_lt in El.
    destruct (Hpage r Hr Hsel) as [?|[? _]]; [auto|lia].
  - intros H. apply IH in H as (W5 & G5 & S5); [|done]. split_and!; [done|eapply grows_trans; [exact G13|by eapply grows_trans]|].
    intros l Hl r Hr Hsel. destruct (Hpage r Hr Hsel) as [Hin|[_ Hlast]]; [apply G5; auto|].
    apply (S5 l Hl r); [eapply grows_elem; [exact G4|by eapply grows_elem]|].
    unfold sel, near_sel in *. rewrite !andb_true_iff in *. split_and!; try tauto. lia.
Qed.

Lemma far_loop_ok fuel guardID farCursor w res w' :
  world_ok w -> far_loop others net cut token t fuel Inc None (far_sel t id start end_ guardID) farCursor w = (res, w') ->
  world_ok w' /\ grows w w' /\
  (res = None -> forall r, r ∈ wLedger w -> far_sel t id start end_ guardID farCursor r = true -> row_key t r ∈ certs (wDB w')).
Proof using clock liveIntents cut others_ok t_id.
  revert farCursor w. induction fuel as [|fuel IH]; intros farCursor w Hw; cbn [far_loop].
  { intros [= <- <-]. split_and!; [done|apply grows_refl|done]. }
  set (sel := far_sel t id start end_ guardID farCursor). cbn [far_page].
  destruct (query others net _ w) as [[rows|] w1] eqn:E1; apply query_ok in E1 as (W1 & G1 & S1); try done.
  2:{ intros [= <- <-]. split_and!; done. }
  pose proof (S1 rows eq_refl) as Erows. cbv beta in Erows.
  assert (forall r, r ∈ wLedger w -> sel r = true -> r ∈ rows \/ (length rows = page_size /\ last_id rows farCursor < uID r)) as Hpage.
  { intros r Hr Hsel. rewrite Erows. apply page_complete; [apply W1|by eapply grows_elem|done]. }
  assert (rows_ok cost t rows) as Hrows.
  { rewrite Erows. apply Forall_forall. intros r [Hr Hsel]%page_elem. unfold sel, far_sel in Hsel. rewrite !andb_true_iff in Hsel.
    destruct Hsel as (((Hs & Hc) & _) & _). pose proof (w_rows _ W1) as HR. rewrite Forall_forall in HR.
    split; [apply scope_cost; [by apply HR|by eapply in_scope_id|lia]|lia]. }
  destruct rows as [|r0 rows0] eqn:Er0.
  { intros [= <- <-]. split_and!; [done|done|]. intros _ r Hr Hsel. destruct (Hpage r Hr Hsel) as [?%not_elem_of_nil|[? _]]; done. }
  rewrite <- Er0 in *. clear Er0 r0 rows0.
  destruct (call others net (lockRenew token) w1) as [[v|] w2] eqn:E2; apply renew_ok in E2 as [W2 G2]; try done.
  2:{ intros [= <- <-]. split_and!; [done|by eapply grows_trans|done]. }
  destruct (decide (v = 1)) as [->|Hv].
  2:{ intros H. assert ((Some LockLost, w2) = (res, w')) as [= <- <-] by (rewrite <- H; destruct v as [|[]|]; try done; by destruct Hv).
      split_and!; [done|by eapply grows_trans|done]. }
  destruct (call others net (farConverge token t Inc rows) w2) as [[a|] w3] eqn:E3; apply call_ok in E3 as (W3 & G3 & S3); try done.
  2,4: intros st Hst _; by apply far_db_ok.
  2:{ intros [= <- <-]. split_and!; [done|eapply grows_trans; [exact G1|by eapply grows_trans]|done]. }
  assert (grows w w3) as G13 by (eapply grows_trans; [exact G1|by eapply grows_trans]).
  destruct (decide (a = -1)) as [->|Ha].
  { intros [= <- <-]. done. }
  assert (forall r, r ∈ rows -> row_key t r ∈ certs (wDB w3)) as Hdone.
  { intros r Hr. destruct (S3 a eq_refl) as (st & _ & _ & Ef). destruct (far_certs token t Inc rows st) as [[_ E]|(F & _)].
    - rewrite Ef in E. cbn in E. congruence.
    - rewrite Ef in F. apply F. right. eauto. }
  intros H. assert ((if (length rows <? page_size)%nat then (None, w3)
    else far_loop others net cut token t fuel Inc None (far_sel t id start end_ guardID) (last_id rows farCursor) w3) = (res, w')) as H'
    by (rewrite <- H; destruct a as [| |[]]; done).
  clear H. destruct (length rows <? page_size)%nat eqn:El.
  - injection H' as <- <-. split_and!; [done|done|]. intros _ r Hr Hsel. apply Nat.ltb_lt in El.
    destruct (Hpage r Hr Hsel) as [?|[? _]]; [auto|lia].
  - apply IH in H' as (W5 & G5 & S5); [|done]. split_and!; [done|by eapply grows_trans|].
    intros Hl r Hr Hsel. destruct (Hpage r Hr Hsel) as [Hin|[_ Hlast]]; [apply G5; auto|].
    apply (S5 Hl r); [by eapply grows_elem|].
    unfold sel, far_sel in *. rewrite !andb_true_iff in *. split_and!; try tauto. lia.
Qed.

Lemma max_id_ge sel ledger r : r ∈ ledger -> sel r = true -> uID r <= max_id sel ledger.
Proof using.
  intros Hr Hs. unfold max_id. assert (In r (List.filter sel ledger)) as Hin by (apply filter_In; split; [by apply list_elem_of_In|done]).
  assert (forall l m, m <= fold_left (fun m r => Z.max m (uID r)) l m) as Hmono.
  { intros l. induction l as [|x l IH]; intros m; cbn; [lia|]. specialize (IH (Z.max m (uID x))). lia. }
  revert Hin. generalize 0. generalize (List.filter sel ledger) as l. induction l as [|x l IH]; intros m; [done|].
  cbn [fold_left]. intros [->|Hin]; [|by apply IH]. specialize (Hmono l (Z.max m (uID r))). lia.
Qed.

Definition key : string * string * string := (tScope t, tID t, tPk t).

(** The rows that a completed target has certified: all but those that are at or
    below the cursor and still inside the guard window. *)
Definition covered (cursor horizon : Z) (r : usage_row) : Prop :=
  in_scope (tScope t) id start end_ r = true /\ 0 < uCost r /\ (uRequest r = "" \/ cursor < uID r \/ uAt r < horizon).

Lemma watermark_ok w wm r w' :
  is_v3 wm -> world_ok w -> call others net (write (fun st => with_watermark st key wm)) w = (r, w') ->
  world_ok w' /\ grows w w'.
Proof using others_ok.
  intros Hv Hw H. apply call_ok in H as (H1 & H2 & _); [done|done|]. intros st [H1 H2 H3 H4] _. cbn [write snd]. split.
  - split; [done|done|done|]. intros a wm'. cbn. destruct (decide (key = a)) as [<-|Hne]; [rewrite lookup_insert_eq; by intros [= <-]|].
    rewrite lookup_insert_ne by done. apply H4.
  - split_and!; [done| |done]. intros a Ha. cbn. destruct (decide (key = a)) as [<-|Hne]; [rewrite lookup_insert_eq; eauto|].
    by rewrite lookup_insert_ne.
Qed.

Lemma get_or_zero_ok k w v w' : world_ok w -> get_or_zero others net k w = (v, w') -> world_ok w' /\ grows w w'.
Proof using others_ok.
  intros Hw. unfold get_or_zero. destruct (call others net _ w) as [x w1] eqn:E. apply read_ok in E as (H1 & H2 & _); [|done].
  by intros [= _ <-].
Qed.

Lemma finish_ok lastID guardID w res w' :
  world_ok w -> finish_target others net t lastID guardID w = (res, w') -> world_ok w' /\ grows w w'.
Proof using others_ok.
  intros Hw. unfold finish_target. destruct (get_or_zero others net _ w) as [v w1] eqn:E1. apply get_or_zero_ok in E1 as [H1 G1]; [|done].
  destruct (call others net _ w1) as [u w2] eqn:E2. apply watermark_ok in E2 as [H2 G2]; [|done|done].
  intros [= _ <-]. split; [done|by eapply grows_trans].
Qed.

Lemma calibrate_ok fuel w res w' :
  world_ok w -> is_Some (watermarks (wDB w) !! key) -> tScope t ∈ ["team"; "org"; "key"] ->
  calibrateTarget others net clock liveIntents cut guard token t id period start end_ fuel w = (res, w') ->
  world_ok w' /\ grows w w' /\
  (forall spent, res = inr spent -> (exists n, 0 < liveIntents n) \/
    exists w1 n sp cursor g, grows w w1 /\ watermarks (wDB w1) !! key = Some (WmV3 sp cursor g) /\
      forall r, r ∈ wLedger w -> covered cursor (clock n - (guard + 10 * Minute)) r -> row_key t r ∈ certs (wDB w')).
Proof using others_ok t_id.
  intros Hw Hwm Hsc. unfold calibrateTarget. rewrite bool_decide_true by done. cbn [negb].
  destruct (call others net (read _) w) as [[wm|] w1] eqn:E1; apply read_ok in E1 as (W1 & G1 & S1); try done.
  2:{ intros [= <- <-]. split_and!; done. }
  assert (exists sp cursor g, wm = Some (WmV3 sp cursor g) /\ watermarks (wDB w1) !! key = Some (WmV3 sp cursor g)) as (sp & cursor & g & -> & Hw1).
  { rewrite (S1 wm eq_refl). unfold read_watermark. fold key. destruct G1 as [(_ & Gw & _) _]. destruct (Gw key Hwm) as [x Hx]. rewrite Hx.
    pose proof (d_v3 _ (w_db _ W1) key x Hx) as Hv. destruct x as [sp c g|]; [|done]. eauto 10. }
  set (horizon := clock (wSent w1) - (guard + 10 * Minute)).
  destruct (query others net _ w1) as [[guardID|] w2] eqn:E2; apply query_ok in E2 as (W2 & G2 & S2); try done.
  2:{ intros [= <- <-]. split_and!; [done|by eapply grows_trans|done]. }
  assert (grows w w2) as G12 by (by eapply grows_trans).
  destruct (0 <? liveIntents (wSent w2)) eqn:El.
  { destruct (get_or_zero others net _ w2) as [v w3] eqn:E3. apply get_or_zero_ok in E3 as [W3 G3]; [|done]. intros [= <- <-].
    split_and!; [done|by eapply grows_trans|]. intros _ _. left. exists (wSent w2). lia. }
  destruct (near_loop _ _ _ _ _ _ _ _ _ _ _ _) as [[e|lastID] w3] eqn:E3; apply near_loop_ok in E3 as (W3 & G3 & S3); try done.
  { intros [= <- <-]. split_and!; [done|by eapply grows_trans|done]. }
  destruct (far_loop _ _ _ _ _ _ _ _ _ _ _) as [[e|] w4] eqn:E4; apply far_loop_ok in E4 as (W4 & G4 & S4); try done.
  { intros [= <- <-]. split_and!; [done|eapply grows_trans; [exact G12|by eapply grows_trans]|done]. }
  intros H. apply finish_ok in H as [W5 G5]; [|done].
  assert (grows w w3) as G13 by (by eapply grows_trans).
  split_and!; [done|eapply grows_trans; [exact G13|by eapply grows_trans]|]. intros spent _. right.
  exists w1, (wSent w1), sp, cursor, g. split_and!; [done|done|]. fold horizon. intros r Hr (Hs & Hc & Hcov). apply G5.
  assert (0 < uID r) as Hid by (pose proof (w_rows _ Hw) as HR; rewrite Forall_forall in HR; by apply HR).
  destruct (decide (uRequest r = "" \/ uID r <= guardID)) as [Hfar|Hnear].
  - apply (S4 eq_refl r); [by eapply grows_elem|]. unfold far_sel. rewrite !andb_true_iff, orb_true_iff, String.eqb_eq.
    split_and!; [done|lia|destruct Hfar; [by left|right; lia]|lia].
  - assert (uRequest r <> "" /\ ~ uID r <= guardID) as [Hq Hg] by tauto. destruct Hcov as [?|[Hcur|Hold]]; [done|..].
    + apply G4, (S3 lastID eq_refl r); [by eapply grows_elem|]. unfold near_sel.
      rewrite !andb_true_iff, negb_true_iff, String.eqb_neq. split_and!; [done|lia|done|lia|lia].
    + exfalso. apply Hg. rewrite (S2 guardID eq_refl). apply max_id_ge; [by eapply grows_elem|].
      unfold in_scope in *. rewrite !andb_true_iff in *. split_and!; [tauto|tauto|unfold horizon in Hold; lia].
Qed.

End TargetProofs.
End RoundProofs.

(** C8: A completed incremental round converges to the usage ledger and counts no request twice. The
    target has a v3 watermark already and every watermark is v3, rows have distinct ids and carry the
    cost at which their request settles, and what others do meanwhile is [event_ok]: settlements at that
    cost and not after a certified mark expired, marks that expire only when certified before the round,
    new rows with new ids, incremental pages, certificates of settled requests, v3 watermarks. Then,
    next to such traffic, other replicas, inserted rows, failing commands and lost answers, the settled
    counters stay the sum of the costs of the counted requests, each once; and when the round completes
    and no live intent deferred it, every row that was in the ledger at its start is certified as
    counted, except those at or below the stored cursor that are still inside the guard window. Outside
    these conditions rows are lost or counted twice ([absolute_round_loses_row] in the first, absolute
    round of a target, [lost_exists_counts_twice], [broken_page_counts_twice]). *)
Theorem calibration_counts_ledger_once cost others net clock liveIntents cut guard token t id period start end_ fuel w res w' :
  let c0 := certs (wDB w) in
  Counted cost (wDB w) -> Forall (row_ok cost) (wLedger w) -> NoDup (map uID (wLedger w)) ->
  (forall a wm, watermarks (wDB w) !! a = Some wm -> is_v3 wm) -> is_Some (watermarks (wDB w) !! key t) ->
  (forall n w1, world_ok cost c0 w1 -> events_ok cost c0 (others n w1) w1) ->
  tID t = pretty id -> tScope t ∈ ["team"; "org"; "key"] ->
  calibrateTarget others net clock liveIntents cut guard token t id period start end_ fuel w = (res, w') ->
  Counted cost (wDB w') /\
  (forall spent, res = inr spent -> (exists n, 0 < liveIntents n) \/
    exists w1 n sp cursor g, grows c0 w w1 /\ watermarks (wDB w1) !! key t = Some (WmV3 sp cursor g) /\
      forall r, r ∈ wLedger w -> covered t id start end_ cursor (clock n - (guard + 10 * Minute)) r ->
        row_key t r ∈ certs (wDB w')).
Proof.
  intros c0 HC HR HN Hv Hwm Hothers Hid Hsc H.
  assert (world_ok cost c0 w) as Hw by (split; [split; [done|done|done|done]|done|done]).
  apply (calibrate_ok cost c0 others net clock liveIntents cut guard token Hothers t id period start end_ Hid) in H as (H1 & _ & H3);
    [|done|done|done].
  split; [apply H1|exact H3].
Qed.

(** ** The accounting identity *)





(** ** A quiet round completes *)

Definition quiet (n : nat) (w : world) : list event := [].
Definition delivered (n : nat) : fate := Delivered.

Section Quiet.
Context (token : string) (t : target) (id : Z) (period : string) (start end_ : Z).

(** What stays the same: the rows and the lease. *)
Definition steady (w w' : world) : Prop := wLedger w' = wLedger w /\ lock (wDB w') = lock (wDB w).

Lemma quiet_call {A} (f : calib_db -> A * calib_db) w :
  call quiet delivered f w = (Some (fst (f (wDB w))), mkWorld (S (wSent w)) (snd (f (wDB w))) (wLedger w)).
Proof. unfold call, interfere, quiet, delivered. cbn. by destruct (f (wDB w)). Qed.

Lemma quiet_query {A} (f : list usage_row -> A) w :
  query quiet delivered f w = (Some (f (wLedger w)), mkWorld (S (wSent w)) (wDB w) (wLedger w)).
Proof. reflexivity. Qed.

Lemma quiet_near_rows rows w : exists w', near_rows quiet delivered t period rows w = (None, w') /\ steady w w'.
Proof.
  revert w. induction rows as [|[r []] rows IH]; intros w; cbn [near_rows]; [by exists w|apply IH|].
  rewrite quiet_call. destruct (budgetSettle _ _ _) as [a db]. cbn [fst snd]. rewrite quiet_call.
  destruct (IH (mkWorld (S (S (wSent w))) (with_cert (with_redis (wDB w) db) (near_key t r)) (wLedger w))) as (w' & E & H1 & H2).
  exists w'. split; [exact E|]. split; [by rewrite H1|by rewrite H2].
Qed.

(** Each page but the last leaves fewer rows to the next. *)
Definition remaining (sel : Z -> usage_row -> bool) (cursor : Z) (ledger : list usage_row) : nat :=
  length (List.filter (sel cursor) ledger).

Lemma fewer_remain (sel : Z -> usage_row -> bool) cursor ledger :
  (forall c c' r, c <= c' -> sel c' r = true -> sel c r = true) -> (forall c r, sel c r = true -> c < uID r) ->
  page (sel cursor) ledger <> [] ->
  (remaining sel (last_id (page (sel cursor) ledger) cursor) ledger < remaining sel cursor ledger)%nat.
Proof.
  intros Hmono Hgt Hne. set (c' := last_id (page (sel cursor) ledger) cursor).
  destruct (last_id_elem (page (sel cursor) ledger) cursor Hne) as (x & [Hx Hsx]%page_elem & Ex). fold c' in Ex.
  assert (cursor <= c') as Hc by (pose proof (Hgt _ _ Hsx); lia).
  assert (sel c' x = false) as Hx' by (destruct (sel c' x) eqn:E; [apply Hgt in E; lia|done]).
  unfold remaining. clear Ex Hne. clearbody c'. revert Hx. induction ledger as [|y l IH]; [by intros ?%not_elem_of_nil|].
  assert (length (List.filter (sel c') l) <= length (List.filter (sel cursor) l))%nat as Hle.
  { clear IH. induction l as [|z l IH]; [done|]. cbn. destruct (sel c' z) eqn:E1.
    - rewrite (Hmono cursor c' z Hc E1). cbn. lia.
    - destruct (sel cursor z); cbn; lia. }
  intros [<-|Hx]%elem_of_cons; cbn.
  - rewrite Hx', Hsx. cbn. lia.
  - specialize (IH Hx). destruct (sel c' y) eqn:E1; [rewrite (Hmono cursor c' y Hc E1); cbn; lia|]. destruct (sel cursor y); cbn; lia.
Qed.

Lemma quiet_near_loop fuel guardID cursor w :
  lock (wDB w) = Some token -> (remaining (fun c => near_sel t id start end_ c guardID) cursor (wLedger w) < fuel)%nat ->
  exists l w', near_loop quiet delivered token t id period start end_ fuel guardID cursor w = (inr l, w') /\ steady w w'.
Proof.
  revert cursor w. induction fuel as [|fuel IH]; intros cursor w Hl Hf; [lia|]. cbn [near_loop]. rewrite quiet_query.
  set (rows := page (near_sel t id start end_ cursor guardID) (wLedger w)).
  destruct rows as [|r0 rows0] eqn:Er; [by eexists _, _|]. rewrite <- Er. rewrite quiet_call. cbn [lockRenew fst snd wDB].
  rewrite bool_decide_true by done. rewrite quiet_call. cbn [read fst snd wDB wLedger wSent].
  destruct (quiet_near_rows (zip rows (map (fun r => bool_decide (near_key t r ∈ certs (wDB w))) rows))
    (mkWorld (S (S (S (wSent w)))) (wDB w) (wLedger w))) as (w4 & E4 & S1 & S2).
  rewrite E4. cbn [wLedger wDB] in S1, S2. destruct (length rows <? page_size)%nat; [by eexists _, _|].
  destruct (IH (last_id rows cursor) w4) as (l & w5 & E5 & S3 & S4); [congruence| |].
  - rewrite S1. enough (remaining (fun c => near_sel t id start end_ c guardID) (last_id rows cursor) (wLedger w)
      < remaining (fun c => near_sel t id start end_ c guardID) cursor (wLedger w))%nat by lia.
    apply (fewer_remain (fun c => near_sel t id start end_ c guardID) cursor); [..|by intros E; unfold rows in Er; rewrite E in Er].
    + intros c c' r Hc. unfold near_sel. rewrite !andb_true_iff. intros H. split_and!; try tauto. lia.
    + intros c r. unfold near_sel. rewrite !andb_true_iff. lia.
  - exists l, w5. split; [exact E5|]. split; congruence.
Qed.

Lemma far_lock tok mode rows st :
  lock (snd (farConverge tok t mode rows st)) = lock st /\ (lock st = Some tok -> 0 <= fst (farConverge tok t mode rows st)).
Proof.
  unfold farConverge. destruct (bool_decide (lock st = Some tok)) eqn:El; cbn [negb]; [|split; [done|]; by rewrite bool_decide_eq_false in El].
  assert (forall rows i f st i' f' st', fold_left (far_row t) rows ((i, f), st) = (i', f', st') -> lock st' = lock st /\ f <= f') as Hf.
  { clear. induction rows as [|r rows IH]; intros i f st i' f' st'; cbn [fold_left]; [intros [= <- <- <-]; split; [done|lia]|].
    destruct (far_row t ((i, f), st) r) as [[i1 f1] st1] eqn:E1. apply far_row_spec in E1 as (_ & _ & _ & C4 & _ & _ & C7).
    intros [H1 H2]%IH. split; [congruence|]. case_bool_decide; lia. }
  destruct (fold_left (far_row t) rows ((0, 0), st)) as [[inc fresh] st'] eqn:E. apply Hf in E as [H1 H2].
  destruct (_ || _); cbn [fst snd lock with_redis]; (split; [done|lia]).
Qed.

Lemma quiet_far_page cut snapshot sel w :
  far_page quiet delivered cut snapshot sel w
  = (Some (page sel (default (wLedger w) snapshot)), mkWorld (S (wSent w)) (wDB w) (wLedger w)).
Proof. by destruct snapshot. Qed.

Lemma quiet_far_loop cut fuel mode snapshot sel cursor w :
  (forall c c' r, c <= c' -> sel c' r = true -> sel c r = true) -> (forall c r, sel c r = true -> c < uID r) ->
  lock (wDB w) = Some token -> (remaining sel cursor (default (wLedger w) snapshot) < fuel)%nat ->
  exists w', far_loop quiet delivered cut token t fuel mode snapshot sel cursor w = (None, w') /\ steady w w'.
Proof.
  intros Hm Hg. revert cursor w. induction fuel as [|fuel IH]; intros cursor w Hl Hf; [lia|]. cbn [far_loop]. rewrite quiet_far_page.
  set (rows := page (sel cursor) (default (wLedger w) snapshot)).
  destruct rows as [|r0 rows0] eqn:Er; [by eexists|]. rewrite <- Er. rewrite quiet_call. cbn [lockRenew fst snd wDB].
  rewrite bool_decide_true by done. rewrite quiet_call. cbn [wDB wLedger wSent].
  destruct (far_lock token mode rows (wDB w)) as [F1 F2]. specialize (F2 Hl).
  set (a := fst (farConverge token t mode rows (wDB w))) in *. set (st := snd (farConverge token t mode rows (wDB w))) in *.
  assert (forall X Y : option calib_err * world, match a with -1 => X | _ => Y end = Y) as Ha by (intros; destruct a as [| |[]]; done || lia).
  rewrite Ha. destruct (length rows <? page_size)%nat; [by eexists|].
  destruct (IH (last_id rows cursor) (mkWorld (S (S (S (wSent w)))) st (wLedger w))) as (w5 & E5 & S3 & S4); [cbn; congruence| |].
  - cbn [wLedger]. enough (remaining sel (last_id rows cursor) (default (wLedger w) snapshot)
      < remaining sel cursor (default (wLedger w) snapshot))%nat by lia.
    apply fewer_remain; [done|done|by intros E; unfold rows in Er; rewrite E in Er].
  - exists w5. split; [exact E5|]. cbn in S3, S4. split; congruence.
Qed.
End Quiet.

Lemma filter_length_le (sel : usage_row -> bool) l : (length (List.filter sel l) <= length l)%nat.
Proof. induction l as [|x l IH]; cbn; [lia|]. destruct (sel x); cbn; lia. Qed.

(** C40: A round that runs alone completes: with every command answered while the lease is held, no
    other traffic, no rows inserted meanwhile and no live intents, one page more than there are rows in
    the ledger suffices, whatever the counters, marks and watermarks are. *)
Theorem quiet_round_completes clock cut guard token t id period start end_ w :
  tScope t ∈ ["team"; "org"; "key"] -> lock (wDB w) = Some token ->
  exists spent w', calibrateTarget quiet delivered clock (fun _ => 0) cut guard token t id period start end_
    (S (length (wLedger w))) w = (inr spent, w').
Proof.
  intros Hsc Hl. unfold calibrateTarget. rewrite bool_decide_true by done. cbn [negb]. rewrite quiet_call. cbn [read fst snd].
  set (wm := read_watermark t (wDB w)).
  set (pre := match wm with Some (WmV3 _ _ _) => _ | _ => _ end).
  assert (exists b n, pre = (b, mkWorld n (wDB w) (wLedger w))) as (b & n & Epre).
  { subst pre. destruct wm as [[]|]; try (rewrite quiet_call; cbn [read fst snd wDB wLedger]); by eexists _, _. }
  rewrite Epre. clear pre Epre. rewrite quiet_query. cbn [wDB wLedger wSent]. change (0 <? 0) with false. cbn match.
  set (cursor := match wm with Some (WmV3 _ c _) => c | _ => 0 end). set (guardID := max_id _ _).
  assert (forall sel c, (remaining sel c (wLedger w) < S (length (wLedger w)))%nat) as Hfuel
    by (intros sel c; pose proof (filter_length_le (sel c) (wLedger w)); unfold remaining; lia).
  destruct (quiet_near_loop token t id period start end_ (S (length (wLedger w))) guardID cursor
    (mkWorld (S n) (wDB w) (wLedger w))) as (l & w3 & E3 & S1 & S2); [done|apply Hfuel|]. rewrite E3. cbn [wLedger wDB] in S1, S2.
  assert (forall far : option calib_err * world, (exists w4, far = (None, w4)) ->
    exists spent w', (let '(f, w) := far in match f with Some e => (inl e, w) | None => finish_target quiet delivered t l guardID w end)
      = (inr spent, w')) as Hfin.
  { intros far [w4 ->]. unfold finish_target, get_or_zero. rewrite !quiet_call. by eexists _, _. }
  destruct b; apply Hfin.
  - rewrite quiet_query. destruct (quiet_far_loop token t cut (S (length (wLedger w)))
      (Abs (sum_cost (fun r => in_scope (tScope t) id start end_ r && (0 <? uCost r) && (uID r <=? guardID)) (wLedger w3)))
      (Some (wLedger w3)) (abs_sel t id start end_ (max_id (fun r => in_scope (tScope t) id start end_ r && (0 <? uCost r) && (uID r <=? guardID)) (wLedger w3)))
      0 (mkWorld (S (wSent w3)) (wDB w3) (wLedger w3))) as (w4 & E4 & _); [..|by exists w4].
    + intros c c' r Hc. unfold abs_sel. rewrite !andb_true_iff. intros H. split_and!; try tauto. lia.
    + intros c r. unfold abs_sel. rewrite !andb_true_iff. lia.
    + cbn. congruence.
    + cbn [default from_option Datatypes.id]. rewrite S1. apply Hfuel.
  - destruct (quiet_far_loop token t cut (S (length (wLedger w))) Inc None (far_sel t id start end_ guardID) 0 w3) as (w4 & E4 & _); [..|by exists w4].
    + intros c c' r Hc. unfold far_sel. rewrite !andb_true_iff. intros H. split_and!; try tauto. lia.
    + intros c r. unfold far_sel. rewrite !andb_true_iff. lia.
    + congruence.
    + cbn [default from_option]. rewrite S1. apply Hfuel.
Qed.

(** ** Runs *)

Definition day : string := "2026-01-02".
Definition key7 : target := mkTarget "key" "7" day.
Definition usage (n : Z) (req : string) (c : Z) : usage_row := mkUsage n 0 0 7 req c 10.
Definition count7 (kd : bkind) (w : world) : Z := get (tkey kd key7) (redis (wDB w)).

(** A store in which request B has settled 5 units and left its mark. *)
Definition b_settled : budget_db := snd (budgetSettle (mkScope "key" "7" "daily" day "B") 5 empty_db).
Definition clock0 (n : nat) : Z := 100 * Minute.
Definition run_target (net : nat -> fate) (w : world) : (calib_err + Z) * world :=
  calibrateTarget quiet net clock0 (fun _ => 0) (fun _ => 0%nat) 0 "tok" key7 7 "daily" 0 1000 10 w.

(** A round over two rows: B has settled itself, A was lost and is counted now. *)
Definition v3_world : world :=
  mkWorld 0 (mkCalib b_settled ∅ (Some "tok") {[("key", "7", day) := WmV3 0 0 0]} ∅) [usage 1 "A" 3; usage 2 "B" 5].
Definition cost7 (k : rkey) : Z := if String.eqb k.2 "A" then 3 else if String.eqb k.2 "B" then 5 else 0.

Lemma calibration_counts_ledger_once_witness :
  (exists w', run_target delivered v3_world = (inr 8, w')) /\ Counted cost7 (wDB (snd (run_target delivered v3_world))).
Proof.
  split; [eexists; vm_compute; reflexivity|].
  apply (calibration_counts_ledger_once cost7 quiet delivered clock0 (fun _ => 0) (fun _ => 0%nat) 0 "tok" key7 7 "daily" 0 1000 10 v3_world
    (fst (run_target delivered v3_world)) (snd (run_target delivered v3_world))).
  - exists (fun _ => day). intros a.
    change (counted (wDB v3_world)) with ({[("key", "7", "B")]} ∪ (∅ : gset rkey) ∪ (∅ : gset rkey)).
    rewrite !union_empty_r_L. unfold sum_set. rewrite set_fold_singleton. unfold share. cbn [fst snd].
    change (redis (wDB v3_world)) with b_settled. unfold b_settled.
    rewrite (proj1 (settle_settled (mkScope "key" "7" "daily" day "B") 5 empty_db a eq_refl)). cbn [sScope sTarget sPk].
    case_bool_decide; reflexivity.
  - cbn [v3_world wLedger]. rewrite !Forall_cons, Forall_nil.
    split_and!; [split; [reflexivity|]; intros scope id _ _; reflexivity..|exact I].
  - cbn. apply (bool_decide_unpack _). vm_compute. exact I.
  - intros a wm H. cbn [v3_world wDB watermarks] in H. apply lookup_singleton_Some in H as [_ <-]. exact I.
  - eexists. reflexivity.
  - intros n w1 _. exact I.
  - vm_compute. reflexivity.
  - apply (bool_decide_unpack _). vm_compute. exact I.
  - unfold run_target. by destruct (calibrateTarget _ _ _ _ _ _ _ _ _ _ _ _ _ _).
Defined.

Lemma quiet_round_completes_witness :
  exists spent w', calibrateTarget quiet delivered clock0 (fun _ => 0) (fun _ => 0%nat) 0 "tok" key7 7 "daily" 0 1000 3 v3_world = (inr spent, w').
Proof.
  apply (quiet_round_completes clock0 (fun _ => 0%nat) 0 "tok" key7 7 "daily" 0 1000 v3_world); [apply (bool_decide_unpack _); vm_compute; exact I|reflexivity].
Defined.


(** ** Where the counters and the ledger part *)

(** An absolute round (the watermark is gone): B has settled and its row is not in
    the ledger yet, A is in the ledger and was never counted.  The round certifies A
    although the absolute sum does not exceed the counter, and after B's row has
    arrived the next round leaves the counter at 5 with 8 in the ledger. *)
Theorem absolute_round_loses_row :
  let w1 := snd (run_target delivered (mkWorld 0 (mkCalib b_settled ∅ (Some "tok") ∅ ∅) [usage 1 "A" 3])) in
  let w2 := snd (run_target delivered (event_step w1 (EInsert (usage 2 "B" 5)))) in
  count7 KSettled w1 = 5 /\ ("key", "7", "A") ∈ certs (wDB w1) /\
  count7 KSettled w2 = 5 /\ sum_cost (fun _ => true) (wLedger w2) = 8.
Proof. split_and!; try (vm_compute; reflexivity). Qed.

(** The answer to EXISTS is lost, so the same vanished watermark is taken for a fresh
    deployment: A, whose mark has expired, is counted a second time. *)
Theorem lost_exists_counts_twice :
  let db := budget_step (snd (budgetSettle (mkScope "key" "7" "daily" day "A") 3 empty_db)) (OpSettledExpires ("key", "7", "A")) in
  let w := mkWorld 0 (mkCalib db ∅ (Some "tok") ∅ ∅) [usage 1 "A" 3] in
  count7 KSettled (snd (run_target delivered w)) = 3 /\
  count7 KSettled (snd (run_target (fun n => if (n =? 1)%nat then NotSent else Delivered) w)) = 6.
Proof. by vm_compute. Qed.

(** The connection breaks after the first row of an absolute page: the page counts as
    the last one, so B stays without a certificate although the absolute sum covers it,
    and the next round counts it again. *)
Theorem broken_page_counts_twice :
  let db := budget_step (budget_step (snd (budgetSettle (mkScope "key" "7" "daily" day "B") 5
    (snd (budgetSettle (mkScope "key" "7" "daily" day "A") 3 empty_db)))) (OpSettledExpires ("key", "7", "A"))) (OpSettledExpires ("key", "7", "B")) in
  let w := mkWorld 0 (mkCalib db ∅ (Some "tok") ∅ ∅) [usage 1 "A" 3; usage 2 "B" 5] in
  let again w := snd (run_target delivered w) in
  count7 KSettled (again (again w)) = 8 /\
  count7 KSettled (again (snd (run_target (fun n => if (n =? 5)%nat then ResponseLost else Delivered) w))) = 13.
Proof. by vm_compute. Qed.

(** The final sync reads the settled counter without looking at the error: when the
    read fails the counter is overwritten with the older sum, and settlements are lost. *)
Theorem failed_read_overwrites_settled :
  let w := mkWorld 0 (mkCalib (set_counter (tkey KSettled key7) 12 empty_db) ∅ (Some "tok") ∅ {[("key", "7", day)]}) [] in
  count7 KSettled (migrateOrCheckInvariant quiet delivered key7 5 w) = 12 /\
  count7 KSettled (migrateOrCheckInvariant quiet (fun n => if (n =? 1)%nat then NotSent else Delivered) key7 5 w) = 5.
Proof. by vm_compute. Qed.

(** The quarantine of a certified row is taken from the period of the round, not from
    the period in the token: A's token names the day before, and what is released is
    the quarantine of B, whose token stays; B's settlement drives the shadow negative. *)
Theorem netting_releases_other_quarantine :
  let db := set_shadowmark ("key", "7", "A") (Some (4, "2026-01-01")) (set_shadowmark ("key", "7", "B") (Some (4, day))
    (incr (tkey KShadow key7) 4 (incr (tkey KBudget key7) 4 empty_db))) in
  let st := snd (farConverge "tok" key7 Inc [usage 1 "A" 3] (mkCalib db ∅ (Some "tok") ∅ ∅)) in
  get (tkey KShadow key7) (redis st) = 0 /\ shadowmark (redis st) !! ("key", "7", "B") = Some (4, day) /\
  get (tkey KShadow key7) (snd (budgetSettle (mkScope "key" "7" "daily" day "B") 5 (redis st))) = -4.
Proof. by vm_compute. Qed.
