(* ===== verification/BodyBudget.v ===== *)
(** * In-flight request bodies: [internal/middleware/body.go]

    [InflightBodyBudget] and the middleware that reads request bodies under it, as a
    system of concurrent requests over the shared counter and the slot channel.  A
    request of known length reserves it before it reads; one of unknown length takes a
    slot and grows its reservation with what it has read; body rewrites adjust it; and
    every exit releases what the request holds.

    [Acquire] and [Release] are atomic (a compare-and-swap loop has its effect in the
    successful swap); the waits of the slot channel and of [AcquireWait] end with a try
    that succeeds or with their timeout.  Routes register before traffic starts.
    Sizes are [int64] values far below overflow. *)

From stdpp Require Import list relations.
From S2P Require Import Prelude.

(** ** The budget *)

Definition readBodyBlock : Z := Z.shiftl 512 10.

Section Budget.
Context (limit : Z).

Definition Acquire (n inflight : Z) : option Z :=
  if limit <=? 0 then Some inflight
  else if limit <? inflight + n then None else Some (inflight + n).

Definition Release (n inflight : Z) : Z :=
  if limit <=? 0 then inflight else Z.max 0 (inflight - n).

(** The largest body that one read of unknown length may buffer on a route. *)
Definition unknown_ceil (maxSize : Z) : Z := Z.min maxSize (Z.quot (limit - readBodyBlock) 2).

Definition registerUnknownCeiling (ceil cur : Z) : Z :=
  if (limit <=? 0) || (ceil <=? 0) then cur else Z.max cur ceil.

(** [unkCeil] after the construction of the routes' middlewares. *)
Definition unkCeil (routes : list Z) : Z :=
  fold_left (fun cur maxSize => registerUnknownCeiling (unknown_ceil maxSize) cur) routes 0.

(** The capacity of the channel of [unknownSlots] *)
Definition unknownSlots (routes : list Z) : Z := Z.max 1 (limit / (2 * unkCeil routes + readBodyBlock)).

(** ** Requests *)

Inductive read_end := EOF | ReadError.

(** The body arrives in the pieces that its [Read] calls return. *)
Record request := mkRequest {
  qMax : Z;            (* maxSize of the route *)
  qReserve : Z;        (* multipartReserve of the route *)
  qMultipart : bool;   (* an upload route with a multipart/form-data body *)
  qLength : Z;         (* Content-Length, -1 when unknown *)
  qNoBody : bool;
  qChunks : list Z;
  qEnd : read_end
}.

Definition multipart_reserve (q : request) : Z := if qReserve q <=? 0 then Z.shiftl 32 20 else qReserve q.

Inductive outcome := Served | TooLarge | BadRequest | Exhausted.

(** Where a request is: before admission; waiting for a slot; waiting for its scratch
    block; reading, with the bytes read and reserved; waiting to grow by [delta] for [n]
    bytes more; reading a body of known length; in the handlers, with the length of the
    body and the pre-allocation; finished. *)
Inductive phase :=
  | Arrived
  | Slot
  | Scratch
  | Reading (total reserved : Z) (chunks : list Z)
  | Growing (total reserved n delta : Z) (chunks : list Z)
  | KnownRead
  | Serving (body prealloc : Z)
  | Finished (o : outcome).

(** A request with [bodyReservation.held] *)
Record thread := mkThread { tReq : request; tHeld : Z; tPhase : phase }.

(** The local [readUnknown] when [n] bytes more have been read: reserve before allocating. *)
Definition grow (total reserved n : Z) (chunks : list Z) : phase :=
  let need := 2 * (total + n) + readBodyBlock in
  if reserved <? need
  then Growing total reserved n ((need - reserved + readBodyBlock - 1) / readBodyBlock * readBodyBlock) chunks
  else Reading (total + n) reserved chunks.

Definition holds_slot (p : phase) : bool :=
  match p with Scratch | Reading _ _ _ | Growing _ _ _ _ _ => true | _ => false end.

(** Every exit: the deferred [releaseAll], and the slot of a read. *)
Definition finish (o : outcome) (t : thread) (inflight used : Z) : thread * Z * Z :=
  (mkThread (tReq t) 0 (Finished o), Release (tHeld t) inflight, if holds_slot (tPhase t) then used - 1 else used).

(** The correction of the reservation to the size read, and the call of the handlers. *)
Definition settle (actual : Z) (t : thread) (inflight used : Z) : thread * Z * Z :=
  let serve inflight := (mkThread (tReq t) actual (Serving actual 0), inflight, used) in
  if tHeld t <? actual then
    match Acquire (actual - tHeld t) inflight with
    | None => finish Exhausted t inflight used
    | Some inflight => serve inflight
    end
  else if actual <? tHeld t then serve (Release (tHeld t - actual) inflight)
  else serve inflight.

Definition total_size (chunks : list Z) : Z := foldr Z.add 0 chunks.

(** [ReadBodyWithBudget] up to its reads *)
Definition admit_body (t : thread) (inflight used : Z) : thread * Z * Z :=
  let q := tReq t in
  if qMultipart q then
    let rsv := if (0 <? qLength q) && (qLength q <? multipart_reserve q) then qLength q else multipart_reserve q in
    match Acquire rsv inflight with
    | None => finish Exhausted t inflight used
    | Some inflight => (mkThread q rsv (Serving 0 0), inflight, used)
    end
  else if qMax q <? qLength q then finish TooLarge t inflight used
  else
    match (if 0 <? qLength q then Acquire (qLength q) inflight else Some inflight) with
    | None => finish Exhausted t inflight used
    | Some inflight =>
        let at_phase := mkThread q (Z.max 0 (Z.min (qLength q) (qMax q))) in
        if qNoBody q then settle 0 (at_phase Arrived) inflight used
        else if (0 <? qLength q) || (limit <=? 0) then (at_phase KnownRead, inflight, used)
        else if unknown_ceil (qMax q) <=? 0 then finish Exhausted (at_phase Arrived) inflight used
        else (at_phase Slot, inflight, used)
    end.

(** [io.ReadAll] of a [LimitReader] over the body *)
Definition read_known (t : thread) (inflight used : Z) : thread * Z * Z :=
  let q := tReq t in
  if qMax q <? total_size (qChunks q) then finish TooLarge t inflight used
  else
    match qEnd q with
    | ReadError => finish BadRequest t inflight used
    | EOF => settle (total_size (qChunks q)) t inflight used
    end.

(** One turn of the read loop of [readUnknown], and its end. *)
Definition read_turn (total reserved : Z) (chunks : list Z) (t : thread) (inflight used : Z) : thread * Z * Z :=
  match chunks with
  | n :: chunks =>
      if n <=? 0 then (mkThread (tReq t) (tHeld t) (Reading total reserved chunks), inflight, used)
      else if unknown_ceil (qMax (tReq t)) <? total + n then finish TooLarge t inflight used
      else (mkThread (tReq t) (tHeld t) (grow total reserved n chunks), inflight, used)
  | [] =>
      match qEnd (tReq t) with
      | ReadError => finish BadRequest t inflight used
      | EOF =>
          settle total (mkThread (tReq t) (tHeld t - (reserved - total)) Arrived) (Release (reserved - total) inflight) (used - 1)
      end
  end.

(** [PreallocBodyGrowth] *)
Definition PreallocBodyGrowth (est held prealloc inflight : Z) : bool * (Z * Z * Z) :=
  if 0 <? est then
    match Acquire est inflight with
    | None => (false, (held, prealloc, inflight))
    | Some inflight => (true, (held + est, prealloc + est, inflight))
    end
  else (true, (held, prealloc, inflight)).

(** [SetBodyBytes] for a new body of length [len] *)
Definition SetBodyBytes (maxSize len body held prealloc inflight : Z) : bool * (Z * Z * Z * Z) :=
  let delta := len - body in
  if maxSize <? len then (false, (body, held - prealloc, 0, Release prealloc inflight))
  else if 0 <? delta then
    let pre := Z.min prealloc delta in
    let delta := delta - pre in
    if 0 <? delta then
      match Acquire delta inflight with
      | None => (false, (body, held, prealloc - pre, inflight))
      | Some inflight => (true, (len, held + delta, prealloc - pre, inflight))
      end
    else (true, (len, held + delta, prealloc - pre, inflight))
  else
    let '(held, prealloc, inflight) :=
      if 0 <? prealloc then (held - prealloc, 0, Release prealloc inflight) else (held, prealloc, inflight) in
    let inflight := if delta <? 0 then Release (- delta) inflight else inflight in
    (true, (len, held + delta, prealloc, inflight)).

(** What a request can do next; rewrites come from the middlewares behind this one. *)
Inductive action := Try | Timeout | Prealloc (est : Z) | SetBody (len : Z) | Done.

Context (routes : list Z).

Definition advance (a : action) (t : thread) (inflight used : Z) : option (thread * Z * Z) :=
  match tPhase t, a with
  | Arrived, Try => Some (admit_body t inflight used)
  | Slot, Try => if used <? unknownSlots routes then Some (mkThread (tReq t) (tHeld t) Scratch, inflight, used + 1) else None
  | Slot, Timeout => Some (finish Exhausted t inflight used)
  | Scratch, Try =>
      match Acquire readBodyBlock inflight with
      | None => None
      | Some inflight => Some (mkThread (tReq t) (tHeld t + readBodyBlock) (Reading 0 readBodyBlock (qChunks (tReq t))), inflight, used)
      end
  | Scratch, Timeout => Some (finish Exhausted t inflight used)
  | Reading total reserved chunks, Try => Some (read_turn total reserved chunks t inflight used)
  | Growing total reserved n delta chunks, Try =>
      match Acquire delta inflight with
      | None => None
      | Some inflight => Some (mkThread (tReq t) (tHeld t + delta) (grow total (reserved + delta) n chunks), inflight, used)
      end
  | Growing _ _ _ _ _, Timeout => Some (finish Exhausted t inflight used)
  | KnownRead, Try => Some (read_known t inflight used)
  | Serving body prealloc, Prealloc est =>
      let '(_, (held, prealloc, inflight)) := PreallocBodyGrowth est (tHeld t) prealloc inflight in
      Some (mkThread (tReq t) held (Serving body prealloc), inflight, used)
  | Serving body prealloc, SetBody len =>
      let '(_, (body, held, prealloc, inflight)) := SetBodyBytes (qMax (tReq t)) len body (tHeld t) prealloc inflight in
      Some (mkThread (tReq t) held (Serving body prealloc), inflight, used)
  | Serving _ _, Done => Some (finish Served t inflight used)
  | _, _ => None
  end.

(** ** The system *)

Record state := mkState { inflight : Z; used : Z; threads : list thread }.

Definition idle : state := mkState 0 0 [].

Definition act (i : nat) (a : action) (st : state) : option state :=
  match threads st !! i with
  | None => None
  | Some t =>
      match advance a t (inflight st) (used st) with
      | None => None
      | Some (t, n, u) => Some (mkState n u (<[i := t]> (threads st)))
      end
  end.

Definition arrive (q : request) (st : state) : state :=
  mkState (inflight st) (used st) (threads st ++ [mkThread q 0 Arrived]).

(** A request of one of the routes; [net/http] never yields more than the announced
    length, and [Read] fills at most the scratch block. *)
Definition request_ok (q : request) : Prop :=
  qMax q ∈ routes /\ 0 <= qMax q /\ Forall (fun n => 0 <= n <= readBodyBlock) (qChunks q) /\
  (0 < qLength q -> total_size (qChunks q) <= qLength q).

(** Rewrites have sizes of bodies. *)
Definition action_ok (a : action) : Prop := match a with SetBody len => 0 <= len | _ => True end.

Inductive step : state -> state -> Prop :=
  | StepArrive q st : request_ok q -> step st (arrive q st)
  | StepAct i a st st' : action_ok a -> act i a st = Some st' -> step st st'.

Definition reachable : state -> Prop := rtc step idle.

(** What a request has to hold by the rules of the middleware: a read of unknown length twice
    the bytes it has read and a block, a read of known length its Content-Length, a request in
    the handlers its stored body and its pre-allocation.  This is not all memory: the buffer of a
    rewrite before [SetBodyBytes], parsed multipart forms and the copies of growing slices
    are reserved nowhere. *)
Definition must_hold (t : thread) : Z :=
  match tPhase t with
  | Reading total _ _ | Growing total _ _ _ _ => 2 * total + readBodyBlock
  | KnownRead => qLength (tReq t)
  | Serving body prealloc => body + prealloc
  | _ => 0
  end.

Definition total (f : thread -> Z) (l : list thread) : Z := foldr (fun t n => f t + n) 0 l.

Definition slot_of (t : thread) : Z := if holds_slot (tPhase t) then 1 else 0.

End Budget.

(** ** Lemmas *)

Lemma block_pos : 0 < readBodyBlock.
Proof. reflexivity. Qed.

Lemma total_app f l k : total f (l ++ k) = total f l + total f k.
Proof. unfold total. induction l as [|t l IH]; cbn; lia. Qed.

Lemma total_update f l i t t' : l !! i = Some t -> total f (<[i := t']> l) = total f l - f t + f t'.
Proof.
  revert i. induction l as [|x l IH]; intros [|i]; [done|done|cbn; intros [= ->]; lia|].
  intros H. specialize (IH i H). change (f x + total f (<[i := t']> l) = f x + total f l - f t + f t'). lia.
Qed.

Lemma total_nonneg f l : Forall (fun t => 0 <= f t) l -> 0 <= total f l.
Proof. unfold total. induction 1; cbn; lia. Qed.

Lemma total_le f g l : Forall (fun t => f t <= g t) l -> total f l <= total g l.
Proof. unfold total. induction 1; cbn; lia. Qed.

Lemma total_part f l i t : Forall (fun t => 0 <= f t) l -> l !! i = Some t -> f t <= total f l.
Proof.
  intros H Hi. revert i Hi. induction H as [|x l Hx Hl IH]; intros [|i]; cbn; [done|done|..].
  - intros [= ->]. pose proof (total_nonneg f l Hl). unfold total in *. lia.
  - intros Hi. specialize (IH i Hi). unfold total in *. lia.
Qed.

(** The next multiple of the block. *)
Definition up (x : Z) : Z := (x + readBodyBlock - 1) / readBodyBlock * readBodyBlock.

Lemma up_spec x : x <= up x < x + readBodyBlock /\ (readBodyBlock | up x).
Proof.
  unfold up. split; [|apply Z.divide_factor_r]. change readBodyBlock with 524288. div_lia.
Qed.

Lemma up_mono x y : x <= y -> up x <= up y.
Proof. intros H. unfold up. change readBodyBlock with 524288. div_lia. Qed.

Lemma up_least x m : (readBodyBlock | m) -> x <= m -> up x <= m.
Proof. intros [k ->]. unfold up. change readBodyBlock with 524288. intros H. div_lia. Qed.

Lemma up_shift x r : (readBodyBlock | r) -> r + up (x - r) = up x.
Proof. intros [k ->]. unfold up. change readBodyBlock with 524288. div_lia. Qed.

(** ** The accounting is exact *)

Section Accounting.
Context (limit : Z) (routes : list Z).
Hypothesis limit_pos : 0 < limit.

Lemma Acquire_Some n i j : Acquire limit n i = Some j -> j = i + n /\ j <= limit.
Proof.
  unfold Acquire. destruct (Z.leb_spec limit 0); [lia|]. destruct (Z.ltb_spec limit (i + n)); [done|]. intros [= <-]. lia.
Qed.

Lemma Acquire_room n i : i + n <= limit -> Acquire limit n i = Some (i + n).
Proof. intros H. unfold Acquire. destruct (Z.leb_spec limit 0); [lia|]. destruct (Z.ltb_spec limit (i + n)); [lia|done]. Qed.

Lemma Release_held n i : n <= i -> Release limit n i = i - n.
Proof. intros H. unfold Release. destruct (Z.leb_spec limit 0); lia. Qed.

Definition chunks_ok (l : list Z) : Prop := Forall (fun n => 0 <= n <= readBodyBlock) l.

Lemma total_size_nonneg l : chunks_ok l -> 0 <= total_size l.
Proof. unfold total_size. induction 1; cbn; lia. Qed.

(** What a phase says about the reservation. *)
Definition phase_ok (t : thread) : Prop :=
  let ceil := unknown_ceil limit (qMax (tReq t)) in
  match tPhase t with
  | Arrived | Finished _ => tHeld t = 0
  | Slot | Scratch => tHeld t = 0 /\ 0 < ceil
  | Reading tot res ch =>
      tHeld t = res /\ 0 < ceil /\ 0 <= tot <= ceil /\ 2 * tot + readBodyBlock <= res <= up (2 * tot + readBodyBlock)
      /\ (readBodyBlock | res) /\ chunks_ok ch
  | Growing tot res n d ch =>
      tHeld t = res /\ 0 <= tot /\ 0 < n /\ tot + n <= ceil /\ 2 * tot + readBodyBlock <= res
      /\ (readBodyBlock | res) /\ (readBodyBlock | d) /\ 0 < d /\ res + d = up (2 * (tot + n) + readBodyBlock) /\ chunks_ok ch
  | KnownRead => tHeld t = qLength (tReq t) /\ 0 < qLength (tReq t)
  | Serving b p => 0 <= b <= qMax (tReq t) /\ 0 <= p /\ b + p <= tHeld t
  end.

Definition thread_ok (t : thread) : Prop := request_ok routes (tReq t) /\ 0 <= tHeld t /\ phase_ok t.

Lemma must_hold_held t : thread_ok t -> must_hold t <= tHeld t.
Proof. intros (_ & H0 & H). unfold phase_ok, must_hold in *. destruct (tPhase t); lia. Qed.

Lemma grow_ok q tot res n ch :
  request_ok routes q -> 0 <= tot -> 0 < n -> tot + n <= unknown_ceil limit (qMax q) -> 2 * tot + readBodyBlock <= res <= up (2 * (tot + n) + readBodyBlock) ->
  (readBodyBlock | res) -> chunks_ok ch -> thread_ok (mkThread q res (grow tot res n ch)).
Proof.
  intros Hq Ht Hn Hc Hr Hd Hch. pose proof block_pos. split_and!; [done|cbn; lia|]. unfold phase_ok, grow. cbn [tReq tHeld tPhase].
  destruct (Z.ltb_spec res (2 * (tot + n) + readBodyBlock)); cbn [tPhase].
  - fold (up (2 * (tot + n) + readBodyBlock - res)). destruct (up_spec (2 * (tot + n) + readBodyBlock - res)) as [Hu Hu'].
    split_and!; try done; try lia. by apply up_shift.
  - split_and!; try done; lia.
Qed.

(** The effect of a step on the counters. *)
Definition accounts (t : thread) (i u : Z) (r : thread * Z * Z) : Prop :=
  let '(t', i', u') := r in
  thread_ok t' /\ tReq t' = tReq t /\ i' = i - tHeld t + tHeld t' /\ i' <= limit /\ u' = u - slot_of t + slot_of t'.

(** A request in some phase that holds part of what is in flight. *)
Definition holder (t : thread) (i : Z) : Prop := request_ok routes (tReq t) /\ 0 <= tHeld t <= i /\ i <= limit.

Lemma finish_accounts o t i u : holder t i -> accounts t i u (finish limit o t i u).
Proof.
  intros (Hq & H0 & Hi). unfold finish, accounts, slot_of. cbn [tReq tHeld tPhase holds_slot]. rewrite Release_held by lia.
  split_and!; [split_and!; [done|cbn; lia|done]|done|lia|lia|destruct (holds_slot _); lia].
Qed.

Lemma settle_accounts actual t i u :
  holder t i -> holds_slot (tPhase t) = false -> 0 <= actual <= qMax (tReq t) ->
  accounts t i u (settle limit actual t i u).
Proof.
  intros Ht Hs Ha. pose proof Ht as (Hq & H0 & Hi).
  assert (forall j, j = i - tHeld t + actual -> j <= limit ->
    accounts t i u (mkThread (tReq t) actual (Serving actual 0), j, u)) as Hserve.
  { intros j -> Hj. unfold accounts, slot_of. rewrite Hs. cbn [tReq tHeld tPhase holds_slot].
    split_and!; try done; try lia. split_and!; [done|cbn; lia|unfold phase_ok; cbn; lia]. }
  unfold settle. destruct (Z.ltb_spec (tHeld t) actual).
  - destruct (Acquire limit _ i) as [j|] eqn:E; [|by apply finish_accounts]. apply Acquire_Some in E as [-> Hj]. apply Hserve; lia.
  - destruct (Z.ltb_spec actual (tHeld t)); apply Hserve; rewrite ?Release_held by lia; lia.
Qed.

(** A reservation made on the way. *)
Lemma accounts_from t i u t1 i1 u1 r :
  tReq t1 = tReq t -> i1 = i - tHeld t + tHeld t1 -> u1 = u - slot_of t + slot_of t1 -> accounts t1 i1 u1 r -> accounts t i u r.
Proof. intros Eq -> ->. destruct r as [[t' i'] u']. unfold accounts. intros (A1 & A2 & A3 & A4 & A5). split_and!; [done|congruence|lia|lia|lia]. Qed.

Lemma reserve_nonneg q : 0 <= (if (0 <? qLength q) && (qLength q <? multipart_reserve q) then qLength q else multipart_reserve q).
Proof.
  assert (0 <= multipart_reserve q) by (unfold multipart_reserve; destruct (Z.leb_spec (qReserve q) 0); [by vm_compute|lia]).
  destruct (Z.ltb_spec 0 (qLength q)); cbn [andb]; [case_match|]; lia.
Qed.

Lemma admit_accounts t i u : thread_ok t -> tPhase t = Arrived -> 0 <= i <= limit -> accounts t i u (admit_body limit t i u).
Proof.
  intros (Hq & H0 & Hph) Hp Hi. unfold phase_ok in Hph. rewrite Hp in Hph.
  assert (slot_of t = 0) as Hslot by (unfold slot_of; by rewrite Hp).
  assert (forall o, accounts t i u (finish limit o t i u)) as Hfin by (intros; apply finish_accounts; split_and!; [done|lia..]).
  pose proof Hq as (_ & Hmax & _ & _). unfold admit_body. destruct (qMultipart (tReq t)).
  - pose proof (reserve_nonneg (tReq t)) as Hrsv. revert Hrsv.
    generalize (if (0 <? qLength (tReq t)) && (qLength (tReq t) <? multipart_reserve (tReq t)) then qLength (tReq t) else multipart_reserve (tReq t)) as rsv.
    intros rsv Hrsv.
    destruct (Acquire limit rsv i) as [j|] eqn:E; [|done]. apply Acquire_Some in E as [-> Hj].
    unfold accounts. rewrite Hslot. split_and!; [split_and!; [done|done|]|done|cbn; lia|lia|cbn; lia]. unfold phase_ok. cbn. lia.
  - destruct (Z.ltb_spec (qMax (tReq t)) (qLength (tReq t))); [done|]. set (len := qLength (tReq t)) in *.
    destruct (if 0 <? len then Acquire limit len i else Some i) as [j|] eqn:E; [|done].
    assert (j = i + Z.max 0 len /\ j <= limit) as [-> Hj]
      by (destruct (Z.ltb_spec 0 len); [apply Acquire_Some in E; lia|injection E as <-; lia]).
    replace (Z.max 0 (Z.min len (qMax (tReq t)))) with (Z.max 0 len) by lia.
    destruct (qNoBody (tReq t)); [|destruct (_ || _) eqn:Ek; [|destruct (Z.leb_spec (unknown_ceil limit (qMax (tReq t))) 0)]].
    + apply (accounts_from _ _ _ (mkThread (tReq t) (Z.max 0 len) Arrived) (i + Z.max 0 len) u); [done|cbn; lia|cbn; lia|].
      apply settle_accounts; [split_and!; [done|cbn; lia..]|done|cbn; lia].
    + assert (0 < len) by (apply orb_true_iff in Ek; lia). unfold accounts. rewrite Hslot.
      split_and!; [split_and!; [done|cbn; lia|unfold phase_ok; cbn; fold len; lia]|done|cbn; lia|lia|cbn; lia].
    + apply (accounts_from _ _ _ (mkThread (tReq t) (Z.max 0 len) Arrived) (i + Z.max 0 len) u); [done|cbn; lia|cbn; lia|].
      apply finish_accounts. split_and!; [done|cbn; lia..].
    + assert (len <= 0) by (apply orb_false_iff in Ek; lia). unfold accounts. rewrite Hslot.
      split_and!; [split_and!; [done|cbn; lia|unfold phase_ok; cbn; lia]|done|cbn; lia|lia|cbn; lia].
Qed.

Lemma read_turn_accounts tot res ch t i u :
  thread_ok t -> tPhase t = Reading tot res ch -> tHeld t <= i <= limit -> accounts t i u (read_turn limit tot res ch t i u).
Proof.
  intros (Hq & H0 & Hph) Hp Hi. unfold phase_ok in Hph. rewrite Hp in Hph. destruct Hph as (Hh & Hc & Ht & Hr & Hd & Hch).
  assert (slot_of t = 1) as Hslot by (unfold slot_of; by rewrite Hp). pose proof block_pos as Hb.
  assert (forall o, accounts t i u (finish limit o t i u)) as Hfin by (intros; apply finish_accounts; split_and!; [done|lia..]).
  unfold read_turn. destruct ch as [|n ch].
  - destruct (qEnd (tReq t)); [|done]. rewrite Release_held by lia.
    apply (accounts_from _ _ _ (mkThread (tReq t) (tHeld t - (res - tot)) Arrived) (i - (res - tot)) (u - 1)); [done|cbn; lia|cbn; lia|].
    apply settle_accounts; [split_and!; [done|cbn; lia..]|done|cbn; unfold unknown_ceil in *; lia].
  - inversion Hch as [|? ? Hn Hch']; subst. destruct (Z.leb_spec n 0) as [Hle|Hlt].
    + unfold accounts. rewrite Hslot. split_and!; [split_and!; [done|done|unfold phase_ok; cbn; split_and!; done || lia]|done|cbn; lia|lia|cbn; lia].
    + destruct (Z.ltb_spec (unknown_ceil limit (qMax (tReq t))) (tot + n)); [done|].
      assert (thread_ok (mkThread (tReq t) (tHeld t) (grow tot (tHeld t) n ch))) as Hg.
      { pose proof (up_mono (2 * tot + readBodyBlock) (2 * (tot + n) + readBodyBlock) ltac:(lia)). apply grow_ok; try done; lia. }
      unfold accounts. rewrite Hslot. split_and!; [done|done|cbn; lia|lia|].
      unfold slot_of, grow. cbn [tPhase]. destruct (_ <? _); cbn; lia.
Qed.

Lemma read_known_accounts t i u :
  thread_ok t -> tPhase t = KnownRead -> tHeld t <= i <= limit -> accounts t i u (read_known limit t i u).
Proof.
  intros (Hq & H0 & Hph) Hp Hi. assert (holder t i) as Hh by (split_and!; [done|lia..]).
  pose proof Hq as (_ & _ & Hch & _). apply total_size_nonneg in Hch. unfold read_known.
  destruct (Z.ltb_spec (qMax (tReq t)) (total_size (qChunks (tReq t)))); [by apply finish_accounts|].
  destruct (qEnd (tReq t)); [|by apply finish_accounts]. apply settle_accounts; [done|by rewrite Hp|lia].
Qed.

(** A change of the reservation of a request in the handlers. *)
Lemma serving_accounts t i u b p b' p' held' i' :
  thread_ok t -> tPhase t = Serving b p -> 0 <= b' <= qMax (tReq t) -> 0 <= p' -> b' + p' <= held' ->
  i' = i - tHeld t + held' -> i' <= limit -> accounts t i u (mkThread (tReq t) held' (Serving b' p'), i', u).
Proof.
  intros (Hq & H0 & Hph) Hp Hb Hp' Hh Hi Hl. unfold accounts, slot_of. rewrite Hp. cbn [tReq tHeld tPhase holds_slot].
  split_and!; [split_and!; [done|cbn; lia|unfold phase_ok; cbn; lia]|done|lia|lia|lia].
Qed.

Lemma prealloc_accounts est b p t i u r held' p' i' :
  thread_ok t -> tPhase t = Serving b p -> tHeld t <= i <= limit ->
  PreallocBodyGrowth limit est (tHeld t) p i = (r, (held', p', i')) ->
  accounts t i u (mkThread (tReq t) held' (Serving b p'), i', u).
Proof.
  intros Ht Hp Hi. pose proof Ht as (_ & _ & Hph). unfold phase_ok in Hph. rewrite Hp in Hph. unfold PreallocBodyGrowth.
  destruct (Z.ltb_spec 0 est); [destruct (Acquire limit est i) as [j|] eqn:E; [apply Acquire_Some in E|]|]; intros [= <- <- <- <-];
    apply (serving_accounts _ _ _ b p); done || lia.
Qed.

Lemma set_body_accounts len b p t i u r b' held' p' i' :
  thread_ok t -> tPhase t = Serving b p -> tHeld t <= i <= limit -> 0 <= len ->
  SetBodyBytes limit (qMax (tReq t)) len b (tHeld t) p i = (r, (b', held', p', i')) ->
  accounts t i u (mkThread (tReq t) held' (Serving b' p'), i', u).
Proof.
  intros Ht Hp Hi Hlen. pose proof Ht as (_ & _ & Hph). unfold phase_ok in Hph. rewrite Hp in Hph. unfold SetBodyBytes.
  destruct (Z.ltb_spec (qMax (tReq t)) len).
  { intros [= <- <- <- <- <-]. rewrite Release_held by lia. apply (serving_accounts _ _ _ b p); done || lia. }
  destruct (Z.ltb_spec 0 (len - b)).
  - destruct (Z.ltb_spec 0 (len - b - Z.min p (len - b))); [destruct (Acquire limit _ i) as [j|] eqn:E; [apply Acquire_Some in E|]|];
      intros [= <- <- <- <- <-]; apply (serving_accounts _ _ _ b p); done || lia.
  - destruct (Z.ltb_spec 0 p); destruct (Z.ltb_spec (len - b) 0); intros [= <- <- <- <- <-]; rewrite ?(Release_held p) by lia; rewrite ?Release_held by lia;
      apply (serving_accounts _ _ _ b p); done || lia.
Qed.

(** A request that takes a slot finds one free. *)
Definition takes_slot (t : thread) (r : thread * Z * Z) (u : Z) : Prop :=
  slot_of t < slot_of (fst (fst r)) -> u < unknownSlots limit routes.

Lemma advance_accounts a t i u r :
  thread_ok t -> tHeld t <= i <= limit -> action_ok a -> advance limit routes a t i u = Some r ->
  accounts t i u r /\ takes_slot t r u.
Proof.
  intros Ht Hi Ha. pose proof Ht as (Hq & H0 & Hph). pose proof block_pos as Hb.
  assert (holder t i) as Hh by (split_and!; [done|lia..]).
  unfold advance. destruct (tPhase t) as [| | |tot res ch|tot res n d ch| |b p|o] eqn:Hp; destruct a; try done; unfold phase_ok in Hph; rewrite Hp in Hph.
  - intros [= <-]. split; [apply admit_accounts; done || lia|]. intros Hlt. exfalso. revert Hlt. unfold slot_of. rewrite Hp. cbn [holds_slot].
    unfold admit_body, settle, finish. repeat case_match; cbn in *; done || lia.
  - destruct (Z.ltb_spec u (unknownSlots limit routes)) as [Hu|Hu]; [|done]. intros [= <-]. split; [|intros _; exact Hu].
    unfold accounts, slot_of. rewrite Hp. cbn [tReq tHeld tPhase holds_slot]. split_and!; [split_and!; done|done|lia|lia|lia].
  - intros [= <-]. split; [by apply finish_accounts|]. unfold takes_slot, slot_of. rewrite Hp. cbn. lia.
  - destruct (Acquire limit _ i) as [j|] eqn:E; [|done]. apply Acquire_Some in E as [-> Hj]. intros [= <-].
    unfold takes_slot, accounts, slot_of. rewrite Hp. cbn [tReq tHeld tPhase holds_slot fst snd]. split; [|lia].
    assert (up (2 * 0 + readBodyBlock) = readBodyBlock) by reflexivity. destruct Hq as (? & ? & Hch & ?).
    split_and!; [split_and!; [split_and!; done|cbn; lia|]|done|lia|lia|lia].
    unfold phase_ok. cbn [tReq tHeld tPhase]. split_and!; try done; try lia.
  - intros [= <-]. split; [by apply finish_accounts|]. unfold takes_slot, slot_of. rewrite Hp. cbn. lia.
  - intros [= <-]. split; [by apply read_turn_accounts|]. unfold takes_slot, slot_of. rewrite Hp. cbn. case_match; lia.
  - destruct (Acquire limit _ i) as [j|] eqn:E; [|done]. apply Acquire_Some in E as [-> Hj]. intros [= <-].
    destruct Hph as (G1 & G2 & G3 & G4 & G5 & G6 & G7 & G8 & G9 & G10).
    assert (thread_ok (mkThread (tReq t) (tHeld t + d) (grow tot (res + d) n ch))) as Hg.
    { rewrite G1. apply grow_ok; try done; try lia. by apply Z.divide_add_r. }
    assert (slot_of (mkThread (tReq t) (tHeld t + d) (grow tot (res + d) n ch)) = 1) as Hs
      by (unfold slot_of, grow; cbn [tPhase]; by destruct (_ <? _)).
    unfold takes_slot, accounts. cbn [fst snd]. rewrite Hs. unfold slot_of. rewrite Hp. cbn [tReq tHeld tPhase holds_slot].
    split; [|lia]. split_and!; [done|done|lia|lia|lia].
  - intros [= <-]. split; [by apply finish_accounts|]. unfold takes_slot, slot_of. rewrite Hp. cbn. lia.
  - intros [= <-]. split; [by apply read_known_accounts|]. unfold takes_slot, slot_of. rewrite Hp. cbn [holds_slot].
    unfold read_known, settle, finish. repeat case_match; cbn in *; done || lia.
  - destruct (PreallocBodyGrowth _ _ _ _ _) as [r0 [[held' p'] i']] eqn:E. intros [= <-].
    split; [by apply (prealloc_accounts est b p t i u r0)|]. unfold takes_slot, slot_of. rewrite Hp. cbn. lia.
  - destruct (SetBodyBytes _ _ _ _ _ _ _) as [r0 [[[b' held'] p'] i']] eqn:E. intros [= <-].
    split; [by apply (set_body_accounts len b p t i u r0)|]. unfold takes_slot, slot_of. rewrite Hp. cbn. lia.
  - intros [= <-]. split; [by apply finish_accounts|]. unfold takes_slot, slot_of. rewrite Hp. cbn. lia.
Qed.

(** The invariant of the system. *)
Record Inv (st : state) : Prop := mkInv {
  inv_threads : Forall thread_ok (threads st);
  inv_inflight : inflight st = total tHeld (threads st);
  inv_limit : inflight st <= limit;
  inv_used : used st = total slot_of (threads st);
  inv_slots : used st <= unknownSlots limit routes
}.

Lemma held_part st i t : Inv st -> threads st !! i = Some t -> 0 <= tHeld t <= inflight st.
Proof.
  intros HI Ht. rewrite (inv_inflight st HI). pose proof (inv_threads st HI) as HF. split.
  - rewrite Forall_forall in HF. apply (HF t). by eapply list_elem_of_lookup_2.
  - apply (total_part tHeld _ i); [|done]. eapply Forall_impl; [exact HF|]. by intros x (_ & H & _).
Qed.

Lemma thread_of st i t : Inv st -> threads st !! i = Some t -> thread_ok t.
Proof. intros HI Ht. pose proof (inv_threads st HI) as HF. rewrite Forall_forall in HF. apply (HF t). by eapply list_elem_of_lookup_2. Qed.

Lemma act_inv st i a st' : Inv st -> action_ok a -> act limit routes i a st = Some st' -> Inv st'.
Proof.
  intros HI Ha. unfold act. destruct (threads st !! i) as [t|] eqn:Et; [|done].
  destruct (advance limit routes a t (inflight st) (used st)) as [[[t' i'] u']|] eqn:E; [|done]. intros [= <-].
  pose proof (held_part st i t HI Et) as Hh. pose proof (inv_limit st HI).
  apply advance_accounts in E as [(A1 & A2 & A3 & A4 & A5) A6]; [|by eapply thread_of|lia|done].
  split; cbn [threads inflight used].
  - by apply Forall_insert; [apply HI|].
  - rewrite (total_update _ _ _ _ _ Et), <- (inv_inflight st HI). lia.
  - lia.
  - rewrite (total_update _ _ _ _ _ Et), <- (inv_used st HI). lia.
  - pose proof (inv_slots st HI). unfold takes_slot in A6. cbn [fst] in A6. unfold slot_of in *. destruct (holds_slot (tPhase t)), (holds_slot (tPhase t')); lia.
Qed.

Lemma step_inv st st' : step limit routes st st' -> Inv st -> Inv st'.
Proof.
  intros [q st0 Hq|i a st0 st1 Ha E] HI; [|by eapply act_inv]. destruct HI as [H1 H2 H3 H4 H5].
  split; cbn [arrive threads inflight used].
  - apply Forall_app. split; [done|]. apply Forall_singleton. split_and!; done.
  - rewrite total_app, H2. cbn. lia.
  - lia.
  - rewrite total_app, H4. cbn. lia.
  - lia.
Qed.

Lemma idle_inv : Inv idle.
Proof. split; cbn; [constructor|lia|lia|lia|unfold unknownSlots; lia]. Qed.

Lemma reachable_ok st : reachable limit routes st -> Inv st.
Proof.
  intros H. assert (forall a b, rtc (step limit routes) a b -> Inv a -> Inv b) as Hr
    by (induction 1; [done|]; intros; eauto using step_inv). exact (Hr _ _ H idle_inv).
Qed.
End Accounting.

(** C16: The accounting of the budget is exact: at every moment the bytes in flight are the sum of what the
    live requests hold, not negative and within the limit; every request holds at least what
    its phase requires (twice the bytes read and a block for a read of unknown length, the
    Content-Length for one of known length, the stored body and the pre-allocation in the
    handlers); slots are held by the requests that read, at most as many as there are; and when
    all requests have finished, on whatever path, nothing stays reserved. *)
Theorem body_budget_exact limit routes st :
  0 < limit -> reachable limit routes st ->
  inflight st = total tHeld (threads st) /\ 0 <= inflight st <= limit /\
  Forall (fun t => must_hold t <= tHeld t) (threads st) /\
  used st = total slot_of (threads st) /\ used st <= unknownSlots limit routes /\
  (Forall (fun t => exists o, tPhase t = Finished o) (threads st) -> inflight st = 0 /\ used st = 0).
Proof.
  intros Hl Hr. pose proof (reachable_ok limit routes Hl st Hr) as [H1 H2 H3 H4 H5]. split_and!; [done| |done| |done|done|].
  - rewrite H2. clear -H1. unfold total. induction H1 as [|t l (_ & Ht & _)]; cbn; lia.
  - eapply Forall_impl; [exact H1|]. intros t Ht. by apply (must_hold_held limit routes).
  - intros Hf. assert (Forall (fun t => tHeld t = 0 /\ slot_of t = 0) (threads st)) as Hz.
    { rewrite Forall_forall in H1, Hf |- *. intros t Ht. destruct (H1 t Ht) as (_ & _ & Hp), (Hf t Ht) as [o E]. unfold phase_ok, slot_of in *. by rewrite E in *. }
    rewrite H2, H4. clear -Hz. unfold total. induction Hz; cbn; lia.
Qed.

(** ** Reads do not block each other *)

Section Readers.
Context (limit : Z) (routes : list Z).
Hypothesis limit_pos : 0 < limit.

(** The reservations are made in whole blocks, so the ceiling has to be a multiple of half a block. *)
Definition aligned : Prop := (readBodyBlock | 2 * unkCeil limit routes).

Lemma register_fold ms cur :
  let c := fold_left (fun cur maxSize => registerUnknownCeiling limit (unknown_ceil limit maxSize) cur) ms cur in
  cur <= c /\ (forall m, m ∈ ms -> 0 < unknown_ceil limit m -> unknown_ceil limit m <= c)
  /\ (c = cur \/ exists m, m ∈ ms /\ c = unknown_ceil limit m).
Proof.
  revert cur. induction ms as [|m ms IH]; intros cur; cbn [fold_left].
  - split_and!; [lia|intros m Hm; by apply not_elem_of_nil in Hm|by left].
  - destruct (IH (registerUnknownCeiling limit (unknown_ceil limit m) cur)) as (I1 & I2 & I3). clear IH.
    set (c := fold_left _ ms _) in *. unfold registerUnknownCeiling in I1, I3.
    destruct (Z.leb_spec limit 0); [lia|]. cbn [orb] in *. destruct (Z.leb_spec (unknown_ceil limit m) 0).
    + split_and!; [lia|intros m' [->|Hm']%elem_of_cons; [lia|auto]|].
      destruct I3 as [->|(m' & Hm' & ->)]; [by left|right]. exists m'. split; [by right|done].
    + split_and!; [lia|intros m' [->|Hm']%elem_of_cons; [lia|auto]|].
      destruct I3 as [->|(m' & Hm' & ->)]; [|right; exists m'; split; [by right|done]].
      destruct (Z.max_spec cur (unknown_ceil limit m)) as [[_ ->]|[_ ->]]; [right; exists m; split; [left|done]|by left].
Qed.

Definition worst : Z := 2 * unkCeil limit routes + readBodyBlock.

Lemma ceil_worst m : m ∈ routes -> 0 < unknown_ceil limit m -> unknown_ceil limit m <= unkCeil limit routes /\ worst <= limit.
Proof.
  intros Hm Hc. destruct (register_fold routes 0) as (_ & H2 & H3). fold (unkCeil limit routes) in H2, H3. specialize (H2 m Hm Hc).
  split; [done|]. unfold worst. destruct H3 as [E|(m' & _ & E)]; [lia|]. unfold unknown_ceil in E.
  assert (0 <= limit - readBodyBlock) as Hp.
  { unfold unknown_ceil in Hc. destruct (Z_lt_le_dec (limit - readBodyBlock) 0); [|done].
    pose proof (Z.quot_pos (- (limit - readBodyBlock)) 2 ltac:(lia) ltac:(lia)). rewrite Z.quot_opp_l in H by lia. lia. }
  pose proof (Z.mul_quot_le (limit - readBodyBlock) 2 Hp ltac:(lia)). lia.
Qed.

Definition reader_held (t : thread) : Z := if holds_slot (tPhase t) then tHeld t else 0.

(** What a request waits for. *)
Definition wants (t : thread) : Z :=
  match tPhase t with Scratch => readBodyBlock | Growing _ _ _ d _ => d | _ => 0 end.

Lemma reader_bound t : aligned -> thread_ok limit routes t -> reader_held t + wants t <= worst * slot_of t.
Proof.
  intros Hal (Hq & H0 & Hph). unfold reader_held, wants, slot_of, phase_ok in *.
  assert (forall x, x <= unkCeil limit routes -> up (2 * x + readBodyBlock) <= worst) as Hup.
  { intros x Hx. apply up_least; [unfold worst; apply Z.divide_add_r; [done|by exists 1]|unfold worst; lia]. }
  pose proof Hq as (Hm & _). destruct (tPhase t); cbn [holds_slot]; try lia.
  - destruct Hph as [-> Hc]. destruct (ceil_worst _ Hm Hc) as [Hle _]. unfold worst. pose proof block_pos. lia.
  - destruct Hph as (-> & Hc & Ht & Hr & _). destruct (ceil_worst _ Hm Hc) as [Hle _]. specialize (Hup total0 ltac:(lia)). lia.
  - destruct Hph as (-> & Ht & Hn & Hc & _ & _ & _ & _ & E & _). destruct (ceil_worst _ Hm ltac:(lia)) as [Hle _].
    specialize (Hup (total0 + n) ltac:(lia)). lia.
Qed.

Lemma slots_fit m : m ∈ routes -> 0 < unknown_ceil limit m -> worst * unknownSlots limit routes <= limit.
Proof.
  intros Hm Hc. destruct (ceil_worst m Hm Hc) as [Hle Hw]. unfold unknownSlots. fold worst.
  assert (0 < worst) as Hpos by (unfold worst; pose proof block_pos; lia).
  pose proof (Z.mul_div_le limit worst Hpos). assert (1 <= limit / worst) by (apply Z.div_le_lower_bound; lia).
  rewrite Z.max_r by lia. lia.
Qed.

Lemma total_scale c f g l : total (fun t => c * f t - g t) l = c * total f l - total g l.
Proof. unfold total. induction l as [|t l IH]; cbn; lia. Qed.

Lemma reader_room st i t :
  aligned -> Inv limit routes st -> threads st !! i = Some t -> holds_slot (tPhase t) = true ->
  total reader_held (threads st) + wants t <= limit.
Proof.
  intros Hal HI Ht Hs. pose proof (inv_threads _ _ _ HI) as HF.
  assert (Forall (fun t => 0 <= worst * slot_of t - reader_held t) (threads st)) as Hg.
  { eapply Forall_impl; [exact HF|]. intros x Hx. pose proof (reader_bound x Hal Hx) as Hb.
    destruct Hx as (_ & _ & Hp). unfold wants, phase_ok in *. destruct (tPhase x); pose proof block_pos; lia. }
  pose proof (total_part (fun t => worst * slot_of t - reader_held t) _ i t Hg Ht) as Hpart.
  rewrite total_scale, <- (inv_used _ _ _ HI) in Hpart. pose proof (thread_of limit routes st i t HI Ht) as Hok.
  pose proof (reader_bound t Hal Hok) as Hb.
  assert (exists m, m ∈ routes /\ 0 < unknown_ceil limit m) as (m & Hm & Hc).
  { exists (qMax (tReq t)). destruct Hok as ((Hm & _) & _ & Hp). split; [done|]. unfold phase_ok in Hp.
    destruct (tPhase t); try done; lia. }
  pose proof (slots_fit m Hm Hc). pose proof (inv_slots _ _ _ HI). destruct (ceil_worst m Hm Hc) as [Hle Hw].
  assert (0 < worst) by (unfold worst; pose proof block_pos; lia). nia.
Qed.
End Readers.

(** The growth of a read of unknown length is never blocked by other such reads: what all
    of them hold and what it waits for fit the limit together, so it waits only for
    requests that wait for nothing themselves. *)
Theorem readers_never_block_readers limit routes st i t :
  0 < limit -> aligned limit routes -> reachable limit routes st -> threads st !! i = Some t -> holds_slot (tPhase t) = true ->
  total reader_held (threads st) + wants t <= limit /\
  (act limit routes i Try st = None -> exists j t', threads st !! j = Some t' /\ holds_slot (tPhase t') = false /\ 0 < tHeld t').
Proof.
  intros Hl Hal Hr Ht Hs. pose proof (reachable_ok limit routes Hl st Hr) as HI.
  pose proof (reader_room limit routes Hl st i t Hal HI Ht Hs) as Hroom. split; [done|]. intros Hstuck.
  assert (inflight st + wants t > limit) as Hfull.
  { unfold act in Hstuck. rewrite Ht in Hstuck. unfold advance, wants in *.
    destruct (Z_le_gt_dec (inflight st + wants t) limit) as [Hle|Hgt]; [|done]. unfold wants in Hle.
    destruct (tPhase t); try done; [by rewrite (Acquire_room limit Hl) in Hstuck|by destruct (read_turn _ _ _ _ _ _ _) as [[? ?] ?]|
      by rewrite (Acquire_room limit Hl) in Hstuck]. }
  rewrite (inv_inflight _ _ _ HI) in Hfull. pose proof (inv_threads _ _ _ HI) as HF. clear -Hfull Hroom HF.
  assert (total reader_held (threads st) < total tHeld (threads st)) as Hlt by lia. clear Hfull Hroom.
  induction HF as [|x l (_ & Hx & _) HF IH]; [done|]. cbn in Hlt. unfold reader_held at 1 in Hlt.
  destruct (decide (holds_slot (tPhase x) = false /\ 0 < tHeld x)) as [[H1 H2]|Hn]; [by exists 0%nat, x|].
  destruct IH as (j & t' & ? & ?); [|by exists (S j), t']. fold (total reader_held l) (total tHeld l) in Hlt.
  destruct (holds_slot (tPhase x)); [lia|]. assert (~ 0 < tHeld x) by tauto. lia.
Qed.

(** ** Without timeouts every request finishes *)

(** A step that is not a timeout and not a rewrite. *)
Definition tick (limit : Z) (routes : list Z) (st st' : state) : Prop :=
  exists i a, (a = Try \/ a = Done) /\ act limit routes i a st = Some st'.

(** Steps a request has left. *)
Definition steps_left (t : thread) : Z :=
  let len (l : list Z) := 2 * Z.of_nat (length l) in
  match tPhase t with
  | Arrived => len (qChunks (tReq t)) + 8
  | Slot => len (qChunks (tReq t)) + 6
  | Scratch => len (qChunks (tReq t)) + 5
  | Reading _ _ ch => len ch + 3
  | Growing _ _ _ _ ch => len ch + 4
  | KnownRead => 2
  | Serving _ _ => 1
  | Finished _ => 0
  end.

Lemma steps_left_nonneg t : 0 <= steps_left t.
Proof. unfold steps_left. destruct (tPhase t); lia. Qed.

(** The outcome of a read of unknown length. *)
Fixpoint read_outcome (ceil tot : Z) (e : read_end) (ch : list Z) : outcome :=
  match ch with
  | [] => match e with EOF => Served | ReadError => BadRequest end
  | n :: ch => if n <=? 0 then read_outcome ceil tot e ch
               else if ceil <? tot + n then TooLarge else read_outcome ceil (tot + n) e ch
  end.

Definition unknown_length (q : request) : Prop := qMultipart q = false /\ qLength q <= 0 /\ qNoBody q = false.

Section Ticks.
Context (limit : Z) (routes : list Z).
Hypothesis limit_pos : 0 < limit.

(** The outcome a request of unknown length is due. *)
Definition due (t : thread) : outcome :=
  let q := tReq t in
  let ceil := unknown_ceil limit (qMax q) in
  match tPhase t with
  | Arrived | Slot | Scratch => if ceil <=? 0 then Exhausted else read_outcome ceil 0 (qEnd q) (qChunks q)
  | Reading tot _ ch => read_outcome ceil tot (qEnd q) ch
  | Growing tot _ n _ ch => read_outcome ceil (tot + n) (qEnd q) ch
  | Finished o => o
  | _ => Served
  end.

Lemma admit_left t i u : tPhase t = Arrived -> steps_left (fst (fst (admit_body limit t i u))) < steps_left t.
Proof. intros Hp. unfold steps_left at 2. rewrite Hp. unfold admit_body, settle, finish. repeat case_match; cbn; lia. Qed.

Lemma settled_left a t i u : steps_left (fst (fst (settle limit a t i u))) <= 1.
Proof. unfold settle, finish. repeat case_match; cbn; lia. Qed.

Lemma read_turn_left tot res ch t i u : tPhase t = Reading tot res ch -> steps_left (fst (fst (read_turn limit tot res ch t i u))) < steps_left t.
Proof.
  intros Hp. unfold steps_left at 2. rewrite Hp. unfold read_turn. destruct ch as [|n ch].
  - destruct (qEnd (tReq t)); [|cbn; lia]. pose proof (settled_left tot (mkThread (tReq t) (tHeld t - (res - tot)) Arrived) (Release limit (res - tot) i) (u - 1)).
    cbn [length]. lia.
  - unfold grow. repeat case_match; cbn -[Z.mul]; lia.
Qed.

Lemma advance_left a t i u r :
  thread_ok limit routes t -> a = Try \/ a = Done -> advance limit routes a t i u = Some r -> steps_left (fst (fst r)) < steps_left t.
Proof.
  intros (_ & _ & Hph) Ha. unfold advance, phase_ok in *. destruct (tPhase t) as [| | |tot res ch|tot res n d ch| |b p|o] eqn:Hp;
    destruct Ha as [->| ->]; try done.
  - intros [= <-]. by apply admit_left.
  - destruct (_ <? _); [|done]. intros [= <-]. unfold steps_left. rewrite Hp. cbn [fst tPhase tReq]. lia.
  - destruct (Acquire _ _ _); [|done]. intros [= <-]. unfold steps_left. rewrite Hp. cbn [fst tPhase tReq]. lia.
  - intros [= <-]. by apply read_turn_left.
  - destruct (Acquire _ _ _); [|done]. intros [= <-]. unfold steps_left. rewrite Hp. cbn [fst tPhase tReq].
    destruct Hph as (_ & _ & _ & _ & _ & _ & _ & _ & E & _). pose proof (up_spec (2 * (tot + n) + readBodyBlock)). unfold grow.
    destruct (Z.ltb_spec (res + d) (2 * (tot + n) + readBodyBlock)); lia.
  - intros [= <-]. unfold steps_left at 2. rewrite Hp. unfold read_known. pose proof (settled_left (total_size (qChunks (tReq t))) t i u).
    repeat case_match; [cbn; lia|lia|cbn; lia].
  - intros [= <-]. unfold steps_left. rewrite Hp. cbn. lia.
Qed.

Lemma tick_left st st' :
  Inv limit routes st -> tick limit routes st st' -> Inv limit routes st' /\ total steps_left (threads st') < total steps_left (threads st).
Proof.
  intros HI (i & a & Ha & E). split; [eapply act_inv; [done|exact HI| |exact E]; by destruct Ha as [->| ->]|]. unfold act in E.
  destruct (threads st !! i) as [t|] eqn:Et; [|done]. destruct (advance _ _ _ _ _ _) as [[[t' i'] u']|] eqn:Ea; [|done].
  injection E as <-. cbn [threads]. rewrite (total_update _ _ _ _ _ Et).
  apply advance_left in Ea; [cbn [fst] in Ea; lia|by eapply thread_of|done].
Qed.

Definition finished (t : thread) : Prop := exists o, tPhase t = Finished o.

Lemma finished_dec t : {finished t} + {~ finished t}.
Proof. unfold finished. destruct (tPhase t) eqn:E; try (right; by intros [o ?]). left. by eexists. Defined.

(** Some request can move unless all have finished. *)
Lemma tick_progress st :
  aligned limit routes -> Inv limit routes st -> (forall st', ~ tick limit routes st st') -> Forall finished (threads st).
Proof.
  intros Hal HI Hstuck. assert (forall i t a, threads st !! i = Some t -> a = Try \/ a = Done -> advance limit routes a t (inflight st) (used st) = None) as Hno.
  { intros i t a Ht Ha. destruct (advance limit routes a t (inflight st) (used st)) as [[[t' i'] u']|] eqn:E; [|done].
    exfalso. apply (Hstuck (mkState i' u' (<[i := t']> (threads st)))). exists i, a. split; [done|]. unfold act. by rewrite Ht, E. }
  pose proof (inv_threads _ _ _ HI) as HF.
  assert (Forall (fun t => reader_held t = tHeld t) (threads st)) as Heq.
  { rewrite Forall_forall in HF |- *. intros t Hin. destruct (HF t Hin) as (_ & _ & Hp). apply list_elem_of_lookup in Hin as [i Hi].
    pose proof (Hno i t Try Hi ltac:(by left)) as N1. pose proof (Hno i t Done Hi ltac:(by right)) as N2.
    unfold advance, phase_ok, reader_held in *. destruct (tPhase t); try done; try (by destruct Hp). }
  assert (inflight st = total reader_held (threads st)) as Hin.
  { rewrite (inv_inflight _ _ _ HI). apply Z.le_antisymm; apply total_le; eapply Forall_impl; try exact Heq; cbn; lia. }
  assert (forall i t, threads st !! i = Some t -> holds_slot (tPhase t) = false) as Hslot.
  { intros i t Hi. destruct (holds_slot (tPhase t)) eqn:Hs; [|done]. exfalso.
    pose proof (reader_room limit routes limit_pos st i t Hal HI Hi Hs) as Hroom. pose proof (Hno i t Try Hi ltac:(by left)) as N.
    unfold advance, wants in *. rewrite Hin in N. destruct (tPhase t); try done; by rewrite (Acquire_room limit limit_pos) in N. }
  assert (used st = 0) as Hused.
  { rewrite (inv_used _ _ _ HI). clear -Hslot. induction (threads st) as [|t l IH]; [done|]. change (slot_of t + total slot_of l = 0). unfold slot_of at 1.
    rewrite (Hslot 0%nat t eq_refl), IH; [done|]. intros i t' Hi. apply (Hslot (S i) t' Hi). }
  apply Forall_forall. intros t Ht. apply list_elem_of_lookup in Ht as [i Hi]. pose proof (Hno i t Try Hi ltac:(by left)) as N1.
  pose proof (Hno i t Done Hi ltac:(by right)) as N2. specialize (Hslot i t Hi). unfold advance, finished in *.
  destruct (tPhase t); try done; [|by eexists]. exfalso.
  destruct (Z.ltb_spec (used st) (unknownSlots limit routes)) as [|Hge]; [done|]. unfold unknownSlots in Hge. lia.
Qed.

Lemma due_kept a t i u r :
  thread_ok limit routes t -> unknown_length (tReq t) -> tPhase t <> KnownRead -> tHeld t <= i -> a = Try \/ a = Done ->
  advance limit routes a t i u = Some r -> due (fst (fst r)) = due t /\ tPhase (fst (fst r)) <> KnownRead.
Proof.
  intros ((_ & Hmax & _) & H0 & Hph) (Hm & Hl & Hnb) Hk Hi Ha. unfold advance, phase_ok in *. pose proof block_pos as Hb.
  destruct (tPhase t) as [| | |tot res ch|tot res n d ch| |b p|o] eqn:Hp; destruct Ha as [->| ->]; try done.
  - intros [= <-]. unfold admit_body. rewrite Hm, Hnb. destruct (Z.ltb_spec (qMax (tReq t)) (qLength (tReq t))); [lia|].
    destruct (Z.ltb_spec 0 (qLength (tReq t))); [lia|]. cbn [orb]. destruct (Z.leb_spec limit 0); [lia|].
    unfold due. rewrite Hp. destruct (unknown_ceil limit (qMax (tReq t)) <=? 0) eqn:Ec; cbn [fst finish tPhase tReq]; [done|]. by rewrite Ec.
  - destruct (_ <? _); [|done]. intros [= <-]. unfold due. rewrite Hp. done.
  - destruct (Acquire _ _ _); [|done]. intros [= <-]. unfold due. rewrite Hp. cbn [fst tPhase tReq].
    destruct Hph as [_ Hc]. by destruct (Z.leb_spec (unknown_ceil limit (qMax (tReq t))) 0); [lia|].
  - intros [= <-]. destruct Hph as (Hh & _ & Ht & Hr & _). unfold due at 2. rewrite Hp. unfold read_turn. destruct ch as [|n ch]; cbn [read_outcome].
    + destruct (qEnd (tReq t)); [|done]. unfold settle. cbn [tHeld tReq]. replace (tHeld t - (res - tot)) with tot by lia.
      rewrite Z.ltb_irrefl. done.
    + destruct (n <=? 0); [done|]. destruct (_ <? tot + n); [done|]. unfold grow. by destruct (_ <? _).
  - destruct (Acquire _ _ _); [|done]. intros [= <-]. unfold due. rewrite Hp. cbn [fst tPhase tReq]. unfold grow. by destruct (_ <? _).
  - intros [= <-]. unfold due. rewrite Hp. done.
Qed.

Lemma ticks_due st st' i t :
  Inv limit routes st -> rtc (tick limit routes) st st' -> threads st !! i = Some t -> unknown_length (tReq t) -> tPhase t <> KnownRead ->
  Inv limit routes st' /\ exists t', threads st' !! i = Some t' /\ tReq t' = tReq t /\ due t' = due t.
Proof.
  intros HI Hr. revert t HI. induction Hr as [st|st1 st2 st3 Hs Hr IH]; intros t HI Ht Hu Hk; [split; [done|by exists t]|].
  destruct (tick_left st1 st2 HI Hs) as [HI2 _].
  assert (exists t2, threads st2 !! i = Some t2 /\ tReq t2 = tReq t /\ due t2 = due t /\ tPhase t2 <> KnownRead) as (t2 & Ht2 & Eq & Ed & Hk2).
  { destruct Hs as (j & a & Ha & E). unfold act in E. destruct (threads st1 !! j) as [s|] eqn:Es; [|done].
    destruct (advance _ _ _ _ _ _) as [[[s' n'] u']|] eqn:Ea; [|done]. injection E as <-. cbn [threads].
    destruct (decide (i = j)) as [->|Hne]; [|exists t; by rewrite list_lookup_insert_ne].
    assert (s = t) as -> by congruence. exists s'. rewrite list_lookup_insert_eq by (by eapply lookup_lt_Some).
    pose proof (held_part limit routes st1 j t HI Ht) as Hh. pose proof (inv_limit _ _ _ HI).
    destruct (due_kept a t (inflight st1) (used st1) (s', n', u') (thread_of limit routes st1 j t HI Ht) Hu Hk ltac:(lia) Ha Ea) as [D1 D2].
    destruct (advance_accounts limit routes limit_pos a t (inflight st1) (used st1) (s', n', u') (thread_of limit routes st1 j t HI Ht) ltac:(lia) ltac:(by destruct Ha as [->| ->]) Ea)
      as [(_ & A2 & _) _]. done. }
  destruct (IH t2 HI2 Ht2) as (HI3 & t3 & H1 & H2 & H3); [by rewrite Eq|done|]. split; [done|]. exists t3. by rewrite H2, H3.
Qed.

Lemma ticks_inv st st' : Inv limit routes st -> rtc (tick limit routes) st st' -> Inv limit routes st'.
Proof. intros HI Hr. induction Hr as [|a b c Hab Hbc IH]; [done|]. apply IH. by eapply tick_left. Qed.

Lemma read_fits ceil tot ch : chunks_ok ch -> tot + total_size ch <= ceil -> read_outcome ceil tot EOF ch = Served.
Proof.
  intros Hch. revert tot. induction Hch as [|n ch Hn Hch IH]; intros tot Ht; [done|]. cbn in Ht |- *.
  fold (total_size ch) in Ht. pose proof (total_size_nonneg ch Hch).
  destruct (Z.leb_spec n 0); [apply IH; lia|]. destruct (Z.ltb_spec ceil (tot + n)); [lia|]. apply IH. lia.
Qed.
End Ticks.

(** C32: Without timeouts admission cannot get stuck, for a positive limit and routes whose largest
    ceiling for bodies of unknown length is a multiple of half a block ([aligned], as with a limit of 64
    MiB and the gateway's 10 MiB routes; otherwise readers can block each other,
    [unaligned_readers_block_each_other], and a body within the ceiling may not fit,
    [body_within_ceiling_never_fits]): from every reachable state every run without timeouts and
    rewrites ends after a bounded number of steps, with all requests finished and nothing reserved, and
    every body of unknown length that arrives completely and fits the ceiling of its route is served. *)
Theorem fitting_bodies_are_served limit routes st :
  0 < limit -> aligned limit routes -> reachable limit routes st ->
  (forall n st', nsteps (tick limit routes) n st st' -> Z.of_nat n <= total steps_left (threads st)) /\
  (forall st', rtc (tick limit routes) st st' -> (forall st'', ~ tick limit routes st' st'') ->
    Forall finished (threads st') /\ inflight st' = 0 /\
    forall i t, threads st !! i = Some t -> tPhase t = Arrived -> unknown_length (tReq t) ->
      0 < unknown_ceil limit (qMax (tReq t)) -> total_size (qChunks (tReq t)) <= unknown_ceil limit (qMax (tReq t)) ->
      qEnd (tReq t) = EOF -> exists t', threads st' !! i = Some t' /\ tPhase t' = Finished Served).
Proof.
  intros Hl Hal Hr. pose proof (reachable_ok limit routes Hl st Hr) as HI. split.
  - intros n st' Hn. clear Hr. induction Hn as [st|n st1 st2 st3 Hs Hn IH].
    + apply total_nonneg, Forall_true. apply steps_left_nonneg.
    + destruct (tick_left limit routes Hl st1 st2 HI Hs) as [HI2 Hlt]. specialize (IH HI2). lia.
  - intros st' Hrun Hstuck. pose proof (ticks_inv limit routes Hl st st' HI Hrun) as HI'.
    pose proof (tick_progress limit routes Hl st' Hal HI' Hstuck) as Hfin. split_and!; [done| |].
    + rewrite (inv_inflight _ _ _ HI'). pose proof (inv_threads _ _ _ HI') as HF. clear -HF Hfin.
      induction HF as [|x l (_ & _ & Hp) HF IH]; [done|]. inversion Hfin as [|? ? [o E] Hfin']; subst.
      change (tHeld x + total tHeld l = 0). unfold phase_ok in Hp. rewrite E in Hp. rewrite Hp, (IH Hfin'). done.
    + intros i t Ht Ep Hu Hc Hfit He.
      destruct (ticks_due limit routes Hl st st' i t HI Hrun Ht Hu ltac:(by rewrite Ep)) as (_ & t' & Ht' & Eq & Ed).
      exists t'. split; [done|]. rewrite Forall_forall in Hfin. destruct (Hfin t' ltac:(by eapply list_elem_of_lookup_2)) as [o Eo].
      unfold due in Ed. rewrite Eo, Ep, He in Ed. destruct (Z.leb_spec (unknown_ceil limit (qMax (tReq t))) 0); [lia|].
      destruct (thread_of limit routes st i t HI Ht) as ((_ & _ & Hch & _) & _). rewrite read_fits in Ed by done || lia. by rewrite Eo, Ed.
Qed.

(** ** Runs *)

Inductive event := Arrive (q : request) | Act (i : nat) (a : action).

Definition apply_event (limit : Z) (routes : list Z) (e : event) (st : state) : option state :=
  match e with Arrive q => Some (arrive q st) | Act i a => act limit routes i a st end.

Fixpoint run (limit : Z) (routes : list Z) (es : list event) (st : state) : option state :=
  match es with
  | [] => Some st
  | e :: es => match apply_event limit routes e st with Some st => run limit routes es st | None => None end
  end.

Definition event_ok (routes : list Z) (e : event) : Prop :=
  match e with Arrive q => request_ok routes q | Act _ a => action_ok a end.

Lemma run_reachable limit routes es st : Forall (event_ok routes) es -> run limit routes es idle = Some st -> reachable limit routes st.
Proof.
  unfold reachable. generalize idle. induction es as [|e es IH]; intros st0 Hok; cbn; [by intros [= <-]|].
  apply Forall_cons in Hok as [He Hok]. destruct (apply_event limit routes e st0) as [st1|] eqn:E; [|done]. intros H.
  eapply rtc_l; [|exact (IH st1 Hok H)]. destruct e as [q|i a]; cbn in E; [injection E as <-; by constructor|by eapply StepAct].
Qed.

(** The gateway's routes: bodies up to 10 MiB, here under a budget of 64 MiB. *)
Definition mib (n : Z) : Z := Z.shiftl n 20.
Definition gateway : list Z := [mib 10].
Definition chunked (max : Z) (chunks : list Z) : request := mkRequest max 0 false (-1) false chunks EOF.
Definition sized (max len : Z) : request := mkRequest max 0 false len false [len] EOF.

Definition demo : list event :=
  [Arrive (chunked (mib 10) [300000; 300000]); Arrive (sized (mib 10) 1000); Arrive (chunked (mib 10) [7]);
   Act 0 Try; Act 0 Try; Act 0 Try; Act 0 Try; Act 1 Try; Act 1 Try; Act 1 (Prealloc 600); Act 1 (SetBody 1100)].

Definition demo_state : state := default idle (run (mib 64) gateway demo idle).

Lemma demo_reachable : reachable (mib 64) gateway demo_state.
Proof.
  apply (run_reachable (mib 64) gateway demo); [|vm_compute; reflexivity]. unfold demo.
  rewrite !Forall_cons, Forall_nil. cbn [event_ok action_ok]. unfold request_ok, gateway. cbn [qMax qChunks qLength chunked sized].
  rewrite !Forall_cons, Forall_nil, list_elem_of_singleton. unfold mib, readBodyBlock, total_size. cbn. split_and!; try done; lia.
Qed.

Lemma gateway_aligned : aligned (mib 64) gateway.
Proof. exists 40. vm_compute. reflexivity. Qed.

Lemma body_budget_exact_witness :
  inflight demo_state = total tHeld (threads demo_state) /\ inflight demo_state = 1600 + readBodyBlock.
Proof.
  split; [|vm_compute; reflexivity]. apply (body_budget_exact (mib 64) gateway demo_state); [reflexivity|exact demo_reachable].
Defined.

Lemma readers_never_block_readers_witness :
  exists t, threads demo_state !! 0%nat = Some t /\ wants t = 2 * readBodyBlock /\ total reader_held (threads demo_state) + wants t <= mib 64.
Proof.
  eexists. split; [vm_compute; reflexivity|]. split; [vm_compute; reflexivity|].
  apply (readers_never_block_readers (mib 64) gateway demo_state 0); [reflexivity|exact gateway_aligned|exact demo_reachable|vm_compute; reflexivity|reflexivity].
Defined.

(** A run that lets the first request move that can. *)
Definition next_tick (limit : Z) (routes : list Z) (st : state) : option state :=
  head (omap (fun ia => act limit routes (fst ia) (snd ia) st) (list_prod (seq 0 (length (threads st))) [Try; Done])).

Fixpoint greedy (limit : Z) (routes : list Z) (fuel : nat) (st : state) : state :=
  match fuel with
  | O => st
  | S fuel => match next_tick limit routes st with Some st' => greedy limit routes fuel st' | None => st end
  end.

Lemma greedy_ticks limit routes fuel st : rtc (tick limit routes) st (greedy limit routes fuel st).
Proof.
  revert st. induction fuel as [|fuel IH]; intros st; cbn [greedy]; [done|]. destruct (next_tick limit routes st) as [st'|] eqn:E; [|done].
  eapply rtc_l; [|apply IH]. apply head_Some_elem_of, list_elem_of_omap in E as ([i a] & Hin & Ha). exists i, a. split; [|done].
  apply list_elem_of_In, in_prod_iff in Hin as [_ Hin]. cbn in Hin. naive_solver.
Qed.

Lemma finished_stuck limit routes st st' : Forall finished (threads st) -> ~ tick limit routes st st'.
Proof.
  intros Hf (i & a & _ & E). unfold act in E. destruct (threads st !! i) as [t|] eqn:Et; [|done].
  destruct (Forall_lookup_1 _ _ _ _ Hf Et) as [o Ho]. unfold advance in E. by rewrite Ho in E.
Qed.

Definition demo_end : state := greedy (mib 64) gateway 30 demo_state.

Lemma demo_end_finished : Forall finished (threads demo_end).
Proof. vm_compute. repeat constructor; eexists; reflexivity. Qed.

Lemma fitting_bodies_are_served_witness : exists t', threads demo_end !! 2%nat = Some t' /\ tPhase t' = Finished Served.
Proof.
  apply (proj2 (proj2 (proj2 (fitting_bodies_are_served (mib 64) gateway demo_state eq_refl gateway_aligned demo_reachable) demo_end
           (greedy_ticks (mib 64) gateway 30 demo_state) (fun st'' => finished_stuck (mib 64) gateway demo_end st'' demo_end_finished)))
           2%nat (mkThread (chunked (mib 10) [7]) 0 Arrived)); try (vm_compute; reflexivity); try done; try lia.
Defined.

(** ** Where admission gets stuck *)

(** Reservations are rounded up to whole blocks and the slots are not: with a ceiling that
    is not a multiple of half a block two reads of unknown length block each other, each
    holding two blocks and waiting for a third. *)
Theorem unaligned_readers_block_each_other :
  let limit := 2306868 in let routes := [314573] in let q := chunked 314573 [262144; 52429] in
  let es := Arrive q :: Arrive q :: map (fun i => Act i Try) [0; 1; 0; 1; 0; 1; 0; 1; 0; 1; 0; 1]%nat in
  let st := default idle (run limit routes es idle) in
  run limit routes es idle = Some st /\ unknownSlots limit routes = 2 /\
  act limit routes 0 Try st = None /\ act limit routes 1 Try st = None /\
  map holds_slot (map tPhase (threads st)) = [true; true].
Proof. vm_compute. by split_and!. Qed.

(** A body of exactly the ceiling can never be read when the limit is not a multiple of the
    block: alone in the system it waits for more than the limit. *)
Theorem body_within_ceiling_never_fits :
  let limit := 3407872 in let q := chunked (mib 10) [524288; 524288; 393216] in
  let es := Arrive q :: map (fun i => Act i Try) [0; 0; 0; 0; 0; 0; 0; 0]%nat in
  let st := default idle (run limit gateway es idle) in
  run limit gateway es idle = Some st /\ total_size (qChunks q) = unknown_ceil limit (qMax q) /\
  length (threads st) = 1%nat /\ act limit gateway 0 Try st = None /\ limit < inflight st + total wants (threads st).
Proof. vm_compute. by split_and!. Qed.

(** What a rewrite does not need of its pre-allocation stays reserved while it is served. *)
Theorem unused_preallocation_stays_reserved :
  map (fun t => (tPhase t, tHeld t)) (skipn 1 (firstn 2 (threads demo_state))) = [(Serving 1100 500, 1600)].
Proof. vm_compute. reflexivity. Qed.
