(* ===== verification/Dispatch.v ===== *)
(** * Dispatch counters: [internal/service/guardrail_dispatch.go], [active_requests.go] and [health_score.go]

    Per provider and model a dispatch counts itself in Redis, raises a flag when it is
    over its cap, and records its outcome; the health score reads the flags and the error
    rate of the current minute and steers the router.  The store and its scripts are those
    of [RateLimit]; a command is delivered, not sent, or delivered with its answer lost. *)

From Stdlib Require Import SpecFloat.
From stdpp Require Import pretty.
From S2P Require Import Prelude Health Retry Router Budget RateLimit.

Notation store := (gmap string counter) (only parsing).

(** A command with its fate. *)
Definition send {A} (f : fate) (script : store -> A * store) (db : store) : option A * store :=
  match f with
  | NotSent => (None, db)
  | Delivered => let '(a, db) := script db in (Some a, db)
  | ResponseLost => (None, snd (script db))
  end.

(** [SET key 1 EX ttl] and [DEL] *)
Definition set_flag (k : string) (ttl : Z) (db : store) : unit * store := (tt, <[k := mkCounter 1 (Some ttl)]> db).
Definition del (k : string) (db : store) : unit * store := (tt, delete k db).

(** ** The dispatch guard *)

Definition ConcKeyTTL : Z := 300.

Definition incrExpireAlwaysScript (k : string) (ttl : Z) (db : store) : Z * store :=
  let '(n, db) := INCRBY k 1 db in (n, EXPIRE k ttl db).

(** [incrExpireGuardScript] *)
Definition incrExpireGuard (k : string) (ttl : Z) (db : store) : Z * store :=
  let '(n, db) := INCRBY k 1 db in (n, if n =? 1 then EXPIRE k ttl db else db).

Record GuardrailConfig := mkGuard { Concurrency : Z; gRPM : Z }.

Definition concKey (p m : string) : string := "guard:conc:" +:+ p +:+ ":" +:+ m.
Definition limitedKey (p m dim : string) : string := "guard:limited:" +:+ p +:+ ":" +:+ m +:+ ":" +:+ dim.
Definition currentMinuteKeySuffix (now : Z) : string := pretty (now / 60).
Definition minuteKey (prefix p m : string) (now : Z) : string := prefix +:+ p +:+ ":" +:+ m +:+ ":" +:+ currentMinuteKeySuffix now.

(** The fates of the four commands of an acquire. *)
Record acquire_fates := mkFates { fConc : fate; fConcFlag : fate; fRPM : fate; fRPMFlag : fate }.
Definition all_delivered : acquire_fates := mkFates Delivered Delivered Delivered Delivered.

(** [AcquireDispatchGuard] at [now], in Unix seconds: the dimensions passed to [OnExceed]. *)
Definition AcquireDispatchGuard (p m : string) (cfg : GuardrailConfig) (now : Z) (fs : acquire_fates) (db : store) : list string * store :=
  let '(n, db) := send (fConc fs) (incrExpireAlwaysScript (concKey p m) ConcKeyTTL) db in
  let '(conc, db) :=
    match n with
    | Some n => if (0 <? Concurrency cfg) && (Concurrency cfg <? n)
                then (["conc"], snd (send (fConcFlag fs) (set_flag (limitedKey p m "conc") 15) db)) else ([], db)
    | None => ([], db)
    end in
  let '(n, db) := send (fRPM fs) (incrExpireGuard (minuteKey "guard:rpm:" p m now) 120) db in
  match n with
  | Some n =>
      if (0 <? gRPM cfg) && (gRPM cfg <? n) then
        let ttl := 60 - now mod 60 + 1 in
        (conc ++ ["rpm"], snd (send (fRPMFlag fs) (set_flag (limitedKey p m "rpm") (if ttl <? 1 then 1 else ttl)) db))
      else (conc, db)
  | None => (conc, db)
  end.

(** The release function: [DECR]. *)
Definition release (p m : string) (f : fate) (db : store) : store := snd (send f (INCRBY (concKey p m) (-1)) db).

(** ** Active requests *)

Definition activeTTL : Z := 1800.

Definition incrExpireActiveScript (k : string) (ttl : Z) (db : store) : Z * store :=
  let '(count, db) := INCRBY k 1 db in
  (count, if (count =? 1) || negb (bool_decide (is_Some (db !! k ≫= cTTL))) then EXPIRE k ttl db else db).

Definition decrScript (k : string) (db : store) : Z * store :=
  match db !! k with
  | None => (0, db)
  | Some c => if cValue c <=? 1 then (1, delete k db) else INCRBY k (-1) db
  end.

Definition activeKey (p : string) : string := "active:" +:+ p.
Definition Incr (p : string) (f : fate) (db : store) : store := snd (send f (incrExpireActiveScript (activeKey p) activeTTL) db).
Definition Decr (p : string) (f : fate) (db : store) : store := snd (send f (decrScript (activeKey p)) db).
Definition Get (p : string) (db : store) : Z := let v := value (activeKey p) db in if v <? 0 then 0 else v.

(** ** Outcomes and the health score *)

(** [INCR] and, when it was answered, [EXPIRE]. *)
Definition incr_then_expire (k : string) (f1 f2 : fate) (db : store) : store :=
  let '(n, db) := send f1 (INCRBY k 1) db in
  match n with Some _ => snd (send f2 (fun db => (tt, EXPIRE k 120 db)) db) | None => db end.

Definition RecordDispatchOutcome (p m : string) (failed : bool) (now : Z) (fs : acquire_fates) (db : store) : store :=
  let db := incr_then_expire (minuteKey "guard:total:" p m now) (fConc fs) (fConcFlag fs) db in
  if failed then incr_then_expire (minuteKey "guard:errs:" p m now) (fRPM fs) (fRPMFlag fs) db else db.

Definition fdiv (a b : float64) : float64 := SFdiv 53 1024 a b.
Definition fsub (a b : float64) : float64 := SFsub 53 1024 a b.
Definition fone : float64 := float_of_Z 1.
Definition HealthScorePenaltyFactor : float64 := float_of_Z 2.
(** The nearest [float64] to 0.05 *)
Definition HalfOpenProbeFloor : float64 := fdiv (float_of_Z 1) (float_of_Z 20).

(** [HealthScore]; [now] is in Unix seconds and [nowNs] the clock of the health tracker.
    [answered] says which of its three reads is answered; a failed read counts as absent. *)
Definition HealthScore (health : option HealthTracker) (nowNs now : Z) (answered : nat -> bool) (db : store) (p m : string) : float64 :=
  match health with
  | None => fone
  | Some h =>
      match CircuitState nowNs h p m with
      | CircuitOpen => fzero
      | CircuitHalfOpen => HalfOpenProbeFloor
      | CircuitClosed =>
          if answered 0%nat && (bool_decide (is_Some (db !! limitedKey p m "conc")) || bool_decide (is_Some (db !! limitedKey p m "rpm"))) then fzero
          else
            let total := if answered 1%nat then value (minuteKey "guard:total:" p m now) db else 0 in
            let errs := if answered 2%nat then value (minuteKey "guard:errs:" p m now) db else 0 in
            if total <=? 0 then fone
            else
              let errorRate := fdiv (float_of_Z errs) (float_of_Z total) in
              let base := fsub fone (fmul errorRate HealthScorePenaltyFactor) in
              if flt base fzero then fzero else base
      end
  end.

(** ** The concurrency counter *)

Lemma conc_not_limited p m p' m' dim : concKey p m <> limitedKey p' m' dim.
Proof. unfold concKey, limitedKey. intros H. cbn in H. discriminate H. Qed.
Lemma conc_not_rpm p m p' m' now : concKey p m <> minuteKey "guard:rpm:" p' m' now.
Proof. unfold concKey, minuteKey. intros H. cbn in H. discriminate H. Qed.
Lemma limited_not_rpm p m dim p' m' now : limitedKey p m dim <> minuteKey "guard:rpm:" p' m' now.
Proof. unfold limitedKey, minuteKey. intros H. cbn in H. discriminate H. Qed.
#[local] Hint Resolve conc_not_limited conc_not_rpm limited_not_rpm not_eq_sym : keys.

Lemma send_snd {A} f (script : store -> A * store) db : snd (send f script db) = match f with NotSent => db | _ => snd (script db) end.
Proof. destruct f; cbn; [by destruct (script db)|done|done]. Qed.

Lemma lookup_incr_other k k' d db : k <> k' -> snd (INCRBY k' d db) !! k = db !! k.
Proof. intros H. cbn. by rewrite lookup_insert_ne. Qed.

Lemma lookup_expire_other k k' ttl db : k <> k' -> EXPIRE k' ttl db !! k = db !! k.
Proof. intros H. unfold EXPIRE. destruct (db !! k'); [by rewrite lookup_insert_ne|done]. Qed.

Lemma guard_script_other k k' ttl db : k <> k' -> snd (incrExpireGuard k' ttl db) !! k = db !! k.
Proof.
  intros H. unfold incrExpireGuard. destruct (INCRBY k' 1 db) as [n db'] eqn:E. pose proof (lookup_incr_other k k' 1 db H) as Hi.
  rewrite E in Hi. cbn [snd] in *. destruct (n =? 1); [by rewrite lookup_expire_other|done].
Qed.

Lemma always_script k ttl db : incrExpireAlwaysScript k ttl db = (value k db + 1, <[k := mkCounter (value k db + 1) (Some ttl)]> db).
Proof. unfold incrExpireAlwaysScript, INCRBY, EXPIRE. by rewrite lookup_insert_eq, insert_insert_eq. Qed.

Lemma send_lookup {A} f (script : store -> A * store) k db :
  (forall db, snd (script db) !! k = db !! k) -> snd (send f script db) !! k = db !! k.
Proof. intros H. rewrite send_snd. by destruct f. Qed.

(** What an acquire does to a key: only its counter changes, and the key of a flag when it is raised. *)
Lemma acquire_lookup p m cfg now fs db k :
  k <> minuteKey "guard:rpm:" p m now -> k <> limitedKey p m "rpm" ->
  snd (AcquireDispatchGuard p m cfg now fs db) !! k =
    let '(n, db1) := send (fConc fs) (incrExpireAlwaysScript (concKey p m) ConcKeyTTL) db in
    match n with
    | Some n => if (0 <? Concurrency cfg) && (Concurrency cfg <? n)
                then snd (send (fConcFlag fs) (set_flag (limitedKey p m "conc") 15) db1) !! k else db1 !! k
    | None => db1 !! k
    end.
Proof.
  intros Hr Hl. unfold AcquireDispatchGuard. destruct (send (fConc fs) _ db) as [n db1].
  set (step1 := match n with Some _ => _ | None => _ end).
  assert (snd step1 !! k = match n with
    | Some n => if (0 <? Concurrency cfg) && (Concurrency cfg <? n)
                then snd (send (fConcFlag fs) (set_flag (limitedKey p m "conc") 15) db1) !! k else db1 !! k
    | None => db1 !! k end) as <- by (subst step1; destruct n; [case_match|]; done).
  destruct step1 as [conc db2]. cbn [snd].
  destruct (send (fRPM fs) _ db2) as [n2 db3] eqn:E.
  assert (db3 !! k = db2 !! k) as H3.
  { pose proof (send_lookup (fRPM fs) (incrExpireGuard (minuteKey "guard:rpm:" p m now) 120) k db2) as H. rewrite E in H. apply H.
    intros d. by apply guard_script_other. }
  destruct n2; [case_match|]; cbn [snd]; [|done|done]. rewrite send_lookup; [done|]. intros d. cbn. by rewrite lookup_insert_ne.
Qed.

(** The traffic of one provider and model next to everything else in the store. *)
Inductive guard_op :=
  | GAcquire (cfg : GuardrailConfig) (now : Z) (fs : acquire_fates)
  | GRelease (f : fate)
  | GElapse (d : Z)
  | GOther (k : string) (c : option counter).

(** The store, the dispatches in flight and the seconds since the last acquire. *)
Record guard_state := mkGuardState { gStore : store; gLive : Z; gIdle : Z }.

Definition guard_step (p m : string) (s : guard_state) (o : guard_op) : guard_state :=
  match o with
  | GAcquire cfg now fs => mkGuardState (snd (AcquireDispatchGuard p m cfg now fs (gStore s))) (gLive s + 1) 0
  | GRelease f => mkGuardState (release p m f (gStore s)) (gLive s - 1) (gIdle s)
  | GElapse d => mkGuardState (elapse d (gStore s)) (gLive s) (gIdle s + d)
  | GOther k c => mkGuardState (partial_alter (fun _ => c) k (gStore s)) (gLive s) (gIdle s)
  end.

Definition no_guard : guard_state := mkGuardState ∅ 0 0.

(** Commands reach the store, and while dispatches are in flight no [ConcKeyTTL] seconds pass without an acquire. *)
Definition guard_ok (p m : string) (s : guard_state) (o : guard_op) : Prop :=
  match o with
  | GAcquire _ _ fs => fConc fs <> NotSent
  | GRelease f => f <> NotSent /\ 0 < gLive s
  | GElapse d => 0 <= d /\ (0 < gLive s -> gIdle s + d < ConcKeyTTL)
  | GOther k _ => k <> concKey p m
  end.

Fixpoint guard_run_ok (p m : string) (os : list guard_op) (s : guard_state) : Prop :=
  match os with [] => True | o :: os => guard_ok p m s o /\ guard_run_ok p m os (guard_step p m s o) end.

Definition guard_run (p m : string) (os : list guard_op) (s : guard_state) : guard_state := fold_left (guard_step p m) os s.

Definition counts_live (p m : string) (s : guard_state) : Prop :=
  0 <= gLive s /\
  match gStore s !! concKey p m with
  | None => gLive s = 0
  | Some c => cValue c = gLive s /\ cTTL c = Some (ConcKeyTTL - gIdle s) /\ 0 < ConcKeyTTL - gIdle s
  end.

Lemma counts_value p m s : counts_live p m s -> value (concKey p m) (gStore s) = gLive s.
Proof. intros [_ H]. unfold value. destruct (gStore s !! _); cbn; [by destruct H|done]. Qed.

Lemma acquire_conc p m cfg now fs db :
  fConc fs <> NotSent ->
  snd (AcquireDispatchGuard p m cfg now fs db) !! concKey p m = Some (mkCounter (value (concKey p m) db + 1) (Some ConcKeyTTL)).
Proof.
  intros Hf. rewrite acquire_lookup by auto with keys.
  assert (forall d, snd (send (fConcFlag fs) (set_flag (limitedKey p m "conc") 15) d) !! concKey p m = d !! concKey p m) as Hflag.
  { intros d. apply send_lookup. intros e. cbn. rewrite lookup_insert_ne by auto with keys. done. }
  destruct (fConc fs); cbn [send]; rewrite ?always_script; cbn [snd]; [|done|by rewrite lookup_insert_eq].
  case_match; rewrite ?Hflag; by rewrite lookup_insert_eq.
Qed.

Lemma counts_step p m s o : guard_ok p m s o -> counts_live p m s -> counts_live p m (guard_step p m s o).
Proof.
  intros Hok HC. pose proof (counts_value p m s HC) as Hv. destruct HC as [H0 HC]. destruct o as [cfg now fs|f|d|k c]; cbn [guard_step]; unfold counts_live; cbn [gStore gLive gIdle].
  - rewrite acquire_conc by done. cbn [cValue cTTL]. rewrite Hv. split; [lia|]. split_and!; [lia|by rewrite Z.sub_0_r|unfold ConcKeyTTL; lia].
  - destruct Hok as [Hf Hl]. unfold release. split; [lia|]. assert (snd (send f (INCRBY (concKey p m) (-1)) (gStore s)) = snd (INCRBY (concKey p m) (-1) (gStore s))) as ->
      by (rewrite send_snd; by destruct f). unfold INCRBY. cbn [snd]. rewrite lookup_insert_eq. cbn [cValue cTTL]. rewrite Hv.
    destruct (gStore s !! concKey p m) as [c|]; [|lia]. destruct HC as (_ & HT & HP). cbn. split_and!; [lia|done|done].
  - destruct Hok as [Hd Hidle]. split; [done|]. unfold elapse. rewrite lookup_omap. destruct (gStore s !! concKey p m) as [c|]; [|done].
    destruct HC as (HV & HT & HP). cbn. unfold age. rewrite HT. destruct (Z.leb_spec (ConcKeyTTL - gIdle s) d).
    + destruct (Z_lt_le_dec 0 (gLive s)) as [Hl|Hl]; [specialize (Hidle Hl); lia|lia].
    + cbn [cValue cTTL]. split_and!; [done|f_equal; lia|lia].
  - split; [done|]. by rewrite lookup_partial_alter_ne.
Qed.

Lemma counts_run p m os s : guard_run_ok p m os s -> counts_live p m s -> counts_live p m (guard_run p m os s).
Proof. revert s. induction os as [|o os IH]; intros s; cbn; [done|]. intros [Ho Hos] HC. apply IH; [done|by apply counts_step]. Qed.

Lemma acquire_exceeds p m cfg now fs db :
  In "conc" (fst (AcquireDispatchGuard p m cfg now fs db)) <->
  fConc fs = Delivered /\ 0 < Concurrency cfg < value (concKey p m) db + 1.
Proof.
  unfold AcquireDispatchGuard. destruct (send (fConc fs) _ db) as [n db1] eqn:E.
  set (step1 := match n with Some _ => _ | None => _ end).
  assert (In "conc" (fst step1) <-> fConc fs = Delivered /\ 0 < Concurrency cfg < value (concKey p m) db + 1) as H1.
  { subst step1. destruct (fConc fs); cbn [send] in E; [rewrite always_script in E|..]; injection E as <- <-; cbn; [|split; [done|by intros []]..].
    destruct ((0 <? Concurrency cfg) && (Concurrency cfg <? value (concKey p m) db + 1)) eqn:Eb; cbn; split; intros H;
      [split; [done|lia]|by left|done|lia]. }
  destruct step1 as [conc db2]. cbn [fst] in H1. rewrite <- H1. destruct (send (fRPM fs) _ db2) as [[n2|] db3]; [|done].
  destruct (_ && _); [|done]. cbn [fst]. rewrite in_app_iff. cbn. split; [intros [?|[?|[]]]; done|by left].
Qed.

(** The concurrency counter of a provider and model is the number of its dispatches in
    flight, on every sequence of acquires and releases next to any other traffic, as long
    as the commands reach the store and the key does not expire under them; and an acquire
    reports the cap as exceeded exactly when it makes that number exceed it. *)
Theorem conc_counter_is_in_flight p m os cfg now fs :
  guard_run_ok p m os no_guard ->
  let s := guard_run p m os no_guard in
  value (concKey p m) (gStore s) = gLive s /\
  (In "conc" (fst (AcquireDispatchGuard p m cfg now fs (gStore s))) <-> fConc fs = Delivered /\ 0 < Concurrency cfg < gLive s + 1).
Proof.
  intros Hok. cbv zeta. assert (counts_live p m (guard_run p m os no_guard)) as HC by (apply counts_run; [done|by split]).
  pose proof (counts_value p m _ HC) as Hv. split; [done|]. by rewrite acquire_exceeds, Hv.
Qed.

Definition guard_demo : list guard_op :=
  [GAcquire (mkGuard 2 0) 1000 all_delivered; GAcquire (mkGuard 2 0) 1001 all_delivered; GElapse 200; GRelease Delivered;
   GAcquire (mkGuard 2 0) 1201 all_delivered; GElapse 299].

Lemma guard_demo_ok : guard_run_ok "acme" "m" guard_demo no_guard.
Proof. cbn -[AcquireDispatchGuard release elapse]. unfold ConcKeyTTL. split_and!; try done; lia. Qed.

Lemma conc_counter_is_in_flight_witness :
  gLive (guard_run "acme" "m" guard_demo no_guard) = 2 /\
  value (concKey "acme" "m") (gStore (guard_run "acme" "m" guard_demo no_guard)) = gLive (guard_run "acme" "m" guard_demo no_guard).
Proof.
  split; [vm_compute; reflexivity|].
  exact (proj1 (conc_counter_is_in_flight "acme" "m" guard_demo (mkGuard 2 0) 1500 all_delivered guard_demo_ok)).
Defined.

(** ** Overload steers the router *)

(** The flag raised by an over-cap acquire lives on, whatever else happens to the store. *)
Definition flagged (p m : string) (left : Z) (db : store) : Prop :=
  exists c t, db !! limitedKey p m "conc" = Some c /\ cTTL c = Some t /\ left <= t.

Definition spares_flag (p m : string) (o : guard_op) : Prop :=
  match o with GOther k _ => k <> limitedKey p m "conc" | GElapse d => 0 <= d | _ => True end.

Fixpoint seconds (os : list guard_op) : Z :=
  match os with [] => 0 | GElapse d :: os => d + seconds os | _ :: os => seconds os end.

Lemma limited_conc_rpm p m : limitedKey p m "conc" <> limitedKey p m "rpm".
Proof.
  unfold limitedKey. intros H. repeat (apply string_app_inj_l in H). discriminate H.
Qed.

Lemma flag_step p m left s o :
  0 < left <= 15 -> spares_flag p m o -> seconds [o] < left -> flagged p m left (gStore s) ->
  flagged p m (left - seconds [o]) (gStore (guard_step p m s o)).
Proof.
  intros Hl Ho Hs (c & t & Hc & Ht & Hle). destruct o as [cfg now fs|f|d|k c']; cbn [guard_step gStore seconds] in *; rewrite ?Z.sub_0_r, ?Z.add_0_r in *.
  - unfold flagged. rewrite acquire_lookup by auto using limited_conc_rpm with keys.
    assert (forall n d1, send (fConc fs) (incrExpireAlwaysScript (concKey p m) ConcKeyTTL) (gStore s) = (n, d1) ->
      d1 !! limitedKey p m "conc" = Some c) as Hsame.
    { intros n d1 E. rewrite <- Hc. pose proof (send_lookup (fConc fs) (incrExpireAlwaysScript (concKey p m) ConcKeyTTL) (limitedKey p m "conc") (gStore s)) as H.
      rewrite E in H. apply H. intros d. rewrite always_script. cbn [snd]. rewrite lookup_insert_ne by auto with keys. done. }
    destruct (send (fConc fs) _ (gStore s)) as [n d1] eqn:E. specialize (Hsame n d1 eq_refl).
    destruct n; [case_match|]; [|by exists c, t..]. rewrite send_snd.
    destruct (fConcFlag fs); cbn [set_flag snd]; [|by exists c, t|]; rewrite lookup_insert_eq; exists (mkCounter 1 (Some 15)), 15; (split_and!; [done|done|lia]).
  - exists c, t. split_and!; [|done|done]. unfold release. rewrite send_lookup; [done|]. intros d. apply lookup_incr_other. auto with keys.
  - unfold flagged, elapse. rewrite lookup_omap, Hc. cbn. unfold age. rewrite Ht. destruct (Z.leb_spec t d); [lia|].
    exists (mkCounter (cValue c) (Some (t - d))), (t - d). split_and!; [done|done|lia].
  - exists c, t. split_and!; [|done|done]. by rewrite lookup_partial_alter_ne.
Qed.

Lemma seconds_nonneg p m os : Forall (spares_flag p m) os -> 0 <= seconds os.
Proof. induction 1 as [|o os Ho Hos IH]; cbn; [lia|]. destruct o; cbn in *; lia. Qed.

Lemma flag_run p m left s os :
  0 < left <= 15 -> Forall (spares_flag p m) os -> seconds os < left -> flagged p m left (gStore s) ->
  is_Some (gStore (guard_run p m os s) !! limitedKey p m "conc").
Proof.
  intros Hl Hos. revert left s Hl. induction Hos as [|o os Ho Hos IH]; intros left s Hl Hs Hf.
  - destruct Hf as (c & t & Hc & _). by exists c.
  - pose proof (seconds_nonneg p m os Hos) as Hn. assert (seconds (o :: os) = seconds [o] + seconds os) as E by (destruct o; cbn; lia).
    assert (0 <= seconds [o]) by (destruct o; cbn in *; lia).
    apply (IH (left - seconds [o]) (guard_step p m s o)); [lia|lia|]. apply flag_step; done || lia.
Qed.

(** C34: A dispatch over the cap, whose commands were delivered, takes its provider out of the running:
    for less than fifteen seconds, whatever others do to the store short of removing its flag, a health
    score whose read is answered is zero unless the circuit is half open; and the router's health filter
    over such fresh scores does not leave it among the preferred candidates when some primary scores.
    When no primary scores the filter keeps them all, and the cached routes use scores up to two seconds
    old; neither is claimed here. *)
Theorem overloaded_provider_is_demoted p m cfg now db os health nowNs now' answered :
  In "conc" (fst (AcquireDispatchGuard p m cfg now all_delivered db)) ->
  Forall (spares_flag p m) os -> seconds os < 15 -> answered 0%nat = true ->
  CircuitState nowNs health p m <> CircuitHalfOpen ->
  let db' := gStore (guard_run p m os (mkGuardState (snd (AcquireDispatchGuard p m cfg now all_delivered db)) 0 0)) in
  let score := HealthScore (Some health) nowNs now' answered db' in
  score p m = fzero /\
  forall primaries fallbacks c, cProvider c = p -> cProviderModel c = m ->
    (exists c', c' ∈ primaries /\ flt fzero (score_of score c') = true) ->
    c ∉ fst (filterByHealth (Some score) primaries fallbacks).
Proof.
  intros Hex Hos Hsec Hans Hcirc. cbv zeta. set (db' := gStore (guard_run _ _ _ _)).
  assert (is_Some (db' !! limitedKey p m "conc")) as Hflag.
  { apply (flag_run p m 15); [lia|done|lia|]. cbn [gStore]. unfold flagged. rewrite acquire_lookup by auto using limited_conc_rpm with keys.
    apply acquire_exceeds in Hex as [_ Hcap]. cbn [all_delivered fConc fConcFlag send]. rewrite always_script.
    destruct (Z.ltb_spec 0 (Concurrency cfg)); [|lia]. destruct (Z.ltb_spec (Concurrency cfg) (value (concKey p m) db + 1)); [|lia].
    cbn [andb set_flag snd]. rewrite lookup_insert_eq. by exists (mkCounter 1 (Some 15)), 15. }
  set (score := HealthScore (Some health) nowNs now' answered db').
  assert (score p m = fzero) as Hzero.
  { unfold score, HealthScore. destruct (CircuitState nowNs health p m); [|done|done].
    by rewrite Hans, (bool_decide_true (is_Some (db' !! limitedKey p m "conc"))). }
  split; [done|]. intros primaries fallbacks c Hp Hm (c' & Hc' & Hpos). unfold filterByHealth.
  destruct primaries as [|c0 primaries]; [by apply not_elem_of_nil in Hc'|].
  set (healthy := List.filter (fun c => flt fzero (score_of score c)) (c0 :: primaries)).
  assert (c' ∈ healthy) as Hh by (apply list_elem_of_In, filter_In; split; [by apply list_elem_of_In|done]).
  assert (c ∉ healthy) as Hn.
  { intros [_ Hs]%list_elem_of_In%filter_In. unfold score_of in Hs. rewrite Hp, Hm, Hzero in Hs. done. }
  destruct healthy as [|h0 healthy'] eqn:E; [by apply not_elem_of_nil in Hh|]. exact Hn.
Qed.

(** One dispatch is in flight under a cap of one, a second one arrives, ten seconds pass. *)
Definition one_in_flight : store := snd (AcquireDispatchGuard "a" "m" (mkGuard 1 0) 1000 all_delivered ∅).
Definition overloaded : store :=
  gStore (guard_run "a" "m" [GElapse 10] (mkGuardState (snd (AcquireDispatchGuard "a" "m" (mkGuard 1 0) 1001 all_delivered one_in_flight)) 0 0)).
Definition overload_score : HealthScoreFn := HealthScore (Some NewHealthTracker) 0 1011 (fun _ => true) overloaded.

Lemma overloaded_provider_is_demoted_witness : overload_score "a" "m" = fzero /\ overload_score "b" "m" = fone.
Proof.
  split; [|vm_compute; reflexivity].
  apply (overloaded_provider_is_demoted "a" "m" (mkGuard 1 0) 1001 one_in_flight [GElapse 10] NewHealthTracker 0 1011 (fun _ => true)).
  - vm_compute. by left.
  - apply Forall_singleton. cbn. lia.
  - reflexivity.
  - reflexivity.
  - vm_compute. discriminate.
Defined.

(** ** The count of active requests *)

Inductive active_op := AIncr (f : fate) | ADecr (f : fate) | AElapse (d : Z) | AOther (k : string) (c : option counter).

(** The store, the active requests and the seconds since the first of them. *)
Record active_state := mkActive { aStore : store; aLive : Z; aAge : Z }.

Definition active_step (p : string) (s : active_state) (o : active_op) : active_state :=
  match o with
  | AIncr f => mkActive (Incr p f (aStore s)) (aLive s + 1) (if aLive s =? 0 then 0 else aAge s)
  | ADecr f => mkActive (Decr p f (aStore s)) (aLive s - 1) (aAge s)
  | AElapse d => mkActive (elapse d (aStore s)) (aLive s) (aAge s + d)
  | AOther k c => mkActive (partial_alter (fun _ => c) k (aStore s)) (aLive s) (aAge s)
  end.

Definition active_ok (p : string) (s : active_state) (o : active_op) : Prop :=
  match o with
  | AIncr f => f <> NotSent
  | ADecr f => f <> NotSent /\ 0 < aLive s
  | AElapse d => 0 <= d /\ (0 < aLive s -> aAge s + d < activeTTL)
  | AOther k _ => k <> activeKey p
  end.

Fixpoint active_run_ok (p : string) (os : list active_op) (s : active_state) : Prop :=
  match os with [] => True | o :: os => active_ok p s o /\ active_run_ok p os (active_step p s o) end.

Definition active_inv (p : string) (s : active_state) : Prop :=
  aStore s !! activeKey p = (if aLive s =? 0 then None else Some (mkCounter (aLive s) (Some (activeTTL - aAge s)))) /\
  0 <= aLive s /\ (0 < aLive s -> 0 <= aAge s < activeTTL).

Lemma active_step_inv p s o : active_ok p s o -> active_inv p s -> active_inv p (active_step p s o).
Proof.
  intros Hok (Hk & H0 & Ha). unfold active_inv. destruct o as [f|f|d|k c]; cbn [active_step aStore aLive aAge].
  - assert (Incr p f (aStore s) = snd (incrExpireActiveScript (activeKey p) activeTTL (aStore s))) as ->
      by (unfold Incr; rewrite send_snd; by destruct f).
    unfold incrExpireActiveScript, INCRBY, value. rewrite lookup_insert_eq, Hk. destruct (Z.eqb_spec (aLive s) 0) as [E|E]; cbn [from_option cValue option_bind mbind cTTL].
    + rewrite E. change (0 + 1 =? 1) with true. cbn [orb snd]. unfold EXPIRE. rewrite lookup_insert_eq, lookup_insert_eq. change (0 + 1 =? 0) with false. cbn. split_and!; [done|lia|unfold activeTTL; lia].
    + destruct (Z.eqb_spec (aLive s + 1) 1); [lia|]. rewrite (bool_decide_true (is_Some _)) by (by eexists). cbn [orb negb snd].
      rewrite lookup_insert_eq. destruct (Z.eqb_spec (aLive s + 1) 0); [lia|]. split_and!; [done|lia|intros _; apply Ha; lia].
  - destruct Hok as [Hf Hl]. assert (Decr p f (aStore s) = snd (decrScript (activeKey p) (aStore s))) as ->
      by (unfold Decr; rewrite send_snd; by destruct f).
    unfold decrScript. rewrite Hk. destruct (Z.eqb_spec (aLive s) 0); [lia|]. cbn [cValue]. destruct (Z.leb_spec (aLive s) 1).
    + cbn [snd]. rewrite lookup_delete_eq. replace (aLive s - 1) with 0 by lia. split_and!; [done|lia|lia].
    + unfold INCRBY, value. cbn [snd]. rewrite lookup_insert_eq, Hk. destruct (Z.eqb_spec (aLive s) 0); [lia|]. cbn.
      destruct (Z.eqb_spec (aLive s - 1) 0); [lia|]. split_and!; [done|lia|intros _; apply Ha; lia].
  - destruct Hok as [Hd Hl]. unfold elapse. rewrite lookup_omap, Hk. destruct (Z.eqb_spec (aLive s) 0); cbn; [split_and!; [done|lia|lia]|].
    unfold age. cbn [cTTL]. destruct (Z.leb_spec (activeTTL - aAge s) d); [lia|]. cbn [cValue]. split_and!; [by rewrite Z.sub_add_distr|lia|lia].
  - rewrite lookup_partial_alter_ne by done. done.
Qed.

(** The load signal of a provider is the number of its active requests, for as long as
    commands reach the store and a busy period ends within half an hour; it is never
    negative, and an idle provider has no key. *)
Theorem active_count_is_in_flight p os :
  active_run_ok p os (mkActive ∅ 0 0) ->
  let s := fold_left (active_step p) os (mkActive ∅ 0 0) in
  Get p (aStore s) = aLive s /\ (aLive s = 0 <-> aStore s !! activeKey p = None).
Proof.
  intros Hok. cbv zeta. assert (active_inv p (fold_left (active_step p) os (mkActive ∅ 0 0))) as (Hk & H0 & _).
  { assert (active_inv p (mkActive ∅ 0 0)) as HI by (split_and!; done || lia). revert Hok HI. generalize (mkActive ∅ 0 0).
    induction os as [|o os IH]; intros s; cbn; [done|]. intros [Ho Hos] HI. apply IH; [done|by apply active_step_inv]. }
  set (s := fold_left _ _ _) in *. unfold Get, value. rewrite Hk. destruct (Z.eqb_spec (aLive s) 0) as [->|]; cbn; [by split|].
  destruct (Z.ltb_spec (aLive s) 0); [lia|]. by split.
Qed.

Definition active_demo : list active_op := [AIncr Delivered; AElapse 900; AIncr ResponseLost; ADecr Delivered; AElapse 800].

Lemma active_count_is_in_flight_witness : Get "a" (aStore (fold_left (active_step "a") active_demo (mkActive ∅ 0 0))) = 1.
Proof.
  apply (active_count_is_in_flight "a" active_demo). cbn -[Incr Decr elapse]. unfold activeTTL. split_and!; try done; lia.
Defined.

(** ** Where the counters go wrong *)

(** A dispatch that outlives the key releases what is not there: the counter is -1 without
    a TTL, and from then on a cap of one admits two dispatches unflagged, for as long as
    acquires keep the key alive. *)
Theorem late_release_undercounts :
  let s := guard_run "a" "m" [GAcquire (mkGuard 1 0) 1000 all_delivered; GElapse 300; GRelease Delivered] no_guard in
  let two := guard_run "a" "m" [GAcquire (mkGuard 1 0) 1300 all_delivered; GAcquire (mkGuard 1 0) 1301 all_delivered] s in
  gStore s !! concKey "a" "m" = Some (mkCounter (-1) None) /\ gLive two = 2 /\
  value (concKey "a" "m") (gStore two) = 1 /\ gStore two !! limitedKey "a" "m" "conc" = None.
Proof. vm_compute. by split_and!. Qed.

(** The same after an acquire whose command was lost: its release is sent all the same. *)
Theorem failed_acquire_is_released :
  let lost := mkFates NotSent Delivered Delivered Delivered in
  gStore (guard_run "a" "m" [GAcquire (mkGuard 1 0) 1000 lost; GRelease Delivered] no_guard) !! concKey "a" "m" = Some (mkCounter (-1) None).
Proof. vm_compute. done. Qed.

(** The TTL of a busy provider's counter of active requests is not refreshed: half an hour
    after the first of them the count starts again from nothing, and the end of an old
    request then takes away a new one. *)
Theorem busy_provider_count_restarts :
  let busy := Incr "a" Delivered (elapse 1799 (Incr "a" Delivered ∅)) in
  let restarted := Incr "a" Delivered (elapse 1 busy) in
  Get "a" busy = 2 /\ Get "a" (elapse 1 busy) = 0 /\ Get "a" restarted = 1 /\ Get "a" (Decr "a" Delivered restarted) = 0.
Proof. vm_compute. by split_and!. Qed.

(** The counters of outcomes are incremented and given their TTL by separate commands:
    when the second one is lost the key stays for good. *)
Theorem lost_expire_leaks_key d :
  let k := minuteKey "guard:total:" "a" "m" 60 in
  elapse d (RecordDispatchOutcome "a" "m" false 60 (mkFates Delivered NotSent Delivered Delivered) ∅) !! k = Some (mkCounter 1 None).
Proof. cbv zeta. unfold elapse. rewrite lookup_omap. unfold RecordDispatchOutcome, incr_then_expire. cbn [fConc fConcFlag send INCRBY snd]. by rewrite lookup_insert_eq. Qed.
