(* ===== verification/Login.v ===== *)
(** * Login, authentication and ingest limits: [internal/middleware/login_limiter.go], [auth_limiter.go]
    and [internal/guardapp/ratelimit.go]

    Counters per client address and per token on the store of [RateLimit]: login
    attempts are counted before the handler runs and forgotten when it answers 200,
    authentication failures are counted when they happen and only read before, and the
    ingest limiter falls back to a window of its own when the store is unreachable. *)

From stdpp Require Import pretty.
From S2P Require Import Prelude Health Retry Router Budget RateLimit Dispatch.

(** ** Login attempts *)

Definition loginCheckAndIncrScript (k : string) (max window : Z) (db : store) : Z * store :=
  match db !! k with
  | Some c => if max <=? cValue c then (cValue c + 1, db)
              else let '(n, db) := INCRBY k 1 db in (n, if n =? 1 then EXPIRE k window db else db)
  | None => let '(n, db) := INCRBY k 1 db in (n, if n =? 1 then EXPIRE k window db else db)
  end.

Definition login_key (ip : string) : string := "login_limit:" +:+ ip.

(** [LoginRateLimit] around a handler that answers with [status]: whether the handler ran. *)
Definition LoginRateLimit (max window : Z) (ip : string) (status : Z) (f1 f2 : fate) (db : store) : bool * store :=
  if max <=? 0 then (true, db)
  else
    match send f1 (loginCheckAndIncrScript (login_key ip) max window) db with
    | (None, db) => (true, db)
    | (Some n, db) =>
        if max <? n then (false, db)
        else (true, if status =? 200 then snd (send f2 (del (login_key ip)) db) else db)
    end.

(** Attempts from one address next to everything else in the store. *)
Inductive login_op := LAttempt (status : Z) | LElapse (d : Z) | LOther (k : string) (c : option counter).

Definition login_step (max window : Z) (ip : string) (s : Z * store) (o : login_op) : Z * store :=
  let '(ran, db) := s in
  match o with
  | LAttempt status =>
      let '(ok, db) := LoginRateLimit max window ip status Delivered Delivered db in (if ok then ran + 1 else ran, db)
  | LElapse d => (ran, elapse d db)
  | LOther k c => (ran, partial_alter (fun _ => c) k db)
  end.

(** Failing attempts, other addresses and time. *)
Definition login_failing (ip : string) (o : login_op) : Prop :=
  match o with LAttempt status => status <> 200 | LElapse d => 0 <= d | LOther k _ => k <> login_key ip end.

Definition attempts (os : list login_op) : Z := fold_right (fun o n => match o with LAttempt _ => 1 + n | _ => n end) 0 os.
Definition login_time (os : list login_op) : Z := fold_right (fun o n => match o with LElapse d => d + n | _ => n end) 0 os.

Lemma login_time_nonneg ip os : Forall (login_failing ip) os -> 0 <= login_time os /\ 0 <= attempts os.
Proof. unfold login_time, attempts. induction 1 as [|o os Ho Hos IH]; cbn; [lia|]. destruct o; cbn in Ho; lia. Qed.

(** The counter after [n] attempts, [left] seconds before the end of the window. *)
Definition login_count (ip : string) (max left n : Z) (db : store) : Prop :=
  match db !! login_key ip with
  | None => n = 0
  | Some c => cValue c = Z.min max n /\ 0 < n /\ exists t, cTTL c = Some t /\ left <= t
  end.

Lemma attempt_counts ip max window left n status db :
  0 < max -> left <= window -> status <> 200 -> 0 <= n -> login_count ip max left n db ->
  let '(ok, db') := LoginRateLimit max window ip status Delivered Delivered db in
  ok = (n <? max) /\ login_count ip max left (n + 1) db'.
Proof.
  intros Hm Hl Hs Hn HC. unfold LoginRateLimit. destruct (Z.leb_spec max 0); [lia|]. cbn [send]. unfold loginCheckAndIncrScript.
  unfold login_count in *. destruct (db !! login_key ip) as [c|] eqn:E.
  - destruct HC as (HV & Hn' & t & HT & Ht). destruct (Z.leb_spec max (cValue c)).
    + destruct (Z.ltb_spec max (cValue c + 1)); [|lia]. rewrite E. split; [lia|]. split_and!; [lia|lia|by exists t].
    + unfold INCRBY, value. rewrite E. cbn [from_option option_bind mbind]. destruct (Z.eqb_spec (cValue c + 1) 1); [lia|].
      destruct (Z.ltb_spec max (cValue c + 1)); [lia|]. destruct (Z.eqb_spec status 200); [done|]. rewrite lookup_insert_eq. cbn [cValue cTTL].
      split; [lia|]. split_and!; [lia|lia|by exists t].
  - subst n. unfold INCRBY, value, EXPIRE. rewrite E, lookup_insert_eq. cbn [from_option option_bind mbind cValue]. change (0 + 1 =? 1) with true. cbn match.
    destruct (Z.ltb_spec max (0 + 1)); [lia|]. destruct (Z.eqb_spec status 200); [done|]. rewrite lookup_insert_eq. cbn [cValue cTTL].
    split; [lia|]. split_and!; [lia|lia|by exists window].
Qed.

(** Within a window exactly the first [max] failing attempts of an address reach the login
    handler, however they are interleaved with other traffic. *)
Theorem login_attempts_exact ip max window os db :
  0 < max -> Forall (login_failing ip) os -> login_time os < window -> db !! login_key ip = None ->
  fst (fold_left (login_step max window ip) os (0, db)) = Z.min max (attempts os).
Proof.
  intros Hm Hos Ht E.
  enough (forall os n left db, Forall (login_failing ip) os -> login_time os < left <= window -> 0 <= n -> login_count ip max left n db ->
    fst (fold_left (login_step max window ip) os (Z.min max n, db)) = Z.min max (n + attempts os)) as H.
  { specialize (H os 0 window db Hos ltac:(lia) ltac:(lia)). rewrite Z.min_r, Z.add_0_l in H by lia. apply H. unfold login_count. by rewrite E. }
  clear -Hm. intros os n left db Hos. revert n left db. induction Hos as [|o os Ho Hos IH]; intros n left db Ht Hn HC; cbn [fold_left fst].
  - unfold attempts. cbn. f_equal. lia.
  - destruct (login_time_nonneg ip os Hos). destruct o as [status|d|k c]; cbn [login_failing] in Ho; cbn [login_step].
    + pose proof (attempt_counts ip max window left n status db) as HA. destruct (LoginRateLimit _ _ _ _ _ _ _) as [ok db'].
      cbn in Ht. fold (login_time os) in Ht. destruct HA as [-> HC']; try done; try lia. replace (if n <? max then Z.min max n + 1 else Z.min max n) with (Z.min max (n + 1))
          by (destruct (Z.ltb_spec n max); lia). rewrite (IH (n + 1) left db') by (done || lia). cbn. fold (attempts os). f_equal. lia.
    + cbn in Ht. fold (login_time os) in Ht. rewrite (IH n (left - d) (elapse d db)); [done|lia|done|]. unfold login_count, elapse in *. rewrite lookup_omap.
      destruct (db !! login_key ip) as [c|]; [|done]. destruct HC as (HV & Hn' & t & HT & Htl). cbn. unfold age. rewrite HT.
      destruct (Z.leb_spec t d); [lia|]. cbn. split_and!; [done|done|]. exists (t - d). split; [done|lia].
    + cbn in Ht. fold (login_time os) in Ht. rewrite (IH n left); [done|lia|done|]. unfold login_count in *. by rewrite lookup_partial_alter_ne.
Qed.

Definition three_fail : list login_op := [LAttempt 401; LElapse 60; LAttempt 401; LOther "x" None; LAttempt 401].

Lemma login_attempts_exact_witness : fst (fold_left (login_step 2 900 "ip") three_fail (0, ∅)) = 2.
Proof.
  rewrite (login_attempts_exact "ip" 2 900 three_fail ∅); [reflexivity|reflexivity| |reflexivity|reflexivity].
  unfold three_fail. rewrite !Forall_cons, Forall_nil. cbn. split_and!; done || lia.
Defined.

(** Captcha challenges are issued behind the same middleware, under the same key and
    answer 200: between two bad passwords one challenge makes the counter start again, so
    of thirty bad passwords in a window all reach the handler, twenty more than the limit. *)
Definition guess (s : Z * store) : Z * store :=
  let '(ran, db) := s in
  let '(_, db) := LoginRateLimit 30 60 "ip" 200 Delivered Delivered db in
  let '(ok, db) := LoginRateLimit 10 900 "ip" 401 Delivered Delivered db in
  (if ok then ran + 1 else ran, db).

Theorem captcha_resets_login_limit :
  fst (Nat.iter 30 guess (0, ∅)) = 30 /\
  fst (fold_left (login_step 10 900 "ip") (repeat (LAttempt 401) 30) (0, ∅)) = 10.
Proof. vm_compute. by split. Qed.

(** ** Authentication failures *)

Definition authFailKey (prefix ip : string) : string := (if String.eqb prefix "" then "auth_fail:" else prefix) +:+ ip.

(** [AuthFailureLimit]: whether the request goes on. *)
Definition AuthFailureLimit (maxFailures : Z) (prefix ip : string) (answered : bool) (db : store) : bool :=
  if maxFailures <=? 0 then true
  else match (if answered then db !! authFailKey prefix ip else None) with
       | Some c => negb (maxFailures <=? cValue c)
       | None => true
       end.

(** [authFailIncrScript] is the script of the dispatch guard. *)
Definition RecordAuthFailure (prefix ip : string) (window : Z) (f : fate) (db : store) : store :=
  snd (send f (incrExpireGuard (authFailKey prefix ip) window) db).

Definition ClearAuthFailures (prefix ip : string) (f : fate) (db : store) : store := snd (send f (del (authFailKey prefix ip)) db).

Inductive auth_op := AFail | AWait (d : Z) | AStore (k : string) (c : option counter).

Definition auth_step (ip : string) (window : Z) (db : store) (o : auth_op) : store :=
  match o with
  | AFail => RecordAuthFailure "" ip window Delivered db
  | AWait d => elapse d db
  | AStore k c => partial_alter (fun _ => c) k db
  end.

Definition auth_failing (ip : string) (o : auth_op) : Prop :=
  match o with AFail => True | AWait d => 0 <= d | AStore k _ => k <> authFailKey "" ip end.

Definition failures (os : list auth_op) : Z := fold_right (fun o n => match o with AFail => 1 + n | _ => n end) 0 os.
Definition auth_time (os : list auth_op) : Z := fold_right (fun o n => match o with AWait d => d + n | _ => n end) 0 os.

Definition fail_count (ip : string) (left n : Z) (db : store) : Prop :=
  match db !! authFailKey "" ip with
  | None => n = 0
  | Some c => cValue c = n /\ 0 < n /\ exists t, cTTL c = Some t /\ left <= t
  end.

Lemma fail_counts ip window left n db :
  left <= window -> 0 <= n -> fail_count ip left n db -> fail_count ip left (n + 1) (RecordAuthFailure "" ip window Delivered db).
Proof.
  intros Hl Hn HC. unfold RecordAuthFailure. rewrite send_snd. unfold incrExpireGuard, INCRBY, value, fail_count in *.
  destruct (db !! authFailKey "" ip) as [c|] eqn:E; cbn [from_option option_bind mbind].
  - destruct HC as (HV & Hn' & t & HT & Ht). destruct (Z.eqb_spec (cValue c + 1) 1); [lia|]. cbn [snd]. rewrite lookup_insert_eq. cbn [cValue cTTL].
    split_and!; [lia|lia|by exists t].
  - subst n. change (0 + 1 =? 1) with true. cbn [snd]. unfold EXPIRE. rewrite lookup_insert_eq, lookup_insert_eq. cbn [cValue cTTL].
    split_and!; [lia|lia|by exists window].
Qed.

(** An address is locked out exactly when it has failed [maxFailures] times within the
    window, whatever happens to other addresses. *)
Theorem auth_lockout_exact ip maxFailures window os db :
  0 < maxFailures -> Forall (auth_failing ip) os -> auth_time os < window -> db !! authFailKey "" ip = None ->
  AuthFailureLimit maxFailures "" ip true (fold_left (auth_step ip window) os db) = (failures os <? maxFailures).
Proof.
  intros Hm Hos Ht E.
  enough (forall os n left db, Forall (auth_failing ip) os -> auth_time os < left <= window -> 0 <= n -> fail_count ip left n db ->
    exists left', fail_count ip left' (n + failures os) (fold_left (auth_step ip window) os db)) as H.
  { destruct (H os 0 window db Hos ltac:(lia) ltac:(lia)) as [l HF]; [unfold fail_count; by rewrite E|]. rewrite Z.add_0_l in HF.
    unfold AuthFailureLimit, fail_count in *. destruct (Z.leb_spec maxFailures 0); [lia|].
    destruct (fold_left _ os db !! authFailKey "" ip) as [c|]; [destruct HF as (-> & _)|rewrite HF]; lia. }
  clear. intros os n left db Hos. revert n left db. induction Hos as [|o os Ho Hos IH]; intros n left db Ht Hn HC; cbn [fold_left].
  - exists left. unfold failures. cbn. by rewrite Z.add_0_r.
  - assert (0 <= auth_time os) as Hnn by (clear -Hos; unfold auth_time; induction Hos as [|o os Ho Hos IH]; cbn; [lia|]; destruct o; cbn in Ho; lia).
    destruct o as [|d|k c]; cbn [auth_failing] in Ho; cbn [auth_step]; cbn in Ht; fold (auth_time os) in Ht.
    + replace (n + failures (AFail :: os)) with (n + 1 + failures os) by (cbn; fold (failures os); lia).
      apply (IH (n + 1) left); [lia|lia|]. apply fail_counts; done || lia.
    + apply (IH n (left - d)); [lia|done|]. unfold fail_count, elapse in *. rewrite lookup_omap.
      destruct (db !! authFailKey "" ip) as [c|]; [|done]. destruct HC as (HV & Hn' & t & HT & Htl). cbn. unfold age. rewrite HT.
      destruct (Z.leb_spec t d); [lia|]. cbn. split_and!; [done|done|]. exists (t - d). split; [done|lia].
    + apply (IH n left); [lia|done|]. unfold fail_count in *. by rewrite lookup_partial_alter_ne.
Qed.

Lemma auth_lockout_exact_witness :
  AuthFailureLimit 2 "" "ip" true (fold_left (auth_step "ip" 900) [AFail; AWait 30; AFail] ∅) = false.
Proof.
  rewrite (auth_lockout_exact "ip" 2 900 [AFail; AWait 30; AFail] ∅); [reflexivity|reflexivity| |reflexivity|reflexivity].
  rewrite !Forall_cons, Forall_nil. cbn. split_and!; done || lia.
Defined.

(** ** Ingest *)

Record IngestRateLimiter := mkIngest { tokenRPM : Z; orgRPM : Z; windowStart : Z; icount : Z; degraded : bool }.

Definition ingest_key (prefix : string) (id : Z) : string := prefix +:+ ":" +:+ pretty id.

(** One level of [allowRedis]: [None] is an error. *)
Definition allow_level (prefix : string) (id rpm : Z) (f : fate) (db : store) : option bool * store :=
  if 0 <? rpm then
    let '(n, db) := send f (incrExpireScript (ingest_key prefix id) 60) db in ((fun n => n <=? rpm) <$> n, db)
  else (Some true, db).

Definition allowRedis (l : IngestRateLimiter) (tokenID orgID : Z) (f1 f2 : fate) (db : store) : option bool * store :=
  match allow_level "guard:rl:token" tokenID (tokenRPM l) f1 db with
  | (Some true, db) => allow_level "guard:rl:org" orgID (orgRPM l) f2 db
  | r => r
  end.

(** [allowFallback] at [now], in Unix seconds *)
Definition allowFallback (now : Z) (l : IngestRateLimiter) : bool * IngestRateLimiter :=
  let minute := now / 60 in
  let count := (if windowStart l =? minute then icount l else 0) + 1 in
  ((orgRPM l <=? 0) || (count <=? orgRPM l), mkIngest (tokenRPM l) (orgRPM l) minute count (degraded l)).

Definition Allow (now tokenID orgID : Z) (f1 f2 : fate) (l : IngestRateLimiter) (db : store) : bool * IngestRateLimiter * store :=
  match allowRedis l tokenID orgID f1 f2 db with
  | (Some ok, db) => (ok, mkIngest (tokenRPM l) (orgRPM l) (windowStart l) (icount l) false, db)
  | (None, db) =>
      let '(ok, l) := allowFallback now (mkIngest (tokenRPM l) (orgRPM l) (windowStart l) (icount l) true) in (ok, l, db)
  end.

(** Calls that find the store unreachable, and how many of those in one minute are allowed. *)
Fixpoint allowed_in (minute : Z) (nows : list Z) (l : IngestRateLimiter) : Z :=
  match nows with
  | [] => 0
  | now :: nows =>
      let '(ok, l) := allowFallback now l in
      (if ok && (now / 60 =? minute) then 1 else 0) + allowed_in minute nows l
  end.

(** While the store is unreachable, a process lets at most [orgRPM] calls through in a
    minute, over all tokens and organisations, as long as its clock does not run backwards. *)
Theorem degraded_ingest_is_bounded minute nows l :
  0 < orgRPM l -> StronglySorted Z.le nows -> 0 <= icount l -> Forall (fun now => windowStart l <= now / 60) nows ->
  allowed_in minute nows l <= orgRPM l.
Proof.
  intros Hr Hs Hc Hw.
  enough (allowed_in minute nows l <= (if windowStart l =? minute then Z.max 0 (orgRPM l - icount l) else orgRPM l) /\
    (minute < windowStart l -> allowed_in minute nows l = 0)) as [H _] by (destruct (windowStart l =? minute); lia).
  revert l Hr Hc Hw. induction Hs as [|now nows Hs IH Hle]; intros l Hr Hc Hw; cbn [allowed_in allowFallback].
  - destruct (windowStart l =? minute); lia.
  - inversion Hw as [|? ? Hw1 Hw2]; subst.
    set (count := (if windowStart l =? now / 60 then icount l else 0) + 1).
    set (l' := mkIngest (tokenRPM l) (orgRPM l) (now / 60) count (degraded l)).
    assert (0 <= count) as Hc' by (subst count; destruct (_ =? _); lia).
    assert (Forall (fun x => windowStart l' <= x / 60) nows) as Hw'.
    { eapply Forall_impl; [exact Hle|]. intros x Hx. cbn. apply Z.div_le_mono; lia. }
    destruct (IH l' Hr Hc' Hw') as [I1 I2]. cbn [windowStart orgRPM icount l'] in I1, I2.
    destruct (Z.leb_spec (orgRPM l) 0); [lia|]. cbn [orb].
    destruct (Z.eqb_spec (now / 60) minute) as [Em|Em]; cycle 1.
    + rewrite andb_false_r. split.
      * destruct (Z.eqb_spec (windowStart l) minute) as [Ew|]; [|lia]. rewrite I2 by lia. lia.
      * intros Hlt. rewrite I2 by lia. done.
    + rewrite andb_true_r. split; [|intros; lia]. subst count.
      destruct (Z.eqb_spec (windowStart l) (now / 60)) as [Ew|Ew].
      * destruct (Z.eqb_spec (windowStart l) minute); [|lia]. destruct (Z.leb_spec (icount l + 1) (orgRPM l)); lia.
      * destruct (Z.eqb_spec (windowStart l) minute); [lia|]. destruct (Z.leb_spec (0 + 1) (orgRPM l)); lia.
Qed.

Lemma degraded_ingest_is_bounded_witness : allowed_in 1 [60; 61; 62; 125] (mkIngest 0 2 0 0 true) <= 2.
Proof.
  apply (degraded_ingest_is_bounded 1 [60; 61; 62; 125] (mkIngest 0 2 0 0 true)); [reflexivity| |reflexivity|].
  - repeat constructor; lia.
  - rewrite !Forall_cons, Forall_nil. vm_compute. split_and!; done.
Defined.
