(* ===== verification/Idempotency.v ===== *)
(** * Idempotency keys: [internal/service/idempotency.go] with its use in the handlers, and
    [internal/guardapp/idem.go]

    A request with an idempotency key looks for a stored response, claims the key,
    executes, stores its response and releases the key; requests with the same key are
    interleaved step by step, with commands that fail and markers that expire.  The
    deduplication of ingested events is a bounded list with expiry times. *)

From stdpp Require Import list relations pretty.
From S2P Require Import Prelude Budget.

(** ** The response cache and its claims *)

Section Requests.
Context {response : Type}.

Definition MaxIdempotencyKeyLen : nat := 256.
Definition valid_key (key : string) : bool := (0 <? String.length key)%nat && (String.length key <=? MaxIdempotencyKeyLen)%nat.

Definition responseTTL : Z := 3600.
Definition idempotencyProcessingTTL : Z := 120.

Inductive idem_outcome := Replayed (r : response) | Rejected | Conflict | Completed.

(** A request: before the lookup, after a miss, executing, with an answer to store, about
    to release, ended. *)
Inductive idem_phase := Begin | Missed | Executing | Answered (r : response) | Releasing | Ended (o : idem_outcome).

(** The two Redis entries of a key with their TTLs, the requests, and the executions so far. *)
Record idem := mkIdem {
  iResp : option (response * Z);
  iProc : option Z;
  iRequests : list idem_phase;
  iRuns : Z
}.

(** [Get] *)
Definition Get (key : string) (f : fate) (s : idem) : option response :=
  if valid_key key then match f with Delivered => fst <$> iResp s | _ => None end else None.

(** [Set]; its error is not looked at *)
Definition Set_ (key : string) (r : response) (f : fate) (s : idem) : idem :=
  match valid_key key, f with
  | true, (Delivered | ResponseLost) => mkIdem (Some (r, responseTTL)) (iProc s) (iRequests s) (iRuns s)
  | _, _ => s
  end.

(** [TryAcquire]: an error lets the request through. *)
Definition TryAcquire (key : string) (f : fate) (s : idem) : bool * idem :=
  let claimed := mkIdem (iResp s) (Some idempotencyProcessingTTL) (iRequests s) (iRuns s) in
  if valid_key key then
    match f, iProc s with
    | NotSent, _ => (true, s)
    | Delivered, None => (true, claimed)
    | Delivered, Some _ => (false, s)
    | ResponseLost, None => (true, claimed)
    | ResponseLost, Some _ => (true, s)
    end
  else (true, s).

(** [Release] *)
Definition ReleaseKey (key : string) (f : fate) (s : idem) : idem :=
  match valid_key key, f with
  | true, (Delivered | ResponseLost) => mkIdem (iResp s) None (iRequests s) (iRuns s)
  | _, _ => s
  end.

(** [passes] is the answer of the current guardrails for a stored response. *)
Inductive idem_action := Lookup (f : fate) (passes : bool) | Claim (f : fate) | Answer (r : response) | FailCall | Store (f : fate) | Free (f : fate).

Definition set_phase (i : nat) (p : idem_phase) (s : idem) : idem := mkIdem (iResp s) (iProc s) (<[i := p]> (iRequests s)) (iRuns s).
Definition count_run (s : idem) : idem := mkIdem (iResp s) (iProc s) (iRequests s) (iRuns s + 1).

(** One step of a request: the handler around the cache. *)
Definition idem_act (key : string) (i : nat) (a : idem_action) (s : idem) : option idem :=
  match iRequests s !! i, a with
  | Some Begin, Lookup f passes =>
      Some (set_phase i (match Get key f s with Some r => Ended (if passes then Replayed r else Rejected) | None => Missed end) s)
  | Some Missed, Claim f =>
      let '(ok, s) := TryAcquire key f s in
      Some (if ok then count_run (set_phase i Executing s) else set_phase i (Ended Conflict) s)
  | Some Executing, Answer r => Some (set_phase i (Answered r) s)
  | Some Executing, FailCall => Some (set_phase i Releasing s)
  | Some (Answered r), Store f => Some (set_phase i Releasing (Set_ key r f s))
  | Some Releasing, Free f => Some (set_phase i (Ended Completed) (ReleaseKey key f s))
  | _, _ => None
  end.

Definition idem_age {A} (d : Z) (o : option (A * Z)) : option (A * Z) :=
  match o with Some (a, t) => if t <=? d then None else Some (a, t - d) | None => None end.

Definition idem_elapse (d : Z) (s : idem) : idem :=
  mkIdem (idem_age d (iResp s)) (snd <$> idem_age d (pair tt <$> iProc s)) (iRequests s) (iRuns s).

Inductive idem_event := ERequest | EAct (i : nat) (a : idem_action) | EWait (d : Z).

Definition idem_event_step (key : string) (s : idem) (e : idem_event) : idem :=
  match e with
  | ERequest => mkIdem (iResp s) (iProc s) (iRequests s ++ [Begin]) (iRuns s)
  | EAct i a => default s (idem_act key i a s)
  | EWait d => idem_elapse d s
  end.

Definition fresh_key : idem := mkIdem None None [] 0.

(** ** One execution at a time *)

Definition holds (p : idem_phase) : bool := match p with Executing | Answered _ | Releasing => true | _ => false end.
Definition holders (s : idem) : nat := length (List.filter holds (iRequests s)).

(** Claims are answered, and the marker does not expire while a request executes. *)
Definition idem_ok (s : idem) (e : idem_event) : Prop :=
  match e with
  | EAct _ (Claim f) => f = Delivered
  | EWait d => 0 <= d /\ (forall t, iProc s = Some t -> (0 < holders s)%nat -> d < t)
  | _ => True
  end.

Fixpoint idem_run_ok (key : string) (es : list idem_event) (s : idem) : Prop :=
  match es with [] => True | e :: es => idem_ok s e /\ idem_run_ok key es (idem_event_step key s e) end.

(** A request that executes has its marker in the store; the marker of a request whose release was lost stays. *)
Definition claimed_once (s : idem) : Prop := (holders s <= match iProc s with Some _ => 1 | None => 0 end)%nat.

Lemma claimed_step key s e : valid_key key = true -> idem_ok s e -> claimed_once s -> claimed_once (idem_event_step key s e).
Proof.
  intros Hv Hok HC. unfold claimed_once, holders in *. destruct e as [|i a|d]; cbn [idem_event_step].
  - cbn [iRequests iProc]. rewrite List.filter_app. cbn. by rewrite app_nil_r.
  - unfold idem_act. destruct (iRequests s !! i) as [p|] eqn:E; [|done].
    assert (forall p', length (List.filter holds (<[i := p']> (iRequests s))) = (length (List.filter holds (iRequests s)) + (if holds p' then 1 else 0) - (if holds p then 1 else 0))%nat) as Hlen
      by (intros p'; pose proof (filter_update_count holds (iRequests s) i p p' E); lia).
    destruct p, a; try done; cbn [default id from_option set_phase iRequests iProc].
    + rewrite Hlen. destruct (Get key f s); cbn [holds]; lia.
    + cbn in Hok. subst f. unfold TryAcquire. rewrite Hv. destruct (iProc s) eqn:Ep; cbn [default id from_option set_phase count_run iRequests iProc]; rewrite Hlen; cbn [holds].
      * rewrite Ep. lia.
      * lia.
    + rewrite Hlen. cbn. lia.
    + rewrite Hlen. cbn. lia.
    + unfold Set_. rewrite Hv. destruct f; cbn [iRequests iProc]; rewrite Hlen; cbn; lia.
    + unfold ReleaseKey. rewrite Hv. destruct f; cbn [iRequests iProc]; rewrite Hlen; cbn [holds]; destruct (iProc s); lia.
  - cbn [idem_elapse iRequests iProc]. destruct Hok as [_ Hok]. unfold holders in Hok. destruct (iProc s) as [t|]; [|done]. cbn.
    destruct (Z.leb_spec t d); [|done]. specialize (Hok t eq_refl). lia.
Qed.
End Requests.

(** C20: At most one request with a given key executes at any moment, on every interleaving of
    requests with that key: for a key of 1 to 256 bytes (longer ones are not protected,
    [long_key_executes_twice]), as long as the claims are answered (an unanswered claim lets the
    request through, [failed_claim_executes_twice]) and the two-minute marker does not
    expire while a request executes.  Lookups, stores and releases may fail.  A request that
    meets the marker ends in a conflict without executing. *)
Theorem one_execution_at_a_time {response} key es :
  valid_key key = true -> idem_run_ok (response := response) key es fresh_key ->
  let s := fold_left (idem_event_step key) es fresh_key in
  (holders s <= 1)%nat /\
  (forall i t, iRequests s !! i = Some Missed -> iProc s = Some t ->
    idem_act key i (Claim Delivered) s = Some (set_phase i (Ended Conflict) s)).
Proof.
  intros Hv Hok. cbv zeta. assert (claimed_once (fold_left (idem_event_step key) es (@fresh_key response))) as HC.
  { assert (claimed_once (@fresh_key response)) as H0 by (unfold claimed_once; cbn; lia). revert Hok H0. generalize (@fresh_key response).
    induction es as [|e es IH]; intros s; cbn; [done|]. intros [He Hes] HC. apply IH; [done|by apply claimed_step]. }
  split; [unfold claimed_once in HC; destruct (iProc _); lia|]. intros i t Hi Hp. unfold idem_act, TryAcquire. by rewrite Hi, Hv, Hp.
Qed.

Definition two_requests : list (idem_event (response := string)) :=
  [ERequest; ERequest; EAct 0 (Lookup Delivered true); EAct 1 (Lookup Delivered true); EAct 0 (Claim Delivered); EWait 90].

Lemma one_execution_at_a_time_witness :
  (holders (fold_left (idem_event_step "k") two_requests fresh_key) <= 1)%nat.
Proof.
  apply (one_execution_at_a_time "k" two_requests); [reflexivity|]. cbn. split_and!; try done. intros t [= <-] _. reflexivity.
Defined.

(** The claim comes after the lookup and does not look again: a request that missed before
    the first one stored its response claims the key after it was released and executes
    a second time, with every command answered. *)
Theorem late_claim_executes_twice :
  let es := two_requests ++ [EAct 0 (Answer "first"); EAct 0 (Store Delivered); EAct 0 (Free Delivered); EAct 1 (Claim Delivered)] in
  let s := fold_left (idem_event_step "k") es fresh_key in
  idem_run_ok "k" es fresh_key /\ fst <$> iResp s = Some "first" /\ iRequests s !! 1%nat = Some Executing /\ iRuns s = 2.
Proof. cbn. split_and!; try done. intros t [= <-] _. reflexivity. Qed.

(** A request that outlives its marker deletes the marker of the next one, so that a third
    request executes next to the second. *)
Theorem late_release_frees_other_claim :
  let es := [ERequest; ERequest; ERequest; EAct 0 (Lookup Delivered true); EAct 1 (Lookup Delivered true); EAct 2 (Lookup Delivered true);
    EAct 0 (Claim Delivered); EWait 120; EAct 1 (Claim Delivered); EAct 0 FailCall; EAct 0 (Free Delivered); EAct 2 (Claim Delivered)] in
  let s := fold_left (idem_event_step (response := string) "k") es fresh_key in
  iRequests s = [Ended Completed; Executing; Executing] /\ iRuns s = 3.
Proof. by cbn. Qed.

(** Each side condition is needed: a key of 257 bytes is not claimed at
    all, and a claim without an answer lets its request through. *)
Definition both_claim (f : fate) : list (idem_event (response := string)) :=
  [ERequest; ERequest; EAct 0 (Lookup Delivered true); EAct 1 (Lookup Delivered true); EAct 0 (Claim Delivered); EAct 1 (Claim f)].

Example long_key_executes_twice :
  holders (fold_left (idem_event_step (String.concat "" (replicate 257 "k"))) (both_claim Delivered) fresh_key) = 2%nat.
Proof. vm_compute. reflexivity. Qed.

Example failed_claim_executes_twice : holders (fold_left (idem_event_step "k") (both_claim NotSent) fresh_key) = 2%nat.
Proof. reflexivity. Qed.

(** ** Deduplication of ingested events *)

(** [idemStore]: the list from the front, with the expiry of each key; the map holds the same keys. *)
Record idemStore := mkStore { sItems : list (string * Z); sTTL : Z; sCap : Z }.

Definition newIdemStore (ttl cap : Z) : idemStore := mkStore [] ttl cap.

Definition idemKey (orgID : Z) (traceID direction : string) (seq : Z) : string :=
  pretty orgID +:+ "|" +:+ traceID +:+ "|" +:+ direction +:+ "|" +:+ pretty seq.

Definition find_item (k : string) (l : list (string * Z)) : option Z := snd <$> List.find (fun x => String.eqb k (fst x)) l.
Definition remove_item (k : string) (l : list (string * Z)) : list (string * Z) := List.filter (fun x => negb (String.eqb k (fst x))) l.

(** [Seen] of a key: whether it is new. *)
Definition Seen (k : string) (now : Z) (s : idemStore) : bool * idemStore :=
  match find_item k (sItems s) with
  | Some expiresAt =>
      if expiresAt <? now then (true, mkStore ((k, now + sTTL s) :: remove_item k (sItems s)) (sTTL s) (sCap s)) else (false, s)
  | None => (true, mkStore (take (Z.to_nat (sCap s)) ((k, now + sTTL s) :: sItems s)) (sTTL s) (sCap s))
  end.

(** The events recorded as new by a sequence of calls. *)
Fixpoint recorded (calls : list (string * Z)) (s : idemStore) : list (string * Z) :=
  match calls with
  | [] => []
  | (k, now) :: calls => let '(ok, s) := Seen k now s in (if ok then [(k, now)] else []) ++ recorded calls s
  end.

Definition seen_all (calls : list (string * Z)) (s : idemStore) : idemStore := fold_left (fun s c => snd (Seen (fst c) (snd c) s)) calls s.

Lemma find_item_Some k l e : find_item k l = Some e -> (k, e) ∈ l.
Proof.
  unfold find_item. destruct (List.find _ l) as [[k' e']|] eqn:E; [|done]. intros [= <-]. apply find_some in E as [Hin Hk].
  apply String.eqb_eq in Hk. cbn in *. subst. by apply list_elem_of_In.
Qed.

Lemma find_item_None k l e : find_item k l = None -> (k, e) ∉ l.
Proof.
  unfold find_item. destruct (List.find _ l) eqn:E; [done|]. intros _ Hin%list_elem_of_In. pose proof (find_none _ _ E _ Hin) as H. cbn in H.
  by rewrite String.eqb_refl in H.
Qed.

Lemma seen_items k now s x :
  x ∈ sItems (snd (Seen k now s)) -> x ∈ sItems s \/ (fst (Seen k now s) = true /\ x = (k, now + sTTL s)).
Proof.
  unfold Seen. destruct (find_item k (sItems s)) as [e|] eqn:E.
  - destruct (e <? now); cbn; [|by left]. intros [->|Hx]%elem_of_cons; [by right|left].
    apply list_elem_of_In, filter_In in Hx as [Hx _]. by apply list_elem_of_In.
  - cbn. intros (j & Hx & _)%elem_of_take. apply list_elem_of_lookup_2 in Hx. apply elem_of_cons in Hx as [->|Hx]; [by right|by left].
Qed.

Lemma seen_ttl k now s : sTTL (snd (Seen k now s)) = sTTL s /\ sCap (snd (Seen k now s)) = sCap s.
Proof. unfold Seen. destruct (find_item k (sItems s)); [destruct (_ <? _)|]; done. Qed.

(** An event is dropped as a duplicate only if the same event was recorded before and at most
    the TTL ago. *)
Theorem dropped_event_is_duplicate ttl cap calls k now :
  fst (Seen k now (seen_all calls (newIdemStore ttl cap))) = false ->
  exists t, (k, t) ∈ recorded calls (newIdemStore ttl cap) /\ now <= t + ttl.
Proof.
  assert (forall calls s (log : list (string * Z)), (forall x, x ∈ sItems s -> exists t, (fst x, t) ∈ log /\ snd x = t + sTTL s) ->
    forall x, x ∈ sItems (seen_all calls s) -> exists t, (fst x, t) ∈ log ++ recorded calls s /\ snd x = t + sTTL s) as Hlog.
  { clear. induction calls as [|[k now] calls IH]; intros s log Hs x; cbn [seen_all fold_left recorded]; [by rewrite app_nil_r; apply Hs|].
    cbn [fst snd]. pose proof (seen_items k now s) as Hi. pose proof (seen_ttl k now s) as [Ht _]. destruct (Seen k now s) as [ok s'] eqn:E. cbn [snd fst] in *.
    intros Hx. destruct (IH s' (log ++ (if ok then [(k, now)] else []))) with (x := x) as (t & H1 & H2).
    - intros y Hy. rewrite Ht. destruct (Hi y Hy) as [Hy'|[-> ->]].
      + destruct (Hs y Hy') as (t & ? & ?). exists t. split; [|done]. apply elem_of_app. by left.
      + exists now. cbn. split; [|done]. apply elem_of_app. right. by left.
    - exact Hx.
    - exists t. rewrite Ht in H2. split; [|done]. by rewrite (assoc_L (++)). }
  intros H. unfold Seen in H. destruct (find_item k _) as [e|] eqn:E; [|done]. apply find_item_Some in E.
  destruct (Hlog calls (newIdemStore ttl cap) [] ltac:(intros x Hx; by apply not_elem_of_nil in Hx) _ E) as (t & H1 & H2).
  exists t. split; [exact H1|]. cbn in H2. assert (sTTL (newIdemStore ttl cap) = ttl) as Ettl by done.
  destruct (Z.ltb_spec e now); [done|]. lia.
Qed.

Lemma dropped_event_is_duplicate_witness :
  exists t, ("e1", t) ∈ recorded [("e1", 0); ("e2", 1)] (newIdemStore 60 10) /\ 30 <= t + 60.
Proof. apply (dropped_event_is_duplicate 60 10 [("e1", 0); ("e2", 1)] "e1" 30). vm_compute. reflexivity. Defined.

(** The first entry of a key, with at most [n] entries before it. *)
Definition at_most (k : string) (e : Z) (n : nat) (l : list (string * Z)) : Prop :=
  exists pre post, l = pre ++ (k, e) :: post /\ Forall (fun x => fst x <> k) pre /\ (length pre <= n)%nat.

Lemma at_most_find k e n l : at_most k e n l -> find_item k l = Some e.
Proof.
  intros (pre & post & -> & Hpre & _). unfold find_item. induction Hpre as [|x pre Hx Hpre IH]; cbn.
  - by rewrite String.eqb_refl.
  - destruct (String.eqb_spec k (fst x)); [congruence|done].
Qed.

Lemma remove_item_app k l1 l2 : remove_item k (l1 ++ l2) = remove_item k l1 ++ remove_item k l2.
Proof. apply List.filter_app. Qed.

Lemma seen_keeps k e n k2 now s :
  k2 <> k -> at_most k e n (sItems s) ->
  ((if fst (Seen k2 now s) then 1 else 0) + n < Z.to_nat (sCap s))%nat ->
  at_most k e ((if fst (Seen k2 now s) then 1 else 0) + n) (sItems (snd (Seen k2 now s))).
Proof.
  intros Hne (pre & post & El & Hpre & Hn). unfold Seen. destruct (find_item k2 (sItems s)) as [e2|].
  - destruct (e2 <? now); cbn [fst snd sItems]; [|by exists pre, post]. intros Hc. rewrite El, remove_item_app.
    exists ((k2, now + sTTL s) :: remove_item k2 pre), (remove_item k2 post). split_and!.
    + cbn. destruct (String.eqb_spec k2 k); done.
    + constructor; [done|]. rewrite Forall_forall in Hpre |- *. intros x Hx. apply list_elem_of_In, filter_In in Hx as [Hx _]. apply Hpre. by apply list_elem_of_In.
    + cbn. pose proof (List.filter_length_le (fun x => negb (String.eqb k2 (fst x))) pre). unfold remove_item. lia.
  - cbn [fst snd sItems]. intros Hc. rewrite El. exists ((k2, now + sTTL s) :: pre), (take (Z.to_nat (sCap s) - S (S (length pre))) post).
    split_and!; [|by constructor|cbn; lia]. destruct (Z.to_nat (sCap s)) as [|c] eqn:Ec; [lia|]. cbn [take app]. f_equal.
    rewrite take_app. replace (take c pre) with pre by (by rewrite take_ge by lia). f_equal.
    destruct (c - length pre)%nat as [|c'] eqn:Ec'; [lia|]. cbn [take]. do 2 f_equal. lia.
Qed.

(** A repeated event is dropped: within the TTL of its record, as long as fewer than [cap]
    other events have been recorded since. *)
Theorem duplicates_are_dropped k now now' calls s :
  fst (Seen k now s) = true -> Forall (fun c => fst c <> k) calls ->
  (length (recorded calls (snd (Seen k now s))) < Z.to_nat (sCap s))%nat -> now' <= now + sTTL s ->
  fst (Seen k now' (seen_all calls (snd (Seen k now s)))) = false.
Proof.
  intros Hnew Hcalls Hcap Ht. destruct (seen_ttl k now s) as [_ Ec].
  assert (at_most k (now + sTTL s) 0 (sItems (snd (Seen k now s)))) as H0.
  { unfold Seen in *. destruct (find_item k (sItems s)) as [e|]; [destruct (e <? now); [|done]|]; cbn [snd sItems].
    - by exists [], (remove_item k (sItems s)).
    - destruct (Z.to_nat (sCap s)) as [|c]; [lia|]. cbn [take]. by exists [], (take c (sItems s)). }
  rewrite <- Ec in Hcap. set (s1 := snd (Seen k now s)) in *. clearbody s1. clear Ec Hnew.
  enough (exists n, at_most k (now + sTTL s) n (sItems (seen_all calls s1))) as [n Hn].
  { apply at_most_find in Hn. unfold Seen. rewrite Hn. by destruct (Z.ltb_spec (now + sTTL s) now'); [lia|]. }
  assert (0 + length (recorded calls s1) < Z.to_nat (sCap s1))%nat as Hcap' by done. clear Hcap. revert s1 H0 Hcap'. generalize 0%nat.
  induction Hcalls as [|[k2 t2] calls Hk Hcalls IH]; intros n s1 H0 Hcap; cbn [seen_all fold_left]; [by exists n|].
  cbn [fst snd] in *. cbn [recorded] in Hcap. pose proof (seen_keeps k _ n k2 t2 s1 Hk H0) as H1. pose proof (seen_ttl k2 t2 s1) as [_ Ec].
  destruct (Seen k2 t2 s1) as [ok s2]. cbn [fst snd] in *. rewrite length_app in Hcap. rewrite <- Ec in Hcap.
  apply (IH _ s2 (H1 ltac:(destruct ok; cbn in *; lia))). destruct ok; cbn in *; lia.
Qed.

Lemma duplicates_are_dropped_witness :
  fst (Seen "e1" 50 (seen_all [("e2", 1); ("e2", 2); ("e3", 3)] (snd (Seen "e1" 0 (newIdemStore 60 3))))) = false.
Proof.
  apply (duplicates_are_dropped "e1" 0 50 [("e2", 1); ("e2", 2); ("e3", 3)] (newIdemStore 60 3)).
  - reflexivity.
  - rewrite !Forall_cons, Forall_nil. split_and!; done.
  - vm_compute. lia.
  - vm_compute. discriminate.
Defined.
