(* ===== verification/Video.v ===== *)
(** * Video tasks: [internal/service/video_task_service.go]

    The lifecycle of asynchronous video tasks over Redis: submission, polling with its
    status cache, the content URL, tenant isolation and the billing of a completed task
    behind a [SETNX] marker.  Polls of all tenants are interleaved command by command, with
    commands that fail or lose their answer and entries that expire.  Amounts are integers.

    Task entries live six hours and markers a day, so a marker expires when its task has
    long been gone and no poll of it (well under eighteen hours) is under way. *)

From stdpp Require Import list gmap relations.
From S2P Require Import Prelude Budget.

Record VideoTaskState := mkVideoState {
  vUpstreamTaskID : string;
  vProviderName : string;
  vAPIKey : string;
  vModel : string;
  vOrgID : Z;
  vAPIKeyID : Z;
  vTeamID : Z;
  vCurrency : string;
  vPriceMultiplier : Z;
  vInputPrice : Z;
  vBudgetScopes : list budget_scope;
  vCreatedAt : Z
}.

Record VideoTask := mkVideoTask { vtStatus : string; vtVideoURL : string; vtUsageCost : option Z }.

Inductive video_err := ErrTaskNotFound | ErrTaskNotReady | ErrTaskExpired | ErrVideoFailed.

Inductive video_result := RTask (t : VideoTask) (st : VideoTaskState) | RURL (u : string) | RErr (e : video_err).

(** Where a poll is: the fast path of [GetContentURL], the commands of [GetTask], of
    [ensureBilled] and of [cacheStatus], the end.  [cached] polls skip the cache write. *)
Inductive poll_phase :=
  | PCached
  | PCheckOwner (t : VideoTask)
  | PState
  | PStatus (st : VideoTaskState)
  | PQuery (st : VideoTaskState)
  | PMark (st : VideoTaskState) (t : VideoTask) (cached : bool)
  | PLog (st : VideoTaskState) (t : VideoTask) (cached : bool)
  | PReport (st : VideoTaskState) (t : VideoTask) (cached : bool) (scopes : list budget_scope)
  | PWrite (st : VideoTaskState) (t : VideoTask)
  | PEnd (r : video_result).

Record poll := mkPoll { pTask : string; pOrg : Z; pWantURL : bool; pPhase : poll_phase }.

(** The fields of the [UsageEntry] that [ensureBilled] fills. *)
Record video_usage := mkVideoUsage {
  uModelUsed : string;
  uOrgID : Z;
  uAPIKeyID : Z;
  uTeamID : Z;
  uCurrency : string;
  uPriceMultiplier : Z;
  uPrecomputedCost : Z
}.

(** Redis, what has been logged and reported, every submission so far, and the polls. *)
Record video := mkVideo {
  vTasks : gmap string VideoTaskState;
  vStatuses : gmap string VideoTask;
  vBilled : gset string;
  vLedger : list (string * video_usage);
  vReports : list (string * budget_scope * Z);
  vSubmitted : gmap string VideoTaskState;
  vPolls : list poll
}.

(** What the world answers in a step: the fate of the command, whether the API key can be
    decrypted, the provider, and whether the usage row is stored. *)
Inductive upstream := NoProvider | NotVideo | UpstreamError | UpstreamTask (t : VideoTask).
Record world := mkWorld { wFate : fate; wDecrypts : bool; wUpstream : upstream; wLogged : bool }.

Definition set_billed (id : string) (s : video) : video :=
  mkVideo (vTasks s) (vStatuses s) ({[id]} ∪ vBilled s) (vLedger s) (vReports s) (vSubmitted s) (vPolls s).
Definition add_row (id : string) (u : video_usage) (s : video) : video :=
  mkVideo (vTasks s) (vStatuses s) (vBilled s) (vLedger s ++ [(id, u)]) (vReports s) (vSubmitted s) (vPolls s).
Definition add_report (id : string) (sc : budget_scope) (cost : Z) (s : video) : video :=
  mkVideo (vTasks s) (vStatuses s) (vBilled s) (vLedger s) (vReports s ++ [(id, sc, cost)]) (vSubmitted s) (vPolls s).
Definition set_status (id : string) (t : VideoTask) (s : video) : video :=
  mkVideo (vTasks s) (<[id := t]> (vStatuses s)) (vBilled s) (vLedger s) (vReports s) (vSubmitted s) (vPolls s).

(** [getStoredState] *)
Definition getStoredState (id : string) (w : world) (s : video) : video_err + VideoTaskState :=
  match wFate w with
  | Delivered => match vTasks s !! id with
                 | Some st => if wDecrypts w then inr st else inl ErrTaskNotFound
                 | None => inl ErrTaskNotFound
                 end
  | _ => inl ErrVideoFailed
  end.

Definition completed (t : VideoTask) : bool := String.eqb (vtStatus t) "completed".

(** The end of [GetTask], and of [GetContentURL] after it. *)
Definition finish_poll (p : poll) (t : VideoTask) (st : VideoTaskState) : poll_phase :=
  PEnd (if pWantURL p then
          if negb (completed t) then RErr ErrTaskNotReady
          else if String.eqb (vtVideoURL t) "" then RErr ErrTaskExpired else RURL (vtVideoURL t)
        else RTask t st).

Definition after_bill (p : poll) (t : VideoTask) (st : VideoTaskState) (cached : bool) : poll_phase :=
  if cached then finish_poll p t st else PWrite st t.

(** [ensureBilled] bills completed tasks only. *)
Definition bill_phase (p : poll) (t : VideoTask) (st : VideoTaskState) (cached : bool) : poll_phase :=
  if completed t then PMark st t cached else after_bill p t st cached.

Definition video_cost (st : VideoTaskState) (t : VideoTask) : Z :=
  match vtUsageCost t with Some c => if 0 <? c then c else vInputPrice st | None => vInputPrice st end.

Definition video_entry (st : VideoTaskState) (t : VideoTask) : video_usage :=
  mkVideoUsage (vModel st) (vOrgID st) (vAPIKeyID st) (vTeamID st) (vCurrency st) (vPriceMultiplier st) (video_cost st t).

(** One command of a poll. *)
Definition poll_step (p : poll) (w : world) (s : video) : poll_phase * video :=
  let id := pTask p in
  match pPhase p with
  | PCached =>
      match wFate w, vStatuses s !! id with
      | Delivered, Some t => if completed t && negb (String.eqb (vtVideoURL t) "") then (PCheckOwner t, s) else (PState, s)
      | _, _ => (PState, s)
      end
  | PCheckOwner t =>
      match getStoredState id w s with
      | inl e => (PEnd (RErr e), s)
      | inr st => if vOrgID st =? pOrg p then (PEnd (RURL (vtVideoURL t)), s) else (PEnd (RErr ErrTaskNotFound), s)
      end
  | PState =>
      match getStoredState id w s with
      | inl e => (PEnd (RErr e), s)
      | inr st => if vOrgID st =? pOrg p then (PStatus st, s) else (PEnd (RErr ErrTaskNotFound), s)
      end
  | PStatus st =>
      match wFate w, vStatuses s !! id with
      | Delivered, Some t => (bill_phase p t st true, s)
      | _, _ => (PQuery st, s)
      end
  | PQuery st =>
      match wUpstream w with
      | NoProvider => (PEnd (RErr ErrTaskNotFound), s)
      | NotVideo | UpstreamError => (PEnd (RErr ErrVideoFailed), s)
      | UpstreamTask t => (bill_phase p t st false, s)
      end
  | PMark st t cached =>
      match wFate w with
      | NotSent => (after_bill p t st cached, s)
      | ResponseLost => (after_bill p t st cached, set_billed id s)
      | Delivered => if bool_decide (id ∈ vBilled s) then (after_bill p t st cached, s) else (PLog st t cached, set_billed id s)
      end
  | PLog st t cached =>
      (PReport st t cached (List.filter (fun sc => 0 <? bsLimit sc) (vBudgetScopes st)),
       if wLogged w then add_row id (video_entry st t) s else s)
  | PReport st t cached [] => (after_bill p t st cached, s)
  | PReport st t cached (sc :: scopes) =>
      (PReport st t cached scopes,
       match wFate w with NotSent => s | _ => add_report id sc (video_cost st t) s end)
  | PWrite st t => (finish_poll p t st, match wFate w with NotSent => s | _ => set_status id t s end)
  | PEnd r => (PEnd r, s)
  end.

Definition with_polls (ps : list poll) (s : video) : video :=
  mkVideo (vTasks s) (vStatuses s) (vBilled s) (vLedger s) (vReports s) (vSubmitted s) ps.

(** [SubmitTask] for a fresh id: [enc] tells whether the API key can be encrypted.  A task
    whose answer was lost is stored all the same. *)
Definition SubmitTask (id : string) (st : VideoTaskState) (enc : bool) (hset expire : fate) (s : video) : option string * video :=
  let stored := mkVideo (<[id := st]> (vTasks s)) (vStatuses s) (vBilled s) (vLedger s) (vReports s) (<[id := st]> (vSubmitted s)) (vPolls s) in
  if enc then
    match hset, expire with
    | NotSent, _ => (None, s)
    | ResponseLost, _ => (None, stored)
    | Delivered, Delivered => (Some id, stored)
    | Delivered, _ => (None, stored)
    end
  else (None, s).

Inductive video_event :=
  | VSubmit (id : string) (st : VideoTaskState) (enc : bool) (hset expire : fate)
  | VPoll (id : string) (org : Z) (wantURL : bool)
  | VStep (i : nat) (w : world)
  | VExpireTask (id : string)
  | VExpireStatus (id : string)
  | VExpireBilled (id : string).

Definition video_step (s : video) (e : video_event) : video :=
  match e with
  | VSubmit id st enc hset expire => snd (SubmitTask id st enc hset expire s)
  | VPoll id org wantURL => with_polls (vPolls s ++ [mkPoll id org wantURL (if wantURL then PCached else PState)]) s
  | VStep i w =>
      match vPolls s !! i with
      | None => s
      | Some p => let '(ph, s') := poll_step p w s in
          with_polls (<[i := mkPoll (pTask p) (pOrg p) (pWantURL p) ph]> (vPolls s)) s'
      end
  | VExpireTask id => mkVideo (delete id (vTasks s)) (vStatuses s) (vBilled s) (vLedger s) (vReports s) (vSubmitted s) (vPolls s)
  | VExpireStatus id => mkVideo (vTasks s) (delete id (vStatuses s)) (vBilled s) (vLedger s) (vReports s) (vSubmitted s) (vPolls s)
  | VExpireBilled id => mkVideo (vTasks s) (vStatuses s) (vBilled s ∖ {[id]}) (vLedger s) (vReports s) (vSubmitted s) (vPolls s)
  end.

Definition no_video : video := mkVideo ∅ ∅ ∅ [] [] ∅ [].

(** A poll that holds the state of its task. *)
Definition underway (p : poll) : bool :=
  match pPhase p with PStatus _ | PQuery _ | PMark _ _ _ | PLog _ _ _ | PReport _ _ _ _ | PWrite _ _ => true | _ => false end.

(** No task and no poll of it is left. *)
Definition gone (id : string) (s : video) : Prop :=
  vTasks s !! id = None /\ is_Some (vSubmitted s !! id) /\ Forall (fun p => pTask p = id -> underway p = false) (vPolls s).

(** Ids are fresh, and a marker expires after its task and the last poll of it. *)
Definition video_ok (s : video) (e : video_event) : Prop :=
  match e with
  | VSubmit id _ _ _ _ => vSubmitted s !! id = None
  | VExpireBilled id => gone id s
  | _ => True
  end.

(** Runs without faults: commands are answered and usage rows are stored. *)
Definition answered (e : video_event) : Prop :=
  match e with VStep _ w => wFate w = Delivered /\ wLogged w = true | _ => True end.

Inductive video_reachable (ok : video_event -> Prop) : video -> Prop :=
  | VStart : video_reachable ok no_video
  | VNext s e : video_reachable ok s -> video_ok s e -> ok e -> video_reachable ok (video_step s e).

Definition anything (e : video_event) : Prop := True.

Definition video_run (es : list video_event) : video := fold_left video_step es no_video.

(** ** Billing *)

(** The usage rows of a task, and the polls that are about to write one. *)
Definition rows (id : string) (s : video) : nat := length (List.filter (fun r => String.eqb (fst r) id) (vLedger s)).
Definition writes (id : string) (p : poll) : bool :=
  match pPhase p with PLog _ _ _ => String.eqb (pTask p) id | _ => false end.
Definition pending (id : string) (s : video) : nat := length (List.filter (writes id) (vPolls s)).

Lemma finish_phase p t st : exists r, finish_poll p t st = PEnd r.
Proof. unfold finish_poll. eauto. Qed.

(** The rows and pending rows of a task never grow but where its marker is set. *)
Lemma poll_step_rows p w s ph s' id :
  poll_step p w s = (ph, s') ->
  let p' := mkPoll (pTask p) (pOrg p) (pWantURL p) ph in
  let before := (rows id s + if writes id p then 1 else 0)%nat in
  let after := (rows id s' + if writes id p' then 1 else 0)%nat in
  vBilled s ⊆ vBilled s' /\ (wLogged w = true -> before <= after)%nat /\
  ((after <= before)%nat \/ (after = S before /\ id = pTask p /\ underway p = true /\ id ∉ vBilled s /\ id ∈ vBilled s')).
Proof.
  destruct p as [tid org want phase]. unfold poll_step, bill_phase, after_bill, finish_poll, writes, underway, rows.
  cbn [pTask pOrg pWantURL pPhase]. intros E.
  destruct phase; repeat case_match; simplify_eq/=; rewrite ?List.filter_app, ?length_app; cbn; repeat case_match; cbn;
    (split_and!; [set_solver|lia|]); try (left; lia).
  right. match goal with H : String.eqb _ _ = true |- _ => apply String.eqb_eq in H as -> end.
  split_and!; [lia|done|done|by eapply bool_decide_eq_false|set_solver].
Qed.

Lemma poll_step_frame p w s ph s' :
  poll_step p w s = (ph, s') ->
  vTasks s' = vTasks s /\ vSubmitted s' = vSubmitted s /\ vPolls s' = vPolls s /\
  (underway (mkPoll (pTask p) (pOrg p) (pWantURL p) ph) = true -> underway p = true \/ is_Some (vTasks s !! pTask p)).
Proof.
  destruct p as [tid org want phase]. unfold poll_step, bill_phase, after_bill, finish_poll, underway, getStoredState.
  cbn [pTask pOrg pWantURL pPhase]. intros E.
  destruct phase; repeat case_match; simplify_eq/=; split_and!; eauto.
Qed.

Lemma gone_step id s e : video_ok s e -> gone id s -> gone id (video_step s e).
Proof.
  intros Hok (G1 & [st G2] & G3). unfold gone. destruct e as [id' st' enc h x|id' org want|i w|id'|id'|id']; cbn [video_step video_ok] in *.
  - unfold SubmitTask. assert (id' <> id) by congruence. destruct enc; [|by split_and!].
    destruct h, x; cbn [snd vTasks vSubmitted vPolls]; rewrite ?lookup_insert_ne by done; by split_and!.
  - cbn. split_and!; [done|done|]. apply Forall_app. split; [done|]. apply Forall_singleton. by destruct want.
  - destruct (vPolls s !! i) as [p|] eqn:Ep; [|by split_and!]. destruct (poll_step p w s) as [ph s'] eqn:E.
    apply poll_step_frame in E as (E1 & E2 & _ & E3). cbn [with_polls vTasks vSubmitted vPolls]. rewrite E1, E2. split_and!; [done|done|].
    apply Forall_insert; [done|]. intros Eid. cbn [pTask] in Eid. subst id. pose proof (Forall_lookup_1 _ _ _ _ G3 Ep eq_refl) as Hu.
    destruct (underway _) eqn:Eu; [|done]. destruct (E3 eq_refl) as [?|[? ?]]; congruence.
  - cbn. split_and!; [|done|done]. by rewrite lookup_delete_None; right.
  - by split_and!.
  - by split_and!.
Qed.

Definition billing (s : video) : Prop :=
  forall id, (rows id s + pending id s <= 1)%nat /\ (id ∉ vBilled s -> (rows id s + pending id s = 0)%nat \/ gone id s).

Lemma pending_step id s i p ph :
  vPolls s !! i = Some p ->
  let p' := mkPoll (pTask p) (pOrg p) (pWantURL p) ph in
  (length (List.filter (writes id) (<[i := p']> (vPolls s))) + (if writes id p then 1 else 0) = pending id s + (if writes id p' then 1 else 0))%nat.
Proof. intros Ep. by apply filter_update_count. Qed.

Lemma billing_step s e : video_ok s e -> billing s -> billing (video_step s e).
Proof.
  intros Hok HB id. destruct (HB id) as [H1 H2].
  assert (id ∉ vBilled s -> (rows id s + pending id s = 0)%nat \/ gone id (video_step s e)) as H2'
    by (intros Hn; destruct (H2 Hn); [by left|right; by apply gone_step]).
  destruct e as [id' st' enc h x|id' org want|i w|id'|id'|id']; cbn [video_step video_ok] in *; try exact (conj H1 H2').
  - unfold SubmitTask in *. destruct enc, h, x; exact (conj H1 H2').
  - unfold pending, rows, gone in *. cbn [with_polls vPolls vLedger vBilled] in *. rewrite List.filter_app. cbn. destruct want; cbn; rewrite app_nil_r; by split.
  - destruct (vPolls s !! i) as [p|] eqn:Ep; [|exact (conj H1 H2')]. destruct (poll_step p w s) as [ph s'] eqn:E.
    destruct (poll_step_rows _ _ _ _ _ id E) as (S1 & _ & S2). pose proof (pending_step id s i p ph Ep) as Hp. cbn zeta in *.
    set (a := if writes id p then 1%nat else 0%nat) in *. set (b := if writes id _ then 1%nat else 0%nat) in *.
    change (rows id (with_polls _ s')) with (rows id s'). unfold pending at 1 2. cbn [with_polls vPolls vBilled].
    assert (a <= pending id s)%nat by (subst a; pose proof (pending_step id s i p PState Ep) as Hq; cbn in Hq; lia).
    destruct S2 as [S2|(S2 & -> & S3 & S4 & S5)].
    + split; [lia|]. intros Hn. destruct (H2' ltac:(set_solver)) as [H0|H0]; [left; lia|by right].
    + split; [|done]. destruct (H2 S4) as [H0|(_ & _ & G)]; [lia|].
      pose proof (Forall_lookup_1 _ _ _ _ G Ep eq_refl). congruence.
  - split; [done|]. intros Hn. cbn [vBilled] in Hn. destruct (decide (id = id')) as [->|Hne]; [right; exact Hok|]. apply H2'. set_solver.
Qed.

Lemma billing_reachable ok s : video_reachable ok s -> billing s.
Proof. induction 1 as [|s e _ IH Hok _]; [|by apply billing_step]. intros id. split; [cbn; lia|by left]. Qed.

(** C31: A video task is billed at most once: whatever the interleaving of polls, the commands
    that fail or lose their answer and the entries that expire. *)
Theorem video_billed_at_most_once s id :
  video_reachable anything s -> (rows id s <= 1)%nat.
Proof. intros H. destruct (billing_reachable _ _ H id). lia. Qed.

(** ** Tenants *)

Definition owned (s : video) (p : poll) (st : VideoTaskState) : Prop :=
  vSubmitted s !! pTask p = Some st /\ vOrgID st = pOrg p.

Definition poll_owned (s : video) (p : poll) : Prop :=
  match pPhase p with
  | PStatus st | PQuery st | PMark st _ _ | PLog st _ _ | PReport st _ _ _ | PWrite st _ | PEnd (RTask _ st) => owned s p st
  | PEnd (RURL _) => exists st, owned s p st
  | _ => True
  end.

(** The row was written for the submission of its task. *)
Definition row_owned (s : video) (r : string * video_usage) : Prop :=
  exists st t, vSubmitted s !! fst r = Some st /\ snd r = video_entry st t.

Definition tenancy (s : video) : Prop :=
  vTasks s ⊆ vSubmitted s /\ Forall (poll_owned s) (vPolls s) /\ Forall (row_owned s) (vLedger s).

Lemma poll_step_tenancy p w s ph s' :
  poll_step p w s = (ph, s') -> vTasks s ⊆ vSubmitted s -> poll_owned s p -> Forall (row_owned s) (vLedger s) ->
  poll_owned s (mkPoll (pTask p) (pOrg p) (pWantURL p) ph) /\ Forall (row_owned s) (vLedger s').
Proof.
  destruct p as [tid org want phase]. unfold poll_step, bill_phase, after_bill, finish_poll, poll_owned, owned, getStoredState.
  cbn [pTask pOrg pWantURL pPhase]. intros E Hsub HP HL.
  assert (forall st, vTasks s !! tid = Some st -> vSubmitted s !! tid = Some st) as Hst by (intros st Hs; by eapply lookup_weaken).
  destruct phase; repeat case_match; simplify_eq/=; rewrite ?Z.eqb_eq in *; (split; [eauto|]);
    rewrite ?Forall_app, ?Forall_singleton; try split; try done.
  eexists _, _. split; [apply HP|done].
Qed.

Lemma owned_more s s' p : vSubmitted s ⊆ vSubmitted s' -> poll_owned s p -> poll_owned s' p.
Proof.
  unfold poll_owned, owned. intros Hs. assert (forall st, vSubmitted s !! pTask p = Some st -> vSubmitted s' !! pTask p = Some st) as W by (intros st H; by eapply lookup_weaken).
  destruct (pPhase p) as [| | | | | | | | |[]]; try naive_solver.
Qed.

Lemma row_more s s' r : vSubmitted s ⊆ vSubmitted s' -> row_owned s r -> row_owned s' r.
Proof. intros Hs (st & t & H1 & H2). exists st, t. split; [by eapply lookup_weaken|done]. Qed.

Lemma tenancy_step s e : video_ok s e -> tenancy s -> tenancy (video_step s e).
Proof.
  intros Hok (T1 & T2 & T3). destruct e as [id' st' enc h x|id' org want|i w|id'|id'|id']; cbn [video_step video_ok] in *; try exact (conj T1 (conj T2 T3)).
  - assert (tenancy (mkVideo (<[id' := st']> (vTasks s)) (vStatuses s) (vBilled s) (vLedger s) (vReports s) (<[id' := st']> (vSubmitted s)) (vPolls s))).
    { pose proof (insert_subseteq (vSubmitted s) id' st' Hok) as Hs. split_and!; cbn.
      - by apply insert_mono.
      - eapply Forall_impl; [exact T2|]. intros p. by apply owned_more.
      - eapply Forall_impl; [exact T3|]. intros r. by apply row_more. }
    unfold SubmitTask. destruct enc, h, x; done.
  - split_and!; [done| |done]. cbn. apply Forall_app. split; [done|]. apply Forall_singleton. by destruct want.
  - destruct (vPolls s !! i) as [p|] eqn:Ep; [|done]. destruct (poll_step p w s) as [ph s'] eqn:E.
    pose proof (poll_step_frame _ _ _ _ _ E) as (E1 & E2 & _ & _).
    destruct (poll_step_tenancy _ _ _ _ _ E T1 (Forall_lookup_1 _ _ _ _ T2 Ep) T3) as [P1 P2].
    split_and!; cbn; rewrite ?E1, ?E2; [done| |].
    + apply Forall_insert; [eapply Forall_impl; [exact T2|]; intros q|revert P1]; apply owned_more; cbn; by rewrite E2.
    + eapply Forall_impl; [exact P2|]. intros r. apply row_more. cbn. by rewrite E2.
  - split_and!; [|done|done]. cbn. etrans; [apply delete_subseteq|done].
Qed.

Lemma tenancy_reachable ok s : video_reachable ok s -> tenancy s.
Proof. induction 1 as [|s e _ IH Hok _]; [|by apply tenancy_step]. by split_and!. Qed.

(** A poll that sees a task or its video is one of the tenant that submitted it, and a usage
    row charges the tenant that submitted the task, at a cost of the submission or the provider. *)
Theorem video_tenant_isolation s :
  video_reachable anything s ->
  (forall p, p ∈ vPolls s -> (forall e, pPhase p <> PEnd (RErr e)) -> forall r, pPhase p = PEnd r ->
     exists st, vSubmitted s !! pTask p = Some st /\ vOrgID st = pOrg p) /\
  (forall id u, (id, u) ∈ vLedger s -> exists st t, vSubmitted s !! id = Some st /\ u = video_entry st t).
Proof.
  intros H. apply tenancy_reachable in H as (_ & T2 & T3). rewrite Forall_forall in T2. rewrite Forall_forall in T3. split.
  - intros p Hp Hne r Er. specialize (T2 p Hp). unfold poll_owned in T2. rewrite Er in T2. destruct r; [by eexists|done|by destruct (Hne e)].
  - intros id u Hu. exact (T3 _ Hu).
Qed.

(** ** Completed tasks are billed, when no command fails *)

Definition counted (id : string) (s : video) : Prop := (1 <= rows id s + pending id s)%nat.

(** The phases after the bill of a completed task. *)
Definition after_completion (p : poll) : bool :=
  match pPhase p with
  | PReport _ t _ _ | PWrite _ t | PEnd (RTask t _) => completed t
  | PCheckOwner _ | PEnd (RURL _) => true
  | _ => false
  end.

Definition billed_when_seen (s : video) : Prop :=
  (forall id, id ∈ vBilled s -> counted id s) /\
  (forall id t, vStatuses s !! id = Some t -> completed t = true -> counted id s) /\
  Forall (fun p => after_completion p = true -> counted (pTask p) s) (vPolls s).

(** What the step of a poll relies on to have the bill of its task counted. *)
Lemma poll_step_seen p w s ph s' :
  poll_step p w s = (ph, s') -> wFate w = Delivered ->
  let p' := mkPoll (pTask p) (pOrg p) (pWantURL p) ph in
  (forall id, id ∈ vBilled s' -> id ∈ vBilled s \/ id = pTask p /\ writes id p' = true) /\
  (forall id t, vStatuses s' !! id = Some t -> vStatuses s !! id = Some t \/ id = pTask p /\ (completed t = true -> after_completion p = true)) /\
  (after_completion p' = true ->
     after_completion p = true \/ pTask p ∈ vBilled s \/ writes (pTask p) p = true \/
     exists t, vStatuses s !! pTask p = Some t /\ completed t = true).
Proof.
  destruct p as [tid org want phase]. unfold poll_step, bill_phase, after_bill, finish_poll, after_completion, writes, set_billed, set_status.
  cbn [pTask pOrg pWantURL pPhase]. intros E Hw. rewrite Hw in E. pose proof (String.eqb_refl tid) as Hr.
  destruct phase; repeat case_match; simplify_eq/=; rewrite ?andb_true_iff, ?negb_false_iff, ?bool_decide_eq_true in *;
    (split_and!; [intros id; rewrite ?elem_of_union, ?elem_of_singleton; naive_solver| |try naive_solver]);
    try (intros id t'; rewrite ?lookup_insert_Some; naive_solver).
Qed.

Lemma counted_poll id s i p ph s' :
  vPolls s !! i = Some p -> writes id (mkPoll (pTask p) (pOrg p) (pWantURL p) ph) = true ->
  counted id (with_polls (<[i := mkPoll (pTask p) (pOrg p) (pWantURL p) ph]> (vPolls s)) s').
Proof.
  intros Ep Hw. unfold counted, pending. cbn [with_polls vPolls]. pose proof (pending_step id s i p ph Ep) as Hp. cbn zeta in Hp. rewrite Hw in Hp.
  pose proof (pending_step id s i p PState Ep) as Hq. cbn in Hq. lia.
Qed.

Lemma counted_step id s e : video_ok s e -> answered e -> counted id s -> counted id (video_step s e).
Proof.
  unfold counted. intros Hok Ha HC. destruct e as [id' st' enc h x|id' org want|i w|id'|id'|id']; cbn [video_step] in *; try exact HC.
  - unfold SubmitTask. by destruct enc, h, x.
  - unfold pending. cbn [with_polls vPolls]. rewrite List.filter_app, length_app. unfold pending, rows in *. cbn [with_polls vLedger]. lia.
  - destruct (vPolls s !! i) as [p|] eqn:Ep; [|done]. destruct (poll_step p w s) as [ph s'] eqn:E.
    destruct (poll_step_rows _ _ _ _ _ id E) as (_ & S & _). pose proof (pending_step id s i p ph Ep) as Hp. cbn zeta in *.
    unfold pending at 1. change (rows id (with_polls _ s')) with (rows id s'). cbn [with_polls vPolls].
    specialize (S (proj2 Ha)). lia.
Qed.

Lemma writes_counted id s i p : vPolls s !! i = Some p -> writes id p = true -> counted id s.
Proof. intros Ep Hw. unfold counted. pose proof (pending_step id s i p PState Ep) as Hq. cbn in Hq. rewrite Hw in Hq. lia. Qed.

Lemma seen_step s e : video_ok s e -> answered e -> billed_when_seen s -> billed_when_seen (video_step s e).
Proof.
  intros Hok Ha (B1 & B2 & B3). pose proof (fun id => counted_step id s e Hok Ha) as C.
  assert (Forall (fun p => after_completion p = true -> counted (pTask p) (video_step s e)) (vPolls s)) as B3'
    by (eapply Forall_impl; [exact B3|]; cbn; eauto).
  assert (forall id, id ∈ vBilled s -> counted id (video_step s e)) as B1' by eauto.
  assert (forall id t, vStatuses s !! id = Some t -> completed t = true -> counted id (video_step s e)) as B2' by eauto.
  destruct e as [id' st' enc h x|id' org want|i w|id'|id'|id']; cbn [video_step video_ok answered] in *; try by split_and!.
  - unfold SubmitTask in *. by destruct enc, h, x; split_and!.
  - split_and!; [done|done|]. cbn [with_polls vPolls]. apply Forall_app. split; [done|]. apply Forall_singleton. by destruct want.
  - destruct (vPolls s !! i) as [p|] eqn:Ep; [|by split_and!]. destruct (poll_step p w s) as [ph s'] eqn:E.
    pose proof (Forall_lookup_1 _ _ _ _ B3' Ep) as Bp. cbn beta in Bp. pose proof (fun id => counted_poll id s i p ph s' Ep) as CP.
    destruct (poll_step_seen _ _ _ _ _ E (proj1 Ha)) as (P1 & P2 & P3). cbn zeta in P1, P2, P3.
    split_and!; cbn [with_polls vBilled vStatuses vPolls].
    + intros id Hid. destruct (P1 id Hid) as [?|[-> ?]]; eauto.
    + intros id t Ht Hc. destruct (P2 id t Ht) as [?|[-> ?]]; eauto.
    + apply Forall_insert; [done|]. intros Hp. destruct (P3 Hp) as [?|[?|[Hw|(t & ? & ?)]]]; eauto.
      apply C. by eapply writes_counted.
  - split_and!; [done| |done]. cbn [vStatuses]. intros id t Ht. apply lookup_delete_Some in Ht as [_ Ht]. eauto.
  - split_and!; [|done|done]. cbn [vBilled]. intros id Hid. apply B1'. set_solver.
Qed.

(** C36: When every command is answered, a task that a client has seen completed is billed: it has
    one usage row, or one poll is about to write it. *)
Theorem completed_video_is_billed s p r :
  video_reachable answered s -> p ∈ vPolls s -> pPhase p = PEnd r ->
  match r with RTask t _ => completed t = true | RURL _ => True | RErr _ => False end ->
  (rows (pTask p) s + pending (pTask p) s = 1)%nat.
Proof.
  intros H Hp Er Hr. destruct (billing_reachable _ _ H (pTask p)) as [H1 _].
  assert (billed_when_seen s) as (_ & _ & B).
  { clear -H. induction H as [|s e _ IH Hok Ha]; [|by apply seen_step]. by split_and!. }
  rewrite Forall_forall in B. specialize (B p Hp). unfold after_completion in B. rewrite Er in B.
  assert (counted (pTask p) s) as C by (apply B; by destruct r). unfold counted in C. lia.
Qed.

(** ** Runs *)

Fixpoint video_run_ok (ok : video_event -> Prop) (es : list video_event) (s : video) : Prop :=
  match es with [] => True | e :: es => video_ok s e /\ ok e /\ video_run_ok ok es (video_step s e) end.

Lemma video_run_reachable ok es : video_run_ok ok es no_video -> video_reachable ok (video_run es).
Proof.
  unfold video_run. generalize (VStart ok). generalize no_video. induction es as [|e es IH]; intros s Hs; [done|].
  intros (H1 & H2 & H3). apply IH; [by apply VNext|done].
Qed.

Definition sample_video : VideoTaskState :=
  mkVideoState "up-1" "runway" "sk" "gen-3" 7 21 3 "USD" 1 500 [mkBudgetScope "key" "21" "monthly" 1000; mkBudgetScope "org" "7" "monthly" 0] 0.
Definition sample_done : VideoTask := mkVideoTask "completed" "https://cdn/v.mp4" (Some 420).
Definition sample_busy : VideoTask := mkVideoTask "processing" "" None.

Definition answer (u : upstream) : world := mkWorld Delivered true u true.
Definition quiet : world := answer UpstreamError.
Definition submit : video_event := VSubmit "video_1" sample_video true Delivered Delivered.

(** Two polls of one task race for its bill; the second one sees the marker. *)
Definition racing_polls : list video_event :=
  [submit; VPoll "video_1" 7 false; VPoll "video_1" 7 true; VPoll "video_1" 8 false] ++
  map (fun i => VStep i quiet) [0; 1; 1; 2; 0; 1]%nat ++
  [VStep 0 (answer (UpstreamTask sample_done)); VStep 1 (answer (UpstreamTask sample_done))] ++
  map (fun i => VStep i quiet) [0; 1; 1; 0; 0; 0; 0; 1]%nat.

Example racing_polls_end :
  map pPhase (vPolls (video_run racing_polls))
  = [PEnd (RTask sample_done sample_video); PEnd (RURL "https://cdn/v.mp4"); PEnd (RErr ErrTaskNotFound)] /\
  vLedger (video_run racing_polls) = [("video_1", mkVideoUsage "gen-3" 7 21 3 "USD" 1 420)] /\
  vReports (video_run racing_polls) = [("video_1", mkBudgetScope "key" "21" "monthly" 1000, 420)].
Proof. vm_compute. by split_and!. Qed.

Lemma video_billed_at_most_once_witness : (rows "video_1" (video_run racing_polls) <= 1)%nat.
Proof.
  apply (video_billed_at_most_once (video_run racing_polls) "video_1"). apply video_run_reachable. vm_compute. repeat split.
Defined.

Lemma video_tenant_isolation_witness :
  exists st t, vSubmitted (video_run racing_polls) !! "video_1" = Some st /\ mkVideoUsage "gen-3" 7 21 3 "USD" 1 420 = video_entry st t.
Proof.
  apply (proj2 (video_tenant_isolation (video_run racing_polls) ltac:(apply video_run_reachable; vm_compute; repeat split))).
  vm_compute. left.
Defined.

Lemma completed_video_is_billed_witness :
  (rows "video_1" (video_run racing_polls) + pending "video_1" (video_run racing_polls) = 1)%nat.
Proof.
  apply (completed_video_is_billed (video_run racing_polls) (mkPoll "video_1" 7 false (PEnd (RTask sample_done sample_video))) (RTask sample_done sample_video)).
  - apply video_run_reachable. vm_compute. repeat split.
  - vm_compute. left.
  - reflexivity.
  - reflexivity.
Defined.

(** The polls of one task, one after the other, to their ends: the first one with the given
    worlds, the second one with every command answered. *)
Definition two_polls (ws : list world) (n : nat) : list video_event :=
  [submit; VPoll "video_1" 7 false] ++ map (VStep 0) ws ++ [VPoll "video_1" 7 false] ++ repeat (VStep 1 (answer (UpstreamTask sample_done))) n.

(** A [SETNX] whose answer is lost (a client that disconnects cancels it) sets the marker
    without a bill, and every later poll takes the task for billed. *)
Theorem lost_marker_answer_never_bills :
  let s := video_run (two_polls ([quiet; quiet; answer (UpstreamTask sample_done); mkWorld ResponseLost true UpstreamError true; quiet]) 3) in
  map pPhase (vPolls s) = [PEnd (RTask sample_done sample_video); PEnd (RTask sample_done sample_video)] /\ rows "video_1" s = 0%nat /\ vReports s = [].
Proof. vm_compute. by split_and!. Qed.

(** A usage row that cannot be stored is not written again: the marker was set before it. *)
Theorem failed_log_never_bills :
  let s := video_run (two_polls ([quiet; quiet; answer (UpstreamTask sample_done); quiet; mkWorld Delivered true UpstreamError false; quiet; quiet; quiet]) 3) in
  map pPhase (vPolls s) = [PEnd (RTask sample_done sample_video); PEnd (RTask sample_done sample_video)] /\ rows "video_1" s = 0%nat.
Proof. vm_compute. by split_and!. Qed.

(** A status that is not final is cached like a final one: until it expires, polls of a task
    the provider has completed answer from the cache. *)
Theorem stale_status_hides_completion :
  let s := video_run (two_polls [quiet; quiet; answer (UpstreamTask sample_busy); quiet] 3) in
  map pPhase (vPolls s) = [PEnd (RTask sample_busy sample_video); PEnd (RTask sample_busy sample_video)] /\ rows "video_1" s = 0%nat.
Proof. vm_compute. by split_and!. Qed.
