(* ===== verification/Captcha.v ===== *)
(** * Captcha gate: [internal/captcha] and its use in [internal/admin/auth.go]

    Slider challenges in their store, the judgement of a drag on IEEE 754 numbers (without
    fused multiplication), and the signed cookie that waives the captcha for a known device.
    The MAC and the base64 coding are parameters.  [None] stands for a panic. *)

From Stdlib Require Import SpecFloat DecimalString DecimalZ.
From stdpp Require Import list gmap.
From S2P Require Import Prelude Budget Netip.

(** ** Numbers *)

Abbreviation F := spec_float.
Definition Fadd : F -> F -> F := SFadd 53 1024.
Definition Fsub : F -> F -> F := SFsub 53 1024.
Definition Fmul : F -> F -> F := SFmul 53 1024.
Definition Fdiv : F -> F -> F := SFdiv 53 1024.
Definition Fsqrt : F -> F := SFsqrt 53 1024.
Definition Fabs : F -> F := SFabs.
Definition Fint (z : Z) : F := binary_normalize 53 1024 z 0 false.
Definition F0 : F := S754_zero false.

(** ** The drag *)

Record Point := mkPoint { ptX : F; ptY : F; TMs : Z }.

Record Verdict := mkVerdict { Pass : bool; Score : Z; Reasons : list string }.

Definition yJitterThreshold : F := S754_finite false 4503599627370496 (-53).
Definition velocityCVThreshold : F := S754_finite false 5404319552844595 (-55).
Definition maxReversals : Z := 3.

Definition sum (l : list F) : F := fold_left Fadd l F0.
Definition squares (mean : F) (l : list F) : F := fold_left (fun sq x => let d := Fsub x mean in Fadd sq (Fmul d d)) l F0.
Definition count (l : list F) : F := Fint (Z.of_nat (length l)).

Definition yStdDev (points : list Point) : F :=
  match points with
  | [] => F0
  | _ => let ys := map ptY points in
         let mean := Fdiv (sum ys) (count ys) in
         Fsqrt (Fdiv (squares mean ys) (count ys))
  end.

(** The speeds of the segments that take time. *)
Fixpoint speeds (prev : Point) (points : list Point) : list F :=
  match points with
  | [] => []
  | p :: points =>
      let dt := wrap64 (TMs p - TMs prev) in
      if dt <=? 0 then speeds p points else Fdiv (Fsub (ptX p) (ptX prev)) (Fint dt) :: speeds p points
  end.

Definition speedVariation (points : list Point) : F :=
  let sp := match points with [] => [] | p :: points => speeds p points end in
  if (length sp <? 2)%nat then Fint (-1)
  else
    let mean := Fdiv (sum sp) (count sp) in
    if SFeqb mean F0 then Fint (-1)
    else Fdiv (Fsqrt (Fdiv (squares mean sp) (count sp))) mean.

Definition direction (a b : Point) : Z :=
  let dx := Fsub (ptX b) (ptX a) in if SFltb F0 dx then 1 else if SFltb dx F0 then -1 else 0.

(** The loop of [reversals], from the point [prev] with the last direction. *)
Fixpoint reversals_from (prev : Point) (prevSign n : Z) (points : list Point) : Z :=
  match points with
  | [] => n
  | p :: points =>
      let sign := direction prev p in
      let n := if negb (sign =? 0) && negb (prevSign =? 0) && negb (sign =? prevSign) then n + 1 else n in
      reversals_from p (if sign =? 0 then prevSign else sign) n points
  end.

Definition reversals (points : list Point) : Z := match points with [] => 0 | p :: points => reversals_from p 0 0 points end.

Definition fails (why : string) : option Verdict := Some (mkVerdict false 1 [why]).

Definition ScoreSliderTrajectory (points : list Point) (targetX tolerancePx : F) (minPoints : Z) : option Verdict :=
  if Z.of_nat (length points) <? minPoints then fails "too_few_samples"
  else match head points, last points with
  | Some first, Some final =>
      let duration := wrap64 (TMs final - TMs first) in
      if duration <? 600 then fails "duration_too_short"
      else if 5000 <? duration then fails "duration_too_long"
      else if SFltb (yStdDev points) yJitterThreshold then fails "no_y_jitter"
      else let cv := speedVariation points in
           if SFleb F0 cv && SFltb cv velocityCVThreshold then fails "constant_velocity"
      else if maxReversals <? reversals points then fails "too_many_reversals"
      else if SFltb tolerancePx (Fabs (Fsub (ptX final) targetX)) then fails "miss_target"
      else Some (mkVerdict true 1 [])
  | _, _ => None
  end.

(** ** Challenges *)

Record StoredChallenge := mkChallenge { GapX : F; chIP : string; Scene : string }.
Record SliderConfig := mkSlider { BGWidth : Z; BGHeight : Z; PieceSize : Z; TolerancePx : F; MinPoints : Z; slTTL : Z }.

Abbreviation store := (gmap string StoredChallenge).

(** [Load]: [inl tt] is an error of the store. *)
Definition Load (id : string) (f : fate) (s : store) : unit + option StoredChallenge :=
  match f with Delivered => inr (s !! id) | _ => inl tt end.

Definition Delete (id : string) (f : fate) (s : store) : store := match f with NotSent => s | _ => delete id s end.

Definition Save (id : string) (c : StoredChallenge) (f : fate) (s : store) : bool * store :=
  match f with Delivered => (true, <[id := c]> s) | NotSent => (false, s) | ResponseLost => (false, <[id := c]> s) end.

(** [randInt] for the random value [v]: 56 bits *)
Definition randInt (lo hi v : Z) : Z :=
  let '(lo, hi) := if hi <? lo then (hi, lo) else (lo, hi) in lo + v mod (hi - lo + 1).

(** [Issue]: the challenge of id [id] for the random values [vx] and [vy]. *)
Definition Issue (cfg : SliderConfig) (id ip scene : string) (vx vy : Z) (f : fate) (s : store) : bool * store :=
  let gapX := randInt (PieceSize cfg + 20) (BGWidth cfg - PieceSize cfg - 20) vx in
  Save id (mkChallenge (Fint gapX) ip scene) f s.

(** [Verify] after the load: the challenge is deleted, then judged. *)
Definition verify_judge (cfg : SliderConfig) (ip : string) (points : list Point) (loaded : unit + option StoredChallenge) : option Verdict :=
  match loaded with
  | inl _ => Some (mkVerdict false 0 ["captcha_store_error"])
  | inr None => Some (mkVerdict false 0 ["captcha_expired_or_unknown"])
  | inr (Some c) =>
      if negb (String.eqb ip "") && negb (String.eqb (chIP c) "") && negb (String.eqb (chIP c) ip) then Some (mkVerdict false 0 ["ip_mismatch"])
      else match points with
           | [] => Some (mkVerdict false 0 ["no_trajectory"])
           | _ => ScoreSliderTrajectory points (GapX c) (TolerancePx cfg) (MinPoints cfg)
           end
  end.

Definition verify_finish (cfg : SliderConfig) (id ip : string) (points : list Point) (loaded : unit + option StoredChallenge) (fd : fate) (s : store)
    : option Verdict * store :=
  (verify_judge cfg ip points loaded, match loaded with inr (Some _) => Delete id fd s | _ => s end).

(** [SliderProvider.Verify] *)
Definition Verify (cfg : SliderConfig) (id ip : string) (points : list Point) (fl fd : fate) (s : store) : option Verdict * store :=
  verify_finish cfg id ip points (Load id fl s) fd s.

Record CaptchaGateConfig := mkGateConfig { Enabled : bool; TrustDays : Z; TrustIPMask : Z; RedisFailOpen : bool }.

(** [Gate.Verify] *)
Definition gate_verdict (cfg : CaptchaGateConfig) (v : Verdict) : bool :=
  if Pass v then true
  else existsb (String.eqb "captcha_store_error") (Reasons v) && RedisFailOpen cfg.

(** ** The trust cookie *)

(** [net.CIDRMask] of 32 bits, [None] for [nil] *)
Definition CIDRMask32 (ones : Z) : option (list Z) :=
  if (ones <? 0) || (32 <? ones) then None else Some (bytes_be 4 (2 ^ 32 - 2 ^ (32 - ones))).

Definition ipPrefix (ipStr : string) (maskBits : Z) : option string :=
  if maskBits <=? 0 then Some ""
  else match ParseIP (String.list_ascii_of_string ipStr) with
       | None => Some ipStr
       | Some ip =>
           match To4 ip with
           | None => Some ipStr
           | Some ip4 =>
               match CIDRMask32 maskBits with
               | None => None
               | Some mask => Some (String.string_of_list_ascii (IPString (zip_with Z.land ip4 mask)))
               end
           end
       end.

(** [%d], and [strconv.ParseInt] in base 10 with 64 bits *)
Definition decimal (z : Z) : string := NilZero.string_of_int (Z.to_int z).

Definition ParseInt (s : string) : option Z :=
  let digits := match s with String "+" s' => match s' with String "-" _ => "" | _ => s' end | _ => s end in
  match NilZero.int_of_string digits with
  | Some i => let z := Z.of_int i in if (- 2 ^ 63 <=? z) && (z <? 2 ^ 63) then Some z else None
  | None => None
  end.

(** Instants in nanoseconds since 1970; [Time.Unix] is their seconds. *)
Definition Unix (t : Z) : Z := t / Second.
Definition Hour : Z := 3600 * Second.

Section Trust.
(** HMAC-SHA256 under the derived key, and raw URL base64 *)
Context (mac : string -> string) (b64 : string -> string) (b64Decode : string -> option string).

Definition trust_payload (userID : Z) (prefix : string) (expires : Z) : string := decimal userID +:+ "|" +:+ prefix +:+ "|" +:+ decimal expires.

Definition IssueTrustCookie (cfg : CaptchaGateConfig) (now : Z) (userID : Z) (ip : string) : option string :=
  if TrustDays cfg <=? 0 then Some ""
  else match ipPrefix ip (TrustIPMask cfg) with
       | None => None
       | Some prefix =>
           let expires := Unix (now + wrap64 (wrap64 (TrustDays cfg * 24) * Hour)) in
           let payload := trust_payload userID prefix expires in Some (b64 payload +:+ "." +:+ b64 (mac payload))
       end.

(** [strings.SplitN(cookie, ".", 2)]: the text before and after the first dot *)
Fixpoint cut_dot (s : string) : option (string * string) :=
  match s with
  | EmptyString => None
  | String c s => if Ascii.eqb c "." then Some ("", s) else match cut_dot s with Some (a, b) => Some (String c a, b) | None => None end
  end.

(** The fields of a cookie with a valid signature. *)
Definition signed_payload (cookie : string) : option string :=
  match cut_dot cookie with
  | Some (a, b) =>
      match b64Decode a, b64Decode b with
      | Some payload, Some sig => if String.eqb sig (mac payload) then Some payload else None
      | _, _ => None
      end
  | None => None
  end.

(** [verifyTrustCookie]: [Some None] is a refusal. *)
Definition verifyTrustCookie (cfg : CaptchaGateConfig) (now : Z) (cookie ip : string) : option (option Z) :=
  match signed_payload cookie with
  | None => Some None
  | Some payload =>
      match split_on "|" payload with
      | [f0; f1; f2] =>
          match ParseInt f0, ParseInt f2 with
          | Some uid, Some expires =>
              if expires <? Unix now then Some None
              else if TrustIPMask cfg <=? 0 then Some (Some uid)
              else match ipPrefix ip (TrustIPMask cfg) with
                   | None => None
                   | Some prefix => Some (if String.eqb f1 prefix then Some uid else None)
                   end
          | _, _ => Some None
          end
      | _ => Some None
      end
  end.

Definition WaivedByTrust (cfg : CaptchaGateConfig) (now : Z) (cookie : string) (userID : Z) (ip : string) : option bool :=
  match verifyTrustCookie cfg now cookie ip with
  | None => None
  | Some r => Some (bool_decide (r = Some userID))
  end.

Definition HasValidTrust (cfg : CaptchaGateConfig) (now : Z) (cookie ip : string) : option bool :=
  match verifyTrustCookie cfg now cookie ip with None => None | Some r => Some (bool_decide (r <> None)) end.
End Trust.

Example cv_threshold_is_15_percent : SFeqb velocityCVThreshold (Fdiv (Fint 15) (Fint 100)) = true.
Proof. vm_compute. reflexivity. Qed.

Example masked_prefix : ipPrefix "192.168.77.5" 24 = Some "192.168.77.0" /\ ipPrefix "10.200.1.2" 12 = Some "10.192.0.0" /\ ipPrefix "::1" 24 = Some "::1".
Proof. vm_compute. done. Qed.

Example parse_ints : map ParseInt ["-12"; "+7"; ""; "+-1"; "9223372036854775808"] = [Some (-12); Some 7; None; None; None].
Proof. vm_compute. reflexivity. Qed.

(** ** The judgement *)

Fixpoint directions (prev : Point) (points : list Point) : list Z :=
  match points with [] => [] | p :: points => direction prev p :: directions p points end.

Fixpoint changes (l : list Z) : Z :=
  match l with a :: ((b :: _) as l') => (if a =? b then 0 else 1) + changes l' | _ => 0 end.

Definition moves (prev : Point) (points : list Point) : list Z := List.filter (fun d => negb (d =? 0)) (directions prev points).

Lemma reversals_from_spec prev sgn n points :
  reversals_from prev sgn n points = n + changes (if sgn =? 0 then moves prev points else sgn :: moves prev points).
Proof.
  revert prev sgn n. induction points as [|p points IH]; intros prev sgn n; cbn [reversals_from].
  - unfold moves. cbn. destruct (sgn =? 0); cbn; lia.
  - rewrite IH. unfold moves. cbn [directions List.filter]. fold (moves p points).
    destruct (Z.eqb_spec (direction prev p) 0) as [->|Hd]; cbn [negb andb]; [lia|].
    destruct (Z.eqb_spec (direction prev p) 0); [done|]. destruct (Z.eqb_spec sgn 0); cbn [negb andb]; [lia|].
    cbn [changes]. destruct (Z.eqb_spec (direction prev p) sgn), (Z.eqb_spec sgn (direction prev p)); cbn [negb]; lia.
Qed.

(** [reversals] counts the changes of direction among the segments that move. *)
Theorem reversals_count p points : reversals (p :: points) = changes (moves p points).
Proof. unfold reversals. rewrite reversals_from_spec. cbn. lia. Qed.

Lemma score_total points x tol n : points <> [] -> is_Some (ScoreSliderTrajectory points x tol n).
Proof.
  intros Hp. unfold ScoreSliderTrajectory, fails. case_match; [done|]. destruct points as [|p points]; [done|]. cbn [head].
  destruct (last (p :: points)) as [q|] eqn:E; [|by apply last_None in E]. repeat case_match; done.
Qed.

(** The verification answers, whatever is submitted. *)
Theorem verify_answers cfg id ip points fl fd s : is_Some (fst (Verify cfg id ip points fl fd s)).
Proof.
  unfold Verify, verify_finish, verify_judge. cbn [fst]. destruct (Load id fl s) as [[]|[c|]]; [done| |done].
  case_match; [done|]. destruct points; [done|]. by apply score_total.
Qed.

(** ** One pass per challenge *)

Inductive captcha_op :=
  | OIssue (id ip scene : string) (vx vy : Z) (f : fate)
  | OVerify (id ip : string) (points : list Point) (fl fd : fate)
  | OExpire (id : string).

(** The operations one after the other, with the ids of the verifications that passed. *)
Definition captcha_op_step (cfg : SliderConfig) (st : store * list string) (o : captcha_op) : store * list string :=
  let '(s, passed) := st in
  match o with
  | OIssue id ip scene vx vy f => (snd (Issue cfg id ip scene vx vy f s), passed)
  | OVerify id ip points fl fd =>
      let '(v, s) := Verify cfg id ip points fl fd s in
      (s, if match v with Some v => Pass v | None => false end then passed ++ [id] else passed)
  | OExpire id => (delete id s, passed)
  end.

Definition issued (ops : list captcha_op) : list string := omap (fun o => match o with OIssue id _ _ _ _ _ => Some id | _ => None end) ops.
Definition deletes_arrive (o : captcha_op) : Prop := match o with OVerify _ _ _ _ fd => fd <> NotSent | _ => True end.

Lemma verify_pass cfg id ip points fl fd s v s' :
  Verify cfg id ip points fl fd s = (Some v, s') -> Pass v = true -> is_Some (s !! id) /\ s' = Delete id fd s.
Proof.
  unfold Verify, verify_finish, verify_judge, Load. destruct fl; [|by intros [= <- _]|by intros [= <- _]].
  destruct (s !! id) as [c|]; [|by intros [= <- _]]. intros [= _ <-] _. done.
Qed.

Lemma verify_dom cfg id ip points fl fd s v s' id' : Verify cfg id ip points fl fd s = (v, s') -> is_Some (s' !! id') -> is_Some (s !! id').
Proof.
  unfold Verify, verify_finish. intros [= _ <-]. destruct (Load id fl s) as [|[c|]]; [done| |done].
  unfold Delete. destruct fd; [|done|]; rewrite lookup_delete_is_Some; naive_solver.
Qed.

Lemma issue_dom cfg id ip scene vx vy f s id' : is_Some (snd (Issue cfg id ip scene vx vy f s) !! id') -> id' = id \/ is_Some (s !! id').
Proof. unfold Issue, Save. destruct f; cbn [snd]; rewrite ?lookup_insert_is_Some; naive_solver. Qed.

(** A challenge lets at most one verification pass, when verifications run one after the
    other, deletions reach the store and ids are fresh. *)
Theorem challenge_passes_once cfg ops :
  NoDup (issued ops) -> Forall deletes_arrive ops -> NoDup (snd (fold_left (captcha_op_step cfg) ops (∅, []))).
Proof.
  enough (forall s passed seen, NoDup (seen ++ issued ops) -> Forall deletes_arrive ops -> NoDup passed ->
    (forall id, is_Some (s !! id) -> id ∈ seen /\ id ∉ passed) -> (forall id, id ∈ passed -> id ∈ seen) ->
    NoDup (snd (fold_left (captcha_op_step cfg) ops (s, passed)))) as Hgen.
  { intros H1 H2. apply (Hgen ∅ [] []); [done|done|constructor| |set_solver]. intros id [x Hx]. by rewrite lookup_empty in Hx. }
  induction ops as [|o ops IH]; intros s passed seen Hnd Har Hp Hs Hseen; cbn [fold_left]; [done|].
  apply Forall_cons in Har as [Ho Har]. destruct o as [id ip scene vx vy f|id ip points fl fd|id]; cbn [captcha_op_step issued omap list_omap] in *; fold (issued ops) in Hnd.
  - apply (IH _ passed (seen ++ [id])); [by rewrite <- (assoc_L (++))|done|done| |set_solver].
    assert (id ∉ seen) as Hid by (apply NoDup_app in Hnd as (_ & Hd & _); intros Hin; apply (Hd id Hin); by left).
    intros id' Hi. apply issue_dom in Hi as [->|Hi]; [|set_solver]. split; [set_solver|]. intros Hin. by apply Hid, Hseen.
  - destruct (Verify cfg id ip points fl fd s) as [v s'] eqn:E.
    assert (forall id', is_Some (s' !! id') -> id' ∈ seen /\ id' ∉ passed) as Hs' by (intros id' Hi; apply Hs; by eapply verify_dom).
    destruct v as [v|]; [destruct (Pass v) eqn:Ev|]; [|by apply (IH _ passed seen)|by apply (IH _ passed seen)].
    destruct (verify_pass _ _ _ _ _ _ _ _ _ E Ev) as [Hi ->]. destruct (Hs id Hi) as [Hin Hnin].
    apply (IH _ _ seen); [done|done| | |set_solver].
    + apply NoDup_app. split_and!; [done|set_solver|apply NoDup_singleton].
    + intros id' Hi'. destruct (Hs' id' Hi') as [? ?]. split; [done|]. rewrite elem_of_app, list_elem_of_singleton. intros [?| ->]; [done|].
      unfold Delete in Hi'. destruct fd; [|done|]; rewrite lookup_delete_eq in Hi'; by destruct Hi'.
  - apply (IH _ passed seen); [done|done|done| |done]. intros id'. rewrite lookup_delete_is_Some. intros [_ Hi]. by apply Hs.
Qed.

(** ** The cookie *)

(** Neither a separator nor a plus sign is printed. *)
Lemma decimal_no c z : digit c = None -> c <> "-"%char -> string_has c (decimal z) = false.
Proof.
  intros Hc Hm. assert (forall x, is_Some (digit x) -> Ascii.eqb c x = false) as Hne.
  { intros x [n Hx]. destruct (Ascii.eqb_spec c x) as [->|]; [congruence|done]. }
  assert (forall d, string_has c (NilEmpty.string_of_uint d) = false) as Hu.
  { intros d. induction d as [|d IH|d IH|d IH|d IH|d IH|d IH|d IH|d IH|d IH|d IH]; cbn [NilEmpty.string_of_uint string_has]; rewrite ?IH; [done|..];
      rewrite orb_false_r; apply Hne; by eexists. }
  assert (forall d, string_has c (NilZero.string_of_uint d) = false) as Hz.
  { intros d. destruct d; try apply Hu. cbn. rewrite orb_false_r. apply Hne. by eexists. }
  unfold decimal, NilZero.string_of_int. destruct (Z.to_int z) as [d|d]; [apply Hz|].
  cbn [string_has]. destruct (Ascii.eqb_spec c "-"%char); [done|]. apply Hz.
Qed.

Lemma ParseInt_decimal z : in_int64 z -> ParseInt (decimal z) = Some z.
Proof.
  intros Hz. unfold ParseInt. pose proof (decimal_no "+" z eq_refl ltac:(done)) as Hp.
  assert (match decimal z with String "+" s' => match s' with String "-" _ => "" | _ => s' end | _ => decimal z end = decimal z) as ->.
  { destruct (decimal z) as [|c s]; [done|]. cbn [string_has] in Hp. apply orb_false_iff in Hp as [Hc _].
    apply Ascii.eqb_neq in Hc. destruct c as [[] [] [] [] [] [] [] []]; done. }
  unfold decimal. rewrite NilZero.isi.
  - rewrite DecimalZ.of_to. unfold in_int64 in Hz. destruct (Z.leb_spec (- 2 ^ 63) z), (Z.ltb_spec z (2 ^ 63)); lia || done.
  - intros E. pose proof (DecimalZ.of_to z) as H. rewrite E in H. cbn in H. by subst z.
  - intros E. pose proof (DecimalZ.of_to z) as H. rewrite E in H. cbn in H. by subst z.
Qed.

Lemma payload_fields uid prefix expires :
  string_has "|" prefix = false -> split_on "|" (trust_payload uid prefix expires) = [decimal uid; prefix; decimal expires].
Proof.
  intros Hp. unfold trust_payload. 
  change (split_on "|" (decimal uid +:+ String "|" (prefix +:+ String "|" (decimal expires))) = [decimal uid; prefix; decimal expires]).
  rewrite !split_on_app, (split_on_none _ prefix Hp), !split_on_none by (by apply decimal_no). done.
Qed.

Lemma cut_dot_app a b : string_has "." a = false -> cut_dot (a +:+ "." +:+ b) = Some (a, b).
Proof.
  induction a as [|c a IH]; [done|]. cbn [string_has]. rewrite orb_false_iff. intros [Hc Ha].
  change (cut_dot (String c (a +:+ "." +:+ b)) = Some (String c a, b)). cbn [cut_dot]. by rewrite Ascii.eqb_sym, Hc, IH.
Qed.

Section TrustSpec.
Context (mac : string -> string) (b64 : string -> string) (b64Decode : string -> option string).
Context (b64_roundtrip : forall s, b64Decode (b64 s) = Some s) (b64_no_dot : forall s, string_has "." (b64 s) = false).

Notation issue_cookie := (IssueTrustCookie mac b64).
Notation waived := (WaivedByTrust mac b64Decode).

Lemma signed_issued payload : signed_payload mac b64Decode (b64 payload +:+ "." +:+ b64 (mac payload)) = Some payload.
Proof. unfold signed_payload. rewrite cut_dot_app by done. rewrite !b64_roundtrip. by rewrite String.eqb_refl. Qed.

(** Up to 106751 days, the trust period fits the nanoseconds of a [time.Duration]. *)
Lemma expires_after now days : 0 < days <= 106751 -> Unix (now + wrap64 (wrap64 (days * 24) * Hour)) = Unix now + days * 86400.
Proof.
  intros Hd. unfold Unix, Hour, Second, Millisecond. rewrite !(wrap64_id (_ * _)) by (rewrite ?wrap64_id; unfold in_int64; lia).
  replace (now + days * 24 * (3600 * (1000 * 1000000))) with (now + days * 86400 * (1000 * 1000000)) by ring. by rewrite Z.div_add by done.
Qed.

(** C37: For a trust period of 1 to 106751 days, a cookie waives the captcha for exactly its
    user, from addresses of its prefix, until the period is over; the settings may change in
    between.  A longer period, which the configuration file accepts, overflows
    ([long_trust_is_born_expired]); the expiry in seconds fits 64 bits, and the prefix has
    no bar (an unparseable address is bound as it is). *)
Theorem trust_cookie_exact cfg cfg' now now' uid uid' ip ip' cookie prefix prefix' :
  in_int64 uid -> in_int64 (Unix now + TrustDays cfg * 86400) -> 0 < TrustDays cfg <= 106751 ->
  ipPrefix ip (TrustIPMask cfg) = Some prefix -> ipPrefix ip' (TrustIPMask cfg') = Some prefix' -> string_has "|" prefix = false ->
  issue_cookie cfg now uid ip = Some cookie ->
  waived cfg' now' cookie uid' ip'
  = Some (bool_decide (uid' = uid /\ Unix now' <= Unix now + TrustDays cfg * 86400 /\ (TrustIPMask cfg' <= 0 \/ prefix' = prefix))).
Proof.
  intros Hu He Hd Hp Hp' Hbar. unfold IssueTrustCookie. destruct (Z.leb_spec (TrustDays cfg) 0); [lia|]. rewrite Hp, expires_after by done. intros [= <-].
  unfold WaivedByTrust, verifyTrustCookie. rewrite signed_issued, payload_fields, !ParseInt_decimal by done.
  destruct (Z.ltb_spec (Unix now + TrustDays cfg * 86400) (Unix now')).
  { f_equal. apply bool_decide_ext. split; [done|lia]. }
  destruct (Z.leb_spec (TrustIPMask cfg') 0).
  { f_equal. apply bool_decide_ext. split; [intros [= ->]; by split_and!; [| |left]|intros (-> & _); done]. }
  rewrite Hp'. f_equal. apply bool_decide_ext. destruct (String.eqb_spec prefix prefix') as [->|Hne].
  - split; [intros [= ->]; by split_and!; [| |right]|intros (-> & _); done].
  - split; [done|]. intros (_ & _ & [?|?]); [lia|congruence].
Qed.

(** Nobody but the gate makes cookies: when the signatures that occur in cookies are of
    payloads the gate has signed, a waived login belongs to a cookie issued to that user that
    has not expired. *)
Theorem trust_cookie_sound (log : list (Z * string * Z)) cfg now cookie uid ip :
  (forall payload, signed_payload mac b64Decode cookie = Some payload ->
     exists u prefix e, (u, prefix, e) ∈ log /\ payload = trust_payload u prefix e) ->
  (forall u prefix e, (u, prefix, e) ∈ log -> in_int64 u /\ in_int64 e /\ string_has "|" prefix = false) ->
  waived cfg now cookie uid ip = Some true ->
  exists prefix e, (uid, prefix, e) ∈ log /\ Unix now <= e /\ (0 < TrustIPMask cfg -> ipPrefix ip (TrustIPMask cfg) = Some prefix).
Proof.
  intros Hsigned Hlog. unfold WaivedByTrust, verifyTrustCookie. destruct (signed_payload mac b64Decode cookie) as [payload|]; [|done].
  destruct (Hsigned payload eq_refl) as (u & prefix & e & Hin & ->). destruct (Hlog u prefix e Hin) as (Hu & He & Hp).
  rewrite payload_fields, !ParseInt_decimal by done. destruct (Z.ltb_spec e (Unix now)); [done|].
  destruct (Z.leb_spec (TrustIPMask cfg) 0).
  { intros [= Hb]. apply bool_decide_eq_true in Hb as [= ->]. exists prefix, e. split_and!; [done|done|lia]. }
  destruct (ipPrefix ip (TrustIPMask cfg)) as [prefix'|]; [|done]. destruct (String.eqb_spec prefix prefix') as [->|]; [|done].
  intros [= Hb]. apply bool_decide_eq_true in Hb as [= ->]. by exists prefix', e.
Qed.
End TrustSpec.

(** ** Examples *)

(** A coding in place of base64. *)
Definition nibble (n : nat) : ascii := Ascii.ascii_of_nat (97 + n).
Definition unnibble (c : ascii) : nat := (Ascii.nat_of_ascii c - 97)%nat.
Fixpoint sample_b64 (s : string) : string :=
  match s with
  | EmptyString => ""
  | String c s => String (nibble (Ascii.nat_of_ascii c / 16)) (String (nibble (Ascii.nat_of_ascii c mod 16)) (sample_b64 s))
  end.
Fixpoint sample_decode (s : string) : option string :=
  match s with
  | EmptyString => Some ""
  | String a (String b s) => String (Ascii.ascii_of_nat (unnibble a * 16 + unnibble b)) <$> sample_decode s
  | _ => None
  end.

Lemma sample_roundtrip s : sample_decode (sample_b64 s) = Some s.
Proof.
  induction s as [|c s IH]; [done|]. cbn [sample_b64 sample_decode]. rewrite IH. cbn [fmap option_fmap option_map]. do 2 f_equal.
  by destruct c as [[] [] [] [] [] [] [] []].
Qed.

Lemma sample_no_dot s : string_has "." (sample_b64 s) = false.
Proof.
  induction s as [|c s IH]; [done|]. cbn [sample_b64 string_has]. rewrite IH. by destruct c as [[] [] [] [] [] [] [] []].
Qed.

Definition sample_mac (s : string) : string := "k" +:+ s.
Definition sample_gate : CaptchaGateConfig := mkGateConfig true 7 24 false.
Definition sample_cookie : string := default "" (IssueTrustCookie sample_mac sample_b64 sample_gate (1000 * Second) 42 "192.168.77.5").

Lemma trust_cookie_exact_witness :
  WaivedByTrust sample_mac sample_decode sample_gate (600000 * Second) sample_cookie 42 "192.168.77.200" = Some true.
Proof.
  rewrite (trust_cookie_exact sample_mac sample_b64 sample_decode sample_roundtrip sample_no_dot sample_gate sample_gate (1000 * Second) (600000 * Second) 42 42
             "192.168.77.5" "192.168.77.200" sample_cookie "192.168.77.0" "192.168.77.0").
  1: reflexivity.
  1, 2: vm_compute; split; [discriminate|reflexivity].
  1: vm_compute; split; [reflexivity|discriminate].
  all: vm_compute; reflexivity.
Defined.

Lemma trust_cookie_sound_witness :
  exists prefix e, (42, prefix, e) ∈ [(42, "192.168.77.0", 605800)] /\ Unix (600000 * Second) <= e /\ (0 < 24 -> ipPrefix "192.168.77.200" 24 = Some prefix).
Proof.
  apply (trust_cookie_sound sample_mac sample_decode [(42, "192.168.77.0", 605800)] sample_gate (600000 * Second) sample_cookie 42 "192.168.77.200").
  - intros payload. vm_compute. intros [= <-]. exists 42, "192.168.77.0", 605800. split; [left|reflexivity].
  - intros u prefix e Hin. apply list_elem_of_singleton in Hin as [= -> -> ->]. vm_compute. split_and!; first [discriminate|reflexivity].
  - vm_compute. reflexivity.
Defined.

Definition sample_slider : SliderConfig := mkSlider 300 150 44 (Fint 5) 5 300.

(** A drag through the given positions, one point every 80 ms, trembling by two pixels. *)
Definition drag (xs : list Z) : list Point := imap (fun i x => mkPoint (Fint x) (Fint (if Nat.even i then 0 else 2)) (80 * Z.of_nat i)) xs.
Definition human : list Point := drag [0; 4; 14; 30; 50; 70; 85; 94; 98; 100].
Definition sample_challenge : StoredChallenge := mkChallenge (Fint 100) "10.0.0.1" "login".

Example human_passes : ScoreSliderTrajectory human (Fint 100) (Fint 5) 5 = Some (mkVerdict true 1 []).
Proof. vm_compute. reflexivity. Qed.

Definition sample_ops : list captcha_op :=
  [OIssue "c1" "10.0.0.1" "login" 92 0 Delivered; OVerify "c1" "10.0.0.1" (drag [64; 70; 80; 96; 120; 136; 148; 152; 155; 156]) Delivered Delivered;
   OVerify "c1" "10.0.0.1" human Delivered Delivered].

Lemma challenge_passes_once_witness : NoDup (snd (fold_left (captcha_op_step sample_slider) sample_ops (∅, []))).
Proof.
  apply (challenge_passes_once sample_slider sample_ops).
  - apply NoDup_singleton.
  - repeat constructor; discriminate.
Defined.

(** Two verifications that load a challenge before either deletes it both pass. *)
Theorem concurrent_verifies_both_pass :
  let s : store := {["c1" := sample_challenge]} in
  let loaded := Load "c1" Delivered s in
  let '(v1, s1) := verify_finish sample_slider "c1" "10.0.0.1" human loaded Delivered s in
  let '(v2, s2) := verify_finish sample_slider "c1" "10.0.0.1" human loaded Delivered s1 in
  Pass <$> v1 = Some true /\ Pass <$> v2 = Some true.
Proof. vm_compute. by split. Qed.

(** A steady drag is refused from left to right, and accepted from right to left: its
    variation is negative. *)
Theorem leftward_drag_skips_velocity :
  let steady := [0; 11; 22; 34; 45; 56; 67; 78; 89; 100] in
  ScoreSliderTrajectory (drag steady) (Fint 100) (Fint 5) 5 = Some (mkVerdict false 1 ["constant_velocity"]) /\
  ScoreSliderTrajectory (drag (map (fun x => 200 - x) steady)) (Fint 100) (Fint 5) 5 = Some (mkVerdict true 1 []).
Proof. vm_compute. by split. Qed.

(** A prefix length above 32, which the settings accept, makes the cookie panic for IPv4
    addresses. *)
Theorem long_prefix_panics :
  IssueTrustCookie sample_mac sample_b64 (mkGateConfig true 7 64 false) (1000 * Second) 42 "192.168.77.5" = None /\
  WaivedByTrust sample_mac sample_decode (mkGateConfig true 7 64 false) (1000 * Second) sample_cookie 42 "192.168.77.5" = None.
Proof. vm_compute. by split. Qed.

(** A trust period of 106752 days in the configuration file overflows the duration: in 2026
    the cookie is issued with an expiry in the year 1734 and waives nothing, even at once. *)
Theorem long_trust_is_born_expired :
  let cfg := mkGateConfig true 106752 24 false in
  let now := 1780000000 * Second in
  let cookie := default "" (IssueTrustCookie sample_mac sample_b64 cfg now 42 "192.168.77.5") in
  signed_payload sample_mac sample_decode cookie = Some (trust_payload 42 "192.168.77.0" (-7443371274)) /\
  WaivedByTrust sample_mac sample_decode cfg now cookie 42 "192.168.77.5" = Some false.
Proof. vm_compute. by split. Qed.

Example one_of_two_passes : snd (fold_left (captcha_op_step sample_slider) sample_ops (∅, [])) = ["c1"].
Proof. vm_compute. reflexivity. Qed.
