(* ===== verification/Prober.v ===== *)
(** * Circuit prober: [internal/service/circuit_prober.go]

    The background loop that probes open circuits and closes those whose upstream serves
    again, on top of the tracker of [Health], whose other callers run in between.  The
    registry, the repositories and the upstream are answers of the environment. *)

From stdpp Require Import list gmap.
From S2P Require Import Prelude Health.

Definition probeConcurrency : nat := 8.

(** What a probe meets: whether the provider is registered, its row and key can be read, the
    answer of the models list ([None]: not a lister), the first mapped model, and the models
    that answer a chat. *)
Record probe_env := mkEnv {
  peRegistered : bool;
  peRow : bool;
  peSecret : bool;
  peModels : option bool;
  peFirstModel : option string;
  peChat : string -> bool
}.

(** The model of the chat: the circuit's own, or the first mapping. *)
Definition chat_model (env : probe_env) (model : string) : string :=
  if String.eqb model "" then default "" (peFirstModel env) else model.

(** [probeOne]: whether the circuit is closed. *)
Definition probeOne (probePath : string) (env : probe_env) (s : ProviderHealthSnapshot) : bool :=
  if negb (peRegistered env) then false
  else if negb (peRow env) then false
  else if negb (peSecret env) then false
  else if negb (String.eqb probePath "") && String.eqb (snapModel s) "" && match peModels env with Some ok => ok | None => false end then true
  else
    let modelName := chat_model env (snapModel s) in
    if String.eqb modelName "" then false else peChat env modelName.

(** The loop: the circuits still to be probed in the pass, the probes in flight, and every
    close so far with what its probe met. *)
Record prober := mkProber {
  prHealth : HealthTracker;
  prQueue : list ProviderHealthSnapshot;
  prActive : list ProviderHealthSnapshot;
  prClosed : list (ProviderHealthSnapshot * probe_env)
}.

Definition open_circuits (now : Z) (h : HealthTracker) : list ProviderHealthSnapshot :=
  List.filter (fun s => String.eqb (snapState s) (CircuitStateT_String CircuitOpen)) (Snapshot now h).

Inductive prober_event :=
  | PTick (now1 now2 : Z)
  | PLaunch
  | PCancel
  | PFinish (i : nat) (env : probe_env)
  | POther (o : health_op).

(** One step: a tick starts a pass when the last one has ended, a probe starts while there is
    a slot, a cancelled context ends the loop of the pass, a probe ends. *)
Definition prober_step (probePath : string) (p : prober) (e : prober_event) : prober :=
  match e with
  | PTick now1 now2 =>
      match prQueue p, prActive p, open_circuits now1 (prHealth p) with
      | [], [], _ :: _ => mkProber (prHealth p) (open_circuits now2 (prHealth p)) [] (prClosed p)
      | _, _, _ => p
      end
  | PLaunch =>
      match prQueue p with
      | s :: queue => if (length (prActive p) <? probeConcurrency)%nat then mkProber (prHealth p) queue (prActive p ++ [s]) (prClosed p) else p
      | [] => p
      end
  | PCancel => mkProber (prHealth p) [] (prActive p) (prClosed p)
  | PFinish i env =>
      match prActive p !! i with
      | None => p
      | Some s =>
          let active := delete i (prActive p) in
          if probeOne probePath env s
          then mkProber (ResolveCircuit (prHealth p) (snapProvider s) (snapModel s)) (prQueue p) active (prClosed p ++ [(s, env)])
          else mkProber (prHealth p) (prQueue p) active (prClosed p)
      end
  | POther o => mkProber (apply_op o (prHealth p)) (prQueue p) (prActive p) (prClosed p)
  end.

Definition prober_run (probePath : string) (es : list prober_event) (p : prober) : prober := fold_left (prober_step probePath) es p.

(** ** Evidence *)

(** The upstream has served a chat of the model, or, for the circuit of an account, listed
    its models. *)
Definition evidence (s : ProviderHealthSnapshot) (env : probe_env) : Prop :=
  (snapModel s = "" /\ peModels env = Some true) \/
  exists model, model <> "" /\ peChat env model = true /\ (snapModel s = "" -> peFirstModel env = Some model) /\ (snapModel s <> "" -> model = snapModel s).

Lemma probeOne_evidence path env s : probeOne path env s = true -> evidence s env.
Proof.
  unfold probeOne, evidence, chat_model. destruct (peRegistered env), (peRow env), (peSecret env); try done. cbn [negb].
  destruct (String.eqb_spec (snapModel s) "") as [E|E].
  - destruct (negb (String.eqb path "") && true && match peModels env with Some ok => ok | None => false end) eqn:C.
    { intros _. left. apply andb_true_iff in C as [_ C]. by destruct (peModels env) as [[]|]. }
    destruct (peFirstModel env) as [m|]; cbn; [|done]. destruct (String.eqb_spec m "") as [|Hm]; [discriminate|].
    intros Hc. right. exists m. by split_and!.
  - rewrite andb_false_r. cbn [andb]. destruct (String.eqb_spec (snapModel s) ""); [done|]. intros Hc. right. by exists (snapModel s).
Qed.

Definition was_open (s : ProviderHealthSnapshot) : Prop := snapState s = CircuitStateT_String CircuitOpen.

Definition probing_ok (p : prober) : Prop :=
  (length (prActive p) <= probeConcurrency)%nat /\
  Forall was_open (prQueue p ++ prActive p) /\
  Forall (fun c => was_open (fst c) /\ evidence (fst c) (snd c)) (prClosed p).

Lemma probing_step path p e : probing_ok p -> probing_ok (prober_step path p e).
Proof.
  intros Hp. pose proof Hp as (H1 & H2 & H3). destruct e as [n1 n2| | |i env|o]; cbn [prober_step].
  - destruct (prQueue p); [|exact Hp]. destruct (prActive p); [|exact Hp]. destruct (open_circuits n1 (prHealth p)); [exact Hp|].
    split_and!; [apply Nat.le_0_l| |done]. cbn [prActive prQueue]. rewrite app_nil_r. apply Forall_forall. intros s Hs.
    apply list_elem_of_In, filter_In in Hs as [_ Hs]. by apply String.eqb_eq.
  - destruct (prQueue p) as [|s queue]; [exact Hp|]. destruct (Nat.ltb_spec (length (prActive p)) probeConcurrency); [|exact Hp].
    cbn in H2. apply Forall_cons in H2 as [Hs H2]. apply Forall_app in H2 as [? ?].
    split_and!; cbn [prActive prQueue prClosed]; [rewrite length_app; cbn; lia| |done]. rewrite !Forall_app. split_and!; [done|done|by constructor].
  - apply Forall_app in H2 as [_ H2]. by split_and!.
  - destruct (prActive p !! i) as [s|] eqn:Ei; [|exact Hp]. apply Forall_app in H2 as [Hq Ha]. pose proof (Forall_lookup_1 _ _ _ _ Ha Ei) as Hs.
    assert (Forall was_open (prQueue p ++ delete i (prActive p))) by (apply Forall_app; split; [done|by apply Forall_delete]).
    assert (length (delete i (prActive p)) <= probeConcurrency)%nat by (rewrite length_delete by done; lia).
    destruct (probeOne path env s) eqn:E; split_and!; try done. cbn [prClosed].
    apply Forall_app. split; [done|]. apply Forall_singleton. split; [done|]. by eapply probeOne_evidence.
  - exact Hp.
Qed.

(** Whatever runs next to it, the prober has at most eight probes in flight, probes only
    circuits that were open when its pass began, and closes them only on evidence of their own
    model, or of the account for an account's circuit. *)
Theorem prober_is_bounded_and_sound path es h : probing_ok (prober_run path es (mkProber h [] [] [])).
Proof.
  unfold prober_run. assert (probing_ok (mkProber h [] [] [])) as Hp by (split_and!; [apply Nat.le_0_l|constructor|constructor]).
  revert Hp. generalize (mkProber h [] [] []). induction es as [|e es IH]; intros p Hp; [done|]. by apply IH, probing_step.
Qed.

(** ** Recovery *)

(** A pass that runs alone: launches and ends of all its probes. *)
Definition whole_pass (n : nat) (env : probe_env) : list prober_event := concat (replicate n [PLaunch; PFinish 0 env]).

(** The keys of the tracker: a provider, or a provider and a model. *)
Definition proper_key (k : string) : bool := match split_last_bar k with Some (_, EmptyString) => false | _ => true end.

Lemma split_last_bar_join k n m : split_last_bar k = Some (n, m) -> k = n +:+ "|" +:+ m.
Proof.
  revert n. induction k as [|c k IH]; intros n; cbn [split_last_bar]; [done|]. destruct (split_last_bar k) as [[n' m']|].
  - intros [= <- <-]. exact (f_equal (String c) (IH n' eq_refl)).
  - destruct (Ascii.eqb_spec c bar) as [->|]; [|done]. by intros [= <- <-].
Qed.

Lemma resolve_lookup h name model k : states (ResolveCircuit h name model) !! k = if bool_decide (k ∈ keys name model) then None else states h !! k.
Proof.
  unfold ResolveCircuit, with_states. cbn [states]. induction (keys name model) as [|x l IH]; cbn [foldr]; [done|].
  destruct (decide (x = k)) as [->|Hx].
  - rewrite lookup_delete_eq, bool_decide_true; [done|by left].
  - rewrite lookup_delete_ne, IH by done. rewrite (bool_decide_ext (k ∈ x :: l) (k ∈ l)) by set_solver. done.
Qed.

Lemma entry_keys now k s : proper_key k = true -> k ∈ keys (snapProvider (snapshot_entry now k s)) (snapModel (snapshot_entry now k s)).
Proof.
  unfold proper_key, snapshot_entry, keys. intros Hk. destruct (split_last_bar k) as [[n m]|] eqn:E; cbn [snapProvider snapModel].
  - destruct (String.eqb_spec m "") as [->|]; [done|]. rewrite (split_last_bar_join _ _ _ E). right. left.
  - left.
Qed.

Lemma launch_finish path env s l h closed :
  prober_step path (prober_step path (mkProber h (s :: l) [] closed) PLaunch) (PFinish 0 env)
  = if probeOne path env s then mkProber (ResolveCircuit h (snapProvider s) (snapModel s)) l [] (closed ++ [(s, env)]) else mkProber h l [] closed.
Proof. reflexivity. Qed.

Lemma pass_spec path env (l : list ProviderHealthSnapshot) h closed :
  (forall s, s ∈ l -> probeOne path env s = true) ->
  let p := prober_run path (whole_pass (length l) env) (mkProber h l [] closed) in
  prQueue p = [] /\ prActive p = [] /\
  forall k, states (prHealth p) !! k = if bool_decide (Exists (fun s => k ∈ keys (snapProvider s) (snapModel s)) l) then None else states h !! k.
Proof.
  cbn zeta. unfold prober_run. revert h closed. induction l as [|s l IH]; intros h closed Hl.
  - split_and!; [done|done|]. intros k. rewrite bool_decide_false; [reflexivity|]. intros Hx. by apply Exists_nil in Hx.
  - change (whole_pass (length (s :: l)) env) with (PLaunch :: PFinish 0 env :: whole_pass (length l) env). cbn [fold_left].
    rewrite launch_finish, (Hl s) by by left.
    destruct (IH (ResolveCircuit h (snapProvider s) (snapModel s)) (closed ++ [(s, env)])) as (I1 & I2 & I3); [set_solver|].
    split_and!; [done|done|]. intros k. rewrite I3, resolve_lookup. clear.
    rewrite (bool_decide_ext (Exists _ (s :: l)) _ (Exists_cons _ s l)).
    destruct (decide (k ∈ keys (snapProvider s) (snapModel s))) as [Hk|Hk].
    + rewrite (bool_decide_true (k ∈ _)), (bool_decide_true (_ \/ _)) by tauto. by destruct (bool_decide _).
    + rewrite (bool_decide_false (k ∈ _)) by done. rewrite (bool_decide_ext (_ \/ _) (Exists (fun s => k ∈ keys (snapProvider s) (snapModel s)) l)) by tauto. done.
Qed.

(** The upstream serves: the provider can be probed and answers every chat. *)
Definition serving (env : probe_env) : Prop :=
  peRegistered env = true /\ peRow env = true /\ peSecret env = true /\ (forall m, peChat env m = true) /\ exists m, peFirstModel env = Some m /\ m <> "".

Lemma serving_probe path env s : serving env -> probeOne path env s = true.
Proof.
  intros (H1 & H2 & H3 & H4 & m & H5 & Hm). unfold probeOne, chat_model. rewrite H1, H2, H3, H5. cbn [negb]. case_match; [done|].
  destruct (String.eqb_spec (snapModel s) "") as [E|E].
  - change (default "" (Some m)) with m. destruct (String.eqb_spec m ""); [done|]. apply H4.
  - destruct (String.eqb_spec (snapModel s) ""); [done|]. apply H4.
Qed.

(** One pass over an upstream that serves again leaves no circuit open. *)
Theorem recovered_upstream_closes_circuits path env now h closed :
  map_Forall (fun k _ => proper_key k = true) (states h) -> serving env ->
  let p := prober_run path (PTick now now :: whole_pass (length (open_circuits now h)) env) (mkProber h [] [] closed) in
  prQueue p = [] /\ prActive p = [] /\ forall k, key_state now (prHealth p) k <> CircuitOpen.
Proof.
  intros Hk He. cbn zeta.
  assert (prober_step path (mkProber h [] [] closed) (PTick now now) = mkProber h (open_circuits now h) [] closed) as Et
    by (cbn [prober_step prQueue prActive prHealth prClosed]; by destruct (open_circuits now h)).
  unfold prober_run. cbn [fold_left]. rewrite Et. fold (prober_run path (whole_pass (length (open_circuits now h)) env) (mkProber h (open_circuits now h) [] closed)).
  destruct (pass_spec path env (open_circuits now h) h closed) as (P1 & P2 & P3); [intros s _; by apply serving_probe|].
  split_and!; [exact P1|exact P2|]. intros k. unfold key_state. rewrite P3. case_bool_decide as Hx; [done|].
  destruct (states h !! k) as [s|] eqn:Es; [|done]. intros Ho. apply Hx, Exists_exists. exists (snapshot_entry now k s). split; [|apply entry_keys, (Hk k s Es)].
  apply list_elem_of_In, filter_In. split.
  - apply list_elem_of_In. unfold Snapshot. apply list_elem_of_fmap. exists (k, s). split; [done|]. by apply elem_of_map_to_list.
  - unfold snapshot_entry. destruct (match split_last_bar k with Some nm => nm | None => (k, "") end) as [n m]. cbn [snapState]. by rewrite Ho.
Qed.

(** ** Examples *)

Definition down_tracker : HealthTracker :=
  RecordPersistentFailure 0 (RecordPersistentFailure 0 NewHealthTracker "acme" "m1" "model" 0) "acme" "m2" "account" 0.
Definition up : probe_env := mkEnv true true true (Some true) (Some "m1") (fun _ => true).

Lemma recovered_upstream_closes_circuits_witness :
  length (open_circuits 1 down_tracker) = 2%nat /\
  forall k, key_state 1 (prHealth (prober_run "/models" (PTick 1 1 :: whole_pass 2 up) (mkProber down_tracker [] [] []))) k <> CircuitOpen.
Proof.
  split; [vm_compute; reflexivity|].
  apply (recovered_upstream_closes_circuits "/models" up 1 down_tracker []).
  - apply (bool_decide_unpack _). vm_compute. exact I.
  - split_and!; try reflexivity. exists "m1". split; [reflexivity|discriminate].
Defined.

(** A probe that succeeded closes its circuit even when the circuit has failed anew since the
    probe began. *)
Theorem late_close_discards_failure :
  let p := prober_run "" [PTick 1 1; PLaunch; POther (OpPersistent 5 "acme" "m1" "model" 0); PFinish 0 up]
             (mkProber (RecordPersistentFailure 0 NewHealthTracker "acme" "m1" "model" 0) [] [] []) in
  CircuitState 6 (prHealth p) "acme" "m1" = CircuitClosed.
Proof. vm_compute. reflexivity. Qed.
